(* ===== verification/_CoqProject ===== *)
-Q . S2P
Prelude.v
Types.v
CowCache.v
Watcher.v
Mirror.v
F64.v
Rounding.v
Acl.v
Quota.v
Schema.v
Kube.v
Apply.v
ApplyFacts.v
Filter.v
Subscribe.v
SubscribeFacts.v
TenantCache.v
Secrets.v
Server.v
Gateway.v
ConfigMap.v
Typing.v
Consumer.v
Startup.v
Telemetry.v
Lifecycle.v
EndToEnd.v
Cli.v
Flame.v
FlameFacts.v
LoadTest.v
LoadTestFacts.v
Confinement.v
System.v
Metrics.v
Trace.v
Upkeep.v
Scenarios.v
Resources.v
Reports.v
Concurrent.v
Conformance.v
Admission.v
ClientApi.v
Wiring.v
Interleave.v
