(* ===== verification/Prelude.v ===== *)
(** * konfig: a verification library

    konfig is a configuration service in front of a Kubernetes API server.  It
    mirrors custom resources into memory, serves reads from the mirrors, checks
    and forwards writes, and streams changes to subscribers over gRPC, with an
    HTTP gateway in front and a client library on the other side; a command-line
    client, a load test and a flame-graph differ come with it.  This library models
    that program (the crates under src/rust and the tools under src/tools) as
    executable definitions and proves what makes it correct.

    ** How the program is put together

    - Watch streams feed the mirrors: [watcher.rs] and [configmap_watcher.rs]
      fill the Config cache, [secret_watcher.rs] the Secret cache, and [acl.rs],
      [quota.rs], [schema.rs] each publish a policy table rebuilt from a mirror
      of the live objects.  All run under one reconnect loop with backoff.
    - The caches are copy-on-write maps ([cow_cache.rs]) behind an atomic
      pointer: readers load it, writers take a mutex, copy, change and store.
    - The RPCs of [grpc/service.rs] check the drain flag, log, authorize
      ([grpc/authz.rs]), admit against quotas, run a handler and write the audit
      trail.  Writes ([grpc/apply.rs], [grpc/revert.rs], [grpc/secret_apply.rs])
      go to the API server by forced server-side apply after a version check.
    - [grpc/subscribe.rs] and its submodules keep, per namespace, a watch, a
      bounded replay buffer and a sharded broadcast; a subscriber resumes from
      the buffer or gets the cache, then follows the broadcast through a bounded
      channel.  A collector removes idle namespaces.
    - [grpc/http_gateway.rs] exposes the same RPCs as JSON, REST and SSE behind a
      bearer token; konfig-consumer keeps the last good value of each config.
    - [main.rs], [startup.rs] and [grpc/serve.rs] resolve the configuration, start
      the watchers, gate readiness on the cache and drain on a signal.
    - The tools: konfig-cli (commands over the RPCs and the API server),
      konfig-loadtest (scenarios and a p99 gate), konfig-flamediff (flame graphs,
      pprof, a CPU gate).

    ** The files

    - [Prelude]: results and their [let?] notation, decision tactics, machine
      integers ([u32], [u64]) with their parsers, byte and string functions of
      the Rust standard library, and [MapIter]: the unspecified iteration order
      of a hash map as a class, so that what is proved holds for every order.
    - [Types]: JSON values, statuses, the serde shape of a spec, snapshots with
      their memoised serialisation ([types.rs]).
    - [CowCache]: keys, operations, and the writers as a step relation
      ([cache_key.rs], [cow_cache.rs], [cache.rs], [secret_cache.rs]).
    - [Watcher]: parsing, relist batching, pump, reconnect loop ([watcher.rs]).
    - [Mirror]: the policy mirror the three policy watchers share, its connections,
      reconnects and restarts ([mirror_task]), with its laws; [Acl] ([acl.rs], [grpc/authz.rs], [grpc/identity.rs]), [Quota]
      ([quota.rs]) and [Schema] ([schema.rs]) instantiate it.  [F64] and
      [Rounding]: binary64 arithmetic on [SpecFloat], for the token bucket, scalar
      parsing and the tools, and what rounding cannot cross.
    - [Kube]: the API server as the interface [KubeApi] with the documented
      behaviour as [KubeLaws] (a 4xx answer stores nothing, any other failure may
      come after the write); [ScriptKube], with scripted failures and foreign
      writes, implements it and satisfies the laws.
    - [Apply] and [ApplyFacts]: Apply, BatchApply, DryRunApply, Revert and their
      theorems against [KubeLaws].
    - [Concurrent]: [apply_spec] cut at its requests, overlapping Applies under any
      schedule.  [Interleave]: the four handlers that use the API server for Configs
      as trees of their requests, equal to the handlers, and any mix of them under
      any schedule.
    - [Filter], [Subscribe], [SubscribeFacts]: selectors, replay, channels,
      fan-out, pumps, collector ([grpc/subscribe.rs], [grpc/subscribe/*.rs]).
    - [TenantCache]: the per-tenant ledger ([tenant_cache.rs]).
    - [Secrets]: the secret path end to end ([secret_watcher.rs],
      [grpc/secret_apply.rs], [grpc/secret_get.rs], [grpc/subscribe_secrets.rs]),
      with its own API interface [SecretApi] and [SecretLaws].
    - [Server]: every RPC as it is composed in [grpc/service.rs], with
      [grpc/mod.rs], [grpc/context.rs], [grpc/audit.rs], [grpc/drain.rs] and
      [grpc/get.rs].
    - [Gateway] ([grpc/http_gateway.rs]), [ConfigMap] ([configmap_watcher.rs],
      [import.rs], [value_parse.rs]) and [Consumer] (konfig-consumer).
    - [Typing]: the typing invariant of the caches through every writer and read.
    - [Startup]: arguments, TLS files ([grpc/tls.rs]), the order of start-up, the
      server it builds, readiness and drain ([startup.rs], [grpc/serve.rs]).
      [Telemetry]: tracing set-up ([telemetry.rs], [main.rs]) and the allocation
      stream sink ([stream_sink.rs]).
    - [Lifecycle]: the life of a namespace's watch between Subscribe, the end of
      the stream and the collector ([grpc/subscribe/watch.rs]).
    - [EndToEnd]: the client's calls, and the path of a value from one client
      through server, cluster and watch to another.
    - [Cli] (konfig-cli), [Flame] and [FlameFacts] (konfig-flamediff), [LoadTest],
      [LoadTestFacts] and, for the scenarios as a whole, [Scenarios]
      (konfig-loadtest).
    - [Confinement]: what any RPC can touch, of the cluster and of the shared
      state; [System]: the running server as one state machine, whose actions are
      the definitions of the components (RPCs, dropped streams, every watch, the
      collector, the drain).
    - [Metrics]: the metric statics, their registration at first use and every
      recorder, over the Prometheus registry as an interface with laws
      ([metrics.rs]).  [Trace]: the trace context from an Apply through the
      annotation to the links of the dispatch spans ([telemetry.rs],
      [grpc/subscribe/watch.rs]).  [Upkeep]: the collector task with its panic
      guard, the metrics listener's handlers, [GuardedStream].  [Resources]: the
      API resources and requests, the definitions and roles installed
      (infra/konfig).  [Admission]: the OpenAPI schemas of the definitions, what they
      admit and what pruning keeps.  [Reports]: the markdown of the two gates.
    - [ClientApi]: the rest of the client library (get, subscribe, handle reads, the
      staleness gauge).  [Wiring]: lock recovery ([sync_util.rs]), span status and
      request ids ([grpc/context.rs]).
    - [Conformance]: unit tests of the repository, evaluated on the definitions.

    ** How state and effects are written

    A Rust [Result] is [result]; a handler that talks to the API server is in the
    monad [M] of [Kube] (the cluster, the requests sent, the sleeps); an RPC is in
    the state monad [SM] of [Server] (that environment, the namespace maps, the
    per-tenant state, the logs).  A watch stream is the list of its items with the
    instant each is handled; a bounded channel is [Chan], whose schedule says when
    the client reads, so slow clients are explicit; a receiver of a broadcast ring
    is [Receiver], what it can still read and how much was overwritten.  Threads that share state are
    step relations ([step] in [CowCache], [sub_step] in [Quota], [pool_step] in
    [Concurrent], [mix_step] in [Interleave], [proc_step] in [Startup], [life_step] in [Lifecycle], [sink_step] in [Telemetry]); the other
    interleavings are explicit arguments (what another task does between two reads
    of a buffer, between the two phases of the collector, between a version check
    and a patch).  Maps are [gmap]; integers are [Z] with their range or their
    wrap-around written out.

    Code outside the repository is a parameter: YAML and JSON codecs, base64, the
    JSON-Schema validator, X.509 parsing, label-selector matching, the API server.
    What the program relies on is a named law, and each law is shown satisfiable by
    an instance used in the witnesses.

    ** What the theorems show

    - The whole server: whatever it is asked and whatever its watches deliver, the
      caches stay typed, the subscriber counts exact and the writes audited; its
      history only grows; no write happens without its grant (C5-C7, for RPCs served
      one at a time).  Overlapping
      writers of any kind never take a version below where they found it, and each
      ends (C8; [concurrent_applies] adds the reasons of a refusal).
    - Writes: versions only go up, batches are all or nothing, revert follows the
      same gate, the retry loop stops after three attempts, a written secret reads
      back (C1, C4, C25, C26, C33).  [dry_run_read_only] is the read-only twin;
      [apply_lost_update] and [acknowledged_overwritten] are what another writer can
      do between check and patch.
    - Caches: writers are linearizable, a relist equals its events, the last known
      good value survives disconnects, every entry is well typed and reads answer
      what was asked (C2, C11-C13, C15).
    - Policy: over any connections, errors and restarts the published tables are
      those of the objects as the last connection that reported one described them
      (C20, C22, C24); the subscriber counts and the ledger decide as documented
      (C21, C23).  [acl_reconnect_window] is what that means in the middle of a
      relist, and [schema_name_collision] why C24 asks for distinct names.
    - The service: no RPC acts without its grants, every write and secret read is
      audited (C3, C14); a draining server refuses all but Revert ([drain_gate]).
    - Streams: what a resume owes covers what the client missed, and the client
      gets a prefix of it in order (C9, C10, C27, for buffered versions that
      increase); the buffer is exact (C28); sharding is invisible and the 1024-slot
      rings lose nothing silently (C29), coalescing is invisible, selectors parse
      back (C30, C32); the collector takes exactly the idle namespaces
      ([gc_tick_exact]) and gets to each of them unless a panic falls inside its
      own teardown (C31, which says what then leaks); a namespace stays whole
      when its operations do not overlap (C17), and [namespace_races] is what
      happens when they do.  [relist_order_resume_gap] and
      [secret_subscribe_window] are windows where events are lost.
    - The process: misconfiguration stops it before it acts, TLS is never half
      configured, the server denies until its grants are known, readiness means a
      populated cache and is reached (C18, C19, C36, [gateway_fail_safe],
      [readiness_liveness]).
    - End to end and the edges: what one client applies another reads, the client
      keeps the last good value, the bearer token guards every route (C16, C34,
      C35); import agrees with the watcher ([import_matches_watcher]).
    - Observability: a broadcast is linked to the Apply behind it, a scrape shows
      what was recorded (C37, C38).
    - The tools: pprof output reads back as the flame graph, percentiles are in
      range and ordered (C39, C40); apply-secret equals the RPC
      ([cli_apply_secret_equiv]); when a flood scenario passes ([flood_pass_exact]),
      the two regression gates ([gate_verdict], [bumped_baseline_passes]), what
      their reports say ([perf_report_verdict], [flame_report_verdict]) and the
      summary's round trip ([results_roundtrip]) are lemmas beside them.
    - The installation: every request goes to a served path, and what the roles
      allow ([requests_served], [roles_cover_requests]); what conforms to a
      definition is understood by its watcher, whole ([quota_understood],
      [acl_understood], [schema_understood], [config_understood]); a document whose
      content is not an object passes DryRunApply and fails Apply as if the cluster
      were away ([shape_refused]).
    - The edges of a call: minted request ids never repeat ([request_ids_unique]), a
      poisoned lock goes unnoticed ([poison_invisible]); the two reconnect loops of
      the client make the same requests ([loops_agree]) and a handle always has a
      value ([handle_always_reads]).

    ** Bounds and fuel

    Fuel is used where the recursion is not structural and is always enough:
    the retry loops run on 3 (the ladder has two delays; a call of [Interleave]
    then takes at most [cost] turns), [evict_loop] on one unit
    per entry of the view, the binary search on the length of the slice, [hex] on
    32 digits (a [u128]), [varint] on the ten groups of a [u64], [skip_parents] on
    the bars of the level above; [poll_loop] takes the number of polls, and
    [readiness_liveness] says how many are enough.  The percentile theorem is for up to 2^40 samples
    (16 TiB of them).  The channel capacity (256), broadcast ring (1024), replay
    size (1000), batch of the coalescer (16) and grace period (30 s) are the source's constants.

    Runs of [System] hold fewer than 2^32 - 1 streams at once (the counts are
    [u32]); sums of a metric are exact below 2^53.

    ** Not modelled

    Build scripts; the bucket an observation falls into; clap's argument grammar;
    sockets and the HTTP and gRPC transports themselves; the allocator smoke test.
    In [System] an RPC is one action that runs to its end: overlapping requests are
    the step relations above, and a call cancelled half way (between a patch and
    its audit record, say) is not modelled. *)
From Stdlib Require Export ZArith Lia Ascii String.
From stdpp Require Export base tactics option gmap strings sorting numbers.
From stdpp Require Export list.
#[global] Set Default Goal Selector "!".
#[global] Open Scope Z_scope.
#[global] Arguments String.append : simpl nomatch.

(** ** Results

    Rust's [Result<A, E>]: the fallible functions of the program return it and
    thread it with [?], written [let? x := m in k] here. *)
Inductive result (A E : Type) : Type :=
  | Ok (a : A)
  | Err (e : E).
Arguments Ok {A E} a.
Arguments Err {A E} e.

Definition result_bind {A B E} (m : result A E) (k : A → result B E) : result B E :=
  match m with Ok a => k a | Err e => Err e end.

Definition map_err {A E F} (f : E → F) (m : result A E) : result A F :=
  match m with Ok a => Ok a | Err e => Err (f e) end.

Definition is_ok {A E} (m : result A E) : bool :=
  match m with Ok _ => true | Err _ => false end.

Definition ok_or {A E} (o : option A) (e : E) : result A E :=
  match o with Some a => Ok a | None => Err e end.

Declare Scope konfig_scope.
Delimit Scope konfig_scope with konfig.
Notation "'let?' x := m 'in' k" := (result_bind m (fun x => k))
  (at level 10, x pattern, m at level 100, k at level 200) : konfig_scope.
#[global] Open Scope konfig_scope.

(** [iter().map(f).collect::<Result<Vec<_>, _>>()]: stops at the first error. *)
Fixpoint try_map {A B E} (f : A → result B E) (l : list A) : result (list B) E :=
  match l with
  | [] => Ok []
  | a :: l' => let? b := f a in let? bs := try_map f l' in Ok (b :: bs)
  end.

(** ** Automation *)

Create HintDb konfig discriminated.

(** Split every [match]/[if] of the goal or of the hypotheses whose scrutinee is
    not itself a match, clean up with [simplify_eq]. *)
Ltac case_step :=
  match goal with
  | |- context [match ?x with _ => _ end] =>
      lazymatch x with context [match _ with _ => _ end] => fail | _ => destruct x eqn:? end
  | H : context [match ?x with _ => _ end] |- _ =>
      lazymatch x with context [match _ with _ => _ end] => fail | _ => destruct x eqn:? end
  end.
Ltac case_all := repeat (case_step; simplify_eq/=).

(** Turn boolean hypotheses into propositions. *)
Ltac bools :=
  repeat match goal with
  | H : (_ && _)%bool = true |- _ => apply andb_prop in H as [? ?]
  | H : (_ || _)%bool = false |- _ => apply orb_false_elim in H as [? ?]
  | H : negb _ = true |- _ => apply negb_true_iff in H
  | H : negb _ = false |- _ => apply negb_false_iff in H
  | H : bool_decide _ = true |- _ => apply bool_decide_eq_true_1 in H
  | H : bool_decide _ = false |- _ => apply bool_decide_eq_false_1 in H
  | H : (_ <? _) = true |- _ => apply Z.ltb_lt in H
  | H : (_ <? _) = false |- _ => apply Z.ltb_ge in H
  | H : (_ <=? _) = true |- _ => apply Z.leb_le in H
  | H : (_ <=? _) = false |- _ => apply Z.leb_gt in H
  | H : (_ =? _) = true |- _ => apply Z.eqb_eq in H
  | H : (_ =? _) = false |- _ => apply Z.eqb_neq in H
  end.

(** ** Machine integers

    A [w]-bit unsigned integer is a [Z] in [0, 2^w); the operations below write
    out what Rust does at the edges. *)
Definition u32_max : Z := 4294967295.
Definition u64_max : Z := 18446744073709551615.
Definition i64_min : Z := -9223372036854775808.
Definition i64_max : Z := 9223372036854775807.

Definition in_u32 (z : Z) : Prop := 0 ≤ z ≤ u32_max.
Definition in_u64 (z : Z) : Prop := 0 ≤ z ≤ u64_max.
#[global] Instance in_u32_dec z : Decision (in_u32 z) := _.
#[global] Instance in_u64_dec z : Decision (in_u64 z) := _.

(** [z as u32] on a [u64]: keeps the low 32 bits. *)
Definition as_u32 (z : Z) : Z := z mod 4294967296.
Definition u32_saturating_add (a b : Z) : Z := Z.min (a + b) u32_max.
Definition u64_saturating_sub (a b : Z) : Z := Z.max (a - b) 0.
Definition u64_saturating_add (a b : Z) : Z := Z.min (a + b) u64_max.

Lemma as_u32_range z : in_u32 (as_u32 z).
Proof. unfold in_u32, as_u32, u32_max. pose proof (Z.mod_pos_bound z 4294967296). lia. Qed.

Lemma as_u32_id z : in_u32 z → as_u32 z = z.
Proof. unfold in_u32, as_u32, u32_max. intros. apply Z.mod_small. lia. Qed.

Lemma u32_saturating_add_range a b : in_u32 a → in_u32 b → in_u32 (u32_saturating_add a b).
Proof. unfold in_u32, u32_saturating_add, u32_max. lia. Qed.

#[export] Hint Resolve as_u32_range u32_saturating_add_range : konfig.

(** ** Strings

    A Rust [str] is its sequence of UTF-8 bytes: a [string], whose characters
    are bytes. *)
Definition bytes_of (s : string) : list Z :=
  map (λ c, Z.of_nat (nat_of_ascii c)) (list_ascii_of_string s).

Definition is_empty (s : string) : bool :=
  match s with EmptyString => true | _ => false end.

Definition starts_with (p s : string) : bool := String.prefix p s.

Fixpoint strip_prefix (p s : string) : option string :=
  match p, s with
  | EmptyString, _ => Some s
  | String a p', String b s' => if Ascii.eqb a b then strip_prefix p' s' else None
  | String _ _, EmptyString => None
  end.

(** [str::split_once(c)] *)
Fixpoint split_once (c : ascii) (s : string) : option (string * string) :=
  match s with
  | EmptyString => None
  | String a s' =>
      if Ascii.eqb a c then Some (EmptyString, s')
      else match split_once c s' with
           | Some (l, r) => Some (String a l, r)
           | None => None
           end
  end.

(** [str::split(c)]: always at least one piece. *)
Fixpoint split_on (c : ascii) (s : string) : list string :=
  match s with
  | EmptyString => [EmptyString]
  | String a s' =>
      if Ascii.eqb a c then EmptyString :: split_on c s'
      else match split_on c s' with
           | [] => [String a EmptyString]
           | p :: ps => String a p :: ps
           end
  end.

Definition contains_char (c : ascii) (s : string) : bool :=
  existsb (Ascii.eqb c) (list_ascii_of_string s).

(** *** [str::trim]: Unicode [White_Space], spelled out on UTF-8 bytes. *)
Definition byte (n : nat) : ascii := ascii_of_nat n.

Definition ws_patterns : list (list ascii) :=
  map (map byte)
   ([[9]; [10]; [11]; [12]; [13]; [32]; [194; 133]; [194; 160]; [225; 154; 128];
     [226; 128; 168]; [226; 128; 169]; [226; 128; 175]; [226; 129; 159]; [227; 128; 128]]%nat
    ++ map (λ k, [226; 128; 128 + k]%nat) (seq 0 11)).

Fixpoint strip_prefix_l (p s : list ascii) : option (list ascii) :=
  match p, s with
  | [], _ => Some s
  | a :: p', b :: s' => if Ascii.eqb a b then strip_prefix_l p' s' else None
  | _ :: _, [] => None
  end.

Definition strip_ws (pats : list (list ascii)) (s : list ascii) : option (list ascii) :=
  fold_right (λ p acc, match strip_prefix_l p s with Some r => Some r | None => acc end)
             None pats.

(** Each round strips one character, so the length is enough fuel. *)
Fixpoint trim_fuel (pats : list (list ascii)) (fuel : nat) (s : list ascii) : list ascii :=
  match fuel with
  | O => s
  | S n => match strip_ws pats s with Some r => trim_fuel pats n r | None => s end
  end.

Definition trim_start_l (s : list ascii) := trim_fuel ws_patterns (length s) s.
Definition trim_end_l (s : list ascii) :=
  rev (trim_fuel (map (@rev ascii) ws_patterns) (length s) (rev s)).

Definition trim (s : string) : string :=
  string_of_list_ascii (trim_end_l (trim_start_l (list_ascii_of_string s))).

Definition lower_char (c : ascii) : ascii :=
  let n := nat_of_ascii c in
  if (65 <=? n)%nat && (n <=? 90)%nat then ascii_of_nat (n + 32) else c.

Definition to_ascii_lowercase (s : string) : string :=
  string_of_list_ascii (map lower_char (list_ascii_of_string s)).

Definition eq_ignore_ascii_case (a b : string) : bool :=
  String.eqb (to_ascii_lowercase a) (to_ascii_lowercase b).

(** *** Integer parsing: [str::parse::<u64>()] and friends accept an optional
    sign, at least one digit, and reject a value out of range. *)
Definition digit_val (c : ascii) : option Z :=
  let n := Z.of_nat (nat_of_ascii c) in
  if (48 <=? n) && (n <=? 57) then Some (n - 48) else None.

Fixpoint parse_digits (acc : Z) (s : string) : option Z :=
  match s with
  | EmptyString => Some acc
  | String c s' =>
      match digit_val c with Some d => parse_digits (10 * acc + d) s' | None => None end
  end.

Definition parse_nat_body (s : string) : option Z :=
  if is_empty s then None else parse_digits 0 s.

Definition parse_unsigned (hi : Z) (s : string) : option Z :=
  let body := match s with String "+" r => r | _ => s end in
  match parse_nat_body body with
  | Some z => if z <=? hi then Some z else None
  | None => None
  end.

Definition parse_u64 : string → option Z := parse_unsigned u64_max.
Definition parse_u32 : string → option Z := parse_unsigned u32_max.

Definition parse_i64 (s : string) : option Z :=
  match s with
  | String "-" r =>
      match parse_nat_body r with
      | Some z => if i64_min <=? - z then Some (- z) else None
      | None => None
      end
  | _ => parse_unsigned i64_max s
  end.

(** *** Byte-wise string order, [Ord for str]. *)
Definition str_leb (a b : string) : bool := String.leb a b.
Definition str_le (a b : string) : Prop := str_leb a b = true.
#[global] Instance str_le_dec a b : Decision (str_le a b).
Proof. unfold str_le. apply _. Defined.

(** A [BTreeSet] of strings iterates in byte order. *)
Definition sorted_strings (s : gset string) : list string := merge_sort str_le (elements s).

Lemma parse_digits_nonneg s : ∀ acc z, 0 ≤ acc → parse_digits acc s = Some z → 0 ≤ z.
Proof.
  induction s as [|c s IH]; simpl; intros acc z Hacc H; [congruence|].
  destruct (digit_val c) as [d|] eqn:Hd; [|discriminate].
  eapply IH; [|exact H]. unfold digit_val in Hd. case_all; bools; lia.
Qed.

Lemma parse_unsigned_range hi s z : parse_unsigned hi s = Some z → 0 ≤ z ≤ hi.
Proof.
  unfold parse_unsigned. intros H.
  destruct (parse_nat_body _) as [w|] eqn:Hb; [|discriminate].
  destruct (w <=? hi) eqn:Hle; [|discriminate]. simplify_eq. bools.
  split; [|done]. revert Hb. unfold parse_nat_body. destruct (is_empty _); [done|].
  intros. eapply parse_digits_nonneg; [|done]. lia.
Qed.

Lemma split_once_spec c s a b :
  split_once c s = Some (a, b) ↔ s = a +:+ String c b ∧ contains_char c a = false.
Proof.
  revert a; induction s as [|x s IH]; intros a; simpl.
  - split; [done|]. intros [H _]. by destruct a.
  - destruct (Ascii.eqb_spec x c) as [->|Hne].
    + split.
      * intros [= <- <-]. split; reflexivity.
      * intros [H Hc]. destruct a as [|y a]; simplify_eq/=; [done|].
        unfold contains_char in Hc; simpl in Hc. by rewrite Ascii.eqb_refl in Hc.
    + destruct (split_once c s) as [[l r]|] eqn:Hs; split.
      * intros [= <- <-]. destruct (IH l) as [[-> Hc] _]; [done|].
        split; [done|]. unfold contains_char in *; simpl.
        destruct (Ascii.eqb_spec c x); [congruence | done].
      * intros [H Hc]. destruct a as [|y a]; simplify_eq/=.
        unfold contains_char in Hc; simpl in Hc. apply orb_false_elim in Hc as [_ Hc].
        assert (H : Some (l, r) = Some (a, b)) by (by apply IH). by simplify_eq.
      * done.
      * intros [H Hc]. destruct a as [|y a]; simplify_eq/=.
        unfold contains_char in Hc; simpl in Hc. apply orb_false_elim in Hc as [_ Hc].
        assert (H : None = Some (a, b)) by (by apply IH). done.
Qed.

(** ** Generic list facts *)

Lemma try_map_ok {A B E} (f : A → result B E) l bs :
  try_map f l = Ok bs ↔ Forall2 (λ a b, f a = Ok b) l bs.
Proof.
  revert bs; induction l as [|a l IH]; intros bs; simpl.
  - split; [intros [=<-]; constructor | inversion 1; done].
  - destruct (f a) as [b|e] eqn:Ha; simpl.
    + destruct (try_map f l) as [bs'|e] eqn:Hl; simpl; split.
      * intros [=<-]. constructor; [done|]. by apply IH.
      * inversion 1; simplify_eq. f_equal. f_equal; [congruence|].
        assert (Ok bs' = Ok l') by (by apply IH). congruence.
      * done.
      * inversion 1; simplify_eq. assert (Err e = Ok l') by (by apply IH). congruence.
    + split; [done | inversion 1; congruence].
Qed.

Lemma try_map_err {A B E} (f : A → result B E) l e :
  try_map f l = Err e →
  ∃ pre a post, l = pre ++ a :: post ∧ f a = Err e ∧ Forall (λ x, is_ok (f x)) pre.
Proof.
  revert e; induction l as [|a l IH]; intros e; simpl; [done|].
  destruct (f a) as [b|e'] eqn:Ha; simpl.
  - destruct (try_map f l) as [bs|e''] eqn:Hl; simpl; [done|]. intros [= ->].
    destruct (IH e eq_refl) as (pre & x & post & -> & Hx & Hpre).
    exists (a :: pre), x, post. split_and!; [done|done|].
    constructor; [by rewrite Ha | done].
  - intros [= ->]. exists [], a, l. auto.
Qed.

Lemma filter_ext_elem {A} (P Q : A → Prop) `{∀ x, Decision (P x)} `{∀ x, Decision (Q x)} (l : list A) :
  (∀ x, x ∈ l → P x ↔ Q x) → filter P l = filter Q l.
Proof.
  induction l as [|x l IH]; intros H1; [done|]. rewrite !filter_cons.
  rewrite IH by (intros y Hy; apply H1; by right).
  pose proof (H1 x (list_elem_of_here x l)). repeat case_decide; tauto.
Qed.

Lemma last_Some_elem_of {A} (l : list A) (x : A) : last l = Some x → x ∈ l.
Proof. intros [l' ->]%last_Some. apply elem_of_app. right. by left. Qed.

Lemma existsb_true {A} (f : A → bool) l : existsb f l = true ↔ ∃ x, x ∈ l ∧ f x = true.
Proof.
  rewrite existsb_exists.
  split; intros (x & Hx & Hf); exists x; (split; [|done]); by apply list_elem_of_In.
Qed.

Lemma forallb_true {A} (f : A → bool) l : forallb f l = true ↔ ∀ x, x ∈ l → f x = true.
Proof.
  rewrite forallb_forall. split; intros H x Hx; apply H; by apply list_elem_of_In.
Qed.

(** A fold whose steps commute does not depend on the order of the list. *)
Lemma foldl_perm {A B} (f : B → A → B) (l l' : list A) b :
  (∀ b x y, f (f b x) y = f (f b y) x) → l ≡ₚ l' → foldl f b l = foldl f b l'.
Proof.
  intros Hf Hp. revert b. induction Hp as [|x l l' _ IH|x y l|l1 l2 l3 _ IH1 _ IH2]; intros b; simpl.
  - done.
  - apply IH.
  - by rewrite Hf.
  - by rewrite IH1.
Qed.

(** ** Text *)

(** *** Strings as lists of characters *)
Lemma chars_app a b :
  list_ascii_of_string (a +:+ b) = list_ascii_of_string a ++ list_ascii_of_string b.
Proof. induction a; simpl; congruence. Qed.

Lemma of_chars_app l l' :
  string_of_list_ascii (l ++ l') = string_of_list_ascii l +:+ string_of_list_ascii l'.
Proof. induction l; simpl; congruence. Qed.

Lemma string_app_nil_r s : s +:+ "" = s.
Proof. induction s; simpl; congruence. Qed.

Lemma string_app_assoc a b c : (a +:+ b) +:+ c = a +:+ b +:+ c.
Proof. induction a; simpl; congruence. Qed.

(** Every character of [s] satisfies [P]. *)
Definition str_all (P : ascii → bool) (s : string) : bool := forallb P (list_ascii_of_string s).

Lemma str_all_app P a b : str_all P (a +:+ b) = str_all P a && str_all P b.
Proof. unfold str_all. by rewrite chars_app, forallb_app. Qed.

Lemma str_all_weaken (P Q : ascii → bool) s :
  (∀ c, P c = true → Q c = true) → str_all P s = true → str_all Q s = true.
Proof. unfold str_all. rewrite !forallb_forall. auto. Qed.

Lemma str_all_contains P c s : P c = false → str_all P s = true → contains_char c s = false.
Proof.
  intros Hc. unfold str_all, contains_char. induction (list_ascii_of_string s) as [|a l IH]; simpl; [done|].
  intros [Ha Hl]%andb_prop. rewrite IH by done.
  destruct (Ascii.eqb_spec c a) as [->|]; [congruence|done].
Qed.

(** *** Trimming text with solid ends

    A character that neither starts nor ends the encoding of a white space. *)
Definition solid (c : ascii) : bool :=
  forallb (λ p, negb (bool_decide (head p = Some c)) && negb (bool_decide (head (rev p) = Some c)))
          ws_patterns.

Lemma strip_ws_none pats c s :
  (∀ p, p ∈ pats → p ≠ [] ∧ head p ≠ Some c) → strip_ws pats (c :: s) = None.
Proof.
  unfold strip_ws. induction pats as [|p pats IH]; simpl; intros Hp; [done|].
  rewrite IH by (intros q Hq; apply Hp; by apply list_elem_of_further).
  destruct (Hp p) as [Hne Hh]; [apply list_elem_of_here|].
  destruct p as [|a p]; simpl in *; [done|].
  destruct (Ascii.eqb_spec a c); [congruence | done].
Qed.

Lemma ws_patterns_nonempty p : p ∈ ws_patterns → p ≠ [].
Proof.
  assert (H : forallb (λ p, match p with [] => false | _ => true end) ws_patterns = true) by reflexivity.
  intros Hp. by apply (proj1 (forallb_true _ _) H) in Hp; destruct p.
Qed.

Lemma strip_ws_solid c s : solid c = true →
  strip_ws ws_patterns (c :: s) = None ∧ strip_ws (map (@rev ascii) ws_patterns) (c :: s) = None.
Proof.
  unfold solid. rewrite forallb_true. intros Hc. split; apply strip_ws_none.
  - intros p Hp. split; [by apply ws_patterns_nonempty|].
    apply Hc, andb_prop in Hp as [Hp _]. by bools.
  - intros p (q & -> & Hq)%list_elem_of_fmap. split.
    + apply ws_patterns_nonempty in Hq. destruct q as [|a q]; [done|]. simpl. by destruct (rev q).
    + apply Hc, andb_prop in Hq as [_ Hq]. by bools.
Qed.

Lemma trim_fuel_stop pats n s : strip_ws pats s = None → trim_fuel pats n s = s.
Proof. destruct n; simpl; [done|]. by intros ->. Qed.

Lemma trim_start_solid c s : solid c = true → trim_start_l (c :: s) = c :: s.
Proof. intros. by apply trim_fuel_stop, strip_ws_solid. Qed.

Lemma trim_end_solid c s : solid c = true → trim_end_l (s ++ [c]) = s ++ [c].
Proof.
  intros. unfold trim_end_l. rewrite rev_app_distr; simpl.
  rewrite trim_fuel_stop by (by apply strip_ws_solid). simpl. by rewrite rev_involutive.
Qed.

Lemma trim_fuel_more pats n s r :
  strip_ws pats s = Some r → trim_fuel pats (S n) s = trim_fuel pats n r.
Proof. intros H. simpl. by rewrite H. Qed.

Lemma trim_end_space c s : solid c = true → trim_end_l (s ++ [c] ++ [" "%char]) = s ++ [c].
Proof.
  intros Hc. unfold trim_end_l. rewrite app_assoc, length_app, Nat.add_comm, rev_app_distr.
  rewrite (trim_fuel_more _ (length (s ++ [c])) _ (rev (s ++ [c]))) by reflexivity.
  rewrite rev_app_distr, trim_fuel_stop by (by apply strip_ws_solid).
  by rewrite rev_app_distr, rev_involutive.
Qed.

(** Text all of whose characters are solid is its own trimming. *)
Lemma trim_solid s : str_all solid s = true → trim s = s.
Proof.
  unfold str_all, trim. intros H. rewrite <- (string_of_list_ascii_of_string s) at 2. f_equal.
  destruct (list_ascii_of_string s) as [|c l]; [done|].
  rewrite trim_start_solid by (by apply andb_prop in H as [? _]).
  destruct (exists_last (l := c :: l)) as (l' & d & Hl); [done|]. rewrite Hl in H |- *.
  rewrite forallb_app in H. apply andb_prop in H as [_ H]. simpl in H.
  apply trim_end_solid. by rewrite andb_true_r in H.
Qed.

(** ** [HashMap] iteration

    The iteration order of a [HashMap] is unspecified: some enumeration of the
    map.  Functions that iterate take it as an instance; [CanonicalIter] gives
    one to run the model with. *)
Class MapIter (K V : Type) `{Countable K} := map_iter : gmap K V → list (K * V).
Class MapIterLaws (K V : Type) `{MapIter K V} : Prop := {
  map_iter_perm (m : gmap K V) : map_iter m ≡ₚ map_to_list m
}.

Module CanonicalIter.
#[export] Instance canonical_iter K V `{Countable K} : MapIter K V := map_to_list.
#[export] Instance canonical_iter_laws K V `{Countable K} : MapIterLaws K V.
Proof. constructor. intros m. reflexivity. Qed.
End CanonicalIter.

Definition map_values {K V} `{MapIter K V} (m : gmap K V) : list V := (map_iter m).*2.

Lemma elem_of_map_values {K V} `{Countable K} `{!MapIter K V} `{!MapIterLaws K V}
    (m : gmap K V) v :
  v ∈ map_values m ↔ ∃ k, m !! k = Some v.
Proof.
  unfold map_values. rewrite list_elem_of_fmap. split.
  - intros ([k w] & -> & Hel). rewrite map_iter_perm in Hel.
    apply elem_of_map_to_list in Hel. eauto.
  - intros [k Hk]. exists (k, v). split; [done|]. rewrite map_iter_perm.
    by apply elem_of_map_to_list.
Qed.
