(* ===== verification/Types.v ===== *)
(** * Data of the server: [types.rs]

    JSON values, the specification and snapshot records the caches hold, the
    gRPC status codes and the Kubernetes object shape every watcher parses. *)
From Stdlib Require Import SpecFloat.
From S2P Require Export Prelude.

(** ** [serde_json::Value]

    A JSON integer is exact; a JSON float is an IEEE double.  Objects are the
    key/value list of serde_json's ordered map. *)
#[warnings="-register-all"] Inductive json : Type :=
  | JNull
  | JBool (b : bool)
  | JInt (z : Z)
  | JFloat (f : spec_float)
  | JStr (s : string)
  | JArr (l : list json)
  | JObj (l : list (string * json)).

Fixpoint assoc (k : string) (l : list (string * json)) : option json :=
  match l with
  | [] => None
  | (k', v) :: l' => if String.eqb k k' then Some v else assoc k l'
  end.

(** [Value::get(key)]: only an object has members. *)
Definition json_get (k : string) (v : json) : option json :=
  match v with JObj l => assoc k l | _ => None end.

(** [Value::as_u64], [as_str], [as_object] *)
Definition as_u64 (v : json) : option Z :=
  match v with JInt z => if (0 <=? z) && (z <=? u64_max) then Some z else None | _ => None end.
Definition as_str (v : json) : option string :=
  match v with JStr s => Some s | _ => None end.
Definition as_object (v : json) : option (list (string * json)) :=
  match v with JObj l => Some l | _ => None end.

Lemma as_u64_range v z : as_u64 v = Some z → in_u64 z.
Proof. destruct v; simpl; intros; try done. unfold in_u64. case_all; bools; lia. Qed.

Lemma as_u64_int z : in_u64 z → as_u64 (JInt z) = Some z.
Proof.
  unfold in_u64. intros. unfold as_u64. by rewrite (proj2 (Z.leb_le _ _)), (proj2 (Z.leb_le _ _)) by lia.
Qed.

(** ** Instants: nanoseconds of the monotonic clock. *)
Definition Instant := Z.

(** ** [tonic::Code] and [tonic::Status] *)
Inductive Code : Set :=
  | Code_Ok | Cancelled | Unknown | InvalidArgument | DeadlineExceeded | NotFound
  | AlreadyExists | PermissionDenied | ResourceExhausted | FailedPrecondition | Aborted
  | OutOfRange | Unimplemented | Internal | Unavailable | DataLoss | Unauthenticated.
#[global] Instance Code_eq_dec : EqDecision Code.
Proof. solve_decision. Defined.

Record Status : Set := mkStatus {
  st_code : Code;
  st_message : string;
  st_metadata : list (string * string)
}.
Definition status (c : Code) (msg : string) : Status := mkStatus c msg [].
#[global] Instance Status_eq_dec : EqDecision Status.
Proof. solve_decision. Defined.

Notation rpc A := (result A Status).

(** ** [ParseError] *)
Inductive ParseError : Set :=
  | MissingField (f : string)
  | Json (msg : string).
#[global] Instance ParseError_eq_dec : EqDecision ParseError.
Proof. solve_decision. Defined.

(** ** [ConfigSpec] *)
Definition default_content : json := JObj [].

Record ConfigSpec : Type := mkConfigSpec {
  cs_schema_version : Z;
  cs_content : json
}.

(** What [serde] reports when a value does not have the shape of a struct. *)
Inductive DeError : Set :=
  | DeMissingField (f : string)
  | DeInvalidType
  | DeInvalidValue
  | DeInvalidLength.
#[global] Instance DeError_eq_dec : EqDecision DeError.
Proof. solve_decision. Defined.

(** [u32]'s [Deserialize] from a [Value]: an integer in range, never a float. *)
Definition u32_of_json (v : json) : result Z DeError :=
  match v with
  | JInt z => if bool_decide (in_u32 z) then Ok z else Err DeInvalidValue
  | _ => Err DeInvalidType
  end.

Definition u64_of_json (v : json) : result Z DeError :=
  match v with
  | JInt z => if bool_decide (in_u64 z) then Ok z else Err DeInvalidValue
  | _ => Err DeInvalidType
  end.
Definition string_of_json (v : json) : result string DeError :=
  match v with JStr s => Ok s | _ => Err DeInvalidType end.
Definition vec_of_json {A} (dec : json → result A DeError) (v : json) : result (list A) DeError :=
  match v with JArr l => try_map dec l | _ => Err DeInvalidType end.

(** A derived [Deserialize] reads a struct from an object by member name or from
    an array by position; a missing member takes its [serde(default)], other
    members of an object are ignored, an array may not be too long. *)
Definition de_field {A} (v : json) (i : nat) (k : string) (dec : json → result A DeError)
    (dflt : option A) : result A DeError :=
  match (match v with JObj l => assoc k l | JArr l => l !! i | _ => None end) with
  | Some j => dec j
  | None => ok_or dflt (DeMissingField k)
  end.

Definition de_struct {A} (v : json) (n : nat) (body : result A DeError) : result A DeError :=
  match v with
  | JObj _ => body
  | JArr l => let? a := body in if (length l <=? n)%nat then Ok a else Err DeInvalidLength
  | _ => Err DeInvalidType
  end.

Definition config_spec_of_json (v : json) : result ConfigSpec DeError :=
  de_struct v 2 (
    let? sv := de_field v 0 "schema_version" u32_of_json None in
    let? content := de_field v 1 "content" Ok (Some default_content) in
    Ok (mkConfigSpec sv content)).

(** The derived [Serialize]; serde_json keeps the members of an object sorted. *)
Definition config_spec_to_json (s : ConfigSpec) : json :=
  JObj [("content", cs_content s); ("schema_version", JInt (cs_schema_version s))].

Lemma u32_of_json_range v z : u32_of_json v = Ok z → in_u32 z.
Proof. unfold u32_of_json. intros H. case_all. by bools. Qed.

Lemma config_spec_json_roundtrip s :
  in_u32 (cs_schema_version s) → config_spec_of_json (config_spec_to_json s) = Ok s.
Proof.
  intros H. unfold config_spec_of_json, de_field; simpl.
  rewrite bool_decide_true by done. by destruct s.
Qed.

Lemma result_bind_ok {A B E} (m : result A E) (k : A → result B E) b :
  result_bind m k = Ok b ↔ ∃ a, m = Ok a ∧ k a = Ok b.
Proof. destruct m; simpl; naive_solver. Qed.

Lemma de_struct_ok {A} v n (body : result A DeError) a : de_struct v n body = Ok a → body = Ok a.
Proof. destruct v; simpl; try done. rewrite result_bind_ok. intros (b & -> & H). by case_all. Qed.

Lemma de_field_ok {A} v i k dec (dflt : option A) a :
  de_field v i k dec dflt = Ok a → (∃ j, dec j = Ok a) ∨ dflt = Some a.
Proof. unfold de_field, ok_or. intros. case_all; eauto. Qed.

Lemma config_spec_of_json_range v s :
  config_spec_of_json v = Ok s → in_u32 (cs_schema_version s).
Proof.
  intros H%de_struct_ok. apply result_bind_ok in H as (sv & Hsv & H).
  apply result_bind_ok in H as (c & _ & H). simplify_eq/=.
  apply de_field_ok in Hsv as [[j Hj]|Hd]; [by eapply u32_of_json_range | done].
Qed.

(** ** [ConfigSnapshot] *)
Record ConfigSnapshot : Type := mkConfigSnapshot {
  c_name : string;
  c_namespace : string;
  c_schema_version : Z;
  c_content : json;
  c_resource_version : string;
  c_loaded_at : Instant;
  c_stale_since : option Instant;
  c_labels : gmap string string;
  c_content_json_cache : option string
}.

Definition ConfigSnapshot_default (now : Instant) : ConfigSnapshot :=
  mkConfigSnapshot "" "" 0 JNull "" now None ∅ None.

Definition from_spec (now : Instant) (name namespace : string) (spec : ConfigSpec)
    (resource_version : string) : ConfigSnapshot :=
  mkConfigSnapshot name namespace (cs_schema_version spec) (cs_content spec)
    resource_version now None ∅ None.

Definition with_labels (ls : gmap string string) (s : ConfigSnapshot) : ConfigSnapshot :=
  mkConfigSnapshot (c_name s) (c_namespace s) (c_schema_version s) (c_content s)
    (c_resource_version s) (c_loaded_at s) (c_stale_since s) ls (c_content_json_cache s).

(** ** [SecretSnapshot] *)
Record SecretSnapshot : Type := mkSecretSnapshot {
  s_name : string;
  s_namespace : string;
  s_schema_version : Z;
  s_data : gmap string (list Z);
  s_resource_version : string;
  s_loaded_at : Instant;
  s_stale_since : option Instant;
  s_data_json_cache : option string
}.

Definition SecretSnapshot_default (now : Instant) : SecretSnapshot :=
  mkSecretSnapshot "" "" 0 ∅ "" now None None.

(** ** Memoised serialisation

    [serde_json::to_string] is a third-party function: a parameter, returning
    [None] for [Err].  [OnceLock::get_or_init] computes at most once. *)
Section Memo.
Context (to_string : json → option string).
Context (secret_map_to_string : gmap string string → option string).
Context (from_utf8 : list Z → option string).

Definition get_or_init (cell : option string) (f : string) : string * option string :=
  match cell with Some s => (s, cell) | None => (f, Some f) end.

Definition content_json (s : ConfigSnapshot) : string * ConfigSnapshot :=
  let '(j, cell) := get_or_init (c_content_json_cache s)
                      (default ""%string (to_string (c_content s))) in
  (j, mkConfigSnapshot (c_name s) (c_namespace s) (c_schema_version s) (c_content s)
        (c_resource_version s) (c_loaded_at s) (c_stale_since s) (c_labels s) cell).

(** A value that is not UTF-8 is emitted as the empty string. *)
Definition data_json (s : SecretSnapshot) : string * SecretSnapshot :=
  let data_map := (λ v, default ""%string (from_utf8 v)) <$> s_data s in
  let '(j, cell) := get_or_init (s_data_json_cache s)
                      (default ""%string (secret_map_to_string data_map)) in
  (j, mkSecretSnapshot (s_name s) (s_namespace s) (s_schema_version s) (s_data s)
        (s_resource_version s) (s_loaded_at s) (s_stale_since s) cell).

(** The memo cell of a snapshot is empty or holds the encoding of its own
    content. *)
Definition memo_ok (s : ConfigSnapshot) : Prop :=
  ∀ j, c_content_json_cache s = Some j → j = default ""%string (to_string (c_content s)).

Lemma content_json_value s :
  memo_ok s → (content_json s).1 = default ""%string (to_string (c_content s)).
Proof.
  intros H. unfold content_json, get_or_init.
  destruct (c_content_json_cache s) eqn:E; simpl; [by apply H | done].
Qed.

Lemma content_json_memo_ok s : memo_ok s → memo_ok (content_json s).2.
Proof.
  intros H j. unfold content_json, get_or_init.
  destruct (c_content_json_cache s) eqn:E; simpl; intros; simplify_eq; [by apply H | done].
Qed.

Lemma from_spec_memo_ok now n ns spec rv : memo_ok (from_spec now n ns spec rv).
Proof. intros j; simpl; done. Qed.
End Memo.

(** ** [kube::core::DynamicObject] *)
Record ObjectMeta : Type := mkMeta {
  om_name : option string;
  om_namespace : option string;
  om_resource_version : option string;
  om_labels : option (gmap string string);
  om_annotations : option (gmap string string)
}.

Record DynamicObject : Type := mkObj {
  do_metadata : ObjectMeta;
  do_data : json
}.

(** ** [kube::runtime::watcher::Event] *)
Inductive Event (A : Type) : Type :=
  | Apply (o : A)
  | Delete (o : A)
  | Init
  | InitApply (o : A)
  | InitDone.
Arguments Apply {A} o.
Arguments Delete {A} o.
Arguments Init {A}.
Arguments InitApply {A} o.
Arguments InitDone {A}.
