(* ===== verification/CowCache.v ===== *)
(** * The copy-on-write cache: [cache_key.rs], [cow_cache.rs], [cache.rs],
    [secret_cache.rs]

    The generic cache keyed by [(namespace, name)], its two domain wrappers, and
    the interleaving of several writers with lock-free readers, which refines a
    sequence of atomic map operations. *)
From S2P Require Export Types.

(** ** Keys ([cache_key.rs]) *)

Class KeyRef (K : Type) := { kr_ns : K → string; kr_name : K → string }.

Record OwnedKey : Set := mkOwnedKey { ok_namespace : string; ok_name : string }.
Record BorrowedKey : Set := mkBorrowedKey { bk_namespace : string; bk_name : string }.

#[global] Instance OwnedKey_KeyRef : KeyRef OwnedKey :=
  {| kr_ns := ok_namespace; kr_name := ok_name |}.
#[global] Instance BorrowedKey_KeyRef : KeyRef BorrowedKey :=
  {| kr_ns := bk_namespace; kr_name := bk_name |}.

#[global] Instance OwnedKey_eq_dec : EqDecision OwnedKey.
Proof. solve_decision. Defined.
#[global] Instance OwnedKey_countable : Countable OwnedKey :=
  inj_countable' (λ k, (ok_namespace k, ok_name k)) (λ p, mkOwnedKey p.1 p.2)
    (λ k, match k with mkOwnedKey _ _ => eq_refl end).

(** [PartialEq for OwnedKey] and [PartialEq for dyn KeyRef]. *)
Definition owned_eq (a b : OwnedKey) : bool :=
  String.eqb (ok_namespace a) (ok_namespace b) && String.eqb (ok_name a) (ok_name b).
Definition keyref_eq {K L} `{KeyRef K} `{KeyRef L} (a : K) (b : L) : bool :=
  String.eqb (kr_ns a) (kr_ns b) && String.eqb (kr_name a) (kr_name b).

(** [Hash]: the bytes each implementation feeds to the hasher; [str::hash]
    writes the bytes and then [0xff]. *)
Definition str_hash (s : string) : list Z := bytes_of s ++ [255].
Definition owned_hash (k : OwnedKey) : list Z :=
  str_hash (ok_namespace k) ++ str_hash (ok_name k).
Definition keyref_hash {K} `{KeyRef K} (k : K) : list Z :=
  str_hash (kr_ns k) ++ str_hash (kr_name k).

(** UTF-8 text never contains the byte [0xff]. *)
Definition utf8_like (s : string) : Prop := Forall (λ b, b ≠ 255) (bytes_of s).

Lemma bytes_of_inj s t : bytes_of s = bytes_of t → s = t.
Proof.
  unfold bytes_of. intros H. rewrite <- (string_of_list_ascii_of_string s).
  rewrite <- (string_of_list_ascii_of_string t). f_equal.
  eapply (list_fmap_eq_inj (λ c, Z.of_nat (nat_of_ascii c))); [|exact H].
  intros x y Hxy. apply (f_equal Z.to_nat) in Hxy. rewrite !Nat2Z.id in Hxy.
  by rewrite <- (ascii_nat_embedding x), <- (ascii_nat_embedding y), Hxy.
Qed.

Lemma str_hash_prefix_free s t r r' :
  utf8_like s → utf8_like t → str_hash s ++ r = str_hash t ++ r' → s = t ∧ r = r'.
Proof.
  unfold str_hash, utf8_like. intros Hs Ht. rewrite <- !app_assoc. simpl.
  cut (bytes_of s ++ 255 :: r = bytes_of t ++ 255 :: r' → bytes_of s = bytes_of t ∧ r = r').
  { intros H E. destruct (H E). split; [by apply bytes_of_inj | done]. }
  revert Hs Ht. generalize (bytes_of s) (bytes_of t). clear s t.
  induction l as [|a l IH]; intros [|b l'] Hs Ht H; simplify_eq/=.
  - done.
  - by inversion Ht.
  - by inversion Hs.
  - inversion Hs; inversion Ht; simplify_eq. destruct (IH l'); naive_solver.
Qed.

(** ** The generic cache ([cow_cache.rs]) *)

Class CacheEntry (S : Type) := {
  namespace : S → string;
  name : S → string;
  set_stale : S → Instant → S
}.
Class CacheEntryLaws (S : Type) `{CacheEntry S} := {
  set_stale_namespace s t : namespace (set_stale s t) = namespace s;
  set_stale_name s t : name (set_stale s t) = name s;
  set_stale_twice s t u : set_stale (set_stale s t) u = set_stale s u
}.

Inductive Mutation (S : Type) : Type :=
  | Upsert (snap : S)
  | Remove (namespace name : string).
Arguments Upsert {S} snap.
Arguments Remove {S} namespace name.

Section Cow.
Context {S : Type} `{CacheEntry S} `{!MapIter OwnedKey S}.

Notation Inner := (gmap OwnedKey S).

(** [writes] mirrors [CACHE_WRITE_MUTATIONS_TOTAL{kind}], [entries] the gauge
    [CACHE_ENTRIES{kind}]. *)
Record CowCache : Type := mkCow {
  inner : Inner;
  kind : string;
  writes : Z;
  entries : Z
}.

Definition key_of (snap : S) : OwnedKey := mkOwnedKey (namespace snap) (name snap).

Definition from_map (kind : string) (m : Inner) : CowCache :=
  mkCow m kind 0 (Z.of_nat (size m)).
Definition with_capacity (kind : string) : CowCache := from_map kind ∅.

Definition record_write (c : CowCache) (next : Inner) : CowCache :=
  mkCow next (kind c) (writes c + 1) (Z.of_nat (size next)).

Definition get (c : CowCache) (ns n : string) : option S := inner c !! mkOwnedKey ns n.

Definition all_in_namespace (c : CowCache) (ns : string) : list S :=
  (filter (λ kv, ok_namespace kv.1 = ns) (map_iter (inner c))).*2.

Definition is_populated (c : CowCache) : bool := negb (bool_decide (inner c = ∅)).

Definition load_any (c : CowCache) : option S := snd <$> head (map_iter (inner c)).

Definition insert_snap (snap : S) (m : Inner) : Inner := <[key_of snap := snap]> m.

Definition update (c : CowCache) (snap : S) : CowCache :=
  record_write c (insert_snap snap (inner c)).

Definition remove (c : CowCache) (ns n : string) : CowCache :=
  record_write c (delete (mkOwnedKey ns n) (inner c)).

Definition stale_all (now : Instant) (m : Inner) : Inner := (λ s, set_stale s now) <$> m.

Definition mark_all_stale (c : CowCache) (now : Instant) : CowCache :=
  record_write c (stale_all now (inner c)).

Definition apply_mutation (m : Inner) (mu : Mutation S) : Inner :=
  match mu with
  | Upsert snap => insert_snap snap m
  | Remove ns n => delete (mkOwnedKey ns n) m
  end.

Definition apply_batch (c : CowCache) (ms : list (Mutation S)) : CowCache * nat :=
  match ms with
  | [] => (c, 0%nat)
  | _ => (record_write c (foldl apply_mutation (inner c) ms), length ms)
  end.

(** One call of the per-write path for one mutation. *)
Definition apply_one (c : CowCache) (mu : Mutation S) : CowCache :=
  match mu with
  | Upsert snap => update c snap
  | Remove ns n => remove c ns n
  end.

(** *** Invariant: every entry is stored under its own key, and the entry gauge
    counts them. *)
Definition keyed (m : Inner) : Prop := map_Forall (λ k s, k = key_of s) m.

Record cow_ok (c : CowCache) : Prop := {
  cow_keyed : keyed (inner c);
  cow_gauge : entries c = Z.of_nat (size (inner c))
}.

Lemma keyed_insert snap m : keyed m → keyed (insert_snap snap m).
Proof. intros Hm. by apply map_Forall_insert_2. Qed.

Lemma keyed_delete k m : keyed m → keyed (delete k m).
Proof. apply map_Forall_delete. Qed.

Lemma keyed_stale `{!CacheEntryLaws S} now m : keyed m → keyed (stale_all now m).
Proof.
  intros Hm k s. unfold stale_all. rewrite lookup_fmap. intros (s' & Hs' & ->)%fmap_Some.
  unfold key_of. rewrite set_stale_namespace, set_stale_name. by apply (Hm k s').
Qed.

Lemma keyed_mutation m mu : keyed m → keyed (apply_mutation m mu).
Proof. destruct mu; simpl; auto using keyed_insert, keyed_delete. Qed.

Lemma keyed_mutations ms m : keyed m → keyed (foldl apply_mutation m ms).
Proof. revert m; induction ms; simpl; auto using keyed_mutation. Qed.

Lemma cow_ok_record c next : keyed next → cow_ok (record_write c next).
Proof. by constructor. Qed.

Lemma cow_ok_from_map k m : keyed m → cow_ok (from_map k m).
Proof. by constructor. Qed.

Lemma cow_ok_update c s : cow_ok c → cow_ok (update c s).
Proof. intros []. by apply cow_ok_record, keyed_insert. Qed.

Lemma cow_ok_remove c ns n : cow_ok c → cow_ok (remove c ns n).
Proof. intros []. by apply cow_ok_record, keyed_delete. Qed.

Lemma cow_ok_mark_all_stale `{!CacheEntryLaws S} c now : cow_ok c → cow_ok (mark_all_stale c now).
Proof. intros []. by apply cow_ok_record, keyed_stale. Qed.

Lemma cow_ok_apply_batch c ms : cow_ok c → cow_ok (apply_batch c ms).1.
Proof. intros Hc. destruct ms; [done|]. destruct Hc. by apply cow_ok_record, keyed_mutations. Qed.

(** *** Lookups *)

Lemma get_update c s : get (update c s) (namespace s) (name s) = Some s.
Proof. apply lookup_insert_eq. Qed.

Lemma get_update_ne c s ns n :
  key_of s ≠ mkOwnedKey ns n → get (update c s) ns n = get c ns n.
Proof. intros. by apply lookup_insert_ne. Qed.

Lemma get_remove c ns n : get (remove c ns n) ns n = None.
Proof. apply lookup_delete_eq. Qed.

Lemma get_remove_ne c ns n ns' n' :
  mkOwnedKey ns n ≠ mkOwnedKey ns' n' → get (remove c ns n) ns' n' = get c ns' n'.
Proof. intros. by apply lookup_delete_ne. Qed.

Lemma get_mark_all_stale c now ns n :
  get (mark_all_stale c now) ns n = (λ s, set_stale s now) <$> get c ns n.
Proof. apply lookup_fmap. Qed.

Lemma elem_of_all_in_namespace `{!MapIterLaws OwnedKey S} c ns s :
  cow_ok c → s ∈ all_in_namespace c ns ↔ ∃ n, get c ns n = Some s.
Proof.
  intros Hc. unfold all_in_namespace, get. rewrite list_elem_of_fmap. split.
  - intros ([k s'] & -> & [Hns Hel]%list_elem_of_filter). simpl in *.
    rewrite map_iter_perm in Hel. apply elem_of_map_to_list in Hel.
    exists (ok_name k). rewrite <- Hns. by destruct k.
  - intros [n Hn]. exists (mkOwnedKey ns n, s). split; [done|].
    apply list_elem_of_filter. split; [done|]. rewrite map_iter_perm.
    by apply elem_of_map_to_list.
Qed.

Lemma is_populated_true c : is_populated c = true ↔ ∃ ns n, is_Some (get c ns n).
Proof.
  unfold is_populated. rewrite negb_true_iff, bool_decide_eq_false. split.
  - intros Hne%map_choose. destruct Hne as ([ns n] & s & Hs). exists ns, n, s. done.
  - intros (ns & n & s & Hs) Hem. unfold get in Hs. by rewrite Hem, lookup_empty in Hs.
Qed.

(** Applying a batch leaves the same map as applying its mutations one by one. *)
Lemma apply_batch_inner c ms :
  inner (apply_batch c ms).1 = inner (foldl apply_one c ms).
Proof.
  transitivity (foldl apply_mutation (inner c) ms); [by destruct ms|].
  revert c; induction ms as [|mu ms IH]; intros c; simpl; [done|].
  rewrite <- IH. by destruct mu.
Qed.

Lemma apply_batch_writes c ms :
  writes (apply_batch c ms).1 = writes c + (if decide (ms = []) then 0 else 1).
Proof. destruct ms; simpl; [lia|done]. Qed.

Lemma foldl_apply_one_writes c ms : writes (foldl apply_one c ms) = writes c + Z.of_nat (length ms).
Proof.
  revert c; induction ms as [|mu ms IH]; intros c; simpl; [lia|].
  rewrite IH. destruct mu; simpl; lia.
Qed.

(** What a batch leaves under a key is decided by the last mutation that
    addresses it. *)
Definition mutation_key (mu : Mutation S) : OwnedKey :=
  match mu with Upsert s => key_of s | Remove ns n => mkOwnedKey ns n end.
Definition mutation_value (mu : Mutation S) : option S :=
  match mu with Upsert s => Some s | Remove _ _ => None end.

Lemma lookup_apply_mutation m mu k :
  apply_mutation m mu !! k =
    if decide (mutation_key mu = k) then mutation_value mu else m !! k.
Proof.
  destruct mu as [s|ns n]; simpl; unfold insert_snap.
  - case_decide; simplify_eq; [apply lookup_insert_eq | by apply lookup_insert_ne].
  - case_decide; simplify_eq; [apply lookup_delete_eq | by apply lookup_delete_ne].
Qed.

Lemma lookup_apply_mutations ms m k :
  foldl apply_mutation m ms !! k =
    match last (filter (λ mu, mutation_key mu = k) ms) with
    | Some mu => mutation_value mu
    | None => m !! k
    end.
Proof.
  revert m; induction ms as [|mu ms IH] using rev_ind; intros m; [done|].
  rewrite foldl_snoc, lookup_apply_mutation, filter_app, filter_cons, filter_nil.
  case_decide.
  - by rewrite last_snoc.
  - by rewrite app_nil_r, <- IH.
Qed.

(** ** Writers and readers interleaved

    Each writer takes the write lock, loads the current map, builds the next one
    and stores it, then releases the lock; readers load the map at any time.  A
    write is one of the four operations. *)
Inductive WriteOp : Type :=
  | WUpdate (snap : S)
  | WRemove (ns n : string)
  | WMarkAllStale (now : Instant)
  | WBatch (mu : Mutation S) (ms : list (Mutation S)).

Definition write_result (o : WriteOp) (m : Inner) : Inner :=
  match o with
  | WUpdate snap => insert_snap snap m
  | WRemove ns n => delete (mkOwnedKey ns n) m
  | WMarkAllStale now => stale_all now m
  | WBatch mu ms => foldl apply_mutation m (mu :: ms)
  end.

(** The sequential operation of the cache the write stands for. *)
Definition run_write (c : CowCache) (o : WriteOp) : CowCache :=
  match o with
  | WUpdate snap => update c snap
  | WRemove ns n => remove c ns n
  | WMarkAllStale now => mark_all_stale c now
  | WBatch mu ms => (apply_batch c (mu :: ms)).1
  end.

Inductive pc : Type :=
  | Idle
  | Locked (o : WriteOp)
  | Loaded (o : WriteOp) (current : Inner)
  | Stored.

(** [log] records the writes in the order of their [store], [reads] the maps the
    readers loaded with the number of writes logged then. *)
Record sys : Type := mkSys {
  shared : Inner;
  lock : option nat;
  pcs : nat → pc;
  log : list WriteOp;
  reads : list (nat * Inner)
}.

Definition set_pc (f : nat → pc) (t : nat) (p : pc) : nat → pc :=
  λ u, if decide (u = t) then p else f u.

Inductive step : sys → sys → Prop :=
  | step_lock s t o :
      lock s = None → pcs s t = Idle →
      step s (mkSys (shared s) (Some t) (set_pc (pcs s) t (Locked o)) (log s) (reads s))
  | step_load s t o :
      pcs s t = Locked o →
      step s (mkSys (shared s) (lock s) (set_pc (pcs s) t (Loaded o (shared s)))
                (log s) (reads s))
  | step_store s t o current :
      pcs s t = Loaded o current →
      step s (mkSys (write_result o current) (lock s) (set_pc (pcs s) t Stored)
                (log s ++ [o]) (reads s))
  | step_unlock s t :
      pcs s t = Stored →
      step s (mkSys (shared s) None (set_pc (pcs s) t Idle) (log s) (reads s))
  | step_read s :
      step s (mkSys (shared s) (lock s) (pcs s) (log s)
                ((length (log s), shared s) :: reads s)).

Definition init_sys (m : Inner) : sys := mkSys m None (λ _, Idle) [] [].

Inductive reachable (m : Inner) : sys → Prop :=
  | reach_init : reachable m (init_sys m)
  | reach_step s s' : reachable m s → step s s' → reachable m s'.

Definition replay (m : Inner) (os : list WriteOp) : Inner := foldl (flip write_result) m os.

Lemma replay_snoc m os o : replay m (os ++ [o]) = write_result o (replay m os).
Proof. unfold replay. by rewrite foldl_snoc. Qed.

(** A thread past the lock owns it, so a loaded map is still the shared one. *)
Record sys_inv (m : Inner) (s : sys) : Prop := {
  inv_owner t : pcs s t ≠ Idle → lock s = Some t;
  inv_loaded t o current : pcs s t = Loaded o current → current = shared s;
  inv_log : shared s = replay m (log s);
  inv_reads : Forall (λ r, r.1 ≤ length (log s) ∧ r.2 = replay m (take r.1 (log s)))%nat (reads s)
}.

Ltac pc_cases :=
  unfold set_pc in *; repeat case_decide; simplify_eq; try done.

Lemma sys_inv_step m s s' : sys_inv m s → step s s' → sys_inv m s'.
Proof.
  intros [Hown Hload Hlog Hreads] Hstep.
  destruct Hstep as [s t o Hl Hp|s t o Hp|s t o current Hp|s t Hp|s]; constructor; simpl; try done.
  - intros u. pc_cases. intros Hu. apply Hown in Hu. congruence.
  - intros u o' cur. pc_cases; naive_solver.
  - intros u. pc_cases; [|by apply Hown]. intros _. apply Hown. congruence.
  - intros u o' cur. pc_cases; naive_solver.
  - intros u. pc_cases; [|by apply Hown]. intros _. apply Hown. congruence.
  - intros u o' cur. pc_cases. intros Hu.
    assert (lock s = Some t) by (apply Hown; congruence).
    assert (lock s = Some u) by (apply Hown; congruence). congruence.
  - rewrite replay_snoc, <- Hlog. f_equal. eauto.
  - eapply Forall_impl; [exact Hreads|]. intros r [? ->]. rewrite length_app. simpl.
    split; [lia|]. by rewrite take_app_le by lia.
  - intros u. pc_cases. intros Hu.
    assert (lock s = Some t) by (apply Hown; congruence).
    assert (lock s = Some u) by (by apply Hown). congruence.
  - intros u o' cur. pc_cases; naive_solver.
  - constructor; [|done]. simpl. split; [lia|]. by rewrite take_ge by lia.
Qed.

Lemma sys_inv_reachable m s : reachable m s → sys_inv m s.
Proof.
  induction 1 as [|s s' _ IH Hstep]; [|by eapply sys_inv_step].
  constructor; simpl; try done.
Qed.

(** One writer running alone: lock, load, store, unlock. *)
Definition full_write (s : sys) (t : nat) (o : WriteOp) : sys :=
  let s1 := mkSys (shared s) (Some t) (set_pc (pcs s) t (Locked o)) (log s) (reads s) in
  let s2 := mkSys (shared s1) (lock s1) (set_pc (pcs s1) t (Loaded o (shared s1)))
              (log s1) (reads s1) in
  let s3 := mkSys (write_result o (shared s1)) (lock s2) (set_pc (pcs s2) t Stored)
              (log s2 ++ [o]) (reads s2) in
  mkSys (shared s3) None (set_pc (pcs s3) t Idle) (log s3) (reads s3).

Lemma reachable_full_write m s t o :
  reachable m s → lock s = None → pcs s t = Idle → reachable m (full_write s t o).
Proof.
  intros Hr Hl Hp. unfold full_write.
  assert (Hset : ∀ f p, set_pc f t p t = p) by (intros; unfold set_pc; by case_decide).
  eapply reach_step; [|apply step_unlock, Hset].
  eapply reach_step; [|by apply step_store, Hset].
  eapply reach_step; [|by apply step_load, Hset].
  eapply reach_step; [exact Hr|by apply step_lock].
Qed.

Lemma run_write_inner c o : inner (run_write c o) = write_result o (inner c).
Proof. by destruct o. Qed.

Lemma run_writes_inner c os : inner (foldl run_write c os) = replay (inner c) os.
Proof.
  unfold replay. revert c; induction os as [|o os IH]; intros c; simpl; [done|].
  rewrite IH. simpl. by rewrite run_write_inner.
Qed.
End Cow.
Arguments CowCache : clear implicits.

(** ** The two domain caches ([cache.rs], [secret_cache.rs]) *)

#[global] Instance ConfigSnapshot_entry : CacheEntry ConfigSnapshot := {|
  namespace := c_namespace;
  name := c_name;
  set_stale s now :=
    mkConfigSnapshot (c_name s) (c_namespace s) (c_schema_version s) (c_content s)
      (c_resource_version s) (c_loaded_at s) (Some now) (c_labels s) (c_content_json_cache s)
|}.
#[global] Instance ConfigSnapshot_laws : CacheEntryLaws ConfigSnapshot.
Proof. by constructor. Qed.

#[global] Instance SecretSnapshot_entry : CacheEntry SecretSnapshot := {|
  namespace := s_namespace;
  name := s_name;
  set_stale s now :=
    mkSecretSnapshot (s_name s) (s_namespace s) (s_schema_version s) (s_data s)
      (s_resource_version s) (s_loaded_at s) (Some now) (s_data_json_cache s)
|}.
#[global] Instance SecretSnapshot_laws : CacheEntryLaws SecretSnapshot.
Proof. by constructor. Qed.

Notation ConfigCache := (CowCache ConfigSnapshot).
Notation SecretCache := (CowCache SecretSnapshot).
Notation ConfigMutation := (Mutation ConfigSnapshot).
Notation SecretMutation := (Mutation SecretSnapshot).

Definition ConfigCache_new (initial : ConfigSnapshot) : ConfigCache :=
  from_map "config"
    (if negb (is_empty (c_namespace initial)) && negb (is_empty (c_name initial))
     then {[ mkOwnedKey (c_namespace initial) (c_name initial) := initial ]}
     else ∅).

Definition SecretCache_new : SecretCache := with_capacity "secret".

Definition ConfigCache_load `{!MapIter OwnedKey ConfigSnapshot} (now : Instant) (c : ConfigCache) :
    ConfigSnapshot :=
  default (ConfigSnapshot_default now) (load_any c).

Lemma ConfigCache_new_ok s : cow_ok (ConfigCache_new s).
Proof.
  apply cow_ok_from_map. destruct (_ && _)%bool; intros k t.
  - by intros [<- <-]%lookup_singleton_Some.
  - by rewrite lookup_empty.
Qed.

Lemma SecretCache_new_ok : cow_ok SecretCache_new.
Proof. apply cow_ok_from_map. intros k t. by rewrite lookup_empty. Qed.

(** ** Properties *)

(** C2: writers that lock, load, build and store, interleaved in any way with
    each other and with lock-free readers, are linearizable: the shared map is
    the result of the sequential cache operations in the order of their stores
    (no write is lost), and every reader saw the map after some prefix of that
    order, so a batch is never half visible. *)
Theorem writers_linearizable {S} `{CacheEntry S} (c : CowCache S) (s : sys) :
  reachable (inner c) s →
  shared s = inner (foldl run_write c (log s)) ∧
  ∀ n m, (n, m) ∈ reads s → m = inner (foldl run_write c (take n (log s))).
Proof.
  intros [_ _ Hlog Hreads]%sys_inv_reachable. rewrite run_writes_inner. split; [done|].
  intros n m Hr. rewrite Forall_forall in Hreads. apply Hreads in Hr as [_ Hm]; simpl in Hm. subst m.
  by rewrite run_writes_inner.
Qed.

Definition demo_snap (n : string) (v : Z) : ConfigSnapshot :=
  from_spec 0 n "prod" (mkConfigSpec v default_content) "1".

(** Writer 0 stores and releases, a reader loads, writer 1 locks, loads and
    stores. *)
Definition demo_sys : sys (S := ConfigSnapshot) :=
  let s1 := full_write (init_sys ∅) 0 (WUpdate (demo_snap "a" 1)) in
  full_write (mkSys (shared s1) (lock s1) (pcs s1) (log s1) [(1%nat, shared s1)])
    1 (WRemove "prod" "a").

Lemma writers_linearizable_witness :
  reachable ∅ demo_sys ∧ length (log demo_sys) = 2%nat ∧
  shared demo_sys = inner (foldl run_write (from_map "config" ∅) (log demo_sys)) ∧
  ∀ n m, (n, m) ∈ reads demo_sys →
    m = inner (foldl run_write (from_map "config" ∅) (take n (log demo_sys))).
Proof.
  assert (Hr : reachable ∅ demo_sys).
  { apply reachable_full_write; [|reflexivity..].
    eapply reach_step; [|apply step_read].
    apply reachable_full_write; [apply reach_init | reflexivity..]. }
  split; [exact Hr|]. split; [reflexivity|].
  apply (writers_linearizable (from_map "config" ∅) demo_sys). exact Hr.
Defined.

(** A batch leaves the same entries as one write per mutation, counts as a
    single write of the map (none when empty), and reports how many mutations it
    applied. *)
Theorem apply_batch_equiv {S} `{CacheEntry S} (c : CowCache S) (ms : list (Mutation S)) :
  inner (apply_batch c ms).1 = inner (foldl apply_one c ms) ∧
  writes (apply_batch c ms).1 = writes c + (if decide (ms = []) then 0 else 1) ∧
  writes (foldl apply_one c ms) = writes c + Z.of_nat (length ms) ∧
  (apply_batch c ms).2 = length ms.
Proof.
  split_and!; [apply apply_batch_inner | apply apply_batch_writes
              | apply foldl_apply_one_writes | by destruct ms].
Qed.

(** The lookup view used on the hot path agrees with the stored key: a
    borrowed and an owned key are equal exactly when they carry the same
    namespace and name, equal keys feed the hasher the same bytes, and two keys
    of UTF-8 text feed it the same bytes only when they are equal. *)
Theorem key_views_agree (o : OwnedKey) (b : BorrowedKey) :
  (keyref_eq o b = true ↔ o = mkOwnedKey (bk_namespace b) (bk_name b)) ∧
  (keyref_eq o b = true → owned_hash o = keyref_hash b) ∧
  (Forall utf8_like [ok_namespace o; ok_name o; bk_namespace b; bk_name b] →
   owned_hash o = keyref_hash b → keyref_eq o b = true).
Proof.
  destruct o as [ns n], b as [ns' n']. unfold keyref_eq, owned_hash, keyref_hash; simpl.
  assert (Heq : (String.eqb ns ns' && String.eqb n n')%bool = true ↔ ns = ns' ∧ n = n')
    by (rewrite andb_true_iff, !String.eqb_eq; done).
  rewrite Heq. split_and!; [naive_solver | by intros [-> ->] |].
  rewrite !Forall_cons. intros (H1 & H2 & H3 & H4 & _) E.
  apply str_hash_prefix_free in E as [-> E]; [|done..].
  rewrite <- (app_nil_r (str_hash n)), <- (app_nil_r (str_hash n')) in E.
  by apply str_hash_prefix_free in E as [-> _].
Qed.
