(* ===== verification/Watcher.v ===== *)
(** * The Config watcher: [watcher.rs]

    The reconnect schedule, the event handler, the relist state machine shared
    by the config and secret watchers, and the two reconnect loops, over streams
    of watch events.  A connection is the finite sequence of items its stream
    yields; the end of the list is the clean end of the stream. *)
From S2P Require Export CowCache.

Definition GROUP : string := "konfig.io".
Definition VERSION : string := "v1".
Definition KIND : string := "Config".
Definition PLURAL : string := "configs".

(** ** Reconnect schedule *)
Definition BACKOFF_STEPS_SECS : list Z := [1; 2; 4; 8; 16; 30].

Definition backoff_delay (attempt : nat) : Z :=
  default (default 0 (last BACKOFF_STEPS_SECS)) (BACKOFF_STEPS_SECS !! attempt).

Definition preceding_backoff_ms (attempt : nat) : Z :=
  match attempt with O => 0 | S a => backoff_delay a * 1000 end.

(** [run_with_reconnect]: [f attempt] runs one connection on the caller's state
    and [on_disconnect] runs after it; one entry of [attempts] per round, since
    the loop itself never returns.  The sleeps are returned in order. *)
Fixpoint run_with_reconnect {St} (on_disconnect : St → St) (f : nat → St → St)
    (rounds : nat) (attempt : nat) (st : St) : St * list Z :=
  match rounds with
  | O => (st, [])
  | S r =>
      let st := on_disconnect (f attempt st) in
      let '(st', sleeps) := run_with_reconnect on_disconnect f r (S attempt) st in
      (st', backoff_delay attempt :: sleeps)
  end.

Lemma backoff_delay_step a : backoff_delay a ≤ backoff_delay (S a) ∧ 1 ≤ backoff_delay a ≤ 30.
Proof. do 7 (destruct a as [|a]; [vm_compute; intuition congruence|]). vm_compute; intuition congruence. Qed.

Lemma backoff_delay_mono a b : (a ≤ b)%nat → backoff_delay a ≤ backoff_delay b.
Proof. induction 1 as [|b ? IH]; [done|]. pose proof (backoff_delay_step b). lia. Qed.

Lemma backoff_delay_cap a : (5 ≤ a)%nat → backoff_delay a = 30.
Proof. intros. do 6 (destruct a as [|a]; [vm_compute in *; lia || done|]). done. Qed.

Lemma run_with_reconnect_sleeps {St} od (f : nat → St → St) rounds attempt st :
  (run_with_reconnect od f rounds attempt st).2 = backoff_delay <$> seq attempt rounds.
Proof.
  revert attempt st; induction rounds as [|r IH]; intros attempt st; simpl; [done|].
  specialize (IH (S attempt) (od (f attempt st))).
  destruct (run_with_reconnect _ _ _ _ _); simpl in *. by rewrite IH.
Qed.

(** ** Parsing a Config object *)
Definition parse_config_object (now : Instant) (obj : DynamicObject) : option ConfigSnapshot :=
  let md := do_metadata obj in
  let resource_version := default "" (om_resource_version md) in
  let name := default "" (om_name md) in
  let namespace := default "" (om_namespace md) in
  match json_get "spec" (do_data obj) with
  | None => None
  | Some spec_value =>
      match config_spec_of_json spec_value with
      | Err _ => None
      | Ok spec =>
          let snap := from_spec now name namespace spec resource_version in
          Some (match om_labels md with Some ls => with_labels ls snap | None => snap end)
      end
  end.

(** A parsed snapshot is fresh and carries the object's own identity. *)
Lemma parse_config_object_fields now obj snap :
  parse_config_object now obj = Some snap →
  c_stale_since snap = None ∧
  c_name snap = default "" (om_name (do_metadata obj)) ∧
  c_namespace snap = default "" (om_namespace (do_metadata obj)) ∧
  c_resource_version snap = default "" (om_resource_version (do_metadata obj)) ∧
  c_labels snap = default ∅ (om_labels (do_metadata obj)) ∧
  in_u32 (c_schema_version snap).
Proof.
  unfold parse_config_object. intros H.
  destruct (json_get _ _); [|done].
  destruct (config_spec_of_json _) as [spec|] eqn:Hs; [|done].
  apply config_spec_of_json_range in Hs. simplify_eq. by destruct (om_labels _).
Qed.

(** ** One event *)
Definition handle_event (now : Instant) (ev : Event DynamicObject) (cache : ConfigCache) :
    ConfigCache :=
  match ev with
  | Apply obj | InitApply obj =>
      match parse_config_object now obj with
      | Some snap => update cache snap
      | None => cache
      end
  | Delete _ => cache
  | Init | InitDone => cache
  end.

(** ** The relist state machine

    [St] is what the callbacks act on; [buffer] may act on it too (the secret
    watcher broadcasts there). *)
Definition route_relist_event {E M St} (event : Event E) (relist : option (list M))
    (batch_relist : bool) (buffer : E → list M → St → list M * St)
    (commit : list M → St → St) (handle : Event E → St → St) (st : St) :
    option (list M) * St :=
  match relist with
  | Some buf =>
      match event with
      | InitApply payload => let '(buf', st') := buffer payload buf st in (Some buf', st')
      | InitDone => (None, commit buf st)
      | other => (relist, handle other st)
      end
  | None =>
      match event with
      | Init => if batch_relist then (Some [], st) else (relist, handle event st)
      | _ => (relist, handle event st)
      end
  end.

Definition buffer_config (now : Instant) (obj : DynamicObject) (buf : list ConfigMutation)
    (cache : ConfigCache) : list ConfigMutation * ConfigCache :=
  match parse_config_object now obj with
  | Some snap => (buf ++ [Upsert snap], cache)
  | None => (buf, cache)
  end.

Definition route_config_event (now : Instant) (event : Event DynamicObject)
    (cache : ConfigCache) (relist : option (list ConfigMutation)) (batch_relist : bool) :
    option (list ConfigMutation) * ConfigCache :=
  route_relist_event event relist batch_relist (buffer_config now)
    (λ muts c, (apply_batch c muts).1) (λ other c, handle_event now other c) cache.

(** ** One connection *)
Inductive PumpOutcome : Set :=
  | StreamEnded
  | StreamErrored (e : string).

(** [LastEventAt::touch]: nanoseconds since process start, 0 meaning never. *)
Definition touch (now : Instant) : Z := Z.max (now mod (u64_max + 1)) 1.

Notation stream A := (list (Instant * result (Event A) string)).

Fixpoint pump_loop (batch_relist : bool) (relist : option (list ConfigMutation))
    (items : stream DynamicObject) (cache : ConfigCache) (last_event_at : Z) :
    ConfigCache * Z * PumpOutcome :=
  match items with
  | [] => (cache, last_event_at, StreamEnded)
  | (_, Err e) :: _ => (cache, last_event_at, StreamErrored e)
  | (now, Ok event) :: rest =>
      let '(relist', cache') := route_config_event now event cache relist batch_relist in
      pump_loop batch_relist relist' rest cache' (touch now)
  end.

Definition pump_config_events (items : stream DynamicObject) (cache : ConfigCache)
    (last_event_at : Z) (batch_relist : bool) : ConfigCache * Z * PumpOutcome :=
  pump_loop batch_relist None items cache last_event_at.

(** ** [Watcher::run]

    One entry per connection: the items of its stream and the instant at which a
    stream error is observed.  Returns the state, the sleeps and whether the
    loop returned [Ok(())] (it does on a clean end; with no connection left the
    loop is still running). *)
Fixpoint Watcher_run (conns : list (stream DynamicObject * Instant)) (attempt : nat)
    (cache : ConfigCache) (last_event_at : Z) : ConfigCache * Z * list Z * bool :=
  match conns with
  | [] => (cache, last_event_at, [], false)
  | (items, t_err) :: rest =>
      match pump_config_events items cache last_event_at (bool_decide (0 < attempt)%nat) with
      | (cache, lea, StreamEnded) => (cache, lea, [], true)
      | (cache, lea, StreamErrored _) =>
          let '(c, l, sleeps, done) := Watcher_run rest (S attempt) (mark_all_stale cache t_err) lea in
          (c, l, backoff_delay attempt :: sleeps, done)
      end
  end.

(** ** Facts about the pump *)

(** The snapshots an event inserts, in order. *)
Definition event_upserts (it : Instant * result (Event DynamicObject) string) :
    list ConfigMutation :=
  match it.2 with
  | Ok (Apply obj) | Ok (InitApply obj) =>
      match parse_config_object it.1 obj with Some s => [Upsert s] | None => [] end
  | _ => []
  end.

Lemma handle_event_inner now ev c :
  inner (handle_event now ev c) = foldl apply_mutation (inner c) (event_upserts (now, Ok ev)).
Proof. unfold event_upserts. destruct ev; simpl; try done; by destruct (parse_config_object _ _). Qed.

(** Without batching, a connection applies its events one at a time. *)
Lemma pump_per_event items c lea :
  Forall (λ it, is_ok it.2) items →
  inner (pump_loop false None items c lea).1.1 =
    foldl apply_mutation (inner c) (mjoin (event_upserts <$> items)).
Proof.
  revert c lea; induction items as [|[now [ev|e]] items IH]; intros c lea Hall; simpl.
  - done.
  - inversion Hall; subst. rewrite foldl_app, <- handle_event_inner.
    destruct ev; simpl; by apply IH.
  - by inversion Hall.
Qed.

(** The [InitApply] items of a relist, and the mutations they stand for. *)
Definition relist_items (os : list (Instant * DynamicObject)) : stream DynamicObject :=
  (λ o, (o.1, Ok (InitApply o.2))) <$> os.
Definition relist_mutations (os : list (Instant * DynamicObject)) : list ConfigMutation :=
  mjoin (event_upserts <$> relist_items os).

(** Inside a batched relist the pump only buffers. *)
Lemma pump_buffering os rest buf c lea :
  ∃ lea', pump_loop true (Some buf) (relist_items os ++ rest) c lea =
          pump_loop true (Some (buf ++ relist_mutations os)) rest c lea'.
Proof.
  revert buf lea; induction os as [|[now o] os IH]; intros buf lea; simpl.
  - exists lea. by rewrite app_nil_r.
  - unfold route_config_event, relist_mutations; simpl.
    unfold buffer_config, event_upserts at 1; simpl.
    destruct (parse_config_object now o) as [s|]; simpl; [|apply IH].
    destruct (IH (buf ++ [Upsert s]) (touch now)) as [l Hl]. exists l.
    rewrite Hl. by rewrite <- app_assoc.
Qed.

(** A framed relist followed by [rest]: the pump commits the buffer in one batch
    and goes on. *)
Lemma pump_batched_relist t0 os t1 rest c lea :
  ∃ lea', pump_loop true None ((t0, Ok Init) :: relist_items os ++ (t1, Ok InitDone) :: rest) c lea
        = pump_loop true None rest (apply_batch c (relist_mutations os)).1 lea'.
Proof.
  simpl. destruct (pump_buffering os ((t1, Ok InitDone) :: rest) [] c (touch t0)) as [l Hl].
  eexists. rewrite Hl. simpl. reflexivity.
Qed.

(** Live events are handled one at a time whether or not relists are batched. *)
Definition live (it : Instant * result (Event DynamicObject) string) : bool :=
  match it.2 with Ok (Apply _) | Ok (Delete _) => true | _ => false end.

Lemma pump_live b items c lea :
  Forall live items → pump_loop b None items c lea = pump_loop false None items c lea.
Proof.
  revert c lea; induction items as [|[now [[]|e]] items IH]; intros c lea Hall; simpl;
    inversion Hall; simplify_eq/=; try done; apply IH; done.
Qed.

Lemma live_ok items : Forall live items → Forall (λ it, is_ok it.2) items.
Proof. intros H. eapply Forall_impl; [exact H|]. intros [? [|]]; done. Qed.

Lemma relist_items_ok os : Forall (λ it, is_ok it.2) (relist_items os).
Proof. unfold relist_items. apply Forall_fmap. by apply Forall_true. Qed.

Lemma pump_live_inner b items c lea :
  Forall live items →
  inner (pump_loop b None items c lea).1.1 =
    foldl apply_mutation (inner c) (mjoin (event_upserts <$> items)).
Proof. intros H. rewrite pump_live by done. apply pump_per_event, live_ok, H. Qed.

Lemma apply_batch_inner_fold (c : ConfigCache) ms :
  inner (apply_batch c ms).1 = foldl apply_mutation (inner c) ms.
Proof. by destruct ms. Qed.

(** ** What a watcher never does: it never removes an entry, and every entry it
    leaves was there before or parsed from an object of the stream. *)

(** Every snapshot a mutation list can insert. *)
Definition upserted (ms : list ConfigMutation) (s : ConfigSnapshot) : Prop := Upsert s ∈ ms.
Definition only_upserts (ms : list ConfigMutation) : Prop :=
  Forall (λ mu, match mu with Upsert _ => True | Remove _ _ => False end) ms.

Lemma event_upserts_only it : only_upserts (event_upserts it).
Proof.
  unfold event_upserts, only_upserts. destruct it as [now [[]|]]; simpl; try constructor;
    destruct (parse_config_object _ _); repeat constructor.
Qed.

Lemma apply_mutation_retains m mu k :
  (match mu with Upsert _ => True | Remove _ _ => False end) →
  is_Some (m !! k) → is_Some (@apply_mutation ConfigSnapshot _ m mu !! k).
Proof.
  destruct mu as [s|]; [|done]. intros _ Hm. simpl. unfold insert_snap.
  destruct (decide (key_of s = k)) as [->|]; [rewrite lookup_insert_eq; eauto|].
  by rewrite lookup_insert_ne.
Qed.

Lemma apply_mutations_retain ms m k :
  only_upserts ms → is_Some (m !! k) →
  is_Some (foldl (@apply_mutation ConfigSnapshot _) m ms !! k).
Proof.
  revert m; induction ms as [|mu ms IH]; intros m Hu Hm; simpl; [done|].
  inversion Hu; subst. apply IH; [done|]. by apply apply_mutation_retains.
Qed.

Lemma handle_event_retains now ev c k :
  is_Some (inner c !! k) → is_Some (inner (handle_event now ev c) !! k).
Proof. rewrite handle_event_inner. apply apply_mutations_retain, event_upserts_only. Qed.

Lemma only_upserts_app a b : only_upserts a → only_upserts b → only_upserts (a ++ b).
Proof. apply Forall_app_2. Qed.

#[local] Arguments handle_event : simpl never.

Lemma pump_loop_retains b relist items c lea k :
  (∀ buf, relist = Some buf → only_upserts buf) →
  is_Some (inner c !! k) → is_Some (inner (pump_loop b relist items c lea).1.1 !! k).
Proof.
  revert relist c lea; induction items as [|[now [ev|e]] items IH]; intros relist c lea Hb Hk;
    simpl; [done| |done].
  unfold route_config_event, route_relist_event, buffer_config.
  destruct relist as [buf|].
  - specialize (Hb buf eq_refl).
    destruct ev; simpl; try (apply IH; [naive_solver | by apply handle_event_retains]).
    + destruct (parse_config_object now o); simpl; apply IH; try done; [|by intros ? [= <-]].
      intros ? [= <-]. apply only_upserts_app; [done|by repeat constructor].
    + apply IH; [done|]. rewrite apply_batch_inner_fold. by apply apply_mutations_retain.
  - destruct ev; simpl; try (apply IH; [done|by apply handle_event_retains]).
    destruct b; apply IH; try done. intros ? [= <-]. constructor.
Qed.

Lemma Watcher_run_retains conns attempt c lea k :
  is_Some (inner c !! k) → is_Some (inner (Watcher_run conns attempt c lea).1.1.1 !! k).
Proof.
  revert attempt c lea; induction conns as [|[items t] conns IH]; intros attempt c lea Hk;
    simpl; [done|].
  unfold pump_config_events.
  pose proof (pump_loop_retains (bool_decide (0 < attempt)%nat) None items c lea k) as Hp.
  destruct (pump_loop _ _ _ _ _) as [[c' l] [|e]]; simpl in *.
  - by apply Hp.
  - specialize (IH (S attempt) (mark_all_stale c' t) l).
    destruct (Watcher_run _ _ _ _) as [[[c'' ?] ?] ?]; simpl in *. apply IH.
    unfold stale_all. rewrite lookup_fmap, fmap_is_Some. by apply Hp.
Qed.

(** The sleeps of [Watcher::run] follow the schedule from its first attempt. *)
Lemma Watcher_run_sleeps conns attempt c lea :
  ∃ n, (Watcher_run conns attempt c lea).1.2 = backoff_delay <$> seq attempt n.
Proof.
  revert attempt c lea; induction conns as [|[items t] conns IH]; intros attempt c lea; simpl.
  { by exists 0%nat. }
  destruct (pump_config_events _ _ _ _) as [[c' l] [|e]]; simpl; [by exists 0%nat|].
  destruct (IH (S attempt) (mark_all_stale c' t) l) as [n Hn].
  destruct (Watcher_run _ _ _ _) as [[[? ?] ?] ?]; simpl in *. exists (S n). simpl. by rewrite Hn.
Qed.

Lemma backoff_sleeps_schedule attempt n :
  Forall (λ d, 1 ≤ d ≤ 30) (backoff_delay <$> seq attempt n) ∧
  ∀ i j d d', (i ≤ j)%nat → (backoff_delay <$> seq attempt n) !! i = Some d →
    (backoff_delay <$> seq attempt n) !! j = Some d' → d ≤ d'.
Proof.
  split.
  - apply Forall_fmap, Forall_forall. intros a _. simpl. apply (backoff_delay_step a).
  - intros i j d d' Hij Hi Hj. rewrite list_lookup_fmap in Hi, Hj.
    apply fmap_Some in Hi as (a & Ha & ->). apply fmap_Some in Hj as (b & Hb & ->).
    apply lookup_seq in Ha as [-> ?], Hb as [-> ?]. apply backoff_delay_mono. lia.
Qed.

(** The entries after a relist: what the last relisted object for a key parsed
    to, or the previous entry. *)
Lemma lookup_relist os m k s :
  foldl apply_mutation m (relist_mutations os) !! k = Some s →
  Upsert s ∈ relist_mutations os ∧ key_of s = k ∨
  m !! k = Some s ∧ ∀ s', Upsert s' ∈ relist_mutations os → key_of s' ≠ k.
Proof.
  rewrite lookup_apply_mutations.
  destruct (last (filter _ (relist_mutations os))) as [mu|] eqn:Hl.
  - apply last_Some in Hl as [l Hl].
    assert (Hin : mu ∈ filter (λ mu, mutation_key mu = k) (relist_mutations os)).
    { rewrite Hl. set_solver. }
    apply list_elem_of_filter in Hin as [Hk Hin]. intros Hv. left.
    destruct mu; simpl in *; by simplify_eq.
  - intros Hk. right. split; [done|]. intros s' Hs' Hkey.
    apply last_None in Hl.
    assert (Hin : Upsert s' ∈ filter (λ mu, mutation_key mu = k) (relist_mutations os))
      by (by apply list_elem_of_filter).
    rewrite Hl in Hin. by apply not_elem_of_nil in Hin.
Qed.

Lemma relist_mutations_fresh os s : Upsert s ∈ relist_mutations os → c_stale_since s = None.
Proof.
  unfold relist_mutations, relist_items. rewrite list_elem_of_join.
  intros (l & Hs & Hl). apply list_elem_of_fmap in Hl as (it & -> & Hit).
  apply list_elem_of_fmap in Hit as (o & -> & _). unfold event_upserts in Hs; simpl in Hs.
  destruct (parse_config_object o.1 o.2) as [s'|] eqn:Hp; [|by apply not_elem_of_nil in Hs].
  apply list_elem_of_singleton in Hs. simplify_eq. by apply parse_config_object_fields in Hp as [? _].
Qed.

(** ** Properties *)

(** C12: on a reconnect the whole relist is committed as one batch, and the cache
    it leaves, live events after it included, is the one the per-event path
    leaves; the relist itself costs one write of the map instead of one per
    object. *)
Theorem relist_batch_equiv (t0 t1 : Instant) (os : list (Instant * DynamicObject))
    (rest : stream DynamicObject) (c : ConfigCache) (lea : Z) :
  Forall live rest →
  let items := (t0, Ok Init) :: relist_items os ++ (t1, Ok InitDone) :: rest in
  inner (pump_config_events items c lea true).1.1 =
    inner (pump_config_events items c lea false).1.1 ∧
  writes (pump_config_events ((t0, Ok Init) :: relist_items os ++ [(t1, Ok InitDone)]) c lea true).1.1
    = writes c + (if decide (relist_mutations os = []) then 0 else 1).
Proof.
  intros Hrest items. split.
  - unfold pump_config_events. rewrite (pump_per_event items).
    + destruct (pump_batched_relist t0 os t1 rest c lea) as [l Hl].
      unfold items. rewrite Hl. rewrite pump_live_inner by done.
      rewrite apply_batch_inner_fold, <- foldl_app. simpl. rewrite fmap_app, join_app. done.
    + repeat constructor. apply Forall_app_2; [apply relist_items_ok|].
      constructor; [done | by apply live_ok].
  - unfold pump_config_events.
    destruct (pump_batched_relist t0 os t1 [] c lea) as [l Hl]. rewrite Hl. apply apply_batch_writes.
Qed.

(** C13: after a stream error and a reconnect, an entry is fresh exactly when the
    relist contained a parsable object for its key, and a relist cut short by
    another error leaves the (all stale) cache untouched. *)
Theorem reconnect_freshness (c : ConfigCache) (t_err t0 t1 : Instant)
    (os : list (Instant * DynamicObject)) (lea : Z) :
  (∀ k s, inner (pump_config_events ((t0, Ok Init) :: relist_items os ++ [(t1, Ok InitDone)])
                   (mark_all_stale c t_err) lea true).1.1 !! k = Some s →
     c_stale_since s = None ↔ ∃ s', Upsert s' ∈ relist_mutations os ∧ key_of s' = k) ∧
  (∀ e, ∃ lea', pump_config_events ((t0, Ok Init) :: relist_items os ++ [(t1, Err e)])
     (mark_all_stale c t_err) lea true = (mark_all_stale c t_err, lea', StreamErrored e)).
Proof.
  unfold pump_config_events. split.
  - intros k s. destruct (pump_batched_relist t0 os t1 [] (mark_all_stale c t_err) lea) as [l ->].
    simpl. rewrite apply_batch_inner_fold. intros Hs. apply lookup_relist in Hs as [[Hin Hk]|[Hs Hno]].
    + split; [eauto|]. intros _. by eapply relist_mutations_fresh.
    + simpl in Hs. unfold stale_all in Hs. rewrite lookup_fmap in Hs.
      apply fmap_Some in Hs as (s' & _ & ->). split; [done|].
      intros (s'' & Hin & Hk). by destruct (Hno s'' Hin).
  - intros e. destruct (pump_buffering os [(t1, Err e)] [] (mark_all_stale c t_err) (touch t0)) as [l Hl].
    exists l. simpl. by rewrite Hl.
Qed.

(** C11: last-known-good: across any number of connections, errors, relists and
    deletions, the watcher never drops an entry of the cache. *)
Theorem last_known_good (conns : list (stream DynamicObject * Instant)) (attempt : nat)
    (c : ConfigCache) (lea : Z) (ns n : string) :
  is_Some (get c ns n) → is_Some (get (Watcher_run conns attempt c lea).1.1.1 ns n).
Proof. apply Watcher_run_retains. Qed.

Definition demo_obj (n : string) (v : Z) (rv : string) : DynamicObject :=
  mkObj (mkMeta (Some n) (Some "prod") (Some rv) None None)
    (JObj [("spec", JObj [("content", JObj []); ("schema_version", JInt v)])]).

Lemma relist_batch_equiv_witness :
  Forall live [(5, Ok (Apply (demo_obj "b" 2 "9")))] ∧
  inner (pump_config_events ((1, Ok Init) :: relist_items [(2, demo_obj "a" 1 "7")] ++
           [(3, Ok InitDone); (5, Ok (Apply (demo_obj "b" 2 "9")))])
           (from_map "config" ∅) 0 true).1.1 =
  inner (pump_config_events ((1, Ok Init) :: relist_items [(2, demo_obj "a" 1 "7")] ++
           [(3, Ok InitDone); (5, Ok (Apply (demo_obj "b" 2 "9")))])
           (from_map "config" ∅) 0 false).1.1.
Proof.
  assert (H : Forall live [(5, Ok (Apply (demo_obj "b" 2 "9")))]) by (repeat constructor).
  split; [exact H|].
  apply (relist_batch_equiv 1 3 [(2, demo_obj "a" 1 "7")] _ (from_map "config" ∅) 0 H).
Defined.

(** A deletion and a stream error later, the entry is still served (stale). *)
Lemma last_known_good_witness :
  let c0 := update (from_map "config" ∅) (demo_snap "a" 1) in
  let c1 := (Watcher_run [([(1, Ok (Delete (demo_obj "a" 1 "1"))); (2, Err "gone")], 3)] 0 c0 0).1.1.1 in
  is_Some (get c0 "prod" "a") ∧ is_Some (get c1 "prod" "a") ∧
  c_stale_since <$> get c1 "prod" "a" = Some (Some 3).
Proof.
  intros c0 c1.
  assert (H : is_Some (get c0 "prod" "a")) by (eexists; vm_compute; reflexivity).
  split; [exact H|]. split; [|vm_compute; reflexivity].
  apply (last_known_good [([(1, Ok (Delete (demo_obj "a" 1 "1"))); (2, Err "gone")], 3)] 0 c0 0).
  exact H.
Defined.

(** both reconnect loops back off along a schedule that starts at its first
    attempt, stays between one and thirty seconds and never decreases. *)
Theorem backoff_schedule :
  (∀ {St} od (f : nat → St → St) rounds st i j d d', (i ≤ j)%nat →
     let sleeps := (run_with_reconnect od f rounds 0 st).2 in
     sleeps !! i = Some d → sleeps !! j = Some d' → 1 ≤ d ∧ d ≤ d' ∧ d' ≤ 30) ∧
  (∀ conns c lea i j d d', (i ≤ j)%nat →
     let sleeps := (Watcher_run conns 0 c lea).1.2 in
     sleeps !! i = Some d → sleeps !! j = Some d' → 1 ≤ d ∧ d ≤ d' ∧ d' ≤ 30).
Proof.
  assert (Hs : ∀ n i j d d', (i ≤ j)%nat → (backoff_delay <$> seq 0 n) !! i = Some d →
    (backoff_delay <$> seq 0 n) !! j = Some d' → 1 ≤ d ∧ d ≤ d' ∧ d' ≤ 30).
  { intros n i j d d' Hij Hi Hj. destruct (backoff_sleeps_schedule 0 n) as [Hr Hm].
    rewrite Forall_lookup in Hr. pose proof (Hr _ _ Hi). pose proof (Hr _ _ Hj).
    pose proof (Hm _ _ _ _ Hij Hi Hj). lia. }
  split.
  - intros St od f rounds st i j d d' Hij sleeps. unfold sleeps.
    rewrite run_with_reconnect_sleeps. eauto.
  - intros conns c lea i j d d' Hij sleeps. unfold sleeps.
    destruct (Watcher_run_sleeps conns 0 c lea) as [n ->]. eauto.
Qed.
