(* ===== verification/Mirror.v ===== *)
(** * The object mirror shared by the ConfigACL, TenantQuota and ConfigSchema
    watchers ([acl.rs], [quota.rs], [schema.rs])

    Each of the three watchers keeps a mirror of the live objects by object
    name, rebuilds its published table from the mirror after every mutating
    event, and flips a sync flag at the end of the first list.  The mechanics
    are stated once, over the parser of an object and the builder of a table;
    the three components instantiate them. *)
From S2P Require Export Watcher.

Definition object_name (obj : DynamicObject) : string := default "" (om_name (do_metadata obj)).

Section Mirror.
Context {E T : Type} `{!MapIter string E}.
Context (parse : DynamicObject → option E) (build : list E → T).

(** The published table and the sync flag outlive a connection. *)
Record MirrorSt : Type := mkMirrorSt {
  mi_table : T;
  mi_synced : bool
}.

(** One event: whether the table must be rebuilt, the new mirror, the new flag. *)
Definition mirror_event (event : Event DynamicObject) (objects : gmap string E) (synced : bool) :
    bool * gmap string E * bool :=
  match event with
  | Apply obj | InitApply obj =>
      let key := object_name obj in
      match parse obj with
      | Some entry => (true, <[key := entry]> objects, synced)
      | None => (true, delete key objects, synced)
      end
  | Delete obj => (true, delete (object_name obj) objects, synced)
  | Init => (false, objects, synced)
  | InitDone => (false, objects, true)
  end.

Definition publish (objects : gmap string E) : T := build (map_values objects).

Fixpoint mirror_loop (items : list (result (Event DynamicObject) string))
    (objects : gmap string E) (st : MirrorSt) : MirrorSt * PumpOutcome :=
  match items with
  | [] => (st, StreamEnded)
  | Err e :: _ => (st, StreamErrored e)
  | Ok event :: rest =>
      let '(changed, objects', synced') := mirror_event event objects (mi_synced st) in
      mirror_loop rest objects'
        (mkMirrorSt (if changed then publish objects' else mi_table st) synced')
  end.

(** A connection starts from an empty mirror. *)
Definition mirror_pump (items : list (result (Event DynamicObject) string)) (st : MirrorSt) :
    MirrorSt * PumpOutcome :=
  mirror_loop items ∅ st.

(** The reconnect loop: an error sleeps and retries, a clean end returns. *)
Fixpoint mirror_run (conns : list (list (result (Event DynamicObject) string))) (attempt : nat)
    (st : MirrorSt) : MirrorSt * list Z * bool :=
  match conns with
  | [] => (st, [], false)
  | items :: rest =>
      match mirror_pump items st with
      | (st', StreamEnded) => (st', [], true)
      | (st', StreamErrored _) =>
          let '(st'', sleeps, done) := mirror_run rest (S attempt) st' in
          (st'', backoff_delay attempt :: sleeps, done)
      end
  end.

(** The startup task around a watcher: [run_with_reconnect] calls [run] again
    after every return, with nothing to do on a disconnect.  Call [k] of [run]
    sees the connections [rounds !! k]; the table and the flag stay. *)
Definition mirror_task (rounds : list (list (list (result (Event DynamicObject) string))))
    (st : MirrorSt) : MirrorSt :=
  (run_with_reconnect (λ s, s)
     (λ k s, match rounds !! k with Some conns => (mirror_run conns 0 s).1.1 | None => s end)
     (length rounds) 0 st).1.

(** ** Specification: the live set a sequence of events describes

    An object is identified by its namespace and its name, an object of a
    cluster-scoped kind by its name and the empty namespace. *)

Definition object_ref (obj : DynamicObject) : string * string :=
  (default "" (om_namespace (do_metadata obj)), object_name obj).

Definition event_ref (ev : Event DynamicObject) : option (string * string) :=
  match ev with
  | Apply obj | InitApply obj | Delete obj => Some (object_ref obj)
  | Init | InitDone => None
  end.
Definition event_key (ev : Event DynamicObject) : option string := snd <$> event_ref ev.
Definition event_entry (ev : Event DynamicObject) : option E :=
  match ev with Apply obj | InitApply obj => parse obj | _ => None end.

(** The last event about an object decides what is live of it. *)
Definition live_entry (evs : list (Event DynamicObject)) (r : string * string) : option E :=
  match last (filter (λ ev, event_ref ev = Some r) evs) with
  | Some ev => event_entry ev
  | None => None
  end.

(** No two objects the events speak of share a name across namespaces, as always
    for a cluster-scoped kind. *)
Definition names_unique (evs : list (Event DynamicObject)) : Prop :=
  let refs := omap event_ref evs in
  Forall (λ r, Forall (λ r', r.2 = r'.2 → r = r') refs) refs.
Definition cluster_scoped (evs : list (Event DynamicObject)) : Prop :=
  Forall (λ r, r.1 = ""%string) (omap event_ref evs).

Definition mutating (ev : Event DynamicObject) : bool :=
  match event_key ev with Some _ => true | None => false end.

Definition mirror_of (evs : list (Event DynamicObject)) (objects : gmap string E) : gmap string E :=
  foldl (λ m ev, (mirror_event ev m false).1.2) objects evs.

(** What a connection delivers before its first error, and whether it has one. *)
Fixpoint heard (items : list (result (Event DynamicObject) string)) : list (Event DynamicObject) :=
  match items with
  | Ok ev :: rest => ev :: heard rest
  | _ => []
  end.
Definition errored (items : list (result (Event DynamicObject) string)) : bool :=
  existsb (λ it, negb (is_ok it)) items.

(** The connections one [run] opens: up to and including the first clean end. *)
Fixpoint connections (conns : list (list (result (Event DynamicObject) string))) :
    list (list (Event DynamicObject)) :=
  match conns with
  | [] => []
  | items :: rest => heard items :: (if errored items then connections rest else [])
  end.

(** The last connection of the whole task that heard of an object. *)
Definition deciding (rounds : list (list (list (result (Event DynamicObject) string)))) :
    option (list (Event DynamicObject)) :=
  last (filter (λ evs, existsb mutating evs = true) (rounds ≫= connections)).

Lemma mirror_event_objects ev objs b : (mirror_event ev objs b).1.2 = (mirror_event ev objs false).1.2.
Proof. destruct ev; simpl; try done; by destruct (parse o). Qed.

Lemma mirror_event_changed ev objs b : (mirror_event ev objs b).1.1 = mutating ev.
Proof. destruct ev; simpl; try done; by destruct (parse o). Qed.

Lemma mirror_event_synced ev objs b :
  (mirror_event ev objs b).2 = b || match ev with InitDone => true | _ => false end.
Proof. destruct ev; simpl; try (destruct (parse o)); by rewrite ?orb_false_r, ?orb_true_r. Qed.

Lemma lookup_mirror_event ev objs k :
  (mirror_event ev objs false).1.2 !! k =
    if decide (event_key ev = Some k) then event_entry ev else objs !! k.
Proof.
  destruct ev as [o|o| |o|]; cbn; try done; case_decide as Hk; simplify_eq;
    try (destruct (parse o) eqn:Hp; simpl);
    rewrite ?lookup_insert_eq, ?lookup_delete_eq, ?Hp; try done.
  all: first [rewrite lookup_insert_ne by congruence | rewrite lookup_delete_ne by congruence]; done.
Qed.

Lemma lookup_mirror_of evs objs k :
  mirror_of evs objs !! k =
    match last (filter (λ ev, event_key ev = Some k) evs) with
    | Some ev => event_entry ev
    | None => objs !! k
    end.
Proof.
  unfold mirror_of. induction evs as [|ev evs IH] using rev_ind; [done|].
  rewrite foldl_snoc, lookup_mirror_event, filter_app, filter_cons, filter_nil.
  case_decide; [by rewrite last_snoc | by rewrite app_nil_r].
Qed.

Lemma mirror_of_idle evs m : existsb mutating evs = false → mirror_of evs m = m.
Proof.
  unfold mirror_of. revert m; induction evs as [|e evs IH]; simpl; intros m Hm; [done|].
  apply orb_false_elim in Hm as [? ?]. rewrite IH by done. by destruct e.
Qed.

(** A connection publishes the mirror of what it heard, if that had an object. *)
Lemma mirror_loop_spec items objs st :
  (mirror_loop items objs st).1 =
    mkMirrorSt (if existsb mutating (heard items) then publish (mirror_of (heard items) objs)
                else mi_table st)
       (mi_synced st || existsb (λ ev, match ev with InitDone => true | _ => false end) (heard items)) ∧
  match (mirror_loop items objs st).2 with
  | StreamEnded => errored items = false
  | StreamErrored _ => errored items = true
  end.
Proof.
  revert objs st; induction items as [|[ev|e] items IH]; intros objs [tab sy]; simpl;
    [by rewrite orb_false_r | | by rewrite orb_false_r].
  pose proof (mirror_event_objects ev objs sy) as Ho.
  pose proof (mirror_event_changed ev objs sy) as Hc.
  pose proof (mirror_event_synced ev objs sy) as Hs.
  destruct (mirror_event ev objs sy) as [[ch objs'] sy']; simpl in *. subst.
  destruct (IH (mirror_event ev objs false).1.2 (mkMirrorSt
    (if mutating ev then publish (mirror_event ev objs false).1.2 else tab)
    (sy || match ev with InitDone => true | _ => false end))) as [IH1 IH2].
  rewrite IH1. split; [|exact IH2]. simpl. rewrite orb_assoc. f_equal.
  change (mirror_of (ev :: heard items) objs)
    with (mirror_of (heard items) (mirror_event ev objs false).1.2).
  destruct (existsb mutating (heard items)) eqn:Hx; [by rewrite orb_true_r|]. rewrite orb_false_r.
  by rewrite mirror_of_idle.
Qed.

Lemma mirror_pump_table items st :
  mi_table (mirror_pump items st).1 =
    if existsb mutating (heard items) then publish (mirror_of (heard items) ∅) else mi_table st.
Proof. unfold mirror_pump. by rewrite (proj1 (mirror_loop_spec items ∅ st)). Qed.

(** The table some connections leave: that of the last one that heard of an object. *)
Definition table_after (css : list (list (Event DynamicObject))) (tab : T) : T :=
  match last (filter (λ evs, existsb mutating evs = true) css) with
  | Some evs => publish (mirror_of evs ∅)
  | None => tab
  end.

Lemma table_after_app l1 l2 tab : table_after (l1 ++ l2) tab = table_after l2 (table_after l1 tab).
Proof. unfold table_after. rewrite filter_app, last_app. by destruct (last (filter _ l2)). Qed.

Lemma table_after_cons evs l tab :
  table_after (evs :: l) tab =
    table_after l (if existsb mutating evs then publish (mirror_of evs ∅) else tab).
Proof.
  change (evs :: l) with ([evs] ++ l). rewrite table_after_app. f_equal.
  unfold table_after. rewrite filter_cons, filter_nil. by destruct (existsb mutating evs).
Qed.

Lemma mirror_run_table conns attempt st :
  mi_table (mirror_run conns attempt st).1.1 = table_after (connections conns) (mi_table st).
Proof.
  revert attempt st; induction conns as [|items conns IH]; intros attempt st; simpl; [done|].
  rewrite table_after_cons, <- mirror_pump_table.
  pose proof (proj2 (mirror_loop_spec items ∅ st)) as Ho. unfold mirror_pump in *.
  destruct (mirror_loop items ∅ st) as [st' [|e]]; simpl in *; rewrite Ho; [done|].
  rewrite <- (IH (S attempt) st'). by destruct (mirror_run conns (S attempt) st') as [[? ?] ?].
Qed.

(** The table of the whole task. *)
Lemma mirror_task_table rounds st :
  mi_table (mirror_task rounds st) =
    match deciding rounds with
    | Some evs => publish (mirror_of evs ∅)
    | None => mi_table st
    end.
Proof.
  change (match deciding rounds with Some evs => publish (mirror_of evs ∅) | None => mi_table st end)
    with (table_after (rounds ≫= connections) (mi_table st)).
  unfold mirror_task.
  assert (H : ∀ pre rs st, mi_table (run_with_reconnect (λ s, s)
     (λ k s, match (pre ++ rs) !! k with Some conns => (mirror_run conns 0 s).1.1 | None => s end)
     (length rs) (length pre) st).1 = table_after (rs ≫= connections) (mi_table st)).
  { clear. intros pre rs; revert pre; induction rs as [|conns rs IH]; intros pre st; [done|].
    specialize (IH (pre ++ [conns]) (mirror_run conns 0 st).1.1).
    rewrite <- app_assoc, length_app in IH. simpl in *.
    rewrite list_lookup_middle by done. rewrite Nat.add_1_r in IH.
    destruct (run_with_reconnect _ _ _ _ _) as [? ?]; simpl in *.
    by rewrite IH, mirror_run_table, table_after_app. }
  apply (H []).
Qed.

Lemma cluster_scoped_unique evs : cluster_scoped evs → names_unique evs.
Proof.
  unfold cluster_scoped, names_unique. rewrite !Forall_forall. intros Hc r Hr.
  rewrite Forall_forall. intros r' Hr' Hn. pose proof (Hc r Hr). pose proof (Hc r' Hr').
  destruct r, r'; simpl in *. congruence.
Qed.

(** Under distinct names the events about a name are those about one object. *)
Lemma filter_by_ref evs ev ns k :
  names_unique evs → ev ∈ evs → event_ref ev = Some (ns, k) →
  filter (λ ev, event_key ev = Some k) evs = filter (λ ev, event_ref ev = Some (ns, k)) evs.
Proof.
  intros Hu Hev Hr. apply filter_ext_elem. intros ev' Hev'. unfold event_key. split.
  - intros (r' & Hr' & Hk)%fmap_Some. unfold names_unique in Hu. rewrite Forall_forall in Hu.
    pose proof (Hu (ns, k)) as Hx. rewrite Forall_forall in Hx.
    rewrite Hr', (Hx (proj2 (list_elem_of_omap _ _ _) (ex_intro _ _ (conj Hev Hr))) r'); [done| |done].
    apply list_elem_of_omap. eauto.
  - by intros ->.
Qed.

(** So the mirror holds exactly the live entries. *)
Lemma mirror_of_live evs k e :
  names_unique evs →
  mirror_of evs ∅ !! k = Some e ↔ ∃ ns, live_entry evs (ns, k) = Some e.
Proof.
  intros Hu. rewrite lookup_mirror_of. unfold live_entry. split.
  - destruct (last _) as [ev|] eqn:Hl; [|done]. intros He.
    pose proof Hl as Hin. apply last_Some_elem_of, list_elem_of_filter in Hin as [Hk Hin].
    unfold event_key in Hk. apply fmap_Some in Hk as ([ns k'] & Hr & ->).
    exists ns. cbn [snd] in *. by rewrite <- (filter_by_ref evs ev ns k' Hu Hin Hr), Hl.
  - intros [ns He]. destruct (last (filter _ evs)) as [ev|] eqn:Hl in He; [|done].
    pose proof Hl as Hin. apply last_Some_elem_of, list_elem_of_filter in Hin as [Hk Hin].
    by rewrite (filter_by_ref evs ev ns k Hu Hin Hk), Hl.
Qed.

Lemma elem_of_mirror_values `{!MapIterLaws string E} evs e :
  names_unique evs →
  e ∈ map_values (mirror_of evs ∅) ↔ ∃ r, live_entry evs r = Some e.
Proof.
  intros Hu. rewrite elem_of_map_values. split.
  - intros [k Hk]. apply (mirror_of_live evs k e Hu) in Hk as [ns Hk]. eauto.
  - intros [[ns k] Hk]. exists k. apply (mirror_of_live evs k e Hu). eauto.
Qed.

(** The live set of a list of one object. *)
Lemma live_entry_list_one o r :
  live_entry [Init; InitApply o; InitDone] r = if decide (object_ref o = r) then parse o else None.
Proof.
  unfold live_entry. rewrite !filter_cons, filter_nil. simpl.
  repeat (case_decide; simplify_eq); done.
Qed.

(** The sync flag never regresses, on any connection or sequence of them. *)
Lemma mirror_loop_synced items objs st :
  mi_synced st = true → mi_synced (mirror_loop items objs st).1 = true.
Proof.
  revert objs st; induction items as [|[ev|e] items IH]; intros objs st Hs; simpl; try done.
  pose proof (mirror_event_synced ev objs (mi_synced st)) as Hy.
  destruct (mirror_event _ _ _) as [[? ?] sy]; simpl in *. apply IH. simpl. by rewrite Hy, Hs.
Qed.

Lemma mirror_run_synced conns attempt st :
  mi_synced st = true → mi_synced (mirror_run conns attempt st).1.1 = true.
Proof.
  revert attempt st; induction conns as [|items conns IH]; intros attempt st Hs; simpl; [done|].
  pose proof (mirror_loop_synced items ∅ st Hs) as Hl. unfold mirror_pump.
  destruct (mirror_loop items ∅ st) as [st' [|e]]; simpl in *; [done|].
  specialize (IH (S attempt) st' Hl).
  by destruct (mirror_run conns (S attempt) st') as [[? ?] ?].
Qed.
End Mirror.
Arguments MirrorSt : clear implicits.
