(* ===== verification/F64.v ===== *)
(** * IEEE-754 doubles as the code uses them

    [f64] on the Standard Library's executable specification of binary floating
    point (53 bits of precision, exponents below 1024): conversion from machine
    integers, the arithmetic and comparisons of the rate limiter, and the
    decimal parser [str::parse::<f64>()]. *)
From Stdlib Require Import SpecFloat.
From S2P Require Export Types.

Definition prec : Z := 53.
Definition emax : Z := 1024.

Definition f64_add := SFadd prec emax.
Definition f64_sub := SFsub prec emax.
Definition f64_mul := SFmul prec emax.
Definition f64_div := SFdiv prec emax.
(** [a >= b] and [a < b]: false when either is NaN. *)
Definition f64_ge (a b : spec_float) : bool := SFleb b a.
Definition f64_lt (a b : spec_float) : bool := SFltb a b.

Definition f64_is_nan (a : spec_float) : bool :=
  match a with S754_nan => true | _ => false end.

(** [f64::min]: the other operand when one is NaN. *)
Definition f64_min (a b : spec_float) : spec_float :=
  if f64_is_nan a then b else if f64_is_nan b then a else if SFltb a b then a else b.

(** [z as f64] for an integer: round to nearest even. *)
Definition f64_of_Z (z : Z) : spec_float := binary_normalize prec emax z 0 false.

(** [f64::from(u32)] is exact: the mantissa is shifted up to 53 bits. *)
Definition f64_of_u32 (n : Z) : spec_float :=
  match n with
  | Zpos p => S754_finite false (Z.to_pos (Z.shiftl (Zpos p) (52 - Z.log2 (Zpos p)))) (Z.log2 (Zpos p) - 52)
  | _ => S754_zero false
  end.

(** [Duration::as_secs_f64] of a number of nanoseconds. *)
Definition nanos_as_secs_f64 (ns : Z) : spec_float :=
  f64_add (f64_of_Z (ns / 1000000000)) (f64_div (f64_of_Z (ns mod 1000000000)) (f64_of_Z 1000000000)).

(** ** Decimal parsing: correctly rounded [m * 10^e]. *)
Definition f64_of_decimal (neg : bool) (m : Z) (e : Z) : spec_float :=
  match m with
  | Zpos p =>
      if 0 <=? e then
        match Zpos p * 10 ^ e with
        | Zpos q => binary_round prec emax neg q 0
        | _ => S754_zero neg
        end
      else
        let '(mz, ez, lz) := SFdiv_core_binary prec emax (Zpos p) 0 (10 ^ (- e)) 0 in
        binary_round_aux prec emax neg mz ez lz
  | _ => S754_zero neg
  end.

(** Digits read so far (value, count) and the rest of the text. *)
Fixpoint take_digits (acc : Z) (count : Z) (s : string) : Z * Z * string :=
  match s with
  | String c s' =>
      match digit_val c with
      | Some d => take_digits (10 * acc + d) (count + 1) s'
      | None => (acc, count, s)
      end
  | EmptyString => (acc, count, s)
  end.

Definition parse_exponent (s : string) : option Z :=
  match s with
  | EmptyString => Some 0
  | String c r =>
      if Ascii.eqb c "e" || Ascii.eqb c "E" then
        let '(neg, r) := match r with
                         | String "-" r' => (true, r')
                         | String "+" r' => (false, r')
                         | _ => (false, r) end in
        let '(v, k, rest) := take_digits 0 0 r in
        if (0 <? k) && is_empty rest then Some (if neg : bool then - v else v) else None
      else None
  end.

Definition parse_f64_unsigned (neg : bool) (s : string) : option spec_float :=
  if eq_ignore_ascii_case s "inf" || eq_ignore_ascii_case s "infinity"
  then Some (S754_infinity neg)
  else if eq_ignore_ascii_case s "nan" then Some S754_nan
  else
    let '(ip, ni, r) := take_digits 0 0 s in
    let '(m, nf, r) := match r with
                       | String "." r' => let '(m, n, r'') := take_digits ip 0 r' in (m, n, r'')
                       | _ => (ip, 0, r) end in
    if 0 <? ni + nf then
      match parse_exponent r with
      | Some e => Some (f64_of_decimal neg m (e - nf))
      | None => None
      end
    else None.

Definition parse_f64 (s : string) : option spec_float :=
  match s with
  | String "-" r => parse_f64_unsigned true r
  | String "+" r => parse_f64_unsigned false r
  | _ => parse_f64_unsigned false s
  end.

(** ** Order facts *)

(** The key the comparison sorts finite non-negative values by. *)
Lemma SFltb_pos m1 e1 m2 e2 :
  SFltb (S754_finite false m1 e1) (S754_finite false m2 e2) = true ↔
  e1 < e2 ∨ e1 = e2 ∧ Zpos m1 < Zpos m2.
Proof.
  unfold SFltb; simpl. destruct (Z.compare_spec e1 e2); subst.
  - change (Pos.compare_cont Eq m1 m2) with (m1 ?= m2)%positive.
    destruct (Pos.compare_spec m1 m2); split; intros; done || lia.
  - split; intros; done || lia.
  - split; intros; done || lia.
Qed.

(** [SFltb] is transitive on all values, NaN being below nothing. *)
Lemma SFltb_trans a b c : SFltb a b = true → SFltb b c = true → SFltb a c = true.
Proof.
  destruct a as [[]|[]| |[] m1 e1], b as [[]|[]| |[] m2 e2], c as [[]|[]| |[] m3 e3];
    try done; rewrite ?SFltb_pos; try (intros; lia).
  unfold SFltb; simpl.
  destruct (Z.compare_spec e1 e2), (Z.compare_spec e2 e3), (Z.compare_spec e1 e3);
    subst; try done; try lia.
  change (Pos.compare_cont Eq m1 m2) with (m1 ?= m2)%positive.
  change (Pos.compare_cont Eq m2 m3) with (m2 ?= m3)%positive.
  change (Pos.compare_cont Eq m1 m3) with (m1 ?= m3)%positive.
  destruct (Pos.compare_spec m1 m2), (Pos.compare_spec m2 m3), (Pos.compare_spec m1 m3);
    try done; lia.
Qed.

Lemma SFltb_not_leb a b : SFltb a b = true → SFleb b a = false.
Proof.
  destruct a as [[]|[]| |[] m1 e1], b as [[]|[]| |[] m2 e2]; try done;
    unfold SFltb, SFleb; simpl.
  - rewrite (Z.compare_antisym e1 e2). destruct (Z.compare_spec e1 e2); simpl; try done.
    change (Pos.compare_cont Eq m1 m2) with (m1 ?= m2)%positive.
    change (Pos.compare_cont Eq m2 m1) with (m2 ?= m1)%positive.
    rewrite (Pos.compare_antisym m1 m2). by destruct (m1 ?= m2)%positive.
  - rewrite (Z.compare_antisym e1 e2). destruct (Z.compare_spec e1 e2); simpl; try done.
    change (Pos.compare_cont Eq m1 m2) with (m1 ?= m2)%positive.
    change (Pos.compare_cont Eq m2 m1) with (m2 ?= m1)%positive.
    rewrite (Pos.compare_antisym m1 m2). by destruct (m1 ?= m2)%positive.
Qed.

(** The exact conversion is strictly monotone. *)
Lemma f64_of_u32_lt a b : 0 ≤ a → a < b → in_u32 b → SFltb (f64_of_u32 a) (f64_of_u32 b) = true.
Proof.
  intros Ha Hab Hb. destruct b as [|q|q]; try lia. destruct a as [|p|p]; try lia; [done|].
  unfold f64_of_u32. apply SFltb_pos.
  assert (Hl : Z.log2 (Zpos p) ≤ Z.log2 (Zpos q)) by (apply Z.log2_le_mono; lia).
  destruct (Z.eq_dec (Z.log2 (Zpos p)) (Z.log2 (Zpos q))) as [He|]; [right|left; lia].
  rewrite He. split; [done|].
  assert (Z.log2 (Zpos q) < 32).
  { apply Z.log2_lt_pow2; [lia|]. unfold in_u32, u32_max in Hb. lia. }
  rewrite !Z.shiftl_mul_pow2 by lia.
  assert (0 < 2 ^ (52 - Z.log2 (Zpos q))) by (apply Z.pow_pos_nonneg; lia).
  rewrite !Z2Pos.id by nia. nia.
Qed.

(** Capping at [b] leaves nothing that reaches a larger [c]. *)
Lemma f64_min_capped x b c :
  f64_is_nan b = false → SFltb b c = true → f64_ge (f64_min x b) c = false.
Proof.
  intros Hb Hbc. unfold f64_ge, f64_min. rewrite Hb.
  destruct (f64_is_nan x); [by apply SFltb_not_leb|].
  destruct (SFltb x b) eqn:Hx; apply SFltb_not_leb; [|done]. by eapply SFltb_trans.
Qed.

Lemma f64_of_u32_not_nan n : f64_is_nan (f64_of_u32 n) = false.
Proof. by destruct n. Qed.

Lemma parse_f64_examples :
  parse_f64 "0.1" = Some (S754_finite false 7205759403792794 (-56)) ∧
  parse_f64 "-2.5e1" = Some (f64_of_Z (-25)) ∧
  parse_f64 "." = None ∧ parse_f64 "1e" = None ∧ parse_f64 ".5" = parse_f64 "5E-1" ∧
  f64_of_u32 4294967295 = f64_of_Z 4294967295.
Proof. by vm_compute. Qed.

(** ** Order and signs *)
Lemma SFleb_trans a b c : SFleb a b = true → SFleb b c = true → SFleb a c = true.
Proof.
  unfold SFleb. destruct a as [sa|sa| |sa ma ea], b as [sb|sb| |sb mb eb], c as [sc|sc| |sc mc ec];
    try (destruct sa); try (destruct sb); try (destruct sc); simpl; try done;
    repeat match goal with
    | |- context [Z.compare ?x ?y] => destruct (Z.compare_spec x y); simpl
    end; subst; try done; try lia;
    repeat match goal with
    | |- context [Pos.compare_cont Eq ?x ?y] => change (Pos.compare_cont Eq x y) with (Pos.compare x y); destruct (Pos.compare_spec x y); simpl
    end; subst; try done; try lia.
Qed.

(** A float that is not greater than zero. *)
Definition not_pos (x : spec_float) : bool :=
  match x with S754_finite false _ _ | S754_infinity false => false | _ => true end.
Definition is_pos (x : spec_float) : bool :=
  match x with S754_finite false _ _ | S754_infinity false => true | _ => false end.

Lemma not_pos_le t x : SFleb (S754_zero false) t = true → not_pos x = true → SFltb t x = false.
Proof.
  unfold SFleb, SFltb. destruct t as [st|st| |st mt et], x as [sx|sx| |sx mx ex]; try (destruct st); try (destruct sx); done.
Qed.

Lemma pos_of_lt a b : SFltb (S754_zero false) a = true → SFleb a b = true → is_pos b = true.
Proof.
  unfold SFleb, SFltb. destruct a as [st|st| |st mt et], b as [sx|sx| |sx mx ex]; try (destruct st); try (destruct sx); simpl; done.
Qed.

Lemma round_aux_sign m e l : not_pos (binary_round_aux prec emax true m e l) = true.
Proof.
  unfold binary_round_aux. destruct (shr_fexp _ _ _ _ _) as [mrs' e']. destruct (shr_fexp _ _ _ _ _) as [mrs'' e''].
  destruct (shr_m mrs''); try done. by destruct (_ <=? _).
Qed.

Lemma round_sign m e : not_pos (binary_round prec emax true m e) = true.
Proof. unfold binary_round. destruct (shl_align _ _ _). apply round_aux_sign. Qed.

Lemma normalize_sign z e : z ≤ 0 → not_pos (binary_normalize prec emax z e false) = true.
Proof.
  intros Hz. unfold binary_normalize. destruct z as [|p|p]; [done|lia|].
  apply round_sign.
Qed.

Lemma div_sign x y : not_pos x = true → is_pos y = true → not_pos (f64_div x y) = true.
Proof.
  unfold f64_div. destruct x as [sx|sx| |sx mx ex], y as [sy|sy| |sy my ey]; try (destruct sx); try (destruct sy);
    simpl; try done. destruct (SFdiv_core_binary _ _ _ _ _ _) as [[mz ez] lz]. intros _ _. apply round_aux_sign.
Qed.

Lemma digits2_bounds p : 2 ^ (Zpos (digits2_pos p) - 1) ≤ Zpos p < 2 ^ Zpos (digits2_pos p).
Proof.
  induction p as [p IH|p IH|]; simpl digits2_pos; [| |simpl; lia];
    rewrite Pos2Z.inj_succ; replace (Z.succ (Zpos (digits2_pos p)) - 1) with (Z.succ (Zpos (digits2_pos p) - 1)) by lia;
    rewrite !Z.pow_succ_r by lia; lia.
Qed.

Lemma iter_xO m d : Zpos (Pos.iter xO m d) = Zpos m * 2 ^ Zpos d.
Proof.
  induction d as [|d IH] using Pos.peano_ind; [simpl; lia|].
  rewrite Pos.iter_succ, Pos2Z.inj_succ, Z.pow_succ_r by lia. rewrite Pos2Z.inj_xO, IH. lia.
Qed.

Lemma shl_align_value m e e' : e' ≤ e → Zpos (fst (shl_align m e e')) = Zpos m * 2 ^ (e - e').
Proof.
  intros He. unfold shl_align. destruct (e' - e) as [|p|p] eqn:Hd; [|lia|].
  - replace (e - e') with 0 by lia. simpl. lia.
  - simpl. rewrite iter_xO. by replace (e - e') with (Zpos p) by lia.
Qed.

(** A canonical positive float with a smaller exponent is smaller. *)
Lemma canonical_lt m1 e1 m2 e2 :
  valid_binary prec emax (S754_finite false m1 e1) = true → valid_binary prec emax (S754_finite false m2 e2) = true →
  e1 < e2 → Zpos m1 ≤ Zpos m2 * 2 ^ (e2 - e1).
Proof.
  simpl. unfold bounded, canonical_mantissa, fexp, emin, prec, emax. intros H1 H2 He. bools.
  pose proof (digits2_bounds m1) as [_ B1]. pose proof (digits2_bounds m2) as [B2 _].
  assert (Zpos (digits2_pos m2) = 53) as Hd2 by lia. rewrite Hd2 in B2. assert (Zpos (digits2_pos m1) ≤ 53) as Hd1 by lia.
  pose proof (Z.pow_le_mono_r 2 _ _ ltac:(lia) Hd1). pose proof (Z.pow_le_mono_r 2 1 (e2 - e1) ltac:(lia) ltac:(lia)).
  simpl (53 - 1) in B2. change (2 ^ 53) with (2 ^ 52 * 2) in *. change (2 ^ 1) with 2 in *. nia.
Qed.

Lemma sub_sign a b :
  valid_binary prec emax a = true → valid_binary prec emax b = true → SFleb a b = true → is_pos b = true →
  not_pos (f64_sub a b) = true.
Proof.
  intros Ha Hb. unfold f64_sub, SFleb.
  destruct a as [sa|sa| |sa ma ea], b as [sb|sb| |sb mb eb]; try (destruct sa); try (destruct sb); simpl; try done;
    intros Hle _.
  - apply round_sign.
  - apply normalize_sign. rewrite !shl_align_value by lia.
    destruct (Z.compare_spec ea eb) as [->|Hlt|Hgt]; [| |done].
    + change (Pos.compare_cont Eq ma mb) with (Pos.compare ma mb) in Hle.
      rewrite !Z.min_id, !Z.sub_diag. destruct (Pos.compare_spec ma mb); subst; (done || lia).
    + rewrite Z.min_l, Z.sub_diag by lia. pose proof (canonical_lt _ _ _ _ Ha Hb Hlt). lia.
Qed.

(** The relative change of a value that did not grow is not above a threshold
    that is not negative. *)
Lemma rel_change_not_over t cur base :
  valid_binary prec emax cur = true → valid_binary prec emax base = true → SFleb (S754_zero false) t = true →
  is_pos base = true → SFleb cur base = true → f64_lt t (f64_div (f64_sub cur base) base) = false.
Proof. intros Hc Hb Ht Hp Hle. apply not_pos_le; [done|]. apply div_sign; [|done]. by apply sub_sign. Qed.
