(* ===== verification/Rounding.v ===== *)
(** * What rounding does to an integer index or a product

    [f64] products are rounded to nearest even.  The facts the load-test tools
    rely on: a rounded value never crosses an integer (or any float) the exact
    value does not cross, so truncating [len as f64 * 0.95] stays in range, and
    multiplying by a factor of at least one never lowers a value. *)
From Stdlib Require Import SpecFloat.
From S2P Require Export F64.

(** [x as u64] (and [as usize]): truncates, saturates, and NaN is 0. *)
Definition f64_as_u64 (x : spec_float) : Z :=
  match x with
  | S754_finite false m e => Z.min u64_max (if 0 <=? e then Zpos m * 2 ^ e else Zpos m / 2 ^ (- e))
  | S754_infinity false => u64_max
  | _ => 0
  end.

Lemma digits2_unique p a : 2 ^ (a - 1) ≤ Zpos p < 2 ^ a → 1 ≤ a → Zpos (digits2_pos p) = a.
Proof.
  intros [Hl Hu] Ha. pose proof (digits2_bounds p) as [Bl Bu].
  destruct (Z.lt_trichotomy (Zpos (digits2_pos p)) a) as [Hlt|[Heq|Hgt]]; [|done|].
  - pose proof (Z.pow_le_mono_r 2 (Zpos (digits2_pos p)) (a - 1) ltac:(lia) ltac:(lia)). lia.
  - pose proof (Z.pow_le_mono_r 2 a (Zpos (digits2_pos p) - 1) ltac:(lia) ltac:(lia)). lia.
Qed.

(** ** Shifting right with a sticky bit *)

(** [mrs] is [M] shifted right by [k]: the quotient, and whether it is exact. *)
Definition shifted (M k : Z) (mrs : shr_record) : Prop :=
  shr_m mrs = M / 2 ^ k ∧ (shr_r mrs || shr_s mrs = false ↔ M mod 2 ^ k = 0).

Lemma div2_step M k : 0 ≤ k → 0 ≤ M →
  M / 2 ^ (k + 1) = M / 2 ^ k / 2 ∧ (M mod 2 ^ (k + 1) = 0 ↔ M mod 2 ^ k = 0 ∧ (M / 2 ^ k) mod 2 = 0).
Proof.
  intros Hk HM. rewrite Z.pow_add_r, Z.pow_1_r by lia. assert (0 < 2 ^ k) by (apply Z.pow_pos_nonneg; lia).
  rewrite Z.div_div by lia. split; [done|]. rewrite Z.rem_mul_r by lia.
  pose proof (Z.mod_pos_bound M (2 ^ k) ltac:(lia)). pose proof (Z.mod_pos_bound (M / 2 ^ k) 2 ltac:(lia)). nia.
Qed.

Lemma shr_1_spec m r s : 0 ≤ m → shr_1 (Build_shr_record m r s) = Build_shr_record (m / 2) (Z.odd m) (r || s).
Proof. intros Hm. rewrite <- Z.div2_div. by destruct m as [|[p|p|]|p]; [| | | |lia]. Qed.

Lemma shifted_step M k mrs : 0 ≤ k → 0 ≤ M → shifted M k mrs → shifted M (k + 1) (shr_1 mrs).
Proof.
  intros Hk HM [Hm Hs]. destruct (div2_step M k Hk HM) as [Hd Hr]. destruct mrs as [m r s]. simpl in Hm, Hs.
  rewrite shr_1_spec by (subst m; apply Z.div_pos; lia). unfold shifted. simpl shr_m. simpl shr_r. simpl shr_s.
  rewrite Hd, Hr, <- Hm, <- Hs, Zmod_odd. split; [done|].
  destruct (Z.odd m); simpl; [split; [done|by intros [_ ?]]|]. split; [done|by intros [? _]].
Qed.

Lemma shifted_iter M p k mrs : 0 ≤ k → 0 ≤ M → shifted M k mrs → shifted M (k + Zpos p) (SpecFloat.iter_pos shr_1 p mrs).
Proof.
  revert k mrs. induction p as [p IH|p IH|]; intros k mrs Hk HM Hs; simpl SpecFloat.iter_pos.
  - replace (k + Zpos p~1) with (k + 1 + Zpos p + Zpos p) by lia.
    apply IH; [lia|done|]. apply IH; [lia|done|]. by apply shifted_step.
  - replace (k + Zpos p~0) with (k + Zpos p + Zpos p) by lia. apply IH; [lia|done|]. by apply IH.
  - by apply shifted_step.
Qed.

Lemma shr_spec M e n : 0 ≤ n → 0 ≤ M →
  ∃ mrs, shr (Build_shr_record M false false) e n = (mrs, e + n) ∧ shifted M n mrs.
Proof.
  intros Hn HM. assert (H0 : shifted M 0 (Build_shr_record M false false)).
  { split; simpl; [by rewrite Z.div_1_r|]. by rewrite Z.mod_1_r. }
  destruct n as [|p|p]; [|eexists; split; [done|]|lia].
  - rewrite Z.add_0_r. by eexists.
  - by apply (shifted_iter M p 0).
Qed.

(** ** The rounded value *)

(** [m] is the quotient of [M] by [2^s], or the next integer when it is inexact. *)
Definition rounds (M s m : Z) : Prop := m = M / 2 ^ s ∨ m = M / 2 ^ s + 1 ∧ M mod 2 ^ s ≠ 0.

Lemma round_choice M s mrs : shifted M s mrs → rounds M s (round_nearest_even (shr_m mrs) (loc_of_shr_record mrs)).
Proof.
  intros [Hm Hs]. unfold rounds. rewrite <- Hm. destruct mrs as [m [] []]; simpl in *; try (by left).
  - right. split; [done|]. intros H. apply Hs in H. done.
  - destruct (Z.even m); [by left|]. right. split; [done|]. intros H. apply Hs in H. done.
Qed.

(** Neither bound is crossed. *)
Lemma rounds_lower M s m k : 0 ≤ s → k * 2 ^ s ≤ M → rounds M s m → k ≤ m.
Proof.
  intros Hs Hk Hm. assert (0 < 2 ^ s) by (apply Z.pow_pos_nonneg; lia).
  assert (k ≤ M / 2 ^ s) by (apply Z.div_le_lower_bound; lia). destruct Hm as [->|[-> _]]; lia.
Qed.

Lemma rounds_upper M s m k : 0 ≤ s → M ≤ k * 2 ^ s → rounds M s m → m ≤ k.
Proof.
  intros Hs Hk Hm. assert (0 < 2 ^ s) by (apply Z.pow_pos_nonneg; lia). pose proof (Z.div_mod M (2 ^ s) ltac:(lia)).
  pose proof (Z.mod_pos_bound M (2 ^ s) ltac:(lia)). destruct Hm as [->|[-> Hr]]; nia.
Qed.

(** The float [m * 2^e] in the result's format. *)
Definition pack (m e : Z) : spec_float :=
  match m with
  | Z0 => S754_zero false
  | Zpos p => if e <=? emax - prec then S754_finite false p e else S754_infinity false
  | Zneg _ => S754_nan
  end.

Lemma round_aux_spec p E :
  let e := fexp prec emax (Zpos (digits2_pos p) + E) in
  E ≤ e →
  ∃ m, rounds (Zpos p) (e - E) m ∧ 0 ≤ m ≤ 2 ^ 53 ∧
    binary_round_aux prec emax false (Zpos p) E loc_Exact =
      if m =? 2 ^ 53 then pack (2 ^ 52) (e + 1) else pack m e.
Proof.
  intros e HE. unfold binary_round_aux, shr_fexp at 1. simpl shr_record_of_loc. simpl Zdigits2. fold e.
  destruct (shr_spec (Zpos p) E (e - E) ltac:(lia) ltac:(lia)) as (mrs & -> & Hs).
  pose proof (round_choice _ _ _ Hs) as Hr. set (m := round_nearest_even _ _) in *.
  replace (E + (e - E)) with e by lia. exists m. split; [done|].
  assert (Hb : 0 ≤ m ≤ 2 ^ 53).
  { pose proof (digits2_bounds p) as [_ Hp]. split; [apply (rounds_lower (Zpos p) (e - E) m 0); [lia|lia|done]|].
    apply (rounds_upper (Zpos p) (e - E) m); [lia| |done].
    assert (Zpos (digits2_pos p) ≤ 53 + (e - E)) as Hle by (unfold e, fexp, prec, emax, emin; lia).
    pose proof (Z.pow_le_mono_r 2 _ _ ltac:(lia) Hle) as Hpow. rewrite Z.pow_add_r in Hpow by lia. lia. }
  split; [done|]. unfold shr_fexp. simpl shr_record_of_loc.
  destruct (Z.eqb_spec m (2 ^ 53)) as [->|Hne].
  - replace (fexp prec emax (Zdigits2 (2 ^ 53) + e) - e) with 1; [reflexivity|].
    change (Zdigits2 (2 ^ 53)) with 54. unfold e, fexp, prec, emax, emin. lia.
  - assert (Hle : fexp prec emax (Zdigits2 m + e) ≤ e).
    { assert (Zdigits2 m ≤ 53); [|unfold e, fexp, prec, emax, emin in *; lia].
      destruct m as [|q|q]; [done| |lia]. simpl. pose proof (digits2_bounds q) as [Hq _].
      destruct (Z.le_gt_cases (Zpos (digits2_pos q)) 53) as [|Hgt]; [done|].
      pose proof (Z.pow_le_mono_r 2 53 (Zpos (digits2_pos q) - 1) ltac:(lia) ltac:(lia)). lia. }
    unfold shr. destruct (fexp prec emax (Zdigits2 m + e) - e) eqn:Hd; simpl shr_m; [|lia|]; by destruct m.
Qed.

(** ** Conversion of an integer below [2^53] is exact *)
Lemma f64_of_Z_exact n :
  0 < n < 2 ^ 53 →
  ∃ m e, f64_of_Z n = S754_finite false m e ∧ -52 ≤ e ≤ 0 ∧ Zpos m = n * 2 ^ (- e) ∧ 2 ^ 52 ≤ Zpos m < 2 ^ 53.
Proof.
  intros Hn. destruct n as [|q|q]; [lia| |lia]. pose proof (digits2_bounds q) as [Hl Hu].
  set (d := Zpos (digits2_pos q)) in *.
  assert (Hd : 1 ≤ d ≤ 53).
  { split; [lia|]. destruct (Z.le_gt_cases d 53) as [|Hgt]; [done|].
    pose proof (Z.pow_le_mono_r 2 53 (d - 1) ltac:(lia) ltac:(lia)). lia. }
  assert (Hf : fexp prec emax d = d - 53) by (unfold fexp, prec, emax, emin; lia).
  unfold f64_of_Z, binary_normalize, binary_round. fold d. rewrite Z.add_0_r, Hf.
  destruct (shl_align q 0 (d - 53)) as [mz ez] eqn:Hs.
  assert (ez = d - 53) as ->.
  { revert Hs. unfold shl_align. destruct (d - 53 - 0) eqn:He; intros [= _ <-]; lia. }
  pose proof (shl_align_value q 0 (d - 53) ltac:(lia)) as Hv. rewrite Hs in Hv. simpl fst in Hv.
  replace (0 - (d - 53)) with (53 - d) in Hv by lia.
  assert (Hm : 2 ^ 52 ≤ Zpos mz < 2 ^ 53).
  { rewrite Hv. assert (2 ^ 52 = 2 ^ (d - 1) * 2 ^ (53 - d)) by (rewrite <- Z.pow_add_r by lia; f_equal; lia).
    assert (2 ^ 53 = 2 ^ d * 2 ^ (53 - d)) by (rewrite <- Z.pow_add_r by lia; f_equal; lia).
    assert (0 < 2 ^ (53 - d)) by (apply Z.pow_pos_nonneg; lia). nia. }
  assert (Hdz : Zpos (digits2_pos mz) = 53) by (apply digits2_unique; lia).
  pose proof (round_aux_spec mz (d - 53)) as Hr. cbv zeta in Hr. rewrite Hdz in Hr. replace (53 + (d - 53)) with d in Hr by lia.
  rewrite Hf, Z.sub_diag in Hr. destruct Hr as (m & Hr & _ & ->); [lia|].
  assert (m = Zpos mz) as ->.
  { destruct Hr as [->|[_ Hr]]; [by rewrite Z.div_1_r|]. by rewrite Z.mod_1_r in Hr. }
  rewrite (proj2 (Z.eqb_neq _ _)) by lia. exists mz, (d - 53). simpl pack.
  rewrite (proj2 (Z.leb_le _ _)) by (unfold emax, prec; lia).
  split; [done|]. split; [lia|]. split; [|done]. rewrite Hv. f_equal. f_equal. lia.
Qed.

(** *** Exact sums and differences below [2^53] *)

(** Scaling to 53 bits is unique. *)
Lemma scaled_unique n e e' :
  e ≤ 0 → e' ≤ 0 → 2 ^ 52 ≤ n * 2 ^ (- e) < 2 ^ 53 → 2 ^ 52 ≤ n * 2 ^ (- e') < 2 ^ 53 → e = e'.
Proof.
  assert (Hlt : ∀ a b, a ≤ 0 → a < b → b ≤ 0 → 2 ^ 52 ≤ n * 2 ^ (- b) → n * 2 ^ (- a) < 2 ^ 53 → False).
  { intros a b Ha Hab Hb Hl Hu. replace (- a) with (- b + (b - a)) in Hu by lia. rewrite Z.pow_add_r in Hu by lia.
    assert (2 ^ 1 ≤ 2 ^ (b - a)) by (apply Z.pow_le_mono_r; lia). change (2 ^ 53) with (2 ^ 52 * 2 ^ 1) in Hu. nia. }
  intros He He' H1 H2. destruct (Z.lt_trichotomy e e') as [Hc|[Hc|Hc]]; [|done|]; exfalso.
  - apply (Hlt e e'); lia.
  - apply (Hlt e' e); lia.
Qed.

Lemma digits_scaled a b k : 0 ≤ k → Zpos a = Zpos b * 2 ^ k → Zpos (digits2_pos a) = Zpos (digits2_pos b) + k.
Proof.
  intros Hk Ha. pose proof (digits2_bounds b) as [Hl Hu]. assert (0 < 2 ^ k) by (apply Z.pow_pos_nonneg; lia).
  apply digits2_unique; [|lia]. rewrite Ha.
  replace (Zpos (digits2_pos b) + k - 1) with (Zpos (digits2_pos b) - 1 + k) by lia.
  rewrite !Z.pow_add_r by lia. nia.
Qed.

Lemma shl_align_scaled q E f :
  ∃ mz, shl_align q E f = (mz, Z.min E f) ∧ Zpos mz = Zpos q * 2 ^ (E - Z.min E f).
Proof.
  destruct (shl_align q E f) as [mz ez] eqn:Hs. exists mz. destruct (Z.le_gt_cases f E) as [Hle|Hgt].
  - pose proof (shl_align_value q E f Hle) as Hv. rewrite Hs in Hv. simpl fst in Hv. rewrite Z.min_r by lia.
    split; [|done]. revert Hs. unfold shl_align. destruct (f - E) eqn:Hx; intros [= _ <-]; f_equal; lia.
  - rewrite Z.min_l, Z.sub_diag, Z.mul_1_r by lia. revert Hs. unfold shl_align.
    destruct (f - E) eqn:Hx; intros [= <- <-]; by (lia || split).
Qed.

(** A mantissa at an exponent that denotes an integer below [2^53] rounds to it. *)
Lemma binary_round_exact q E n :
  0 < n < 2 ^ 53 → -1000 ≤ E ≤ 0 → Zpos q = n * 2 ^ (- E) → binary_round prec emax false q E = f64_of_Z n.
Proof.
  intros Hn HE Hq. destruct (f64_of_Z_exact n Hn) as (m0 & e0 & -> & He0 & Hm0 & Hb0).
  pose proof (digits2_bounds q) as [Hlq Huq]. set (d := Zpos (digits2_pos q)) in *.
  assert (HpE : 0 < 2 ^ (- E)) by (apply Z.pow_pos_nonneg; lia).
  assert (Hd : d + E ≤ 53).
  { destruct (Z.le_gt_cases (d + E) 53) as [|Hgt]; [done|].
    pose proof (Z.pow_le_mono_r 2 (53 + - E) (d - 1) ltac:(lia) ltac:(lia)) as Hp. rewrite Z.pow_add_r in Hp by lia. nia. }
  unfold binary_round. fold d. assert (Hf : fexp prec emax (d + E) = d + E - 53) by (unfold fexp, prec, emax, emin; lia).
  rewrite Hf. set (e := d + E - 53) in *. destruct (shl_align_scaled q E e) as (mz & -> & Hz).
  set (ez := Z.min E e) in *. rewrite Hq, <- Z.mul_assoc, <- Z.pow_add_r in Hz by lia.
  replace (- E + (E - ez)) with (- e + (e - ez)) in Hz by lia. rewrite Z.pow_add_r in Hz by lia.
  assert (Hdz : Zpos (digits2_pos mz) = 53 + (e - ez)).
  { rewrite (digits_scaled mz q (E - ez)); [fold d; lia|lia|]. rewrite Hz, Hq, <- Z.mul_assoc, <- !Z.pow_add_r by lia.
    do 2 f_equal. lia. }
  pose proof (round_aux_spec mz ez) as Hr. cbv zeta in Hr. rewrite Hdz in Hr.
  replace (53 + (e - ez) + ez) with (d + E) in Hr by lia. rewrite Hf in Hr.
  destruct Hr as (m & Hr & Hm & ->); [lia|]. assert (Hpe : 0 < 2 ^ (e - ez)) by (apply Z.pow_pos_nonneg; lia).
  rewrite Hz, Z.mul_assoc in Hr. assert (m = n * 2 ^ (- e)) as ->.
  { destruct Hr as [->|[_ Hr]]; [by rewrite Z.div_mul by lia|]. by rewrite Z.mod_mul in Hr by lia. }
  assert (Hb : 2 ^ 52 ≤ n * 2 ^ (- e) < 2 ^ 53).
  { pose proof (digits2_bounds mz) as [Hlz Huz]. rewrite Hdz in Hlz, Huz.
    replace (53 + (e - ez) - 1) with (52 + (e - ez)) in Hlz by lia. rewrite Z.pow_add_r in Hlz, Huz by lia. nia. }
  assert (e = e0) as -> by (apply (scaled_unique n); lia).
  rewrite (proj2 (Z.eqb_neq _ _)), <- Hm0 by lia. simpl pack. by rewrite (proj2 (Z.leb_le _ _)) by (unfold emax, prec; lia).
Qed.

Lemma normalize_exact z E n : 0 ≤ n < 2 ^ 53 → -1000 ≤ E ≤ 0 → z = n * 2 ^ (- E) →
  binary_normalize prec emax z E false = f64_of_Z n.
Proof.
  intros Hn HE ->. assert (0 < 2 ^ (- E)) by (apply Z.pow_pos_nonneg; lia).
  destruct (decide (n = 0)) as [->|Hne]; [done|]. destruct (n * 2 ^ (- E)) as [|q|q] eqn:Hq; [nia| |nia].
  simpl. by apply binary_round_exact; [lia..|].
Qed.

(** Aligning the representation of an integer below [2^53]. *)
Lemma aligned m e n f : Zpos m = n * 2 ^ (- e) → f ≤ e ≤ 0 → Zpos (fst (shl_align m e f)) = n * 2 ^ (- f).
Proof.
  intros Hm Hf. destruct (shl_align_scaled m e f) as (mz & -> & Hz). simpl. rewrite Z.min_r in Hz by lia.
  rewrite Hz, Hm, <- Z.mul_assoc, <- Z.pow_add_r by lia. do 2 f_equal. lia.
Qed.

Lemma f64_add_exact a b : 0 ≤ a → 0 ≤ b → a + b < 2 ^ 53 → f64_add (f64_of_Z a) (f64_of_Z b) = f64_of_Z (a + b).
Proof.
  intros Ha Hb Hab. destruct (decide (a = 0)) as [->|Ha0].
  { destruct (decide (b = 0)) as [->|Hb0]; [done|]. destruct (f64_of_Z_exact b ltac:(lia)) as (m & e & Hb' & _).
    simpl. by rewrite Hb'. }
  destruct (decide (b = 0)) as [->|Hb0].
  { rewrite Z.add_0_r. destruct (f64_of_Z_exact a ltac:(lia)) as (m & e & -> & _). done. }
  destruct (f64_of_Z_exact a ltac:(lia)) as (m1 & e1 & -> & He1 & Hm1 & _).
  destruct (f64_of_Z_exact b ltac:(lia)) as (m2 & e2 & -> & He2 & Hm2 & _).
  unfold f64_add, SFadd. apply normalize_exact; [lia..|]. unfold cond_Zopp.
  rewrite (aligned m1 e1 a), (aligned m2 e2 b) by lia. lia.
Qed.

Lemma f64_sub_exact a b : 0 ≤ b ≤ a → a < 2 ^ 53 → f64_sub (f64_of_Z a) (f64_of_Z b) = f64_of_Z (a - b).
Proof.
  intros Hb Ha. destruct (decide (b = 0)) as [->|Hb0].
  { rewrite Z.sub_0_r. destruct (decide (a = 0)) as [->|Ha0]; [done|].
    destruct (f64_of_Z_exact a ltac:(lia)) as (m & e & -> & _). done. }
  destruct (f64_of_Z_exact a ltac:(lia)) as (m1 & e1 & -> & He1 & Hm1 & _).
  destruct (f64_of_Z_exact b ltac:(lia)) as (m2 & e2 & -> & He2 & Hm2 & _).
  unfold f64_sub, SFsub. apply normalize_exact; [lia..|]. unfold cond_Zopp.
  rewrite (aligned m1 e1 a), (aligned m2 e2 b) by lia. lia.
Qed.

(** The widening of a u32 is the conversion of its value. *)
Lemma f64_of_u32_eq n : 0 ≤ n < 2 ^ 53 → f64_of_u32 n = f64_of_Z n.
Proof.
  intros Hn. destruct n as [|p|p]; [done| |lia]. destruct (f64_of_Z_exact (Zpos p) ltac:(lia)) as (m & e & -> & He & Hm & Hb).
  pose proof (Z.log2_spec (Zpos p) ltac:(lia)) as [Hl Hu]. set (k := Z.log2 (Zpos p)) in *.
  assert (Hk : 0 ≤ k < 53).
  { split; [apply Z.log2_nonneg|]. apply Z.log2_lt_pow2; lia. }
  unfold f64_of_u32. fold k. rewrite Z.shiftl_mul_pow2 by lia.
  assert (e = k - 52) as ->.
  { apply (scaled_unique (Zpos p)); [lia..|]. replace (- (k - 52)) with (52 - k) by lia.
    assert (0 < 2 ^ (52 - k)) by (apply Z.pow_pos_nonneg; lia).
    assert (2 ^ 52 = 2 ^ k * 2 ^ (52 - k)) by (rewrite <- Z.pow_add_r by lia; f_equal; lia).
    replace (Z.succ k) with (k + 1) in Hu by lia. rewrite Z.pow_add_r in Hu by lia. change (2 ^ 53) with (2 ^ 52 * 2 ^ 1). nia. }
  replace (- (k - 52)) with (52 - k) in Hm by lia. by rewrite <- Hm.
Qed.

Lemma pack_as_u64 m e : 0 ≤ m ≤ 2 ^ 53 → -1074 ≤ e ≤ 0 → f64_as_u64 (pack m e) = m / 2 ^ (- e).
Proof.
  intros Hm He. destruct m as [|p|p]; [|simpl pack|lia].
  { simpl. by rewrite Z.div_0_l by (apply Z.pow_nonzero; lia). }
  rewrite (proj2 (Z.leb_le _ _)) by (unfold emax, prec; lia). unfold f64_as_u64.
  assert (0 < 2 ^ (- e)) by (apply Z.pow_pos_nonneg; lia).
  assert (Zpos p / 2 ^ (- e) ≤ Zpos p) by (apply Z.div_le_upper_bound; nia).
  unfold u64_max. destruct (Z.leb_spec 0 e).
  - replace e with 0 by lia. rewrite Z.div_1_r, Z.mul_1_r. lia.
  - lia.
Qed.

(** ** Truncating the product of a length and a fraction *)

(** For [n < 2^53] and a normal fraction [c = mc * 2^ec <= 1], the truncated
    product crosses no integer the exact product does not cross. *)
Lemma trunc_mul_between n mc ec k :
  0 < n < 2 ^ 53 → 2 ^ 52 ≤ Zpos mc < 2 ^ 53 → -1000 ≤ ec ≤ 0 → Zpos mc ≤ 2 ^ (- ec) → 0 ≤ k →
  let x := f64_as_u64 (f64_mul (f64_of_Z n) (S754_finite false mc ec)) in
  (k * 2 ^ (- ec) ≤ n * Zpos mc → k ≤ x) ∧ (n * Zpos mc ≤ k * 2 ^ (- ec) → x ≤ k).
Proof.
  intros Hn Hc Hec Hle Hk. destruct (f64_of_Z_exact n Hn) as (mx & ex & -> & Hex & Hmx & Hx).
  unfold f64_mul. simpl SFmul. set (P := (mx * mc)%positive). set (E := ex + ec).
  assert (HP : Zpos P = n * Zpos mc * 2 ^ (- ex)) by (unfold P; lia).
  assert (Hd : 105 ≤ Zpos (digits2_pos P) ≤ 53 - E).
  { pose proof (digits2_bounds P) as [Hl Hu]. split.
    - destruct (Z.le_gt_cases 105 (Zpos (digits2_pos P))) as [|Hgt]; [done|].
      pose proof (Z.pow_le_mono_r 2 (Zpos (digits2_pos P)) 104 ltac:(lia) ltac:(lia)).
      change (2 ^ 104) with (2 ^ 52 * 2 ^ 52) in *. unfold P in *. nia.
    - destruct (Z.le_gt_cases (Zpos (digits2_pos P)) (53 - E)) as [|Hgt]; [done|].
      pose proof (Z.pow_le_mono_r 2 (53 - E) (Zpos (digits2_pos P) - 1) ltac:(unfold E; lia) ltac:(lia)) as Hpow.
      replace (53 - E) with (53 + - ex + - ec) in Hpow by (unfold E; lia).
      rewrite !Z.pow_add_r in Hpow by lia. assert (0 < 2 ^ (- ex)) by (apply Z.pow_pos_nonneg; lia).
      assert (0 < 2 ^ (- ec)) by (apply Z.pow_pos_nonneg; lia). exfalso.
      assert (n * Zpos mc < 2 ^ 53 * 2 ^ (- ec)) by nia. nia. }
  pose proof (round_aux_spec P E) as Hr. cbv zeta in Hr. set (e := fexp prec emax _) in Hr.
  assert (He : E ≤ e ≤ 0) by (unfold e, E, fexp, prec, emax, emin; lia).
  destruct Hr as (m & Hr & Hm & ->); [lia|].
  assert (Hval : f64_as_u64 (if m =? 2 ^ 53 then pack (2 ^ 52) (e + 1) else pack m e) = m / 2 ^ (- e)).
  { destruct (Z.eqb_spec m (2 ^ 53)) as [->|Hne]; [|apply pack_as_u64; lia].
    destruct (Z.eq_dec e 0) as [->|He0]; [done|]. rewrite pack_as_u64 by lia.
    replace (- e) with (1 + - (e + 1)) by lia. rewrite Z.pow_add_r by lia.
    change (2 ^ 53) with (2 ^ 1 * 2 ^ 52). rewrite Z.div_mul_cancel_l; [done| |lia].
    apply Z.pow_nonzero; lia. }
  rewrite Hval. assert (0 < 2 ^ (- e)) by (apply Z.pow_pos_nonneg; lia).
  assert (Hsplit : 2 ^ (- ec) * 2 ^ (- ex) = 2 ^ (- e) * 2 ^ (e - E)).
  { rewrite <- !Z.pow_add_r by lia. f_equal. unfold E. lia. }
  assert (0 < 2 ^ (- ex)) by (apply Z.pow_pos_nonneg; lia).
  split; intros Hkb.
  - apply Z.div_le_lower_bound; [lia|]. apply (rounds_lower (Zpos P) (e - E)); [lia| |done]. rewrite HP. nia.
  - apply Z.div_le_upper_bound; [lia|]. apply (rounds_upper (Zpos P) (e - E)); [lia| |done]. rewrite HP. nia.
Qed.

(** ** Multiplying by a factor of at least one *)
Lemma canonical_normal m e :
  valid_binary prec emax (S754_finite false m e) = true →
  -1074 ≤ e ∧ Zpos (digits2_pos m) ≤ 53 ∧ (e = -1074 ∨ Zpos (digits2_pos m) = 53) ∧ fexp prec emax (Zpos (digits2_pos m) + e) = e.
Proof.
  simpl. unfold bounded, canonical_mantissa, fexp, emin, prec, emax. intros H. bools. lia.
Qed.

Lemma SFleb_pos m1 e1 m2 e2 :
  SFleb (S754_finite false m1 e1) (S754_finite false m2 e2) = true ↔ e1 < e2 ∨ e1 = e2 ∧ Zpos m1 ≤ Zpos m2.
Proof.
  unfold SFleb. cbn [SFcompare]. destruct (Z.compare_spec e1 e2) as [->|?|?].
  - change (Pos.compare_cont Eq m1 m2) with (m1 ?= m2)%positive. destruct (Pos.compare_spec m1 m2); split; intros; done || lia.
  - split; intros; done || lia.
  - split; intros; done || lia.
Qed.

Lemma pack_not_below m e p e0 :
  0 < m → e0 < e ∨ e0 = e ∧ Zpos p ≤ m → SFltb (pack m e) (S754_finite false p e0) = false.
Proof.
  intros Hm Hc. destruct m as [|q|q]; [lia| |lia]. simpl pack. destruct (_ <=? _); [|done].
  apply not_true_iff_false. rewrite SFltb_pos. lia.
Qed.

(** A product with a factor of at least one is not below the other factor. *)
Lemma mul_not_below x t :
  valid_binary prec emax x = true → valid_binary prec emax t = true →
  SFleb (S754_zero false) x = true → SFleb (f64_of_Z 1) t = true → f64_lt (f64_mul x t) x = false.
Proof.
  intros Hx Ht Hx0 Ht1. change (f64_of_Z 1) with (S754_finite false 4503599627370496 (-52)) in Ht1.
  unfold f64_lt, f64_mul.
  destruct x as [sx|sx| |sx mx ex]; try (destruct sx); try done; destruct t as [st|st| |st mt et]; try (destruct st); try done.
  simpl SFmul. apply canonical_normal in Hx as (Ex & _ & _ & Fx). apply canonical_normal in Ht as (_ & _ & Nt & _).
  assert (Het : -52 ≤ et ∧ 2 ^ 52 ≤ Zpos mt).
  { pose proof (digits2_bounds mt) as [Bt _]. apply SFleb_pos in Ht1 as [Hlt|[<- Hle]]; [|lia].
    split; [lia|]. destruct Nt as [?|Nt]; [lia|]. rewrite Nt in Bt. simpl in Bt. lia. }
  destruct Het as [Het Hmt]. set (P := (mx * mt)%positive).
  assert (Hd : Zpos (digits2_pos mx) + 52 ≤ Zpos (digits2_pos P)).
  { pose proof (digits2_bounds mx) as [Bx _]. pose proof (digits2_bounds P) as [_ BP].
    destruct (Z.le_gt_cases (Zpos (digits2_pos mx) + 52) (Zpos (digits2_pos P))) as [|Hgt]; [done|].
    pose proof (Z.pow_le_mono_r 2 (Zpos (digits2_pos P)) (Zpos (digits2_pos mx) - 1 + 52) ltac:(lia) ltac:(lia)) as Hp.
    rewrite Z.pow_add_r in Hp by lia. unfold P in *. nia. }
  pose proof (round_aux_spec P (ex + et)) as Hr. cbv zeta in Hr. set (e := fexp prec emax _) in Hr.
  assert (He : ex ≤ e ∧ ex + et ≤ e ∧ (e = ex ∨ e = Zpos (digits2_pos P) + (ex + et) - 53)).
  { unfold e, fexp, prec, emax, emin in *. lia. }
  destruct He as (He1 & He2 & He3). destruct (Hr He2) as (m & Hm & _ & ->).
  assert (Hlow : 0 < m ∧ (e = ex → Zpos mx ≤ m)).
  { assert (Hex : e = ex → Zpos mx ≤ m).
    { intros ->. apply (rounds_lower (Zpos P) (ex - (ex + et))); [lia| |done].
      pose proof (Z.pow_le_mono_r 2 (ex - (ex + et)) 52 ltac:(lia) ltac:(lia)). unfold P. nia. }
    split; [|done]. destruct He3 as [Heq|Heq]; [specialize (Hex Heq); lia|].
    assert (1 ≤ m); [|lia]. apply (rounds_lower (Zpos P) (e - (ex + et))); [lia| |done].
    pose proof (digits2_bounds P) as [BP _].
    pose proof (Z.pow_le_mono_r 2 (e - (ex + et)) (Zpos (digits2_pos P) - 1) ltac:(lia) ltac:(lia)). lia. }
  destruct Hlow as [H0 Hlow]. destruct (m =? 2 ^ 53); apply pack_not_below; [lia|lia|done|].
  destruct (Z.eq_dec e ex) as [->|]; [right; auto|left; lia].
Qed.
