(* ===== verification/Acl.v ===== *)
(** * Authorization: [acl.rs], [grpc/authz.rs], [grpc/identity.rs]

    The ConfigACL table and its watcher, the identity derived from a client
    certificate, and the guard every RPC handler calls. *)
From S2P Require Export Mirror.

(** ** Verbs, modes and patterns ([grpc/authz.rs]) *)
Inductive Verb : Set := Read | Write.
#[global] Instance Verb_eq_dec : EqDecision Verb.
Proof. solve_decision. Defined.

Definition Verb_as_str (v : Verb) : string :=
  match v with Read => "read" | Write => "write" end.

Definition Verb_parse (s : string) : option Verb :=
  let t := to_ascii_lowercase (trim s) in
  if String.eqb t "read" then Some Read
  else if String.eqb t "write" then Some Write
  else None.

Inductive Mode : Set := Disabled | Permissive | Enforce.
#[global] Instance Mode_eq_dec : EqDecision Mode.
Proof. solve_decision. Defined.

Definition Mode_parse (s : string) : Mode :=
  let t := to_ascii_lowercase (trim s) in
  if String.eqb t "permissive" then Permissive
  else if String.eqb t "enforce" then Enforce
  else Disabled.

(** [std::env::var(MODE_ENV)]: [None] when unset or not UTF-8. *)
Definition Mode_from_env (var : option string) : Mode :=
  match var with Some v => Mode_parse v | None => Disabled end.

Definition segment_matches (pat value : string) : bool :=
  String.eqb pat "*" || String.eqb pat value.

Definition pattern_matches (pattern ns n : string) : bool :=
  match split_once "/" pattern with
  | None => false
  | Some (pat_ns, pat_name) => segment_matches pat_ns ns && segment_matches pat_name n
  end.

(** ** Rules and the table ([acl.rs]) *)
Record Rule : Set := mkRule { r_verbs : list Verb; r_patterns : list string }.

Definition Rule_grants (r : Rule) (v : Verb) (ns n : string) : bool :=
  if negb (bool_decide (v ∈ r_verbs r)) then false
  else existsb (λ p, pattern_matches p ns n) (r_patterns r).

Record RuleSpec : Set := mkRuleSpec { rs_verbs : list string; rs_patterns : list string }.
Record AclSpec : Set := mkAclSpec { as_identity : string; as_rules : list RuleSpec }.

Definition rule_spec_of_json (v : json) : result RuleSpec DeError :=
  de_struct v 2 (
    let? verbs := de_field v 0 "verbs" (vec_of_json string_of_json) (Some []) in
    let? patterns := de_field v 1 "patterns" (vec_of_json string_of_json) (Some []) in
    Ok (mkRuleSpec verbs patterns)).

Definition acl_spec_of_json (v : json) : result AclSpec DeError :=
  de_struct v 2 (
    let? identity := de_field v 0 "identity" string_of_json None in
    let? rules := de_field v 1 "rules" (vec_of_json rule_spec_of_json) (Some []) in
    Ok (mkAclSpec identity rules)).

Definition lower (r : RuleSpec) : option Rule :=
  let verbs := omap Verb_parse (rs_verbs r) in
  let patterns := filter (λ p, contains_char "/" p = true) (rs_patterns r) in
  if bool_decide (verbs = []) || bool_decide (patterns = []) then None
  else Some (mkRule verbs patterns).

Record AclEntry : Set := mkAclEntry { ae_identity : string; ae_rules : list Rule }.

Definition parse_acl_object (obj : DynamicObject) : option AclEntry :=
  match json_get "spec" (do_data obj) with
  | None => None
  | Some spec_value =>
      match acl_spec_of_json spec_value with
      | Err _ => None
      | Ok spec =>
          let identity := trim (as_identity spec) in
          if is_empty identity then None
          else Some (mkAclEntry identity (omap lower (as_rules spec)))
      end
  end.

Notation AclTable := (gmap string (list Rule)).

Definition AclTable_grants (t : AclTable) (identity : string) (v : Verb) (ns n : string) : bool :=
  match t !! identity with
  | Some rules => existsb (λ r, Rule_grants r v ns n) rules
  | None => false
  end.

Definition identity_count (t : AclTable) : nat := size t.

(** [publish]: rules of several objects for one identity are concatenated. *)
Definition acl_build (entries : list AclEntry) : AclTable :=
  foldl (λ next e, <[ae_identity e := default [] (next !! ae_identity e) ++ ae_rules e]> next)
        ∅ entries.

Section AclWatcher.
Context `{!MapIter string AclEntry}.
Notation AclSt := (MirrorSt AclTable).

Definition handle_acl_event : Event DynamicObject → gmap string AclEntry → bool →
    bool * gmap string AclEntry * bool := mirror_event parse_acl_object.
Definition pump_acl_events (items : list (result (Event DynamicObject) string)) (st : AclSt) :
    AclSt * PumpOutcome := mirror_pump parse_acl_object acl_build items st.
Definition AclWatcher_run (conns : list (list (result (Event DynamicObject) string)))
    (attempt : nat) (st : AclSt) : AclSt * list Z * bool :=
  mirror_run parse_acl_object acl_build conns attempt st.
Definition acl_watch_task (rounds : list (list (list (result (Event DynamicObject) string))))
    (st : MirrorSt AclTable) : MirrorSt AclTable :=
  mirror_task parse_acl_object acl_build rounds st.
End AclWatcher.

(** ** Client identity ([grpc/identity.rs])

    The certificate parser is a parameter; what the code reads of a parsed
    certificate is its subject alternative names and its common names. *)
Record ClientIdentity : Set := mkIdentity { ci_id : string; ci_anonymous : bool }.

Definition anonymous_identity : ClientIdentity := mkIdentity "anonymous" true.
Definition named (i : string) : ClientIdentity := mkIdentity i false.

Inductive GeneralName : Set :=
  | GN_URI (uri : string)
  | GN_Other.

Record X509 : Set := mkX509 {
  x_san : option (list GeneralName);   (* [Ok(Some(_))]; absent or unreadable is [None] *)
  x_common_names : list (option string) (* [as_str] of each CN, [None] when not a string *)
}.

Section Identity.
Context (parse_x509_certificate : list Z → option X509).

Fixpoint first_uri (names : list GeneralName) : option string :=
  match names with
  | [] => None
  | GN_URI uri :: rest => if is_empty (trim uri) then first_uri rest else Some (trim uri)
  | GN_Other :: rest => first_uri rest
  end.

Definition identity_from_der (der : list Z) : ClientIdentity :=
  match parse_x509_certificate der with
  | None => anonymous_identity
  | Some cert =>
      match first_uri (default [] (x_san cert)) with
      | Some uri => named uri
      | None =>
          match head (x_common_names cert) with
          | Some (Some cn) => if is_empty (trim cn) then anonymous_identity else named (trim cn)
          | _ => anonymous_identity
          end
      end
  end.

(** [peer_certs] of the request: [None] without client authentication. *)
Definition extract_identity (peer_certs : option (list (list Z))) : ClientIdentity :=
  match peer_certs with
  | None => anonymous_identity
  | Some [] => anonymous_identity
  | Some (leaf :: _) => identity_from_der leaf
  end.

Lemma identity_from_der_named der :
  ci_anonymous (identity_from_der der) = false → is_empty (ci_id (identity_from_der der)) = false.
Proof.
  assert (Hu : ∀ l u, first_uri l = Some u → is_empty u = false).
  { induction l as [|[uri|] l IH]; simpl; intros u; [done| |apply IH].
    destruct (is_empty (trim uri)) eqn:He; [apply IH | by intros [= <-]]. }
  unfold identity_from_der. destruct (parse_x509_certificate der) as [cert|]; [|done].
  destruct (first_uri _) as [u|] eqn:Hf; [intros _; by apply Hu in Hf|].
  destruct (head _) as [[cn|]|]; [|done..]. by destruct (is_empty (trim cn)) eqn:He.
Qed.
End Identity.

(** ** The guard *)
Definition denial_message (identity : ClientIdentity) (v : Verb) (ns n : string) : string :=
  "identity '" +:+ ci_id identity +:+ "' not authorized for " +:+ Verb_as_str v +:+ " " +:+ ns
  +:+ "/" +:+ n.

(** Returns the decision and whether a would-deny line is logged. *)
Definition check (mode : Mode) (table : AclTable) (synced : bool) (identity : ClientIdentity)
    (v : Verb) (ns n : string) : rpc unit * bool :=
  if bool_decide (mode = Disabled) then (Ok tt, false)
  else if bool_decide (mode = Enforce) && negb synced then
    (Err (status Unavailable "authorization cache not yet synced — retry shortly"), false)
  else
    let granted := negb (ci_anonymous identity) && AclTable_grants table (ci_id identity) v ns n in
    if granted then (Ok tt, false)
    else match mode with
         | Permissive => (Ok tt, true)
         | Enforce => (Err (status PermissionDenied (denial_message identity v ns n)), false)
         | Disabled => (Ok tt, false)
         end.

(** ** Lemmas *)

Lemma segment_matches_true p v : segment_matches p v = true ↔ p = "*"%string ∨ p = v.
Proof. unfold segment_matches. by rewrite orb_true_iff, !String.eqb_eq. Qed.

Lemma pattern_matches_true p ns n :
  pattern_matches p ns n = true ↔
  ∃ a b, p = a +:+ String "/" b ∧ contains_char "/" a = false ∧
         (a = "*"%string ∨ a = ns) ∧ (b = "*"%string ∨ b = n).
Proof.
  unfold pattern_matches. split.
  - destruct (split_once "/" p) as [[a b]|] eqn:Hs; [|done]. intros [Ha Hb]%andb_prop.
    apply split_once_spec in Hs as [-> Hc]. exists a, b.
    rewrite segment_matches_true in Ha, Hb. done.
  - intros (a & b & Hp & Hc & Ha & Hb).
    assert (Hs : split_once "/" p = Some (a, b)) by (by apply split_once_spec).
    rewrite Hs. by apply andb_true_intro; rewrite !segment_matches_true.
Qed.

Lemma Rule_grants_true r v ns n :
  Rule_grants r v ns n = true ↔
  v ∈ r_verbs r ∧ ∃ p, p ∈ r_patterns r ∧ pattern_matches p ns n = true.
Proof.
  unfold Rule_grants. case_bool_decide; simpl; [|naive_solver].
  rewrite existsb_true. naive_solver.
Qed.

(** The rules of an identity are those of all its entries, in order. *)
Lemma lookup_acl_build es i r :
  r ∈ default [] (acl_build es !! i) ↔ ∃ e, e ∈ es ∧ ae_identity e = i ∧ r ∈ ae_rules e.
Proof.
  unfold acl_build. induction es as [|e es IH] using rev_ind.
  { simpl. rewrite lookup_empty. simpl. set_solver. }
  rewrite foldl_snoc. destruct (decide (ae_identity e = i)) as [<-|Hne].
  - rewrite lookup_insert_eq. simpl. rewrite elem_of_app, IH. set_solver.
  - rewrite lookup_insert_ne by done. rewrite IH. set_solver.
Qed.

Lemma AclTable_grants_true t i v ns n :
  AclTable_grants t i v ns n = true ↔
  ∃ r, r ∈ default [] (t !! i) ∧ Rule_grants r v ns n = true.
Proof.
  unfold AclTable_grants. destruct (t !! i) as [rs|]; simpl.
  - apply existsb_true.
  - split; [done|]. intros (r & Hr & _). by apply not_elem_of_nil in Hr.
Qed.

(** The published policy does not depend on the iteration order of the mirror. *)
Lemma acl_build_perm es es' i v ns n :
  es ≡ₚ es' → AclTable_grants (acl_build es) i v ns n = AclTable_grants (acl_build es') i v ns n.
Proof.
  intros Hp. apply eq_bool_prop_intro. rewrite !Is_true_true, !AclTable_grants_true.
  setoid_rewrite lookup_acl_build. by setoid_rewrite Hp.
Qed.

(** ** Properties *)

(** A grant as the live objects declare it: an object whose last event parses to
    an entry for the identity, with a rule listing the verb and a pattern whose
    two segments are each the wildcard or the target's. *)
Definition live_grant (evs : list (Event DynamicObject)) (i : string) (v : Verb) (ns n : string) : Prop :=
  ∃ ref e r a b, live_entry parse_acl_object evs ref = Some e ∧ ae_identity e = i ∧
    r ∈ ae_rules e ∧ v ∈ r_verbs r ∧ (a +:+ String "/" b) ∈ r_patterns r ∧
    contains_char "/" a = false ∧ (a = "*"%string ∨ a = ns) ∧ (b = "*"%string ∨ b = n).

Lemma live_grant_build `{!MapIter string AclEntry} `{!MapIterLaws string AclEntry} evs i v ns n :
  names_unique evs →
  AclTable_grants (acl_build (map_values (mirror_of parse_acl_object evs ∅))) i v ns n = true ↔
  live_grant evs i v ns n.
Proof.
  intros Hu. rewrite AclTable_grants_true. split.
  - intros (r & Hr & Hg). apply lookup_acl_build in Hr as (e & He & Hi & Hr).
    apply (elem_of_mirror_values parse_acl_object) in He as [k Hk]; [|done].
    apply Rule_grants_true in Hg as (Hv & p & Hp & Hpm).
    apply pattern_matches_true in Hpm as (a & b & -> & ? & ? & ?).
    exists k, e, r, a, b. by split_and!.
  - intros (k & e & r & a & b & Hk & Hi & Hr & Hv & Hp & Hc & Ha & Hb). exists r. split.
    + apply lookup_acl_build. exists e. split_and!; [|done..].
      apply (elem_of_mirror_values parse_acl_object); eauto.
    + apply Rule_grants_true. split; [done|]. eexists. split; [exact Hp|].
      apply pattern_matches_true. eauto 10.
Qed.

(** C20: over the whole life of the ConfigACL task (any connections, stream
    errors, clean ends and restarts) the published policy is that of the last
    connection that heard of an object: an identity is granted a verb on a target
    iff some object, as the last event of that connection about it left it, has
    a rule listing the verb and a pattern matching the target, whatever the
    iteration order of the mirror.  Until a connection hears of an object the
    policy is the initial one.  Each connection starts from an empty mirror, so
    what it has not listed (yet) grants nothing, and one that lists no object
    leaves the policy of the one before. *)
Theorem acl_grants_iff_live `{!MapIter string AclEntry} `{!MapIterLaws string AclEntry}
    (rounds : list (list (list (result (Event DynamicObject) string)))) (st : MirrorSt AclTable) :
  let t := mi_table (acl_watch_task rounds st) in
  match deciding rounds with
  | Some evs => cluster_scoped evs →
      ∀ i v ns n, AclTable_grants t i v ns n = true ↔ live_grant evs i v ns n
  | None => t = mi_table st
  end.
Proof.
  intros t. unfold t, acl_watch_task. rewrite mirror_task_table.
  destruct (deciding rounds) as [evs|]; [|done]. intros Hs i v ns n.
  by apply live_grant_build, cluster_scoped_unique.
Qed.

Definition demo_acl (name identity pat : string) : DynamicObject :=
  mkObj (mkMeta (Some name) None (Some "1") None None)
    (JObj [("spec", JObj [("identity", JStr identity);
       ("rules", JArr [JObj [("verbs", JArr [JStr "read"]); ("patterns", JArr [JStr pat])]])])]).

(** A connection that fails, one that lists one object and changes another, and
    a restart that lists nothing: the second one decides. *)
Lemma acl_grants_iff_live_witness :
  let it := CanonicalIter.canonical_iter string AclEntry in
  let evs := [Init; InitApply (demo_acl "o1" " svc-a " "prod/*"); InitDone;
              Apply (demo_acl "o2" "svc-b" "*/*"); Delete (demo_acl "o2" "svc-b" "*/*")] in
  let rounds := [[[Ok Init; Ok (InitApply (demo_acl "o2" "svc-b" "*/*")); Err "reset"%string]; Ok <$> evs];
                 [[Ok Init; Ok InitDone]]] in
  deciding rounds = Some evs ∧ cluster_scoped evs ∧
  AclTable_grants (mi_table (acl_watch_task (MapIter0 := it) rounds (mkMirrorSt ∅ false)))
    "svc-a" Read "prod" "web" = true.
Proof.
  intros it evs rounds.
  assert (Hd : deciding rounds = Some evs) by reflexivity.
  assert (Hc : cluster_scoped evs) by (by repeat constructor).
  split; [exact Hd|]. split; [exact Hc|].
  pose proof (acl_grants_iff_live (MapIter0 := it)
    (MapIterLaws0 := CanonicalIter.canonical_iter_laws string AclEntry) rounds (mkMirrorSt ∅ false)) as H.
  cbv zeta in H. rewrite Hd in H. apply (H Hc).
  eexists (""%string, "o1"%string), _, _, "prod"%string, "*"%string.
  split_and!; [vm_compute; reflexivity | vm_compute; reflexivity | vm_compute; left | left | left
              | reflexivity | by right | by left].
Defined.

(** The guard decides as documented.  Disabled allows without looking at
    anything; enforce refuses with UNAVAILABLE until the table has synced, then
    allows exactly a named identity the table grants and denies everyone else
    with PERMISSION_DENIED; permissive always allows and logs exactly the
    requests enforce would deny. *)
Theorem check_decision (t : AclTable) (synced : bool) (i : ClientIdentity) (v : Verb) (ns n : string) :
  let granted := negb (ci_anonymous i) && AclTable_grants t (ci_id i) v ns n in
  check Disabled t synced i v ns n = (Ok tt, false) ∧
  check Permissive t synced i v ns n = (Ok tt, negb granted) ∧
  (check Enforce t synced i v ns n = (Ok tt, false) ↔ synced = true ∧ granted = true) ∧
  (synced = false → st_code <$> (match (check Enforce t synced i v ns n).1 with Err s => Some s | Ok _ => None end) = Some Unavailable) ∧
  (synced = true → granted = false →
   (check Enforce t synced i v ns n).1 = Err (status PermissionDenied (denial_message i v ns n))).
Proof.
  intros granted. unfold check, granted.
  split_and!; destruct synced, (negb (ci_anonymous i) && _)%bool; simpl; naive_solver.
Qed.

(** The sync flag never regresses over reconnects, but the table does: a
    new connection starts from an empty mirror, so after its first listed object
    the published policy holds the grants of that object alone (every other
    identity is denied until its own object is listed again), and a relist that
    lists no object at all publishes nothing, so the previous grants stay. *)
Theorem acl_reconnect_window `{!MapIter string AclEntry} `{!MapIterLaws string AclEntry}
    (st : MirrorSt AclTable) (obj : DynamicObject) (e : AclEntry) (x : string) :
  parse_acl_object obj = Some e →
  (∀ conns attempt, mi_synced st = true → mi_synced (AclWatcher_run conns attempt st).1.1 = true) ∧
  (∀ i v ns n, i ≠ ae_identity e →
     AclTable_grants (mi_table (pump_acl_events [Ok Init; Ok (InitApply obj); Err x] st).1) i v ns n
       = false) ∧
  mi_table (pump_acl_events [Ok Init; Ok InitDone] st).1 = mi_table st.
Proof.
  intros He. split_and!.
  - intros conns attempt Hs. by apply mirror_run_synced.
  - intros i v ns n Hi. unfold pump_acl_events, mirror_pump; simpl. rewrite He; simpl.
    unfold publish. apply not_true_iff_false. rewrite AclTable_grants_true.
    intros (r & Hr & _). apply lookup_acl_build in Hr as (e' & He' & Hid & _).
    rewrite elem_of_map_values in He'. destruct He' as [k Hk].
    apply lookup_insert_Some in Hk as [[_ <-]|[_ Hk]]; [done|]. by rewrite lookup_empty in Hk.
  - done.
Qed.

(** Identity [svc-b] is granted before the reconnect and denied in the middle of
    the relist although its object is still there. *)
Lemma acl_reconnect_window_witness :
  let it := CanonicalIter.canonical_iter string AclEntry in
  let evs := [Init; InitApply (demo_acl "o1" "svc-a" "*/*"); InitApply (demo_acl "o2" "svc-b" "*/*"); InitDone] in
  let st := (pump_acl_events (MapIter0 := it) (Ok <$> evs) (mkMirrorSt ∅ false)).1 in
  AclTable_grants (mi_table st) "svc-b" Read "prod" "web" = true ∧
  AclTable_grants (mi_table (pump_acl_events (MapIter0 := it)
      [Ok Init; Ok (InitApply (demo_acl "o1" "svc-a" "*/*")); Err "reset"] st).1)
    "svc-b" Read "prod" "web" = false.
Proof.
  intros it evs st. split; [vm_compute; reflexivity|].
  apply (acl_reconnect_window (MapIter0 := it) (MapIterLaws0 := CanonicalIter.canonical_iter_laws string AclEntry)
           st (demo_acl "o1" "svc-a" "*/*") (mkAclEntry "svc-a" [mkRule [Read] ["*/*"%string]]));
    [vm_compute; reflexivity | discriminate].
Defined.
