(* ===== verification/Quota.v ===== *)
(** * Tenant quotas: [quota.rs]

    The TenantQuota table and its watcher, the live subscriber counts with their
    guards, and the token bucket of the apply path. *)
From Stdlib Require Import SpecFloat.
From S2P Require Export Mirror F64.

(** ** Modes *)
Inductive QuotaMode : Set := QDisabled | QPermissive | QEnforce.
#[global] Instance QuotaMode_eq_dec : EqDecision QuotaMode.
Proof. solve_decision. Defined.

Definition QuotaMode_parse (s : string) : QuotaMode :=
  let t := to_ascii_lowercase (trim s) in
  if String.eqb t "permissive" then QPermissive
  else if String.eqb t "enforce" then QEnforce
  else QDisabled.

Definition QuotaMode_from_env (var : option string) : QuotaMode :=
  match var with Some v => QuotaMode_parse v | None => QDisabled end.

(** ** Budgets *)
Record TenantQuota : Set := mkTenantQuota {
  max_subscribers : Z;
  max_applies_per_second : Z;
  max_applies_burst : Z;
  cache_memory_budget_bytes : Z
}.
#[global] Instance TenantQuota_eq_dec : EqDecision TenantQuota.
Proof. solve_decision. Defined.

Definition tighter_u32 (a b : Z) : Z :=
  match a, b with
  | 0, _ => b
  | _, 0 => a
  | _, _ => Z.min a b
  end.
Definition tighter_u64 (a b : Z) : Z :=
  match a, b with
  | 0, _ => b
  | _, 0 => a
  | _, _ => Z.min a b
  end.

Definition most_restrictive (q o : TenantQuota) : TenantQuota :=
  mkTenantQuota
    (tighter_u32 (max_subscribers q) (max_subscribers o))
    (tighter_u32 (max_applies_per_second q) (max_applies_per_second o))
    (tighter_u32 (max_applies_burst q) (max_applies_burst o))
    (tighter_u64 (cache_memory_budget_bytes q) (cache_memory_budget_bytes o)).

(** ** The table and its watcher *)
Record QuotaSpec : Set := mkQuotaSpec {
  qs_identity : string;
  qs_max_subscribers : Z;
  qs_max_applies_per_second : Z;
  qs_max_applies_burst : Z;
  qs_cache_memory_budget_bytes : Z
}.

Definition quota_spec_of_json (v : json) : result QuotaSpec DeError :=
  de_struct v 5 (
    let? identity := de_field v 0 "identity" string_of_json None in
    let? subs := de_field v 1 "maxSubscribers" u32_of_json (Some 0) in
    let? aps := de_field v 2 "maxAppliesPerSecond" u32_of_json (Some 0) in
    let? burst := de_field v 3 "maxAppliesBurst" u32_of_json (Some 0) in
    let? bytes := de_field v 4 "cacheMemoryBudgetBytes" u64_of_json (Some 0) in
    Ok (mkQuotaSpec identity subs aps burst bytes)).

Record QuotaEntry : Set := mkQuotaEntry { qe_identity : string; qe_quota : TenantQuota }.

Definition parse_quota_object (obj : DynamicObject) : option QuotaEntry :=
  match json_get "spec" (do_data obj) with
  | None => None
  | Some spec_value =>
      match quota_spec_of_json spec_value with
      | Err _ => None
      | Ok spec =>
          let identity := trim (qs_identity spec) in
          if is_empty identity then None
          else Some (mkQuotaEntry identity
                 (mkTenantQuota (qs_max_subscribers spec) (qs_max_applies_per_second spec)
                    (qs_max_applies_burst spec) (qs_cache_memory_budget_bytes spec)))
      end
  end.

Notation QuotaTable := (gmap string TenantQuota).

Definition quota_for (t : QuotaTable) (identity : string) : option TenantQuota := t !! identity.

(** [publish]: the most restrictive budget of all objects naming an identity. *)
Definition quota_build (entries : list QuotaEntry) : QuotaTable :=
  foldl (λ next e,
           <[qe_identity e :=
              match next !! qe_identity e with
              | Some q => most_restrictive q (qe_quota e)
              | None => qe_quota e
              end]> next) ∅ entries.

Section QuotaWatcher.
Context `{!MapIter string QuotaEntry}.

Definition handle_quota_event : Event DynamicObject → gmap string QuotaEntry → bool →
    bool * gmap string QuotaEntry * bool := mirror_event parse_quota_object.
Definition pump_quota_events (items : list (result (Event DynamicObject) string))
    (st : MirrorSt QuotaTable) : MirrorSt QuotaTable * PumpOutcome :=
  mirror_pump parse_quota_object quota_build items st.
Definition QuotaWatcher_run (conns : list (list (result (Event DynamicObject) string)))
    (attempt : nat) (st : MirrorSt QuotaTable) : MirrorSt QuotaTable * list Z * bool :=
  mirror_run parse_quota_object quota_build conns attempt st.
Definition quota_watch_task (rounds : list (list (list (result (Event DynamicObject) string))))
    (st : MirrorSt QuotaTable) : MirrorSt QuotaTable :=
  mirror_task parse_quota_object quota_build rounds st.
End QuotaWatcher.

(** ** Effective limits *)
Definition effective_subscriber_limit (t : QuotaTable) (synced : bool) (default_max : Z)
    (identity : string) : Z :=
  if synced then
    match quota_for t identity with Some q => max_subscribers q | None => default_max end
  else default_max.

Definition effective_apply_rate (t : QuotaTable) (synced : bool) (default_rate : Z)
    (identity : string) : Z * Z :=
  let '(rate, burst) :=
    if synced then
      match quota_for t identity with
      | Some q => (max_applies_per_second q, max_applies_burst q)
      | None => (default_rate, 0)
      end
    else (default_rate, 0) in
  if rate =? 0 then (0, 0)
  else (rate, if 0 <? burst then burst else Z.max rate 1).

Definition effective_cache_budget (t : QuotaTable) (synced : bool) (default_budget : Z)
    (identity : string) : Z :=
  if synced then
    match quota_for t identity with
    | Some q => cache_memory_budget_bytes q
    | None => default_budget
    end
  else default_budget.

(** ** Subscriber counts

    [sc_inner] is the concurrent map of live counts, [sc_gauge] the
    [konfig_tenant_subscribers] series. *)
Record SubscriberCounts : Type := mkCounts {
  sc_inner : gmap string Z;
  sc_gauge : gmap string Z
}.

Definition counts_new : SubscriberCounts := mkCounts ∅ ∅.
Definition current (c : SubscriberCounts) (identity : string) : Z := default 0 (sc_inner c !! identity).

(** The entry-locked part of an admission: insert 0 if absent, check, increment.
    [Err] reports the current count. *)
Definition bump (limit : option Z) (inner : gmap string Z) (identity : string) :
    result Z Z * gmap string Z :=
  let e := default 0 (inner !! identity) in
  match limit with
  | Some l => if negb (l =? 0) && (l <=? e) then (Err e, <[identity := e]> inner)
              else (Ok (as_u32 (e + 1)), <[identity := as_u32 (e + 1)]> inner)
  | None => (Ok (as_u32 (e + 1)), <[identity := as_u32 (e + 1)]> inner)
  end.

Definition set_gauge (identity : string) (n : Z) (c : SubscriberCounts) : SubscriberCounts :=
  mkCounts (sc_inner c) (<[identity := n]> (sc_gauge c)).
Definition clear_gauge (identity : string) (c : SubscriberCounts) : SubscriberCounts :=
  mkCounts (sc_inner c) (delete identity (sc_gauge c)).

Definition try_increment (c : SubscriberCounts) (identity : string) (limit : Z) :
    result Z Z * SubscriberCounts :=
  let '(r, inner) := bump (Some limit) (sc_inner c) identity in
  match r with
  | Ok n => (Ok n, set_gauge identity n (mkCounts inner (sc_gauge c)))
  | Err e => (Err e, mkCounts inner (sc_gauge c))
  end.

Definition increment_unchecked (c : SubscriberCounts) (identity : string) : Z * SubscriberCounts :=
  let '(r, inner) := bump None (sc_inner c) identity in
  match r with
  | Ok n => (n, set_gauge identity n (mkCounts inner (sc_gauge c)))
  | Err e => (e, mkCounts inner (sc_gauge c))
  end.

(** The entry-locked decrement of [release]: the new map and whether it reached
    zero. *)
Definition drop_one (inner : gmap string Z) (identity : string) : gmap string Z * bool :=
  match inner !! identity with
  | Some e => let e' := Z.max (e - 1) 0 in (<[identity := e']> inner, e' =? 0)
  | None => (inner, false)
  end.

(** [DashMap::remove_if(identity, |v| v == 0)] *)
Definition remove_if_zero (inner : gmap string Z) (identity : string) : gmap string Z :=
  match inner !! identity with
  | Some 0 => delete identity inner
  | _ => inner
  end.

Definition release (c : SubscriberCounts) (identity : string) : SubscriberCounts :=
  let '(inner, now_zero) := drop_one (sc_inner c) identity in
  let c1 := mkCounts inner (sc_gauge c) in
  if now_zero then clear_gauge identity (mkCounts (remove_if_zero inner identity) (sc_gauge c))
  else set_gauge identity (current c1 identity) c1.

(** [Admit]; the guard of an allowed stream carries its identity. *)
Inductive Admit : Set :=
  | AdmitAllowed (guard : string) (current limit : Z) (over_budget : bool)
  | AdmitDenied (current limit : Z).

Definition admit_stream (c : SubscriberCounts) (identity : string) (mode : QuotaMode) (limit : Z) :
    Admit * SubscriberCounts :=
  match mode with
  | QEnforce =>
      match try_increment c identity limit with
      | (Ok cur, c') => (AdmitAllowed identity cur limit false, c')
      | (Err cur, c') => (AdmitDenied cur limit, c')
      end
  | QPermissive | QDisabled =>
      let '(cur, c') := increment_unchecked c identity in
      let over := bool_decide (mode = QPermissive) && negb (limit =? 0) && (limit <? cur) in
      (AdmitAllowed identity cur limit over, c')
  end.

(** ** The apply token bucket *)
Record Bucket : Type := mkBucket { tokens : spec_float; bk_last : Instant }.
Notation ApplyLimiter := (gmap string Bucket).

Definition try_acquire_at (l : ApplyLimiter) (identity : string) (rate burst cost : Z)
    (now : Instant) : bool * ApplyLimiter :=
  let cap := f64_of_u32 burst in
  let e := default (mkBucket cap now) (l !! identity) in
  let elapsed := nanos_as_secs_f64 (Z.max (now - bk_last e) 0) in
  let t := f64_min (f64_add (tokens e) (f64_mul elapsed (f64_of_u32 rate))) cap in
  let c := f64_of_u32 cost in
  if f64_ge t c then (true, <[identity := mkBucket (f64_sub t c) now]> l)
  else (false, <[identity := mkBucket t now]> l).

Inductive ApplyDecision : Set :=
  | DecisionAllowed (over_budget : bool)
  | DecisionDenied.

Definition admit_at (l : ApplyLimiter) (identity : string) (mode : QuotaMode)
    (rate burst cost : Z) (now : Instant) : ApplyDecision * ApplyLimiter :=
  let '(ok, l') := try_acquire_at l identity rate burst cost now in
  (match mode with
   | QEnforce => if ok then DecisionAllowed false else DecisionDenied
   | QPermissive | QDisabled => DecisionAllowed (negb ok)
   end, l').

Inductive ApplyOutcome : Set :=
  | OutcomeAllowed
  | OutcomeOverBudget (rate burst : Z)
  | OutcomeDenied (rate burst : Z).

Definition apply_admission (l : ApplyLimiter) (t : QuotaTable) (synced : bool) (mode : QuotaMode)
    (default_rate : Z) (identity : string) (cost : Z) (now : Instant) :
    ApplyOutcome * ApplyLimiter :=
  if bool_decide (mode = QDisabled) then (OutcomeAllowed, l)
  else
    let '(rate, burst) := effective_apply_rate t synced default_rate identity in
    if rate =? 0 then (OutcomeAllowed, l)
    else
      let '(d, l') := admit_at l identity mode rate burst cost now in
      (match d with
       | DecisionAllowed false => OutcomeAllowed
       | DecisionAllowed true => OutcomeOverBudget rate burst
       | DecisionDenied => OutcomeDenied rate burst
       end, l').

(** ** Lemmas on budgets *)

Lemma tighter_u32_cases a b :
  (tighter_u32 a b = 0 ↔ a = 0 ∧ b = 0) ∧
  (a ≠ 0 → tighter_u32 a b ≤ a) ∧ (b ≠ 0 → tighter_u32 a b ≤ b) ∧
  (tighter_u32 a b = a ∨ tighter_u32 a b = b).
Proof. unfold tighter_u32. destruct a, b; lia. Qed.

Lemma tighter_comm a b : tighter_u32 a b = tighter_u32 b a.
Proof. unfold tighter_u32. destruct a, b; lia. Qed.

Lemma tighter_if a b : tighter_u32 a b = if a =? 0 then b else if b =? 0 then a else Z.min a b.
Proof. by destruct a, b. Qed.

Lemma tighter_assoc a b c : tighter_u32 (tighter_u32 a b) c = tighter_u32 a (tighter_u32 b c).
Proof.
  rewrite !tighter_if.
  destruct (Z.eqb_spec a 0), (Z.eqb_spec b 0), (Z.eqb_spec c 0); simpl; subst;
    repeat (case_match; bools); lia.
Qed.

Lemma most_restrictive_swap q a b :
  most_restrictive (most_restrictive q a) b = most_restrictive (most_restrictive q b) a.
Proof.
  assert (H : ∀ x y z, tighter_u32 (tighter_u32 x y) z = tighter_u32 (tighter_u32 x z) y).
  { intros. by rewrite !tighter_assoc, (tighter_comm y). }
  unfold most_restrictive; simpl. f_equal; apply H.
Qed.

Lemma most_restrictive_comm a b : most_restrictive a b = most_restrictive b a.
Proof.
  unfold most_restrictive. f_equal; apply tighter_comm.
Qed.

(** The published table does not depend on the iteration order of the mirror. *)
Lemma quota_build_perm es es' : es ≡ₚ es' → quota_build es = quota_build es'.
Proof.
  apply foldl_perm. intros m x y. simpl.
  destruct (decide (qe_identity x = qe_identity y)) as [->|Hne].
  - rewrite !lookup_insert_eq, !insert_insert_eq.
    destruct (m !! qe_identity y); f_equal; [apply most_restrictive_swap | apply most_restrictive_comm].
  - rewrite !lookup_insert_ne by done. by rewrite insert_insert_ne.
Qed.

(** What the table holds on one axis for the entries [es] of an identity. *)
Definition axis_tightest (axis : TenantQuota → Z) (P : QuotaEntry → Prop) (q : TenantQuota) : Prop :=
  (∃ e, P e ∧ axis (qe_quota e) = axis q) ∧
  ∀ e, P e → axis (qe_quota e) ≠ 0 → axis q ≠ 0 ∧ axis q ≤ axis (qe_quota e).

Definition tightest (P : QuotaEntry → Prop) (q : TenantQuota) : Prop :=
  axis_tightest max_subscribers P q ∧ axis_tightest max_applies_per_second P q ∧
  axis_tightest max_applies_burst P q ∧ axis_tightest cache_memory_budget_bytes P q.

Lemma axis_tightest_single axis e : axis_tightest axis (λ x, x = e) (qe_quota e).
Proof. split; [eauto|]. intros ? ->. lia. Qed.

Lemma axis_tightest_step axis P e q :
  axis (most_restrictive q (qe_quota e)) = tighter_u32 (axis q) (axis (qe_quota e)) →
  axis_tightest axis P q →
  axis_tightest axis (λ x, P x ∨ x = e) (most_restrictive q (qe_quota e)).
Proof.
  intros Ha [(e0 & He0 & Heq) Hmin].
  destruct (tighter_u32_cases (axis q) (axis (qe_quota e))) as (Hz & Hl & Hr & Hor).
  rewrite <- Ha in *. split.
  - destruct Hor as [Hor|Hor]; [exists e0 | exists e]; split; auto; lia.
  - intros x [Hx|Hx] Hnz.
    + destruct (Hmin x Hx Hnz). lia.
    + subst x. lia.
Qed.

Lemma axis_tightest_iff axis P Q q :
  (∀ e, P e ↔ Q e) → axis_tightest axis P q → axis_tightest axis Q q.
Proof. intros H [[e [He ?]] Hm]. split; [exists e; by rewrite <- H|]. intros x Hx. apply Hm. by apply H. Qed.

Lemma tightest_iff P Q q : (∀ e, P e ↔ Q e) → tightest P q → tightest Q q.
Proof. intros H (?&?&?&?). unfold tightest. split_and!; eauto using axis_tightest_iff. Qed.

Lemma lookup_quota_build es i :
  match quota_build es !! i with
  | Some q => tightest (λ e, e ∈ es ∧ qe_identity e = i) q
  | None => ∀ e, e ∈ es → qe_identity e ≠ i
  end.
Proof.
  unfold quota_build. induction es as [|e es IH] using rev_ind; simpl.
  { rewrite lookup_empty. set_solver. }
  rewrite foldl_snoc. fold (quota_build es) in *.
  destruct (decide (qe_identity e = i)) as [Hi|Hne].
  - subst i. rewrite lookup_insert_eq.
    destruct (quota_build es !! qe_identity e) as [q|] eqn:Hq.
    + eapply (tightest_iff (λ x, (x ∈ es ∧ qe_identity x = qe_identity e) ∨ x = e)).
      { intros x. rewrite elem_of_app, list_elem_of_singleton. naive_solver. }
      destruct IH as (?&?&?&?). unfold tightest.
      split_and!; by apply axis_tightest_step.
    + eapply (tightest_iff (λ x, x = e)).
      { intros x. rewrite elem_of_app, list_elem_of_singleton. naive_solver. }
      unfold tightest. split_and!; apply axis_tightest_single.
  - rewrite lookup_insert_ne by done. destruct (quota_build es !! i) as [q|].
    + eapply tightest_iff; [|exact IH]. intros x.
      rewrite elem_of_app, list_elem_of_singleton. naive_solver.
    + intros x. rewrite elem_of_app, list_elem_of_singleton. naive_solver.
Qed.

(** ** Admissions and drops interleaved

    The two halves of every operation (the locked change of the map, then the
    metric update) as separate steps of concurrent handlers.  [ss_live] is the
    list of identities holding a guard, [ss_pending] the metric updates not yet
    run.  An admission resolves its mode and limit at its own call, from the quota
    table and the sync flag of that moment; [policy i p] says that an admission
    of [i] may resolve to [p] at some point of the run. *)
Inductive GaugeTask : Set :=
  | TSet (identity : string) (n : Z)      (* set_tenant_subscribers(identity, n) *)
  | TSetCurrent (identity : string)       (* set_tenant_subscribers(identity, current) *)
  | TReap (identity : string)             (* remove_if, then clear *)
  | TClear (identity : string).           (* clear_tenant_subscribers(identity) *)

Record sub_sys : Type := mkSub {
  ss_counts : SubscriberCounts;
  ss_live : list string;
  ss_pending : list GaugeTask
}.

Definition run_task (t : GaugeTask) (c : SubscriberCounts) : SubscriberCounts * list GaugeTask :=
  match t with
  | TSet i n => (set_gauge i n c, [])
  | TSetCurrent i => (set_gauge i (current c i) c, [])
  | TReap i => (mkCounts (remove_if_zero (sc_inner c) i) (sc_gauge c), [TClear i])
  | TClear i => (clear_gauge i c, [])
  end.

Definition admission_limit (p : QuotaMode * Z) : option Z :=
  match p.1 with QEnforce => Some p.2 | _ => None end.

Lemma bump_ok limit inner i n inner' :
  bump limit inner i = (Ok n, inner') →
  n = as_u32 (default 0 (inner !! i) + 1) ∧ inner' = <[i := n]> inner ∧
  (∀ l, limit = Some l → l ≠ 0 → default 0 (inner !! i) < l).
Proof. unfold bump. intros H. case_all; bools; split_and!; naive_solver lia. Qed.

Lemma bump_err limit inner i e inner' :
  bump limit inner i = (Err e, inner') →
  e = default 0 (inner !! i) ∧ inner' = <[i := e]> inner ∧
  ∃ l, limit = Some l ∧ l ≠ 0 ∧ l ≤ e.
Proof. unfold bump. intros H. case_all; bools; eauto 10. Qed.

Section SubscriberMachine.
Context (policy : string → QuotaMode * Z → Prop).

Inductive sub_step : sub_sys → sub_sys → Prop :=
  | sub_admit s i p n inner' :
      policy i p →
      bump (admission_limit p) (sc_inner (ss_counts s)) i = (Ok n, inner') →
      Z.of_nat (length (ss_live s)) < u32_max →
      sub_step s (mkSub (mkCounts inner' (sc_gauge (ss_counts s))) (i :: ss_live s)
                    (TSet i n :: ss_pending s))
  | sub_deny s i p e inner' :
      policy i p →
      bump (admission_limit p) (sc_inner (ss_counts s)) i = (Err e, inner') →
      sub_step s (mkSub (mkCounts inner' (sc_gauge (ss_counts s))) (ss_live s) (ss_pending s))
  | sub_drop s i l1 l2 inner' z :
      ss_live s = l1 ++ i :: l2 →
      drop_one (sc_inner (ss_counts s)) i = (inner', z) →
      sub_step s (mkSub (mkCounts inner' (sc_gauge (ss_counts s))) (l1 ++ l2)
                    ((if z then TReap i else TSetCurrent i) :: ss_pending s))
  | sub_task s t p1 p2 :
      ss_pending s = p1 ++ t :: p2 →
      sub_step s (mkSub (run_task t (ss_counts s)).1 (ss_live s)
                    (p1 ++ (run_task t (ss_counts s)).2 ++ p2)).

Inductive sub_reachable : sub_sys → Prop :=
  | sub_init : sub_reachable (mkSub counts_new [] [])
  | sub_next s s' : sub_reachable s → sub_step s s' → sub_reachable s'.

Definition occurrences (i : string) (l : list string) : Z :=
  Z.of_nat (length (filter (λ x, x = i) l)).

Lemma occurrences_app i l1 l2 : occurrences i (l1 ++ l2) = occurrences i l1 + occurrences i l2.
Proof. unfold occurrences. rewrite filter_app, length_app. lia. Qed.

Lemma occurrences_cons i j l :
  occurrences i (j :: l) = (if decide (j = i) then 1 else 0) + occurrences i l.
Proof. unfold occurrences. rewrite filter_cons. case_decide; simpl; lia. Qed.

Lemma occurrences_bound i l : 0 ≤ occurrences i l ≤ Z.of_nat (length l).
Proof. unfold occurrences. pose proof (length_filter (λ x, x = i) l). lia. Qed.

(** Every admission of [i] enforces a limit of at most [l]. *)
Definition enforced_below (i : string) (l : Z) : Prop :=
  ∀ p, policy i p → ∃ l', p = (QEnforce, l') ∧ 0 < l' ≤ l.

(** Every count is the number of guards, and no enforced limit is exceeded. *)
Record sub_inv (s : sub_sys) : Prop := {
  sub_counts i : current (ss_counts s) i = occurrences i (ss_live s);
  sub_limits i l : enforced_below i l → 0 < l → occurrences i (ss_live s) ≤ l
}.

Lemma current_insert c g i j n :
  current (mkCounts (<[i := n]> c) g) j = if decide (i = j) then n else current (mkCounts c g) j.
Proof.
  unfold current; simpl. case_decide; subst; [by rewrite lookup_insert_eq|].
  by rewrite lookup_insert_ne.
Qed.

Lemma drop_one_current inner i j inner' z g :
  drop_one inner i = (inner', z) →
  current (mkCounts inner' g) j =
    if decide (i = j) then Z.max (current (mkCounts inner g) i - 1) 0
    else current (mkCounts inner g) j.
Proof.
  unfold drop_one. destruct (inner !! i) as [e|] eqn:Hi; intros [= <- <-].
  - rewrite current_insert. unfold current at 2; simpl. by rewrite Hi.
  - case_decide; subst; [|done]. unfold current; simpl. by rewrite Hi.
Qed.

Lemma remove_if_zero_current inner i j g :
  current (mkCounts (remove_if_zero inner i) g) j = current (mkCounts inner g) j.
Proof.
  unfold remove_if_zero, current; simpl. destruct (inner !! i) as [[]|] eqn:Hi; try done.
  destruct (decide (i = j)) as [<-|]; [by rewrite lookup_delete_eq, Hi|].
  by rewrite lookup_delete_ne.
Qed.

Lemma run_task_current t c i : current (run_task t c).1 i = current c i.
Proof. destruct t; simpl; try done. apply remove_if_zero_current. Qed.

Lemma sub_inv_step s s' : sub_inv s → sub_step s s' → sub_inv s'.
Proof.
  intros [Hc Hl] Hs. destruct Hs as [s i p n inner' Hpi Hb Hlen|s i p e inner' Hpi Hb|s i l1 l2 inner' z Hli Hd|s t p1 p2 Hp];
    destruct s as [[inner g] live pend]; simpl in *.
  - apply bump_ok in Hb as (-> & -> & Hlim).
    assert (Hcur : default 0 (inner !! i) = occurrences i live) by apply (Hc i).
    pose proof (occurrences_bound i live).
    split; simpl; intros j; rewrite occurrences_cons.
    + rewrite current_insert. case_decide; subst; [|apply Hc].
      rewrite Hcur, as_u32_id by (unfold in_u32, u32_max in *; lia). lia.
    + intros l Hp Hpos. specialize (Hl j l Hp Hpos). case_decide; subst; [|lia].
      destruct (Hp p Hpi) as (l' & -> & Hl'). specialize (Hlim l' eq_refl). lia.
  - apply bump_err in Hb as (-> & -> & _). split; [|done]. intros j; simpl.
    rewrite current_insert. case_decide; subst; apply Hc.
  - subst live. split; simpl; intros j.
    + rewrite (drop_one_current _ _ _ _ _ _ Hd), occurrences_app. specialize (Hc j).
      rewrite occurrences_app, occurrences_cons in Hc.
      pose proof (occurrences_bound j l1). pose proof (occurrences_bound j l2).
      case_decide; subst; lia.
    + intros l Hp Hpos. specialize (Hl j l Hp Hpos).
      rewrite occurrences_app, occurrences_cons in Hl. rewrite occurrences_app. case_decide; lia.
  - split; simpl; [|done]. intros j. rewrite run_task_current. apply Hc.
Qed.

Lemma sub_inv_reachable s : sub_reachable s → sub_inv s.
Proof.
  induction 1 as [|s s' _ IH Hs]; [|by eapply sub_inv_step].
  split; [done|]. intros i l _ H. unfold occurrences; simpl. lia.
Qed.

Lemma reach_admit inner g live p i pol n inner' :
  sub_reachable (mkSub (mkCounts inner g) live p) →
  policy i pol → bump (admission_limit pol) inner i = (Ok n, inner') →
  Z.of_nat (length live) < u32_max →
  sub_reachable (mkSub (mkCounts inner' g) (i :: live) (TSet i n :: p)).
Proof.
  intros Hr Hp Hb Hl. eapply sub_next; [exact Hr|].
  by apply (sub_admit (mkSub (mkCounts inner g) live p) i pol).
Qed.

Lemma reach_drop inner g live p i inner' z :
  sub_reachable (mkSub (mkCounts inner g) (i :: live) p) → drop_one inner i = (inner', z) →
  sub_reachable (mkSub (mkCounts inner' g) live ((if z then TReap i else TSetCurrent i) :: p)).
Proof.
  intros Hr Hd. eapply sub_next; [exact Hr|].
  by apply (sub_drop (mkSub (mkCounts inner g) (i :: live) p) i [] live).
Qed.

Lemma reach_task c live p t :
  sub_reachable (mkSub c live (t :: p)) →
  sub_reachable (mkSub (run_task t c).1 live ((run_task t c).2 ++ p)).
Proof. intros Hr. eapply sub_next; [exact Hr|]. by apply (sub_task (mkSub c live (t :: p)) t [] p). Qed.
End SubscriberMachine.

(** The sequential operations are the steps run back to back. *)
Lemma admit_bump c i mode limit :
  match bump (admission_limit (mode, limit)) (sc_inner c) i with
  | (Ok n, inner') => (admit_stream c i mode limit).2 = (run_task (TSet i n) (mkCounts inner' (sc_gauge c))).1 ∧
                      ∃ over, (admit_stream c i mode limit).1 = AdmitAllowed i n limit over
  | (Err e, inner') => admit_stream c i mode limit = (AdmitDenied e limit, mkCounts inner' (sc_gauge c))
  end.
Proof.
  unfold admit_stream, try_increment, increment_unchecked, admission_limit.
  destruct mode; cbn [fst snd]; try (split; [done|by eexists]).
  destruct (bump (Some limit) (sc_inner c) i) as [[n|e] inner']; simpl; [|done].
  split; [done|by eexists].
Qed.

Lemma release_steps c i :
  release c i =
    let '(inner', z) := drop_one (sc_inner c) i in
    let c1 := mkCounts inner' (sc_gauge c) in
    if z then (run_task (TClear i) (run_task (TReap i) c1).1).1 else (run_task (TSetCurrent i) c1).1.
Proof. unfold release. by destruct (drop_one (sc_inner c) i) as [inner' []]. Qed.

(** ** Lemmas on the token bucket *)

Lemma try_acquire_unpayable l i rate burst cost now :
  0 ≤ burst → burst < cost → in_u32 cost → (try_acquire_at l i rate burst cost now).1 = false.
Proof.
  intros Hb Hc Hu. unfold try_acquire_at.
  rewrite f64_min_capped; [done | apply f64_of_u32_not_nan | by apply f64_of_u32_lt].
Qed.

Lemma effective_apply_rate_shape t synced dr i rate burst :
  effective_apply_rate t synced dr i = (rate, burst) → 0 ≤ rate → rate ≠ 0 → 1 ≤ burst.
Proof.
  unfold effective_apply_rate. intros H Hr Hnz.
  destruct synced; [destruct (quota_for t i)|]; simpl in H; case_all; bools; lia.
Qed.

(** ** Properties *)

(** C22: over the whole life of the TenantQuota task (any connections, stream
    errors, clean ends and restarts) the published budgets are those of the last
    connection that heard of an object: an identity has a budget iff some object,
    as the last event of that connection about it left it, names it, and on each
    of the four axes that budget is declared by one of those objects and is at
    most every non-zero (bounded) value declared there; an unlimited 0 never
    beats a bound, and the iteration order of the mirror is irrelevant.  Until a
    connection hears of an object the budgets are the initial ones; what the last
    such connection has not listed (yet) has no budget. *)
Theorem quota_published_tightest `{!MapIter string QuotaEntry} `{!MapIterLaws string QuotaEntry}
    (rounds : list (list (list (result (Event DynamicObject) string)))) (st : MirrorSt QuotaTable) :
  let t := mi_table (quota_watch_task rounds st) in
  match deciding rounds with
  | Some evs => cluster_scoped evs → ∀ i,
      let P e := (∃ r, live_entry parse_quota_object evs r = Some e) ∧ qe_identity e = i in
      match quota_for t i with
      | Some q => tightest P q
      | None => ∀ e, ¬ P e
      end
  | None => t = mi_table st
  end.
Proof.
  intros t. unfold t, quota_watch_task. rewrite mirror_task_table.
  destruct (deciding rounds) as [evs|]; [|done]. intros Hu i. apply cluster_scoped_unique in Hu.
  pose proof (lookup_quota_build (map_values (mirror_of parse_quota_object evs ∅)) i) as Hl.
  unfold quota_for, publish. destruct (quota_build _ !! i) as [q|].
  - eapply tightest_iff; [|exact Hl]. intros e. cbv beta.
    by rewrite (elem_of_mirror_values parse_quota_object) by done.
  - intros e [He Hi]. apply (Hl e); [|done]. by apply (elem_of_mirror_values parse_quota_object evs e Hu).
Qed.

Definition demo_quota (name identity : string) (subs : Z) : DynamicObject :=
  mkObj (mkMeta (Some name) None (Some "1") None None)
    (JObj [("spec", JObj [("identity", JStr identity); ("maxSubscribers", JInt subs)])]).

Lemma quota_published_tightest_witness :
  let it := CanonicalIter.canonical_iter string QuotaEntry in
  let evs := [Apply (demo_quota "a" "svc" 0); Apply (demo_quota "b" "svc" 7);
              Apply (demo_quota "c" "svc" 3); Apply (demo_quota "c" "svc" 5)] in
  let rounds := [[[Ok (Apply (demo_quota "d" "svc" 1)); Err "reset"%string]; Ok <$> evs];
                 [[Ok Init; Ok InitDone]]] in
  deciding rounds = Some evs ∧ cluster_scoped evs ∧
  quota_for (mi_table (quota_watch_task (MapIter0 := it) rounds (mkMirrorSt ∅ false))) "svc"
    = Some (mkTenantQuota 5 0 0 0) ∧
  axis_tightest max_subscribers
    (λ e, (∃ r, live_entry parse_quota_object evs r = Some e) ∧ qe_identity e = "svc"%string)
    (mkTenantQuota 5 0 0 0).
Proof.
  intros it evs rounds.
  assert (Hd : deciding rounds = Some evs) by reflexivity.
  assert (Hc : cluster_scoped evs) by (by repeat constructor).
  split; [exact Hd|]. split; [exact Hc|].
  assert (Hq : quota_for (mi_table (quota_watch_task (MapIter0 := it) rounds (mkMirrorSt ∅ false))) "svc"
    = Some (mkTenantQuota 5 0 0 0)) by (vm_compute; reflexivity).
  split; [exact Hq|].
  pose proof (quota_published_tightest (MapIter0 := it)
    (MapIterLaws0 := CanonicalIter.canonical_iter_laws string QuotaEntry)
    rounds (mkMirrorSt ∅ false)) as H.
  cbv zeta in H. rewrite Hd in H. specialize (H Hc "svc"%string). rewrite Hq in H. exact (proj1 H).
Defined.

(** C21: the subscriber counts are exact under any interleaving of admissions,
    guard drops and metric updates, each admission with the mode and limit of its
    own call: the count of an identity is the number of streams holding its
    guard; an enforced admission with a non-zero limit leaves at most that many
    streams, so an identity whose admissions all enforce a limit of at most [l]
    never holds more than [l]; and an admission is denied only when it enforces
    a non-zero limit and the identity holds at least that many. *)
Theorem subscriber_counts_exact (policy : string → QuotaMode * Z → Prop) (s : sub_sys) :
  sub_reachable policy s →
  (∀ i, current (ss_counts s) i = occurrences i (ss_live s)) ∧
  (∀ i l, enforced_below policy i l → 0 < l → occurrences i (ss_live s) ≤ l) ∧
  (∀ i l n inner', l ≠ 0 → bump (Some l) (sc_inner (ss_counts s)) i = (Ok n, inner') →
     occurrences i (ss_live s) + 1 ≤ l) ∧
  (∀ i p e inner', bump (admission_limit p) (sc_inner (ss_counts s)) i = (Err e, inner') →
     ∃ l, p = (QEnforce, l) ∧ l ≠ 0 ∧ l ≤ occurrences i (ss_live s)).
Proof.
  intros Hr%sub_inv_reachable. destruct Hr as [Hc Hl]. split_and!; [done|done| |].
  - intros i l n inner' Hnz (_ & _ & Hlim)%bump_ok. specialize (Hlim l eq_refl Hnz).
    specialize (Hc i). unfold current in Hc. lia.
  - intros i p e inner' (-> & _ & l & Hlim & Hnz & Hle)%bump_err. exists l.
    rewrite <- Hc. split_and!; [|done|done]. unfold admission_limit in Hlim.
    destruct p as [[] l']; naive_solver.
Qed.

(** The limit goes from 2 to 1 while one stream is open: the next admission is
    denied, and the identity stays below the larger of the two. *)
Lemma subscriber_counts_exact_witness :
  let policy := λ (_ : string) p, p = (QEnforce, 2) ∨ p = (QEnforce, 1) in
  let s := mkSub (mkCounts {["svc" := 1]} ∅) ["svc"%string] [TSet "svc" 1] in
  sub_reachable policy s ∧ current (ss_counts s) "svc" = 1 ∧ occurrences "svc" (ss_live s) ≤ 2 ∧
  bump (admission_limit (QEnforce, 1)) (sc_inner (ss_counts s)) "svc" = (Err 1, {["svc" := 1]}).
Proof.
  intros policy s.
  assert (Hr : sub_reachable policy s).
  { eapply sub_next; [apply sub_init|].
    apply (sub_admit policy (mkSub counts_new [] []) "svc" (QEnforce, 2) 1 {["svc" := 1]});
      [by left | reflexivity | vm_compute; reflexivity]. }
  split; [exact Hr|]. split; [reflexivity|]. split; [|reflexivity].
  apply (proj1 (proj2 (subscriber_counts_exact policy s Hr)) "svc"%string 2); [|lia].
  intros p [->| ->]; eexists; (split; [reflexivity|lia]).
Defined.

(** the gauge is not always the live count: a drop that saw the count reach
    zero clears the series after a concurrent admission has set it, and once
    every metric update has run the gauge of an identity with a live stream is
    absent. *)
Theorem subscriber_gauge_race (policy : string → QuotaMode * Z → Prop) (i : string) (p : QuotaMode * Z) :
  policy i p → admission_limit p = None →
  ∃ s, sub_reachable policy s ∧ ss_pending s = [] ∧
       current (ss_counts s) i = 1 ∧ sc_gauge (ss_counts s) !! i = None.
Proof.
  intros Hpi Hp.
  pose proof (sub_init policy) as R.
  (* a stream is admitted and its metric update runs *)
  apply (reach_admit policy ∅ ∅ [] [] i p 1 (<[i := 1]> ∅)) in R;
    [|done|unfold bump; by rewrite Hp, lookup_empty | done].
  apply reach_task in R; unfold set_gauge in R; simpl in R.
  (* it drops to zero, and a second one is admitted before the clear runs *)
  eapply (reach_drop _ _ _ _ _ _ (<[i := 0]> (<[i := 1]> ∅)) true) in R;
    [|unfold drop_one; simpl; by rewrite lookup_insert_eq].
  eapply (reach_admit policy _ _ _ _ i p 1 (<[i := 1]> (<[i := 0]> (<[i := 1]> ∅)))) in R;
    [|done|unfold bump; simpl; by rewrite Hp, lookup_insert_eq | done].
  do 3 (apply reach_task in R; simpl in R).
  eexists. split; [exact R|]. simpl. unfold current, remove_if_zero; simpl.
  by rewrite !lookup_insert_eq, lookup_delete_eq.
Qed.

Lemma subscriber_gauge_race_witness :
  ∃ s, sub_reachable (λ _ p, p = (QPermissive, 0)) s ∧ ss_pending s = [] ∧
       current (ss_counts s) "svc" = 1 ∧ sc_gauge (ss_counts s) !! "svc"%string = None.
Proof. by apply (subscriber_gauge_race (λ _ p, p = (QPermissive, 0)) "svc" (QPermissive, 0)). Defined.

(** The rate limiter is disabled or unlimited without touching a bucket, and
    a request that costs more than the resolved burst is refused in enforce mode
    whatever the bucket holds and however long the caller waits. *)
Theorem apply_admission_bounds (l : ApplyLimiter) (t : QuotaTable) (synced : bool) (dr : Z)
    (i : string) (cost : Z) (now : Instant) :
  in_u32 cost → 0 ≤ (effective_apply_rate t synced dr i).1 →
  apply_admission l t synced QDisabled dr i cost now = (OutcomeAllowed, l) ∧
  ((effective_apply_rate t synced dr i).1 = 0 →
     ∀ mode, apply_admission l t synced mode dr i cost now = (OutcomeAllowed, l)) ∧
  ((effective_apply_rate t synced dr i).1 ≠ 0 → (effective_apply_rate t synced dr i).2 < cost →
     (apply_admission l t synced QEnforce dr i cost now).1 =
       OutcomeDenied (effective_apply_rate t synced dr i).1 (effective_apply_rate t synced dr i).2).
Proof.
  intros Hc Hr. split; [done|]. unfold apply_admission.
  destruct (effective_apply_rate t synced dr i) as [rate burst] eqn:He; simpl in *. split.
  - intros -> mode. destruct (bool_decide (mode = QDisabled)); done.
  - intros Hnz Hlt. apply effective_apply_rate_shape in He; [|done..].
    destruct (Z.eqb_spec rate 0); [done|].
    unfold admit_at.
    pose proof (try_acquire_unpayable l i rate burst cost now) as Hu.
    destruct (try_acquire_at l i rate burst cost now) as [ok l']; simpl in *.
    rewrite Hu; [done | lia | lia | done].
Qed.

Lemma apply_admission_bounds_witness :
  let t := {[ "svc" := mkTenantQuota 0 5 10 0 ]} : QuotaTable in
  (apply_admission ∅ t true QEnforce 0 "svc" 11 0).1 = OutcomeDenied 5 10 ∧
  (apply_admission ∅ t true QEnforce 0 "svc" 10 0).1 = OutcomeAllowed.
Proof.
  intros t. split; [|vm_compute; reflexivity].
  apply (apply_admission_bounds ∅ t true 0 "svc" 11 0);
    [vm_compute; split; congruence | vm_compute; congruence | vm_compute; congruence | vm_compute; reflexivity].
Defined.
