(* ===== verification/Schema.v ===== *)
(** * JSON Schema registry: [schema.rs]

    The registry keyed by [(namespace, configName)], its watcher and the
    validation the Apply path calls.  The JSON Schema engine is a parameter: a
    compiler from a schema document to a validator, and the validator's list of
    error messages for a document. *)
From S2P Require Export Mirror.

Section Schema.
Context {Validator : Type}.
Context (draft7_new : json → result Validator string).
Context (iter_errors : Validator → json → list string).

(** ** Compiled schemas *)
Definition compile (schema : json) : result Validator string := draft7_new schema.

Definition schema_validate (v : Validator) (content : json) : result unit (list string) :=
  match iter_errors v content with
  | [] => Ok tt
  | errors => Err errors
  end.

(** ** The table *)
Notation SchemaTable := (gmap (string * string) Validator).

Definition SchemaTable_validate (t : SchemaTable) (ns config_name : string) (content : json) :
    result unit (list string) :=
  match t !! (ns, config_name) with
  | Some schema => schema_validate schema content
  | None => Ok tt
  end.

Definition schema_count (t : SchemaTable) : nat := size t.

(** ** The watcher *)
Record SchemaSpec : Type := mkSchemaSpec { ss_config_name : string; ss_schema : json }.

Definition schema_spec_of_json (v : json) : result SchemaSpec DeError :=
  de_struct v 2 (
    let? config_name := de_field v 0 "configName" string_of_json None in
    let? schema := de_field v 1 "schema" Ok None in
    Ok (mkSchemaSpec config_name schema)).

Record SchemaEntry : Type := mkSchemaEntry {
  se_key : string * string;
  se_schema : Validator
}.

Definition parse_schema_object (obj : DynamicObject) : option SchemaEntry :=
  let namespace := default "" (om_namespace (do_metadata obj)) in
  if is_empty (trim namespace) then None
  else
    match json_get "spec" (do_data obj) with
    | None => None
    | Some spec_value =>
        match schema_spec_of_json spec_value with
        | Err _ => None
        | Ok spec =>
            let config_name := trim (ss_config_name spec) in
            if is_empty config_name then None
            else match compile (ss_schema spec) with
                 | Err _ => None
                 | Ok compiled => Some (mkSchemaEntry (namespace, config_name) compiled)
                 end
        end
    end.

(** [publish]: two objects governing one key, the last in iteration order wins. *)
Definition schema_build (entries : list SchemaEntry) : SchemaTable :=
  foldl (λ next e, <[se_key e := se_schema e]> next) ∅ entries.

Section SchemaWatcher.
Context `{!MapIter string SchemaEntry}.

Definition handle_schema_event : Event DynamicObject → gmap string SchemaEntry → bool →
    bool * gmap string SchemaEntry * bool := mirror_event parse_schema_object.
Definition pump_schema_events (items : list (result (Event DynamicObject) string))
    (st : MirrorSt SchemaTable) : MirrorSt SchemaTable * PumpOutcome :=
  mirror_pump parse_schema_object schema_build items st.
Definition SchemaWatcher_run (conns : list (list (result (Event DynamicObject) string)))
    (attempt : nat) (st : MirrorSt SchemaTable) : MirrorSt SchemaTable * list Z * bool :=
  mirror_run parse_schema_object schema_build conns attempt st.
Definition schema_watch_task (rounds : list (list (list (result (Event DynamicObject) string))))
    (st : MirrorSt SchemaTable) : MirrorSt SchemaTable :=
  mirror_task parse_schema_object schema_build rounds st.
End SchemaWatcher.

(** ** Lemmas *)

Lemma lookup_schema_build es k :
  schema_build es !! k = se_schema <$> last (filter (λ e, se_key e = k) es).
Proof.
  unfold schema_build. induction es as [|e es IH] using rev_ind; [done|].
  rewrite foldl_snoc, filter_app, filter_cons, filter_nil. case_decide as Hk.
  - subst k. rewrite lookup_insert_eq. by rewrite last_snoc.
  - rewrite lookup_insert_ne by done. by rewrite app_nil_r.
Qed.

Lemma lookup_schema_build_Some es k v :
  schema_build es !! k = Some v → ∃ e, e ∈ es ∧ se_key e = k ∧ se_schema e = v.
Proof.
  rewrite lookup_schema_build. intros (e & He & ->)%fmap_Some.
  apply last_Some in He as [l Hl].
  assert (Hin : e ∈ filter (λ e, se_key e = k) es) by (rewrite Hl; set_solver).
  apply list_elem_of_filter in Hin as [? ?]. eauto.
Qed.

Lemma lookup_schema_build_None es k :
  schema_build es !! k = None → ∀ e, e ∈ es → se_key e ≠ k.
Proof.
  rewrite lookup_schema_build. intros Hn%fmap_None e He Hk. apply last_None in Hn.
  assert (Hin : e ∈ filter (λ e, se_key e = k) es) by (by apply list_elem_of_filter).
  rewrite Hn in Hin. by apply not_elem_of_nil in Hin.
Qed.

(** With one validator per key, the table is a function of the set of entries. *)
Definition consistent (P : SchemaEntry → Prop) : Prop :=
  ∀ e e', P e → P e' → se_key e = se_key e' → se_schema e = se_schema e'.

Lemma SchemaTable_validate_build es k content :
  consistent (λ e, e ∈ es) →
  is_ok (SchemaTable_validate (schema_build es) k.1 k.2 content) = true ↔
  ∀ e, e ∈ es → se_key e = k → iter_errors (se_schema e) content = [].
Proof.
  intros Hcons. unfold SchemaTable_validate. rewrite <- surjective_pairing.
  destruct (schema_build es !! k) as [v|] eqn:Hl.
  - apply lookup_schema_build_Some in Hl as (e & He & Hk & <-). unfold schema_validate. split.
    + intros Hok e' He' Hk'. rewrite (Hcons e' e) by congruence.
      by destruct (iter_errors (se_schema e) content).
    + intros Hall. by rewrite (Hall e He Hk).
  - split; [|done]. intros _ e He Hk. by destruct (lookup_schema_build_None _ _ Hl e He).
Qed.
End Schema.

(** ** Properties *)

(** C24: over the whole life of the ConfigSchema task (any connections, stream
    errors, clean ends and restarts) the gate is that of the last connection that
    heard of an object.  Objects are told apart by namespace and name.  When no
    two objects that connection reported share a name across namespaces (the
    mirror forgets the namespace, see [schema_name_collision]) and no two live
    ones disagree on the schema of one Config, the gate accepts a document for
    [(namespace, name)] iff every live schema object for that key, as the last
    event of that connection about it left it, reports no error on it; a Config
    with no schema accepts anything.  Until a connection hears of an object the
    table is the initial one. *)
Theorem schema_gate_exact {Validator} (draft7_new : json → result Validator string)
    (iter_errors : Validator → json → list string)
    `{!MapIter string (@SchemaEntry Validator)} `{!MapIterLaws string (@SchemaEntry Validator)}
    (rounds : list (list (list (result (Event DynamicObject) string)))) (st : MirrorSt _) :
  let t := mi_table (schema_watch_task draft7_new rounds st) in
  let live := live_entry (parse_schema_object draft7_new) in
  match deciding rounds with
  | Some evs =>
      names_unique evs → consistent (λ e, ∃ r, live evs r = Some e) →
      ∀ ns n content,
        is_ok (SchemaTable_validate iter_errors t ns n content) = true ↔
        ∀ r e, live evs r = Some e → se_key e = (ns, n) → iter_errors (se_schema e) content = []
  | None => t = mi_table st
  end.
Proof.
  intros t live. unfold t, schema_watch_task. rewrite mirror_task_table.
  destruct (deciding rounds) as [evs|]; [|done]. intros Hu Hcons ns n content.
  pose proof (λ e, elem_of_mirror_values (parse_schema_object draft7_new) evs e Hu) as Hv.
  unfold publish. rewrite (SchemaTable_validate_build iter_errors _ (ns, n)).
  - split.
    + intros H k e Hk. apply H, Hv. eauto.
    + intros H e [k Hk]%Hv. eauto.
  - intros e e' He He'. apply Hcons; by apply Hv.
Qed.

Definition demo_schema (name ns cfg : string) (doc : json) : DynamicObject :=
  mkObj (mkMeta (Some name) (Some ns) (Some "1") None None)
    (JObj [("spec", JObj [("configName", JStr cfg); ("schema", doc)])]).

(** A toy engine for the witnesses: a schema naming one required member. *)
Definition toy_new (doc : json) : result string string :=
  match json_get "required" doc with Some (JStr f) => Ok f | _ => Err "unsupported"%string end.
Definition toy_errors (f : string) (content : json) : list string :=
  match json_get f content with Some _ => [] | None => ["missing " +:+ f] end.

Lemma schema_gate_exact_witness :
  let it := CanonicalIter.canonical_iter string (@SchemaEntry string) in
  let evs := [Init; InitApply (demo_schema "s" "prod" "web" (JObj [("required", JStr "port")])); InitDone] in
  let rounds := [[[Ok Init; Err "reset"%string]; Ok <$> evs]; [[Ok Init; Ok InitDone]]] in
  let t := mi_table (schema_watch_task toy_new (MapIter0 := it) rounds (mkMirrorSt ∅ false)) in
  is_ok (SchemaTable_validate toy_errors t "prod" "web" (JObj [("port", JInt 80)])) = true ∧
  is_ok (SchemaTable_validate toy_errors t "prod" "web" (JObj [])) = false.
Proof.
  intros it evs rounds t. split; [|vm_compute; reflexivity].
  pose proof (schema_gate_exact toy_new toy_errors (MapIter0 := it)
    (MapIterLaws0 := CanonicalIter.canonical_iter_laws string (@SchemaEntry string))
    rounds (mkMirrorSt ∅ false)) as H.
  assert (Hd : deciding rounds = Some evs) by reflexivity.
  cbv zeta in H. rewrite Hd in H. apply H.
  - repeat constructor.
  - intros e e' [k Hk] [k' Hk'] _. unfold evs in *.
    rewrite live_entry_list_one in Hk, Hk'. repeat (case_decide; [|done]). congruence.
  - intros k e Hk _. unfold evs in Hk. rewrite live_entry_list_one in Hk.
    case_decide; [|done]. vm_compute in Hk. by simplify_eq.
Defined.

(** The mirror is keyed by object name alone although ConfigSchema objects
    are namespaced: applying a second object with the same name in another
    namespace drops the first namespace's schema, so that Config accepts
    anything again although its object is still live. *)
Theorem schema_name_collision {Validator} (draft7_new : json → result Validator string)
    (iter_errors : Validator → json → list string)
    `{!MapIter string (@SchemaEntry Validator)} `{!MapIterLaws string (@SchemaEntry Validator)}
    (st : MirrorSt _) (a b : DynamicObject) (ea eb : SchemaEntry) (content : json) :
  object_name a = object_name b → object_ref a ≠ object_ref b →
  parse_schema_object draft7_new a = Some ea → parse_schema_object draft7_new b = Some eb →
  se_key ea ≠ se_key eb →
  live_entry (parse_schema_object draft7_new) [Apply a; Apply b] (object_ref a) = Some ea ∧
  SchemaTable_validate iter_errors
    (mi_table (pump_schema_events draft7_new [Ok (Apply a); Ok (Apply b)] st).1)
    (se_key ea).1 (se_key ea).2 content = Ok tt.
Proof.
  intros Hn Href Ha Hb Hne. split.
  { unfold live_entry. rewrite !filter_cons, filter_nil. simpl.
    rewrite decide_True, decide_False by congruence. simpl. done. }
  unfold pump_schema_events, mirror_pump; simpl. rewrite Ha; simpl.
  rewrite Hb; simpl. unfold publish, SchemaTable_validate. rewrite <- surjective_pairing.
  rewrite Hn, insert_insert_eq.
  destruct (schema_build _ !! se_key ea) as [v|] eqn:Hl; [|done].
  apply lookup_schema_build_Some in Hl as (e & He & Hk & _). rewrite elem_of_map_values in He.
  destruct He as [k [[_ <-]|[_ He]]%lookup_insert_Some]; [congruence|]. by rewrite lookup_empty in He.
Qed.

Lemma schema_name_collision_witness :
  let it := CanonicalIter.canonical_iter string (@SchemaEntry string) in
  let doc := JObj [("required", JStr "port")] in
  SchemaTable_validate toy_errors
    (mi_table (pump_schema_events toy_new (MapIter0 := it)
       [Ok (Apply (demo_schema "web-schema" "prod" "web" doc));
        Ok (Apply (demo_schema "web-schema" "staging" "web" doc))] (mkMirrorSt ∅ false)).1)
    "prod" "web" (JObj []) = Ok tt.
Proof.
  intros it doc.
  apply (proj2 (schema_name_collision toy_new toy_errors (MapIter0 := it)
    (MapIterLaws0 := CanonicalIter.canonical_iter_laws string (@SchemaEntry string))
    (mkMirrorSt ∅ false) (demo_schema "web-schema" "prod" "web" doc)
    (demo_schema "web-schema" "staging" "web" doc)
    (mkSchemaEntry ("prod", "web")%string "port"%string)
    (mkSchemaEntry ("staging", "web")%string "port"%string) (JObj [])
    eq_refl ltac:(discriminate) ltac:(vm_compute; reflexivity) ltac:(vm_compute; reflexivity) ltac:(discriminate))).
Defined.
