(* ===== verification/Kube.v ===== *)
(** * The Kubernetes API as the handlers see it

    The API server is not part of the program: it is an interface, a state [W]
    with the four calls the handlers make, and the documented behaviour they
    rely on as laws.  [Env] adds the program's own effects: the trace of calls
    and sleeps and the [APPLY_TOTAL] counters.  [ScriptKube] is an in-memory
    implementation whose calls can be made to fail, or to be preceded by a
    concurrent writer, by a script. *)
From stdpp Require Export pretty.
From S2P Require Export Types.

(** [kube::Error] as the code distinguishes it. *)
Inductive KubeError : Set :=
  | ApiErr (code : Z) (msg : string)
  | OtherErr (msg : string).
#[global] Instance KubeError_eq_dec : EqDecision KubeError.
Proof. solve_decision. Defined.

(** [Display] of an error: the message carried by either constructor stands for
    the whole displayed text of the error. *)
Definition kube_display (e : KubeError) : string :=
  match e with ApiErr _ m => m | OtherErr m => m end.

(** [grpc/mod.rs]: HTTP status of an API error. *)
Definition api_status_code (e : KubeError) : option Z :=
  match e with ApiErr c _ => Some c | OtherErr _ => None end.

(** A 4xx answer refuses the request; any other failure (a 5xx or a timeout of
    the API server, a transport error) may come after it was applied. *)
Definition refuses (e : KubeError) : bool :=
  match e with ApiErr c _ => (400 <=? c) && (c <? 500) | OtherErr _ => false end.

Class KubeApi (W : Type) := {
  kube_get : string → string → W → result DynamicObject KubeError * W;
  kube_patch : string → string → json → W → result DynamicObject KubeError * W;
  kube_list_exact : string → string → string → W → result (list DynamicObject) KubeError * W
}.

(** The [spec.schema_version] member of an object or of a patch body. *)
Definition version_field (data : json) : option json :=
  json_get "spec" data ≫= json_get "schema_version".

(** What the handlers rely on while nobody else writes ([quiet]): reads do not
    write and report what is stored; an accepted forced server-side apply stores
    the object it returns, with the [schema_version] of the patch (other members
    may be merged); a refused one stores nothing; a call that fails otherwise may
    or may not have been applied. *)
Class KubeLaws (W : Type) `{KubeApi W} := {
  quiet : W → Prop;
  store : W → gmap (string * string) DynamicObject;
  get_law ns n w r w' : quiet w → kube_get ns n w = (r, w') →
    quiet w' ∧ store w' = store w ∧
    match r with
    | Ok o => store w !! (ns, n) = Some o
    | Err (ApiErr c _) => c = 404 → store w !! (ns, n) = None
    | Err (OtherErr _) => True
    end;
  patch_law ns n body w r w' : quiet w → kube_patch ns n body w = (r, w') →
    quiet w' ∧
    match r with
    | Ok o => store w' = <[(ns, n) := o]> (store w) ∧ version_field (do_data o) = version_field body
    | Err err => store w' = store w ∨ refuses err = false ∧
        ∃ o, store w' = <[(ns, n) := o]> (store w) ∧ version_field (do_data o) = version_field body
    end;
  list_law ns n rv w r w' : quiet w → kube_list_exact ns n rv w = (r, w') →
    quiet w' ∧ store w' = store w
}.

(** ** Effects *)
Inductive Io : Type :=
  | IoGet (ns n : string)
  | IoPatch (ns n : string) (body : json)
  | IoList (ns n rv : string)
  | IoSleep (ms : Z).

Section Env.
Context {W : Type} `{KubeApi W}.

(** [e_applies] counts [APPLY_TOTAL] by [(namespace, result)]. *)
Record Env : Type := mkEnv {
  e_kube : W;
  e_trace : list Io;
  e_applies : gmap (string * string) Z
}.

Definition M (A : Type) : Type := Env → rpc A * Env.

Definition ret {A} (a : A) : M A := λ e, (Ok a, e).
Definition fail {A} (s : Status) : M A := λ e, (Err s, e).
Definition bind {A B} (m : M A) (k : A → M B) : M B :=
  λ e, match m e with (Ok a, e') => k a e' | (Err s, e') => (Err s, e') end.
Definition lift {A} (r : rpc A) : M A := λ e, (r, e).

Definition emit (io : Io) (e : Env) : Env :=
  mkEnv (e_kube e) (e_trace e ++ [io]) (e_applies e).

Definition api_get (ns n : string) (e : Env) : result DynamicObject KubeError * Env :=
  let '(r, w) := kube_get ns n (e_kube e) in
  (r, mkEnv w (e_trace e ++ [IoGet ns n]) (e_applies e)).
Definition api_patch (ns n : string) (body : json) (e : Env) : result DynamicObject KubeError * Env :=
  let '(r, w) := kube_patch ns n body (e_kube e) in
  (r, mkEnv w (e_trace e ++ [IoPatch ns n body]) (e_applies e)).
Definition api_list_exact (ns n rv : string) (e : Env) :
    result (list DynamicObject) KubeError * Env :=
  let '(r, w) := kube_list_exact ns n rv (e_kube e) in
  (r, mkEnv w (e_trace e ++ [IoList ns n rv]) (e_applies e)).

(** [APPLY_TOTAL.with_label_values(&[namespace, result]).inc()] *)
Definition count_apply (ns res : string) : M unit :=
  λ e, (Ok tt, mkEnv (e_kube e) (e_trace e)
                 (<[(ns, res) := default 0 (e_applies e !! (ns, res)) + 1]> (e_applies e))).

(** The writes among the calls of a trace. *)
Definition is_patch (io : Io) : bool := match io with IoPatch _ _ _ => true | _ => false end.
Definition patches (e : Env) : list Io := filter (λ io, is_patch io = true) (e_trace e).

Lemma patches_emit e io : is_patch io = false → patches (emit io e) = patches e.
Proof.
  intros Hp. unfold patches; simpl. rewrite filter_app, filter_cons, filter_nil.
  rewrite decide_False by congruence. apply app_nil_r.
Qed.

Lemma bind_ok {A B} (m : M A) (k : A → M B) e b e' :
  bind m k e = (Ok b, e') ↔ ∃ a e1, m e = (Ok a, e1) ∧ k a e1 = (Ok b, e').
Proof. unfold bind. destruct (m e) as [[a|s] e1]; naive_solver. Qed.

Lemma bind_err {A B} (m : M A) (k : A → M B) e s e' :
  bind m k e = (Err s, e') ↔
  m e = (Err s, e') ∨ ∃ a e1, m e = (Ok a, e1) ∧ k a e1 = (Err s, e').
Proof. unfold bind. destruct (m e) as [[a|s'] e1]; naive_solver. Qed.
End Env.
Arguments Env : clear implicits.
Arguments M : clear implicits.

Notation "'let!' x := m 'in' k" := (bind m (fun x => k))
  (at level 10, x pattern, m at level 100, k at level 200) : konfig_scope.

(** ** The in-memory implementation *)
Inductive Action : Type :=
  | AFail (e : KubeError)                                   (* this call fails, unapplied *)
  | AWrite (k : string * string) (o : DynamicObject).       (* another writer goes first *)

Record ScriptKube : Type := mkScript {
  sk_objs : gmap (string * string) DynamicObject;
  sk_history : gmap string (list DynamicObject);            (* resourceVersion -> listed objects *)
  sk_script : list (option Action)
}.

Definition sk_step (w : ScriptKube) : option KubeError * ScriptKube :=
  match sk_script w with
  | [] => (None, w)
  | None :: s => (None, mkScript (sk_objs w) (sk_history w) s)
  | Some (AFail e) :: s => (Some e, mkScript (sk_objs w) (sk_history w) s)
  | Some (AWrite k o) :: s => (None, mkScript (<[k := o]> (sk_objs w)) (sk_history w) s)
  end.

(** The annotations an applied body sets. *)
Definition body_annotations (body : json) : option (gmap string string) :=
  match json_get "metadata" body ≫= json_get "annotations" with
  | Some (JObj kvs) => Some (list_to_map (omap (λ '(k, v), match v with JStr s => Some (k, s) | _ => None end) kvs))
  | _ => None
  end.

Definition sk_object (ns n : string) (body : json) (rv : string) : DynamicObject :=
  mkObj (mkMeta (Some n) (Some ns) (Some rv) None (body_annotations body)) body.

Definition sk_put (w : ScriptKube) (k : string * string) (o : DynamicObject) : ScriptKube :=
  mkScript (<[k := o]> (sk_objs w)) (sk_history w) (sk_script w).

#[global] Instance ScriptKube_api : KubeApi ScriptKube := {|
  kube_get ns n w :=
    match sk_step w with
    | (Some e, w') => (Err e, w')
    | (None, w') =>
        (match sk_objs w' !! (ns, n) with Some o => Ok o | None => Err (ApiErr 404 "not found") end, w')
    end;
  kube_patch ns n body w :=
    match sk_step w with
    | (Some e, w') => (Err e, w')
    | (None, w') =>
        let o := sk_object ns n body ("rv" +:+ pretty (N.of_nat (size (sk_objs w')))) in
        (Ok o, sk_put w' (ns, n) o)
    end;
  kube_list_exact ns n rv w :=
    match sk_step w with
    | (Some e, w') => (Err e, w')
    | (None, w') => (ok_or (sk_history w' !! rv) (ApiErr 410 "expired"), w')
    end
|}.

(** A script without concurrent writers and without spurious 404s. *)
Definition sk_benign (a : option Action) : bool :=
  match a with
  | None => true
  | Some (AFail (ApiErr c _)) => negb (c =? 404)
  | Some (AFail (OtherErr _)) => true
  | Some (AWrite _ _) => false
  end.

Lemma sk_step_benign w r w' :
  Forall sk_benign (sk_script w) → sk_step w = (r, w') →
  Forall sk_benign (sk_script w') ∧ sk_objs w' = sk_objs w ∧ sk_history w' = sk_history w ∧
  ∀ c m, r = Some (ApiErr c m) → c ≠ 404.
Proof.
  unfold sk_step. destruct w as [objs hist [|[[e|k o]|] s]]; simpl; intros Hb; inversion Hb;
    simplify_eq/=; intros [= <- <-]; simpl; split_and!; try done.
  intros c m [= ->]. simpl in *. destruct (Z.eqb_spec c 404); done.
Qed.

#[global, program] Instance ScriptKube_laws : KubeLaws ScriptKube := {|
  quiet w := Forall sk_benign (sk_script w);
  store := sk_objs
|}.
Next Obligation.
  simpl. intros ns n w r w' Hq. destruct (sk_step w) as [e w1] eqn:Hs.
  apply sk_step_benign in Hs as (Hb & Ho & _ & H404); [|done].
  destruct e as [e|]; intros [= <- <-]; rewrite Ho; split_and!; try done.
  - destruct e; [|done]. intros ->. by destruct (H404 404 msg).
  - by destruct (sk_objs w !! (ns, n)).
Qed.
Next Obligation.
  simpl. intros ns n body w r w' Hq. destruct (sk_step w) as [e w1] eqn:Hs.
  apply sk_step_benign in Hs as (Hb & Ho & _ & _); [|done].
  destruct e as [e|]; intros [= <- <-]; split; try done.
  - rewrite Ho. by left.
  - simpl. by rewrite Ho.
Qed.
Next Obligation.
  simpl. intros ns n rv w r w' Hq. destruct (sk_step w) as [e w1] eqn:Hs.
  apply sk_step_benign in Hs as (Hb & Ho & _ & _); [|done].
  by destruct e as [e|]; intros [= <- <-].
Qed.
