(* ===== verification/Apply.v ===== *)
(** * Writing configs: [grpc/apply.rs], [grpc/revert.rs]

    The Apply, BatchApply, DryRunApply and Revert handlers, over the Kubernetes
    interface of [Kube].  YAML parsing, JSON printing and the JSON Schema engine
    are parameters. *)
From S2P Require Export Kube Schema.

(** ** Retry ladder *)
Definition RETRY_DELAYS_MS : list Z := [100; 200].

(** [jittered_retry_ms] of [grpc/mod.rs]; [nanos] is the sub-second part of the
    wall clock. *)
Definition jittered_retry_ms (nanos base_ms : Z) : Z :=
  if base_ms =? 0 then 0
  else
    let jitter_range := base_ms / 4 in
    let span := u64_saturating_add (Z.min (2 * jitter_range) u64_max) 1 in
    let offset := nanos mod span in
    u64_saturating_add (u64_saturating_sub base_ms jitter_range) offset.

Inductive PatchRetryDecision : Set :=
  | RetryAfter (delay_ms : Z)
  | AbortRetriesExhausted
  | PatchUnavailable.

Definition classify_patch_error (err : KubeError) (attempt : nat) : PatchRetryDecision :=
  if negb (bool_decide (api_status_code err = Some 409)) then PatchUnavailable
  else
    match RETRY_DELAYS_MS !! attempt with
    | Some d => RetryAfter d
    | None => AbortRetriesExhausted
    end.

(** ** Pure parts *)

(** [.as_u64().unwrap_or(0) as u32] *)
Definition parse_schema_version_from_object (obj : DynamicObject) : Z :=
  as_u32 (default 0 (version_field (do_data obj) ≫= as_u64)).

Definition version_message (incoming current : Z) : string :=
  "schema_version must be > " +:+ pretty current +:+ "; got " +:+ pretty incoming.

Definition schema_version_decision (incoming current : Z) : rpc unit :=
  if incoming <=? current
  then Err (status FailedPrecondition (version_message incoming current))
  else Ok tt.

Record ApplyRequest : Set := mkApplyRequest {
  ar_namespace : string;
  ar_name : string;
  ar_yaml_content : string
}.

Record BatchItem : Type := mkBatchItem {
  bi_namespace : string;
  bi_name : string;
  bi_spec : ConfigSpec
}.
Definition item_key (it : BatchItem) : string * string := (bi_namespace it, bi_name it).

Record BatchApplyResult : Set := mkBatchResult {
  br_namespace : string;
  br_name : string;
  br_resource_version : string
}.

Record DryRunApplyResponse : Set := mkDryRun {
  dr_current_content_json : string;
  dr_proposed_content_json : string;
  dr_current_schema_version : Z;
  dr_proposed_schema_version : Z
}.

(** Lexicographic order of the targets, byte-wise on each component. *)
Definition key_leb (a b : string * string) : bool :=
  match String.compare a.1 b.1 with
  | Lt => true
  | Gt => false
  | Eq => match String.compare a.2 b.2 with Gt => false | _ => true end
  end.
Definition key_le (a b : BatchItem) : Prop := key_leb (item_key a) (item_key b) = true.
#[global] Instance key_le_dec a b : Decision (key_le a b).
Proof. unfold key_le. apply _. Defined.

(** [slice::sort_by] is a stable merge sort. *)
Definition sort_batch_items (items : list BatchItem) : list BatchItem := merge_sort key_le items.

Fixpoint gate_batch_versions (items : list BatchItem) (currents : list Z) : rpc unit :=
  match items, currents with
  | item :: items', current :: currents' =>
      let? _ := schema_version_decision (cs_schema_version (bi_spec item)) current in
      gate_batch_versions items' currents'
  | _, _ => Ok tt
  end.

Definition patch_body (traceparent : option string) (ns n : string) (spec : ConfigSpec) : json :=
  JObj [("apiVersion", JStr "konfig.io/v1");
        ("kind", JStr "Config");
        ("metadata", JObj (match traceparent with
                           | Some tp => [("annotations", JObj [("konfig.io/traceparent", JStr tp)])]
                           | None => []
                           end ++ [("name", JStr n); ("namespace", JStr ns)]));
        ("spec", config_spec_to_json spec)].

Section Apply.
Context {W : Type} `{KubeApi W}.
Context (yaml_spec : string → result ConfigSpec string).
Context (to_string : json → result string string).
Context {Validator : Type} (iter_errors : Validator → json → list string).
Context (traceparent : option string).
Context (nanos : nat → Z).
Context (de_display : DeError → string).
Notation SchemaTable := (gmap (string * string) Validator).

(** *** Batch parsing: duplicates are rejected before the item is parsed. *)
Fixpoint parse_batch_loop (seen : gset (string * string)) (items : list ApplyRequest) :
    rpc (list BatchItem) :=
  match items with
  | [] => Ok []
  | req :: rest =>
      let k := (ar_namespace req, ar_name req) in
      if bool_decide (k ∈ seen) then
        Err (status InvalidArgument
          ("duplicate item " +:+ ar_namespace req +:+ "/" +:+ ar_name req
           +:+ " in batch — two writes to one target is ambiguous"))
      else
        match yaml_spec (ar_yaml_content req) with
        | Err e => Err (status InvalidArgument
            ("invalid YAML for " +:+ ar_namespace req +:+ "/" +:+ ar_name req +:+ ": " +:+ e))
        | Ok spec =>
            let? parsed := parse_batch_loop ({[k]} ∪ seen) rest in
            Ok (mkBatchItem (ar_namespace req) (ar_name req) spec :: parsed)
        end
  end.

Definition parse_batch_items (items : list ApplyRequest) : rpc (list BatchItem) :=
  match items with
  | [] => Err (status InvalidArgument "batch must contain at least one item")
  | _ => parse_batch_loop ∅ items
  end.

Definition join_errors (errors : list string) : string := String.concat "; " errors.

Definition validate_against_schema (t : SchemaTable) (ns config_name : string) (spec : ConfigSpec) :
    rpc unit :=
  match SchemaTable_validate iter_errors t ns config_name (cs_content spec) with
  | Ok _ => Ok tt
  | Err errors => Err (status FailedPrecondition
      ("content does not satisfy registered JSON Schema for " +:+ ns +:+ "/" +:+ config_name
       +:+ ": " +:+ join_errors errors))
  end.

(** *** One patch with retries *)
Fixpoint patch_loop (fuel : nat) (attempt : nat)
    (do_patch : Env W → result string KubeError * Env W) (e : Env W) : rpc string * Env W :=
  match fuel with
  | O => (Err (status Unknown "out of fuel"), e)
  | S fuel' =>
      match do_patch e with
      | (Ok rv, e1) => (Ok rv, e1)
      | (Err err, e1) =>
          match classify_patch_error err attempt with
          | RetryAfter delay_ms =>
              patch_loop fuel' (S attempt) do_patch
                (emit (IoSleep (jittered_retry_ms (nanos attempt) delay_ms)) e1)
          | AbortRetriesExhausted =>
              (Err (status Aborted "409 Conflict — exceeded max retries"), e1)
          | PatchUnavailable =>
              (Err (status Unavailable ("kube patch error: " +:+ kube_display err)), e1)
          end
      end
  end.

Definition run_patch_retry_loop (do_patch : Env W → result string KubeError * Env W) : M W string :=
  patch_loop (S (length RETRY_DELAYS_MS)) 0 do_patch.

Definition patch_once (ns n : string) (body : json) (e : Env W) : result string KubeError * Env W :=
  match api_patch ns n body e with
  | (Ok obj, e1) => (Ok (default ""%string (om_resource_version (do_metadata obj))), e1)
  | (Err err, e1) => (Err err, e1)
  end.

Definition patch_with_retry (ns n : string) (body : json) : M W string :=
  run_patch_retry_loop (patch_once ns n body).

(** *** Reading the current version *)
Definition fetch_current_schema_version (ns n : string) : M W Z :=
  λ e, match api_get ns n e with
       | (Ok obj, e1) => (Ok (parse_schema_version_from_object obj), e1)
       | (Err err, e1) =>
           if bool_decide (api_status_code err = Some 404) then (Ok 0, e1)
           else (Err (status Unavailable ("kube error: " +:+ kube_display err)), e1)
       end.

(** *** [apply_spec] *)
Definition apply_spec (ns n : string) (spec : ConfigSpec) : M W string :=
  let incoming := cs_schema_version spec in
  let! current := fetch_current_schema_version ns n in
  match schema_version_decision incoming current with
  | Err st => let! _ := count_apply ns "rejected" in fail st
  | Ok _ =>
      λ e, match patch_with_retry ns n (patch_body traceparent ns n spec) e with
           | (Ok rv, e1) => (let! _ := count_apply ns "ok" in ret rv) e1
           | (Err st, e1) => (let! _ := count_apply ns "error" in fail st) e1
           end
  end.

Definition apply_inner (t : SchemaTable) (ns n yaml : string) : M W string :=
  match yaml_spec yaml with
  | Err e => fail (status InvalidArgument ("invalid YAML: " +:+ e))
  | Ok spec =>
      let! _ := lift (validate_against_schema t ns n spec) in
      apply_spec ns n spec
  end.

Definition handle_apply (t : SchemaTable) (req : ApplyRequest) : M W string :=
  apply_inner t (ar_namespace req) (ar_name req) (ar_yaml_content req).

(** *** [BatchApply] *)
Fixpoint schema_gate (t : SchemaTable) (items : list BatchItem) : rpc unit :=
  match items with
  | [] => Ok tt
  | it :: rest =>
      let? _ := validate_against_schema t (bi_namespace it) (bi_name it) (bi_spec it) in
      schema_gate t rest
  end.

Fixpoint fetch_currents (items : list BatchItem) : M W (list Z) :=
  match items with
  | [] => ret []
  | it :: rest =>
      let! c := fetch_current_schema_version (bi_namespace it) (bi_name it) in
      let! cs := fetch_currents rest in
      ret (c :: cs)
  end.

Fixpoint apply_items (items : list BatchItem) : M W (list BatchApplyResult) :=
  match items with
  | [] => ret []
  | it :: rest =>
      let! rv := apply_spec (bi_namespace it) (bi_name it) (bi_spec it) in
      let! rs := apply_items rest in
      ret (mkBatchResult (bi_namespace it) (bi_name it) rv :: rs)
  end.

(** The read-only gate: everything before the first write. *)
Definition batch_gate (t : SchemaTable) (reqs : list ApplyRequest) : M W (list BatchItem) :=
  let! items := lift (parse_batch_items reqs) in
  let! _ := lift (schema_gate t items) in
  let! currents := fetch_currents items in
  let! _ := lift (gate_batch_versions items currents) in
  ret items.

Definition handle_batch_apply (t : SchemaTable) (reqs : list ApplyRequest) :
    M W (list BatchApplyResult) :=
  let! items := batch_gate t reqs in
  apply_items (sort_batch_items items).

(** *** [DryRunApply] *)
Definition extract_current_content_json (obj : DynamicObject) : rpc string :=
  match json_get "spec" (do_data obj) ≫= json_get "content" with
  | Some content => map_err (λ e, status Internal ("serialize error: " +:+ e)) (to_string content)
  | None => Ok ""%string
  end.

Definition dry_run_response (current : option DynamicObject) (spec : ConfigSpec) :
    rpc DryRunApplyResponse :=
  let current_schema_version := default 0 (parse_schema_version_from_object <$> current) in
  let? current_content_json :=
    match current with Some o => extract_current_content_json o | None => Ok ""%string end in
  let? proposed_content_json :=
    map_err (λ e, status Internal ("serialize error: " +:+ e)) (to_string (cs_content spec)) in
  let? _ := schema_version_decision (cs_schema_version spec) current_schema_version in
  Ok (mkDryRun current_content_json proposed_content_json current_schema_version
        (cs_schema_version spec)).

Definition handle_dry_run_apply (req : ApplyRequest) : M W DryRunApplyResponse :=
  match yaml_spec (ar_yaml_content req) with
  | Err e => fail (status InvalidArgument ("invalid YAML: " +:+ e))
  | Ok spec =>
      λ e, match api_get (ar_namespace req) (ar_name req) e with
           | (Ok obj, e1) => (dry_run_response (Some obj) spec, e1)
           | (Err err, e1) =>
               if bool_decide (api_status_code err = Some 404) then (dry_run_response None spec, e1)
               else (Err (status Unavailable ("kube error: " +:+ kube_display err)), e1)
           end
  end.

(** ** [Revert] ([grpc/revert.rs]) *)
Record RevertRequest : Set := mkRevertRequest {
  rr_namespace : string;
  rr_name : string;
  rr_to_resource_version : string
}.
Record RevertResponse : Set := mkRevertResponse {
  rv_resource_version : string;
  rv_schema_version : Z
}.

Definition parse_historical_obj (obj : DynamicObject) : rpc ConfigSpec :=
  match json_get "spec" (do_data obj) with
  | None => Err (status DataLoss "historical object missing spec")
  | Some v =>
      match config_spec_of_json v with
      | Ok s => Ok s
      | Err e => Err (status DataLoss ("invalid historical spec: " +:+ de_display e))
      end
  end.

Definition map_list_error (err : KubeError) (n rv : string) : Status :=
  if bool_decide (api_status_code err = Some 410) then
    status FailedPrecondition
      ("resource_version " +:+ rv +:+ " is no longer available (etcd compaction); K8s only retains history within the compaction window")
  else if bool_decide (api_status_code err = Some 404) then
    status NotFound ("Config " +:+ n +:+ " not found at resource_version=" +:+ rv)
  else status Unavailable ("kube list error: " +:+ kube_display err).

Definition fetch_historical_spec (ns n rv : string) : M W ConfigSpec :=
  λ e, match api_list_exact ns n rv e with
       | (Ok items, e1) =>
           match filter (λ o, om_name (do_metadata o) = Some n) items with
           | [] => (Err (status NotFound ("Config " +:+ n +:+ " not found at resource_version=" +:+ rv)), e1)
           | obj :: _ => (parse_historical_obj obj, e1)
           end
       | (Err err, e1) => (Err (map_list_error err n rv), e1)
       end.

Definition handle_revert (req : RevertRequest) : M W RevertResponse :=
  if is_empty (rr_to_resource_version req)
  then fail (status InvalidArgument "to_resource_version must not be empty")
  else
    let! historical :=
      fetch_historical_spec (rr_namespace req) (rr_name req) (rr_to_resource_version req) in
    let! current := fetch_current_schema_version (rr_namespace req) (rr_name req) in
    let new_version := u32_saturating_add (Z.max current (cs_schema_version historical)) 1 in
    let! rv := apply_spec (rr_namespace req) (rr_name req)
                 (mkConfigSpec new_version (cs_content historical)) in
    ret (mkRevertResponse rv new_version).
End Apply.
