(* ===== verification/ApplyFacts.v ===== *)
(** * What the write handlers guarantee

    The retry ladder, version monotonicity of Apply and Revert, the all-or-none
    gate of BatchApply and the read-only DryRunApply, proved against the laws of
    the Kubernetes interface; and what monotonicity does not cover. *)
From S2P Require Export Apply.

(** ** Jitter and the retry ladder *)

Lemma jittered_retry_bounds nanos base :
  0 ≤ nanos → 0 ≤ base → base + base / 4 ≤ u64_max →
  base - base / 4 ≤ jittered_retry_ms nanos base ≤ base + base / 4.
Proof.
  intros Hn Hb Hmax. unfold jittered_retry_ms, u64_saturating_add, u64_saturating_sub.
  destruct (Z.eqb_spec base 0) as [->|Hne]; [done|].
  assert (0 ≤ base / 4) by (apply Z.div_pos; lia).
  assert (base / 4 ≤ base) by (apply Z.div_le_upper_bound; lia).
  assert (Hspan : Z.min (Z.min (2 * (base / 4)) u64_max + 1) u64_max = 2 * (base / 4) + 1)
    by (unfold u64_max in *; lia).
  rewrite Hspan. pose proof (Z.mod_pos_bound nanos (2 * (base / 4) + 1)). lia.
Qed.

Section Retry.
Context {W : Type} `{KubeApi W} (nanos : nat → Z).
Context (p : Env W → result string KubeError * Env W).

(** A conflict at attempt [a], the sleep after it included. *)
Definition conflict_step (a : nat) (e e' : Env W) : Prop :=
  ∃ err e1 d, p e = (Err err, e1) ∧ api_status_code err = Some 409 ∧
    RETRY_DELAYS_MS !! a = Some d ∧ e' = emit (IoSleep (jittered_retry_ms (nanos a) d)) e1.

(** [k] conflicts in a row from attempt [a]. *)
Fixpoint conflict_chain (a k : nat) (e ek : Env W) : Prop :=
  match k with
  | O => ek = e
  | S k' => ∃ e1, conflict_step a e e1 ∧ conflict_chain (S a) k' e1 ek
  end.

(** The answer the call in state [ek] gives the loop when it does not retry. *)
Definition final_answer (ek : Env W) : rpc string * Env W :=
  match p ek with
  | (Ok rv, e1) => (Ok rv, e1)
  | (Err err, e1) =>
      if bool_decide (api_status_code err = Some 409)
      then (Err (status Aborted "409 Conflict — exceeded max retries"), e1)
      else (Err (status Unavailable ("kube patch error: " +:+ kube_display err)), e1)
  end.

Lemma classify_not_409 err a :
  api_status_code err ≠ Some 409 → classify_patch_error err a = PatchUnavailable.
Proof. intros. unfold classify_patch_error. by rewrite bool_decide_false. Qed.

Lemma classify_409 err a :
  api_status_code err = Some 409 →
  classify_patch_error err a =
    match RETRY_DELAYS_MS !! a with Some d => RetryAfter d | None => AbortRetriesExhausted end.
Proof. intros. unfold classify_patch_error. by rewrite bool_decide_true. Qed.

(** With fuel for the rest of the ladder the loop gives the answer of the first
    call that is not a conflict, or of the last one. *)
Lemma patch_loop_outcome fuel a e :
  (a ≤ 2)%nat → (fuel = 3 - a)%nat →
  ∃ k ek, (a + k ≤ 2)%nat ∧ conflict_chain a k e ek ∧
    (∀ err e1, p ek = (Err err, e1) → api_status_code err = Some 409 → (a + k = 2)%nat) ∧
    patch_loop nanos fuel a p e = final_answer ek.
Proof.
  revert a e; induction fuel as [|fuel IH]; intros a e Ha Hf; [lia|]. simpl.
  unfold final_answer. destruct (p e) as [[rv|err] e1] eqn:Hp.
  { exists 0%nat, e. rewrite Hp. split_and!; [lia | done | naive_solver | done]. }
  destruct (decide (api_status_code err = Some 409)) as [H409|Hn].
  - rewrite classify_409 by done. destruct (decide (a = 2)%nat) as [->|Hne].
    + exists 0%nat, e. rewrite Hp, bool_decide_true by done. split_and!; [lia | done | lia | done].
    + destruct (RETRY_DELAYS_MS !! a) as [d|] eqn:Hd.
      2: { apply lookup_ge_None in Hd. simpl in Hd. lia. }
      destruct (IH (S a) (emit (IoSleep (jittered_retry_ms (nanos a) d)) e1)) as (k & ek & Hk & Hch & Hlast & Heq); [lia..|].
      exists (S k), ek. split_and!; [lia | | naive_solver lia | ].
      * simpl. eexists. split; [|exact Hch]. unfold conflict_step. eauto 10.
      * rewrite Heq. reflexivity.
  - rewrite classify_not_409 by done. exists 0%nat, e. rewrite Hp, bool_decide_false by done.
    split_and!; [lia | done | | done]. intros ? ? [= <- <-]. done.
Qed.
End Retry.

(** ** Versions in the store *)
Lemma in_u32_u64 z : in_u32 z → in_u64 z.
Proof. unfold in_u32, in_u64, u32_max, u64_max. lia. Qed.

Lemma parse_version_field o z :
  version_field (do_data o) = Some (JInt z) → in_u64 z →
  parse_schema_version_from_object o = as_u32 z.
Proof.
  intros Hv Hz. unfold parse_schema_version_from_object. rewrite Hv.
  cbn [mbind option_bind]. by rewrite as_u64_int.
Qed.

Lemma parse_version_field_u32 o z :
  version_field (do_data o) = Some (JInt z) → in_u32 z → parse_schema_version_from_object o = z.
Proof. intros Hv Hz. rewrite (parse_version_field o z); auto using in_u32_u64, as_u32_id. Qed.

Section Monotone.
Context {W : Type} `{KubeLaws W}.
Context (traceparent : option string) (nanos : nat → Z).
#[local] Notation wstore e := (store (e_kube e)).

Definition object_version (o : option DynamicObject) : Z :=
  default 0 (parse_schema_version_from_object <$> o).
Definition stored_version (e : Env W) (k : string * string) : Z := object_version (wstore e !! k).

Lemma object_version_range o : in_u32 (object_version o).
Proof. destruct o; simpl; [apply as_u32_range | done]. Qed.

(** What writes to [key] with body [body] may have done. *)
Definition only_wrote (key : string * string) (body : json) (e e' : Env W) : Prop :=
  (∀ k, k ≠ key → wstore e' !! k = wstore e !! k) ∧
  (wstore e' !! key = wstore e !! key ∨
   ∃ o, wstore e' !! key = Some o ∧ version_field (do_data o) = version_field body).

Definition wrote (key : string * string) (body : json) (e e' : Env W) : Prop :=
  (∀ k, k ≠ key → wstore e' !! k = wstore e !! k) ∧
  ∃ o, wstore e' !! key = Some o ∧ version_field (do_data o) = version_field body.

Lemma only_wrote_refl key body e : only_wrote key body e e.
Proof. split; auto. Qed.

Lemma only_wrote_trans key body e1 e2 e3 :
  only_wrote key body e1 e2 → only_wrote key body e2 e3 → only_wrote key body e1 e3.
Proof.
  intros [A1 B1] [A2 B2]. split; [intros k Hk; by rewrite A2, A1|].
  destruct B2 as [->|?]; auto.
Qed.

Lemma wrote_trans key body e1 e2 e3 :
  only_wrote key body e1 e2 → wrote key body e2 e3 → wrote key body e1 e3.
Proof. intros [A1 B1] [A2 B2]. split; [intros k Hk; by rewrite A2, A1|done]. Qed.

Lemma wrote_only key body e e' : wrote key body e e' → only_wrote key body e e'.
Proof. intros [A B]. split; auto. Qed.

Lemma version_field_body ns n spec :
  version_field (patch_body traceparent ns n spec) = Some (JInt (cs_schema_version spec)).
Proof. unfold version_field, patch_body; simpl. by destruct traceparent. Qed.

Lemma object_version_written o spec ns n :
  in_u32 (cs_schema_version spec) →
  version_field (do_data o) = version_field (patch_body traceparent ns n spec) →
  object_version (Some o) = cs_schema_version spec.
Proof.
  intros Hr Hv. apply parse_version_field_u32; [|done]. by rewrite Hv, version_field_body.
Qed.

(** *** One read *)
Lemma fetch_current_spec ns n e r e' :
  quiet (e_kube e) → fetch_current_schema_version ns n e = (r, e') →
  quiet (e_kube e') ∧ wstore e' = wstore e ∧ patches e' = patches e ∧
  match r with Ok v => v = stored_version e (ns, n) | Err s => st_code s = Unavailable end.
Proof.
  intros Hq. unfold fetch_current_schema_version, api_get.
  destruct (kube_get ns n (e_kube e)) as [g w] eqn:Hg.
  destruct (get_law _ _ _ _ _ Hq Hg) as (Hq' & Hs & Hr).
  assert (Hp : patches (mkEnv w (e_trace e ++ [IoGet ns n]) (e_applies e)) = patches e).
  { unfold patches; simpl. rewrite filter_app, filter_cons, filter_nil, decide_False by done.
    apply app_nil_r. }
  destruct g as [o|err].
  - intros [= <- <-]. split_and!; try done. unfold stored_version; simpl. by rewrite Hr.
  - case_bool_decide as H404; intros [= <- <-]; split_and!; try done.
    destruct err as [c m|]; simplify_eq/=. unfold stored_version. by rewrite Hr.
Qed.

(** *** One patch and the ladder *)
Lemma patch_once_spec ns n body e r e' :
  quiet (e_kube e) → patch_once ns n body e = (r, e') →
  quiet (e_kube e') ∧
  match r with Ok _ => wrote (ns, n) body e e' | Err _ => only_wrote (ns, n) body e e' end.
Proof.
  intros Hq. unfold patch_once, api_patch.
  destruct (kube_patch ns n body (e_kube e)) as [g w] eqn:Hg.
  destruct (patch_law _ _ _ _ _ _ Hq Hg) as (Hq' & Hr).
  assert (Hw : ∀ e'' o, wstore e'' = <[(ns, n) := o]> (wstore e) →
     version_field (do_data o) = version_field body → wrote (ns, n) body e e'').
  { intros e'' o Hst Hv. split; rewrite Hst.
    - intros k Hk. by rewrite lookup_insert_ne.
    - exists o. by rewrite lookup_insert_eq. }
  destruct g as [o|err]; intros [= <- <-]; (split; [done|]).
  - destruct Hr. by eapply Hw.
  - destruct Hr as [Hr|(_ & o & Hst & Hv)]; [split; simpl; rewrite Hr; auto|].
    eapply wrote_only, Hw; eauto.
Qed.

Lemma patch_loop_spec ns n body fuel a e r e' :
  quiet (e_kube e) → patch_loop nanos fuel a (patch_once ns n body) e = (r, e') →
  quiet (e_kube e') ∧
  match r with Ok _ => wrote (ns, n) body e e' | Err _ => only_wrote (ns, n) body e e' end.
Proof.
  revert a e; induction fuel as [|fuel IH]; intros a e Hq; simpl.
  { intros [= <- <-]. split; [done|apply only_wrote_refl]. }
  destruct (patch_once ns n body e) as [[rv|err] e1] eqn:Hp;
    destruct (patch_once_spec _ _ _ _ _ _ Hq Hp) as [Hq1 Hw].
  { intros [= <- <-]. done. }
  destruct (classify_patch_error err a); try (intros [= <- <-]; done).
  intros Hl. destruct (IH (S a) (emit _ e1) Hq1 Hl) as [Hq2 Hr]. split; [done|].
  destruct r; [by eapply (wrote_trans _ _ _ e1) | by eapply (only_wrote_trans _ _ _ e1)].
Qed.

(** *** [apply_spec] *)
Lemma count_apply_store ns res e : wstore (count_apply ns res e).2 = wstore e.
Proof. done. Qed.

Lemma schema_version_decision_ok i c : schema_version_decision i c = Ok tt ↔ c < i.
Proof. unfold schema_version_decision. destruct (Z.leb_spec i c); split; (done || lia). Qed.

Lemma apply_spec_cases ns n spec e r e' :
  quiet (e_kube e) → apply_spec traceparent nanos ns n spec e = (r, e') →
  quiet (e_kube e') ∧
  match r with
  | Ok _ => stored_version e (ns, n) < cs_schema_version spec ∧
            wrote (ns, n) (patch_body traceparent ns n spec) e e'
  | Err s =>
      (cs_schema_version spec ≤ stored_version e (ns, n) ∧ st_code s = FailedPrecondition ∧
       wstore e' = wstore e ∧ patches e' = patches e) ∨
      (st_code s = Unavailable ∧ wstore e' = wstore e ∧ patches e' = patches e) ∨
      (stored_version e (ns, n) < cs_schema_version spec ∧
       only_wrote (ns, n) (patch_body traceparent ns n spec) e e')
  end.
Proof.
  intros Hq. unfold apply_spec, bind at 1.
  destruct (fetch_current_schema_version ns n e) as [[cur|s] e1] eqn:Hf;
    destruct (fetch_current_spec _ _ _ _ _ Hq Hf) as (Hq1 & Hs1 & Hp1 & Hv).
  2: { intros [= <- <-]. split; [done|]. right; left. done. }
  subst cur. unfold schema_version_decision.
  destruct (Z.leb_spec (cs_schema_version spec) (stored_version e (ns, n))).
  { intros [= <- <-]. split; [done|]. left. done. }
  destruct (patch_with_retry nanos ns n _ e1) as [[rv|s] e2] eqn:Hl;
    destruct (patch_loop_spec _ _ _ _ _ _ _ _ Hq1 Hl) as (Hq2 & Hw);
    intros [= <- <-]; (split; [done|]); unfold wrote, only_wrote in *; simpl; rewrite Hs1 in Hw.
  - split; [lia|done].
  - right; right. split; [lia|done].
Qed.

Lemma wrote_version ns n spec e e' :
  in_u32 (cs_schema_version spec) → wrote (ns, n) (patch_body traceparent ns n spec) e e' →
  stored_version e' (ns, n) = cs_schema_version spec.
Proof.
  intros Hr [_ (o & Ho & Hv)]. unfold stored_version. rewrite Ho. by eapply object_version_written.
Qed.

Lemma only_wrote_version ns n spec e e' k :
  in_u32 (cs_schema_version spec) →
  only_wrote (ns, n) (patch_body traceparent ns n spec) e e' →
  stored_version e' k = stored_version e k ∨
  k = (ns, n) ∧ stored_version e' k = cs_schema_version spec.
Proof.
  intros Hr [Hne Hk]. destruct (decide (k = (ns, n))) as [->|]; unfold stored_version.
  - destruct Hk as [->|(o & -> & Hv)]; [by left|right]. split; [done|]. by eapply object_version_written.
  - left. by rewrite Hne.
Qed.
End Monotone.

(** ** Batches *)

#[global] Instance key_le_total : Total key_le.
Proof.
  intros [ns n sp] [ns' n' sp']. unfold key_le, key_leb; simpl.
  rewrite (String.compare_antisym ns ns'). destruct (String.compare ns' ns); simpl; auto.
  rewrite (String.compare_antisym n n'). destruct (String.compare n' n); simpl; auto.
Qed.

Section Batch.
Context {W : Type} `{KubeLaws W}.
Context (yaml_spec : string → result ConfigSpec string).
Context {Validator : Type} (iter_errors : Validator → json → list string).
Context (traceparent : option string) (nanos : nat → Z).
Notation SchemaTable := (gmap (string * string) Validator).
#[local] Notation wstore e := (store (e_kube e)).

(** A parsed batch has one item per request, in order, with distinct targets. *)
Lemma parse_batch_loop_ok seen reqs items :
  parse_batch_loop yaml_spec seen reqs = Ok items →
  Forall2 (λ r it, item_key it = (ar_namespace r, ar_name r) ∧
                   yaml_spec (ar_yaml_content r) = Ok (bi_spec it)) reqs items ∧
  NoDup (item_key <$> items) ∧ ∀ k, k ∈ (item_key <$> items) → k ∉ seen.
Proof.
  revert seen items; induction reqs as [|r reqs IH]; intros seen items; simpl.
  { intros [= <-]. split_and!; [constructor | constructor | set_solver]. }
  case_bool_decide as Hseen; [done|].
  destruct (yaml_spec (ar_yaml_content r)) as [spec|] eqn:Hy; [|done].
  destruct (parse_batch_loop _ _ reqs) as [parsed|] eqn:Hp; simpl; [|done]. intros [= <-].
  destruct (IH _ _ Hp) as (H2 & Hnd & Hns). split_and!.
  - constructor; [done|done].
  - rewrite fmap_cons. constructor; [|done]. intros Hin. apply Hns in Hin. set_solver.
  - intros k. rewrite fmap_cons, elem_of_cons. intros [->|Hk]; [done|]. apply Hns in Hk. set_solver.
Qed.

Lemma parse_batch_items_ok reqs items :
  parse_batch_items yaml_spec reqs = Ok items →
  reqs ≠ [] ∧
  Forall2 (λ r it, item_key it = (ar_namespace r, ar_name r) ∧
                   yaml_spec (ar_yaml_content r) = Ok (bi_spec it)) reqs items ∧
  NoDup (item_key <$> items).
Proof.
  unfold parse_batch_items. destruct reqs; [done|]. intros Hp.
  apply parse_batch_loop_ok in Hp as (? & ? & _). done.
Qed.

Lemma schema_gate_ok (t : SchemaTable) items :
  schema_gate iter_errors t items = Ok tt ↔
  ∀ it, it ∈ items →
    validate_against_schema iter_errors t (bi_namespace it) (bi_name it) (bi_spec it) = Ok tt.
Proof.
  induction items as [|it items IH]; simpl; [set_solver|].
  destruct (validate_against_schema _ _ _ _ _) as [[]|s] eqn:Hv; simpl; rewrite ?IH.
  - split; [|set_solver]. intros Hall x [->|Hx]%elem_of_cons; auto.
  - split; [done|]. intros Hall. specialize (Hall it). rewrite Hv in Hall. set_solver.
Qed.

Lemma fetch_currents_spec items e r e' :
  quiet (e_kube e) → fetch_currents items e = (r, e') →
  quiet (e_kube e') ∧ wstore e' = wstore e ∧ patches e' = patches e ∧
  match r with
  | Ok cs => cs = (λ it, stored_version e (item_key it)) <$> items
  | Err s => st_code s = Unavailable
  end.
Proof.
  revert e r e'; induction items as [|it items IH]; intros e r e' Hq; simpl.
  { intros [= <- <-]. done. }
  unfold bind at 1.
  destruct (fetch_current_schema_version _ _ e) as [[c|s] e1] eqn:Hf;
    destruct (fetch_current_spec _ _ _ _ _ Hq Hf) as (Hq1 & Hs1 & Hp1 & Hv).
  2: { intros [= <- <-]. done. }
  unfold bind. destruct (fetch_currents items e1) as [[cs|s] e2] eqn:Hc;
    destruct (IH _ _ _ Hq1 Hc) as (Hq2 & Hs2 & Hp2 & Hcs); intros [= <- <-];
    rewrite Hs2, Hp2, Hs1, Hp1; split_and!; try done.
  rewrite Hv, Hcs. f_equal. apply list_fmap_ext. intros i x Hx.
  unfold stored_version. by rewrite Hs1.
Qed.

Lemma gate_batch_versions_ok items f :
  gate_batch_versions items (f <$> items) = Ok tt ↔
  ∀ it, it ∈ items → f it < cs_schema_version (bi_spec it).
Proof.
  induction items as [|it items IH]; simpl; [set_solver|].
  destruct (schema_version_decision _ _) as [[]|s] eqn:Hd; simpl; rewrite ?IH.
  - apply schema_version_decision_ok in Hd. split; [|set_solver].
    intros Hall x [->|Hx]%elem_of_cons; auto.
  - split; [done|]. intros Hall. exfalso.
    assert (Hit : f it < cs_schema_version (bi_spec it)) by (apply Hall; set_solver).
    apply schema_version_decision_ok in Hit. congruence.
Qed.

(** What a batch must satisfy to be written at all. *)
Record admissible (t : SchemaTable) (reqs : list ApplyRequest) (e : Env W) (items : list BatchItem) : Prop := {
  ad_parsed : parse_batch_items yaml_spec reqs = Ok items;
  ad_schema it : it ∈ items →
    validate_against_schema iter_errors t (bi_namespace it) (bi_name it) (bi_spec it) = Ok tt;
  ad_newer it : it ∈ items → stored_version e (item_key it) < cs_schema_version (bi_spec it)
}.

Lemma batch_gate_spec t reqs e r e' :
  quiet (e_kube e) → batch_gate yaml_spec iter_errors t reqs e = (r, e') →
  quiet (e_kube e') ∧ wstore e' = wstore e ∧ patches e' = patches e ∧
  match r with
  | Ok items => admissible t reqs e items
  | Err s => (∀ items, ¬ admissible t reqs e items) ∨ st_code s = Unavailable
  end.
Proof.
  intros Hq. unfold batch_gate, bind, lift, ret.
  destruct (parse_batch_items yaml_spec reqs) as [items|s] eqn:Hp.
  2: { intros [= <- <-]. split_and!; try done. left. intros items []. congruence. }
  destruct (schema_gate iter_errors t items) as [[]|s] eqn:Hs.
  2: { intros [= <- <-]. split_and!; try done. left. intros items' [Hp' Hs' _].
       rewrite Hp in Hp'. simplify_eq. apply schema_gate_ok in Hs'. congruence. }
  destruct (fetch_currents items e) as [[cs|s] e1] eqn:Hf;
    destruct (fetch_currents_spec _ _ _ _ Hq Hf) as (Hq1 & Hs1 & Hp1 & Hcs).
  2: { intros [= <- <-]. split_and!; try done. by right. }
  subst cs.
  destruct (gate_batch_versions items _) as [[]|s] eqn:Hg; intros [= <- <-]; split_and!; try done.
  - constructor; [done | by apply schema_gate_ok |].
    by apply (gate_batch_versions_ok items (λ it, stored_version e (item_key it))).
  - left. intros items' [Hp' _ Hn']. rewrite Hp in Hp'. simplify_eq.
    apply (gate_batch_versions_ok items' (λ it, stored_version e (item_key it))) in Hn'. congruence.
Qed.

(** Applying items with distinct targets: each success is visible in the end. *)
Lemma apply_items_ok items e rs e' :
  quiet (e_kube e) → NoDup (item_key <$> items) →
  (∀ it, it ∈ items → in_u32 (cs_schema_version (bi_spec it))) →
  apply_items traceparent nanos items e = (Ok rs, e') →
  (λ r, (br_namespace r, br_name r)) <$> rs = item_key <$> items ∧
  (∀ it, it ∈ items → stored_version e' (item_key it) = cs_schema_version (bi_spec it)) ∧
  (∀ k, k ∉ (item_key <$> items) → wstore e' !! k = wstore e !! k).
Proof using Type.
  revert e rs; induction items as [|it items IH]; intros e rs Hq Hnd Hr; simpl.
  { intros [= <- <-]. split_and!; [done | by intros it Hit%not_elem_of_nil | done]. }
  rewrite bind_ok. intros (rv & e1 & Ha & Hrest).
  rewrite bind_ok in Hrest. destruct Hrest as (rs' & e2 & Hi & Hret). unfold ret in Hret. simplify_eq.
  destruct (apply_spec_cases _ _ _ _ _ _ _ _ Hq Ha) as (Hq1 & _ & Hw).
  rewrite fmap_cons in Hnd. apply NoDup_cons in Hnd as [Hnin Hnd].
  destruct (IH e1 rs' Hq1 Hnd) as (Hk & Hv & Hoth); [|done|].
  { intros x Hx. apply Hr. by apply list_elem_of_further. }
  split_and!.
  - rewrite !fmap_cons, Hk. done.
  - intros x [->|Hx]%elem_of_cons; [|by apply Hv].
    unfold stored_version. rewrite Hoth by done. fold (stored_version e1 (item_key it)).
    eapply wrote_version; [|exact Hw]. apply Hr, list_elem_of_here.
  - intros k Hkn. apply not_elem_of_cons in Hkn as [Hne Hkn].
    rewrite Hoth by done. destruct Hw as [Hw _]. by apply Hw.
Qed.
End Batch.

(** ** Revert *)
Section Revert.
Context {W : Type} `{KubeLaws W}.
Context (traceparent : option string) (nanos : nat → Z) (de_display : DeError → string).
#[local] Notation wstore e := (store (e_kube e)).

Lemma fetch_historical_spec_store ns n rv e r e' :
  quiet (e_kube e) → fetch_historical_spec de_display ns n rv e = (r, e') →
  quiet (e_kube e') ∧ wstore e' = wstore e ∧ patches e' = patches e ∧
  match r with Ok s => in_u32 (cs_schema_version s) | Err _ => True end.
Proof.
  intros Hq. unfold fetch_historical_spec, api_list_exact.
  destruct (kube_list_exact ns n rv (e_kube e)) as [l w] eqn:Hl.
  destruct (list_law _ _ _ _ _ _ Hq Hl) as [Hq' Hs].
  assert (Hp : patches (mkEnv w (e_trace e ++ [IoList ns n rv]) (e_applies e)) = patches e).
  { unfold patches; simpl. rewrite filter_app, filter_cons, filter_nil, decide_False by done.
    apply app_nil_r. }
  destruct l as [items|err]; [|intros [= <- <-]; by split_and!].
  destruct (filter _ items) as [|obj os]; intros [= <- <-]; split_and!; try done.
  unfold parse_historical_obj. destruct (json_get _ _); [|done].
  destruct (config_spec_of_json _) eqn:Hc; [|done]. by apply config_spec_of_json_range in Hc.
Qed.
End Revert.

(** ** Dry run *)
Lemma dry_run_response_spec to_string cur spec :
  match dry_run_response to_string cur spec with
  | Ok d => dr_current_schema_version d = object_version cur ∧
            dr_proposed_schema_version d = cs_schema_version spec ∧
            object_version cur < cs_schema_version spec ∧
            to_string (cs_content spec) = Ok (dr_proposed_content_json d)
  | Err s => st_code s = FailedPrecondition → cs_schema_version spec ≤ object_version cur
  end.
Proof.
  unfold dry_run_response. fold (object_version cur).
  destruct (match cur with Some o => _ | None => _ end) as [cj|s] eqn:Hcj; simpl.
  2: { destruct cur as [o|]; [|done]. unfold extract_current_content_json in Hcj.
       destruct (_ ≫= _) as [j|]; [|done]. destruct (to_string j); by simplify_eq/=. }
  destruct (to_string (cs_content spec)) as [pj|m]; simpl; [|done].
  unfold schema_version_decision.
  destruct (Z.leb_spec (cs_schema_version spec) (object_version cur)); simpl; [done|].
  by split_and!.
Qed.

(** ** Properties *)

(** C26: the retry ladder terminates: it makes at most three attempts, retries
    only after a 409, sleeps within 25% of 100 then 200 ms, returns the answer
    of the first attempt that is not a conflict, and reports ABORTED exactly
    when the third one conflicts too. *)
Theorem retry_ladder {W} `{KubeApi W} (nanos : nat → Z)
    (p : Env W → result string KubeError * Env W) (e : Env W) :
  (∀ a, 0 ≤ nanos a) →
  (∃ k ek, (k ≤ 2)%nat ∧ conflict_chain nanos p 0 k e ek ∧
     (∀ err e1, p ek = (Err err, e1) → api_status_code err = Some 409 → k = 2%nat) ∧
     run_patch_retry_loop nanos p e = final_answer p ek) ∧
  (∀ a d, RETRY_DELAYS_MS !! a = Some d →
     d - d / 4 ≤ jittered_retry_ms (nanos a) d ≤ d + d / 4).
Proof.
  intros Hn. split.
  - destruct (patch_loop_outcome nanos p 3 0 e) as (k & ek & Hk & Hc & Hl & Heq); [lia..|].
    exists k, ek. split_and!; [lia | done | | done]. intros err e1 Hp H409.
    specialize (Hl err e1 Hp H409). lia.
  - intros a d Hd. assert (d = 100 ∨ d = 200) as [->| ->]
      by (destruct a as [|[|a]]; simplify_eq/=; auto).
    all: apply jittered_retry_bounds; [apply Hn | lia | vm_compute; congruence].
Qed.

Lemma retry_ladder_witness :
  let e := mkEnv (mkScript ∅ ∅ [Some (AFail (ApiErr 409 "conflict")); Some (AFail (ApiErr 409 "conflict"))]) [] ∅ in
  let p := patch_once "prod" "web" (JObj []) in
  (∀ a : nat, 0 ≤ (λ _, 7) a) ∧
  (∃ k ek, (k ≤ 2)%nat ∧ conflict_chain (λ _, 7) p 0 k e ek ∧
     run_patch_retry_loop (λ _, 7) p e = final_answer p ek) ∧
  (run_patch_retry_loop (λ _, 7) p e).1 = Ok "rv0"%string ∧
  length (patches (run_patch_retry_loop (λ _, 7) p e).2) = 3%nat.
Proof.
  intros e p. assert (Hn : ∀ a : nat, 0 ≤ (λ _, 7) a) by (intros; lia).
  split; [exact Hn|]. split; [|split; vm_compute; reflexivity].
  destruct (proj1 (retry_ladder (λ _, 7) p e Hn)) as (k & ek & Hk & Hc & _ & Heq).
  exists k, ek. split; [exact Hk|]. split; [exact Hc | exact Heq].
Defined.

(** C1: version monotonicity of Apply while nobody else writes.  A success means
    the incoming version was strictly above the stored one and is now stored; a
    version that is not above it is answered FAILED_PRECONDITION with no write at
    all (or UNAVAILABLE when it could not be read); whatever the outcome, no
    other object changes and the stored version never decreases. *)
Theorem apply_monotone {W} `{KubeLaws W} (traceparent : option string) (nanos : nat → Z)
    (ns n : string) (spec : ConfigSpec) (e : Env W) (r : rpc string) (e' : Env W) :
  quiet (e_kube e) → in_u32 (cs_schema_version spec) →
  apply_spec traceparent nanos ns n spec e = (r, e') →
  (is_ok r = true → stored_version e (ns, n) < cs_schema_version spec ∧
                    stored_version e' (ns, n) = cs_schema_version spec) ∧
  (cs_schema_version spec ≤ stored_version e (ns, n) →
     ∃ s, r = Err s ∧ (st_code s = FailedPrecondition ∨ st_code s = Unavailable) ∧
          patches e' = patches e ∧ store (e_kube e') = store (e_kube e)) ∧
  (∀ k, k ≠ (ns, n) → store (e_kube e') !! k = store (e_kube e) !! k) ∧
  (∀ k, stored_version e k ≤ stored_version e' k).
Proof.
  intros Hq Hr Ha. destruct (apply_spec_cases _ _ _ _ _ _ _ _ Hq Ha) as [_ Hc].
  assert (Hmono : only_wrote (ns, n) (patch_body traceparent ns n spec) e e' →
    stored_version e (ns, n) < cs_schema_version spec → ∀ k, stored_version e k ≤ stored_version e' k).
  { intros Hw Hlt k. destruct (only_wrote_version _ _ _ _ _ _ k Hr Hw) as [->|[-> ->]]; lia. }
  destruct r as [rv|s].
  - destruct Hc as [Hlt Hw]. split_and!.
    + intros _. split; [done|]. by eapply wrote_version.
    + lia.
    + apply Hw.
    + apply Hmono; [by apply wrote_only | done].
  - split; [done|]. destruct Hc as [(Hle & Hs & Hst & Hp)|[(Hs & Hst & Hp)|(Hlt & Hw)]].
    + split_and!; [naive_solver | by rewrite Hst | intros k; unfold stored_version; by rewrite Hst].
    + split_and!; [naive_solver | by rewrite Hst | intros k; unfold stored_version; by rewrite Hst].
    + split_and!; [lia | apply Hw | by apply Hmono].
Qed.

Definition demo_config (n : string) (v : Z) : DynamicObject :=
  sk_object "prod" n (JObj [("spec", JObj [("content", JObj []); ("schema_version", JInt v)])]) "1".
Definition demo_world (v : Z) (script : list (option Action)) : Env ScriptKube :=
  mkEnv (mkScript {[ ("prod", "web")%string := demo_config "web" v ]} ∅ script) [] ∅.

Lemma apply_monotone_witness :
  let e := demo_world 3 [None; Some (AFail (ApiErr 409 "conflict"))] in
  let r := apply_spec None (λ _, 0) "prod" "web" (mkConfigSpec 4 (JObj [])) e in
  quiet (e_kube e) ∧ in_u32 4 ∧ is_ok r.1 = true ∧ stored_version r.2 ("prod", "web")%string = 4.
Proof.
  intros e r.
  assert (Hq : quiet (e_kube e)) by (repeat constructor).
  assert (Hr : in_u32 4) by (vm_compute; split; congruence).
  assert (Hok : is_ok r.1 = true) by (vm_compute; reflexivity).
  split; [exact Hq|]. split; [exact Hr|]. split; [exact Hok|].
  apply (proj1 (apply_monotone None (λ _, 0) "prod" "web" (mkConfigSpec 4 (JObj [])) e r.1 r.2
    Hq Hr (surjective_pairing r)) Hok).
Defined.

(** C4: the batch gate is all-or-none while nobody else writes: a batch with a
    malformed or duplicated item, a schema violation or a version that is not
    above the stored one is answered with an error and writes nothing; a batch
    that succeeds was admissible, answers one result per item in (namespace,
    name) order, and left every item's version stored. *)
Theorem batch_gate_all_or_none {W} `{KubeLaws W} (yaml_spec : string → result ConfigSpec string)
    {Validator} (iter_errors : Validator → json → list string) (traceparent : option string)
    (nanos : nat → Z) (t : gmap (string * string) Validator) (reqs : list ApplyRequest)
    (e : Env W) (r : rpc (list BatchApplyResult)) (e' : Env W) :
  quiet (e_kube e) → (∀ y s, yaml_spec y = Ok s → in_u32 (cs_schema_version s)) →
  handle_batch_apply yaml_spec iter_errors traceparent nanos t reqs e = (r, e') →
  ((∀ items, ¬ admissible yaml_spec iter_errors t reqs e items) →
     is_ok r = false ∧ patches e' = patches e ∧ store (e_kube e') = store (e_kube e)) ∧
  (∀ rs, r = Ok rs → ∃ items, admissible yaml_spec iter_errors t reqs e items ∧
     (λ x, (br_namespace x, br_name x)) <$> rs = item_key <$> sort_batch_items items ∧
     sort_batch_items items ≡ₚ items ∧ Sorted key_le (sort_batch_items items) ∧
     ∀ it, it ∈ items → stored_version e' (item_key it) = cs_schema_version (bi_spec it)).
Proof.
  intros Hq Hy Hb. unfold handle_batch_apply, bind in Hb.
  destruct (batch_gate yaml_spec iter_errors t reqs e) as [[items|s] e1] eqn:Hg;
    destruct (batch_gate_spec _ _ _ _ _ _ _ Hq Hg) as (Hq1 & Hs1 & Hp1 & Had).
  2: { simplify_eq. split; [done|naive_solver]. }
  split; [intros Hno; by destruct (Hno items)|]. intros rs ->. exists items. split; [done|].
  assert (Hperm : sort_batch_items items ≡ₚ items) by apply merge_sort_Permutation.
  destruct (parse_batch_items_ok _ _ _ (ad_parsed _ _ _ _ _ _ Had)) as (_ & H2 & Hnd).
  destruct (apply_items_ok traceparent nanos (sort_batch_items items) e1 rs e') as (Hk & Hv & _).
  - done.
  - by rewrite Hperm.
  - intros it Hit. rewrite Hperm in Hit. apply list_elem_of_lookup in Hit as [i Hi].
    destruct (Forall2_lookup_r _ _ _ _ _ H2 Hi) as (q & _ & _ & Hyq). by eapply Hy.
  - done.
  - split_and!; [done | done | apply Sorted_merge_sort; apply _ |].
    intros it Hit. apply Hv. by rewrite Hperm.
Qed.

(** A YAML stand-in for the witnesses: a decimal version with empty content. *)
Definition toy_yaml (y : string) : result ConfigSpec string :=
  match parse_u32 y with Some v => Ok (mkConfigSpec v (JObj [])) | None => Err "not a number"%string end.

Lemma toy_yaml_range y s : toy_yaml y = Ok s → in_u32 (cs_schema_version s).
Proof.
  unfold toy_yaml. destruct (parse_u32 y) as [v|] eqn:Hp; [|done]. intros [= <-].
  by apply parse_unsigned_range in Hp.
Qed.

Lemma batch_gate_all_or_none_witness :
  let e := demo_world 3 [] in
  let t := ∅ : gmap (string * string) string in
  let run reqs := handle_batch_apply toy_yaml toy_errors None (λ _, 0) t reqs e in
  let good := [mkApplyRequest "prod" "web" "4"; mkApplyRequest "prod" "db" "1"] in
  let stale := [mkApplyRequest "prod" "db" "1"; mkApplyRequest "prod" "web" "3"] in
  (λ x, br_name x) <$> match (run good).1 with Ok rs => rs | Err _ => [] end = ["db"; "web"]%string ∧
  is_ok (run stale).1 = false ∧ patches (run stale).2 = [] ∧
  ∃ items, admissible toy_yaml toy_errors t good e items.
Proof.
  intros e t run good stale.
  split; [vm_compute; reflexivity|]. split; [vm_compute; reflexivity|]. split; [vm_compute; reflexivity|].
  assert (Hq : quiet (e_kube e)) by constructor.
  destruct (run good) as [r e'] eqn:Hr.
  assert (Hok : ∃ rs, r = Ok rs).
  { assert (Hf : (run good).1 = r) by (by rewrite Hr). vm_compute in Hf. subst r. eexists. reflexivity. }
  destruct Hok as [rs Hrs].
  destruct (proj2 (batch_gate_all_or_none toy_yaml toy_errors None (λ _, 0) t good e r e' Hq toy_yaml_range Hr) rs Hrs)
    as (items & Had & _).
  exists items. exact Had.
Defined.

(** DryRunApply never writes, and predicts the version gate of Apply: in a
    quiet cluster it reports the stored version, and it succeeds only if the
    proposed version is above it. *)
Theorem dry_run_read_only {W} `{KubeLaws W} (yaml_spec : string → result ConfigSpec string)
    (to_string : json → result string string) (req : ApplyRequest) (e : Env W)
    (r : rpc DryRunApplyResponse) (e' : Env W) :
  quiet (e_kube e) →
  handle_dry_run_apply yaml_spec to_string req e = (r, e') →
  patches e' = patches e ∧ store (e_kube e') = store (e_kube e) ∧ e_applies e' = e_applies e ∧
  match r with
  | Ok d => ∃ spec, yaml_spec (ar_yaml_content req) = Ok spec ∧
      dr_current_schema_version d = stored_version e (ar_namespace req, ar_name req) ∧
      dr_proposed_schema_version d = cs_schema_version spec ∧
      stored_version e (ar_namespace req, ar_name req) < cs_schema_version spec ∧
      to_string (cs_content spec) = Ok (dr_proposed_content_json d)
  | Err s => st_code s = FailedPrecondition → ∃ spec, yaml_spec (ar_yaml_content req) = Ok spec ∧
      cs_schema_version spec ≤ stored_version e (ar_namespace req, ar_name req)
  end.
Proof.
  intros Hq. unfold handle_dry_run_apply.
  destruct (yaml_spec (ar_yaml_content req)) as [spec|m]; [|intros [= <- <-]; by split_and!].
  unfold api_get. destruct (kube_get _ _ (e_kube e)) as [g w] eqn:Hg.
  destruct (get_law _ _ _ _ _ Hq Hg) as (_ & Hs & Hl).
  assert (Hp : ∀ ns n, patches (mkEnv w (e_trace e ++ [IoGet ns n]) (e_applies e)) = patches e).
  { intros. unfold patches; simpl. rewrite filter_app, filter_cons, filter_nil, decide_False by done.
    apply app_nil_r. }
  assert (Hfin : ∀ cur, store (e_kube e) !! (ar_namespace req, ar_name req) = cur →
     object_version cur = stored_version e (ar_namespace req, ar_name req))
    by (intros cur <-; done).
  destruct g as [o|err]; [|case_bool_decide as H404]; intros [= <- <-]; split_and!; try done.
  - pose proof (dry_run_response_spec to_string (Some o) spec) as Hd.
    rewrite (Hfin (Some o) Hl) in Hd. destruct (dry_run_response _ _ _); naive_solver.
  - pose proof (dry_run_response_spec to_string None spec) as Hd.
    rewrite (Hfin None) in Hd by (destruct err; simplify_eq/=; by apply Hl).
    destruct (dry_run_response _ _ _); naive_solver.
Qed.

Lemma dry_run_read_only_witness :
  let e := demo_world 3 [] in
  let out := handle_dry_run_apply toy_yaml (λ _, Ok "{}"%string) (mkApplyRequest "prod" "web" "4") e in
  quiet (e_kube e) ∧ out.1 = Ok (mkDryRun "{}" "{}" 3 4) ∧ patches out.2 = [].
Proof.
  intros e out. assert (Hq : quiet (e_kube e)) by constructor.
  split; [exact Hq|]. split; [vm_compute; reflexivity|].
  exact (proj1 (dry_run_read_only toy_yaml (λ _, Ok "{}"%string) (mkApplyRequest "prod" "web" "4") e
    out.1 out.2 Hq (surjective_pairing out))).
Defined.



(** Monotonicity is check-then-act: when another writer stores a newer
    version between the read and the forced patch, the Apply still succeeds and
    the newer version is overwritten by the older one. *)
Theorem apply_lost_update (v_old v_mine v_newer : Z) :
  in_u32 v_old → in_u32 v_mine → in_u32 v_newer → v_old < v_mine → v_mine < v_newer →
  let e := demo_world v_old [None; Some (AWrite ("prod", "web")%string (demo_config "web" v_newer))] in
  let out := apply_spec None (λ _, 0) "prod" "web" (mkConfigSpec v_mine (JObj [])) e in
  is_ok out.1 = true ∧ stored_version out.2 ("prod", "web")%string = v_mine.
Proof.
  intros Ho Hm Hn Hlt Hlt' e out.
  unfold out, apply_spec, bind, fetch_current_schema_version, api_get; simpl.
  rewrite lookup_singleton_eq; simpl.
  rewrite (parse_version_field_u32 (demo_config "web" v_old) v_old) by done.
  unfold schema_version_decision. destruct (Z.leb_spec v_mine v_old); [lia|].
  unfold patch_with_retry, run_patch_retry_loop; simpl. split; [done|].
  unfold stored_version; simpl. rewrite lookup_insert_eq; simpl.
  by apply parse_version_field_u32.
Qed.

Lemma apply_lost_update_witness :
  let e := demo_world 1 [None; Some (AWrite ("prod", "web")%string (demo_config "web" 9))] in
  is_ok (apply_spec None (λ _, 0) "prod" "web" (mkConfigSpec 2 (JObj [])) e).1 = true.
Proof.
  apply (apply_lost_update 1 2 9); vm_compute; split || reflexivity; congruence.
Defined.

(** a stored [schema_version] above [u32::MAX] is read modulo 2^32, not as
    0, so a later Apply is compared with the truncated number. *)
Theorem version_truncates (o : DynamicObject) (z : Z) :
  version_field (do_data o) = Some (JInt z) → in_u64 z →
  parse_schema_version_from_object o = z mod 4294967296.
Proof.
  apply parse_version_field.
Qed.

Lemma version_truncates_witness :
  parse_schema_version_from_object (demo_config "web" 4294967301) = 5.
Proof.
  rewrite (version_truncates (demo_config "web" 4294967301) 4294967301);
    [reflexivity | reflexivity | vm_compute; split; congruence].
Defined.
