(* ===== verification/Filter.v ===== *)
(** * Subscribe filters: [grpc/subscribe/filter.rs]

    The hand-written label-selector parser and the predicate combining names and
    labels.  The matcher of a parsed selector belongs to the kube crate and is a
    parameter. *)
From S2P Require Export Types.

(** ** Expressions (kube's [Expression], as built by the parser) *)
Inductive Expression : Set :=
  | In (key : string) (values : gset string)
  | NotIn (key : string) (values : gset string)
  | Equal (key value : string)
  | NotEqual (key value : string)
  | Exists (key : string)
  | DoesNotExist (key : string).

Definition selector_error (msg : string) : Status :=
  status InvalidArgument ("invalid label_selector: " +:+ msg).

(** ** String helpers of the parser *)

(** [str::split_once(pat)] for a string pattern. *)
Fixpoint split_once_str (pat s : string) : option (string * string) :=
  match strip_prefix pat s with
  | Some rest => Some (EmptyString, rest)
  | None =>
      match s with
      | EmptyString => None
      | String c s' =>
          match split_once_str pat s' with
          | Some (l, r) => Some (String c l, r)
          | None => None
          end
      end
  end.

(** [str::rsplit_once(c)]: at the last occurrence. *)
Fixpoint rsplit_once (c : ascii) (s : string) : option (string * string) :=
  match s with
  | EmptyString => None
  | String a s' =>
      match rsplit_once c s' with
      | Some (l, r) => Some (String a l, r)
      | None => if Ascii.eqb a c then Some (EmptyString, s') else None
      end
  end.

(** [str::rsplit_once(char::is_whitespace)] on the bytes. *)
Fixpoint rsplit_ws_l (s : list ascii) : option (list ascii * list ascii) :=
  match s with
  | [] => None
  | a :: s' =>
      match rsplit_ws_l s' with
      | Some (l, r) => Some (a :: l, r)
      | None => match strip_ws ws_patterns s with Some r => Some ([], r) | None => None end
      end
  end.
Definition rsplit_once_ws (s : string) : option (string * string) :=
  match rsplit_ws_l (list_ascii_of_string s) with
  | Some (l, r) => Some (string_of_list_ascii l, string_of_list_ascii r)
  | None => None
  end.

(** ** The parser *)

Definition cons_char (c : ascii) (ps : option (list string)) : option (list string) :=
  match ps with
  | Some (p :: ps') => Some (String c p :: ps')
  | other => other
  end.

(** Pieces between top-level commas; [None] when parentheses do not balance. *)
Fixpoint split_top (depth : Z) (s : string) : option (list string) :=
  match s with
  | EmptyString => if depth =? 0 then Some [EmptyString] else None
  | String c s' =>
      if Ascii.eqb c "(" then cons_char c (split_top (depth + 1) s')
      else if Ascii.eqb c ")" then
        if depth - 1 <? 0 then None else cons_char c (split_top (depth - 1) s')
      else if Ascii.eqb c "," && (depth =? 0) then
        match split_top depth s' with Some ps => Some (EmptyString :: ps) | None => None end
      else cons_char c (split_top depth s')
  end.

Definition split_top_level_requirements (input : string) : rpc (list string) :=
  ok_or (split_top 0 input) (selector_error "unbalanced parentheses").

Definition parse_key (key : string) : rpc string :=
  let key := trim key in
  if is_empty key then Err (selector_error "empty key") else Ok key.

Definition parse_value (value : string) : rpc string :=
  let value := trim value in
  if is_empty value then Err (selector_error "empty value") else Ok value.

Fixpoint value_set_loop (vs : list string) (set : gset string) : rpc (gset string) :=
  match vs with
  | [] => Ok set
  | v :: vs' =>
      let v := trim v in
      if is_empty v then Err (selector_error "empty value in set")
      else value_set_loop vs' (set ∪ {[v]})
  end.

Definition parse_value_set (values_str : string) : rpc (gset string) :=
  let? set := value_set_loop (split_on "," values_str) ∅ in
  if bool_decide (set = ∅) then Err (selector_error "empty value set") else Ok set.

Inductive SetOp : Set := OpIn | OpNotIn.

Definition split_set_head (head : string) : rpc (string * SetOp) :=
  match rsplit_once_ws head with
  | None => Err (selector_error "missing in/notin operator")
  | Some (key_part, op_token) =>
      let tok := trim op_token in
      let? op :=
        if String.eqb tok "in" then Ok OpIn
        else if String.eqb tok "notin" then Ok OpNotIn
        else Err (selector_error ("unknown set operator '" +:+ tok +:+ "'")) in
      let? key := parse_key key_part in
      Ok (key, op)
  end.

(** The first [(] splits the head off; a [)] after it must exist, and the last
    one ends the value list. *)
Definition parse_requirement (req : string) : rpc Expression :=
  if is_empty req then Err (selector_error "empty requirement")
  else
    match split_once "(" req with
    | Some (before, after) =>
        match rsplit_once ")" after with
        | None => Err (selector_error "unbalanced parentheses")
        | Some (values_str, _) =>
            let? (key, op) := split_set_head (trim before) in
            let? values := parse_value_set values_str in
            Ok (match op with OpIn => In key values | OpNotIn => NotIn key values end)
        end
    | None =>
        match split_once_str "==" req with
        | Some (k, v) => let? k := parse_key k in let? v := parse_value v in Ok (Equal k v)
        | None =>
            match split_once_str "!=" req with
            | Some (k, v) => let? k := parse_key k in let? v := parse_value v in Ok (NotEqual k v)
            | None =>
                match split_once "=" req with
                | Some (k, v) => let? k := parse_key k in let? v := parse_value v in Ok (Equal k v)
                | None =>
                    match strip_prefix "!" req with
                    | Some rest => let? k := parse_key rest in Ok (DoesNotExist k)
                    | None => let? k := parse_key req in Ok (Exists k)
                    end
                end
            end
        end
    end.

Definition parse_label_selector (input : string) : rpc (list Expression) :=
  let trimmed := trim input in
  if is_empty trimmed then Ok []
  else
    let? requirements := split_top_level_requirements trimmed in
    try_map (λ req, parse_requirement (trim req)) requirements.

(** ** The filter *)
Record SubscribeFilter : Type := mkFilter {
  sf_names : option (gset string);
  sf_selector : list Expression
}.

Definition SubscribeFilter_new (names : list string) (label_selector : string) : rpc SubscribeFilter :=
  let names := match names with [] => None | _ => Some (list_to_set names) end in
  let? selector := parse_label_selector label_selector in
  Ok (mkFilter names selector).

Section Allow.
Context (selector_matches : list Expression → gmap string string → bool).

Definition allow (f : SubscribeFilter) (config_name : string) (labels : gmap string string) : bool :=
  match sf_names f with
  | None => true
  | Some set => bool_decide (config_name ∈ set)
  end && selector_matches (sf_selector f) labels.

(** An event without an inner config never matches. *)
Definition filter_allows_event (f : SubscribeFilter) (event_name : option string)
    (labels : gmap string string) : bool :=
  match event_name with Some n => allow f n labels | None => false end.
End Allow.

(** ** Printing a selector in the documented grammar *)

(** Characters of Kubernetes label keys and values. *)
Definition label_char (c : ascii) : bool :=
  let n := nat_of_ascii c in
  ((48 <=? n) && (n <=? 57) || (65 <=? n) && (n <=? 90) || (97 <=? n) && (n <=? 122)
   || (n =? 45) || (n =? 46) || (n =? 47) || (n =? 95))%nat.
Definition label_ok (s : string) : bool :=
  negb (is_empty s) && forallb label_char (list_ascii_of_string s).

Fixpoint join (sep : string) (l : list string) : string :=
  match l with
  | [] => ""
  | [x] => x
  | x :: l' => x +:+ sep +:+ join sep l'
  end.

Definition print_values (vs : gset string) : string := "(" +:+ join "," (elements vs) +:+ ")".

Definition print_expression (e : Expression) : string :=
  match e with
  | In k vs => k +:+ " in " +:+ print_values vs
  | NotIn k vs => k +:+ " notin " +:+ print_values vs
  | Equal k v => k +:+ "=" +:+ v
  | NotEqual k v => k +:+ "!=" +:+ v
  | Exists k => k
  | DoesNotExist k => "!" +:+ k
  end.

Definition print_selector (es : list Expression) : string := join "," (print_expression <$> es).

Definition values_ok (vs : gset string) : Prop := vs ≠ ∅ ∧ ∀ v, v ∈ vs → label_ok v = true.
Definition expression_ok (e : Expression) : Prop :=
  match e with
  | In k vs | NotIn k vs => label_ok k = true ∧ values_ok vs
  | Equal k v | NotEqual k v => label_ok k = true ∧ label_ok v = true
  | Exists k | DoesNotExist k => label_ok k = true
  end.

Lemma filter_examples :
  parse_label_selector " env in ( prod , staging ), tier!=db , !legacy,app==web,k " =
    Ok [In "env" {["prod"; "staging"]}; NotEqual "tier" "db"; DoesNotExist "legacy";
        Equal "app" "web"; Exists "k"] ∧
  parse_label_selector "env in (prod" = Err (selector_error "unbalanced parentheses") ∧
  parse_label_selector "env in (prod) trailing" = Ok [In "env" {["prod"]}] ∧
  parse_label_selector "  " = Ok [].
Proof. by vm_compute. Qed.

(** ** The printed text, character by character *)

(** All facts about single characters are checked on the 256 of them. *)
Definition all_ascii : list ascii := map ascii_of_nat (seq 0 256).

Lemma ascii_forall (P : ascii → bool) : forallb P all_ascii = true → ∀ c, P c = true.
Proof.
  rewrite forallb_forall. intros H c. apply H. unfold all_ascii. apply in_map_iff.
  exists (nat_of_ascii c). split; [apply ascii_nat_embedding|]. apply in_seq.
  pose proof (nat_ascii_bounded c). lia.
Qed.

(** Characters allowed inside a printed expression. *)
Definition plain (c : ascii) : bool :=
  negb (Ascii.eqb c "(") && negb (Ascii.eqb c ")") && negb (Ascii.eqb c ",").

Lemma label_char_facts c : label_char c = true →
  solid c = true ∧ plain c = true ∧ Ascii.eqb c "=" = false ∧ Ascii.eqb c "!" = false ∧
  Ascii.eqb c " " = false.
Proof.
  intros Hc. pose proof (ascii_forall (λ c, implb (label_char c)
    (solid c && plain c && negb (Ascii.eqb c "=") && negb (Ascii.eqb c "!") && negb (Ascii.eqb c " ")))
    eq_refl c) as H; simpl in H.
  rewrite Hc in H; simpl in H. by bools.
Qed.

Lemma label_ok_all s : label_ok s = true →
  is_empty s = false ∧ str_all solid s = true ∧ str_all plain s = true ∧
  contains_char "=" s = false ∧ contains_char "!" s = false ∧ contains_char "(" s = false ∧
  contains_char "," s = false ∧ str_all label_char s = true.
Proof.
  intros [Hne Hl]%andb_prop. fold (str_all label_char s) in Hl.
  assert (Hw : ∀ P, (∀ c, label_char c = true → P c = true) → str_all P s = true)
    by (intros P HP; by apply (str_all_weaken label_char)).
  split_and!; [by bools | | | | | | | done].
  - apply Hw. intros c Hc. by apply label_char_facts.
  - apply Hw. intros c Hc. by apply label_char_facts.
  - by apply (str_all_contains label_char).
  - by apply (str_all_contains label_char).
  - by apply (str_all_contains label_char).
  - by apply (str_all_contains label_char).
Qed.

Lemma parse_key_label k : label_ok k = true → parse_key k = Ok k.
Proof. intros (He & Hs & _)%label_ok_all. unfold parse_key. by rewrite trim_solid, He. Qed.

Lemma parse_value_label v : label_ok v = true → parse_value v = Ok v.
Proof. intros (He & Hs & _)%label_ok_all. unfold parse_value. by rewrite trim_solid, He. Qed.

(** *** Splitting lemmas *)

Lemma split_once_none c s : contains_char c s = false → split_once c s = None.
Proof.
  intros Hc. destruct (split_once c s) as [[a b]|] eqn:H; [|done].
  apply split_once_spec in H as [-> _]. exfalso. revert Hc.
  unfold contains_char. rewrite chars_app, existsb_app; simpl.
  rewrite Ascii.eqb_refl. by rewrite orb_true_r.
Qed.

Lemma split_once_str_skip a pat k r :
  contains_char a k = false →
  split_once_str (String a pat) (k +:+ r) =
    match split_once_str (String a pat) r with
    | Some (l, x) => Some (k +:+ l, x)
    | None => None
    end.
Proof.
  induction k as [|c k IH]; intros Hc; cbn [String.append].
  { by destruct (split_once_str _ r) as [[? ?]|]. }
  unfold contains_char in Hc; simpl in Hc. apply orb_false_elim in Hc as [Hac Hk].
  simpl. rewrite Hac. fold (split_once_str (String a pat)). rewrite IH by done.
  by destruct (split_once_str (String a pat) r) as [[? ?]|].
Qed.

Lemma split_once_str_none a pat s :
  contains_char a s = false → split_once_str (String a pat) s = None.
Proof.
  intros Hc. rewrite <- (string_app_nil_r s), split_once_str_skip by done. done.
Qed.

Lemma rsplit_once_last c s : rsplit_once c (s +:+ String c "") = Some (s, ""%string).
Proof. induction s as [|a s IH]; simpl; [by rewrite Ascii.eqb_refl | by rewrite IH]. Qed.

Lemma rsplit_ws_none l : forallb solid l = true → rsplit_ws_l l = None.
Proof.
  induction l as [|a l IH]; [done|]. intros [Ha Hl]%andb_prop.
  change (match rsplit_ws_l l with
          | Some (x, r) => Some (a :: x, r)
          | None => match strip_ws ws_patterns (a :: l) with Some r => Some ([], r) | None => None end
          end = None).
  rewrite IH by done. by rewrite (proj1 (strip_ws_solid a l Ha)).
Qed.

Lemma rsplit_ws_space l l' :
  forallb solid l' = true → rsplit_ws_l (l ++ " "%char :: l') = Some (l, l').
Proof.
  intros Hl'. induction l as [|a l IH].
  - change (match rsplit_ws_l l' with
            | Some (x, r) => Some (" "%char :: x, r)
            | None => match strip_ws ws_patterns (" "%char :: l') with Some r => Some ([], r) | None => None end
            end = Some ([], l')).
    rewrite rsplit_ws_none by done. reflexivity.
  - change (match rsplit_ws_l (l ++ " "%char :: l') with
            | Some (x, r) => Some (a :: x, r)
            | None => match strip_ws ws_patterns (a :: l ++ " "%char :: l') with Some r => Some ([], r) | None => None end
            end = Some (a :: l, l')).
    by rewrite IH.
Qed.

Lemma rsplit_once_ws_space k op :
  str_all solid op = true → rsplit_once_ws (k +:+ String " " op) = Some (k, op).
Proof.
  intros Hop. unfold rsplit_once_ws. rewrite chars_app; simpl list_ascii_of_string.
  rewrite rsplit_ws_space by done. by rewrite !string_of_list_ascii_of_string.
Qed.

(** A head ["key op "] trims to ["key op"]. *)
Lemma trim_head k op :
  label_ok k = true → label_ok op = true →
  trim (k +:+ String " " (op +:+ " ")) = k +:+ String " " op.
Proof.
  intros (Hek & Hsk & _)%label_ok_all (Heo & Hso & _)%label_ok_all.
  unfold trim. rewrite chars_app; simpl list_ascii_of_string. rewrite chars_app; simpl list_ascii_of_string.
  rewrite <- (string_of_list_ascii_of_string (k +:+ String " " op)). f_equal.
  rewrite chars_app; simpl list_ascii_of_string. unfold str_all in Hsk, Hso.
  destruct k as [|ck k]; [done|]. simpl list_ascii_of_string in *.
  cbn [app]. rewrite trim_start_solid by (by apply andb_prop in Hsk as [? _]).
  destruct (exists_last (l := list_ascii_of_string op)) as (l' & d & Hl).
  { by destruct op. }
  rewrite Hl in Hso |- *. rewrite forallb_app in Hso. apply andb_prop in Hso as [_ Hd]. simpl in Hd.
  rewrite andb_true_r in Hd.
  assert (Hassoc : ck :: list_ascii_of_string k ++ " "%char :: (l' ++ [d]) ++ [" "%char] =
    (ck :: list_ascii_of_string k ++ " "%char :: l') ++ [d] ++ [" "%char])
    by (simpl; rewrite <- ?app_assoc; simpl; by rewrite <- ?app_assoc).
  rewrite Hassoc, trim_end_space by done. simpl. by rewrite <- app_assoc.
Qed.

(** *** Value lists *)

Lemma split_on_skip c a s :
  contains_char c a = false →
  split_on c (a +:+ s) =
    match split_on c s with p :: ps => (a +:+ p) :: ps | [] => [a] end.
Proof.
  assert (Hne : ∀ s, split_on c s ≠ []).
  { induction s0 as [|x s0 IH]; simpl; [done|]. destruct (Ascii.eqb x c); [done|].
    by destruct (split_on c s0). }
  induction a as [|x a IH]; intros Hc; cbn [String.append].
  { destruct (split_on c s) eqn:E; [by destruct (Hne s)|done]. }
  unfold contains_char in Hc; simpl in Hc. apply orb_false_elim in Hc as [Hx Ha].
  rewrite Ascii.eqb_sym in Hx. simpl. rewrite Hx, IH by done.
  destruct (split_on c s) eqn:E; [by destruct (Hne s)|done].
Qed.

Lemma split_on_join c l :
  l ≠ [] → Forall (λ s, contains_char c s = false) l → split_on c (join (String c "") l) = l.
Proof.
  induction l as [|x l IH]; intros Hne Hall; [done|]. inversion Hall as [|? ? Hx Hl]; subst.
  destruct l as [|y l].
  - simpl join. rewrite <- (string_app_nil_r x) at 1. rewrite split_on_skip by done. simpl.
    by rewrite string_app_nil_r.
  - change (join (String c "") (x :: y :: l)) with (x +:+ String c (join (String c "") (y :: l))).
    rewrite split_on_skip by done.
    change (split_on c (String c (join (String c "") (y :: l))))
      with (if Ascii.eqb c c then ""%string :: split_on c (join (String c "") (y :: l)) else
              match split_on c (join (String c "") (y :: l)) with
              | [] => [String c ""] | p :: ps => String c p :: ps end).
    rewrite Ascii.eqb_refl, IH by done. by rewrite string_app_nil_r.
Qed.

Lemma value_set_loop_labels vs set :
  Forall (λ v, label_ok v = true) vs → value_set_loop vs set = Ok (set ∪ list_to_set vs).
Proof.
  revert set; induction vs as [|v vs IH]; intros set Hall; simpl.
  { f_equal. set_solver. }
  inversion Hall as [|? ? Hv Hvs]; subst. destruct (label_ok_all v Hv) as (He & Hs & _).
  rewrite trim_solid, He by done. rewrite IH by done. f_equal. set_solver.
Qed.

Lemma elements_values_ok (vs : gset string) : values_ok vs →
  elements vs ≠ [] ∧ Forall (λ v, label_ok v = true) (elements vs).
Proof.
  intros [Hne Hall]. split.
  - intros He. apply Hne. apply set_eq. intros x. rewrite <- elem_of_elements, He. set_solver.
  - apply Forall_forall. intros v Hv. apply Hall. by apply elem_of_elements.
Qed.

Lemma parse_value_set_print vs :
  values_ok vs → parse_value_set (join "," (elements vs)) = Ok vs.
Proof.
  intros Hv. destruct (elements_values_ok vs Hv) as [Hne Hall]. unfold parse_value_set.
  rewrite split_on_join; [|done|].
  - rewrite value_set_loop_labels by done. simpl.
    assert (Hs : ∅ ∪ list_to_set (elements vs) = vs) by (rewrite list_to_set_elements_L; set_solver).
    rewrite Hs. destruct Hv as [Hv _]. by rewrite bool_decide_false.
  - eapply Forall_impl; [exact Hall|]. intros v Hl. by apply label_ok_all in Hl as (_&_&_&_&_&_&?&_).
Qed.

Ltac and_hyp H A B := lazymatch type of H with _ ∧ _ => destruct H as [A B] | _ => idtac end.

(** *** Text with solid first and last characters *)
Definition edges (s : string) : Prop :=
  ∃ c r l d, s = String c r ∧ s = l +:+ String d "" ∧ solid c = true ∧ solid d = true.

Lemma trim_edges s : edges s → trim s = s.
Proof.
  intros (c & r & l & d & Hc & Hd & Hsc & Hsd). unfold trim.
  rewrite <- (string_of_list_ascii_of_string s) at 2. f_equal.
  assert (Hl : list_ascii_of_string s = list_ascii_of_string l ++ [d]) by (by rewrite Hd, chars_app).
  assert (Hr : list_ascii_of_string s = c :: list_ascii_of_string r) by (by rewrite Hc).
  rewrite Hr, trim_start_solid, <- Hr, Hl by done. by apply trim_end_solid.
Qed.

Lemma edges_nonempty s : edges s → is_empty s = false.
Proof. by intros (c & r & _ & _ & -> & _). Qed.

Lemma edges_between a m b : edges a → edges b → edges (a +:+ m +:+ b).
Proof.
  intros (c & r & _ & _ & -> & _ & Hc & _) (_ & _ & l & d & _ & -> & _ & Hd).
  exists c, (r +:+ m +:+ l +:+ String d ""), (String c r +:+ m +:+ l), d.
  split_and!; [done | by rewrite !string_app_assoc | done | done].
Qed.

Lemma edges_solid s : is_empty s = false → str_all solid s = true → edges s.
Proof.
  intros He Hs. destruct s as [|c r]; [done|].
  assert (Hc : solid c = true) by (unfold str_all in Hs; simpl in Hs; by apply andb_prop in Hs as [? _]).
  destruct (exists_last (l := list_ascii_of_string (String c r))) as (l & d & Hl); [done|].
  exists c, r, (string_of_list_ascii l), d. split_and!; [done | | done |].
  - rewrite <- (string_of_list_ascii_of_string (String c r)), Hl. by rewrite of_chars_app.
  - unfold str_all in Hs. rewrite Hl, forallb_app in Hs. apply andb_prop in Hs as [_ Hs].
    simpl in Hs. by rewrite andb_true_r in Hs.
Qed.

Lemma edges_label s : label_ok s = true → edges s.
Proof. intros (He & Hs & _)%label_ok_all. by apply edges_solid. Qed.

Lemma edges_join sep l : l ≠ [] → Forall edges l → edges (join sep l).
Proof.
  induction l as [|x l IH]; intros Hne Hall; [done|]. inversion Hall; subst.
  destruct l as [|y l]; [done|]. apply edges_between; [done|]. by apply IH.
Qed.

Lemma edges_print e : expression_ok e → edges (print_expression e).
Proof.
  assert (Hpar : ∀ k m vs, label_ok k = true → edges (k +:+ m +:+ print_values vs)).
  { intros k m vs Hk. unfold print_values.
    replace (k +:+ m +:+ "(" +:+ join "," (elements vs) +:+ ")")
      with (k +:+ (m +:+ "(" +:+ join "," (elements vs)) +:+ ")") by (by rewrite !string_app_assoc).
    apply edges_between; [by apply edges_label | by apply edges_solid]. }
  destruct e as [k vs|k vs|k v|k v|k|k]; intros He; cbn in He; and_hyp He Hk Hv.
  - by apply (Hpar k " in " vs).
  - by apply (Hpar k " notin " vs).
  - by apply (edges_between k "=" v); apply edges_label.
  - by apply (edges_between k "!=" v); apply edges_label.
  - apply edges_label, He.
  - apply (edges_between "!" "" k); [by apply edges_solid | apply edges_label, He].
Qed.

(** *** Requirements *)

Lemma split_set_head_print k op tok :
  label_ok k = true → (op = OpIn ∧ tok = "in"%string ∨ op = OpNotIn ∧ tok = "notin"%string) →
  split_set_head (k +:+ String " " tok) = Ok (k, op).
Proof.
  intros Hk Hop. unfold split_set_head.
  destruct Hop as [[-> ->]|[-> ->]]; rewrite rsplit_once_ws_space by reflexivity;
    rewrite (trim_solid _) by reflexivity; simpl; by rewrite parse_key_label.
Qed.

Lemma parse_requirement_set k op tok vs :
  label_ok k = true → label_ok tok = true → values_ok vs →
  (op = OpIn ∧ tok = "in"%string ∨ op = OpNotIn ∧ tok = "notin"%string) →
  parse_requirement (k +:+ String " " (tok +:+ " ") +:+ print_values vs) =
    Ok (match op with OpIn => In k vs | OpNotIn => NotIn k vs end).
Proof.
  intros Hk Ht Hv Hop. unfold parse_requirement, print_values.
  assert (Hne : is_empty (k +:+ String " " (tok +:+ " ") +:+ "(" +:+ join "," (elements vs) +:+ ")") = false)
    by (by destruct k).
  assert (Hs : split_once "(" (k +:+ String " " (tok +:+ " ") +:+ "(" +:+ join "," (elements vs) +:+ ")")
    = Some (k +:+ String " " (tok +:+ " "), join "," (elements vs) +:+ ")")).
  { apply split_once_spec. split; [by rewrite string_app_assoc|].
    unfold contains_char. rewrite chars_app, existsb_app; simpl. rewrite chars_app, existsb_app; simpl.
    fold (contains_char "(" k) (contains_char "(" tok).
    destruct (label_ok_all k Hk) as (_&_&_&_&_& -> &_).
    by destruct (label_ok_all tok Ht) as (_&_&_&_&_& -> &_). }
  rewrite Hne, Hs, (rsplit_once_last ")"), trim_head by done.
  rewrite (split_set_head_print k op tok) by done. simpl.
  rewrite parse_value_set_print by done. by destruct op.
Qed.

Lemma parse_requirement_noparen s :
  contains_char "(" s = false → is_empty s = false →
  parse_requirement s =
    match split_once_str "==" s with
    | Some (k, v) => let? k := parse_key k in let? v := parse_value v in Ok (Equal k v)
    | None =>
        match split_once_str "!=" s with
        | Some (k, v) => let? k := parse_key k in let? v := parse_value v in Ok (NotEqual k v)
        | None =>
            match split_once "=" s with
            | Some (k, v) => let? k := parse_key k in let? v := parse_value v in Ok (Equal k v)
            | None =>
                match strip_prefix "!" s with
                | Some rest => let? k := parse_key rest in Ok (DoesNotExist k)
                | None => let? k := parse_key s in Ok (Exists k)
                end
            end
        end
    end.
Proof. intros Hc He. unfold parse_requirement. by rewrite He, split_once_none. Qed.

Lemma contains_char_app c a b : contains_char c (a +:+ b) = contains_char c a || contains_char c b.
Proof. unfold contains_char. by rewrite chars_app, existsb_app. Qed.

Lemma split_once_str_eqeq v : label_ok v = true → split_once_str "==" ("=" +:+ v) = None.
Proof.
  intros Hv. destruct (label_ok_all v Hv) as (_&_&_& Hn &_).
  pose proof (split_once_str_none "=" "=" v Hn) as Hnone.
  destruct v as [|c v]; [done|]. simpl in Hnone |- *.
  unfold contains_char in Hn; simpl in Hn. apply orb_false_elim in Hn as [Hc _].
  rewrite Hc in Hnone |- *. by destruct (split_once_str "==" v) as [[? ?]|].
Qed.

Lemma parse_requirement_print e :
  expression_ok e → parse_requirement (print_expression e) = Ok e.
Proof.
  destruct e as [k vs|k vs|k v|k v|k|k]; cbn [print_expression]; intros He; cbn in He; and_hyp He Hk Hv.
  - apply (parse_requirement_set k OpIn "in"); auto.
  - apply (parse_requirement_set k OpNotIn "notin"); auto.
  - destruct (label_ok_all k Hk) as (Hek&_&_&Hk1&Hk2&Hk3&_), (label_ok_all v Hv) as (_&_&_&Hv1&Hv2&Hv3&_).
    rewrite parse_requirement_noparen; [|by rewrite !contains_char_app, Hk3, Hv3|by destruct k].
    rewrite split_once_str_skip, split_once_str_eqeq by done.
    rewrite (split_once_str_none "!") by (by rewrite !contains_char_app, Hk2, Hv2).
    rewrite (proj2 (split_once_spec "=" _ k v)) by done.
    by rewrite parse_key_label, parse_value_label.
  - destruct (label_ok_all k Hk) as (Hek&_&_&Hk1&Hk2&Hk3&_), (label_ok_all v Hv) as (_&_&_&Hv1&Hv2&Hv3&_).
    rewrite parse_requirement_noparen; [|by rewrite !contains_char_app, Hk3, Hv3|by destruct k].
    assert (Heq : split_once_str "==" (k +:+ "!=" +:+ v) = None).
    { rewrite split_once_str_skip by done.
      change ("!=" +:+ v) with ("!" +:+ ("=" +:+ v)). rewrite split_once_str_skip by done.
      by rewrite split_once_str_eqeq. }
    rewrite Heq, split_once_str_skip by done.
    change (split_once_str "!=" ("!=" +:+ v)) with (Some (""%string, v)).
    cbn [result_bind]. rewrite string_app_nil_r. by rewrite parse_key_label, parse_value_label.
  - destruct (label_ok_all k He) as (Hek&_&_&Hk1&Hk2&Hk3&_).
    rewrite parse_requirement_noparen by done.
    rewrite (split_once_str_none "="), (split_once_str_none "!"), split_once_none by done.
    assert (Hb : strip_prefix "!" k = None).
    { destruct k as [|c k]; [done|]. unfold contains_char in Hk2; cbn [list_ascii_of_string existsb] in Hk2.
      apply orb_false_elim in Hk2 as [Hc _]. cbn [strip_prefix]. by rewrite Hc. }
    rewrite Hb. by rewrite parse_key_label.
  - destruct (label_ok_all k He) as (Hek&_&_&Hk1&Hk2&Hk3&_).
    rewrite parse_requirement_noparen; [|by rewrite contains_char_app, Hk3|done].
    change ("!" +:+ k) with (String "!" k).
    assert (Hc : contains_char "=" (String "!" k) = false) by (change (contains_char "=" ("!" +:+ k) = false); by rewrite contains_char_app, Hk1).
    rewrite (split_once_str_none "="), (split_once_none "=") by done.
    assert (Hne : split_once_str "!=" (String "!" k) = None).
    { pose proof (split_once_str_none "!" "=" k Hk2) as Hn.
      destruct k as [|c k]; [done|]. unfold contains_char in Hk1; cbn [list_ascii_of_string existsb] in Hk1.
      apply orb_false_elim in Hk1 as [Hce _].
      change (match (if Ascii.eqb "=" c then Some k else None) with
              | Some rest => Some (""%string, rest)
              | None => match split_once_str "!=" (String c k) with
                        | Some (l, r) => Some (String "!" l, r) | None => None end end = None).
      by rewrite Hce, Hn. }
    rewrite Hne. change (result_bind (parse_key k) (λ k, Ok (DoesNotExist k)) = Ok (E := Status) (DoesNotExist k)).
    by rewrite parse_key_label.
Qed.

(** *** Top-level splitting *)
Fixpoint prepend (p : string) (ps : option (list string)) : option (list string) :=
  match p with EmptyString => ps | String c p' => cons_char c (prepend p' ps) end.

Lemma prepend_some p q qs : prepend p (Some (q :: qs)) = Some ((p +:+ q) :: qs).
Proof. induction p as [|c p IH]; simpl; [done | by rewrite IH]. Qed.

Lemma prepend_app a b ps : prepend (a +:+ b) ps = prepend a (prepend b ps).
Proof. induction a as [|c a IH]; simpl; congruence. Qed.

Lemma split_top_plain d p r :
  str_all plain p = true → split_top d (p +:+ r) = prepend p (split_top d r).
Proof.
  unfold str_all. induction p as [|c p IH]; simpl; intros Hp; [done|].
  apply andb_prop in Hp as [Hc Hp]. unfold plain in Hc. bools.
  repeat match goal with H : Ascii.eqb c _ = false |- _ => rewrite H end. simpl. by rewrite IH.
Qed.

Definition noparen (c : ascii) : bool := negb (Ascii.eqb c "(") && negb (Ascii.eqb c ")").

Lemma split_top_inside p r :
  str_all noparen p = true → split_top 1 (p +:+ r) = prepend p (split_top 1 r).
Proof.
  unfold str_all. induction p as [|c p IH]; simpl; intros Hp; [done|].
  apply andb_prop in Hp as [Hc Hp]. unfold noparen in Hc. bools.
  repeat match goal with H : Ascii.eqb c _ = false |- _ => rewrite H end.
  rewrite andb_false_r. by rewrite IH.
Qed.

Lemma join_noparen l : Forall (λ v, label_ok v = true) l → str_all noparen (join "," l) = true.
Proof.
  assert (Hp : ∀ v, label_ok v = true → str_all noparen v = true).
  { intros v (_&_&Hpl&_)%label_ok_all. eapply str_all_weaken; [|exact Hpl].
    intros c Hc. unfold plain in Hc. unfold noparen. by apply andb_prop in Hc as [? _]. }
  induction l as [|x l IH]; intros Hall; [done|]. inversion Hall; subst.
  destruct l as [|y l]; [by apply Hp|].
  change (join "," (x :: y :: l)) with (x +:+ "," +:+ join "," (y :: l)).
  rewrite !str_all_app, Hp, IH by done. done.
Qed.

Lemma split_top_expression e r :
  expression_ok e → split_top 0 (print_expression e +:+ r) = prepend (print_expression e) (split_top 0 r).
Proof.
  assert (Hset : ∀ k m vs, label_ok k = true → str_all plain m = true → values_ok vs →
    split_top 0 ((k +:+ m +:+ print_values vs) +:+ r) = prepend (k +:+ m +:+ print_values vs) (split_top 0 r)).
  { intros k m vs Hk Hm Hv. destruct (elements_values_ok vs Hv) as [_ Hall].
    unfold print_values. rewrite !string_app_assoc, !prepend_app.
    rewrite split_top_plain by (by apply label_ok_all). f_equal.
    rewrite split_top_plain by done. f_equal. simpl. f_equal.
    rewrite split_top_inside by (by apply join_noparen). f_equal. }
  destruct e as [k vs|k vs|k v|k v|k|k]; cbn [print_expression]; intros He; cbn in He; and_hyp He Hk Hv.
  - by apply Hset.
  - by apply Hset.
  - apply split_top_plain. rewrite !str_all_app.
    destruct (label_ok_all k Hk) as (_&_& -> &_). by destruct (label_ok_all v Hv) as (_&_& -> &_).
  - apply split_top_plain. rewrite !str_all_app.
    destruct (label_ok_all k Hk) as (_&_& -> &_). by destruct (label_ok_all v Hv) as (_&_& -> &_).
  - apply split_top_plain. by destruct (label_ok_all k He) as (_&_& -> &_).
  - apply split_top_plain. rewrite str_all_app. by destruct (label_ok_all k He) as (_&_& -> &_).
Qed.

Lemma split_top_selector es :
  es ≠ [] → Forall expression_ok es →
  split_top 0 (print_selector es) = Some (print_expression <$> es).
Proof.
  unfold print_selector. induction es as [|e es IH]; intros Hne Hall; [done|].
  inversion Hall; subst. destruct es as [|e' es].
  - simpl. rewrite <- (string_app_nil_r (print_expression e)) at 1.
    rewrite split_top_expression by done. simpl. rewrite prepend_some. by rewrite string_app_nil_r.
  - change (join "," (print_expression <$> e :: e' :: es))
      with (print_expression e +:+ String "," (join "," (print_expression <$> e' :: es))).
    rewrite split_top_expression by done.
    change (split_top 0 (String "," (join "," (print_expression <$> e' :: es))))
      with (match split_top 0 (join "," (print_expression <$> e' :: es)) with
            | Some ps => Some (""%string :: ps) | None => None end).
    rewrite IH by done. rewrite prepend_some. by rewrite string_app_nil_r.
Qed.

(** ** Properties *)

(** C32: the label-selector parser inverts the documented grammar: a selector of
    any of the six requirement forms, over non-empty keys and values of label
    characters, printed and parsed again gives the same expressions in order
    (value lists as sets). *)
Theorem selector_roundtrip (es : list Expression) :
  Forall expression_ok es → parse_label_selector (print_selector es) = Ok es.
Proof.
  intros Hall. destruct es as [|e es]; [reflexivity|].
  assert (Hed : edges (print_selector (e :: es))).
  { apply edges_join; [done|]. apply Forall_fmap. eapply Forall_impl; [exact Hall|].
    intros x Hx. by apply edges_print. }
  unfold parse_label_selector. rewrite trim_edges, edges_nonempty by done.
  unfold split_top_level_requirements. rewrite split_top_selector by done. cbn [ok_or result_bind].
  apply try_map_ok. change (print_expression e :: _) with (print_expression <$> e :: es).
  apply Forall2_fmap_l, Forall_Forall2_diag.
  eapply Forall_impl; [exact Hall|]. intros x Hx.
  cbv [compose]. rewrite trim_edges by (by apply edges_print). by apply parse_requirement_print.
Qed.

Lemma selector_roundtrip_witness :
  let es := [In "env" {["prod"; "staging"]}; NotEqual "tier" "db"; DoesNotExist "legacy"] in
  Forall expression_ok es ∧ print_selector es = "env in (staging,prod),tier!=db,!legacy"%string ∧
  parse_label_selector (print_selector es) = Ok es.
Proof.
  intros es.
  assert (Hok : Forall expression_ok es).
  { unfold es. constructor.
    - split; [reflexivity|]. split; [discriminate|]. intros v Hv.
      apply elem_of_union in Hv as [Hv|Hv]; apply elem_of_singleton in Hv; subst v; reflexivity.
    - repeat constructor. }
  split; [exact Hok|]. split; [vm_compute; reflexivity|].
  apply (selector_roundtrip es Hok).
Defined.
