(* ===== verification/Subscribe.v ===== *)
(** * The Subscribe path: [grpc/subscribe.rs], [grpc/subscribe/replay.rs],
    [grpc/subscribe/broadcast.rs], [grpc/subscribe/watch.rs]

    The per-namespace replay buffer and its binary search, the sharded fan-out,
    the per-subscriber channel with its disconnect policy, the resume task, the
    live bridge, the immediate and coalesced event pumps and the idle-namespace
    collector. *)
From S2P Require Export Watcher Filter.

(** ** Wire messages *)
Inductive EventType : Set := ADDED | MODIFIED | DELETED | SNAPSHOT.
#[global] Instance EventType_eq_dec : EqDecision EventType.
Proof. solve_decision. Defined.

Record ConfigMsg : Set := mkConfigMsg {
  m_namespace : string;
  m_name : string;
  m_schema_version : Z;
  m_content_json : string;
  m_resource_version : string;
  m_age_ms : Z;
  m_stale_since_ms : Z
}.

Record ConfigEvent : Set := mkConfigEvent {
  ev_type : EventType;
  ev_config : option ConfigMsg
}.

Definition elapsed_ms (now t : Instant) : Z := Z.max (now - t) 0 / 1000000.

(** [snapshot_to_proto] of [grpc/mod.rs]; a fresh snapshot has staleness -1. *)
Definition snapshot_to_proto (to_string : json → option string) (now : Instant) (s : ConfigSnapshot) :
    ConfigMsg :=
  mkConfigMsg (c_namespace s) (c_name s) (c_schema_version s) (content_json to_string s).1
    (c_resource_version s) (elapsed_ms now (c_loaded_at s))
    (match c_stale_since s with Some t => elapsed_ms now t | None => -1 end).

(** ** The replay buffer *)
Definition REPLAY_BUFFER_SIZE : nat := 1000.

Record ReplayEntry : Type := mkReplayEntry {
  re_resource_version : string;
  re_rv : Z;                               (* [resource_version_u64] *)
  re_event : ConfigEvent;
  re_labels : gmap string string
}.

Definition push_replay (buf : list ReplayEntry) (rv : string) (ev : ConfigEvent)
    (labels : gmap string string) : list ReplayEntry :=
  match parse_u64 rv with
  | None => buf
  | Some n =>
      (if bool_decide (REPLAY_BUFFER_SIZE ≤ length buf)%nat then tail buf else buf)
        ++ [mkReplayEntry rv n ev labels]
  end.

(** *** [slice::binary_search_by] and [VecDeque::binary_search_by_key]

    The loop halves [size], so [size] is enough fuel. *)
Fixpoint bs_loop (key : nat → Z) (target : Z) (fuel : nat) (base size : nat) : nat :=
  match fuel with
  | O => base
  | S f =>
      if (1 <? size)%nat then
        let half := (size / 2)%nat in
        let mid := (base + half)%nat in
        let base := if target <? key mid then base else mid in
        bs_loop key target f base (size - half)
      else base
  end.

Definition slice_binary_search (keys : list Z) (target : Z) : option nat :=
  match keys with
  | [] => None
  | _ =>
      let key i := default 0 (keys !! i) in
      let base := bs_loop key target (length keys) 0 (length keys) in
      if key base =? target then Some base else None
  end.

(** A deque is stored as two slices; [wrap] is the length of the front one. *)
Definition deque_binary_search (wrap : nat) (keys : list Z) (target : Z) : option nat :=
  let front := take wrap keys in
  let back := drop wrap keys in
  match back with
  | k :: _ =>
      if k =? target then Some (length front)
      else if k <? target then (λ i, (i + length front)%nat) <$> slice_binary_search back target
      else slice_binary_search front target
  | [] => slice_binary_search front target
  end.

(** ** The per-subscriber channel

    A bounded tokio channel.  The receiver runs concurrently: before each send
    the schedule says how many queued messages it has taken since, or that it is
    gone.  [ch_accepted] is everything accepted so far, in order: what the client
    receives. *)
Definition Msg : Type := result ConfigEvent Status.

Record Chan (A : Type) : Type := mkChan {
  ch_cap : nat;
  ch_len : nat;
  ch_accepted : list A;
  ch_sched : list (option nat)
}.
Arguments mkChan {A} _ _ _ _.
Arguments ch_cap {A} _.
Arguments ch_len {A} _.
Arguments ch_accepted {A} _.
Arguments ch_sched {A} _.

Inductive SendOutcome : Set := Sent | Full | Closed.

Definition CHANNEL_CAPACITY : nat := 256.

Definition try_send {A} (ch : Chan A) (m : A) : SendOutcome * Chan A :=
  let '(act, sched) := match ch_sched ch with [] => (Some 0%nat, []) | a :: s => (a, s) end in
  match act with
  | None => (Closed, mkChan (ch_cap ch) (ch_len ch) (ch_accepted ch) (None :: sched))
  | Some k =>
      let len := (ch_len ch - k)%nat in
      if (ch_cap ch <=? len)%nat then (Full, mkChan (ch_cap ch) len (ch_accepted ch) sched)
      else (Sent, mkChan (ch_cap ch) (S len) (ch_accepted ch ++ [m]) sched)
  end.

Definition too_slow : Status := status ResourceExhausted "subscriber too slow".
Definition lagged : Status := status ResourceExhausted "subscriber lagged".

(** [ControlFlow::Break] is [true]. *)
Definition try_send_or_disconnect (ch : Chan Msg) (ev : ConfigEvent) : bool * Chan Msg :=
  match try_send ch (Ok ev) with
  | (Sent, ch') => (false, ch')
  | (Full, ch') => (true, (try_send ch' (Err too_slow)).2)
  | (Closed, ch') => (true, ch')
  end.

Fixpoint send_events (ch : Chan Msg) (evs : list ConfigEvent) : bool * Chan Msg :=
  match evs with
  | [] => (false, ch)
  | ev :: evs' =>
      match try_send_or_disconnect ch ev with
      | (true, ch') => (true, ch')
      | (false, ch') => send_events ch' evs'
      end
  end.

(** ** Frames and shards *)
Record Frame : Type := mkFrame {
  fr_sent_at : Instant;
  fr_event : ConfigEvent;
  fr_labels : gmap string string
}.

Definition BROADCAST_CAPACITY : nat := 1024.
Definition MIN_BROADCAST_SHARDS : nat := 1.
Definition MAX_BROADCAST_SHARDS : nat := 16.

(** The receivers attached to each shard, and the round-robin cursor. *)
Record ShardSet : Type := mkShards {
  sh_shards : list (list nat);
  sh_next : Z
}.

Definition ShardSet_new (shards : nat) : ShardSet :=
  mkShards (replicate (Nat.max shards MIN_BROADCAST_SHARDS) []) 0.

(** [fetch_add] on a [usize] wraps. *)
Definition next_receiver (s : ShardSet) (rx : nat) : nat * ShardSet :=
  let idx := Z.to_nat (sh_next s mod Z.of_nat (length (sh_shards s))) in
  (idx, mkShards (alter (λ l, l ++ [rx]) idx (sh_shards s)) ((sh_next s + 1) mod (u64_max + 1))).

(** What a receiver can still read: the frames not yet overwritten in its shard's
    ring, oldest first, and how many were overwritten before it read them. *)
Record Receiver : Type := mkRx {
  rx_missed : Z;
  rx_pending : list Frame
}.
Definition rx_new : Receiver := mkRx 0 [].

(** A frame written to a ring of [BROADCAST_CAPACITY] slots: when the receiver is
    that far behind, its oldest unread frame is the one overwritten. *)
Definition rx_push (f : Frame) (r : Receiver) : Receiver :=
  if (length (rx_pending r) <? BROADCAST_CAPACITY)%nat then mkRx (rx_missed r) (rx_pending r ++ [f])
  else mkRx (rx_missed r + 1) (tail (rx_pending r) ++ [f]).

(** One [broadcast::Sender::send]: every receiver of the shard gets the frame;
    an error when there is none. *)
Definition shard_send (f : Frame) (rxs : list nat) (q : gmap nat Receiver) : bool * gmap nat Receiver :=
  (negb (bool_decide (rxs = [])),
   foldl (λ q rx, <[rx := rx_push f (default rx_new (q !! rx))]> q) q rxs).

Definition send_to_all (s : ShardSet) (f : Frame) (q : gmap nat Receiver) : bool * gmap nat Receiver :=
  foldl (λ acc rxs, let '(d, q) := shard_send f rxs acc.2 in (acc.1 || d, q)) (false, q) (sh_shards s).

(** A bridge owns its receiver: when it returns, the receiver leaves its shard. *)
Definition drop_receiver (rx : nat) (s : ShardSet) : ShardSet :=
  mkShards ((λ rxs, filter (λ r, r ≠ rx) rxs) <$> sh_shards s) (sh_next s).

Definition total_receiver_count (s : ShardSet) : nat := sum_list (length <$> sh_shards s).

(** What the select of a bridge wakes up with. *)
Inductive BridgeInput : Type :=
  | BDrain                       (* the drain notification wins the select *)
  | BRecv (f : Frame)
  | BLagged (missed : Z)
  | BClosed.

(** [Receiver::recv]: the number of overwritten frames first, then the oldest
    unread one; [None] when it has to wait. *)
Definition rx_recv (r : Receiver) : option (BridgeInput * Receiver) :=
  if 0 <? rx_missed r then Some (BLagged (rx_missed r), mkRx 0 (rx_pending r))
  else match rx_pending r with
       | [] => None
       | f :: rest => Some (BRecv f, mkRx 0 rest)
       end.

(** ** One namespace's fan-out, step by step *)
Inductive FanOp : Type :=
  | FAttach (rx : nat)           (* a Subscribe attaches *)
  | FDrop (rx : nat)             (* its bridge returns *)
  | FSend (f : Frame)            (* the watch broadcasts *)
  | FRecv (rx : nat).            (* a bridge polls its receiver *)

Definition fan_step (op : FanOp) (s : ShardSet) (q : gmap nat Receiver) :
    option (nat * BridgeInput) * ShardSet * gmap nat Receiver :=
  match op with
  | FAttach rx => (None, (next_receiver s rx).2, <[rx := rx_new]> q)
  | FDrop rx => (None, drop_receiver rx s, delete rx q)
  | FSend f => (None, s, (send_to_all s f q).2)
  | FRecv rx =>
      match q !! rx ≫= rx_recv with
      | Some (o, r) => (Some (rx, o), s, <[rx := r]> q)
      | None => (None, s, q)
      end
  end.

(** What was received, by whom, in order. *)
Fixpoint fan_run (ops : list FanOp) (s : ShardSet) (q : gmap nat Receiver) :
    list (nat * BridgeInput) * ShardSet * gmap nat Receiver :=
  match ops with
  | [] => ([], s, q)
  | op :: rest =>
      let '(o, s1, q1) := fan_step op s q in
      let '(outs, s2, q2) := fan_run rest s1 q1 in
      (option_list o ++ outs, s2, q2)
  end.

(** ** Filtering and resuming *)
Section Resume.
Context (to_string : json → option string).
Context (selector_matches : list Expression → gmap string string → bool).
Context `{!MapIter OwnedKey ConfigSnapshot}.

Definition event_name (ev : ConfigEvent) : option string := m_name <$> ev_config ev.

Definition allows (f : SubscribeFilter) (ev : ConfigEvent) (labels : gmap string string) : bool :=
  filter_allows_event selector_matches f (event_name ev) labels.

(** *** The live bridge *)
Fixpoint bridge_broadcast (f : SubscribeFilter) (ins : list BridgeInput) (ch : Chan Msg) : Chan Msg :=
  match ins with
  | [] => ch
  | BDrain :: _ => ch
  | BRecv fr :: rest =>
      if negb (allows f (fr_event fr) (fr_labels fr)) then bridge_broadcast f rest ch
      else
        match try_send ch (Ok (fr_event fr)) with
        | (Sent, ch') => bridge_broadcast f rest ch'
        | (Full, ch') => (try_send ch' (Err too_slow)).2
        | (Closed, ch') => ch'
        end
  | BLagged _ :: _ => (try_send ch (Err lagged)).2
  | BClosed :: _ => ch
  end.

(** *** The resume task

    [buf1] is the buffer when the resume position is looked up, [buf2] when the
    race window after the snapshot is closed. *)
Definition parse_resume (rv : string) : option Z := if is_empty rv then None else parse_u64 rv.

Definition resume_lookup (wrap : nat) (buf : list ReplayEntry) (rv : string) : option nat :=
  parse_resume rv ≫= deque_binary_search wrap (re_rv <$> buf).

Definition allowed_entries (f : SubscribeFilter) (es : list ReplayEntry) : list ConfigEvent :=
  re_event <$> filter (λ e, allows f (re_event e) (re_labels e) = true) es.

Definition max_snapshot_rv (snaps : list ConfigSnapshot) : Z :=
  foldl (λ m s, match parse_u64 (c_resource_version s) with
                | Some rv => if m <? rv then rv else m
                | None => m end) 0 snaps.

Definition snapshot_events (f : SubscribeFilter) (now : Instant) (snaps : list ConfigSnapshot) :
    list ConfigEvent :=
  (λ s, mkConfigEvent SNAPSHOT (Some (snapshot_to_proto to_string now s)))
    <$> filter (λ s, allow selector_matches f (c_name s) (c_labels s) = true) snaps.

(** What the task sends before it joins the live broadcast. *)
Definition resume_events (f : SubscribeFilter) (wrap : nat) (now : Instant) (cache : ConfigCache)
    (ns rv : string) (buf1 buf2 : list ReplayEntry) : list ConfigEvent * list ConfigEvent :=
  match resume_lookup wrap buf1 rv with
  | Some idx => ([], allowed_entries f (drop (S idx) buf1))
  | None =>
      let snaps := all_in_namespace cache ns in
      (snapshot_events f now snaps,
       allowed_entries f (filter (λ e, max_snapshot_rv snaps < re_rv e) buf2))
  end.

Definition resume_from_buffer (f : SubscribeFilter) (wrap : nat) (now : Instant)
    (cache : ConfigCache) (ns rv : string) (buf1 buf2 : list ReplayEntry)
    (live : list BridgeInput) (ch : Chan Msg) : Chan Msg :=
  let '(first, second) := resume_events f wrap now cache ns rv buf1 buf2 in
  match send_events ch first with
  | (true, ch') => ch'
  | (false, ch') =>
      match send_events ch' second with
      | (true, ch'') => ch''
      | (false, ch'') => bridge_broadcast f live ch''
      end
  end.

(** ** Watch events into frames *)

(** [process_namespace_event]: the frame and the buffer it is pushed to. *)
Definition process_namespace_event (now : Instant) (event : Event DynamicObject)
    (buf : list ReplayEntry) : option Frame * list ReplayEntry :=
  let go ty obj :=
    match parse_config_object now obj with
    | None => (None, buf)
    | Some snap =>
        let ev := mkConfigEvent ty (Some (snapshot_to_proto to_string now snap)) in
        (Some (mkFrame now ev (c_labels snap)),
         push_replay buf (c_resource_version snap) ev (c_labels snap))
    end in
  match event with
  | Apply obj | InitApply obj => go MODIFIED obj
  | Delete obj => go DELETED obj
  | Init | InitDone => (None, buf)
  end.

(** An item of the watch stream; both an error and the clean end stop a pump. *)
Definition WatchItem : Type := Instant * result (Event DynamicObject) string.

(** [pump_immediate]: the frames sent, one dispatch each, and the buffer. *)
Fixpoint pump_immediate (items : list WatchItem) (buf : list ReplayEntry) :
    list Frame * list ReplayEntry :=
  match items with
  | [] => ([], buf)
  | (_, Err _) :: _ => ([], buf)
  | (now, Ok event) :: rest =>
      match process_namespace_event now event buf with
      | (Some frame, buf') =>
          let '(fs, b) := pump_immediate rest buf' in (frame :: fs, b)
      | (None, buf') => pump_immediate rest buf'
      end
  end.

Definition COALESCE_MAX_BATCH : nat := 16.

(** What an iteration of the coalescing loop sees: an item, or the window
    deadline of a non-empty batch. *)
Inductive CoalesceInput : Type :=
  | CItem (it : WatchItem)
  | CElapsed.

(** [pump_coalesced]: the bursts sent, in order, and the buffer. *)
Fixpoint pump_coalesced (ins : list CoalesceInput) (batch : list Frame) (buf : list ReplayEntry) :
    list (list Frame) * list ReplayEntry :=
  match ins with
  | [] => ([batch], buf)
  | CElapsed :: rest =>
      if bool_decide (batch = []) then pump_coalesced rest batch buf
      else let '(bs, b) := pump_coalesced rest [] buf in (batch :: bs, b)
  | CItem (_, Err _) :: _ => ([batch], buf)
  | CItem (now, Ok event) :: rest =>
      match process_namespace_event now event buf with
      | (Some frame, buf') =>
          let batch' := batch ++ [frame] in
          if (COALESCE_MAX_BATCH <=? length batch')%nat
          then let '(bs, b) := pump_coalesced rest [] buf' in (batch' :: bs, b)
          else pump_coalesced rest batch' buf'
      | (None, buf') => pump_coalesced rest batch buf'
      end
  end.

(** The items among the inputs of the coalescing loop. *)
Definition input_items (ins : list CoalesceInput) : list WatchItem :=
  omap (λ i, match i with CItem it => Some it | CElapsed => None end) ins.

(** [pump_subscribe_namespace_events]: a zero window selects the immediate pump,
    which sets no deadline.  The frames in the order they are sent, and the
    buffer. *)
Definition pump_subscribe_namespace_events (coalesce_window_ms : Z) (ins : list CoalesceInput) (buf : list ReplayEntry) :
    list Frame * list ReplayEntry :=
  if coalesce_window_ms =? 0 then pump_immediate (input_items ins) buf
  else let '(bursts, b) := pump_coalesced ins [] buf in (concat bursts, b).
End Resume.

(** ** The idle-namespace collector *)
Definition GC_GRACE : Z := 30000000000.

Record NsMaps : Type := mkMaps {
  nm_broadcasts : gmap string ShardSet;
  nm_replay : gmap string (list ReplayEntry);
  nm_handles : gmap string nat;
  nm_idle : gmap string Instant
}.

(** First pass: idle timers, and the namespaces idle beyond the grace period.
    [clock] is the instant a timer is started at. *)
Definition gc_scan_one (now clock : Instant) (ns : string) (s : ShardSet)
    (acc : gmap string Instant * list string) : gmap string Instant * list string :=
  let '(idle, gc) := acc in
  if bool_decide (total_receiver_count s = 0%nat) then
    let since := default clock (idle !! ns) in
    (<[ns := since]> idle, if GC_GRACE <? Z.max (now - since) 0 then gc ++ [ns] else gc)
  else (delete ns idle, gc).

(** Second pass, on the maps as they are now: [remove_if] re-checks the receiver
    count under the entry lock. *)
Definition gc_collect_one (acc : NsMaps * list nat) (ns : string) : NsMaps * list nat :=
  let '(m, aborted) := acc in
  let kept := (mkMaps (nm_broadcasts m) (nm_replay m) (nm_handles m) (delete ns (nm_idle m)), aborted) in
  match nm_broadcasts m !! ns with
  | Some s =>
      if bool_decide (total_receiver_count s = 0%nat) then
        (mkMaps (delete ns (nm_broadcasts m)) (delete ns (nm_replay m))
           (delete ns (nm_handles m)) (delete ns (nm_idle m)),
         aborted ++ option_list (nm_handles m !! ns))
      else kept
  | None => kept
  end.

(** [between ns] is what other tasks do to the maps before [ns] is re-checked. *)
Definition gc_tick `{!MapIter string ShardSet} (now clock : Instant)
    (between : string → NsMaps → NsMaps) (m : NsMaps) : NsMaps * list nat :=
  let '(idle, gc) :=
    foldl (λ acc kv, gc_scan_one now clock kv.1 kv.2 acc) (nm_idle m, []) (map_iter (nm_broadcasts m)) in
  foldl (λ acc ns, gc_collect_one (between ns acc.1, acc.2) ns)
    (mkMaps (nm_broadcasts m) (nm_replay m) (nm_handles m) idle, []) gc.

(** ** Attaching a subscriber

    [get_or_create_broadcast] run without interference: the shard the receiver
    [rx] is attached to, the buffer it resumes from, the maps.  [task] names the
    watcher task spawned for a new namespace, whose first subscriber takes the
    receiver of shard 0 without moving the cursor. *)
Definition get_or_create_broadcast (ns : string) (shards : nat) (rx task : nat) (m : NsMaps) :
    nat * list ReplayEntry * NsMaps :=
  let buf := default [] (nm_replay m !! ns) in
  match nm_broadcasts m !! ns with
  | Some s =>
      let '(idx, s') := next_receiver s rx in
      (idx, buf, mkMaps (<[ns := s']> (nm_broadcasts m)) (<[ns := buf]> (nm_replay m))
                   (nm_handles m) (nm_idle m))
  | None =>
      let s := ShardSet_new shards in
      let s' := mkShards (alter (λ l, l ++ [rx]) 0%nat (sh_shards s)) (sh_next s) in
      (0%nat, buf, mkMaps (<[ns := s']> (nm_broadcasts m)) (<[ns := buf]> (nm_replay m))
                     (<[ns := task]> (nm_handles m)) (nm_idle m))
  end.

(** [handle_subscribe] up to the spawn: refusals, then the filter, then the
    attachment. *)
Record SubscribeRequest : Set := mkSubscribeRequest {
  sr_namespace : string;
  sr_names : list string;
  sr_resume_resource_version : string;
  sr_label_selector : string
}.

Definition handle_subscribe (cache : ConfigCache) (shards rx task : nat) (req : SubscribeRequest)
    (m : NsMaps) : rpc (SubscribeFilter * nat * list ReplayEntry) * NsMaps :=
  if negb (is_populated cache) then (Err (status Unavailable "cache not yet populated"), m)
  else
    match SubscribeFilter_new (sr_names req) (sr_label_selector req) with
    | Err s => (Err s, m)
    | Ok f =>
        let '(idx, buf, m') := get_or_create_broadcast (sr_namespace req) shards rx task m in
        (Ok (f, idx, buf), m')
    end.
