(* ===== verification/SubscribeFacts.v ===== *)
(** * What the Subscribe path guarantees

    The replay buffer and its search, resume without gaps, exactly-once fan-out,
    equivalence of the two pumps, the delivery order of the bridge and the
    safety of the collector; and the resume cases that do lose an update. *)
From S2P Require Export Subscribe.

(** ** Binary search *)
Section Search.
Context (keys : list Z).
Context (Hsorted : ∀ i j a b, (i < j)%nat → keys !! i = Some a → keys !! j = Some b → a < b).
#[local] Notation key i := (default 0 (keys !! i)).

Lemma key_lookup i : (i < length keys)%nat → keys !! i = Some (key i).
Proof. intros Hi. by destruct (lookup_lt_is_Some_2 keys i Hi) as [x ->]. Qed.

Lemma key_lt i j : (i < j)%nat → (j < length keys)%nat → key i < key j.
Proof. intros Hij Hj. eapply Hsorted; [exact Hij | apply key_lookup; lia | by apply key_lookup]. Qed.

Lemma bs_loop_spec target fuel base size :
  (size ≤ fuel)%nat → (1 ≤ size)%nat → (base + size ≤ length keys)%nat →
  let r := bs_loop (λ i, key i) target fuel base size in
  (r < length keys)%nat ∧
  ∀ i, (base ≤ i < base + size)%nat → key i = target → i = r.
Proof.
  revert base size; induction fuel as [|fuel IH]; intros base size Hf Hs Hb; [lia|].
  cbn [bs_loop]; cbv zeta.
  destruct (Nat.ltb_spec 1 size).
  2: { split; [lia|]. intros i Hi _. lia. }
  assert (Hh : (1 ≤ size / 2)%nat) by (apply Nat.div_le_lower_bound; lia).
  assert (Hh2 : (2 * (size / 2) ≤ size)%nat) by (apply Nat.Div0.mul_div_le).
  destruct (Z.ltb_spec target (key (base + size / 2)%nat)) as [Hlt|Hge].
  - destruct (IH base (size - size / 2)%nat) as [Hr Hi]; [lia..|]. split; [done|].
    intros i Hib Hk. apply Hi; [|done].
    destruct (decide (i < base + size / 2)%nat); [lia|].
    destruct (decide (i = base + size / 2)%nat) as [->|]; [lia|].
    pose proof (key_lt (base + size / 2) i). lia.
  - destruct (IH (base + size / 2)%nat (size - size / 2)%nat) as [Hr Hi]; [lia..|]. split; [done|].
    intros i Hib Hk. apply Hi; [|done].
    destruct (decide (base + size / 2 ≤ i)%nat); [lia|].
    pose proof (key_lt i (base + size / 2)%nat). lia.
Qed.

Lemma slice_binary_search_cons target :
  keys ≠ [] →
  slice_binary_search keys target =
    let base := bs_loop (λ i, key i) target (length keys) 0 (length keys) in
    if key base =? target then Some base else None.
Proof. by destruct keys. Qed.

Lemma slice_binary_search_spec target i :
  slice_binary_search keys target = Some i ↔ keys !! i = Some target.
Proof.
  destruct (decide (keys = [])) as [->|Hne]; [by destruct i|].
  assert (Hlen : (1 ≤ length keys)%nat) by (by destruct (length keys) eqn:Hl; [apply nil_length_inv in Hl | lia]).
  rewrite slice_binary_search_cons by done. cbv zeta.
  destruct (bs_loop_spec target (length keys) 0 (length keys)) as [Hr Hi]; [lia..|].
  destruct (Z.eqb_spec (key (bs_loop (λ i, key i) target (length keys) 0 (length keys))) target) as [He|Hn].
  - split.
    + intros [= <-]. rewrite key_lookup by done. by rewrite He.
    + intros Hl. f_equal. symmetry. apply Hi; [apply lookup_lt_Some in Hl; lia | by rewrite Hl].
  - split; [done|]. intros Hl. exfalso. apply Hn.
    rewrite <- (Hi i); [by rewrite Hl | apply lookup_lt_Some in Hl; lia | by rewrite Hl].
Qed.
End Search.

Definition strictly_sorted (keys : list Z) : Prop :=
  ∀ i j a b, (i < j)%nat → keys !! i = Some a → keys !! j = Some b → a < b.

Lemma strictly_sorted_take n keys : strictly_sorted keys → strictly_sorted (take n keys).
Proof. intros Hs i j a b Hij Ha%lookup_take_Some Hb%lookup_take_Some. by eapply Hs; naive_solver. Qed.

Lemma strictly_sorted_drop n keys : strictly_sorted keys → strictly_sorted (drop n keys).
Proof.
  intros Hs i j a b Hij. rewrite !lookup_drop. intros Ha Hb. eapply Hs; [|exact Ha|exact Hb]. lia.
Qed.

(** A hit is right whatever the order of the keys. *)
Lemma bs_loop_range key target fuel base size :
  (1 ≤ size)%nat → (base ≤ bs_loop key target fuel base size < base + size)%nat.
Proof.
  revert base size; induction fuel as [|fuel IH]; intros base size Hs; cbn [bs_loop]; [lia|].
  destruct (Nat.ltb_spec 1 size) as [Hlt|]; [|lia]. cbv zeta.
  pose proof (Nat.div_lt size 2 ltac:(lia) ltac:(lia)).
  assert (1 ≤ size / 2)%nat by (apply Nat.div_le_lower_bound; lia).
  specialize (IH (if target <? key (base + size / 2)%nat then base else (base + size / 2)%nat)
                 (size - size / 2)%nat ltac:(lia)).
  revert IH. destruct (target <? key (base + size / 2)%nat); lia.
Qed.

Lemma slice_binary_search_sound keys target i :
  slice_binary_search keys target = Some i → keys !! i = Some target.
Proof.
  unfold slice_binary_search. destruct keys as [|k keys]; [done|]. cbv zeta.
  set (l := k :: keys). set (b := bs_loop _ _ _ _ _).
  assert (Hb : (b < length l)%nat).
  { pose proof (bs_loop_range (λ i, default 0 (l !! i)) target (length l) 0 (length l) ltac:(simpl; lia)). lia. }
  destruct (Z.eqb_spec (default 0 (l !! b)) target) as [He|]; [|done]. intros [= <-].
  apply lookup_lt_is_Some_2 in Hb as [x Hx]. rewrite Hx in *. simpl in He. by subst.
Qed.

Lemma deque_binary_search_sound wrap keys target i :
  deque_binary_search wrap keys target = Some i → keys !! i = Some target.
Proof.
  assert (Hf : ∀ i, take wrap keys !! i = Some target → keys !! i = Some target)
    by (intros j Hj%lookup_take_Some; naive_solver).
  unfold deque_binary_search. destruct (drop wrap keys) as [|k back] eqn:Hd.
  { intros Hi%slice_binary_search_sound. by apply Hf. }
  assert (Hw : (wrap < length keys)%nat).
  { apply (f_equal length) in Hd. rewrite length_drop in Hd. simpl in Hd. lia. }
  assert (Hback : ∀ j, (k :: back) !! j = Some target → keys !! (j + length (take wrap keys))%nat = Some target).
  { intros j. rewrite <- Hd, lookup_drop, length_take, Nat.min_l, Nat.add_comm by lia. done. }
  destruct (Z.eqb_spec k target) as [->|]; [by intros [= <-]; apply (Hback 0%nat)|].
  destruct (k <? target).
  - intros (j & Hj%slice_binary_search_sound & ->)%fmap_Some. by apply Hback.
  - intros Hi%slice_binary_search_sound. by apply Hf.
Qed.

Lemma deque_binary_search_spec wrap keys target i :
  strictly_sorted keys →
  deque_binary_search wrap keys target = Some i ↔ keys !! i = Some target.
Proof.
  intros Hs. unfold deque_binary_search.
  pose proof (slice_binary_search_spec (take wrap keys) (strictly_sorted_take wrap keys Hs) target) as Hf.
  pose proof (slice_binary_search_spec (drop wrap keys) (strictly_sorted_drop wrap keys Hs) target) as Hb.
  destruct (decide (wrap < length keys)%nat) as [Hw|Hw].
  2: { rewrite drop_ge, take_ge by lia. rewrite take_ge in Hf by lia. apply Hf. }
  destruct (lookup_lt_is_Some_2 keys wrap Hw) as [k Hk].
  rewrite (drop_S keys k wrap Hk) in *. rewrite length_take, Nat.min_l by lia.
  destruct (Z.eqb_spec k target) as [->|Hne].
  - split.
    + by intros [= <-].
    + intros Hi. f_equal. destruct (Nat.lt_trichotomy i wrap) as [Hlt|[->|Hgt]]; [|done|].
      * pose proof (Hs _ _ _ _ Hlt Hi Hk). lia.
      * pose proof (Hs _ _ _ _ Hgt Hk Hi). lia.
  - destruct (Z.ltb_spec k target).
    + rewrite fmap_Some. split.
      * intros (m & Hm & ->). apply Hb in Hm. rewrite <- drop_S, lookup_drop in Hm by done.
        by rewrite Nat.add_comm.
      * intros Hi. destruct (decide (i < wrap)%nat) as [Hlt|].
        { pose proof (Hs _ _ _ _ Hlt Hi Hk). lia. }
        exists (i - wrap)%nat. split; [|lia]. apply Hb. rewrite <- drop_S, lookup_drop by done.
        replace (wrap + (i - wrap))%nat with i by lia. done.
    + rewrite Hf. split.
      * intros Hi. by apply lookup_take_Some in Hi as [? _].
      * intros Hi. apply lookup_take_Some. split; [done|].
        destruct (decide (i < wrap)%nat) as [|]; [done|].
        destruct (decide (i = wrap)) as [->|]; [congruence|].
        assert (Hgt : (wrap < i)%nat) by lia. pose proof (Hs _ _ _ _ Hgt Hk Hi). lia.
Qed.

(** ** The buffer *)
Lemma push_replay_length buf rv ev ls :
  (length buf ≤ REPLAY_BUFFER_SIZE)%nat → (length (push_replay buf rv ev ls) ≤ REPLAY_BUFFER_SIZE)%nat.
Proof.
  intros Hb. unfold push_replay. destruct (parse_u64 rv); [|done].
  rewrite length_app. change (length [_]) with 1%nat.
  assert (1 ≤ REPLAY_BUFFER_SIZE)%nat by (vm_compute; lia).
  assert (length (tail buf) = length buf - 1)%nat by (destruct buf; simpl; lia).
  case_bool_decide; lia.
Qed.

Lemma strictly_sorted_snoc keys k :
  strictly_sorted keys → (∀ x, x ∈ keys → x < k) → strictly_sorted (keys ++ [k]).
Proof.
  intros Hs Hk i j a b Hij Ha Hb.
  apply lookup_app_Some in Hb as [Hb|[Hlen Hb]].
  - apply lookup_lt_Some in Hb as Hjl. rewrite lookup_app_l in Ha by lia. exact (Hs i j a b Hij Ha Hb).
  - apply list_lookup_singleton_Some in Hb as [? <-].
    apply lookup_app_Some in Ha as [Ha|[? Ha]].
    + apply Hk. by apply list_elem_of_lookup_2 in Ha.
    + apply list_lookup_singleton_Some in Ha as [? _]. lia.
Qed.

Lemma strictly_sorted_tail keys : strictly_sorted keys → strictly_sorted (tail keys).
Proof. destruct keys as [|k ks]; [done|]. intros Hs. apply (strictly_sorted_drop 1 (k :: ks) Hs). Qed.

Lemma push_replay_sorted buf rv ev ls :
  strictly_sorted (re_rv <$> buf) →
  (∀ n e, parse_u64 rv = Some n → e ∈ buf → re_rv e < n) →
  strictly_sorted (re_rv <$> push_replay buf rv ev ls).
Proof.
  intros Hs Hn. unfold push_replay. destruct (parse_u64 rv) as [n|]; [|done].
  rewrite fmap_app. simpl.
  assert (Htl : ∀ b, b = buf ∨ b = tail buf → strictly_sorted ((re_rv <$> b) ++ [n])).
  { intros b Hb. apply strictly_sorted_snoc.
    - destruct Hb as [-> | ->]; [done|]. destruct buf as [|e buf]; [done|].
      exact (strictly_sorted_tail (re_rv <$> e :: buf) Hs).
    - intros x (e & -> & He)%list_elem_of_fmap. apply Hn; [done|].
      destruct Hb as [-> | ->]; [done|]. destruct buf; [done|]. by right. }
  case_bool_decide; apply Htl; auto.
Qed.

(** ** Sending *)
Lemma send_events_room ch evs :
  ch_sched ch = [] → (ch_len ch + length evs ≤ ch_cap ch)%nat →
  send_events ch evs =
    (false, mkChan (ch_cap ch) (ch_len ch + length evs) (ch_accepted ch ++ (Ok <$> evs)) []).
Proof.
  revert ch; induction evs as [|ev evs IH]; intros [cap len acc sched] Hs Hr; simpl in *; subst sched.
  { by rewrite Nat.add_0_r, app_nil_r. }
  unfold try_send_or_disconnect, try_send; simpl. rewrite Nat.sub_0_r.
  destruct (Nat.leb_spec cap len); [lia|]. rewrite IH; simpl; [|done|lia].
  do 2 f_equal; [lia|]. by rewrite <- app_assoc.
Qed.

Lemma try_send_accepted {A} (ch : Chan A) m o ch' :
  try_send ch m = (o, ch') →
  ch_accepted ch' = ch_accepted ch ++ match o with Sent => [m] | _ => [] end.
Proof.
  destruct ch as [cap len acc [|[q|] s]]; unfold try_send; simpl; intros Hs;
    repeat case_match; simplify_eq/=; by rewrite ?app_nil_r.
Qed.

Section Deliver.
Context (selector_matches : list Expression → gmap string string → bool).

Definition allowed_frames (f : SubscribeFilter) (fs : list Frame) : list ConfigEvent :=
  fr_event <$> filter (λ fr, allows selector_matches f (fr_event fr) (fr_labels fr) = true) fs.

Lemma allowed_frames_cons f fr fs :
  allowed_frames f (fr :: fs) =
    if allows selector_matches f (fr_event fr) (fr_labels fr)
    then fr_event fr :: allowed_frames f fs else allowed_frames f fs.
Proof.
  unfold allowed_frames. rewrite filter_cons. case_decide as Ha.
  - by rewrite Ha.
  - by destruct (allows _ f _ _).
Qed.

Lemma bridge_room f fs ch :
  ch_sched ch = [] → (ch_len ch + length (allowed_frames f fs) ≤ ch_cap ch)%nat →
  ch_accepted (bridge_broadcast selector_matches f (BRecv <$> fs) ch) =
    ch_accepted ch ++ (Ok <$> allowed_frames f fs).
Proof.
  revert ch; induction fs as [|fr fs IH]; intros [cap len acc sched] Hs Hr; simpl in Hs, Hr |- *; subst sched.
  { by rewrite app_nil_r. }
  rewrite allowed_frames_cons in Hr |- *.
  destruct (allows selector_matches f (fr_event fr) (fr_labels fr)) eqn:Ha; simpl.
  - simpl in Hr. unfold try_send; simpl. rewrite Nat.sub_0_r.
    destruct (Nat.leb_spec cap len); [lia|]. rewrite IH; simpl; [|done|lia].
    by rewrite <- app_assoc.
  - by rewrite IH.
Qed.

(** The frames of the inputs before the first terminal one. *)
Fixpoint live_frames (ins : list BridgeInput) : list Frame :=
  match ins with BRecv fr :: rest => fr :: live_frames rest | _ => [] end.

(** The bridge delivers a prefix of the allowed frames, in order, possibly
    followed by one refusal. *)
Lemma bridge_prefix f ins ch :
  ∃ k tl, ch_accepted (bridge_broadcast selector_matches f ins ch) =
            ch_accepted ch ++ (Ok <$> take k (allowed_frames f (live_frames ins))) ++ tl ∧
          (tl = [] ∨ tl = [Err too_slow] ∨ tl = [Err lagged]).
Proof.
  assert (Hnil : ∀ ch (e : Status), (e = too_slow ∨ e = lagged) →
    ∀ fs : list ConfigEvent, ∃ k tl,
    ch_accepted (try_send ch (Err e)).2 = ch_accepted ch ++ (Ok <$> take k fs) ++ tl ∧
    (tl = [] ∨ tl = [Err too_slow] ∨ tl = [Err lagged])).
  { intros ch' e He fs. exists 0%nat. simpl.
    destruct (try_send ch' (Err e)) as [o ch''] eqn:Hs. simpl. rewrite (try_send_accepted _ _ _ _ Hs).
    eexists; split; [done|]. destruct o, He as [-> | ->]; auto. }
  revert ch; induction ins as [|[|fr|m|] ins IH]; intros ch; simpl.
  - exists 0%nat, []. simpl. by rewrite app_nil_r; auto.
  - exists 0%nat, []. simpl. by rewrite app_nil_r; auto.
  - rewrite allowed_frames_cons.
    destruct (allows selector_matches f (fr_event fr) (fr_labels fr)) eqn:Ha; simpl.
    + destruct (try_send ch (Ok (fr_event fr))) as [[] ch'] eqn:Hs.
      * destruct (IH ch') as (k & tl & Heq & Htl). exists (S k), tl. split; [|done].
        rewrite Heq, (try_send_accepted _ _ _ _ Hs). simpl. by rewrite <- app_assoc.
      * rewrite <- (app_nil_r (ch_accepted ch)). rewrite <- (try_send_accepted _ _ _ _ Hs). by apply Hnil; left.
      * exists 0%nat, []. simpl. by rewrite (try_send_accepted _ _ _ _ Hs); auto.
    + apply IH.
  - apply (Hnil ch lagged); auto.
  - exists 0%nat, []. simpl. by rewrite app_nil_r; auto.
Qed.
End Deliver.

(** Any channel: what is accepted is a prefix, then at most one refusal. *)
Definition refusal (tl : list Msg) : Prop := tl = [] ∨ tl = [Err too_slow] ∨ tl = [Err lagged].

Lemma send_events_prefix evs ch :
  match send_events ch evs with
  | (false, ch') => ch_accepted ch' = ch_accepted ch ++ (Ok <$> evs)
  | (true, ch') => ∃ k tl, ch_accepted ch' = ch_accepted ch ++ (Ok <$> take k evs) ++ tl ∧ refusal tl
  end.
Proof.
  revert ch; induction evs as [|ev evs IH]; intros ch; simpl; [by rewrite app_nil_r|].
  unfold try_send_or_disconnect.
  destruct (try_send ch (Ok ev)) as [[] ch'] eqn:Hs; apply try_send_accepted in Hs.
  - specialize (IH ch'). destruct (send_events ch' evs) as [[] ch''].
    + destruct IH as (k & tl & -> & Htl). exists (S k), tl. rewrite Hs, <- app_assoc. done.
    + rewrite IH, Hs, <- app_assoc. done.
  - destruct (try_send ch' (Err too_slow)) as [o ch''] eqn:Ht; apply try_send_accepted in Ht. simpl.
    exists 0%nat. eexists. rewrite Ht, Hs, app_nil_r. split; [done|]. destruct o; unfold refusal; auto.
  - exists 0%nat, []. rewrite Hs. split; [done|]. by left.
Qed.

Lemma take_min_app {A} (l l' : list A) k : take (Nat.min k (length l)) (l ++ l') = take k l.
Proof. rewrite take_app_le by lia. by rewrite <- take_take, (take_ge l (length l)). Qed.

(** ** The buffer holds the most recent events *)
Definition Push : Type := string * ConfigEvent * gmap string string.

Definition push_all (ps : list Push) (buf : list ReplayEntry) : list ReplayEntry :=
  foldl (λ b p, push_replay b p.1.1 p.1.2 p.2) buf ps.

(** The entry a push stands for, when its resource version is numeric. *)
Definition entry_of (p : Push) : option ReplayEntry :=
  (λ n, mkReplayEntry p.1.1 n p.1.2 p.2) <$> parse_u64 p.1.1.

Definition newest {A} (n : nat) (l : list A) : list A := drop (length l - n) l.

Lemma newest_snoc {A} n (l : list A) x :
  (1 ≤ n)%nat →
  newest n (l ++ [x]) =
    (if bool_decide (n ≤ length (newest n l))%nat then tail (newest n l) else newest n l) ++ [x].
Proof.
  intros Hn. unfold newest. rewrite length_app, length_drop. simpl.
  case_bool_decide.
  - rewrite drop_app_le by lia. f_equal.
    replace (length l + 1 - n)%nat with (S (length l - n))%nat by lia.
    destruct (drop (length l - n) l) as [|y ys] eqn:Hd.
    + apply (f_equal length) in Hd. rewrite length_drop in Hd. simpl in Hd. lia.
    + simpl. change (S (length l - n)) with (1 + (length l - n))%nat.
      rewrite Nat.add_comm, <- drop_drop, Hd. done.
  - replace (length l - n)%nat with 0%nat by lia. replace (length l + 1 - n)%nat with 0%nat by lia. done.
Qed.

Lemma push_all_newest ps :
  push_all ps [] = newest REPLAY_BUFFER_SIZE (omap entry_of ps).
Proof.
  induction ps as [|p ps IH] using rev_ind; [done|].
  unfold push_all in *. rewrite foldl_app, IH, omap_app. simpl.
  assert (He : entry_of p = (λ n, mkReplayEntry p.1.1 n p.1.2 p.2) <$> parse_u64 p.1.1) by done.
  unfold push_replay at 1. rewrite He. destruct (parse_u64 p.1.1) as [n|]; simpl.
  - symmetry. apply newest_snoc. apply Nat.leb_le. by vm_compute.
  - by rewrite app_nil_r.
Qed.

(** C28: after any sequence of pushes the replay buffer holds exactly the 1000
    most recent events with a numeric resource version, in order.  A position the
    binary search of a resume returns, wherever the ring wraps, always holds the
    version asked for; when the buffered versions increase, a version is found
    iff it is in the buffer; when they do not (a relist pushes objects in list
    order), a buffered version may be missed: 50 in the buffer 50, 10. *)
Theorem replay_buffer_exact ps :
  let buf := push_all ps [] in
  buf = newest REPLAY_BUFFER_SIZE (omap entry_of ps) ∧
  (length buf ≤ REPLAY_BUFFER_SIZE)%nat ∧
  (∀ wrap n i, deque_binary_search wrap (re_rv <$> buf) n = Some i → re_rv <$> buf !! i = Some n) ∧
  (strictly_sorted (re_rv <$> buf) →
   ∀ wrap n i, deque_binary_search wrap (re_rv <$> buf) n = Some i ↔ re_rv <$> buf !! i = Some n) ∧
  (∀ ev labels, let old := push_all [("50"%string, ev, labels); ("10"%string, ev, labels)] [] in
     re_rv <$> old = [50; 10] ∧ deque_binary_search 2 (re_rv <$> old) 50 = None).
Proof.
  intros buf. split_and!.
  - apply push_all_newest.
  - subst buf. rewrite push_all_newest. unfold newest. rewrite length_drop. lia.
  - intros wrap n i Hi%deque_binary_search_sound. by rewrite <- list_lookup_fmap.
  - intros Hs wrap n i. by rewrite deque_binary_search_spec, list_lookup_fmap.
  - intros ev labels. by vm_compute.
Qed.

(** ** Resuming *)
Section ResumeFacts.
Context (to_string : json → option string).
Context (selector_matches : list Expression → gmap string string → bool).
Context `{!MapIter OwnedKey ConfigSnapshot}.

#[local] Abbreviation allowed_entries := (allowed_entries selector_matches).
#[local] Abbreviation allowed_frames := (allowed_frames selector_matches).
#[local] Abbreviation resume_from_buffer := (resume_from_buffer to_string selector_matches).
#[local] Abbreviation snapshot_events := (snapshot_events to_string selector_matches).
#[local] Abbreviation resume_events := (resume_events to_string selector_matches).

Lemma resume_from_buffer_room f wrap now cache ns rv buf1 buf2 live ch :
  ch_sched ch = [] →
  let '(a, b) := resume_events f wrap now cache ns rv buf1 buf2 in
  (ch_len ch + length a + length b + length (allowed_frames f live) ≤ ch_cap ch)%nat →
  ch_accepted (resume_from_buffer f wrap now cache ns rv buf1 buf2 (BRecv <$> live) ch) =
    ch_accepted ch ++ (Ok <$> a ++ b ++ allowed_frames f live).
Proof.
  intros Hs. unfold Subscribe.resume_from_buffer.
  destruct (resume_events f wrap now cache ns rv buf1 buf2) as [a b]. intros Hr.
  rewrite send_events_room by (done || lia). simpl.
  rewrite send_events_room by (simpl; done || lia). simpl.
  rewrite bridge_room by (simpl; done || lia). simpl.
  by rewrite !fmap_app, <- !app_assoc.
Qed.

(** Without room: a prefix of the same events, then at most one refusal. *)
Lemma resume_from_buffer_prefix f wrap now cache ns rv buf1 buf2 live ch :
  let '(a, b) := resume_events f wrap now cache ns rv buf1 buf2 in
  ∃ k tl, ch_accepted (resume_from_buffer f wrap now cache ns rv buf1 buf2 live ch) =
            ch_accepted ch ++ (Ok <$> take k (a ++ b ++ allowed_frames f (live_frames live))) ++ tl
          ∧ refusal tl.
Proof.
  unfold Subscribe.resume_from_buffer.
  destruct (resume_events f wrap now cache ns rv buf1 buf2) as [a b].
  pose proof (send_events_prefix a ch) as Ha.
  destruct (send_events ch a) as [[] ch1].
  { destruct Ha as (k & tl & -> & Htl). exists (Nat.min k (length a)), tl. by rewrite take_min_app. }
  pose proof (send_events_prefix b ch1) as Hb.
  destruct (send_events ch1 b) as [[] ch2].
  { destruct Hb as (k & tl & -> & Htl). exists (length a + Nat.min k (length b))%nat, tl.
    rewrite take_app_add, take_min_app, Ha, fmap_app, <- !app_assoc. done. }
  destruct (bridge_prefix selector_matches f live ch2) as (k & tl & -> & Htl).
  exists (length a + (length b + k))%nat, tl. split; [|done].
  by rewrite Hb, Ha, !take_app_add, !fmap_app, <- !app_assoc.
Qed.

Lemma live_frames_recv fs : live_frames (BRecv <$> fs) = fs.
Proof. induction fs as [|x fs IH]; [done|]. csimpl. by rewrite IH. Qed.

(** The frame the pump broadcast together with an entry. *)
Definition frame_of (e : ReplayEntry) : Frame := mkFrame 0 (re_event e) (re_labels e).

Lemma allowed_frame_of f es : allowed_frames f (frame_of <$> es) = allowed_entries f es.
Proof.
  unfold Subscribe.allowed_entries. induction es as [|e es IH]; [done|].
  change (frame_of <$> e :: es) with (frame_of e :: (frame_of <$> es)).
  rewrite allowed_frames_cons, filter_cons, IH. simpl.
  case_decide as Ha; [by rewrite Ha|]. by destruct (allows _ f _ _).
Qed.

Lemma elem_of_allowed_entries f es e :
  e ∈ es → allows selector_matches f (re_event e) (re_labels e) = true →
  re_event e ∈ allowed_entries f es.
Proof. intros He Ha. apply list_elem_of_fmap. exists e. split; [done|]. by apply list_elem_of_filter. Qed.

Lemma elem_of_drop_lookup {A} (l : list A) s k x : l !! k = Some x → (s ≤ k)%nat → x ∈ drop s l.
Proof.
  intros Hx Hk. apply list_elem_of_lookup. exists (k - s)%nat.
  rewrite lookup_drop. by replace (s + (k - s))%nat with k by lia.
Qed.

(** C9: resuming from a version that is still buffered loses nothing silently.
    [E] is everything the namespace ever broadcast; the subscriber attached after
    [s] of them, then read the buffer after [t]; it resumes from the version at
    position [j], which is buffered.  When the buffered versions increase (no
    relist put them out of order, see [relist_order_resume_gap]) the stream owes
    the client the allowed events after [j] up to [t], then the allowed live ones
    from [s] on, which is every allowed event after [j], each run in order.  At
    any speed of the client it gets a prefix of that, then at most one refusal;
    with room for all of it in the channel it gets exactly that. *)
Theorem resume_hit_no_gap f wrap now cache ns rv E s t j e0 buf2 ch :
  let buf := newest REPLAY_BUFFER_SIZE (take t E) in
  strictly_sorted (re_rv <$> buf) →
  (s ≤ t ≤ length E)%nat →
  (t - REPLAY_BUFFER_SIZE ≤ j < t)%nat →
  E !! j = Some e0 → parse_resume rv = Some (re_rv e0) →
  let owed := allowed_entries f (drop (S j) (take t E)) ++ allowed_entries f (drop s E) in
  let got := ch_accepted (resume_from_buffer f wrap now cache ns rv buf buf2
                            (BRecv <$> (frame_of <$> drop s E)) ch) in
  (∃ k tl, got = ch_accepted ch ++ (Ok <$> take k owed) ++ tl ∧ refusal tl) ∧
  (ch_sched ch = [] → (ch_len ch + length owed ≤ ch_cap ch)%nat →
     got = ch_accepted ch ++ (Ok <$> owed)) ∧
  ∀ k e, (j < k)%nat → E !! k = Some e →
    allows selector_matches f (re_event e) (re_labels e) = true → re_event e ∈ owed.
Proof.
  intros buf Hs Hst Hj He0 Hrv owed got.
  set (lo := (t - REPLAY_BUFFER_SIZE)%nat).
  assert (Hnew : buf = drop lo (take t E)).
  { unfold buf, newest. by rewrite length_take, Nat.min_l by lia. }
  assert (Hlk : resume_lookup wrap buf rv = Some (j - lo)%nat).
  { unfold resume_lookup. rewrite Hrv. simpl. apply deque_binary_search_spec; [done|].
    rewrite Hnew, list_lookup_fmap, lookup_drop. replace (lo + (j - lo))%nat with j by lia.
    rewrite lookup_take_lt by lia. by rewrite He0. }
  assert (Hev : resume_events f wrap now cache ns rv buf buf2 =
                  ([], allowed_entries f (drop (S j) (take t E)))).
  { unfold Subscribe.resume_events. rewrite Hlk, Hnew, drop_drop.
    by replace (lo + S (j - lo))%nat with (S j) by lia. }
  split_and!.
  - pose proof (resume_from_buffer_prefix f wrap now cache ns rv buf buf2
                  (BRecv <$> (frame_of <$> drop s E)) ch) as Hp.
    by rewrite Hev, live_frames_recv, allowed_frame_of in Hp.
  - intros Hsched Hroom. unfold owed in Hroom. rewrite length_app in Hroom.
    pose proof (resume_from_buffer_room f wrap now cache ns rv buf buf2
                  (frame_of <$> drop s E) ch Hsched) as Hgo.
    rewrite Hev, allowed_frame_of in Hgo. apply Hgo. simpl. lia.
  - intros k e Hk He Ha. apply elem_of_app. destruct (decide (k < t)%nat) as [Hkt|Hkt].
    + left. apply elem_of_allowed_entries; [|done].
      apply (elem_of_drop_lookup _ _ k); [by rewrite lookup_take_lt|lia].
    + right. apply elem_of_allowed_entries; [|done]. by apply (elem_of_drop_lookup E s k); [|lia].
Qed.

End ResumeFacts.

(** ** Fan-out *)
#[local] Opaque BROADCAST_CAPACITY.

(** How often a receiver is attached. *)
Definition attached (rx : nat) (s : ShardSet) : nat :=
  length (filter (λ r, r = rx) (concat (sh_shards s))).

Lemma attached_0 rx s : attached rx s = 0%nat ↔ rx ∉ concat (sh_shards s).
Proof.
  unfold attached. rewrite length_zero_iff_nil. split.
  - intros Hf Hin. by eapply filter_nil_not_elem_of.
  - intros Hn. induction (concat (sh_shards s)) as [|r l IH]; [done|].
    rewrite filter_cons, decide_False by (intros ->; apply Hn; by left). apply IH. set_solver.
Qed.

Lemma shard_send_view f rxs q rx :
  default rx_new ((shard_send f rxs q).2 !! rx) =
    Nat.iter (length (filter (λ r, r = rx) rxs)) (rx_push f) (default rx_new (q !! rx)).
Proof.
  unfold shard_send; simpl. revert q; induction rxs as [|r rxs IH]; intros q; simpl; [done|].
  rewrite IH, filter_cons. case_decide as Hr.
  - subst r. rewrite lookup_insert_eq. simpl. by rewrite <- Nat.iter_succ_r.
  - by rewrite lookup_insert_ne.
Qed.

Lemma send_to_all_view s f q rx :
  default rx_new ((send_to_all s f q).2 !! rx) =
    Nat.iter (attached rx s) (rx_push f) (default rx_new (q !! rx)).
Proof.
  unfold send_to_all, attached. generalize false as b. generalize (sh_shards s) as ss. intros ss; revert q.
  induction ss as [|rxs ss IH]; intros q b; simpl; [done|].
  rewrite (IH (shard_send f rxs q).2), shard_send_view, filter_app, length_app.
  by rewrite Nat.add_comm, Nat.iter_add.
Qed.

Lemma send_to_all_other s f q rx :
  rx ∉ concat (sh_shards s) → (send_to_all s f q).2 !! rx = q !! rx.
Proof.
  unfold send_to_all. generalize false as b. generalize (sh_shards s) as ss. intros ss; revert q.
  induction ss as [|rxs ss IH]; intros q b Hn; simpl in *; [done|].
  rewrite not_elem_of_app in Hn. destruct Hn as [Hr Hn]. rewrite IH by done.
  unfold shard_send; simpl. clear IH Hn. revert q; induction rxs as [|r rxs IH]; intros q; simpl; [done|].
  apply not_elem_of_cons in Hr as [Hne Hr]. by rewrite IH, lookup_insert_ne.
Qed.

Lemma next_receiver_attaches s rx :
  sh_shards s ≠ [] →
  concat (sh_shards (next_receiver s rx).2) ≡ₚ rx :: concat (sh_shards s).
Proof.
  intros Hne. unfold next_receiver; simpl.
  set (i := Z.to_nat _).
  assert (Hi : (i < length (sh_shards s))%nat).
  { assert (0 < Z.of_nat (length (sh_shards s))) by (destruct (sh_shards s); simpl; [done|lia]).
    pose proof (Z.mod_pos_bound (sh_next s) (Z.of_nat (length (sh_shards s)))). lia. }
  clearbody i. revert i Hi. generalize (sh_shards s) as ss. intros ss.
  induction ss as [|x ss IH]; intros [|i] Hi; simpl in Hi; [lia|lia| |].
  - simpl. rewrite <- app_assoc. symmetry. apply Permutation_middle.
  - change (x ++ concat (alter (λ l, l ++ [rx]) i ss) ≡ₚ rx :: x ++ concat ss).
    rewrite IH by lia. symmetry. apply Permutation_middle.
Qed.

Lemma attached_attach rx r s :
  sh_shards s ≠ [] →
  attached rx (next_receiver s r).2 = ((if decide (r = rx) then 1 else 0) + attached rx s)%nat.
Proof.
  intros Hne. unfold attached. rewrite (next_receiver_attaches s r Hne), filter_cons.
  by case_decide.
Qed.

Lemma attached_drop rx r s :
  attached rx (drop_receiver r s) = if decide (r = rx) then 0%nat else attached rx s.
Proof.
  unfold attached, drop_receiver; simpl. induction (sh_shards s) as [|rxs ss IH]; csimpl; [by case_decide|].
  rewrite !filter_app, !length_app, IH, list_filter_filter. case_decide as Hr.
  - subst r. rewrite Nat.add_0_r. rewrite (filter_ext_elem _ (λ _, False)) by naive_solver.
    induction rxs as [|x rxs IHr]; [done|]. by rewrite filter_cons, decide_False by tauto.
  - f_equal. f_equal. apply filter_ext_elem. naive_solver.
Qed.

Lemma fan_step_shards op s q : sh_shards s ≠ [] → sh_shards (fan_step op s q).1.2 ≠ [].
Proof.
  intros Hne Hnil. apply (f_equal length) in Hnil. apply Hne, length_zero_iff_nil.
  destruct op; simpl in Hnil; try done.
  - by rewrite length_alter in Hnil.
  - by rewrite length_fmap in Hnil.
  - destruct (q !! rx ≫= rx_recv) as [[]|]; done.
Qed.

(** The frames broadcast, and what one receiver was given. *)
Definition sent (ops : list FanOp) : list Frame :=
  omap (λ op, match op with FSend f => Some f | _ => None end) ops.
Definition received_by (rx : nat) (outs : list (nat * BridgeInput)) : list BridgeInput :=
  snd <$> filter (λ o, o.1 = rx) outs.

Lemma sent_cons op ops : sent (op :: ops) = sent [op] ++ sent ops.
Proof. by destruct op. Qed.

(** The answers of a receiver account for a sequence of frames: each is one
    frame, or the exact length of a stretch it did not get. *)
Inductive told : list BridgeInput → list Frame → Prop :=
  | told_nil : told [] []
  | told_recv f outs fs : told outs fs → told (BRecv f :: outs) (f :: fs)
  | told_lag gap outs fs :
      gap ≠ [] → told outs fs → told (BLagged (Z.of_nat (length gap)) :: outs) (gap ++ fs).

(** Never more than the ring behind: the frames sent and not yet received. *)
Fixpoint keeps_up (rx behind : nat) (ops : list FanOp) : bool :=
  match ops with
  | [] => true
  | FSend _ :: rest => (behind <? BROADCAST_CAPACITY)%nat && keeps_up rx (S behind) rest
  | FRecv r :: rest => keeps_up rx (if decide (r = rx) then pred behind else behind) rest
  | _ :: rest => keeps_up rx behind rest
  end.

(** Operations that neither attach nor drop a receiver. *)
Definition leaves (rx : nat) (op : FanOp) : Prop := op ≠ FAttach rx ∧ op ≠ FDrop rx.

Definition view (rx : nat) (q : gmap nat Receiver) : Receiver := default rx_new (q !! rx).

(** One operation, seen from a receiver attached once. *)
Lemma fan_step_view rx op s q :
  sh_shards s ≠ [] → attached rx s = 1%nat → leaves rx op →
  let '(o, s', q') := fan_step op s q in
  attached rx s' = 1%nat ∧
  match op with
  | FSend f => o = None ∧ view rx q' = rx_push f (view rx q)
  | FRecv r =>
      if decide (r = rx) then
        match rx_recv (view rx q) with
        | Some (out, r') => o = Some (rx, out) ∧ view rx q' = r'
        | None => o = None ∧ view rx q' = view rx q
        end
      else received_by rx (option_list o) = [] ∧ view rx q' = view rx q
  | _ => o = None ∧ view rx q' = view rx q
  end.
Proof.
  intros Hne Ha [Hat Hdr]. unfold view. destruct op as [r|r|f|r]; cbv beta iota delta [fan_step].
  - assert (r ≠ rx) by congruence. rewrite attached_attach, decide_False by done. split; [done|].
    by rewrite lookup_insert_ne.
  - assert (r ≠ rx) by congruence. rewrite attached_drop, decide_False by done. split; [done|].
    by rewrite lookup_delete_ne.
  - split; [done|]. by rewrite send_to_all_view, Ha.
  - case_decide as Hr.
    + subst r. destruct (q !! rx) as [v|] eqn:Hq; simpl; [|by rewrite Hq].
      destruct (rx_recv v) as [[out r']|]; simpl; [|by rewrite Hq]. by rewrite lookup_insert_eq.
    + destruct (q !! r ≫= rx_recv) as [[out r']|]; simpl; [|done].
      rewrite lookup_insert_ne by done. unfold received_by. simpl.
      by rewrite filter_cons, decide_False.
Qed.

Lemma received_by_app rx l l' : received_by rx (l ++ l') = received_by rx l ++ received_by rx l'.
Proof. unfold received_by. by rewrite filter_app, fmap_app. Qed.

Lemma received_by_one rx o : received_by rx [(rx, o)] = [o].
Proof. unfold received_by. by rewrite filter_cons, decide_True. Qed.

(** A receiver's ring: full whenever something was overwritten. *)
Definition rx_ok (gap : list Frame) (r : Receiver) : Prop :=
  rx_missed r = Z.of_nat (length gap) ∧ (length (rx_pending r) ≤ BROADCAST_CAPACITY)%nat ∧
  (gap ≠ [] → length (rx_pending r) = BROADCAST_CAPACITY).

Lemma capacity_pos : (0 < BROADCAST_CAPACITY)%nat.
Proof. apply Nat.ltb_lt. by vm_compute. Qed.

Lemma rx_push_ok gap r f :
  rx_ok gap r →
  ∃ gap', rx_ok gap' (rx_push f r) ∧ gap' ++ rx_pending (rx_push f r) = gap ++ rx_pending r ++ [f].
Proof.
  intros (Hm & Hle & Hfull). unfold rx_push. pose proof capacity_pos.
  destruct (Nat.ltb_spec (length (rx_pending r)) BROADCAST_CAPACITY) as [Hlt|Hge].
  - exists gap. split; [|done]. split_and!; simpl; [done|rewrite length_app; simpl; lia|].
    intros Hg. specialize (Hfull Hg). lia.
  - destruct r as [m [|x rest]]; simpl in *; [lia|]. exists (gap ++ [x]).
    split; [|by rewrite <- app_assoc]. split_and!; simpl; rewrite ?length_app; simpl; lia.
Qed.

Lemma rx_recv_ok gap r o r' :
  rx_ok gap r → rx_recv r = Some (o, r') →
  ∃ got, told [o] got ∧ rx_ok [] r' ∧ gap ++ rx_pending r = got ++ rx_pending r'.
Proof.
  intros (Hm & Hle & Hfull). unfold rx_recv. destruct (Z.ltb_spec 0 (rx_missed r)) as [Hpos|Hneg].
  - intros [= <- <-]. exists gap. split_and!; [|split_and!; simpl; [done|done|done]|done].
    pose proof (told_lag gap [] []) as Ht. rewrite app_nil_r, <- Hm in Ht. apply Ht; [|constructor].
    intros ->. simpl in Hm. lia.
  - assert (gap = []) as -> by (destruct gap; simpl in *; [done|lia]).
    destruct r as [m [|f rest]]; simpl in *; [done|]. intros [= <- <-]. exists [f].
    split_and!; [repeat constructor| |done]. split_and!; simpl; [done|lia|done].
Qed.

Lemma told_app o l fs fs' : told o fs → told l fs' → told (o ++ l) (fs ++ fs').
Proof. induction 1; intros Hl; simpl; [done|by constructor; auto|]. rewrite <- app_assoc. constructor; auto. Qed.

(** What a receiver was given, what it missed since and what it has yet to read
    are together what was sent. *)
Lemma fan_run_accounted rx ops s q gap :
  sh_shards s ≠ [] → attached rx s = 1%nat → Forall (leaves rx) ops → rx_ok gap (view rx q) →
  let '(outs, _, q') := fan_run ops s q in
  ∃ read gap', told (received_by rx outs) read ∧ rx_ok gap' (view rx q') ∧
    gap ++ rx_pending (view rx q) ++ sent ops = read ++ gap' ++ rx_pending (view rx q').
Proof.
  revert s q gap; induction ops as [|op ops IH]; intros s q gap Hne Ha Hl Hok; cbn [fan_run].
  { exists [], gap. split_and!; [constructor|done|]. simpl. by rewrite app_nil_r. }
  apply Forall_cons in Hl as [Hop Hl].
  pose proof (fan_step_view rx op s q Hne Ha Hop) as Hst. pose proof (fan_step_shards op s q Hne) as Hne'.
  destruct (fan_step op s q) as [[o s1] q1]. destruct Hst as [Ha1 Hst]. simpl in Hne'.
  (* what this operation gave the receiver *)
  assert (∃ got gap1, told (received_by rx (option_list o)) got ∧ rx_ok gap1 (view rx q1) ∧
    gap ++ rx_pending (view rx q) ++ sent [op] = got ++ gap1 ++ rx_pending (view rx q1)) as (got & gap1 & Ht & Hok1 & Heq).
  { destruct op as [r|r|f|r]; simpl in *.
    - destruct Hst as [-> ->]. exists [], gap. split_and!; [constructor|done|by rewrite app_nil_r].
    - destruct Hst as [-> ->]. exists [], gap. split_and!; [constructor|done|by rewrite app_nil_r].
    - destruct Hst as [-> ->]. destruct (rx_push_ok gap _ f Hok) as (gap1 & ? & ?). exists [], gap1.
      split_and!; [constructor|done|done].
    - destruct (decide (r = rx)) as [->|Hr].
      + destruct (rx_recv (view rx q)) as [[out r']|] eqn:Hrecv.
        * destruct Hst as [-> ->]. destruct (rx_recv_ok _ _ _ _ Hok Hrecv) as (got & ? & ? & Heq).
          exists got, []. simpl. rewrite received_by_one, app_nil_r. by split_and!.
        * destruct Hst as [-> ->]. exists [], gap. split_and!; [constructor|done|by rewrite app_nil_r].
      + destruct Hst as [-> ->]. exists [], gap. split_and!; [constructor|done|by rewrite app_nil_r]. }
  specialize (IH s1 q1 gap1 Hne' Ha1 Hl Hok1). destruct (fan_run ops s1 q1) as [[outs s2] q2].
  destruct IH as (read & gap2 & Htold & Hok2 & Hsent). exists (got ++ read), gap2.
  rewrite received_by_app. split_and!; [by apply told_app|done|].
  rewrite sent_cons, <- app_assoc, <- Hsent.
  rewrite !app_assoc in *. by rewrite Heq.
Qed.

(** A receiver that keeps up misses nothing. *)
Lemma fan_run_keeps_up rx ops s q :
  sh_shards s ≠ [] → attached rx s = 1%nat → Forall (leaves rx) ops → rx_missed (view rx q) = 0 →
  keeps_up rx (length (rx_pending (view rx q))) ops = true →
  let '(outs, _, q') := fan_run ops s q in
  rx_missed (view rx q') = 0 ∧
  ∃ read, received_by rx outs = BRecv <$> read ∧ rx_pending (view rx q) ++ sent ops = read ++ rx_pending (view rx q').
Proof.
  revert s q; induction ops as [|op ops IH]; intros s q Hne Ha Hl Hm Hk; cbn [fan_run].
  { split; [done|]. exists []. simpl. by rewrite app_nil_r. }
  apply Forall_cons in Hl as [Hop Hl].
  pose proof (fan_step_view rx op s q Hne Ha Hop) as Hst. pose proof (fan_step_shards op s q Hne) as Hne'.
  destruct (fan_step op s q) as [[o s1] q1]. destruct Hst as [Ha1 Hst]. simpl in Hne'.
  assert (∃ got, received_by rx (option_list o) = BRecv <$> got ∧ rx_missed (view rx q1) = 0 ∧
    rx_pending (view rx q) ++ sent [op] = got ++ rx_pending (view rx q1) ∧
    keeps_up rx (length (rx_pending (view rx q1))) ops = true) as (got & Hr & Hm1 & Heq & Hk1).
  { destruct op as [r|r|f|r]; simpl in *.
    - destruct Hst as [-> ->]. exists []. by rewrite app_nil_r.
    - destruct Hst as [-> ->]. exists []. by rewrite app_nil_r.
    - destruct Hst as [-> ->]. apply andb_prop in Hk as [Hlt Hk]. unfold rx_push. rewrite Hlt. simpl.
      exists []. rewrite length_app, Nat.add_1_r. by split_and!.
    - destruct (decide (r = rx)) as [->|Hr].
      + unfold rx_recv in Hst. rewrite Hm in Hst. simpl in Hst.
        destruct (rx_pending (view rx q)) as [|f rest] eqn:Hp; destruct Hst as [-> ->].
        * exists []. by rewrite Hp.
        * exists [f]. simpl. rewrite received_by_one, app_nil_r. by split_and!.
      + destruct Hst as [-> ->]. exists []. by rewrite app_nil_r. }
  specialize (IH s1 q1 Hne' Ha1 Hl Hm1 Hk1). destruct (fan_run ops s1 q1) as [[outs s2] q2].
  destruct IH as (Hm2 & read & Hrd & Hsent). split; [done|]. exists (got ++ read).
  rewrite received_by_app, Hr, Hrd, fmap_app. split; [done|].
  rewrite sent_cons, <- app_assoc, <- Hsent.
  by rewrite !app_assoc, Heq.
Qed.

(** Nobody else gets anything. *)
Lemma fan_run_other rx ops s q :
  sh_shards s ≠ [] → rx ∉ concat (sh_shards s) → q !! rx = None → Forall (λ op, op ≠ FAttach rx) ops →
  let '(outs, _, q') := fan_run ops s q in received_by rx outs = [] ∧ q' !! rx = None.
Proof.
  revert s q; induction ops as [|op ops IH]; intros s q Hne Hn Hq Hl; simpl; [done|].
  apply Forall_cons in Hl as [Hop Hl]. pose proof (fan_step_shards op s q Hne) as Hne'.
  assert (Hst : let '(o, s1, q1) := fan_step op s q in
    received_by rx (option_list o) = [] ∧ rx ∉ concat (sh_shards s1) ∧ q1 !! rx = None).
  { destruct op as [r|r|f|r]; cbv beta iota delta [fan_step].
    - assert (r ≠ rx) by congruence. rewrite <- attached_0, attached_attach, decide_False by done.
      by rewrite lookup_insert_ne, (proj2 (attached_0 rx s) Hn).
    - rewrite <- attached_0, attached_drop. rewrite (proj2 (attached_0 rx s) Hn).
      split_and!; [done|by case_decide|]. destruct (decide (r = rx)) as [->|]; [apply lookup_delete_eq|].
      by rewrite lookup_delete_ne.
    - by rewrite send_to_all_other.
    - destruct (decide (r = rx)) as [->|Hr]; [by rewrite Hq|].
      destruct (q !! r ≫= rx_recv) as [[out r']|]; simpl; [|done]. unfold received_by.
      by rewrite filter_cons, decide_False, lookup_insert_ne. }
  destruct (fan_step op s q) as [[o s1] q1]. destruct Hst as (Hr & Hn1 & Hq1). simpl in Hne'.
  specialize (IH s1 q1 Hne' Hn1 Hq1 Hl). destruct (fan_run ops s1 q1) as [[outs s2] q2].
  rewrite received_by_app, Hr. exact IH.
Qed.

(** C29: sharding is invisible and nothing is lost silently.  A receiver attaches
    to whichever shard the round-robin cursor gives it and the namespace goes on:
    frames are broadcast, other receivers attach, read and leave, this one reads
    when it can, in any order.  What its reads returned, a gap not yet reported
    and what it has yet to read are together exactly the frames broadcast since
    it attached, in order and once each: every answer is the next frame or, when
    the ring of [BROADCAST_CAPACITY] slots overwrote frames it had not read, the
    exact number of them; frames are overwritten only when that many are unread.
    A receiver that is never further behind than the ring gets every frame, in
    order, and no lag.  A receiver that is not attached gets nothing. *)
Theorem fanout_accounted s q rx ops :
  sh_shards s ≠ [] → rx ∉ concat (sh_shards s) → Forall (leaves rx) ops →
  let '(outs, _, q') := fan_run (FAttach rx :: ops) s q in
  let r := view rx q' in
  (∃ read gap, told (received_by rx outs) read ∧ sent ops = read ++ gap ++ rx_pending r ∧
     rx_missed r = Z.of_nat (length gap) ∧ (length (rx_pending r) ≤ BROADCAST_CAPACITY)%nat ∧
     (gap ≠ [] → length (rx_pending r) = BROADCAST_CAPACITY)) ∧
  (keeps_up rx 0 ops = true →
     rx_missed r = 0 ∧ ∃ read, received_by rx outs = BRecv <$> read ∧ sent ops = read ++ rx_pending r) ∧
  (∀ other, other ≠ rx → other ∉ concat (sh_shards s) → q !! other = None →
     Forall (λ op, op ≠ FAttach other) ops → received_by other outs = [] ∧ q' !! other = None).
Proof.
  intros Hne Hn Hl. set (s1 := (next_receiver s rx).2). set (q1 := <[rx := rx_new]> q).
  change (fan_run (FAttach rx :: ops) s q) with (let '(outs, s2, q2) := fan_run ops s1 q1 in (outs, s2, q2)).
  assert (Hne1 : sh_shards s1 ≠ []) by exact (fan_step_shards (FAttach rx) s q Hne).
  assert (Ha : ∀ r, attached r s1 = ((if decide (rx = r) then 1 else 0) + attached r s)%nat)
    by (intros r; by apply attached_attach).
  assert (Ha1 : attached rx s1 = 1%nat).
  { by rewrite Ha, decide_True, (proj2 (attached_0 rx s) Hn). }
  assert (Hv : view rx q1 = rx_new) by (unfold view, q1; by rewrite lookup_insert_eq).
  assert (Hok : rx_ok [] (view rx q1)) by (rewrite Hv; split_and!; simpl; [done|lia|done]).
  assert (Hq1 : ∀ o, o ≠ rx → q1 !! o = q !! o) by (intros o ?; unfold q1; by rewrite lookup_insert_ne).
  clearbody s1 q1.
  pose proof (fan_run_accounted rx ops s1 q1 [] Hne1 Ha1 Hl Hok) as H1.
  pose proof (fan_run_keeps_up rx ops s1 q1 Hne1 Ha1 Hl) as H2.
  pose proof (λ o, fan_run_other o ops s1 q1 Hne1) as H3.
  destruct (fan_run ops s1 q1) as [[outs s2] q2]. rewrite Hv in *. simpl in *. split_and!.
  - destruct H1 as (read & gap & Ht & (? & ? & ?) & Hs). exists read, gap. by split_and!.
  - intros Hk. by apply H2.
  - intros other Hno Hnc Hq Hops. apply H3; [|by rewrite Hq1|done].
    by rewrite <- attached_0, Ha, decide_False, (proj2 (attached_0 other s) Hnc).
Qed.

(** ** Coalescing *)
#[local] Opaque COALESCE_MAX_BATCH.

Lemma coalesce_max_pos : (length ([] : list Frame) < COALESCE_MAX_BATCH)%nat.
Proof. apply Nat.ltb_lt. by vm_compute. Qed.

Lemma pump_coalesced_equiv to_string ins batch buf :
  (length batch < COALESCE_MAX_BATCH)%nat →
  let '(bursts, b) := pump_coalesced to_string ins batch buf in
  let '(fs, b') := pump_immediate to_string (input_items ins) buf in
  concat bursts = batch ++ fs ∧ b = b' ∧ Forall (λ x, length x ≤ COALESCE_MAX_BATCH)%nat bursts.
Proof.
  revert batch buf; induction ins as [|[[now [ev|e]]|] ins IH]; intros batch buf Hb; simpl.
  - split_and!; [done..|]. constructor; [lia|done].
  - destruct (process_namespace_event to_string now ev buf) as [[fr|] buf']; [|by apply IH].
    destruct (Nat.leb_spec COALESCE_MAX_BATCH (length (batch ++ [fr]))) as [Hmax|Hmax].
    + specialize (IH [] buf' coalesce_max_pos).
      destruct (pump_coalesced _ ins [] buf') as [bs b], (pump_immediate _ (input_items ins) buf') as [fs b'].
      destruct IH as (Hc & -> & Hf). simpl in *. rewrite Hc, <- app_assoc. split_and!; [done..|].
      constructor; [|done]. rewrite length_app; simpl; lia.
    + specialize (IH (batch ++ [fr]) buf' Hmax).
      destruct (pump_coalesced _ ins _ buf') as [bs b], (pump_immediate _ (input_items ins) buf') as [fs b'].
      destruct IH as (Hc & -> & Hf). rewrite Hc, <- app_assoc. done.
  - split_and!; [done..|]. constructor; [lia|done].
  - case_bool_decide as Hn; [by apply IH|].
    specialize (IH [] buf coalesce_max_pos).
    destruct (pump_coalesced _ ins [] buf) as [bs b].
    change (input_items (CElapsed :: ins)) with (input_items ins).
    destruct (pump_immediate _ (input_items ins) buf) as [fs b'].
    destruct IH as (Hc & -> & Hf). simpl. rewrite Hc. split_and!; [done..|]. constructor; [lia|done].
Qed.

(** C30: coalescing only groups.  Whatever the interleaving of watch items and
    window deadlines, the coalesced pump dispatches the same frames in the same
    order and leaves the same replay buffer as the immediate pump on the same
    items, in bursts of at most 16; so the configured window changes nothing a
    subscriber sees but timing. *)
Theorem coalescing_transparent to_string ins buf :
  (let '(bursts, b) := pump_coalesced to_string ins [] buf in
   (concat bursts, b) = pump_immediate to_string (input_items ins) buf ∧
   Forall (λ x, length x ≤ COALESCE_MAX_BATCH)%nat bursts) ∧
  ∀ window, pump_subscribe_namespace_events to_string window ins buf = pump_immediate to_string (input_items ins) buf.
Proof.
  unfold pump_subscribe_namespace_events.
  pose proof (pump_coalesced_equiv to_string ins [] buf coalesce_max_pos) as H.
  destruct (pump_coalesced _ ins [] buf) as [bs b], (pump_immediate _ _ buf) as [fs b'].
  destruct H as (-> & -> & ?). split; [done|]. intros window. by destruct (window =? 0).
Qed.

(** ** The collector *)
Definition delete_all {A} (ks : list string) (m : gmap string A) : gmap string A :=
  foldl (λ m k, delete k m) m ks.

Lemma lookup_delete_all {A} ks (m : gmap string A) k :
  delete_all ks m !! k = if decide (k ∈ ks) then None else m !! k.
Proof.
  unfold delete_all. revert m; induction ks as [|k' ks IH]; intros m; simpl; [done|].
  rewrite IH. destruct (decide (k ∈ ks)); [by rewrite decide_True by set_solver|].
  destruct (decide (k = k')) as [->|]; [by rewrite lookup_delete_eq, decide_True by set_solver|].
  by rewrite lookup_delete_ne, decide_False by set_solver.
Qed.

(** Idle beyond the grace period, by the timers [idle]. *)
Definition expired (now clock : Instant) (idle : gmap string Instant) (ns : string) (s : ShardSet) : Prop :=
  total_receiver_count s = 0%nat ∧ GC_GRACE < Z.max (now - default clock (idle !! ns)) 0.

Lemma gc_scan_spec now clock l idle gc :
  NoDup l.*1 →
  let '(idle', gc') := foldl (λ acc kv, gc_scan_one now clock kv.1 kv.2 acc) (idle, gc) l in
  ∃ new, gc' = gc ++ new ∧ NoDup new ∧
    ∀ ns, ns ∈ new ↔ ∃ s, (ns, s) ∈ l ∧ expired now clock idle ns s.
Proof.
  revert idle gc; induction l as [|[k s] l IH]; intros idle gc Hnd; simpl.
  { exists []. rewrite app_nil_r. split_and!; [done|constructor|]. set_solver. }
  apply NoDup_cons in Hnd as [Hk Hnd].
  assert (Hother : ∀ ns s', (ns, s') ∈ l → ns ≠ k).
  { intros ns s' Hin ->. apply Hk. by apply (list_elem_of_fmap_2 fst) in Hin. }
  case_bool_decide as Hz.
  - destruct (foldl _ _ l) as [idle' gc'] eqn:Hf. specialize (IH (<[k:=default clock (idle !! k)]> idle)
      (if GC_GRACE <? Z.max (now - default clock (idle !! k)) 0 then gc ++ [k] else gc) Hnd).
    rewrite Hf in IH. destruct IH as (new & -> & Hn & Hiff).
    assert (Hexp : ∀ ns s', (ns, s') ∈ l → expired now clock (<[k:=default clock (idle !! k)]> idle) ns s' ↔
                            expired now clock idle ns s').
    { intros ns s' Hin. unfold expired. by rewrite lookup_insert_ne by (symmetry; eauto). }
    destruct (Z.ltb_spec GC_GRACE (Z.max (now - default clock (idle !! k)) 0)) as [Hg|Hg].
    + exists (k :: new). rewrite <- app_assoc. split_and!; [done| |].
      * apply NoDup_cons. split; [|done]. intros Hin. apply Hiff in Hin as (s' & Hin & _). by eapply Hother.
      * intros ns. rewrite elem_of_cons, Hiff. split.
        { intros [->|(s' & Hin & He)]; [exists s; split; [by left|done]|].
          exists s'. split; [by right|]. by apply Hexp. }
        intros (s' & [[= -> ->]|Hin]%elem_of_cons & He); [by left|right]. exists s'. by rewrite Hexp.
    + exists new. split_and!; [done..|]. intros ns. rewrite Hiff. split.
      * intros (s' & Hin & He). exists s'. split; [by right|]. by apply Hexp.
      * intros (s' & [[= -> ->]|Hin]%elem_of_cons & He); [destruct He; lia|]. exists s'. by rewrite Hexp.
  - destruct (foldl _ _ l) as [idle' gc'] eqn:Hf. specialize (IH (delete k idle) gc Hnd).
    rewrite Hf in IH. destruct IH as (new & -> & Hn & Hiff). exists new. split_and!; [done..|].
    intros ns. rewrite Hiff. unfold expired. split.
    + intros (s' & Hin & He). exists s'. split; [by right|]. by rewrite lookup_delete_ne in He by (symmetry; eauto).
    + intros (s' & [[= -> ->]|Hin]%elem_of_cons & He); [by destruct He|]. exists s'.
      by rewrite lookup_delete_ne by (symmetry; eauto).
Qed.

Lemma gc_collect_spec gc m ab :
  NoDup gc →
  (∀ ns, ns ∈ gc → ∃ s, nm_broadcasts m !! ns = Some s ∧ total_receiver_count s = 0%nat) →
  foldl (λ acc ns, gc_collect_one (acc.1, acc.2) ns) (m, ab) gc =
    (mkMaps (delete_all gc (nm_broadcasts m)) (delete_all gc (nm_replay m))
       (delete_all gc (nm_handles m)) (delete_all gc (nm_idle m)),
     ab ++ omap (λ ns, nm_handles m !! ns) gc).
Proof.
  revert m ab; induction gc as [|ns gc IH]; intros m ab Hnd Hz; simpl.
  { rewrite app_nil_r. by destruct m. }
  apply NoDup_cons in Hnd as [Hns Hnd].
  destruct (Hz ns) as (s & Hs & H0); [by left|]. rewrite Hs, bool_decide_true by done.
  rewrite IH; [|done|]; simpl.
  - f_equal. rewrite <- app_assoc. f_equal.
    assert (Hh : omap (λ x, delete ns (nm_handles m) !! x) gc = omap (λ x, nm_handles m !! x) gc).
    { clear -Hns. induction gc as [|x gc IH]; [done|]. simpl.
      rewrite lookup_delete_ne by set_solver. specialize (IH ltac:(set_solver)). unfold omap in IH. by rewrite IH. }
    rewrite Hh. by destruct (nm_handles m !! ns).
  - intros x Hx. rewrite lookup_delete_ne by set_solver. apply Hz. by right.
Qed.

(** a sweep without interference tears down exactly the namespaces that had
    no receiver for longer than the 30 s grace period: all four maps forget them
    together and their watcher tasks are aborted; every other namespace keeps its
    channel, its replay buffer and its task.  With interference, a namespace that
    has a receiver again when it is re-checked is never torn down. *)
Theorem gc_tick_exact `{!MapIter string ShardSet, !MapIterLaws string ShardSet} now clock m :
  (let '(m', aborted) := gc_tick now clock (λ _ m, m) m in
   ∀ ns,
    ((∃ s, nm_broadcasts m !! ns = Some s ∧ expired now clock (nm_idle m) ns s) →
     nm_broadcasts m' !! ns = None ∧ nm_replay m' !! ns = None ∧
     nm_handles m' !! ns = None ∧ nm_idle m' !! ns = None ∧
     ∀ h, nm_handles m !! ns = Some h → h ∈ aborted) ∧
    (¬ (∃ s, nm_broadcasts m !! ns = Some s ∧ expired now clock (nm_idle m) ns s) →
     nm_broadcasts m' !! ns = nm_broadcasts m !! ns ∧ nm_replay m' !! ns = nm_replay m !! ns ∧
     nm_handles m' !! ns = nm_handles m !! ns)) ∧
  (∀ m2 aborted ns s, nm_broadcasts m2 !! ns = Some s → total_receiver_count s ≠ 0%nat →
     gc_collect_one (m2, aborted) ns =
       (mkMaps (nm_broadcasts m2) (nm_replay m2) (nm_handles m2) (delete ns (nm_idle m2)), aborted)).
Proof.
  split; [|intros m2 ab ns s Hs Hn; simpl; by rewrite Hs, bool_decide_false].
  unfold gc_tick. pose proof (gc_scan_spec now clock (map_iter (nm_broadcasts m)) (nm_idle m) []) as Hscan.
  destruct (foldl _ _ (map_iter _)) as [idle gc].
  destruct Hscan as (new & -> & Hnd & Hiff).
  { rewrite map_iter_perm. apply NoDup_fst_map_to_list. }
  assert (Hin : ∀ ns, ns ∈ new ↔ ∃ s, nm_broadcasts m !! ns = Some s ∧ expired now clock (nm_idle m) ns s).
  { intros ns. rewrite Hiff. by setoid_rewrite map_iter_perm; setoid_rewrite elem_of_map_to_list. }
  simpl. rewrite gc_collect_spec; simpl; [|done|].
  2: { intros ns (s & Hs & Hz & _)%Hin. eauto. }
  intros ns. rewrite !lookup_delete_all. split.
  - intros Hd. apply Hin in Hd. rewrite !decide_True by done. split_and!; [done..|].
    intros h Hh. apply list_elem_of_omap. by exists ns.
  - intros Hd. rewrite <- Hin in Hd. by rewrite !decide_False.
Qed.

(** ** Any channel *)
Section Stream.
Context (to_string : json → option string).
Context (selector_matches : list Expression → gmap string string → bool).
Context `{!MapIter OwnedKey ConfigSnapshot}.

(** A client that takes nothing: every send after a full one is refused too. *)
Lemma stalled_no_too_slow_send evs ch :
  ch_sched ch = [] → Err too_slow ∉ ch_accepted ch →
  Err too_slow ∉ ch_accepted (send_events ch evs).2 ∧ ch_sched (send_events ch evs).2 = [].
Proof.
  revert ch; induction evs as [|ev evs IH]; intros [cap len acc sched] Hs Hn; simpl in *; subst; [done|].
  unfold try_send_or_disconnect, try_send; simpl. rewrite Nat.sub_0_r.
  destruct (cap <=? len)%nat eqn:Hf; simpl.
  - rewrite Nat.sub_0_r, Hf. done.
  - apply IH; [done|]. simpl. set_solver.
Qed.

Lemma stalled_no_too_slow_bridge f ins ch :
  ch_sched ch = [] → Err too_slow ∉ ch_accepted ch →
  Err too_slow ∉ ch_accepted (bridge_broadcast selector_matches f ins ch).
Proof.
  revert ch; induction ins as [|[|fr|m|] ins IH]; intros [cap len acc sched] Hs Hn; simpl in *; subst; try done.
  - destruct (negb _); [by apply IH|]. unfold try_send; simpl. rewrite Nat.sub_0_r.
    destruct (cap <=? len)%nat eqn:Hf; simpl.
    + rewrite Nat.sub_0_r, Hf. done.
    + apply IH; [done|]. simpl. set_solver.
  - unfold try_send; simpl. rewrite Nat.sub_0_r. destruct (cap <=? len)%nat; simpl; [done|]. set_solver.
Qed.

(** C10: whatever the speed of the client, what it receives is a prefix of the
    events it is owed (replayed or snapshot events, then the allowed live ones)
    in order, followed by at most one refusal.  And a client that stalls with a
    full channel is dropped without the refusal: the [ResourceExhausted] message
    is itself sent with [try_send] on the full channel. *)
Theorem subscriber_stream_prefix f wrap now cache ns rv buf1 buf2 live ch :
  (let '(a, b) := resume_events to_string selector_matches f wrap now cache ns rv buf1 buf2 in
   ∃ k tl, ch_accepted (resume_from_buffer to_string selector_matches f wrap now cache ns rv buf1 buf2 live ch) =
             ch_accepted ch ++ (Ok <$> take k (a ++ b ++ allowed_frames selector_matches f (live_frames live))) ++ tl
           ∧ refusal tl) ∧
  (ch_sched ch = [] → Err too_slow ∉ ch_accepted ch →
   Err too_slow ∉ ch_accepted
     (resume_from_buffer to_string selector_matches f wrap now cache ns rv buf1 buf2 live ch)).
Proof.
  split; [exact (resume_from_buffer_prefix to_string selector_matches f wrap now cache ns rv buf1 buf2 live ch)|].
  unfold resume_from_buffer.
  destruct (resume_events to_string selector_matches f wrap now cache ns rv buf1 buf2) as [a b].
  intros Hs Hn. destruct (stalled_no_too_slow_send a ch Hs Hn) as [Hn1 Hs1].
    destruct (send_events ch a) as [[] ch1]; [done|]. simpl in *.
    destruct (stalled_no_too_slow_send b ch1 Hs1 Hn1) as [Hn2 Hs2].
    destruct (send_events ch1 b) as [[] ch2]; [done|]. simpl in *. by apply stalled_no_too_slow_bridge.
Qed.

(** The buffer is searched as if sorted, but a relist delivers objects in
    list order, not version order.  When a relist brings a newer [a] before an
    older [b] and a client resumes from the version of [b], the search hits the
    last entry and nothing is replayed: the client is never told of [a]. *)
Theorem relist_order_resume_gap f now later cache ns a b sa sb ra rb buf2 :
  parse_config_object now a = Some sa → parse_config_object now b = Some sb →
  parse_u64 (c_resource_version sa) = Some ra → parse_resume (c_resource_version sb) = Some rb →
  rb < ra →
  let buf := (pump_immediate to_string [(now, Ok Init); (now, Ok (InitApply a));
                                        (now, Ok (InitApply b)); (now, Ok InitDone)] []).2 in
  re_rv <$> buf = [ra; rb] ∧
  resume_events to_string selector_matches f (length buf) later cache ns (c_resource_version sb) buf buf2 = ([], []).
Proof.
  intros Ha Hb Hra Hrb Hlt. unfold parse_resume in Hrb.
  destruct (is_empty (c_resource_version sb)) eqn:He; [done|].
  simpl. rewrite Ha, Hb. simpl. unfold push_replay. rewrite Hra, Hrb. simpl.
  split; [done|]. unfold resume_events, resume_lookup, parse_resume. rewrite He, Hrb. simpl.
  unfold deque_binary_search. simpl. unfold slice_binary_search. simpl.
  by rewrite Z.ltb_irrefl, Z.eqb_refl.
Qed.
End Stream.

(** ** Witnesses *)
Import CanonicalIter.

Definition demo_event (n rv : string) : ConfigEvent :=
  mkConfigEvent MODIFIED (Some (mkConfigMsg "prod" n 1 "{}" rv 0 (-1))).
Definition demo_entry (n rv : string) (v : Z) : ReplayEntry := mkReplayEntry rv v (demo_event n rv) ∅.
Definition open_filter : SubscribeFilter := mkFilter None [].
Definition demo_chan : Chan Msg := mkChan CHANNEL_CAPACITY 0 [] [].
Definition render (_ : json) : option string := Some "{}"%string.
Definition any_labels (_ : list Expression) (_ : gmap string string) : bool := true.
Definition demo_history : list ReplayEntry := [demo_entry "a" "7" 7; demo_entry "b" "9" 9; demo_entry "a" "12" 12].

Lemma demo_history_sorted : strictly_sorted (re_rv <$> demo_history).
Proof. intros [|[|[|i]]] [|[|[|j]]] a b Hij; simpl; intros; simplify_eq; lia. Qed.

Lemma replay_buffer_exact_witness :
  let ps := [("7", demo_event "a" "7", ∅); ("x", demo_event "a" "x", ∅); ("9", demo_event "b" "9", ∅)]%string in
  strictly_sorted (re_rv <$> push_all ps []) ∧
  (deque_binary_search 1 (re_rv <$> push_all ps []) 9 = Some 1%nat ↔ re_rv <$> push_all ps [] !! 1%nat = Some 9).
Proof.
  intros ps. assert (Hs : strictly_sorted (re_rv <$> push_all ps [])).
  { change (re_rv <$> push_all ps []) with [7; 9].
    intros [|[|i]] [|[|j]] a b Hij; simpl; intros; simplify_eq; lia. }
  split; [exact Hs|].
  exact (proj1 (proj2 (proj2 (proj2 (replay_buffer_exact ps)))) Hs 1%nat 9 1%nat).
Defined.

(** [demo_history] resumed at version 7, by a client that takes everything and by
    one whose channel holds a single message. *)
Lemma resume_hit_no_gap_witness :
  let buf := newest REPLAY_BUFFER_SIZE (take 2 demo_history) in
  let live := BRecv <$> (frame_of <$> drop 2 demo_history) in
  let run ch := ch_accepted (resume_from_buffer render any_labels open_filter 2 0
                  (from_map "config" ∅) "prod" "7" buf [] live ch) in
  strictly_sorted (re_rv <$> buf) ∧ parse_resume "7" = Some 7 ∧
  run demo_chan = [Ok (demo_event "b" "9"); Ok (demo_event "a" "12")] ∧
  run (mkChan 1 0 [] []) = [Ok (demo_event "b" "9")] ∧
  ∃ k tl, run (mkChan 1 0 [] []) = (Ok <$> take k [demo_event "b" "9"; demo_event "a" "12"]) ++ tl ∧ refusal tl.
Proof.
  intros buf live run.
  assert (Hs : strictly_sorted (re_rv <$> buf)) by (exact (strictly_sorted_take 2 _ demo_history_sorted)).
  split; [exact Hs|]. split; [reflexivity|].
  pose proof (λ ch, resume_hit_no_gap render any_labels open_filter 2 0 (from_map "config" ∅) "prod" "7"
    demo_history 2 2 0 (demo_entry "a" "7" 7) [] ch Hs ltac:(simpl; lia)
    ltac:(unfold REPLAY_BUFFER_SIZE; lia) eq_refl eq_refl) as H.
  split_and!.
  - etransitivity; [exact (proj1 (proj2 (H demo_chan)) eq_refl ltac:(apply Nat.leb_le; vm_compute; reflexivity))|].
    vm_compute; reflexivity.
  - vm_compute; reflexivity.
  - exact (proj1 (H (mkChan 1 0 [] []))).
Defined.

Definition demo_a7 : ConfigSnapshot := mkConfigSnapshot "a" "prod" 1 (JObj []) "7" 0 None ∅ None.


Lemma relist_order_resume_gap_witness :
  let buf := (pump_immediate render [(1, Ok Init); (1, Ok (InitApply (demo_obj "a" 1 "50")));
    (1, Ok (InitApply (demo_obj "b" 1 "10"))); (1, Ok InitDone)] []).2 in
  (length buf = 2)%nat ∧
  resume_events render any_labels open_filter (length buf) 2 (from_map "config" ∅) "prod" "10" buf [] = ([], []).
Proof.
  intros buf. split; [reflexivity|].
  refine (proj2 (relist_order_resume_gap render any_labels open_filter 1 2 (from_map "config" ∅) "prod"
    (demo_obj "a" 1 "50") (demo_obj "b" 1 "10") _ (default (demo_snap "b" 1) (parse_config_object 1 (demo_obj "b" 1 "10")))
    50 10 [] eq_refl eq_refl eq_refl eq_refl _)). reflexivity.
Defined.

(** Receiver 5 is on the second of two shards; it reads one frame, then falls
    six frames behind the ring. *)
Lemma fanout_accounted_witness :
  let f k := mkFrame k (demo_event "a" "7") ∅ in
  let s := (next_receiver (ShardSet_new 2) 3).2 in
  let ops := [FSend (f 0); FAttach 8%nat; FRecv 5%nat] ++ (FSend ∘ f ∘ Z.of_nat <$> seq 1 1030) ++ [FRecv 5%nat] in
  let '(outs, s', q') := fan_run (FAttach 5%nat :: ops) s ∅ in
  sh_shards s' = [[3; 8]; [5]]%nat ∧ received_by 5 outs = [BRecv (f 0); BLagged 6] ∧
  received_by 9 outs = [] ∧
  ∃ read gap, told (received_by 5 outs) read ∧ sent ops = read ++ gap ++ rx_pending (view 5 q').
Proof.
  intros f s ops.
  assert (Hl : Forall (leaves 5) ops).
  { apply Forall_app. split; [repeat constructor; discriminate|].
    apply Forall_app. split; [|repeat constructor; discriminate].
    apply Forall_fmap, Forall_true. intros k. by split. }
  pose proof (fanout_accounted s ∅ 5 ops ltac:(discriminate) ltac:(apply (bool_decide_unpack _); vm_compute; exact I) Hl) as H.
  assert (Hc : let '(outs, s', _) := fan_run (FAttach 5%nat :: ops) s ∅ in
    sh_shards s' = [[3; 8]; [5]]%nat ∧ received_by 5 outs = [BRecv (f 0); BLagged 6] ∧ received_by 9 outs = [])
    by (vm_compute; auto).
  destruct (fan_run (FAttach 5%nat :: ops) s ∅) as [[outs s'] q']. destruct Hc as (? & ? & ?), H as [(read & gap & ? & ? & _) _].
  split_and!; eauto.
Defined.

Lemma gc_tick_exact_witness :
  let idle := ShardSet_new 1 in
  let busy := (next_receiver (ShardSet_new 1) 4).2 in
  let m := mkMaps {["old" := idle; "live" := busy]} {["old" := []; "live" := []]}
             {["old" := 1%nat; "live" := 2%nat]} {["old" := 0]} in
  let '(m', aborted) := gc_tick 31000000000 31000000000 (λ _ m, m) m in
  nm_broadcasts m' !! "old"%string = None ∧ 1%nat ∈ aborted ∧ is_Some (nm_broadcasts m' !! "live"%string).
Proof.
  intros idle busy m.
  pose proof (proj1 (gc_tick_exact 31000000000 31000000000 m)) as H.
  destruct (gc_tick 31000000000 31000000000 (λ _ m, m) m) as [m' aborted].
  destruct (proj1 (H "old"%string)) as (Hb & _ & _ & _ & Ha).
  { exists idle. split; [reflexivity|]. split; vm_compute; reflexivity. }
  destruct (proj2 (H "live"%string)) as (Hl & _).
  { intros (s & Hs & He & _). vm_compute in Hs. injection Hs as <-. vm_compute in He. discriminate. }
  split; [exact Hb|]. split; [apply Ha; reflexivity|]. rewrite Hl. eexists; reflexivity.
Defined.

(** A client that takes nothing gets the two messages its channel holds and then
    no refusal. *)
Lemma subscriber_stream_prefix_witness :
  let ch := mkChan 2 0 [] [] in
  let out := resume_from_buffer render any_labels open_filter 3 0 (from_map "config" ∅) "prod" ""
               [] demo_history [] ch in
  length (ch_accepted out) = 2%nat ∧ Err too_slow ∉ ch_accepted out.
Proof.
  intros ch out. split; [vm_compute; reflexivity|].
  apply (proj2 (subscriber_stream_prefix render any_labels open_filter 3 0 (from_map "config" ∅) "prod" ""
    [] demo_history [] ch)); [reflexivity|]. apply not_elem_of_nil.
Defined.
