(* ===== verification/TenantCache.v ===== *)
(** * Per-tenant cache accounting: [tenant_cache.rs]

    Each tenant has a view of what it was served: bytes per entry, a recency
    index by tick, a running total; eviction trims the view to the tenant's
    budget.  The view refines a plain least-recently-served list. *)
From S2P Require Export Quota Subscribe.

(** [(kind, namespace, name)] *)
Definition CacheKey : Set := string * string * string.

Record Slot : Set := mkSlot { sl_bytes : Z; sl_tick : Z }.

(** [BTreeMap<u64, Key>]: bindings in increasing key order. *)
Notation BTree := (list (Z * CacheKey)).

Fixpoint bt_insert (t : Z) (k : CacheKey) (b : BTree) : BTree :=
  match b with
  | [] => [(t, k)]
  | (t', k') :: rest =>
      if t <? t' then (t, k) :: b
      else if t =? t' then (t, k) :: rest
      else (t', k') :: bt_insert t k rest
  end.

Definition bt_remove (t : Z) (b : BTree) : BTree := filter (λ p, p.1 ≠ t) b.

Record TenantView : Type := mkView {
  by_key : gmap CacheKey Slot;
  by_tick : BTree;
  total : Z;
  next_tick : Z
}.

Definition view_default : TenantView := mkView ∅ [] 0 0.

Definition view_touch (v : TenantView) (key : CacheKey) (bytes : Z) : TenantView :=
  let '(ticks, tot) :=
    match by_key v !! key with
    | Some prev => (bt_remove (sl_tick prev) (by_tick v), total v - sl_bytes prev)
    | None => (by_tick v, total v)
    end in
  let tick := next_tick v in
  mkView (<[key := mkSlot bytes tick]> (by_key v)) (bt_insert tick key ticks)
    (tot + bytes) (tick + 1).

(** The eviction loop; each round removes a binding of [by_tick], so its length
    is enough fuel. *)
Fixpoint evict_loop (fuel : nat) (budget : Z) (v : TenantView) (evicted : Z) : TenantView * Z :=
  match fuel with
  | O => (v, evicted)
  | S f =>
      if (budget <? total v) && (1 <? size (by_key v))%nat then
        match by_tick v with
        | [] => (v, evicted)
        | (tick, key) :: _ =>
            let ticks := bt_remove tick (by_tick v) in
            let v' :=
              match by_key v !! key with
              | Some slot => mkView (delete key (by_key v)) ticks (total v - sl_bytes slot) (next_tick v)
              | None => mkView (by_key v) ticks (total v) (next_tick v)
              end in
            evict_loop f budget v' (evicted + 1)
        end
      else (v, evicted)
  end.

Definition evict_to (budget : Z) (v : TenantView) : TenantView * Z :=
  if budget =? 0 then (v, 0) else evict_loop (length (by_tick v)) budget v 0.

(** ** The ledger, with the byte gauge and the eviction counter of each tenant *)
Record Ledger : Type := mkLedger {
  lg_views : gmap string TenantView;
  lg_bytes_gauge : gmap string Z;
  lg_evictions : gmap string Z
}.

Definition ledger_new : Ledger := mkLedger ∅ ∅ ∅.

(** [record] in its two halves: the view under its lock, which gives the new total
    and the number of evictions, then the two series, set after the lock is
    released. *)
Definition ledger_locked (identity : string) (key : CacheKey) (bytes : Z) (evict_budget : option Z)
    (views : gmap string TenantView) : Z * Z * gmap string TenantView :=
  let v := view_touch (default view_default (views !! identity)) key bytes in
  let '(v', evicted) := match evict_budget with Some budget => evict_to budget v | None => (v, 0) end in
  (total v', evicted, <[identity := v']> views).

Definition ledger_publish (identity : string) (tot evicted : Z) (l : Ledger) : Ledger :=
  mkLedger (lg_views l) (<[identity := tot]> (lg_bytes_gauge l))
    (if 0 <? evicted
     then <[identity := default 0 (lg_evictions l !! identity) + evicted]> (lg_evictions l)
     else lg_evictions l).

Definition ledger_record (identity : string) (key : CacheKey) (bytes : Z) (evict_budget : option Z)
    (l : Ledger) : Ledger :=
  let '(tot, evicted, views) := ledger_locked identity key bytes evict_budget (lg_views l) in
  ledger_publish identity tot evicted (mkLedger views (lg_bytes_gauge l) (lg_evictions l)).

Lemma ledger_record_eq identity key bytes evict_budget l :
  ledger_record identity key bytes evict_budget l =
    let v := view_touch (default view_default (lg_views l !! identity)) key bytes in
    let '(v', evicted) := match evict_budget with Some budget => evict_to budget v | None => (v, 0) end in
    ledger_publish identity (total v') evicted
      (mkLedger (<[identity := v']> (lg_views l)) (lg_bytes_gauge l) (lg_evictions l)).
Proof.
  unfold ledger_record, ledger_locked. cbv zeta.
  by destruct (match evict_budget with Some budget => _ | None => _ end) as [v' evicted].
Qed.

(** Two records of one tenant can set the gauge in the other order than they took
    the lock: it then shows the older total, until the next record. *)
Lemma ledger_gauge_race identity k1 k2 b1 b2 l :
  let '(t1, e1, views1) := ledger_locked identity k1 b1 None (lg_views l) in
  let '(t2, e2, views2) := ledger_locked identity k2 b2 None views1 in
  let l' := ledger_publish identity t1 e1 (ledger_publish identity t2 e2
              (mkLedger views2 (lg_bytes_gauge l) (lg_evictions l))) in
  lg_bytes_gauge l' !! identity = Some t1 ∧ total <$> lg_views l' !! identity = Some t2.
Proof. simpl. by rewrite !lookup_insert_eq. Qed.

(** ** The accountant and the accounted stream *)
Record CacheAccountant : Set := mkAccountant {
  ca_identity : string;
  ca_mode : QuotaMode;
  ca_budget : Z;
  ca_kind : string
}.

Definition Cost : Set := string * string * Z.

Definition accountant_record (a : CacheAccountant) (ns n : string) (bytes : Z) : Ledger → Ledger :=
  ledger_record (ca_identity a) (ca_kind a, ns, n) bytes
    (if bool_decide (ca_mode a = QEnforce) then Some (ca_budget a) else None).

Definition record_cost (a : CacheAccountant) (cost : option Cost) (l : Ledger) : Ledger :=
  match cost with Some (ns, n, bytes) => accountant_record a ns n bytes l | None => l end.

Definition str_len (s : string) : Z := Z.of_nat (String.length s).

Definition config_cost (c : ConfigMsg) : option Cost :=
  Some (m_namespace c, m_name c, str_len (m_content_json c) + str_len (m_namespace c) + str_len (m_name c)).
Definition config_event_cost (e : ConfigEvent) : option Cost := ev_config e ≫= config_cost.

(** [AccountedStream] polled to the end of the items it yields. *)
Definition accounted_poll {T} (acct : option CacheAccountant) (cost : T → option Cost)
    (item : rpc T) (l : Ledger) : Ledger :=
  match acct, item with Some a, Ok t => record_cost a (cost t) l | _, _ => l end.

Definition accounted_stream {T} (acct : option CacheAccountant) (cost : T → option Cost)
    (items : list (rpc T)) (l : Ledger) : list (rpc T) * Ledger :=
  (items, foldl (λ l i, accounted_poll acct cost i l) l items).

(** ** Reference semantics: a list from least to most recently served *)
Notation Lru := (list (CacheKey * Z)).

Definition lru_bytes (l : Lru) : Z := foldr (λ e acc, e.2 + acc) 0 l.

Fixpoint lru_trim (budget : Z) (l : Lru) : Lru :=
  match l with
  | [] => []
  | e :: r =>
      if bool_decide (r = []) then l
      else if budget <? lru_bytes l then lru_trim budget r else l
  end.

Definition lru_serve (l : Lru) (key : CacheKey) (bytes : Z) (evict_budget : option Z) : Lru :=
  let l' := filter (λ e, e.1 ≠ key) l ++ [(key, bytes)] in
  match evict_budget with
  | Some budget => if budget =? 0 then l' else lru_trim budget l'
  | None => l'
  end.

(** What a view holds, oldest first. *)
Definition view_entries (v : TenantView) : Lru :=
  omap (λ p, (λ s, (p.2, sl_bytes s)) <$> by_key v !! p.2) (by_tick v).

(** ** The representation

    A view is determined by its entries with their ticks. *)
Record Entry : Set := mkEntry { en_tick : Z; en_key : CacheKey; en_bytes : Z }.
Definition en_pair (e : Entry) : CacheKey * Z := (en_key e, en_bytes e).
Definition en_slot (e : Entry) : CacheKey * Slot := (en_key e, mkSlot (en_bytes e) (en_tick e)).
Definition en_tk (e : Entry) : Z * CacheKey := (en_tick e, en_key e).

Definition view_of (es : list Entry) (nt : Z) : TenantView :=
  mkView (list_to_map (en_slot <$> es)) (en_tk <$> es) (lru_bytes (en_pair <$> es)) nt.

Record wf (es : list Entry) (nt : Z) : Prop := mkWf {
  wf_sorted : StronglySorted Z.lt (en_tick <$> es);
  wf_bound : ∀ e, e ∈ es → en_tick e < nt;
  wf_keys : NoDup (en_key <$> es)
}.

Lemma lru_bytes_app a b : lru_bytes (a ++ b) = lru_bytes a + lru_bytes b.
Proof. unfold lru_bytes. induction a as [|e a IH]; simpl; [done|]. rewrite IH. lia. Qed.

Lemma lru_bytes_entry e es :
  lru_bytes (en_pair <$> e :: es) = en_bytes e + lru_bytes (en_pair <$> es).
Proof. done. Qed.

Lemma keys_fst es : (en_slot <$> es).*1 = en_key <$> es.
Proof. by rewrite <- list_fmap_compose. Qed.

Lemma view_lookup es k s :
  NoDup (en_key <$> es) →
  (list_to_map (en_slot <$> es) : gmap CacheKey Slot) !! k = Some s ↔
  ∃ e, e ∈ es ∧ en_key e = k ∧ s = mkSlot (en_bytes e) (en_tick e).
Proof.
  intros Hnd. rewrite <- elem_of_list_to_map by (by rewrite keys_fst).
  rewrite list_elem_of_fmap. unfold en_slot. naive_solver.
Qed.

Lemma view_lookup_None es k :
  (list_to_map (en_slot <$> es) : gmap CacheKey Slot) !! k = None ↔ k ∉ (en_key <$> es).
Proof. rewrite <- not_elem_of_list_to_map. by rewrite keys_fst. Qed.

Lemma view_entries_of es nt : NoDup (en_key <$> es) → view_entries (view_of es nt) = en_pair <$> es.
Proof.
  intros Hnd. unfold view_entries; simpl.
  assert (Hall : ∀ e, e ∈ es → (list_to_map (en_slot <$> es) : gmap CacheKey Slot) !! en_key e =
                               Some (mkSlot (en_bytes e) (en_tick e))).
  { intros e He. apply view_lookup; [done|]. eauto. }
  generalize dependent (list_to_map (en_slot <$> es) : gmap CacheKey Slot). clear Hnd. intros mp.
  induction es as [|e es IH]; intros Hall; [done|]. simpl.
  rewrite (Hall e) by (by left). simpl. f_equal. apply IH. intros e' He'. apply Hall. by right.
Qed.

Lemma bt_insert_last t k b : (∀ p, p ∈ b → p.1 < t) → bt_insert t k b = b ++ [(t, k)].
Proof.
  induction b as [|[t' k'] b IH]; intros Hlt; [done|]. simpl.
  assert (t' < t) by (apply (Hlt (t', k')); by left).
  rewrite (proj2 (Z.ltb_ge t t')), (proj2 (Z.eqb_neq t t')) by lia.
  f_equal. apply IH. intros p Hp. apply Hlt. by right.
Qed.

Lemma NoDup_fmap_inj {A B} (f : A → B) l x y :
  NoDup (f <$> l) → x ∈ l → y ∈ l → f x = f y → x = y.
Proof.
  intros Hnd [i Hi]%list_elem_of_lookup [j Hj]%list_elem_of_lookup Hf.
  assert (i = j) as ->; [|congruence].
  eapply NoDup_lookup; [done|..]; rewrite list_lookup_fmap.
  - by rewrite Hi.
  - by rewrite Hj, Hf.
Qed.

Lemma StronglySorted_lt_NoDup l : StronglySorted Z.lt l → NoDup l.
Proof.
  induction 1 as [|x l Hs IH Hx]; constructor; [|done].
  intros Hin. rewrite Forall_forall in Hx. specialize (Hx x Hin). lia.
Qed.

Lemma filter_all {A} (P : A → Prop) `{∀ x, Decision (P x)} l : Forall P l → filter P l = l.
Proof. induction 1 as [|x l Hx _ IH]; [done|]. rewrite filter_cons, decide_True by done. by rewrite IH. Qed.

Lemma fmap_filter_bytes (P : Entry → Prop) (Q : CacheKey * Z → Prop)
    `{∀ e, Decision (P e), ∀ p, Decision (Q p)} (es : list Entry) :
  (∀ e, P e ↔ Q (en_pair e)) → en_pair <$> filter P es = filter Q (en_pair <$> es).
Proof.
  intros HPQ. induction es as [|e es IH]; [done|]. rewrite fmap_cons, !filter_cons.
  destruct (decide (P e)) as [Hp|Hp].
  - rewrite decide_True by (by apply HPQ). by rewrite fmap_cons, IH.
  - rewrite decide_False by (by rewrite <- HPQ). done.
Qed.

Definition others (k : CacheKey) (es : list Entry) : list Entry := filter (λ e, en_key e ≠ k) es.

(** Removing the tick of [k]'s entry removes exactly that entry. *)
Lemma remove_tick es nt e0 :
  wf es nt → e0 ∈ es → bt_remove (en_tick e0) (en_tk <$> es) = en_tk <$> others (en_key e0) es.
Proof.
  intros [Hs _ Hk] He0. apply StronglySorted_lt_NoDup in Hs. unfold bt_remove, others.
  assert (Hiff : ∀ e, e ∈ es → en_tick e ≠ en_tick e0 ↔ en_key e ≠ en_key e0).
  { intros e He. split; intros Hne Heq; apply Hne.
    - by rewrite (NoDup_fmap_inj en_key es e e0).
    - by rewrite (NoDup_fmap_inj en_tick es e e0). }
  clear Hs Hk He0. induction es as [|e es IH]; [done|].
  rewrite fmap_cons, !filter_cons. change ((en_tk e).1) with (en_tick e).
  rewrite IH by (intros; apply Hiff; by right).
  destruct (decide (en_key e ≠ en_key e0)) as [Hp|Hp].
  - by rewrite decide_True by (apply Hiff; [by left|done]).
  - rewrite decide_False; [done|]. by rewrite Hiff by (by left).
Qed.

Lemma others_bytes es k e0 :
  NoDup (en_key <$> es) → e0 ∈ es → en_key e0 = k →
  lru_bytes (en_pair <$> others k es) = lru_bytes (en_pair <$> es) - en_bytes e0.
Proof.
  unfold others. induction es as [|e es IH]; intros Hnd He Hk; [by apply elem_of_nil in He|].
  apply NoDup_cons in Hnd as [Hnin Hnd]. rewrite filter_cons.
  apply elem_of_cons in He as [->|He].
  - rewrite decide_False by naive_solver.
    assert (Hall : filter (λ e, en_key e ≠ k) es = es).
    { apply filter_all, Forall_forall. intros x Hx Heq. apply Hnin.
      rewrite Hk, <- Heq. by apply list_elem_of_fmap_2. }
    rewrite Hall, lru_bytes_entry. lia.
  - rewrite decide_True.
    + rewrite !lru_bytes_entry, IH by done. lia.
    + intros Heq. apply Hnin. rewrite Heq, <- Hk. by apply list_elem_of_fmap_2.
Qed.

Lemma wf_filter es nt (P : Entry → Prop) `{∀ e, Decision (P e)} : wf es nt → wf (filter P es) nt.
Proof.
  intros [Hs Hb Hk]. constructor.
  - clear Hb Hk. induction es as [|e es IH]; [constructor|].
    rewrite fmap_cons in Hs. apply StronglySorted_inv in Hs as [Hs Hx]. rewrite filter_cons.
    case_decide; [|by apply IH]. rewrite fmap_cons. constructor; [by apply IH|].
    rewrite Forall_fmap, Forall_forall in Hx |- *. intros x [_ Hin]%list_elem_of_filter. by apply Hx.
  - intros e [_ He]%list_elem_of_filter. by apply Hb.
  - clear Hs Hb. induction es as [|e es IH]; [constructor|].
    rewrite fmap_cons in Hk. apply NoDup_cons in Hk as [Hx Hk]. rewrite filter_cons.
    case_decide; [|by apply IH]. rewrite fmap_cons. constructor; [|by apply IH].
    intros (y & Hy & [_ Hin]%list_elem_of_filter)%list_elem_of_fmap. apply Hx.
    rewrite Hy. by apply list_elem_of_fmap_2.
Qed.

Definition touched (es : list Entry) (nt : Z) (k : CacheKey) (b : Z) : list Entry :=
  others k es ++ [mkEntry nt k b].

Lemma wf_touched es nt k b : wf es nt → wf (touched es nt k b) (nt + 1).
Proof.
  intros Hwf. assert (Ho : wf (others k es) nt) by (by apply wf_filter).
  destruct Ho as [Hs Hb Hk]. unfold touched. constructor; rewrite ?fmap_app.
  - apply StronglySorted_app_2; [|done|repeat constructor].
    intros x y (e & -> & He)%list_elem_of_fmap Hy. apply list_elem_of_singleton in Hy as ->.
    by apply Hb.
  - intros e [He| ->%list_elem_of_singleton]%elem_of_app; [specialize (Hb e He); lia | simpl; lia].
  - apply NoDup_app. split_and!; [done| |apply NoDup_singleton].
    intros x (e & -> & [Hne _]%list_elem_of_filter)%list_elem_of_fmap Hy.
    by apply list_elem_of_singleton in Hy.
Qed.

Lemma view_touch_of es nt k b :
  wf es nt → view_touch (view_of es nt) k b = view_of (touched es nt k b) (nt + 1).
Proof.
  intros Hwf. pose proof Hwf as [_ Hb Hk].
  assert (Hmap : <[k := mkSlot b nt]> (list_to_map (en_slot <$> es) : gmap CacheKey Slot) =
                 list_to_map (en_slot <$> touched es nt k b)).
  { apply map_eq. intros k'. apply option_eq. intros s.
    rewrite (view_lookup (touched es nt k b)) by apply (wf_touched es nt k b Hwf).
    rewrite lookup_insert_Some, view_lookup by done. unfold touched, others. split.
    - intros [[-> <-]|[Hne (e & He & <- & ->)]].
      + exists (mkEntry nt k' b). split_and!; [|done..]. apply elem_of_app. right. by left.
      + exists e. split_and!; [|done..]. apply elem_of_app. left. by apply list_elem_of_filter.
    - intros (e & [[Hne He]%list_elem_of_filter| ->%list_elem_of_singleton]%elem_of_app & <- & ->); [right|by left].
      split; [done|]. eauto. }
  assert (Hins : ∀ ticks, ticks = en_tk <$> others k es →
            bt_insert nt k ticks = en_tk <$> touched es nt k b).
  { intros ticks ->. unfold touched. rewrite fmap_app. apply bt_insert_last.
    intros p (e & -> & [_ He]%list_elem_of_filter)%list_elem_of_fmap. by apply Hb. }
  assert (Htot : lru_bytes (en_pair <$> touched es nt k b) = lru_bytes (en_pair <$> others k es) + b).
  { unfold touched. rewrite fmap_app, lru_bytes_app. simpl. lia. }
  unfold view_touch, view_of; simpl. rewrite Hmap, Htot.
  destruct (list_to_map (en_slot <$> es) !! k) as [s|] eqn:Hl.
  - apply view_lookup in Hl as (e0 & He0 & <- & ->); [|done]. simpl.
    rewrite (others_bytes es (en_key e0) e0) by done.
    f_equal. apply Hins. by apply (remove_tick es nt).
  - apply view_lookup_None in Hl.
    assert (Ho : others k es = es).
    { apply filter_all, Forall_forall. intros e He Heq. apply Hl. rewrite <- Heq. by apply list_elem_of_fmap_2. }
    rewrite Ho. f_equal. apply Hins. by rewrite Ho.
Qed.

(** ** Eviction *)
Fixpoint en_trim (budget : Z) (es : list Entry) : list Entry :=
  match es with
  | [] => []
  | e :: r =>
      if bool_decide (r = []) then es
      else if budget <? lru_bytes (en_pair <$> es) then en_trim budget r else es
  end.

Lemma en_trim_pair budget es : en_pair <$> en_trim budget es = lru_trim budget (en_pair <$> es).
Proof.
  induction es as [|e es IH]; [done|]. rewrite fmap_cons. cbn [en_trim lru_trim].
  rewrite fmap_cons. destruct es as [|e' es]; [done|]. rewrite !bool_decide_false by done.
  destruct (budget <? _); [apply IH|done].
Qed.

Lemma wf_tail e es nt : wf (e :: es) nt → wf es nt.
Proof.
  intros [Hs Hb Hk]. constructor.
  - by apply StronglySorted_inv in Hs as [? _].
  - intros x Hx. apply Hb. by right.
  - by apply NoDup_cons in Hk as [_ ?].
Qed.

Lemma wf_en_trim budget es nt : wf es nt → wf (en_trim budget es) nt.
Proof.
  induction es as [|e es IH]; intros Hwf; [done|]. simpl. case_bool_decide; [done|].
  destruct (budget <? _); [|done]. by eapply IH, wf_tail.
Qed.

Lemma view_size es nt : wf es nt → size (by_key (view_of es nt)) = length es.
Proof. intros [_ _ Hk]. simpl. rewrite map_size_list_to_map, length_fmap; [done|]. by rewrite keys_fst. Qed.

Lemma evict_loop_of fuel budget es nt n :
  wf es nt → (length es ≤ fuel)%nat →
  evict_loop fuel budget (view_of es nt) n =
    (view_of (en_trim budget es) nt, n + Z.of_nat (length es - length (en_trim budget es))).
Proof.
  revert es n; induction fuel as [|fuel IH]; intros es n Hwf Hf.
  { destruct es; [|simpl in Hf; lia]. simpl. f_equal. lia. }
  cbn [evict_loop]. rewrite view_size by done. destruct es as [|e es].
  { simpl. rewrite andb_false_r. f_equal. lia. }
  assert (Hlt : (1 <? length (e :: es))%nat = negb (bool_decide (es = []))) by (by destruct es).
  rewrite Hlt. cbn [en_trim]. change (total (view_of (e :: es) nt)) with (lru_bytes (en_pair <$> e :: es)).
  case_bool_decide as Hnil; simpl negb.
  { rewrite andb_false_r. f_equal. lia. }
  rewrite andb_true_r. destruct (budget <? lru_bytes (en_pair <$> e :: es)) eqn:Hb.
  2: { f_equal. lia. }
  pose proof Hwf as [_ _ Hk]. rewrite fmap_cons in Hk. apply NoDup_cons in Hk as [Hnin Hk].
  change (by_tick (view_of (e :: es) nt)) with ((en_tick e, en_key e) :: (en_tk <$> es)).
  cbv iota beta zeta.
  assert (Hrm : bt_remove (en_tick e) ((en_tick e, en_key e) :: (en_tk <$> es)) = en_tk <$> es).
  { change ((en_tick e, en_key e) :: (en_tk <$> es)) with (en_tk <$> e :: es). rewrite (remove_tick (e :: es) nt) by (done || by left). f_equal. unfold others.
    rewrite filter_cons, decide_False by naive_solver. apply filter_all, Forall_forall.
    intros x Hx Heq. apply Hnin. rewrite <- Heq. by apply list_elem_of_fmap_2. }
  rewrite Hrm.
  assert (Hl : by_key (view_of (e :: es) nt) !! en_key e = Some (mkSlot (en_bytes e) (en_tick e)))
    by (by simpl; rewrite lookup_insert_eq).
  rewrite Hl. simpl sl_bytes.
  assert (Hv : mkView (delete (en_key e) (by_key (view_of (e :: es) nt))) (en_tk <$> es)
                 (lru_bytes (en_pair <$> e :: es) - en_bytes e) (next_tick (view_of (e :: es) nt)) = view_of es nt).
  { unfold view_of. cbn [by_key total next_tick]. rewrite lru_bytes_entry. f_equal; [|lia].
    apply delete_insert_id. by apply view_lookup_None. }
  rewrite Hv, IH; [|by eapply wf_tail|simpl in Hf; lia]. f_equal.
  assert (length (en_trim budget es) ≤ length es)%nat.
  { clear. induction es as [|x es IH]; [done|]. simpl. case_bool_decide; [done|].
    destruct (budget <? _); simpl in *; lia. }
  simpl length. lia.
Qed.

(** ** The ledger refines one list per tenant *)
Definition Serve : Set := string * CacheKey * Z * option Z.

Definition ledger_serve (l : Ledger) (s : Serve) : Ledger :=
  let '(identity, key, bytes, budget) := s in ledger_record identity key bytes budget l.

(** What tenant [i] was served, by the reference semantics. *)
Definition lru_of (i : string) (serves : list Serve) : Lru :=
  foldl (λ l s, let '(identity, key, bytes, budget) := s in
                if bool_decide (identity = i) then lru_serve l key bytes budget else l) [] serves.

Definition refines (v : TenantView) (l : Lru) : Prop :=
  ∃ es nt, wf es nt ∧ v = view_of es nt ∧ l = en_pair <$> es.

Lemma refines_default : refines view_default [].
Proof. exists [], 0. split_and!; [|done..]. constructor; [constructor | intros e []%elem_of_nil | constructor]. Qed.

Lemma serve_refines v l key bytes budget :
  refines v l →
  let '(v', n) := match budget with
                  | Some b => evict_to b (view_touch v key bytes)
                  | None => (view_touch v key bytes, 0) end in
  refines v' (lru_serve l key bytes budget).
Proof.
  intros (es & nt & Hwf & -> & ->). rewrite view_touch_of by done.
  pose proof (wf_touched es nt key bytes Hwf) as Hwf'.
  assert (Hp : en_pair <$> touched es nt key bytes =
               filter (λ e, e.1 ≠ key) (en_pair <$> es) ++ [(key, bytes)]).
  { unfold touched, others. rewrite fmap_app. f_equal. by apply fmap_filter_bytes. }
  unfold lru_serve. rewrite <- Hp. destruct budget as [b|]; [|by do 2 eexists].
  unfold evict_to. destruct (b =? 0); [by do 2 eexists|].
  change (by_tick (view_of ?e ?n)) with (en_tk <$> e).
  rewrite length_fmap, evict_loop_of by done. do 2 eexists. split_and!; [|done|].
  - by apply wf_en_trim.
  - by rewrite en_trim_pair.
Qed.

Lemma ledger_refines serves i :
  refines (default view_default (lg_views (foldl ledger_serve ledger_new serves) !! i)) (lru_of i serves) ∧
  lg_bytes_gauge (foldl ledger_serve ledger_new serves) !! i =
    total <$> lg_views (foldl ledger_serve ledger_new serves) !! i.
Proof.
  induction serves as [|[[[id key] bytes] budget] serves [IH IHg]] using rev_ind.
  { split; [apply refines_default|done]. }
  unfold lru_of in *. rewrite !foldl_app. cbn [foldl]. unfold ledger_serve at 1 3 5. rewrite !ledger_record_eq. cbv zeta.
  set (l := foldl ledger_serve ledger_new serves) in *.
  case_bool_decide as Hi.
  - subst id.
    pose proof (serve_refines _ _ key bytes budget IH) as Hr.
    destruct (match budget with Some b => _ | None => _ end) as [v' n]. simpl.
    by rewrite !lookup_insert_eq.
  - destruct (match budget with Some b => _ | None => _ end) as [v' n]. simpl.
    by rewrite !lookup_insert_ne.
Qed.

Lemma lru_trim_last budget l : last (lru_trim budget l) = last l.
Proof.
  induction l as [|e l IH]; [done|]. cbn [lru_trim]. case_bool_decide; [done|].
  destruct (budget <? _); [|done]. rewrite IH. by destruct l.
Qed.

Lemma lru_trim_fits budget l x :
  last l = Some x → lru_bytes (lru_trim budget l) ≤ budget ∨ lru_trim budget l = [x].
Proof.
  induction l as [|e l IH]; intros Hl; [done|]. cbn [lru_trim]. case_bool_decide as Hn.
  - right. subst l. simpl in Hl. by injection Hl as ->.
  - destruct (Z.ltb_spec budget (lru_bytes (e :: l))); [|left; lia].
    apply IH. by destruct l.
Qed.

(** C23: the ledger is, per tenant, a least-recently-served list.  After any
    history of serves ending with one to tenant [i], the view of [i] is the
    reference list for [i] alone, its running total and its byte gauge are the
    exact sum of its entries, the entry just served is kept and is the most
    recent, an enforced budget is met unless only that entry is left, and no
    other tenant's view changes. *)
Theorem tenant_ledger_lru serves i key bytes budget :
  let before := foldl ledger_serve ledger_new serves in
  let history := serves ++ [(i, key, bytes, budget)] in
  let l := foldl ledger_serve ledger_new history in
  let v := default view_default (lg_views l !! i) in
  view_entries v = lru_of i history ∧
  total v = lru_bytes (view_entries v) ∧ lg_bytes_gauge l !! i = Some (total v) ∧
  last (view_entries v) = Some (key, bytes) ∧
  (∀ b, budget = Some b → b ≠ 0 → total v ≤ b ∨ view_entries v = [(key, bytes)]) ∧
  ∀ j, j ≠ i → lg_views l !! j = lg_views before !! j.
Proof.
  intros before history l v.
  destruct (ledger_refines history i) as [(es & nt & Hwf & Hv & Hl) Hg]. fold l v in Hv, Hg.
  assert (Hlru : lru_of i history = lru_serve (lru_of i serves) key bytes budget).
  { unfold lru_of, history. by rewrite foldl_app; simpl; rewrite bool_decide_true. }
  assert (He : view_entries v = lru_of i history).
  { rewrite Hl, Hv. apply view_entries_of, Hwf. }
  assert (Ht : total v = lru_bytes (view_entries v)) by (by rewrite He, Hl, Hv).
  assert (Hlast : last (filter (λ e, e.1 ≠ key) (lru_of i serves) ++ [(key, bytes)]) = Some (key, bytes))
    by apply last_snoc.
  assert (Hstep : l = ledger_record i key bytes budget before).
  { unfold l, history. by rewrite foldl_app. }
  assert (Hother : ∀ j, j ≠ i → lg_views l !! j = lg_views before !! j).
  { intros j Hj. rewrite Hstep, ledger_record_eq. cbv zeta.
    destruct (match budget with Some b => _ | None => _ end). simpl. by rewrite lookup_insert_ne. }
  split_and!; [done..| | | |done].
  - rewrite Hg. unfold v. destruct (lg_views l !! i) eqn:Hi; [done|]. exfalso.
    rewrite Hstep, ledger_record_eq in Hi. cbv zeta in Hi.
    destruct (match budget with Some b => _ | None => _ end). simpl in Hi. by rewrite lookup_insert_eq in Hi.
  - rewrite He, Hlru. unfold lru_serve. destruct budget as [b|]; [|done].
    destruct (b =? 0); [done|]. by rewrite lru_trim_last.
  - intros b -> Hb. rewrite Ht, He, Hlru. unfold lru_serve.
    rewrite (proj2 (Z.eqb_neq b 0)) by done. by apply lru_trim_fits.
Qed.

(** Three serves of 40, 50 and 30 bytes against a budget of 90: the first is
    evicted, the other two stay. *)
Lemma tenant_ledger_lru_witness :
  let k n : CacheKey := ("config", "prod", n)%string in
  let serves : list Serve := [("t", k "a", 40, Some 90); ("t", k "b", 50, Some 90)]%string in
  let l := foldl ledger_serve ledger_new (serves ++ [("t"%string, k "c"%string, 30, Some 90)]) in
  let v := default view_default (lg_views l !! "t"%string) in
  view_entries v = [(k "b"%string, 50); (k "c"%string, 30)] ∧ total v = 80 ∧
  (total v ≤ 90 ∨ view_entries v = [(k "c"%string, 30)]).
Proof.
  intros k serves l v.
  destruct (tenant_ledger_lru serves "t"%string (k "c"%string) 30 (Some 90)) as (He & Ht & _ & _ & Hb & _).
  split; [|split].
  - transitivity (lru_of "t"%string (serves ++ [("t"%string, k "c"%string, 30, Some 90)])); [exact He|].
    vm_compute. reflexivity.
  - vm_compute. reflexivity.
  - apply (Hb 90 eq_refl). discriminate.
Defined.
