(* ===== verification/Secrets.v ===== *)
(** * Secrets: [secret_watcher.rs], [grpc/secret_apply.rs], [grpc/secret_get.rs],
    [grpc/subscribe_secrets.rs]

    Watching managed Secrets into the secret cache and the per-namespace
    broadcast, writing them, reading them back and subscribing to them.  Base64,
    YAML and JSON printing are parameters; the API server is the interface
    [SecretApi]. *)
From S2P Require Export Subscribe Apply.

Definition MANAGED_LABEL : string := "konfig.io/managed".
Definition SCHEMA_VERSION_ANNOTATION : string := "konfig.io/schema-version".

(** ** [k8s_openapi::api::core::v1::Secret], the fields the code uses *)
Record Secret : Type := mkSecret {
  so_name : option string;
  so_namespace : option string;
  so_resource_version : option string;
  so_labels : option (gmap string string);
  so_annotations : option (gmap string string);
  so_data : option (gmap string (list Z))
}.

(** ** Wire messages *)
Record SecretResponse : Set := mkSecretResponse {
  sp_namespace : string;
  sp_name : string;
  sp_schema_version : Z;
  sp_data_json : string;
  sp_resource_version : string;
  sp_age_ms : Z;
  sp_stale_since_ms : Z
}.

Record SecretEvent : Set := mkSecretEvent {
  se_type : EventType;
  se_secret : option SecretResponse
}.

(** [parse_secret_schema_version] of [secret_apply.rs]; the two watch-side
    parsers read the version the same way. *)
Definition parse_secret_schema_version (secret : Secret) : Z :=
  default 0 (a ← so_annotations secret; v ← a !! SCHEMA_VERSION_ANNOTATION; parse_u32 v).

Section Codec.
Context (base64 : list Z → list Z).
Context (secret_map_to_string : gmap string string → option string).
Context (from_utf8 : list Z → option string).

Definition secret_snapshot_to_proto (now : Instant) (s : SecretSnapshot) : SecretResponse :=
  mkSecretResponse (s_namespace s) (s_name s) (s_schema_version s)
    (data_json secret_map_to_string from_utf8 s).1 (s_resource_version s)
    (elapsed_ms now (s_loaded_at s))
    (match s_stale_since s with Some t => elapsed_ms now t | None => -1 end).

(** *** [secret_watcher.rs] *)
Definition parse_secret (now : Instant) (secret : Secret) (namespace : string) : option SecretSnapshot :=
  Some (mkSecretSnapshot (default "" (so_name secret)) namespace (parse_secret_schema_version secret)
          (base64 <$> default ∅ (so_data secret))
          (default "" (so_resource_version secret)) now None None).

(** The cache and what was sent on the broadcast, in order. *)
Record SecretSt : Type := mkSecretSt {
  ss_cache : SecretCache;
  ss_sent : list SecretEvent
}.

Definition secret_event (now : Instant) (ty : EventType) (snap : SecretSnapshot) : SecretEvent :=
  mkSecretEvent ty (Some (secret_snapshot_to_proto now snap)).

Definition handle_secret_event (now : Instant) (namespace : string) (event : Event Secret)
    (st : SecretSt) : SecretSt :=
  match event with
  | Apply secret | InitApply secret =>
      match parse_secret now secret namespace with
      | Some snap =>
          mkSecretSt (update (ss_cache st) snap) (ss_sent st ++ [secret_event now MODIFIED snap])
      | None => st
      end
  | Delete secret =>
      match parse_secret now secret namespace with
      | Some snap => mkSecretSt (ss_cache st) (ss_sent st ++ [secret_event now DELETED snap])
      | None => st
      end
  | Init | InitDone => st
  end.

Definition buffer_secret (now : Instant) (namespace : string) (secret : Secret)
    (buf : list SecretMutation) (st : SecretSt) : list SecretMutation * SecretSt :=
  match parse_secret now secret namespace with
  | Some snap =>
      (buf ++ [Upsert snap], mkSecretSt (ss_cache st) (ss_sent st ++ [secret_event now MODIFIED snap]))
  | None => (buf, st)
  end.

Definition route_secret_event (now : Instant) (namespace : string) (event : Event Secret)
    (relist : option (list SecretMutation)) (batch_relist : bool) (st : SecretSt) :
    option (list SecretMutation) * SecretSt :=
  route_relist_event event relist batch_relist (buffer_secret now namespace)
    (λ muts st, mkSecretSt (apply_batch (ss_cache st) muts).1 (ss_sent st))
    (λ other st, handle_secret_event now namespace other st) st.

Fixpoint secret_pump_loop (namespace : string) (batch_relist : bool)
    (relist : option (list SecretMutation)) (items : stream Secret) (st : SecretSt) (last_event_at : Z) :
    SecretSt * Z * result unit string :=
  match items with
  | [] => (st, last_event_at, Ok tt)
  | (_, Err e) :: _ => (st, last_event_at, Err e)
  | (now, Ok event) :: rest =>
      let '(relist', st') := route_secret_event now namespace event relist batch_relist st in
      secret_pump_loop namespace batch_relist relist' rest st' (touch now)
  end.

Definition pump_secret_events (items : stream Secret) (namespace : string) (st : SecretSt)
    (last_event_at : Z) (batch_relist : bool) : SecretSt * Z * result unit string :=
  secret_pump_loop namespace batch_relist None items st last_event_at.

(** One namespace task of [spawn_all]: connection [k] sees the [k]-th stream of
    [conns] and disconnects at the instant paired with it. *)
Definition secret_watch_task (conns : list (stream Secret * Instant)) (namespace : string)
    (st : SecretSt) (last_event_at : Z) : SecretSt * Z * list Z :=
  let f attempt (s : SecretSt * Z * nat) :=
    match conns !! attempt with
    | Some (items, _) =>
        let '(st', lea, _) := pump_secret_events items namespace s.1.1 s.1.2 (bool_decide (0 < attempt)%nat) in
        (st', lea, attempt)
    | None => s
    end in
  let on_disconnect (s : SecretSt * Z * nat) :=
    match conns !! s.2 with
    | Some (_, t) => (mkSecretSt (mark_all_stale (ss_cache s.1.1) t) (ss_sent s.1.1), s.1.2, s.2)
    | None => s
    end in
  let '(s, sleeps) := run_with_reconnect on_disconnect f (length conns) 0 (st, last_event_at, 0%nat) in
  (s.1.1, s.1.2, sleeps).

(** *** [secret_get.rs] *)
Definition handle_get_secret (now : Instant) (cache : SecretCache) (ns n : string) : rpc SecretResponse :=
  match get cache ns n with
  | Some snap => Ok (secret_snapshot_to_proto now snap)
  | None => Err (status NotFound ("secret " +:+ ns +:+ "/" +:+ n +:+ " not found"))
  end.

Definition handle_get_all_secrets `{!MapIter OwnedKey SecretSnapshot} (now : Instant) (cache : SecretCache)
    (ns : string) : list SecretResponse :=
  secret_snapshot_to_proto now <$> all_in_namespace cache ns.

(** *** [subscribe_secrets.rs] *)
Definition SecretMsg : Type := result SecretEvent Status.

(** [true]: the caller goes on. *)
Definition offer (ch : Chan SecretMsg) (ev : SecretEvent) : bool * Chan SecretMsg :=
  match try_send ch (Ok ev) with
  | (Sent, ch') => (true, ch')
  | (Full, ch') => (false, (try_send ch' (Err too_slow)).2)
  | (Closed, ch') => (false, ch')
  end.

Fixpoint emit_snapshot_events (now : Instant) (snaps : list SecretSnapshot) (ch : Chan SecretMsg) :
    bool * Chan SecretMsg :=
  match snaps with
  | [] => (true, ch)
  | s :: rest =>
      match offer ch (secret_event now SNAPSHOT s) with
      | (true, ch') => emit_snapshot_events now rest ch'
      | (false, ch') => (false, ch')
      end
  end.

Inductive SecretBridgeInput : Type :=
  | SbDrain
  | SbRecv (ev : SecretEvent)
  | SbLagged (missed : Z)
  | SbClosed.

Fixpoint secret_bridge (ins : list SecretBridgeInput) (ch : Chan SecretMsg) : Chan SecretMsg :=
  match ins with
  | [] => ch
  | SbDrain :: _ => ch
  | SbRecv ev :: rest =>
      match offer ch ev with
      | (true, ch') => secret_bridge rest ch'
      | (false, ch') => ch'
      end
  | SbLagged _ :: _ => (try_send ch (Err lagged)).2
  | SbClosed :: _ => ch
  end.

Definition managed (secret : Secret) : bool :=
  bool_decide ((l ← so_labels secret; l !! MANAGED_LABEL) = Some "true"%string).

Definition parse_secret_object (now : Instant) (secret : Secret) (namespace : string) :
    option SecretSnapshot :=
  if managed secret then parse_secret now secret namespace else None.

Definition emit_to_mpsc (now : Instant) (ch : Chan SecretMsg) (ty : EventType) (secret : Secret)
    (namespace : string) : bool * Chan SecretMsg :=
  match parse_secret_object now secret namespace with
  | None => (true, ch)
  | Some snap => offer ch (secret_event now ty snap)
  end.

(** An input of the raw-watch loop. *)
Inductive RawInput : Type :=
  | RwDrain
  | RwAdded (secret : Secret)
  | RwModified (secret : Secret)
  | RwDeleted (secret : Secret)
  | RwBookmark
  | RwError (e : string)
  | RwStreamErr (e : string).

Fixpoint raw_watch_loop (namespace : string) (ins : list (Instant * RawInput)) (ch : Chan SecretMsg) :
    Chan SecretMsg :=
  let go rest now ty secret :=
    match emit_to_mpsc now ch ty secret (default namespace (so_namespace secret)) with
    | (true, ch') => raw_watch_loop namespace rest ch'
    | (false, ch') => ch'
    end in
  match ins with
  | [] => ch
  | (_, RwDrain) :: _ => ch
  | (now, RwAdded secret) :: rest => go rest now MODIFIED secret
  | (now, RwModified secret) :: rest => go rest now MODIFIED secret
  | (now, RwDeleted secret) :: rest => go rest now DELETED secret
  | (_, RwBookmark) :: rest => raw_watch_loop namespace rest ch
  | (_, RwError e) :: _ => (try_send ch (Err (status Internal ("watch error: " +:+ e)))).2
  | (_, RwStreamErr _) :: _ => ch
  end.

(** [start] is the outcome of opening the watch. *)
Definition run_raw_watch (namespace : string) (start : result (list (Instant * RawInput)) string)
    (ch : Chan SecretMsg) : Chan SecretMsg :=
  match start with
  | Err e => (try_send ch (Err (status Unavailable ("watch error: " +:+ e)))).2
  | Ok ins => raw_watch_loop namespace ins ch
  end.

Record SubscribeSecretsRequest : Set := mkSubscribeSecretsRequest {
  ssr_namespace : string;
  ssr_names : list string;
  ssr_resume_resource_version : string
}.

(** The handler and the task it spawns: [raw] is the watch of the resume path,
    [live] what the broadcast receiver of the namespace sees from the moment it
    is created, [None] when no watcher runs there. *)
Definition handle_subscribe_secrets `{!MapIter OwnedKey SecretSnapshot} (now : Instant)
    (cache : SecretCache) (live : option (list SecretBridgeInput))
    (raw : result (list (Instant * RawInput)) string) (req : SubscribeSecretsRequest)
    (ch : Chan SecretMsg) : rpc (Chan SecretMsg) :=
  let snaps := all_in_namespace cache (ssr_namespace req) in
  match (if bool_decide (snaps = []) then (true, ch) else emit_snapshot_events now snaps ch) with
  | (false, ch') => Ok ch'
  | (true, ch') =>
      if negb (is_empty (ssr_resume_resource_version req))
      then Ok (run_raw_watch (ssr_namespace req) raw ch')
      else
        match live with
        | None => Err (status Unavailable ("no secret watcher running for namespace " +:+ ssr_namespace req))
        | Some ins => Ok (secret_bridge ins ch')
        end
  end.
End Codec.

(** ** Writing secrets: [grpc/secret_apply.rs] *)

(** The Secret endpoint of the API server and the behaviour the handler relies
    on while nobody else writes: an accepted forced server-side apply stores the
    object it returns, which carries the labels, annotations and data of the
    patch (more may be merged); a rejected one stores nothing. *)
Class SecretApi (W : Type) := {
  secret_get : string → string → W → result Secret KubeError * W;
  secret_patch : string → string → Secret → W → result Secret KubeError * W
}.

Definition includes {A} (m : option (gmap string A)) (m' : option (gmap string A)) : Prop :=
  default ∅ m ⊆ default ∅ m'.

Definition patched (body o : Secret) : Prop :=
  includes (so_labels body) (so_labels o) ∧ includes (so_annotations body) (so_annotations o) ∧
  includes (so_data body) (so_data o).

Class SecretLaws (W : Type) `{SecretApi W} := {
  squiet : W → Prop;
  sstore : W → gmap (string * string) Secret;
  secret_get_law ns n w r w' : squiet w → secret_get ns n w = (r, w') →
    squiet w' ∧ sstore w' = sstore w ∧
    match r with
    | Ok o => sstore w !! (ns, n) = Some o
    | Err (ApiErr c _) => c = 404 → sstore w !! (ns, n) = None
    | Err (OtherErr _) => True
    end;
  secret_patch_law ns n body w r w' : squiet w → secret_patch ns n body w = (r, w') →
    squiet w' ∧
    match r with
    | Ok o => sstore w' = <[(ns, n) := o]> (sstore w) ∧ patched body o
    | Err err => sstore w' = sstore w ∨ refuses err = false ∧
        ∃ o, sstore w' = <[(ns, n) := o]> (sstore w) ∧ patched body o
    end
}.

Definition SECRET_RETRY_DELAYS_MS : list Z := [100; 200].

Inductive SecretPatchRetryDecision : Set :=
  | SecretRetryAfter (delay_ms : Z)
  | SecretAbortRetriesExhausted
  | SecretUnavailable.

Definition classify_secret_patch_error (err : KubeError) (attempt : nat) : SecretPatchRetryDecision :=
  if negb (bool_decide (api_status_code err = Some 409)) then SecretUnavailable
  else
    match SECRET_RETRY_DELAYS_MS !! attempt with
    | Some d => SecretRetryAfter d
    | None => SecretAbortRetriesExhausted
    end.

Section ApplySecret.
Context (base64 : list Z → list Z).
Context (yaml_map : string → result (gmap string string) string).
Context (nanos : nat → Z).
Context {W : Type} `{SecretApi W}.

(** The API server and the sleeps so far. *)
Record SecretEnv : Type := mkSecretEnv { sv_kube : W; sv_sleeps : list Z }.

Definition fetch_current_secret_version (ns n : string) (e : SecretEnv) : rpc Z * SecretEnv :=
  let '(r, w) := secret_get ns n (sv_kube e) in
  let e := mkSecretEnv w (sv_sleeps e) in
  match r with
  | Ok s => (Ok (parse_secret_schema_version s), e)
  | Err err =>
      if bool_decide (api_status_code err = Some 404) then (Ok 0, e)
      else (Err (status Unavailable ("kube API error: " +:+ kube_display err)), e)
  end.

Definition build_patch (ns n : string) (schema_version : Z) (data : gmap string (list Z)) : Secret :=
  mkSecret (Some n) (Some ns) None
    (Some {[MANAGED_LABEL := "true"%string]})
    (Some {[SCHEMA_VERSION_ANNOTATION := pretty schema_version]})
    (if bool_decide (data = ∅) then None else Some data).

(** The loop leaves after at most one round per delay and one more, so the fuel
    of [run_secret_patch_retry_loop] is never exhausted. *)
Fixpoint secret_patch_loop (fuel attempt : nat)
    (do_patch : SecretEnv → result string KubeError * SecretEnv) (e : SecretEnv) : rpc string * SecretEnv :=
  match fuel with
  | O => (Err (status Unknown "out of fuel"), e)
  | S fuel' =>
      match do_patch e with
      | (Ok rv, e1) => (Ok rv, e1)
      | (Err err, e1) =>
          match classify_secret_patch_error err attempt with
          | SecretRetryAfter delay_ms =>
              secret_patch_loop fuel' (S attempt) do_patch
                (mkSecretEnv (sv_kube e1) (sv_sleeps e1 ++ [jittered_retry_ms (nanos attempt) delay_ms]))
          | SecretAbortRetriesExhausted =>
              (Err (status Aborted "ApplySecret: 409 Conflict — exceeded max retries"), e1)
          | SecretUnavailable =>
              (Err (status Unavailable ("kube patch error: " +:+ kube_display err)), e1)
          end
      end
  end.

Definition run_secret_patch_retry_loop (do_patch : SecretEnv → result string KubeError * SecretEnv) :
    SecretEnv → rpc string * SecretEnv :=
  secret_patch_loop (S (length SECRET_RETRY_DELAYS_MS)) 0 do_patch.

Definition patch_secret_with_retry (ns n : string) (schema_version : Z) (data : gmap string (list Z)) :
    SecretEnv → rpc string * SecretEnv :=
  run_secret_patch_retry_loop (λ e,
    let '(r, w) := secret_patch ns n (build_patch ns n schema_version data) (sv_kube e) in
    let e := mkSecretEnv w (sv_sleeps e) in
    match r with
    | Ok s => (Ok (default ""%string (so_resource_version s)), e)
    | Err err => (Err err, e)
    end).

Definition incoming_version (plaintext : gmap string string) : Z :=
  default 0 (v ← plaintext !! "schema_version"%string; parse_u32 v).

Definition encoded_data (plaintext : gmap string string) : gmap string (list Z) :=
  (λ v, base64 (bytes_of v)) <$> delete "schema_version"%string plaintext.

Definition apply_secret_inner (ns n yaml_content : string) (e : SecretEnv) : rpc string * SecretEnv :=
  match yaml_map yaml_content with
  | Err m => (Err (status InvalidArgument ("invalid YAML: " +:+ m)), e)
  | Ok plaintext =>
      let incoming := incoming_version plaintext in
      match fetch_current_secret_version ns n e with
      | (Err st, e1) => (Err st, e1)
      | (Ok current, e1) =>
          if incoming <=? current
          then (Err (status FailedPrecondition (version_message incoming current)), e1)
          else patch_secret_with_retry ns n incoming (encoded_data plaintext) e1
      end
  end.

Definition handle_apply_secret (req : ApplyRequest) : SecretEnv → rpc string * SecretEnv :=
  apply_secret_inner (ar_namespace req) (ar_name req) (ar_yaml_content req).
End ApplySecret.
Arguments SecretEnv : clear implicits.

(** ** Decimal round trip: [to_string] then [parse] *)
Lemma parse_digits_pretty_go x s :
  parse_digits 0 (pretty_N_go x s) = parse_digits (Z.of_N x) s.
Proof.
  revert s. induction (N.lt_wf_0 x) as [x _ IH]; intros s.
  destruct (decide (0 < x)%N) as [Hx|Hx]; [|by replace x with 0%N by lia].
  rewrite pretty_N_go_step by done. rewrite IH by (by apply N.div_lt). simpl.
  assert (Hd : digit_val (pretty_N_char (x `mod` 10)) = Some (Z.of_N (x `mod` 10))).
  { assert (x `mod` 10 < 10)%N by (apply N.mod_lt; done). revert H. generalize (x `mod` 10)%N. intros d Hd.
    assert (d = 0 ∨ d = 1 ∨ d = 2 ∨ d = 3 ∨ d = 4 ∨ d = 5 ∨ d = 6 ∨ d = 7 ∨ d = 8 ∨ d = 9)%N
      as Hcase by lia.
    by repeat destruct Hcase as [->|Hcase]; subst. }
  rewrite Hd. f_equal. rewrite N2Z.inj_div, N2Z.inj_mod. pose proof (Z.div_mod (Z.of_N x) 10). lia.
Qed.

Lemma parse_unsigned_pretty hi z : 0 ≤ z ≤ hi → parse_unsigned hi (pretty z) = Some z.
Proof.
  intros Hz.
  assert (Hb : parse_nat_body (pretty z) = Some z).
  { destruct z as [|p|p]; [done| |lia]. unfold parse_nat_body.
    change (pretty (Z.pos p)) with (pretty_N_go (N.pos p) "").
    pose proof (parse_digits_pretty_go (N.pos p) "") as Hp. simpl in Hp.
    destruct (pretty_N_go (N.pos p) "") as [|c s] eqn:Hs; [by simpl in Hp|]. done. }
  unfold parse_unsigned.
  assert (Hp : match pretty z with String "+" r => r | _ => pretty z end = pretty z).
  { destruct (pretty z) as [|c s]; [done|].
    destruct c as [[] [] [] [] [] [] [] []]; by vm_compute in Hb || done. }
  rewrite Hp, Hb. by rewrite (proj2 (Z.leb_le z hi)) by lia.
Qed.

(** ** What a secret write leaves behind *)
Section ApplySecretFacts.
Context (base64 : list Z → list Z).
Context (yaml_map : string → result (gmap string string) string).
Context (nanos : nat → Z).
Context {W : Type} `{SecretLaws W}.

#[local] Abbreviation patch_secret_with_retry := (patch_secret_with_retry nanos).
#[local] Abbreviation handle_apply_secret := (handle_apply_secret base64 yaml_map nanos).

(** Either nothing was stored at [k], or an object that carries [body]. *)
Definition stored (body : Secret) (k : string * string) (w w' : W) : Prop :=
  ∃ o, sstore w' = <[k := o]> (sstore w) ∧ patched body o.

Lemma classify_secret_retry err attempt d :
  classify_secret_patch_error err attempt = SecretRetryAfter d → ∃ m, err = ApiErr 409 m.
Proof.
  unfold classify_secret_patch_error. destruct err as [c m|m]; simpl; [|done].
  case_bool_decide as Hc; [|done]. simplify_eq. eauto.
Qed.

Lemma secret_patch_loop_store fuel attempt ns n body e r e' :
  squiet (sv_kube e) →
  secret_patch_loop nanos fuel attempt (λ e,
    let '(r, w) := secret_patch ns n body (sv_kube e) in
    let e := mkSecretEnv w (sv_sleeps e) in
    match r with
    | Ok s => (Ok (default ""%string (so_resource_version s)), e)
    | Err err => (Err err, e)
    end) e = (r, e') →
  stored body (ns, n) (sv_kube e) (sv_kube e') ∨
  (sstore (sv_kube e') = sstore (sv_kube e) ∧ is_ok r = false).
Proof.
  revert attempt e; induction fuel as [|fuel IH]; intros attempt e Hq; simpl.
  { intros [= <- <-]. by right. }
  destruct (secret_patch ns n body (sv_kube e)) as [pr w1] eqn:Hp.
  apply secret_patch_law in Hp as [Hq1 Hlaw]; [|done].
  destruct pr as [o|err].
  { intros [= <- <-]. left. exists o. done. }
  destruct (classify_secret_patch_error err attempt) as [d| |] eqn:Hc.
  - apply classify_secret_retry in Hc as [m ->]. intros Hrun.
    apply IH in Hrun; [|done]. simpl in Hrun. unfold stored in *. destruct Hlaw as [Hlaw|[? _]]; [|done].
    by rewrite Hlaw in Hrun.
  - intros [= <- <-]. simpl. destruct Hlaw as [?|[_ ?]]; [by right|by left].
  - intros [= <- <-]. simpl. destruct Hlaw as [?|[_ ?]]; [by right|by left].
Qed.

Lemma incoming_version_range p : in_u32 (incoming_version p).
Proof.
  unfold incoming_version. destruct (p !! "schema_version"%string) as [v|]; simpl; [|by vm_compute].
  destruct (parse_u32 v) as [z|] eqn:Hz; simpl; [|by vm_compute].
  by apply parse_unsigned_range in Hz.
Qed.

Lemma patched_version ns n v data o :
  in_u32 v → patched (build_patch ns n v data) o → parse_secret_schema_version o = v ∧ managed o = true.
Proof.
  intros Hv (Hl & Ha & _). unfold includes in *. simpl in *.
  rewrite map_singleton_subseteq_l in Hl, Ha. unfold parse_secret_schema_version, managed.
  destruct (so_annotations o) as [a|]; [|done]. destruct (so_labels o) as [l|]; [|done]. simpl in *.
  rewrite Ha, Hl. simpl. split; [|done]. unfold parse_u32. by rewrite parse_unsigned_pretty.
Qed.

Lemma patched_data ns n v data o k b :
  patched (build_patch ns n v data) o → data !! k = Some b →
  default ∅ (so_data o) !! k = Some b.
Proof.
  intros (_ & _ & Hd) Hk. unfold includes in Hd. simpl in Hd.
  rewrite bool_decide_false in Hd by (intros ->; by rewrite lookup_empty in Hk).
  simpl in Hd. by eapply lookup_weaken.
Qed.

Lemma fetch_secret_version_spec ns n e r e' :
  squiet (sv_kube e) → fetch_current_secret_version ns n e = (r, e') →
  squiet (sv_kube e') ∧ sstore (sv_kube e') = sstore (sv_kube e) ∧
  ∀ cur o0, r = Ok cur → sstore (sv_kube e) !! (ns, n) = Some o0 → parse_secret_schema_version o0 = cur.
Proof.
  intros Hq. unfold fetch_current_secret_version.
  destruct (secret_get ns n (sv_kube e)) as [gr w1] eqn:Hg.
  apply secret_get_law in Hg as (Hq1 & Hs1 & Hlaw); [|done].
  destruct gr as [o|err]; [intros [= <- <-]; naive_solver|].
  case_bool_decide as H404; intros [= <- <-]; simpl; split_and!; try done.
  intros cur o0 _ Ho0. destruct err as [c m|m]; [|done].
  simpl in H404. injection H404 as ->. rewrite Hlaw in Ho0; done.
Qed.

(** A call stores nothing, or an object carrying the request whose version is
    above the one stored before. *)
Lemma apply_secret_cases req e r e' :
  squiet (sv_kube e) → handle_apply_secret req e = (r, e') →
  let key := (ar_namespace req, ar_name req) in
  (sstore (sv_kube e') = sstore (sv_kube e) ∧ is_ok r = false) ∨
  ∃ p, yaml_map (ar_yaml_content req) = Ok p ∧
    stored (build_patch (ar_namespace req) (ar_name req) (incoming_version p) (encoded_data base64 p)) key
      (sv_kube e) (sv_kube e') ∧
    ∀ o0, sstore (sv_kube e) !! key = Some o0 → parse_secret_schema_version o0 < incoming_version p.
Proof.
  intros Hq Hrun key. unfold Secrets.handle_apply_secret, apply_secret_inner in Hrun.
  destruct (yaml_map (ar_yaml_content req)) as [p|m] eqn:Hy; [|simplify_eq; by left].
  destruct (fetch_current_secret_version _ _ e) as [cr e1] eqn:Hf.
  apply fetch_secret_version_spec in Hf as (Hq1 & Hs1 & Hc0); [|done].
  destruct cr as [cur|st]; [|simplify_eq; by left].
  destruct (Z.leb_spec (incoming_version p) cur) as [Hle|Hgt]; [simplify_eq; by left|].
  apply secret_patch_loop_store in Hrun; [|done]. unfold stored in *. rewrite Hs1 in Hrun.
  destruct Hrun as [Hst|?]; [|by left]. right. exists p. split_and!; [done..|].
  intros o0 Ho0. rewrite (Hc0 cur o0 eq_refl Ho0). lia.
Qed.

(** C33: writing a secret and reading it back.  While nobody else writes, a
    call of ApplySecret never lowers the stored schema version, whatever it
    returns.  When it succeeds the version went strictly up to the one in the
    request, the Secret is labelled as managed, and the watcher reads it back
    with that version; but every value comes back encoded twice in base64: the
    handler encodes it before handing it to an API that takes raw bytes, and the
    watcher encodes it again. *)
Theorem secret_apply_read_back req w r e' :
  squiet w →
  handle_apply_secret req (mkSecretEnv w []) = (r, e') →
  let key := (ar_namespace req, ar_name req) in
  (∀ o0, sstore w !! key = Some o0 →
     ∃ o, sstore (sv_kube e') !! key = Some o ∧
          parse_secret_schema_version o0 ≤ parse_secret_schema_version o) ∧
  (∀ rv, r = Ok rv →
     ∃ plaintext o, yaml_map (ar_yaml_content req) = Ok plaintext ∧
       sstore (sv_kube e') !! key = Some o ∧ managed o = true ∧
       (∀ o0, sstore w !! key = Some o0 → parse_secret_schema_version o0 < incoming_version plaintext) ∧
       ∀ now, ∃ snap, parse_secret base64 now o (ar_namespace req) = Some snap ∧
         s_schema_version snap = incoming_version plaintext ∧
         ∀ k v, k ≠ "schema_version"%string → plaintext !! k = Some v →
           s_data snap !! k = Some (base64 (base64 (bytes_of v)))).
Proof.
  intros Hq Hrun key.
  apply apply_secret_cases in Hrun as [[Hst Hne]|(p & Hy & (o & Hst & Hp) & Hlt)]; [| |done]; simpl in Hst; rewrite Hst.
  { split; [|by intros rv ->]. intros o0 ?. exists o0. by split. }
  simpl in Hlt. fold key in Hlt |- *. destruct (patched_version _ _ _ _ _ (incoming_version_range p) Hp) as [Hver Hm].
  rewrite lookup_insert_eq. split.
  - intros o0 Ho0. exists o. split; [done|]. apply Hlt in Ho0. lia.
  - intros rv _. exists p, o. split_and!; [done..|].
    intros now. eexists. split; [done|]. simpl. split; [done|]. intros k v Hk Hv.
    rewrite lookup_fmap, (patched_data _ _ _ _ _ k (base64 (bytes_of v)) Hp); [done|].
    unfold encoded_data. by rewrite lookup_fmap, lookup_delete_ne, Hv.
Qed.
End ApplySecretFacts.

(** ** Relists and the broadcast *)
Section SecretPumpFacts.
Context (base64 : list Z → list Z).
Context (secret_map_to_string : gmap string string → option string).
Context (from_utf8 : list Z → option string).

#[local] Abbreviation secret_pump_loop := (secret_pump_loop base64 secret_map_to_string from_utf8).
#[local] Abbreviation pump_secret_events := (pump_secret_events base64 secret_map_to_string from_utf8).
#[local] Abbreviation secret_event := (secret_event secret_map_to_string from_utf8).

Definition secret_relist (os : list (Instant * Secret)) : stream Secret :=
  (λ o, (o.1, Ok (InitApply o.2))) <$> os.

(** What a relist means: the snapshots it brings and the events it announces. *)
Definition relisted (ns : string) (os : list (Instant * Secret)) : list SecretSnapshot :=
  omap (λ o, parse_secret base64 o.1 o.2 ns) os.
Definition announced (ns : string) (os : list (Instant * Secret)) : list SecretEvent :=
  omap (λ o, secret_event o.1 MODIFIED <$> parse_secret base64 o.1 o.2 ns) os.

Lemma secret_pump_buffering ns os rest buf st lea :
  ∃ lea', secret_pump_loop ns true (Some buf) (secret_relist os ++ rest) st lea =
          secret_pump_loop ns true (Some (buf ++ (Upsert <$> relisted ns os))) rest
            (mkSecretSt (ss_cache st) (ss_sent st ++ announced ns os)) lea'.
Proof.
  revert buf st lea; induction os as [|[now o] os IH]; intros buf [c sent] lea; simpl.
  - exists lea. by rewrite !app_nil_r.
  - match goal with |- context [Secrets.secret_pump_loop _ _ _ _ _ (Some ?b) _ ?s ?l] =>
      destruct (IH b s l) as [l' Hl'] end.
    exists l'. rewrite Hl'. simpl. by rewrite <- !app_assoc.
Qed.

Lemma secret_pump_each ns os rest st lea :
  ∃ lea', secret_pump_loop ns false None (secret_relist os ++ rest) st lea =
          secret_pump_loop ns false None rest
            (mkSecretSt (foldl update (ss_cache st) (relisted ns os)) (ss_sent st ++ announced ns os)) lea'.
Proof.
  revert st lea; induction os as [|[now o] os IH]; intros [c sent] lea; simpl.
  - exists lea. by rewrite app_nil_r.
  - match goal with |- context [Secrets.secret_pump_loop _ _ _ _ _ None _ ?s ?l] =>
      destruct (IH s l) as [l' Hl'] end.
    exists l'. rewrite Hl'. simpl. by rewrite <- app_assoc.
Qed.

Lemma update_fold_inner (snaps : list SecretSnapshot) (c : SecretCache) :
  inner (foldl update c snaps) = inner (apply_batch c (Upsert <$> snaps)).1.
Proof.
  rewrite apply_batch_inner. revert c; induction snaps as [|s snaps IH]; intros c; [done|]. simpl. apply IH.
Qed.

(** Batching the relist of a reconnect is invisible to subscribers and to
    the cache.  A complete relist announces the same events in the same order
    and leaves the same cached secrets, batched or not.  A relist cut short by a
    stream error differs: the events seen so far were announced, but nothing was
    written, so the cache lags what subscribers were told until the next relist. *)
Theorem secret_relist_batching t0 os t1 ns st lea e :
  let full := (t0, Ok Init) :: secret_relist os ++ [(t1, Ok InitDone)] in
  let cut := (t0, Ok Init) :: secret_relist os ++ [(t1, Err e)] in
  (ss_sent (pump_secret_events full ns st lea true).1.1 = ss_sent st ++ announced ns os ∧
   ss_sent (pump_secret_events full ns st lea false).1.1 = ss_sent st ++ announced ns os) ∧
  inner (ss_cache (pump_secret_events full ns st lea true).1.1) =
    inner (ss_cache (pump_secret_events full ns st lea false).1.1) ∧
  ss_sent (pump_secret_events cut ns st lea true).1.1 = ss_sent st ++ announced ns os ∧
  ss_cache (pump_secret_events cut ns st lea true).1.1 = ss_cache st.
Proof.
  intros full cut. unfold Secrets.pump_secret_events, full, cut.
  destruct (secret_pump_buffering ns os [(t1, Ok InitDone)] [] st (touch t0)) as [l1 H1].
  destruct (secret_pump_each ns os [(t1, Ok InitDone)] st (touch t0)) as [l2 H2].
  destruct (secret_pump_buffering ns os [(t1, Err e)] [] st (touch t0)) as [l3 H3].
  cbn [Secrets.secret_pump_loop]. destruct st as [c sent].
  unfold route_secret_event at 1 2 3 4 5 6. cbn [route_relist_event handle_secret_event].
  rewrite H1, H2, H3. simpl. split_and!; try done. by rewrite update_fold_inner.
Qed.

Lemma emit_snapshot_room now snaps ch :
  ch_sched ch = [] → (ch_len ch + length snaps ≤ ch_cap ch)%nat →
  emit_snapshot_events secret_map_to_string from_utf8 now snaps ch =
    (true, mkChan (ch_cap ch) (ch_len ch + length snaps)
             (ch_accepted ch ++ (Ok <$> (secret_event now SNAPSHOT <$> snaps))) []).
Proof.
  revert ch; induction snaps as [|s snaps IH]; intros [cap len acc sched] Hsc Hr; simpl in *; subst.
  { by rewrite Nat.add_0_r, app_nil_r. }
  unfold offer, try_send; simpl. rewrite Nat.sub_0_r. destruct (Nat.leb_spec cap len); [lia|].
  rewrite IH; simpl; [|done|lia]. rewrite <- app_assoc. do 2 f_equal; lia.
Qed.

Lemma secret_bridge_room evs ch :
  ch_sched ch = [] → (ch_len ch + length evs ≤ ch_cap ch)%nat →
  ch_accepted (secret_bridge (SbRecv <$> evs) ch) = ch_accepted ch ++ (Ok <$> evs).
Proof.
  revert ch; induction evs as [|ev evs IH]; intros [cap len acc sched] Hsc Hr; simpl in *; subst.
  { by rewrite app_nil_r. }
  unfold offer, try_send; simpl. rewrite Nat.sub_0_r. destruct (Nat.leb_spec cap len); [lia|].
  rewrite IH; simpl; [|done|lia]. by rewrite <- app_assoc.
Qed.

Lemma secret_subscribe_room `{!MapIter OwnedKey SecretSnapshot} now ns names cache after ch raw :
  ch_sched ch = [] → ch_accepted ch = [] →
  (ch_len ch + length (all_in_namespace cache ns) + length after ≤ ch_cap ch)%nat →
  ∃ ch', handle_subscribe_secrets base64 secret_map_to_string from_utf8 now cache (Some (SbRecv <$> after)) raw
           (mkSubscribeSecretsRequest ns names "") ch = Ok ch' ∧
    ch_accepted ch' = Ok <$> (secret_event now SNAPSHOT <$> all_in_namespace cache ns) ++ after.
Proof.
  intros Hs Ha Hroom. unfold handle_subscribe_secrets. simpl.
  assert (Hem : (if bool_decide (all_in_namespace cache ns = []) then (true, ch)
                 else emit_snapshot_events secret_map_to_string from_utf8 now (all_in_namespace cache ns) ch)
              = emit_snapshot_events secret_map_to_string from_utf8 now (all_in_namespace cache ns) ch).
  { case_bool_decide as Hn; [by rewrite Hn|done]. }
  rewrite Hem, emit_snapshot_room by (done || lia). eexists. split; [done|].
  rewrite secret_bridge_room by (simpl; done || lia). simpl. by rewrite Ha, fmap_app.
Qed.

(** SubscribeSecrets takes the snapshot before it joins the broadcast.
    With room in the channel, whatever names the request lists, the client gets a
    SNAPSHOT of every secret of the namespace cached when it subscribed and then
    exactly the events announced after it joined; so an event announced in
    between reaches it in neither way. *)
Theorem secret_subscribe_window `{!MapIter OwnedKey SecretSnapshot} now ns names cache after ch raw :
  ch_sched ch = [] → ch_accepted ch = [] →
  (ch_len ch + length (all_in_namespace cache ns) + length after ≤ ch_cap ch)%nat →
  ∃ ch', handle_subscribe_secrets base64 secret_map_to_string from_utf8 now cache (Some (SbRecv <$> after)) raw
           (mkSubscribeSecretsRequest ns names "") ch = Ok ch' ∧
    ch_accepted ch' =
      Ok <$> (secret_event now SNAPSHOT <$> all_in_namespace cache ns) ++ after ∧
    ∀ ev, (∀ s, s ∈ all_in_namespace cache ns → ev ≠ secret_event now SNAPSHOT s) → ev ∉ after →
      Ok ev ∉ ch_accepted ch'.
Proof.
  intros Hs Ha Hroom. destruct (secret_subscribe_room now ns names cache after ch raw Hs Ha Hroom) as (ch' & Hrun & Hacc).
  exists ch'. split_and!; [done..|]. intros ev Hno Haf. rewrite Hacc, fmap_app. intros [Hin|Hin]%elem_of_app.
  - apply list_elem_of_fmap in Hin as (x & [= ->] & (s & -> & Hin)%list_elem_of_fmap). by apply (Hno s).
  - by apply list_elem_of_fmap in Hin as (x & [= ->] & Hin).
Qed.
End SecretPumpFacts.

(** ** Witnesses: base64 of RFC 4648 and an API server that is a map *)
Definition b64_char (n : Z) : Z :=
  if n <? 26 then n + 65 else if n <? 52 then n + 71 else if n <? 62 then n - 4
  else if n =? 62 then 43 else 47.

Fixpoint b64_encode (l : list Z) : list Z :=
  match l with
  | a :: b :: c :: rest =>
      [b64_char (a / 4); b64_char (a mod 4 * 16 + b / 16); b64_char (b mod 16 * 4 + c / 64); b64_char (c mod 64)]
        ++ b64_encode rest
  | [a; b] => [b64_char (a / 4); b64_char (a mod 4 * 16 + b / 16); b64_char (b mod 16 * 4); 61]
  | [a] => [b64_char (a / 4); b64_char (a mod 4 * 16); 61; 61]
  | [] => []
  end.

Example b64_man : b64_encode (bytes_of "Many") = bytes_of "TWFueQ==".
Proof. reflexivity. Qed.

#[local] Instance MapSecrets : SecretApi (gmap (string * string) Secret) := {|
  secret_get ns n w := (ok_or (w !! (ns, n)) (ApiErr 404 "not found"), w);
  secret_patch ns n body w := (Ok body, <[(ns, n) := body]> w)
|}.

#[local, program] Instance MapSecrets_laws : SecretLaws (gmap (string * string) Secret) := {|
  squiet _ := True;
  sstore w := w
|}.
Next Obligation. intros ns n w r w' _. simpl. intros [= <- <-]. by destruct (w !! (ns, n)). Qed.
Next Obligation. intros ns n body w r w' _. simpl. intros [= <- <-]. unfold patched, includes. by split_and!. Qed.

Definition demo_yaml (_ : string) : result (gmap string string) string :=
  Ok {["schema_version" := "2"; "password" := "hi"]}%string.

(** The client is served [YUdrPQ==], not [aGk=], for the value [hi]. *)
Lemma secret_apply_read_back_witness :
  let req := mkApplyRequest "prod" "db" "" in
  let out := handle_apply_secret b64_encode demo_yaml (λ _, 0) req
               (mkSecretEnv (∅ : gmap (string * string) Secret) []) in
  is_ok out.1 = true ∧
  ∃ o, sv_kube out.2 !! ("prod", "db")%string = Some o ∧
    s_data <$> parse_secret b64_encode 0 o "prod" = Some {["password"%string := bytes_of "YUdrPQ=="]}.
Proof.
  intros req out. split; [reflexivity|].
  assert (Hq : squiet (∅ : gmap (string * string) Secret)) by exact I.
  destruct (secret_apply_read_back b64_encode demo_yaml (λ _, 0) req (∅ : gmap (string * string) Secret) out.1 out.2 Hq eq_refl) as [_ Hok].
  destruct (Hok ""%string eq_refl) as (p & o & _ & Ho & _). exists o. split; [exact Ho|].
  vm_compute in Ho. injection Ho as <-. vm_compute. reflexivity.
Defined.

Import CanonicalIter.

(** An event announced between the snapshot of an empty cache and the attachment
    is not delivered. *)
Lemma secret_subscribe_window_witness :
  let gap := mkSecretEvent MODIFIED (Some (mkSecretResponse "prod" "db" 2 "{}" "7" 0 (-1))) in
  let ch : Chan SecretMsg := mkChan CHANNEL_CAPACITY 0 [] [] in
  ∃ ch', handle_subscribe_secrets b64_encode (λ _, None) (λ _, None) 0 SecretCache_new (Some (SbRecv <$> [])) (Ok [])
           (mkSubscribeSecretsRequest "prod" [] "") ch = Ok ch' ∧
    Ok gap ∉ ch_accepted ch'.
Proof.
  intros gap ch.
  destruct (secret_subscribe_window b64_encode (λ _, None) (λ _, None) 0 "prod" [] SecretCache_new [] ch (Ok [])
              eq_refl eq_refl) as (ch' & Hrun & _ & Hno).
  - apply Nat.leb_le. vm_compute. reflexivity.
  - exists ch'. split; [exact Hrun|]. apply Hno; [|apply not_elem_of_nil].
    intros s Hs. vm_compute in Hs. exfalso. by apply elem_of_nil in Hs.
Defined.
