(* ===== verification/Server.v ===== *)
(** * The gRPC service: [grpc/service.rs], [grpc/mod.rs], [grpc/context.rs],
    [grpc/audit.rs], [grpc/drain.rs], [grpc/get.rs]

    Every RPC of [KonfigService] with its guards in order (entry log, drain,
    authorization, quota, rate limit), the handler it delegates to, the cache
    accounting and the audit records it emits. *)
From S2P Require Export Acl Secrets TenantCache.

(** ** Code that is not part of the program *)
Class Externals := {
  Validator : Type;
  x_yaml_spec : string → result ConfigSpec string;
  x_yaml_map : string → result (gmap string string) string;
  x_iter_errors : Validator → json → list string;
  x_to_string : json → option string;
  x_dry_run_string : json → result string string;
  x_secret_string : gmap string string → option string;
  x_from_utf8 : list Z → option string;
  x_base64 : list Z → list Z;
  x_parse_x509 : list Z → option X509;
  x_de_display : DeError → string;
  x_traceparent : option string;
  x_nanos : nat → Z;
  x_process_start_nanos : Z
}.

(** ** Requests

    The message with what the transport knows: peer certificates, the
    [x-request-id] metadata when it is a string, the remote address, and the
    clocks read during the call. *)
Record Request (T : Type) : Type := mkRequest {
  rq_peer_certs : option (list (list Z));
  rq_request_id : option string;
  rq_remote_addr : option string;
  rq_now : Instant;
  rq_wall_ms : Z;
  rq_body : T
}.
Arguments mkRequest {T} _ _ _ _ _ _.
Arguments rq_peer_certs {T} _.
Arguments rq_request_id {T} _.
Arguments rq_remote_addr {T} _.
Arguments rq_now {T} _.
Arguments rq_wall_ms {T} _.
Arguments rq_body {T} _.

(** ** Audit ([grpc/audit.rs]) *)
Record AuditRecord : Set := mkAudit {
  au_rpc : string;
  au_namespace : string;
  au_name : string;
  au_client_identity : string;
  au_client_addr : string;
  au_result : string;
  au_schema_version : option Z;
  au_resource_version : option string;
  au_timestamp_ms : Z;
  au_request_id : string
}.

Definition code_snake (c : Code) : string :=
  match c with
  | Code_Ok => "ok" | Cancelled => "cancelled" | Unknown => "unknown"
  | InvalidArgument => "invalid_argument" | DeadlineExceeded => "deadline_exceeded"
  | NotFound => "not_found" | AlreadyExists => "already_exists"
  | PermissionDenied => "permission_denied" | ResourceExhausted => "resource_exhausted"
  | FailedPrecondition => "failed_precondition" | Aborted => "aborted"
  | OutOfRange => "out_of_range" | Unimplemented => "unimplemented" | Internal => "internal"
  | Unavailable => "unavailable" | DataLoss => "data_loss" | Unauthenticated => "unauthenticated"
  end.

Definition result_str {A} (r : rpc A) : string :=
  match r with Ok _ => "success" | Err s => "error:" +:+ code_snake (st_code s) end.

Definition resource_version_of {A} (r : rpc A) (extract : A → string) : option string :=
  match r with Ok a => if is_empty (extract a) then None else Some (extract a) | Err _ => None end.

Record K8sEvent : Set := mkK8sEvent {
  kev_namespace : string;
  kev_name : string;
  kev_reason : string;
  kev_message : string;
  kev_type : string
}.

(** The event mirrored for a record; posting it is best effort. *)
Definition k8s_event (r : AuditRecord) : K8sEvent :=
  mkK8sEvent (au_namespace r) (au_name r) (au_rpc r)
    (au_rpc r +:+ " by " +:+ au_client_identity r +:+ " → " +:+ au_result r)
    (if starts_with "error:" (au_result r) then "Warning" else "Normal").

(** ** The server *)
Record Server `{Externals} : Type := mkServer {
  srv_draining : bool;
  srv_authz_mode : Mode;
  srv_acl : AclTable;
  srv_acl_synced : bool;
  srv_schemas : gmap (string * string) Validator;
  srv_quota_mode : QuotaMode;
  srv_quota : QuotaTable;
  srv_quota_synced : bool;
  srv_default_max_subscribers : Z;
  srv_default_rate : Z;
  srv_default_budget : Z;
  srv_shards : nat;
  srv_cache : ConfigCache;
  srv_secret_cache : SecretCache;
  srv_k8s_events : bool                      (* [KONFIG_AUDIT_K8S_EVENTS] *)
}.

(** What the calls change: the token buckets, the subscriber counts, the byte
    ledger and the two tenant counters. *)
Record Tenancy : Type := mkTenancy {
  tn_limiter : ApplyLimiter;
  tn_counts : SubscriberCounts;
  tn_ledger : Ledger;
  tn_denied : gmap (string * string) Z;      (* [konfig_tenant_quota_denied_total] *)
  tn_applies : gmap string Z                 (* [konfig_tenant_applies_total] *)
}.

(** The request-id sequence, the entry log lines (rpc, request id), the audit
    records on stdout and the Kubernetes events posted. *)
Record Logs : Type := mkLogs {
  lo_seq : Z;
  lo_entries : list (string * string);
  lo_audit : list AuditRecord;
  lo_events : list K8sEvent
}.

Section Service.
Context `{X : Externals}.
Context {W : Type} `{KubeApi W, SecretApi W}.
Context `{!MapIter OwnedKey ConfigSnapshot, !MapIter OwnedKey SecretSnapshot}.

Record St : Type := mkSt {
  s_env : Env W;
  s_secret_sleeps : list Z;
  s_tenancy : Tenancy;
  s_logs : Logs;
  s_maps : NsMaps
}.

Definition SM (A : Type) : Type := St → rpc A * St.
Definition sret {A} (a : A) : SM A := λ s, (Ok a, s).
Definition sfail {A} (e : Status) : SM A := λ s, (Err e, s).
Definition slift {A} (r : rpc A) : SM A := λ s, (r, s).
Definition sbind {A B} (m : SM A) (k : A → SM B) : SM B :=
  λ s, match m s with (Ok a, s') => k a s' | (Err e, s') => (Err e, s') end.

#[local] Notation "'let*' x := m 'in' k" := (sbind m (fun x => k))
  (at level 10, x pattern, m at level 100, k at level 200).

Definition with_env (f : Env W → Env W) (s : St) : St :=
  mkSt (f (s_env s)) (s_secret_sleeps s) (s_tenancy s) (s_logs s) (s_maps s).
Definition with_tenancy (f : Tenancy → Tenancy) (s : St) : St :=
  mkSt (s_env s) (s_secret_sleeps s) (f (s_tenancy s)) (s_logs s) (s_maps s).
Definition with_logs (f : Logs → Logs) (s : St) : St :=
  mkSt (s_env s) (s_secret_sleeps s) (s_tenancy s) (f (s_logs s)) (s_maps s).

(** Running a handler of [Apply] or [Secrets] on the server's state; the handler's result
    is a value, so that it can be audited on either outcome. *)
Definition run_kube {A} (m : M W A) : SM (rpc A) :=
  λ s, let '(r, e) := m (s_env s) in (Ok r, with_env (λ _, e) s).
Definition run_secret {A} (m : SecretEnv W → rpc A * SecretEnv W) : SM (rpc A) :=
  λ s, let e := s_env s in
       let '(r, e') := m (mkSecretEnv (e_kube e) (s_secret_sleeps s)) in
       (Ok r, mkSt (mkEnv (sv_kube e') (e_trace e) (e_applies e)) (sv_sleeps e') (s_tenancy s) (s_logs s) (s_maps s)).

(** *** [grpc/context.rs] *)
Definition hex_digit (n : Z) : ascii := ascii_of_nat (Z.to_nat (if n <? 10 then n + 48 else n + 87)).
Fixpoint hex_go (fuel : nat) (n : Z) (acc : string) : string :=
  match fuel with
  | O => acc
  | S f => let acc := String (hex_digit (n mod 16)) acc in
           if n / 16 =? 0 then acc else hex_go f (n / 16) acc
  end.
(** [{:x}] of a [u128]: at most 32 digits. *)
Definition hex (n : Z) : string := hex_go 32 n "".

(** Echo the caller's id or mint one. *)
Definition request_id {T} (req : Request T) : SM string :=
  λ s, let minted :=
         (Ok (hex x_process_start_nanos +:+ "-" +:+ hex (lo_seq (s_logs s))),
          with_logs (λ l, mkLogs ((lo_seq l + 1) mod (u64_max + 1)) (lo_entries l) (lo_audit l) (lo_events l)) s) in
       match rq_request_id req with
       | Some v => if is_empty (trim v) then minted else (Ok (trim v), s)
       | None => minted
       end.

Definition client_addr {T} (req : Request T) : string := default "unknown" (rq_remote_addr req).

Definition log_rpc_entry {T} (name : string) (req : Request T) : SM unit :=
  let* id := request_id req in
  λ s, (Ok tt, with_logs (λ l, mkLogs (lo_seq l) (lo_entries l ++ [(name, id)]) (lo_audit l) (lo_events l)) s).

Definition parse_config_schema_version (yaml_content : string) : option Z :=
  match x_yaml_spec yaml_content with Ok spec => Some (cs_schema_version spec) | Err _ => None end.

Definition yaml_secret_schema_version (yaml_content : string) : option Z :=
  match x_yaml_map yaml_content with
  | Ok m => v ← m !! "schema_version"%string; parse_u32 v
  | Err _ => None
  end.

(** *** [grpc/audit.rs] *)
Definition audit_emit (r : AuditRecord) : SM unit :=
  λ s, (Ok tt, with_logs (λ l, mkLogs (lo_seq l) (lo_entries l) (lo_audit l ++ [r]) (lo_events l)) s).
Definition maybe_emit_k8s_event (srv : Server) (r : AuditRecord) : SM unit :=
  λ s, (Ok tt, if srv_k8s_events srv
               then with_logs (λ l, mkLogs (lo_seq l) (lo_entries l) (lo_audit l) (lo_events l ++ [k8s_event r])) s
               else s).

(** *** Guards ([grpc/drain.rs], [grpc/mod.rs]) *)
Definition check_drain (srv : Server) : SM unit :=
  if srv_draining srv then sfail (status Unavailable "server draining") else sret tt.

Definition begin_drain (srv : Server) : Server * bool :=
  (mkServer _ true (srv_authz_mode srv) (srv_acl srv) (srv_acl_synced srv) (srv_schemas srv)
     (srv_quota_mode srv) (srv_quota srv) (srv_quota_synced srv) (srv_default_max_subscribers srv)
     (srv_default_rate srv) (srv_default_budget srv) (srv_shards srv) (srv_cache srv) (srv_secret_cache srv)
     (srv_k8s_events srv), negb (srv_draining srv)).

Definition identity_of {T} (req : Request T) : ClientIdentity :=
  extract_identity x_parse_x509 (rq_peer_certs req).

Definition authorize {T} (srv : Server) (req : Request T) (v : Verb) (ns n : string) : rpc unit :=
  if bool_decide (srv_authz_mode srv = Disabled) then Ok tt
  else (check (srv_authz_mode srv) (srv_acl srv) (srv_acl_synced srv) (identity_of req) v ns n).1.

Definition quota_denied (name mode : string) (t : Tenancy) : Tenancy :=
  mkTenancy (tn_limiter t) (tn_counts t) (tn_ledger t)
    (<[(name, mode) := default 0 (tn_denied t !! (name, mode)) + 1]> (tn_denied t)) (tn_applies t).

(** [Some identity] is the guard to attach to the stream. *)
Definition admit_subscriber {T} (srv : Server) (req : Request T) : SM (option string) :=
  λ s,
    if bool_decide (srv_quota_mode srv = QDisabled) then (Ok None, s)
    else
      let identity := ci_id (identity_of req) in
      let limit := effective_subscriber_limit (srv_quota srv) (srv_quota_synced srv)
                     (srv_default_max_subscribers srv) identity in
      let '(a, counts) := admit_stream (tn_counts (s_tenancy s)) identity (srv_quota_mode srv) limit in
      let s := with_tenancy (λ t, mkTenancy (tn_limiter t) counts (tn_ledger t) (tn_denied t) (tn_applies t)) s in
      match a with
      | AdmitAllowed guard _ _ over_budget =>
          (Ok (Some guard), if over_budget then with_tenancy (quota_denied "subscribe" "permissive") s else s)
      | AdmitDenied cur lim =>
          (Err (status ResourceExhausted
                  ("tenant subscriber quota exhausted (" +:+ pretty cur +:+ "/" +:+ pretty lim +:+ ")")),
           with_tenancy (quota_denied "subscribe" "enforce") s)
      end.

(** The guard of a stream that is dropped. *)
Definition drop_guard (guard : option string) (s : St) : St :=
  match guard with
  | Some identity =>
      with_tenancy (λ t, mkTenancy (tn_limiter t) (release (tn_counts t) identity) (tn_ledger t)
                           (tn_denied t) (tn_applies t)) s
  | None => s
  end.

Definition rate_limit_apply {T} (srv : Server) (req : Request T) (name : string) (cost : Z) : SM unit :=
  λ s,
    let identity := ci_id (identity_of req) in
    let '(outcome, limiter) :=
      apply_admission (tn_limiter (s_tenancy s)) (srv_quota srv) (srv_quota_synced srv) (srv_quota_mode srv)
        (srv_default_rate srv) identity cost (rq_now req) in
    let counted := negb (bool_decide (srv_quota_mode srv = QDisabled)) &&
                   match outcome with OutcomeDenied _ _ => false | _ => true end in
    let s := with_tenancy (λ t,
      mkTenancy limiter (tn_counts t) (tn_ledger t) (tn_denied t)
        (if counted then <[identity := default 0 (tn_applies t !! identity) + cost]> (tn_applies t)
         else tn_applies t)) s in
    match outcome with
    | OutcomeAllowed => (Ok tt, s)
    | OutcomeOverBudget _ _ => (Ok tt, with_tenancy (quota_denied name "permissive") s)
    | OutcomeDenied rate burst =>
        (Err (status ResourceExhausted
                ("tenant apply rate exhausted (rate=" +:+ pretty rate +:+ "/s, burst=" +:+ pretty burst
                 +:+ ", cost=" +:+ pretty cost +:+ ")")),
         with_tenancy (quota_denied name "enforce") s)
    end.

Definition cache_accountant {T} (srv : Server) (req : Request T) (kind : string) : option CacheAccountant :=
  if bool_decide (srv_quota_mode srv = QDisabled) then None
  else
    let identity := ci_id (identity_of req) in
    Some (mkAccountant identity (srv_quota_mode srv)
            (effective_cache_budget (srv_quota srv) (srv_quota_synced srv) (srv_default_budget srv) identity) kind).

Definition with_ledger (f : Ledger → Ledger) : SM unit :=
  λ s, (Ok tt, with_tenancy (λ t, mkTenancy (tn_limiter t) (tn_counts t) (f (tn_ledger t)) (tn_denied t) (tn_applies t)) s).

(** *** [grpc/get.rs] and the secret costs of [tenant_cache.rs] *)
Definition handle_get (now : Instant) (cache : ConfigCache) (ns n : string) : rpc ConfigMsg :=
  match CowCache.get cache ns n with
  | Some snap => Ok (snapshot_to_proto x_to_string now snap)
  | None => Err (status NotFound ("config " +:+ ns +:+ "/" +:+ n +:+ " not found"))
  end.

Definition handle_get_all (now : Instant) (cache : ConfigCache) (ns : string) : list ConfigMsg :=
  snapshot_to_proto x_to_string now <$> all_in_namespace cache ns.

Definition secret_cost (r : SecretResponse) : option Cost :=
  Some (sp_namespace r, sp_name r, str_len (sp_data_json r) + str_len (sp_namespace r) + str_len (sp_name r)).
Definition secret_event_cost (e : SecretEvent) : option Cost := se_secret e ≫= secret_cost.

(** *** Audit helpers of [grpc/service.rs] *)
Record ReadAudit : Set := mkReadAudit {
  ra_rpc : string; ra_namespace : string; ra_name : string;
  ra_identity : string; ra_addr : string; ra_rid : string
}.

Definition capture {T} (name : string) (req : Request T) (ns n : string) : SM ReadAudit :=
  let* rid := request_id req in
  sret (mkReadAudit name ns n (ci_id (identity_of req)) (client_addr req) rid).

Definition read_record {A} (a : ReadAudit) (wall_ms : Z) (r : rpc A) (rv : option string) : AuditRecord :=
  mkAudit (ra_rpc a) (ra_namespace a) (ra_name a) (ra_identity a) (ra_addr a) (result_str r) None rv wall_ms
    (ra_rid a).

(** Emit to both sinks, as the mutating RPCs do. *)
Definition audit_both (srv : Server) (r : AuditRecord) : SM unit :=
  let* _ := audit_emit r in maybe_emit_k8s_event srv r.

(** ** The RPCs *)
Definition rpc_get (srv : Server) (req : Request (string * string)) : SM ConfigMsg :=
  let '(ns, n) := rq_body req in
  let* _ := log_rpc_entry "konfig.Get" req in
  let* _ := check_drain srv in
  let* _ := slift (authorize srv req Read ns n) in
  let acct := cache_accountant srv req "config" in
  let result := handle_get (rq_now req) (srv_cache srv) ns n in
  let* _ := with_ledger (accounted_poll acct config_cost result) in
  slift result.

(** [taken] items of the stream are polled by the client. *)
Definition rpc_get_all (srv : Server) (req : Request string) (taken : nat) : SM (list (rpc ConfigMsg)) :=
  let ns := rq_body req in
  let* _ := log_rpc_entry "konfig.GetAll" req in
  let* _ := check_drain srv in
  let* _ := slift (authorize srv req Read ns "*") in
  let acct := cache_accountant srv req "config" in
  let items := take taken (Ok <$> handle_get_all (rq_now req) (srv_cache srv) ns) in
  let* _ := with_ledger (λ l, (accounted_stream acct config_cost items l).2) in
  sret items.

Definition rpc_apply (srv : Server) (req : Request ApplyRequest) : SM string :=
  let b := rq_body req in
  let ns := ar_namespace b in
  let n := ar_name b in
  let* _ := log_rpc_entry "konfig.Apply" req in
  let* _ := check_drain srv in
  let* _ := slift (authorize srv req Write ns n) in
  let* _ := rate_limit_apply srv req "apply" 1 in
  let* rid := request_id req in
  let* result := run_kube (handle_apply x_yaml_spec x_iter_errors x_traceparent x_nanos (srv_schemas srv) b) in
  let* _ := audit_both srv
    (mkAudit "Apply" ns n (ci_id (identity_of req)) (client_addr req) (result_str result)
       (parse_config_schema_version (ar_yaml_content b)) (resource_version_of result id) (rq_wall_ms req) rid) in
  slift result.

Fixpoint authorize_all {T} (srv : Server) (req : Request T) (items : list ApplyRequest) : rpc unit :=
  match items with
  | [] => Ok tt
  | it :: rest =>
      let? _ := authorize srv req Write (ar_namespace it) (ar_name it) in authorize_all srv req rest
  end.

(** The resource version of one item among the results of the batch. *)
Definition batch_item_version (result : rpc (list BatchApplyResult)) (ns n : string) : option string :=
  match result with
  | Ok rs =>
      match list_find (λ r, br_namespace r = ns ∧ br_name r = n) rs with
      | Some (_, r) => if is_empty (br_resource_version r) then None else Some (br_resource_version r)
      | None => None
      end
  | Err _ => None
  end.

Fixpoint audit_items {T} (srv : Server) (req : Request T) (rid : string) (result : rpc (list BatchApplyResult))
    (items : list ApplyRequest) : SM unit :=
  match items with
  | [] => sret tt
  | it :: rest =>
      let* _ := audit_both srv
        (mkAudit "BatchApply" (ar_namespace it) (ar_name it) (ci_id (identity_of req)) (client_addr req)
           (result_str result) (parse_config_schema_version (ar_yaml_content it))
           (batch_item_version result (ar_namespace it) (ar_name it)) (rq_wall_ms req) rid) in
      audit_items srv req rid result rest
  end.

Definition rpc_batch_apply (srv : Server) (req : Request (list ApplyRequest)) : SM (list BatchApplyResult) :=
  let items := rq_body req in
  let* _ := log_rpc_entry "konfig.BatchApply" req in
  let* _ := check_drain srv in
  let* _ := slift (authorize_all srv req items) in
  let* _ := rate_limit_apply srv req "batch_apply" (as_u32 (Z.of_nat (length items))) in
  let* rid := request_id req in
  let* result := run_kube (handle_batch_apply x_yaml_spec x_iter_errors x_traceparent x_nanos (srv_schemas srv) items) in
  let* _ := audit_items srv req rid result items in
  slift result.

Definition rpc_dry_run_apply (srv : Server) (req : Request ApplyRequest) : SM DryRunApplyResponse :=
  let b := rq_body req in
  let* _ := log_rpc_entry "konfig.DryRunApply" req in
  let* _ := check_drain srv in
  let* _ := slift (authorize srv req Write (ar_namespace b) (ar_name b)) in
  let* result := run_kube (handle_dry_run_apply x_yaml_spec x_dry_run_string b) in
  slift result.

(** No drain check and no rate limit here. *)
Definition rpc_revert (srv : Server) (req : Request RevertRequest) : SM RevertResponse :=
  let b := rq_body req in
  let* _ := log_rpc_entry "konfig.Revert" req in
  let* _ := slift (authorize srv req Write (rr_namespace b) (rr_name b)) in
  let* rid := request_id req in
  let* result := run_kube (handle_revert x_traceparent x_nanos x_de_display b) in
  let* _ := audit_both srv
    (mkAudit "Revert" (rr_namespace b) (rr_name b) (ci_id (identity_of req)) (client_addr req) (result_str result)
       None (resource_version_of result rv_resource_version) (rq_wall_ms req) rid) in
  slift result.

(** The stream of an accepted subscription: filter, shard, buffer, the guard and
    the accountant that ride on it.  [rx] and [task] name the receiver and the
    watcher task a new namespace would spawn. *)
Definition rpc_subscribe (srv : Server) (req : Request SubscribeRequest) (rx task : nat) :
    SM (SubscribeFilter * nat * list ReplayEntry * option string * option CacheAccountant) :=
  let b := rq_body req in
  let* _ := log_rpc_entry "konfig.Subscribe" req in
  let* _ := check_drain srv in
  let* _ := slift (authorize srv req Read (sr_namespace b) "*") in
  let* guard := admit_subscriber srv req in
  let acct := cache_accountant srv req "config" in
  λ s,
    let '(r, maps) := handle_subscribe (srv_cache srv) (srv_shards srv) rx task b (s_maps s) in
    let s := mkSt (s_env s) (s_secret_sleeps s) (s_tenancy s) (s_logs s) maps in
    match r with
    | Ok (f, idx, buf) => (Ok (f, idx, buf, guard, acct), s)
    | Err e => (Err e, drop_guard guard s)
    end.

Definition rpc_get_secret (srv : Server) (req : Request (string * string)) : SM SecretResponse :=
  let '(ns, n) := rq_body req in
  let* _ := log_rpc_entry "konfig.GetSecret" req in
  let* _ := check_drain srv in
  let* _ := slift (authorize srv req Read ns n) in
  let acct := cache_accountant srv req "secret" in
  let* ra := capture "GetSecret" req ns n in
  let result := handle_get_secret x_secret_string x_from_utf8 (rq_now req) (srv_secret_cache srv) ns n in
  let* _ := with_ledger (accounted_poll acct secret_cost result) in
  let* _ := audit_emit (read_record ra (rq_wall_ms req) result (resource_version_of result sp_resource_version)) in
  slift result.

Definition rpc_get_all_secrets (srv : Server) (req : Request string) (taken : nat) : SM (list (rpc SecretResponse)) :=
  let ns := rq_body req in
  let* _ := log_rpc_entry "konfig.GetAllSecrets" req in
  let* _ := check_drain srv in
  let* _ := slift (authorize srv req Read ns "*") in
  let acct := cache_accountant srv req "secret" in
  let* ra := capture "GetAllSecrets" req ns "*" in
  let items := take taken (Ok <$> handle_get_all_secrets x_secret_string x_from_utf8 (rq_now req) (srv_secret_cache srv) ns) in
  let* _ := audit_emit (read_record ra (rq_wall_ms req) (Ok items) None) in
  let* _ := with_ledger (λ l, (accounted_stream acct secret_cost items l).2) in
  sret items.

Definition rpc_apply_secret (srv : Server) (req : Request ApplyRequest) : SM string :=
  let b := rq_body req in
  let ns := ar_namespace b in
  let n := ar_name b in
  let* _ := log_rpc_entry "konfig.ApplySecret" req in
  let* _ := check_drain srv in
  let* _ := slift (authorize srv req Write ns n) in
  let* _ := rate_limit_apply srv req "apply_secret" 1 in
  let* rid := request_id req in
  let* result := run_secret (handle_apply_secret x_base64 x_yaml_map x_nanos b) in
  let* _ := audit_both srv
    (mkAudit "ApplySecret" ns n (ci_id (identity_of req)) (client_addr req) (result_str result)
       (yaml_secret_schema_version (ar_yaml_content b)) (resource_version_of result id) (rq_wall_ms req) rid) in
  slift result.

Definition rpc_subscribe_secrets (srv : Server) (req : Request SubscribeSecretsRequest)
    (live : option (list SecretBridgeInput)) (raw : result (list (Instant * RawInput)) string) :
    SM (Chan SecretMsg * option string * option CacheAccountant) :=
  let b := rq_body req in
  let* _ := log_rpc_entry "konfig.SubscribeSecrets" req in
  let* _ := check_drain srv in
  let* _ := slift (authorize srv req Read (ssr_namespace b) "*") in
  let* guard := admit_subscriber srv req in
  let acct := cache_accountant srv req "secret" in
  let* ra := capture "SubscribeSecrets" req (ssr_namespace b) "*" in
  λ s,
    let r := handle_subscribe_secrets x_base64 x_secret_string x_from_utf8 (rq_now req) (srv_secret_cache srv)
               live raw b (mkChan CHANNEL_CAPACITY 0 [] []) in
    let s := match r with Ok _ => s | Err _ => drop_guard guard s end in
    (let* _ := audit_emit (read_record ra (rq_wall_ms req) r None) in
     slift (match r with Ok ch => Ok (ch, guard, acct) | Err e => Err e end)) s.

(** ** All calls *)
Inductive Call : Type :=
  | CGet (req : Request (string * string))
  | CGetAll (req : Request string) (taken : nat)
  | CApply (req : Request ApplyRequest)
  | CBatchApply (req : Request (list ApplyRequest))
  | CDryRunApply (req : Request ApplyRequest)
  | CRevert (req : Request RevertRequest)
  | CSubscribe (req : Request SubscribeRequest) (rx task : nat)
  | CGetSecret (req : Request (string * string))
  | CGetAllSecrets (req : Request string) (taken : nat)
  | CApplySecret (req : Request ApplyRequest)
  | CSubscribeSecrets (req : Request SubscribeSecretsRequest)
      (live : option (list SecretBridgeInput)) (raw : result (list (Instant * RawInput)) string).

(** Forget the reply. *)
Definition erased {A} (m : SM A) : SM unit := let* _ := m in sret tt.

Definition serve (srv : Server) (c : Call) : SM unit :=
  match c with
  | CGet req => erased (rpc_get srv req)
  | CGetAll req taken => erased (rpc_get_all srv req taken)
  | CApply req => erased (rpc_apply srv req)
  | CBatchApply req => erased (rpc_batch_apply srv req)
  | CDryRunApply req => erased (rpc_dry_run_apply srv req)
  | CRevert req => erased (rpc_revert srv req)
  | CSubscribe req rx task => erased (rpc_subscribe srv req rx task)
  | CGetSecret req => erased (rpc_get_secret srv req)
  | CGetAllSecrets req taken => erased (rpc_get_all_secrets srv req taken)
  | CApplySecret req => erased (rpc_apply_secret srv req)
  | CSubscribeSecrets req live raw => erased (rpc_subscribe_secrets srv req live raw)
  end.

(** The caller, what a call needs permission for, and what it must leave in the
    audit log. *)
Definition caller (c : Call) : ClientIdentity :=
  match c with
  | CGet req | CGetSecret req => identity_of req
  | CGetAll req _ | CGetAllSecrets req _ => identity_of req
  | CApply req | CDryRunApply req | CApplySecret req => identity_of req
  | CBatchApply req => identity_of req
  | CRevert req => identity_of req
  | CSubscribe req _ _ => identity_of req
  | CSubscribeSecrets req _ _ => identity_of req
  end.

Definition targets (c : Call) : list (Verb * string * string) :=
  match c with
  | CGet req | CGetSecret req => [(Read, (rq_body req).1, (rq_body req).2)]
  | CGetAll req _ | CGetAllSecrets req _ => [(Read, rq_body req, "*")]
  | CApply req | CDryRunApply req | CApplySecret req =>
      [(Write, ar_namespace (rq_body req), ar_name (rq_body req))]
  | CBatchApply req => (λ it, (Write, ar_namespace it, ar_name it)) <$> rq_body req
  | CRevert req => [(Write, rr_namespace (rq_body req), rr_name (rq_body req))]
  | CSubscribe req _ _ => [(Read, sr_namespace (rq_body req), "*")]
  | CSubscribeSecrets req _ _ => [(Read, ssr_namespace (rq_body req), "*")]
  end%string.

Definition audited (c : Call) : list (string * string * string) :=
  match c with
  | CApply req => [("Apply", ar_namespace (rq_body req), ar_name (rq_body req))]
  | CBatchApply req => (λ it, ("BatchApply", ar_namespace it, ar_name it)) <$> rq_body req
  | CRevert req => [("Revert", rr_namespace (rq_body req), rr_name (rq_body req))]
  | CApplySecret req => [("ApplySecret", ar_namespace (rq_body req), ar_name (rq_body req))]
  | CGetSecret req => [("GetSecret", (rq_body req).1, (rq_body req).2)]
  | CGetAllSecrets req _ => [("GetAllSecrets", rq_body req, "*")]
  | CSubscribeSecrets req _ _ => [("SubscribeSecrets", ssr_namespace (rq_body req), "*")]
  | _ => []
  end%string.

(** ** Lemmas *)

(** Nothing outside the process changed, and nothing was audited. *)
Record untouched (s s' : St) : Prop := mkUntouched {
  un_env : s_env s' = s_env s;
  un_sleeps : s_secret_sleeps s' = s_secret_sleeps s;
  un_audit : lo_audit (s_logs s') = lo_audit (s_logs s);
  un_events : lo_events (s_logs s') = lo_events (s_logs s);
  un_maps : s_maps s' = s_maps s
}.

#[local] Instance untouched_preorder : PreOrder untouched.
Proof. split; [done|]. intros a b c [] []. constructor; congruence. Qed.

Lemma request_id_spec {T} (req : Request T) s :
  ∃ i s1, request_id req s = (Ok i, s1) ∧ untouched s s1.
Proof.
  unfold request_id. destruct (rq_request_id req) as [v|]; [destruct (is_empty (trim v))|];
    (do 2 eexists; split; [done|]; done).
Qed.

Lemma log_rpc_entry_spec {T} name (req : Request T) s :
  ∃ s1, log_rpc_entry name req s = (Ok tt, s1) ∧ untouched s s1.
Proof.
  unfold log_rpc_entry, sbind. destruct (request_id_spec req s) as (i & s1 & -> & [? ? ? ? ?]).
  eexists. split; [done|]. by constructor.
Qed.

Lemma rate_limit_untouched {T} srv (req : Request T) name cost s r s1 :
  rate_limit_apply srv req name cost s = (r, s1) → untouched s s1.
Proof.
  unfold rate_limit_apply. destruct (apply_admission _ _ _ _ _ _ _ _) as [[] l]; intros [= <- <-]; done.
Qed.

Lemma admit_subscriber_untouched {T} srv (req : Request T) s r s1 :
  admit_subscriber srv req s = (r, s1) → untouched s s1.
Proof.
  unfold admit_subscriber. case_bool_decide; [by intros [= <- <-]|].
  destruct (admit_stream _ _ _ _) as [[g c l []|c l] cs]; intros [= <- <-]; done.
Qed.

Lemma drop_guard_untouched g s : untouched s (drop_guard g s).
Proof. by destruct g. Qed.

Lemma audit_both_spec srv a s :
  ∃ s1, audit_both srv a s = (Ok tt, s1) ∧ s_env s1 = s_env s ∧
        lo_audit (s_logs s1) = lo_audit (s_logs s) ++ [a].
Proof.
  unfold audit_both, sbind, audit_emit, maybe_emit_k8s_event; simpl.
  destruct (srv_k8s_events srv); eexists; done.
Qed.

(** The common head of every RPC but Revert. *)
Lemma guarded {T A} srv name (req : Request T) (auth : rpc unit) (k : SM A) s r s' :
  (let* _ := log_rpc_entry name req in let* _ := check_drain srv in let* _ := slift auth in k) s = (r, s') →
  (∃ e, r = Err e ∧ untouched s s' ∧
     ((srv_draining srv = true ∧ e = status Unavailable "server draining") ∨
      (srv_draining srv = false ∧ auth = Err e))) ∨
  (srv_draining srv = false ∧ auth = Ok tt ∧ ∃ s1, untouched s s1 ∧ k s1 = (r, s')).
Proof.
  unfold sbind at 1. destruct (log_rpc_entry_spec name req s) as (s1 & -> & Hu).
  unfold sbind, check_drain, slift, sfail, sret.
  destruct (srv_draining srv); [intros [= <- <-]; left; eexists; split_and!; [done..|]; by left|].
  destruct auth as [[]|e]; [right; eauto|]. intros [= <- <-]. left. eexists. split_and!; [done..|]. by right.
Qed.

Lemma authorize_enforce {T} srv (req : Request T) v ns n :
  srv_authz_mode srv = Enforce →
  match authorize srv req v ns n with
  | Ok _ => srv_acl_synced srv = true ∧ ci_anonymous (identity_of req) = false ∧
            AclTable_grants (srv_acl srv) (ci_id (identity_of req)) v ns n = true
  | Err e => st_code e = Unavailable ∨ st_code e = PermissionDenied
  end.
Proof.
  intros Hm. unfold authorize, check. rewrite Hm. simpl.
  destruct (srv_acl_synced srv); simpl; [|by left].
  destruct (ci_anonymous (identity_of req)); simpl; [by right|].
  destruct (AclTable_grants _ _ _ _ _); simpl; [done|by right].
Qed.

Lemma authorize_all_enforce {T} srv (req : Request T) items :
  srv_authz_mode srv = Enforce →
  match authorize_all srv req items with
  | Ok _ => ∀ it, it ∈ items → srv_acl_synced srv = true ∧ ci_anonymous (identity_of req) = false ∧
            AclTable_grants (srv_acl srv) (ci_id (identity_of req)) Write (ar_namespace it) (ar_name it) = true
  | Err e => st_code e = Unavailable ∨ st_code e = PermissionDenied
  end.
Proof.
  intros Hm. induction items as [|it items IH]; simpl; [by intros it Hin%elem_of_nil|].
  pose proof (authorize_enforce srv req Write (ar_namespace it) (ar_name it) Hm) as Ha.
  destruct (authorize srv req Write (ar_namespace it) (ar_name it)); simpl; [|done].
  destruct (authorize_all srv req items); [|done].
  intros x [->|Hin]%elem_of_cons; [done|by apply IH].
Qed.

Lemma erased_inv {A} (m : SM A) s r s' :
  erased m s = (r, s') → ∃ r0, m s = (r0, s') ∧ r = match r0 with Ok _ => Ok tt | Err e => Err e end.
Proof. unfold erased, sbind. destruct (m s) as [[a|e] s1]; intros [= <- <-]; eauto. Qed.

Definition auth_of (srv : Server) (c : Call) : rpc unit :=
  match c with
  | CGet req | CGetSecret req => authorize srv req Read (rq_body req).1 (rq_body req).2
  | CGetAll req _ | CGetAllSecrets req _ => authorize srv req Read (rq_body req) "*"
  | CApply req | CDryRunApply req | CApplySecret req =>
      authorize srv req Write (ar_namespace (rq_body req)) (ar_name (rq_body req))
  | CBatchApply req => authorize_all srv req (rq_body req)
  | CRevert req => authorize srv req Write (rr_namespace (rq_body req)) (rr_name (rq_body req))
  | CSubscribe req _ _ => authorize srv req Read (sr_namespace (rq_body req)) "*"
  | CSubscribeSecrets req _ _ => authorize srv req Read (ssr_namespace (rq_body req)) "*"
  end.

Definition is_revert (c : Call) : bool := match c with CRevert _ => true | _ => false end.

Lemma rpc_revert_refused srv req s r s' e :
  authorize srv req Write (rr_namespace (rq_body req)) (rr_name (rq_body req)) = Err e →
  rpc_revert srv req s = (r, s') → r = Err e ∧ untouched s s'.
Proof.
  intros Ha. unfold rpc_revert. unfold sbind at 1. unfold sbind at 1.
  destruct (log_rpc_entry_spec "konfig.Revert" req s) as (s1 & -> & Hu).
  unfold slift. rewrite Ha. by intros [= <- <-].
Qed.

(** Name the parts of a request body that is a pair. *)
Ltac split_body :=
  match goal with
  | Hr : context [match rq_body ?q with pair _ _ => _ end] |- _ =>
      destruct (rq_body q) as [? ?]; simpl fst in *; simpl snd in *
  end.

(** A call is refused before anything happens, or it was authorized. *)
Lemma serve_head srv c s r s' :
  serve srv c s = (r, s') →
  (∃ e, r = Err e ∧ untouched s s' ∧
     ((srv_draining srv = true ∧ is_revert c = false ∧ e = status Unavailable "server draining") ∨
      auth_of srv c = Err e)) ∨
  (auth_of srv c = Ok tt ∧ (is_revert c = false → srv_draining srv = false)).
Proof.
  destruct (is_revert c) eqn:Hc.
  { destruct c; try done. simpl. intros (r0 & Hr & ->)%erased_inv.
    destruct (authorize srv req Write (rr_namespace (rq_body req)) (rr_name (rq_body req))) as [[]|e] eqn:Ha;
      [right; done|]. left. eapply rpc_revert_refused in Hr as [-> Hu]; [|done]. exists e. auto. }
  intros Hs.
  assert (Hg : (∃ e, r = Err e ∧ untouched s s' ∧
            ((srv_draining srv = true ∧ e = status Unavailable "server draining") ∨
             (srv_draining srv = false ∧ auth_of srv c = Err e))) ∨
          (srv_draining srv = false ∧ auth_of srv c = Ok tt)).
  { destruct c; simpl in Hs, Hc |- *; try done; apply erased_inv in Hs as (r0 & Hr & ->);
      unfold rpc_get, rpc_get_secret in Hr; try split_body;
      (apply guarded in Hr as [(e & -> & Hu & He)|(Hd & Ha & _)]; [left; exists e; done | right; done]). }
  destruct Hg as [(e & -> & Hu & [[? ->]|[? ?]])|[Hd Ha]]; [left|left|right]; naive_solver.
Qed.

Lemma auth_of_enforce srv c :
  srv_authz_mode srv = Enforce →
  match auth_of srv c with
  | Ok _ => ∀ v ns n, (v, ns, n) ∈ targets c →
      srv_acl_synced srv = true ∧ ci_anonymous (caller c) = false ∧
      AclTable_grants (srv_acl srv) (ci_id (caller c)) v ns n = true
  | Err e => st_code e = Unavailable ∨ st_code e = PermissionDenied
  end.
Proof.
  intros Hm.
  assert (H1 : ∀ T (req : Request T) v ns n,
    match authorize srv req v ns n with
    | Ok _ => ∀ v0 ns0 n0, (v0, ns0, n0) ∈ [(v, ns, n)] →
        srv_acl_synced srv = true ∧ ci_anonymous (identity_of req) = false ∧
        AclTable_grants (srv_acl srv) (ci_id (identity_of req)) v0 ns0 n0 = true
    | Err e => st_code e = Unavailable ∨ st_code e = PermissionDenied
    end).
  { intros T req v ns n. pose proof (authorize_enforce srv req v ns n Hm) as Ha.
    destruct (authorize srv req v ns n); [|done].
    intros v0 ns0 n0 Hin. apply list_elem_of_singleton in Hin. by simplify_eq. }
  destruct c; simpl; try apply H1.
  pose proof (authorize_all_enforce srv req (rq_body req) Hm) as Ha.
  destruct (authorize_all srv req (rq_body req)); [|done].
  intros v ns n (it & Heq & Hin)%list_elem_of_fmap. simplify_eq. by apply Ha.
Qed.

(** C3: authorization is complete and comes first.  In enforce mode, whatever
    the call, either the caller has a verified identity to which a synced ACL
    table grants the verb on every target of the call (every item of a batch,
    the whole namespace for the namespace-wide calls), or the call fails with
    UNAVAILABLE or PERMISSION_DENIED having sent nothing to the API server,
    attached no subscriber and written no audit record. *)
Theorem enforced_access srv c s r s' :
  srv_authz_mode srv = Enforce →
  serve srv c s = (r, s') →
  (∀ v ns n, (v, ns, n) ∈ targets c →
     srv_acl_synced srv = true ∧ ci_anonymous (caller c) = false ∧
     AclTable_grants (srv_acl srv) (ci_id (caller c)) v ns n = true) ∨
  (∃ e, r = Err e ∧ (st_code e = Unavailable ∨ st_code e = PermissionDenied) ∧ untouched s s').
Proof.
  intros Hm Hs. pose proof (auth_of_enforce srv c Hm) as Ha.
  apply serve_head in Hs as [(e & -> & Hu & [(_ & _ & ->)|He])|[Hok _]].
  - right. eexists. split_and!; [done|by left|done].
  - rewrite He in Ha. right. eauto.
  - rewrite Hok in Ha. by left.
Qed.

(** a draining server refuses every call but Revert with UNAVAILABLE and
    does nothing else; Revert is served as if nothing happened, with its write.
    A second drain signal notifies nobody. *)
Theorem drain_gate srv c s :
  let drained := (begin_drain srv).1 in
  (is_revert c = false →
   ∃ s', serve drained c s = (Err (status Unavailable "server draining"), s') ∧ untouched s s') ∧
  (is_revert c = true → serve drained c s = serve srv c s) ∧
  (begin_drain drained).2 = false.
Proof.
  intros drained. split_and!; [| |done].
  - intros Hc. destruct (serve drained c s) as [r s'] eqn:Hs. exists s'.
    assert (Hd : srv_draining drained = true) by done.
    destruct c; simpl in Hs, Hc; try done; apply erased_inv in Hs as (r0 & Hr & ->);
      unfold rpc_get, rpc_get_secret in Hr; try split_body;
      (apply guarded in Hr as [(e & -> & Hu & [[_ ->]|[? _]])|(? & _)]; [by split|congruence..]).
  - by destruct c.
Qed.

(** *** Audit coverage *)
Definition audit_key (a : AuditRecord) : string * string * string := (au_rpc a, au_namespace a, au_name a).

(** The records [new] cover the call: one per target, naming the caller and the
    outcome. *)
Definition covers {A} (c : Call) (r : rpc A) (new : list AuditRecord) : Prop :=
  audit_key <$> new = audited c ∧
  Forall (λ a, au_client_identity a = ci_id (caller c) ∧ au_result a = result_str r) new.

Definition keeps_logs {A} (run : SM (rpc A)) : Prop :=
  ∀ s, ∃ res s2, run s = (Ok res, s2) ∧ s_logs s2 = s_logs s.

Lemma run_kube_keeps {A} (m : M W A) : keeps_logs (run_kube m).
Proof. intros s. unfold run_kube. destruct (m (s_env s)) as [r e]. by do 2 eexists. Qed.

Lemma run_secret_keeps {A} (m : SecretEnv W → rpc A * SecretEnv W) : keeps_logs (run_secret m).
Proof. intros s. unfold run_secret. destruct (m _) as [r e]. by do 2 eexists. Qed.

(** The tail of the single-target writes. *)
Lemma audited_tail {T A} srv (req : Request T) (run : SM (rpc A)) (mk : string → rpc A → AuditRecord) s r s' :
  keeps_logs run →
  (let* rid := request_id req in let* result := run in
   let* _ := audit_both srv (mk rid result) in slift result) s = (r, s') →
  ∃ rid, lo_audit (s_logs s') = lo_audit (s_logs s) ++ [mk rid r].
Proof.
  intros Hk. unfold sbind at 1. destruct (request_id_spec req s) as (rid & s1 & -> & Hu).
  unfold sbind at 1. destruct (Hk s1) as (res & s2 & -> & Hl).
  unfold sbind. destruct (audit_both_spec srv (mk rid res) s2) as (s3 & -> & _ & Ha).
  intros [= <- <-]. exists rid. by rewrite Ha, Hl, (un_audit _ _ Hu).
Qed.

Lemma audit_items_spec {T} srv (req : Request T) rid result items s :
  ∃ s1 new, audit_items srv req rid result items s = (Ok tt, s1) ∧
    lo_audit (s_logs s1) = lo_audit (s_logs s) ++ new ∧
    audit_key <$> new = (λ it, ("BatchApply"%string, ar_namespace it, ar_name it)) <$> items ∧
    Forall (λ a, au_client_identity a = ci_id (identity_of req) ∧ au_result a = result_str result) new.
Proof.
  revert s; induction items as [|it items IH]; intros s; cbn [audit_items].
  { exists s, []. split_and!; [done| |done|constructor]. by rewrite app_nil_r. }
  unfold sbind. edestruct audit_both_spec as (s1 & -> & _ & Ha).
  destruct (IH s1) as (s2 & new & -> & Hn & Hk & Hf).
  eexists s2, (_ :: new). split_and!; [done| | |constructor; [|exact Hf]].
  - rewrite Hn, Ha, <- app_assoc. done.
  - rewrite !fmap_cons, Hk. done.
  - done.
Qed.

(** A guard that fails leaves no record and no trace outside; one that passes
    hands over to the rest. *)
Lemma after_guard {A B} (g : SM A) (k : A → SM B) s r s' :
  (∀ s0 r0 s1, g s0 = (r0, s1) → untouched s0 s1) →
  sbind g k s = (r, s') →
  (∃ e, r = Err e ∧ untouched s s') ∨ ∃ a s1, untouched s s1 ∧ k a s1 = (r, s').
Proof.
  intros Hg. unfold sbind. destruct (g s) as [[a|e] s1] eqn:Hs; intros Hk.
  - right. eauto.
  - left. simplify_eq. eauto.
Qed.

Lemma result_str_erased {A} (r : rpc A) :
  result_str (match r with Ok _ => Ok tt | Err e => Err e end) = result_str r.
Proof. by destruct r. Qed.

(** What [audit_complete] says of one call. *)
Definition accounted {A} (c : Call) (s : St) (r : rpc A) (s' : St) : Prop :=
  ∃ new, lo_audit (s_logs s') = lo_audit (s_logs s) ++ new ∧
    (covers c r new ∨ (new = [] ∧ is_ok r = false ∧ s_env s' = s_env s ∧ s_maps s' = s_maps s)).

Lemma accounted_refused {A} c s (e : Status) s' : untouched s s' → accounted c s (Err e : rpc A) s'.
Proof. intros []. exists []. rewrite app_nil_r. split; [done|]. by right. Qed.

Lemma accounted_shift {A} c s s1 (r : rpc A) s' : untouched s s1 → accounted c s1 r s' → accounted c s r s'.
Proof.
  intros [He _ Ha _ Hm] (new & Hn & Hc). exists new. split; [by rewrite Hn, Ha|].
  destruct Hc as [Hc|(? & ? & ? & ?)]; [by left|right]. split_and!; congruence.
Qed.

Lemma accounted_erased {A} c s (r : rpc A) s' :
  accounted c s r s' → accounted c s (match r with Ok _ => Ok tt | Err e => Err e end : rpc unit) s'.
Proof.
  intros (new & Hn & Hc). exists new. split; [done|]. unfold covers in *. rewrite result_str_erased.
  destruct Hc as [Hc|(? & Hok & ? & ?)]; [by left|right]. by destruct r.
Qed.

(** A call that writes no record and needs none. *)
Lemma accounted_silent {A} c s (r : rpc A) s' :
  audited c = [] → lo_audit (s_logs s') = lo_audit (s_logs s) → accounted c s r s'.
Proof. intros Hc Hl. exists []. rewrite app_nil_r. split; [done|]. left. split; [by rewrite Hc|constructor]. Qed.

Lemma accounted_one {A} c s (r : rpc A) s' a :
  lo_audit (s_logs s') = lo_audit (s_logs s) ++ [a] →
  audited c = [audit_key a] → au_client_identity a = ci_id (caller c) → au_result a = result_str r →
  accounted c s r s'.
Proof. intros Hl Hc Hi Hr. exists [a]. split; [done|]. left. split; [done|]. by constructor. Qed.

(** Strip the guards: refused, or the rest runs from an untouched state. *)
Ltac past_guard H :=
  let st := fresh "st" in
  let Hu := fresh "Hu" in
  lazymatch type of H with
  | sbind (log_rpc_entry _ _) _ _ = _ =>
      apply guarded in H as [(? & -> & ? & _)|(_ & _ & st & Hu & H)];
        [by apply accounted_refused | apply (accounted_shift _ _ st); [exact Hu|]]
  | _ =>
      apply after_guard in H as [(? & -> & ?)|(? & st & Hu & H)];
        [by apply accounted_refused | apply (accounted_shift _ _ st); [exact Hu|] |
         by eauto using rate_limit_untouched, admit_subscriber_untouched]
  end.

Lemma accounted_writes srv c s r s' :
  match c with CApply _ | CApplySecret _ | CRevert _ | CBatchApply _ => True | _ => False end →
  serve srv c s = (r, s') → accounted c s r s'.
Proof.
  destruct c; try done; intros _ (r0 & Hr & ->)%erased_inv; apply accounted_erased.
  - unfold rpc_apply in Hr. past_guard Hr. past_guard Hr.
    apply (audited_tail srv req) in Hr as [rid Hl]; [|apply run_kube_keeps].
    by apply (accounted_one _ _ _ _ _ Hl).
  - unfold rpc_batch_apply in Hr. past_guard Hr. past_guard Hr.
    match type of Hr with sbind _ _ ?st = _ => 
      unfold sbind at 1 in Hr; destruct (request_id_spec req st) as (rid & s3 & Hid & Hu3) end.
    rewrite Hid in Hr. apply (accounted_shift _ _ s3); [done|].
    unfold sbind at 1 in Hr. destruct (run_kube_keeps (handle_batch_apply x_yaml_spec x_iter_errors x_traceparent
      x_nanos (srv_schemas srv) (rq_body req)) s3) as (res & s4 & Hrun & Hl4). rewrite Hrun in Hr.
    unfold sbind in Hr. destruct (audit_items_spec srv req rid res (rq_body req) s4) as (s5 & new & Hit & Hn & Hk & Hf).
    rewrite Hit in Hr. unfold slift in Hr. injection Hr as <- <-.
    exists new. rewrite Hn, Hl4. split; [done|]. by left.
  - unfold rpc_revert in Hr. unfold sbind at 1 in Hr.
    destruct (log_rpc_entry_spec "konfig.Revert" req s) as (s1 & Hlog & Hu). rewrite Hlog in Hr.
    apply (accounted_shift _ _ s1); [done|]. unfold sbind at 1, slift at 1 in Hr.
    destruct (authorize srv req Write _ _) as [[]|e]; [|injection Hr as <- <-; by apply accounted_refused].
    apply (audited_tail srv req) in Hr as [rid Hl]; [|apply run_kube_keeps].
    by apply (accounted_one _ _ _ _ _ Hl).
  - unfold rpc_apply_secret in Hr. past_guard Hr. past_guard Hr.
    apply (audited_tail srv req) in Hr as [rid Hl]; [|apply run_secret_keeps].
    by apply (accounted_one _ _ _ _ _ Hl).
Qed.

Lemma capture_spec {T} name (req : Request T) ns n s :
  ∃ s1 rid, capture name req ns n s =
    (Ok (mkReadAudit name ns n (ci_id (identity_of req)) (client_addr req) rid), s1) ∧ untouched s s1.
Proof.
  unfold capture, sbind. destruct (request_id_spec req s) as (rid & s1 & -> & Hu). by exists s1, rid.
Qed.

Lemma accounted_reads srv c s r s' :
  match c with CApply _ | CApplySecret _ | CRevert _ | CBatchApply _ => False | _ => True end →
  serve srv c s = (r, s') → accounted c s r s'.
Proof.
  destruct c; try done; intros _ (r0 & Hr & ->)%erased_inv; apply accounted_erased.
  - unfold rpc_get in Hr. split_body. past_guard Hr.
    unfold sbind, with_ledger, slift in Hr. injection Hr as <- <-. by apply accounted_silent.
  - unfold rpc_get_all in Hr. past_guard Hr.
    unfold sbind, with_ledger, sret in Hr. injection Hr as <- <-. by apply accounted_silent.
  - unfold rpc_dry_run_apply in Hr. past_guard Hr. unfold sbind in Hr.
    match type of Hr with context [run_kube ?m ?st] => destruct (run_kube_keeps m st) as (res & s4 & Hrun & Hl4) end.
    rewrite Hrun in Hr. unfold slift in Hr. injection Hr as <- <-. apply accounted_silent; [done|]. by rewrite Hl4.
  - unfold rpc_subscribe in Hr. past_guard Hr. past_guard Hr.
    destruct (handle_subscribe _ _ _ _ _ _) as [[[[f idx] buf]|e] maps]; injection Hr as <- <-;
      by apply accounted_silent; [|rewrite ?(un_audit _ _ (drop_guard_untouched _ _))].
  - unfold rpc_get_secret in Hr. destruct (rq_body req) as [ns n] eqn:Hb. past_guard Hr.
    unfold sbind at 1 in Hr.
    match type of Hr with context [capture ?a ?q ?b ?c ?st] =>
      destruct (capture_spec a q b c st) as (s2 & rid & Hcap & Hu2) end.
    rewrite Hcap in Hr. apply (accounted_shift _ _ s2); [done|].
    unfold sbind, with_ledger, audit_emit, slift in Hr. injection Hr as <- <-.
    eapply accounted_one; [done| simpl; by rewrite Hb |done..].
  - unfold rpc_get_all_secrets in Hr. past_guard Hr. unfold sbind at 1 in Hr.
    match type of Hr with context [capture ?a ?q ?b ?c ?st] =>
      destruct (capture_spec a q b c st) as (s2 & rid & Hcap & Hu2) end.
    rewrite Hcap in Hr. apply (accounted_shift _ _ s2); [done|].
    unfold sbind, with_ledger, audit_emit, sret in Hr. injection Hr as <- <-.
    by eapply accounted_one.
  - unfold rpc_subscribe_secrets in Hr. past_guard Hr. past_guard Hr. unfold sbind at 1 in Hr.
    match type of Hr with context [capture ?a ?q ?b ?c ?st] =>
      destruct (capture_spec a q b c st) as (s2 & rid & Hcap & Hu2) end.
    rewrite Hcap in Hr. apply (accounted_shift _ _ s2); [done|].
    unfold sbind, audit_emit, slift in Hr.
    destruct (handle_subscribe_secrets _ _ _ _ _ _ _ _ _) as [ch|e]; injection Hr as <- <-.
    + by eapply accounted_one.
    + match goal with |- context [drop_guard ?g ?st] =>
        apply (accounted_shift _ _ (drop_guard g st)); [apply drop_guard_untouched|] end.
      by eapply accounted_one.
Qed.

(** C14: the audit trail is complete.  Whatever the call and its outcome, either
    it leaves exactly one record per audited target (one for a write or a secret
    read, one per item of a batch, none for the other reads), each with the
    caller's identity and the outcome, or it failed before its handler ran: no
    record, no request to the API server, no subscriber attached. *)
Theorem audit_complete srv c s r s' :
  serve srv c s = (r, s') →
  ∃ new, lo_audit (s_logs s') = lo_audit (s_logs s) ++ new ∧
    (covers c r new ∨ (new = [] ∧ is_ok r = false ∧ s_env s' = s_env s ∧ s_maps s' = s_maps s)).
Proof.
  intros Hs. change (accounted c s r s').
  destruct c; (apply (accounted_writes srv); done) || (by apply (accounted_reads srv)).
Qed.
End Service.

(** ** Witnesses *)
Module ServerDemo.
Import CanonicalIter.

#[export] Instance demo_externals : Externals := {|
  Validator := string;
  x_yaml_spec y := match parse_u32 y with Some v => Ok (mkConfigSpec v (JObj [])) | None => Err "not a number"%string end;
  x_yaml_map _ := Err "not a map"%string;
  x_iter_errors := toy_errors;
  x_to_string _ := Some "{}"%string;
  x_dry_run_string _ := Ok "{}"%string;
  x_secret_string _ := None;
  x_from_utf8 _ := None;
  x_base64 := b64_encode;
  x_parse_x509 der := if bool_decide (der = [1]) then Some (mkX509 None [Some "svc"%string]) else None;
  x_de_display _ := "bad spec"%string;
  x_traceparent := None;
  x_nanos _ := 0;
  x_process_start_nanos := 4096
|}.

#[export] Instance demo_secrets : SecretApi ScriptKube := {|
  secret_get ns n w := (Err (ApiErr 404 "not found"), w);
  secret_patch ns n body w := (Ok body, w)
|}.

Definition demo_acl_table : AclTable := {["svc"%string := [mkRule [Write] ["prod/*"%string]]]}.

Definition demo_server (draining : bool) : Server :=
  mkServer _ draining Enforce demo_acl_table true ∅ QDisabled ∅ true 0 0 0 1 (from_map "config" ∅)
    SecretCache_new false.

Definition demo_state (w : ScriptKube) : St :=
  mkSt (mkEnv w [] ∅) [] (mkTenancy ∅ counts_new ledger_new ∅ ∅) (mkLogs 0 [] [] []) (mkMaps ∅ ∅ ∅ ∅).

Definition demo_request {T} (certs : option (list (list Z))) (b : T) : Request T :=
  mkRequest certs None None 0 0 b.

Definition demo_apply (certs : option (list (list Z))) : Call :=
  CApply (demo_request certs (mkApplyRequest "prod" "web" "4")).

Definition empty_kube : ScriptKube := mkScript ∅ ∅ [].
End ServerDemo.
Import CanonicalIter ServerDemo.

(** An anonymous write is refused before it reaches the API server. *)
Lemma enforced_access_witness :
  let s := demo_state empty_kube in
  let out := serve (demo_server false) (demo_apply None) s in
  ∃ e, out.1 = Err e ∧ (st_code e = Unavailable ∨ st_code e = PermissionDenied) ∧ untouched s out.2.
Proof.
  intros s out. destruct (enforced_access (demo_server false) (demo_apply None) s out.1 out.2 eq_refl) as [H|H].
  - vm_compute. reflexivity.
  - destruct (H Write "prod"%string "web"%string) as (_ & Ha & _); [by left|]. vm_compute in Ha. discriminate.
  - exact H.
Defined.

(** On a draining server the authorized Apply is refused and the authorized
    Revert writes. *)
Definition demo_revert : Call :=
  CRevert (demo_request (Some [[1]]) (mkRevertRequest "prod" "web" "7")).
Definition revert_kube : ScriptKube :=
  mkScript {[("prod", "web")%string := demo_obj "web" 3 "9"]} {["7"%string := [demo_obj "web" 1 "7"]]} [].

Lemma drain_gate_witness :
  let s := demo_state revert_kube in
  let drained := (begin_drain (demo_server false)).1 in
  (∃ s', serve drained (demo_apply (Some [[1]])) s = (Err (status Unavailable "server draining"), s') ∧ untouched s s') ∧
  serve drained demo_revert s = serve (demo_server false) demo_revert s ∧
  length (patches (s_env (serve drained demo_revert s).2)) = 1%nat.
Proof.
  intros s drained. split; [|split].
  - exact (proj1 (drain_gate (demo_server false) (demo_apply (Some [[1]])) s) eq_refl).
  - exact (proj1 (proj2 (drain_gate (demo_server false) demo_revert s)) eq_refl).
  - vm_compute. reflexivity.
Defined.

Lemma audit_complete_witness :
  let s := demo_state empty_kube in
  let out := serve (demo_server false) (demo_apply (Some [[1]])) s in
  audit_key <$> lo_audit (s_logs out.2) = [("Apply", "prod", "web")]%string ∧
  ∃ new, lo_audit (s_logs out.2) = lo_audit (s_logs s) ++ new ∧
    (covers (demo_apply (Some [[1]])) out.1 new ∨
     (new = [] ∧ is_ok out.1 = false ∧ s_env out.2 = s_env s ∧ s_maps out.2 = s_maps s)).
Proof.
  intros s out. split; [vm_compute; reflexivity|].
  apply (audit_complete (demo_server false) (demo_apply (Some [[1]])) s out.1 out.2).
  vm_compute. reflexivity.
Defined.
