(* ===== verification/Gateway.v ===== *)
(** * The HTTP/JSON gateway: [grpc/http_gateway.rs]

    The bearer-token gate, the dispatch of [POST /konfig.v1.KonfigService/rpc],
    the REST aliases, the readiness probe, the streamed JSON array, the
    server-sent-event watch endpoints and the router in front of them, all over
    the RPCs of [Server].  JSON encoding and decoding are parameters. *)
From S2P Require Export Server.

Record HttpGatewayConfig : Set := mkGatewayConfig {
  gc_addr : string;
  gc_auth_token : option string;
  gc_cors_allow_origin : option string;
  gc_insecure : bool
}.

Record HttpResponse : Set := mkHttp {
  hr_status : Z;
  hr_headers : list (string * string);
  hr_body : string
}.

(** A request's headers the gateway reads, absent when missing or not a string. *)
Record HeaderMap : Set := mkHeaders {
  hd_authorization : option string;
  hd_last_event_id : option string
}.

Inductive Method : Set := OPTIONS | POST | GET | HEAD | OtherMethod.
#[global] Instance Method_eq_dec : EqDecision Method.
Proof. solve_decision. Defined.

Definition MAX_HTTP_BODY_BYTES : Z := 4 * 1024 * 1024.

Definition status_to_http (c : Code) : Z :=
  match c with
  | Code_Ok => 200
  | InvalidArgument => 400
  | Unauthenticated => 401
  | PermissionDenied => 403
  | NotFound => 404
  | AlreadyExists => 409
  | FailedPrecondition => 412
  | ResourceExhausted => 429
  | Unavailable => 503
  | Unimplemented => 501
  | DeadlineExceeded => 504
  | _ => 500
  end.

Definition code_name (c : Code) : string := code_snake c.

Definition GatewayError : Set := Z * string * string.

Definition status_to_error (s : Status) : GatewayError :=
  (status_to_http (st_code s), code_name (st_code s), st_message s).

(** Every byte is looked at; only the length is compared early. *)
Definition tokens_match (provided expected : string) : bool :=
  let a := bytes_of provided in
  let b := bytes_of expected in
  if negb (length a =? length b)%nat then false
  else foldl (λ diff p, Z.lor diff (Z.lxor p.1 p.2)) 0 (zip a b) =? 0.

Definition trim_start (s : string) : string :=
  string_of_list_ascii (trim_start_l (list_ascii_of_string s)).

Definition strip_bearer_prefix (value : string) : option string :=
  match split_once " " (trim_start value) with
  | Some (scheme, token) => if eq_ignore_ascii_case scheme "Bearer" then Some token else None
  | None => None
  end.

Definition last_event_id (h : HeaderMap) : string := default "" (hd_last_event_id h).

Definition config_subscribe_request (ns n : string) (h : HeaderMap) : SubscribeRequest :=
  mkSubscribeRequest ns [n] (last_event_id h) "".
Definition secret_subscribe_request (ns n : string) (h : HeaderMap) : SubscribeSecretsRequest :=
  mkSubscribeSecretsRequest ns [n] (last_event_id h).

(** ** Server-sent events *)
Definition newline : string := String (ascii_of_nat 10) "".

Definition event_type_name (event_type : Z) : string :=
  match event_type with
  | 0 => "ADDED" | 1 => "MODIFIED" | 2 => "DELETED" | 3 => "SNAPSHOT" | _ => "MODIFIED"
  end.

(** The wire number of an event type. *)
Definition event_type_i32 (t : EventType) : Z :=
  match t with ADDED => 0 | MODIFIED => 1 | DELETED => 2 | SNAPSHOT => 3 end.

Definition sse_frame (event id data : string) : string :=
  "event: " +:+ event +:+ newline
  +:+ (if is_empty id then "" else "id: " +:+ id +:+ newline)
  +:+ "data: " +:+ data +:+ newline +:+ newline.

(** What the loop sees: an item of the stream or a keep-alive tick. *)
Inductive SseInput (A : Type) : Type :=
  | SseItem (i : rpc A)
  | SseTick.
Arguments SseItem {A} i.
Arguments SseTick {A}.

(** A JSON string literal without escapes. *)
Definition quoted (s : string) : string := let q := String (ascii_of_nat 34) "" in q +:+ s +:+ q.

Section Gateway.
Context `{X : Externals}.
Context {W : Type} `{KubeApi W, SecretApi W}.
Context `{!MapIter OwnedKey ConfigSnapshot, !MapIter OwnedKey SecretSnapshot}.

#[local] Notation St := (Server.St (W := W)).
#[local] Notation SM := (Server.SM (W := W)).

(** [serde_json]: printing a value, decoding and encoding the messages; and
    whether a configured origin is a legal header value. *)
Context (json_bytes : json → option string).
Context (header_ok : string → bool).
Context (dec_pair : string → result (string * string) string).
Context (dec_ns : string → result string string).
Context (dec_apply : string → result ApplyRequest string).
Context (dec_batch : string → result (list ApplyRequest) string).
Context (dec_revert : string → result RevertRequest string).
Context (enc_config : ConfigMsg → result string string).
Context (enc_applied : string → result string string).
Context (enc_batch : list BatchApplyResult → result string string).
Context (enc_dry_run : DryRunApplyResponse → result string string).
Context (enc_revert : RevertResponse → result string string).
Context (enc_secret : SecretResponse → result string string).

Definition error_body (code message : string) : string :=
  default ("{" +:+ quoted "code" +:+ ":" +:+ quoted "internal" +:+ "," +:+ quoted "message" +:+ ":"
             +:+ quoted "error encode failed" +:+ "}")
    (json_bytes (JObj [("code", JStr code); ("message", JStr message)]%string)).

(** The CORS headers, and whether they can be sent. *)
Definition with_cors (cfg : HttpGatewayConfig) : list (string * string) * bool :=
  match gc_cors_allow_origin cfg with
  | Some origin =>
      if is_empty origin then ([], true)
      else ([("access-control-allow-origin", origin); ("vary", "origin")]%string, header_ok origin)
  | None => ([], true)
  end.

(** An unbuildable response is a bare 500. *)
Definition respond (cfg : HttpGatewayConfig) (status : Z) (headers : list (string * string)) (body : string) :
    HttpResponse :=
  let '(cors, ok) := with_cors cfg in
  if ok then mkHttp status (headers ++ cors) body else mkHttp 500 [] "".

Definition json_response (cfg : HttpGatewayConfig) (status : Z) (body : string) : HttpResponse :=
  respond cfg status [("content-type", "application/json")]%string body.

Definition cors_preflight (cfg : HttpGatewayConfig) : HttpResponse :=
  let '(cors, ok) := with_cors cfg in
  if ok then
    mkHttp 204 (cors ++ [("access-control-allow-methods", "GET, POST, OPTIONS");
                         ("access-control-allow-headers", "content-type, authorization");
                         ("access-control-max-age", "600")]%string) ""
  else mkHttp 500 [] "".

Definition error_response (cfg : HttpGatewayConfig) (e : GatewayError) : HttpResponse :=
  let '(status, code, message) := e in json_response cfg status (error_body code message).

(** [None]: let the request through. *)
Definition provided_token (h : HeaderMap) : string :=
  default "" (trim <$> (hd_authorization h ≫= strip_bearer_prefix)).

Definition check_auth (cfg : HttpGatewayConfig) (h : HeaderMap) : option HttpResponse :=
  if gc_insecure cfg then None
  else
    let expected := default "" (gc_auth_token cfg) in
    if negb (is_empty expected) && tokens_match (provided_token h) expected then None
    else Some (json_response cfg 401 (error_body "unauthenticated" "missing or invalid bearer token")).

Definition decode_request {Req} (from_slice : string → result Req string) (dflt : Req) (body : string) :
    result Req GatewayError :=
  if is_empty body then Ok dflt
  else map_err (λ e, (400, "invalid_argument"%string, "invalid JSON request body: " +:+ e)) (from_slice body).

Definition encode_response {Resp} (to_vec : Resp → result string string) (r : Resp) : result string GatewayError :=
  map_err (λ e, (500, "internal"%string, "response serialize failed: " +:+ e)) (to_vec r).

(** A request made in process: no certificate, no metadata, no address. *)
Definition in_process {T} (now : Instant) (wall_ms : Z) (b : T) : Request T :=
  mkRequest None None None now wall_ms b.

Definition run_unary {Req Resp} (now : Instant) (wall_ms : Z) (from_slice : string → result Req string) (dflt : Req)
    (to_vec : Resp → result string string) (body : string) (call : Request Req → SM Resp) (s : St) :
    result string GatewayError * St :=
  match decode_request from_slice dflt body with
  | Err e => (Err e, s)
  | Ok req =>
      match call (in_process now wall_ms req) s with
      | (Err st, s') => (Err (status_to_error st), s')
      | (Ok resp, s') => (encode_response to_vec resp, s')
      end
  end.

Definition close_array (count : nat) : string := match count with O => "[]" | _ => "]" end.

(** The chunks written for a stream. *)
Fixpoint stream_json_array {Item} (to_vec : Item → result string string) (count : nat) (items : list (rpc Item)) :
    list string :=
  match items with
  | [] => [close_array count]
  | Err _ :: _ => [close_array count]
  | Ok item :: rest =>
      match to_vec item with
      | Err _ => [close_array count]
      | Ok j => ((if bool_decide (count = 0%nat) then "[" else ",") +:+ j) :: stream_json_array to_vec (S count) rest
      end
  end.

Definition concat_chunks (l : list string) : string := foldr String.append ""%string l.

Definition json_streaming_response (cfg : HttpGatewayConfig) (chunks : list string) : HttpResponse :=
  respond cfg 200 [("content-type", "application/json")]%string (concat_chunks chunks).

Definition run_server_streaming {Req Item} (cfg : HttpGatewayConfig) (now : Instant) (wall_ms : Z)
    (from_slice : string → result Req string) (dflt : Req) (to_vec : Item → result string string) (body : string)
    (call : Request Req → SM (list (rpc Item))) (s : St) : HttpResponse * St :=
  match decode_request from_slice dflt body with
  | Err e => (error_response cfg e, s)
  | Ok req =>
      match call (in_process now wall_ms req) s with
      | (Err st, s') => (error_response cfg (status_to_error st), s')
      | (Ok items, s') => (json_streaming_response cfg (stream_json_array to_vec 0 items), s')
      end
  end.

Definition unary_response (cfg : HttpGatewayConfig) (out : result string GatewayError * St) : HttpResponse * St :=
  match out with
  | (Ok j, s') => (json_response cfg 200 j, s')
  | (Err e, s') => (error_response cfg e, s')
  end.

(** [all] is the number of items a finite stream is polled for. *)
Definition dispatch (cfg : HttpGatewayConfig) (srv : Server) (all : nat) (now : Instant) (wall_ms : Z)
    (method : Method) (h : HeaderMap) (rpc body : string) (s : St) : HttpResponse * St :=
  if bool_decide (method = OPTIONS) then (cors_preflight cfg, s)
  else if negb (bool_decide (method = POST)) then
    (json_response cfg 405 (error_body "method_not_allowed" "only POST and OPTIONS are supported"), s)
  else
    match check_auth cfg h with
    | Some resp => (resp, s)
    | None =>
        let apply0 := mkApplyRequest "" "" "" in
        if bool_decide (rpc = "Get"%string) then
          unary_response cfg (run_unary now wall_ms dec_pair ("", "")%string enc_config body (rpc_get srv) s)
        else if bool_decide (rpc = "GetAll"%string) then
          run_server_streaming cfg now wall_ms dec_ns ""%string enc_config body (λ r, rpc_get_all srv r all) s
        else if bool_decide (rpc = "Apply"%string) then
          unary_response cfg (run_unary now wall_ms dec_apply apply0 enc_applied body (rpc_apply srv) s)
        else if bool_decide (rpc = "BatchApply"%string) then
          unary_response cfg (run_unary now wall_ms dec_batch [] enc_batch body (rpc_batch_apply srv) s)
        else if bool_decide (rpc = "DryRunApply"%string) then
          unary_response cfg (run_unary now wall_ms dec_apply apply0 enc_dry_run body (rpc_dry_run_apply srv) s)
        else if bool_decide (rpc = "Revert"%string) then
          unary_response cfg (run_unary now wall_ms dec_revert (mkRevertRequest "" "" "") enc_revert body (rpc_revert srv) s)
        else if bool_decide (rpc = "GetSecret"%string) then
          unary_response cfg (run_unary now wall_ms dec_pair ("", "")%string enc_secret body (rpc_get_secret srv) s)
        else if bool_decide (rpc = "GetAllSecrets"%string) then
          run_server_streaming cfg now wall_ms dec_ns ""%string enc_secret body (λ r, rpc_get_all_secrets srv r all) s
        else if bool_decide (rpc = "ApplySecret"%string) then
          unary_response cfg (run_unary now wall_ms dec_apply apply0 enc_applied body (rpc_apply_secret srv) s)
        else if bool_decide (rpc = "Subscribe"%string) || bool_decide (rpc = "SubscribeSecrets"%string) then
          (json_response cfg 501 (error_body "unimplemented"
             "streaming RPCs are served via the SSE endpoint, not the JSON gateway"), s)
        else (json_response cfg 404 (error_body "not_found" ("unknown method '" +:+ rpc +:+ "'")), s)
    end.

(** ** REST aliases and the probe *)
Definition rest_get_config (cfg : HttpGatewayConfig) (srv : Server) (now : Instant) (wall_ms : Z) (ns n : string)
    (h : HeaderMap) (s : St) : HttpResponse * St :=
  match check_auth cfg h with
  | Some deny => (deny, s)
  | None =>
      match rpc_get srv (in_process now wall_ms (ns, n)) s with
      | (Err st, s') => (error_response cfg (status_to_error st), s')
      | (Ok resp, s') => unary_response cfg (encode_response enc_config resp, s')
      end
  end.

Definition rest_get_all_configs (cfg : HttpGatewayConfig) (srv : Server) (all : nat) (now : Instant) (wall_ms : Z)
    (ns : string) (h : HeaderMap) (s : St) : HttpResponse * St :=
  match check_auth cfg h with
  | Some deny => (deny, s)
  | None =>
      match rpc_get_all srv (in_process now wall_ms ns) all s with
      | (Err st, s') => (error_response cfg (status_to_error st), s')
      | (Ok items, s') => (json_streaming_response cfg (stream_json_array enc_config 0 items), s')
      end
  end.

Definition healthz (cfg : HttpGatewayConfig) (srv : Server) : HttpResponse :=
  let ready := is_populated (srv_cache srv) in
  let body := default ("{" +:+ quoted "status" +:+ ":" +:+ quoted "error" +:+ "," +:+ quoted "cache_ready" +:+ ":false}")
    (json_bytes (JObj [("cache_ready", JBool ready); ("status", JStr (if ready then "ok" else "warming"))]%string)) in
  let '(cors, ok) := with_cors cfg in
  if ok then
    mkHttp (if ready then 200 else 503)
      ([("content-type", "application/json")]%string ++ cors ++
       (if ready then [] else [("retry-after", "1")]%string)) body
  else mkHttp 500 [] "".

(** ** The SSE endpoints *)
Definition frame_config_event (ev : ConfigEvent) : string :=
  let name := event_type_name (event_type_i32 (ev_type ev)) in
  match ev_config ev with
  | Some c => sse_frame name (m_resource_version c) (match enc_config c with Ok j => j | Err _ => "{}" end)
  | None => sse_frame name "" "{}"
  end.

Definition frame_secret_event (ev : SecretEvent) : string :=
  let name := event_type_name (event_type_i32 (se_type ev)) in
  match se_secret ev with
  | Some r => sse_frame name (sp_resource_version r) (match enc_secret r with Ok j => j | Err _ => "{}" end)
  | None => sse_frame name "" "{}"
  end.

Definition terminal_frame (st : Status) : string :=
  if bool_decide (st_code st = ResourceExhausted) then
    sse_frame "RELOAD" "" (default "" (json_bytes (JObj [("message", JStr (st_message st)); ("reason", JStr "lagged")]%string)))
  else
    sse_frame "error" ""
      (default "" (json_bytes (JObj [("code", JStr (code_name (st_code st))); ("message", JStr (st_message st))]%string))).

Definition keep_alive : string := ": keep-alive" +:+ newline +:+ newline.

Fixpoint sse_event_stream {A} (to_frame : A → string) (ins : list (SseInput A)) : list string :=
  match ins with
  | [] => []
  | SseItem (Ok ev) :: rest => to_frame ev :: sse_event_stream to_frame rest
  | SseItem (Err st) :: _ => [terminal_frame st]
  | SseTick :: rest => keep_alive :: sse_event_stream to_frame rest
  end.

Definition sse_headers : list (string * string) :=
  [("content-type", "text/event-stream"); ("cache-control", "no-cache"); ("x-accel-buffering", "no")]%string.

Definition cache_not_ready (cfg : HttpGatewayConfig) : HttpResponse :=
  respond cfg 503 [("retry-after", "1"); ("content-type", "application/json")]%string
    (error_body "unavailable" "cache not ready; retry shortly").

(** [ins] is what the subscription then delivers, keep-alive ticks included. *)
Definition sse_config_watch (cfg : HttpGatewayConfig) (srv : Server) (now : Instant) (wall_ms : Z) (ns n : string)
    (h : HeaderMap) (rx task : nat) (ins : list (SseInput ConfigEvent)) (s : St) : HttpResponse * St :=
  match check_auth cfg h with
  | Some deny => (deny, s)
  | None =>
      if negb (is_populated (srv_cache srv)) then (cache_not_ready cfg, s)
      else
        match rpc_subscribe srv (in_process now wall_ms (config_subscribe_request ns n h)) rx task s with
        | (Ok _, s') => (respond cfg 200 sse_headers (concat_chunks (sse_event_stream frame_config_event ins)), s')
        | (Err st, s') => (error_response cfg (status_to_error st), s')
        end
  end.

(** The frames are those of everything the subscription's channel accepted. *)
Definition sse_secret_watch (cfg : HttpGatewayConfig) (srv : Server) (now : Instant) (wall_ms : Z) (ns n : string)
    (h : HeaderMap) (live : option (list SecretBridgeInput)) (raw : result (list (Instant * RawInput)) string)
    (s : St) : HttpResponse * St :=
  match check_auth cfg h with
  | Some deny => (deny, s)
  | None =>
      if negb (is_populated (srv_secret_cache srv)) then (cache_not_ready cfg, s)
      else
        match rpc_subscribe_secrets srv (in_process now wall_ms (secret_subscribe_request ns n h)) live raw s with
        | (Ok (ch, _, _), s') =>
            (respond cfg 200 sse_headers (concat_chunks (sse_event_stream frame_secret_event (SseItem <$> ch_accepted ch))), s')
        | (Err st, s') => (error_response cfg (status_to_error st), s')
        end
  end.

(** ** The router ([serve_gateway])

    What the world contributes to a request: the clocks, and what a subscription
    it opens is told. *)
Record Arrival : Type := mkArrival {
  ar_now : Instant;
  ar_wall_ms : Z;
  ar_all : nat;
  ar_rx : nat;
  ar_task : nat;
  ar_config_events : list (SseInput ConfigEvent);
  ar_secret_live : option (list SecretBridgeInput);
  ar_secret_raw : result (list (Instant * RawInput)) string
}.

(** [get(h)] serves GET and HEAD, and OPTIONS too with [.options(preflight)];
    any other method is 405, an unknown path 404, a body over the limit 413, a
    path segment that does not decode 400. *)
Definition get_route (method : Method) (preflight : option HttpResponse) (h : St → HttpResponse * St) (s : St) :
    HttpResponse * St :=
  match method, preflight with
  | GET, _ => h s
  | HEAD, _ => let '(r, s') := h s in (mkHttp (hr_status r) (hr_headers r) "", s')
  | OPTIONS, Some r => (r, s)
  | _, _ => (mkHttp 405 [] "", s)
  end.

Definition route (percent_decode : string → option string) (cfg : HttpGatewayConfig) (srv : Server) (a : Arrival)
    (method : Method) (h : HeaderMap) (path body : string) (s : St) : HttpResponse * St :=
  let preflight := cors_preflight cfg in
  let seg1 x (k : string → HttpResponse * St) :=
    match percent_decode x with Some d => k d | None => (mkHttp 400 [] "", s) end in
  let seg2 x y (k : string → string → HttpResponse * St) := seg1 x (λ d, seg1 y (k d)) in
  let not_found := (mkHttp 404 [] "", s) in
  match split_on "/" path with
  | [lead; p] =>
      if is_empty lead && bool_decide (p = "healthz"%string) then get_route method None (λ s, (healthz cfg srv, s)) s
      else not_found
  | [lead; p; rpc] =>
      if is_empty lead && bool_decide (p = "konfig.v1.KonfigService"%string) && negb (is_empty rpc) then
        seg1 rpc (λ rpc,
          if MAX_HTTP_BODY_BYTES <? Z.of_nat (String.length body) then (mkHttp 413 [] "", s)
          else dispatch cfg srv (ar_all a) (ar_now a) (ar_wall_ms a) method h rpc body s)
      else not_found
  | [lead; v1; kind; ns] =>
      if is_empty lead && bool_decide (v1 = "v1" ∧ kind = "configs")%string && negb (is_empty ns) then
        get_route method (Some preflight) (λ s, seg1 ns (λ ns,
          rest_get_all_configs cfg srv (ar_all a) (ar_now a) (ar_wall_ms a) ns h s)) s
      else not_found
  | [lead; v1; kind; ns; n] =>
      if is_empty lead && bool_decide (v1 = "v1" ∧ kind = "configs")%string && negb (is_empty ns) && negb (is_empty n) then
        get_route method (Some preflight) (λ s, seg2 ns n (λ ns n,
          rest_get_config cfg srv (ar_now a) (ar_wall_ms a) ns n h s)) s
      else not_found
  | [lead; v1; kind; ns; n; watch] =>
      if is_empty lead && bool_decide (v1 = "v1" ∧ watch = "watch")%string && negb (is_empty ns) && negb (is_empty n) then
        if bool_decide (kind = "configs"%string) then
          get_route method None (λ s, seg2 ns n (λ ns n,
            sse_config_watch cfg srv (ar_now a) (ar_wall_ms a) ns n h (ar_rx a) (ar_task a) (ar_config_events a) s)) s
        else if bool_decide (kind = "secrets"%string) then
          get_route method None (λ s, seg2 ns n (λ ns n,
            sse_secret_watch cfg srv (ar_now a) (ar_wall_ms a) ns n h (ar_secret_live a) (ar_secret_raw a) s)) s
        else not_found
      else not_found
  | _ => not_found
  end.
End Gateway.

(** ** Lemmas *)
Lemma bytes_of_nonneg s x : x ∈ bytes_of s → 0 ≤ x.
Proof. unfold bytes_of. intros (c & -> & _)%list_elem_of_fmap. lia. Qed.

(** The accumulated difference is zero exactly when no pair differs. *)
Lemma diff_zero (l : list (Z * Z)) acc :
  0 ≤ acc → (∀ p, p ∈ l → 0 ≤ p.1 ∧ 0 ≤ p.2) →
  foldl (λ diff p, Z.lor diff (Z.lxor p.1 p.2)) acc l = 0 ↔ acc = 0 ∧ ∀ p, p ∈ l → p.1 = p.2.
Proof.
  revert acc; induction l as [|p l IH]; intros acc Hacc Hl; simpl.
  { split; [intros ->; split; [done|]; by intros p Hp%elem_of_nil | tauto]. }
  destruct (Hl p) as [H1 H2]; [by left|].
  assert (Hx : 0 ≤ Z.lxor p.1 p.2) by (apply Z.lxor_nonneg; lia).
  rewrite IH; [|apply Z.lor_nonneg; lia|intros q Hq; apply Hl; by right].
  rewrite Z.lor_eq_0_iff, Z.lxor_eq_0_iff. setoid_rewrite elem_of_cons. naive_solver.
Qed.

Lemma zip_equal (a b : list Z) :
  length a = length b → (∀ p, p ∈ zip a b → p.1 = p.2) ↔ a = b.
Proof.
  revert b; induction a as [|x a IH]; intros [|y b] Hl; simpl in *; try done.
  - split; [done|]. by intros _ p Hp%elem_of_nil.
  - injection Hl as Hl. setoid_rewrite elem_of_cons. split.
    + intros Hp. assert (x = y) as -> by (apply (Hp (x, y)); by left).
      f_equal. apply IH; [done|]. intros p Hin. apply Hp. by right.
    + intros [= -> ->] p [->|Hin]; [done|]. by apply (proj2 (IH b Hl)) in Hin.
Qed.

Lemma tokens_match_eq a b : tokens_match a b = true ↔ a = b.
Proof.
  unfold tokens_match. destruct (Nat.eqb_spec (length (bytes_of a)) (length (bytes_of b))) as [Hl|Hl]; simpl.
  2: { split; [done|]. by intros ->. }
  rewrite Z.eqb_eq, diff_zero; [|done|].
  - rewrite zip_equal by done. split; [intros [_ Hb]; by apply bytes_of_inj | by intros ->].
  - intros [x y] Hp. simpl. apply elem_of_zip_l in Hp as Hx. apply elem_of_zip_r in Hp as Hy.
    split; by eapply bytes_of_nonneg.
Qed.

Section GatewayFacts.
Context `{X : Externals}.
Context {W : Type} `{KubeApi W, SecretApi W}.
Context `{!MapIter OwnedKey ConfigSnapshot, !MapIter OwnedKey SecretSnapshot}.
Context (json_bytes : json → option string) (header_ok : string → bool).

#[local] Abbreviation check_auth := (check_auth json_bytes header_ok).

Lemma check_auth_none cfg h :
  gc_insecure cfg = false →
  check_auth cfg h = None ↔
  ∃ t, gc_auth_token cfg = Some t ∧ t ≠ ""%string ∧ provided_token h = t.
Proof.
  intros Hi. unfold Gateway.check_auth. rewrite Hi.
  destruct (gc_auth_token cfg) as [t|]; simpl; [|naive_solver].
  destruct (is_empty t) eqn:He; simpl.
  { destruct t; [|done]. split; [done|]. intros (t & [= <-] & Hne & _). done. }
  destruct (tokens_match (provided_token h) t) eqn:Ht.
  - apply tokens_match_eq in Ht. split; [|done]. intros _. exists t. split_and!; [done| |done]. by intros ->.
  - split; [done|]. intros (t' & [= <-] & _ & Hp). rewrite <- not_true_iff_false in Ht.
    exfalso. apply Ht. by apply tokens_match_eq.
Qed.

Lemma get_route_state method preflight (k : St (W := W) → HttpResponse * St (W := W)) s :
  (k s).2 = s → (get_route method preflight k s).2 = s.
Proof. destruct method, preflight; simpl; try done; by destruct (k s). Qed.

(** C35: the bearer token guards the whole gateway.  Unless the gateway was
    started insecure, the gate opens exactly for a request whose bearer token is
    the configured, non-empty one.  A request it refuses runs no RPC: routed with
    any method, path and body it leaves the server as it was, and each of the five
    endpoints that read or write answers 401 (or 405 for a verb that is not POST,
    or a bare 500 when the configured origin is no legal header). *)
Theorem gateway_token_gate cfg h
    (dec_pair : string → result (string * string) string) (dec_ns : string → result string string)
    (dec_apply : string → result ApplyRequest string) (dec_batch : string → result (list ApplyRequest) string)
    (dec_revert : string → result RevertRequest string) (enc_config : ConfigMsg → result string string)
    (enc_applied : string → result string string) (enc_batch : list BatchApplyResult → result string string)
    (enc_dry_run : DryRunApplyResponse → result string string) (enc_revert : RevertResponse → result string string)
    (enc_secret : SecretResponse → result string string) srv all now wall_ms method name body ns n rx task ins live raw
    (s : St (W := W)) :
  gc_insecure cfg = false →
  (check_auth cfg h = None ↔ ∃ t, gc_auth_token cfg = Some t ∧ t ≠ ""%string ∧ provided_token h = t) ∧
  (check_auth cfg h ≠ None → method ≠ OPTIONS →
   ∀ out, out ∈ [dispatch json_bytes header_ok dec_pair dec_ns dec_apply dec_batch dec_revert enc_config enc_applied
                   enc_batch enc_dry_run enc_revert enc_secret cfg srv all now wall_ms method h name body s;
                 rest_get_config json_bytes header_ok enc_config cfg srv now wall_ms ns n h s;
                 rest_get_all_configs json_bytes header_ok enc_config cfg srv all now wall_ms ns h s;
                 sse_config_watch json_bytes header_ok enc_config cfg srv now wall_ms ns n h rx task ins s;
                 sse_secret_watch json_bytes header_ok enc_secret cfg srv now wall_ms ns n h live raw s] →
     out.2 = s ∧ hr_status out.1 ∈ [401; 405; 500]) ∧
  (check_auth cfg h ≠ None →
   ∀ percent_decode a m path b,
     (route json_bytes header_ok dec_pair dec_ns dec_apply dec_batch dec_revert enc_config enc_applied enc_batch
        enc_dry_run enc_revert enc_secret percent_decode cfg srv a m h path b s).2 = s).
Proof.
  intros Hi. split; [by apply check_auth_none|]. split.
  2:{ intros Hc percent_decode a m path b. destruct (check_auth cfg h) as [resp|] eqn:Hd; [|done]. unfold route.
      repeat match goal with
      | |- context [match split_on ?c ?p with _ => _ end] => destruct (split_on c p)
      | |- context [match ?l with [] => _ | _ :: _ => _ end] => is_var l; destruct l
      end; try done; repeat case_match; try done; try (apply get_route_state; repeat case_match; try done);
        unfold dispatch, rest_get_config, rest_get_all_configs, sse_config_watch, sse_secret_watch; rewrite ?Hd; try done.
      by repeat case_match. }
  intros Hc Hm out Hout.
  destruct (check_auth cfg h) as [resp|] eqn:Hd; [|done].
  assert (Hresp : ∀ st b, hr_status (json_response header_ok cfg st b) = st ∨
                          hr_status (json_response header_ok cfg st b) = 500).
  { intros st b. unfold json_response, respond. destruct (with_cors header_ok cfg) as [cors []]; auto. }
  assert (H401 : hr_status resp ∈ [401; 405; 500]).
  { unfold Gateway.check_auth in Hd. rewrite Hi in Hd. destruct (negb _ && _) eqn:?; [done|].
    injection Hd as <-. destruct (Hresp 401 (error_body json_bytes "unauthenticated" "missing or invalid bearer token"))
      as [-> | ->]; set_solver. }
  rewrite !elem_of_cons in Hout. destruct Hout as [->|[->|[->|[->|[->|Hn]]]]]; [..|by apply elem_of_nil in Hn].
  - unfold dispatch. rewrite bool_decide_false by done. case_bool_decide; simpl.
    + by rewrite Hd.
    + split; [done|]. destruct (Hresp 405 (error_body json_bytes "method_not_allowed"
        "only POST and OPTIONS are supported")) as [-> | ->]; set_solver.
  - unfold rest_get_config. by rewrite Hd.
  - unfold rest_get_all_configs. by rewrite Hd.
  - unfold sse_config_watch. by rewrite Hd.
  - unfold sse_secret_watch. by rewrite Hd.
Qed.

Lemma sse_items {A} (to_frame : A → string) (items : list A) :
  sse_event_stream json_bytes to_frame (SseItem <$> (Ok <$> items)) = to_frame <$> items.
Proof. induction items as [|x items IH]; [done|]. simpl. f_equal. exact IH. Qed.

(** The secret watch endpoint does not watch one secret.  The outcome of
    [GET /v1/secrets/ns/name/watch] does not depend on [name]: the request names
    it, but the subscription ignores it.  So a permitted watch of any one secret
    streams a snapshot of every managed secret of the namespace. *)
Theorem secret_watch_ignores_name (enc_secret : SecretResponse → result string string) cfg srv now wall_ms ns n h
    live raw (s : St (W := W)) :
  let watch name := sse_secret_watch json_bytes header_ok enc_secret cfg srv now wall_ms ns name h live raw s in
  (∀ n', watch n = watch n') ∧
  (check_auth cfg h = None → gc_cors_allow_origin cfg = None →
   srv_draining srv = false → srv_authz_mode srv = Disabled → srv_quota_mode srv = QDisabled →
   is_populated (srv_secret_cache srv) = true → last_event_id h = ""%string → live = Some [] →
   (length (all_in_namespace (srv_secret_cache srv) ns) ≤ CHANNEL_CAPACITY)%nat →
   hr_body (watch n).1 =
     concat_chunks (frame_secret_event enc_secret <$>
       (secret_event x_secret_string x_from_utf8 now SNAPSHOT <$> all_in_namespace (srv_secret_cache srv) ns))).
Proof.
  intros watch. split.
  { intros n'. unfold watch, sse_secret_watch. destruct (check_auth cfg h); [done|].
    destruct (negb (is_populated (srv_secret_cache srv))); done. }
  intros Hc Hcors Hd Ha Hq Hp Hl -> Hroom. unfold watch, sse_secret_watch. rewrite Hc, Hp. simpl negb. cbn iota.
  unfold rpc_subscribe_secrets. simpl rq_body.
  set (req := in_process now wall_ms (secret_subscribe_request ns n h)).
  unfold sbind at 1. destruct (log_rpc_entry_spec "konfig.SubscribeSecrets" req s) as (s1 & -> & _).
  unfold sbind at 1, check_drain. rewrite Hd. unfold sret at 1.
  unfold sbind at 1, slift at 1, authorize. rewrite Ha. rewrite bool_decide_true by done.
  unfold sbind at 1, admit_subscriber. rewrite Hq. rewrite bool_decide_true by done.
  unfold sbind at 1. change (ssr_namespace (secret_subscribe_request ns n h)) with ns.
  destruct (capture_spec "SubscribeSecrets" req ns "*" s1) as (s2 & rid & -> & _).
  destruct (secret_subscribe_room x_base64 x_secret_string x_from_utf8 now ns [n] (srv_secret_cache srv) []
              (mkChan CHANNEL_CAPACITY 0 [] []) raw) as (ch' & Hrun & Hacc); [done..|simpl; lia|].
  change (Some (SbRecv <$> [])) with (Some ([] : list SecretBridgeInput)) in Hrun.
  change (rq_now req) with now. unfold secret_subscribe_request. rewrite Hl, Hrun. simpl.
  unfold respond, with_cors. rewrite Hcors. simpl. rewrite Hacc, app_nil_r. by rewrite sse_items.
Qed.
End GatewayFacts.

(** ** Witnesses *)
Import CanonicalIter ServerDemo.

Definition demo_gateway : HttpGatewayConfig := mkGatewayConfig "0.0.0.0:8080" (Some "s3cret"%string) None false.
Definition any_json (_ : json) : option string := None.
Definition no_dec {A} (_ : string) : result A string := Err "unsupported"%string.
Definition no_enc {A} (_ : A) : result string string := Ok "{}"%string.

(** A wrong token: no RPC runs.  The right one, in any case of the scheme. *)
Lemma gateway_token_gate_witness :
  let h := mkHeaders (Some "Bearer wrong"%string) None in
  let s := demo_state empty_kube in
  check_auth any_json (λ _, true) demo_gateway (mkHeaders (Some "bearer s3cret"%string) None) = None ∧
  (dispatch any_json (λ _, true) no_dec no_dec no_dec no_dec no_dec no_enc no_enc no_enc no_enc no_enc no_enc
     demo_gateway (demo_server false) 9 0 0 POST h "Apply" "" s).2 = s.
Proof.
  intros h s. split; [vm_compute; reflexivity|].
  destruct (gateway_token_gate any_json (λ _, true) demo_gateway h no_dec no_dec no_dec no_dec no_dec no_enc no_enc
    no_enc no_enc no_enc no_enc (demo_server false) 9 0 0 POST "Apply" "" "prod" "web" 0 0 [] None (Ok []) s eq_refl)
    as (_ & Hno & _).
  apply Hno; [vm_compute; discriminate | discriminate | by left].
Defined.

(** Two secrets are cached; watching [a] streams both. *)
Definition two_secrets : SecretCache :=
  update (update SecretCache_new (mkSecretSnapshot "a" "prod" 1 ∅ "5" 0 None None))
    (mkSecretSnapshot "b" "prod" 1 ∅ "6" 0 None None).

Definition open_server : Server :=
  mkServer _ false Disabled ∅ true ∅ QDisabled ∅ true 0 0 0 1 (from_map "config" ∅) two_secrets false.

Lemma secret_watch_ignores_name_witness :
  let h := mkHeaders (Some "Bearer s3cret"%string) None in
  let s := demo_state empty_kube in
  let watch n := sse_secret_watch any_json (λ _, true) no_enc demo_gateway open_server 0 0 "prod" n h (Some []) (Ok []) s in
  watch "a"%string = watch "b"%string ∧
  hr_body (watch "a"%string).1 =
    concat_chunks (frame_secret_event no_enc <$>
      (secret_event x_secret_string x_from_utf8 0 SNAPSHOT <$> all_in_namespace two_secrets "prod")) ∧
  length (all_in_namespace two_secrets "prod") = 2%nat.
Proof.
  intros h s watch.
  destruct (secret_watch_ignores_name any_json (λ _, true) no_enc demo_gateway open_server 0 0 "prod" "a" h (Some []) (Ok [])
    s) as [Hsame Hbody].
  split; [exact (Hsame "b"%string)|]. split; [|vm_compute; reflexivity].
  apply Hbody; try reflexivity. apply Nat.leb_le. vm_compute. reflexivity.
Defined.
