(* ===== verification/ConfigMap.v ===== *)
(** * ConfigMaps: [configmap_watcher.rs], [import.rs], [value_parse.rs]

    A labelled ConfigMap as a live config source, and the one-off import of a
    ConfigMap as a Config object.  YAML is a parameter. *)
From S2P Require Export Watcher Kube F64.

(** [BTreeMap<String, String>]: bindings in increasing key order. *)
Notation StrMap := (list (string * string)).

Fixpoint str_get (k : string) (m : StrMap) : option string :=
  match m with
  | [] => None
  | (k', v) :: rest => if String.eqb k k' then Some v else str_get k rest
  end.

(** ** [value_parse.rs]

    [json!(f)] of a float that is not finite is [null]. *)
Definition json_of_f64 (f : SpecFloat.spec_float) : json :=
  match f with
  | SpecFloat.S754_infinity _ | SpecFloat.S754_nan => JNull
  | _ => JFloat f
  end.

Definition parse_bool (s : string) : option bool :=
  if String.eqb s "true" then Some true else if String.eqb s "false" then Some false else None.

Definition scalar_value (s : string) : json :=
  match parse_i64 s with
  | Some z => JInt z
  | None =>
      match parse_f64 s with
      | Some f => json_of_f64 f
      | None => match parse_bool s with Some b => JBool b | None => JStr s end
      end
  end.

(** ** [import.rs] *)
Definition DEFAULT_SCHEMA_VERSION : Z := 1.

Definition parse_schema_version_from_data (data : StrMap) : Z :=
  default DEFAULT_SCHEMA_VERSION (v ← str_get "schema_version" data; parse_u32 v).

(** Iterating in key order inserts in key order. *)
Definition content_from_data (data : StrMap) : list (string * json) :=
  (λ kv, (kv.1, scalar_value kv.2)) <$> filter (λ kv, kv.1 ≠ "schema_version"%string) data.

Definition build_import_patch_body (ns target_name : string) (schema_version : Z) (content : list (string * json)) : json :=
  JObj [("apiVersion", JStr (GROUP +:+ "/" +:+ VERSION)); ("kind", JStr "Config");
        ("metadata", JObj [("name", JStr target_name); ("namespace", JStr ns)]);
        ("spec", JObj [("content", JObj content); ("schema_version", JInt schema_version)])]%string.

Record ConfigMap : Type := mkConfigMap {
  cm_name : option string;
  cm_resource_version : option string;
  cm_data : option StrMap
}.

(** The ConfigMap endpoint, read only. *)
Class ConfigMapApi (W : Type) := {
  configmap_get : string → string → W → result ConfigMap KubeError * W
}.

Definition import_configmap {W} `{KubeApi W, ConfigMapApi W} (ns configmap_name target_name : string) (w : W) :
    result string KubeError * W :=
  match configmap_get ns configmap_name w with
  | (Err e, w1) => (Err e, w1)
  | (Ok cm, w1) =>
      let data := default [] (cm_data cm) in
      let body := build_import_patch_body ns target_name (parse_schema_version_from_data data) (content_from_data data) in
      match kube_patch ns target_name body w1 with
      | (Err e, w2) => (Err e, w2)
      | (Ok o, w2) => (Ok (default ""%string (om_resource_version (do_metadata o))), w2)
      end
  end.

(** ** [configmap_watcher.rs] *)
Section ConfigMapWatcher.
Context (yaml_value : string → result json string).

Definition parse_configmap (now : Instant) (cm : ConfigMap) (ns : string) : option ConfigSnapshot :=
  match cm_data cm with
  | None => None
  | Some data =>
      let schema_version := default 0 (v ← str_get "schema_version" data; parse_u32 v) in
      let content :=
        match str_get "content" data with
        | Some c => match yaml_value c with Ok v => v | Err _ => JObj [] end
        | None => JObj ((λ kv, (kv.1, scalar_value kv.2)) <$> filter (λ kv, kv.1 ≠ "schema_version"%string) data)
        end in
      Some (mkConfigSnapshot (default "" (cm_name cm)) ns schema_version content
              (default "" (cm_resource_version cm)) now None ∅ None)
  end.

Definition handle_configmap_event (now : Instant) (ns : string) (event : Event ConfigMap) (cache : ConfigCache) :
    ConfigCache :=
  match event with
  | Apply cm | InitApply cm =>
      match parse_configmap now cm ns with Some snap => update cache snap | None => cache end
  | Delete _ => cache
  | Init | InitDone => cache
  end.

Fixpoint pump_configmap_events (ns : string) (items : stream ConfigMap) (cache : ConfigCache) :
    ConfigCache * result unit string :=
  match items with
  | [] => (cache, Ok tt)
  | (_, Err e) :: _ => (cache, Err e)
  | (now, Ok event) :: rest => pump_configmap_events ns rest (handle_configmap_event now ns event cache)
  end.

(** The object the API server stores for an imported body. *)
Definition imported_object (ns target_name rv : string) (data : StrMap) : DynamicObject :=
  mkObj (mkMeta (Some target_name) (Some ns) (Some rv) None None)
    (build_import_patch_body ns target_name (parse_schema_version_from_data data) (content_from_data data)).

Lemma str_version_range data d :
  in_u32 d → in_u32 (default d (v ← str_get "schema_version" data; parse_u32 v)).
Proof.
  intros Hd. destruct (str_get "schema_version" data) as [v|]; simpl; [|done].
  destruct (parse_u32 v) as [z|] eqn:Hz; simpl; [|done]. by apply parse_unsigned_range in Hz.
Qed.

Lemma assoc_cons_ne k k' v l : k ≠ k' → assoc k ((k', v) :: l) = assoc k l.
Proof. intros Hne. cbn [assoc]. by destruct (String.eqb_spec k k'). Qed.

(** importing a ConfigMap and watching it agree on the content.  When the
    ConfigMap has no [content] key, the Config watcher reads the imported object
    with exactly the content the ConfigMap watcher reads from the ConfigMap
    itself, and with the same schema version if the ConfigMap has a numeric one;
    without one the import says 1 and the watcher 0.  When there is a [content]
    key the watcher parses it as the whole content, while the import keeps it as
    one member holding a scalar. *)
Theorem import_matches_watcher now cm ns target rv data :
  cm_data cm = Some data →
  ∃ imp live,
    parse_config_object now (imported_object ns target rv data) = Some imp ∧
    parse_configmap now cm ns = Some live ∧
    (str_get "content" data = None → c_content imp = c_content live) ∧
    (∀ c v, str_get "content" data = Some c → yaml_value c = Ok v →
       c_content live = v ∧ assoc "content" (content_from_data data) = Some (scalar_value c)) ∧
    c_content imp = JObj (content_from_data data) ∧
    (∀ v z, str_get "schema_version" data = Some v → parse_u32 v = Some z →
       c_schema_version imp = z ∧ c_schema_version live = z) ∧
    (str_get "schema_version" data = None → c_schema_version imp = 1 ∧ c_schema_version live = 0).
Proof.
  intros Hd. unfold parse_configmap. rewrite Hd.
  assert (Hr : in_u32 (parse_schema_version_from_data data)) by (apply str_version_range; by vm_compute).
  assert (Hspec : config_spec_of_json (JObj [("content", JObj (content_from_data data));
                     ("schema_version", JInt (parse_schema_version_from_data data))]%string) =
                  Ok (mkConfigSpec (parse_schema_version_from_data data) (JObj (content_from_data data)))).
  { apply (config_spec_json_roundtrip (mkConfigSpec _ _)). exact Hr. }
  do 2 eexists. split.
  { unfold parse_config_object.
    change (json_get "spec" (do_data (imported_object ns target rv data))) with
      (Some (JObj [("content", JObj (content_from_data data));
                   ("schema_version", JInt (parse_schema_version_from_data data))]%string)).
    cbv iota beta. rewrite Hspec. reflexivity. }
  split; [reflexivity|]. simpl. split_and!.
  - intros ->. done.
  - intros c v Hc Hv. rewrite Hc, Hv. split; [done|]. clear -Hc.
    unfold content_from_data. induction data as [|[k x] data IH]; [done|]. cbn [str_get] in Hc.
    rewrite filter_cons. destruct (String.eqb_spec "content" k) as [<-|Hne].
    + rewrite decide_True by done. simpl. by simplify_eq.
    + case_decide; [|by apply IH]. rewrite fmap_cons, assoc_cons_ne by done. by apply IH.
  - done.
  - intros v z Hv Hz. unfold parse_schema_version_from_data. rewrite Hv. simpl. by rewrite Hz.
  - intros Hn. unfold parse_schema_version_from_data. by rewrite Hn.
Qed.
End ConfigMapWatcher.

(** The coercion is not a round trip: text that parses as a number loses its
    spelling, and a non-finite float becomes [null]. *)
Example scalar_value_lossy :
  scalar_value "007" = JInt 7 ∧ scalar_value "+5" = JInt 5 ∧ scalar_value "inf" = JNull ∧
  scalar_value "true" = JBool true ∧ scalar_value "Yes" = JStr "Yes".
Proof. repeat split; vm_compute; reflexivity. Qed.

Lemma import_matches_watcher_witness :
  let data := [("replicas", "3"); ("schema_version", "2")]%string in
  let cm := mkConfigMap (Some "web"%string) (Some "9"%string) (Some data) in
  ∃ imp live, parse_config_object 0 (imported_object "prod" "web" "10" data) = Some imp ∧
    parse_configmap (λ _, Err ""%string) 0 cm "prod" = Some live ∧
    c_content imp = c_content live ∧ c_content imp = JObj [("replicas"%string, JInt 3)].
Proof.
  intros data cm.
  destruct (import_matches_watcher (λ _, Err ""%string) 0 cm "prod" "web" "10" data eq_refl)
    as (imp & live & Hi & Hl & Hc & _ & Hj & _).
  exists imp, live. split; [exact Hi|]. split; [exact Hl|]. split; [by apply Hc|].
  rewrite Hj. vm_compute. reflexivity.
Defined.
