(* ===== verification/Typing.v ===== *)
(** * What the caches may hold

    The typing invariant of the two snapshot caches: every entry is filed under
    its own namespace and name, its schema version is a [u32], and the entry gauge
    counts the entries.  Every writer of the process (the Config watcher, the
    ConfigMap watcher, the secret watch tasks, each event and each connection of
    them) preserves it, so a read answers with the resource that was asked for. *)
From Stdlib Require Import SpecFloat.
From S2P Require Export ConfigMap Server.

Module Typing.

Section Typed.
Context {S : Type} `{CacheEntry S, !CacheEntryLaws S} (good : S → Prop).
Context (good_stale : ∀ s t, good s → good (set_stale s t)).

Record cache_typed (c : CowCache S) : Prop := {
  ct_ok : cow_ok c;
  ct_good : map_Forall (λ _, good) (inner c)
}.

Definition mutation_good (mu : Mutation S) : Prop := match mu with Upsert s => good s | Remove _ _ => True end.

Lemma typed_update c s : good s → cache_typed c → cache_typed (update c s).
Proof. intros Hs [Hok Hg]. split; [by apply cow_ok_update|]. by apply map_Forall_insert_2. Qed.

Lemma typed_stale c t : cache_typed c → cache_typed (mark_all_stale c t).
Proof.
  intros [Hok Hg]. split; [by apply cow_ok_mark_all_stale|]. intros k s. simpl. unfold stale_all. rewrite lookup_fmap.
  intros (s' & Hs & ->)%fmap_Some. eapply good_stale, Hg, Hs.
Qed.

Lemma typed_batch c ms : Forall mutation_good ms → cache_typed c → cache_typed (apply_batch c ms).1.
Proof.
  intros Hms [Hok Hg]. split; [by apply cow_ok_apply_batch|].
  assert (Hf : map_Forall (λ _, good) (foldl apply_mutation (inner c) ms)); [|by destruct ms].
  clear Hok. revert Hg. generalize (inner c). induction Hms as [|mu ms Hmu _ IH]; intros m Hm; simpl; [done|]. apply IH.
  destruct mu; simpl; [by apply map_Forall_insert_2|by apply map_Forall_delete].
Qed.

(** The relist state machine preserves a property of the state and keeps good
    mutations in its buffer. *)
Definition buffer_good (relist : option (list (Mutation S))) : Prop :=
  match relist with Some buf => Forall mutation_good buf | None => True end.

Lemma route_relist_typed {E St} (inv : St → Prop) (ev : Event E) relist b
    (buffer : E → list (Mutation S) → St → list (Mutation S) * St) commit handle st :
  (∀ e buf st, Forall mutation_good buf → inv st → Forall mutation_good (buffer e buf st).1 ∧ inv (buffer e buf st).2) →
  (∀ buf st, Forall mutation_good buf → inv st → inv (commit buf st)) →
  (∀ ev st, inv st → inv (handle ev st)) →
  buffer_good relist → inv st →
  buffer_good (route_relist_event ev relist b buffer commit handle st).1 ∧
  inv (route_relist_event ev relist b buffer commit handle st).2.
Proof.
  intros Hb Hc Hh Hr Hi. unfold route_relist_event. destruct relist as [buf|]; destruct ev as [o|o| |o|]; simpl; try (split; auto; done).
  - destruct (buffer o buf st) as [buf' st'] eqn:Heq. pose proof (Hb o buf st Hr Hi) as [? ?]. by rewrite Heq in *.
  - destruct b; simpl; auto.
Qed.
End Typed.

Definition good_config (s : ConfigSnapshot) : Prop := in_u32 (c_schema_version s).
Definition good_secret (s : SecretSnapshot) : Prop := in_u32 (s_schema_version s).

Lemma good_config_stale s t : good_config s → good_config (set_stale s t).
Proof. done. Qed.
Lemma good_secret_stale s t : good_secret s → good_secret (set_stale s t).
Proof. done. Qed.

Notation config_typed := (cache_typed good_config).
Notation secret_typed := (cache_typed good_secret).

(** ** The Config watcher *)
Lemma typed_handle_event now ev c : config_typed c → config_typed (handle_event now ev c).
Proof.
  intros Hc. destruct ev as [o|o| |o|]; simpl; try done;
    (destruct (parse_config_object now o) as [s|] eqn:Hp; [|done]; apply parse_config_object_fields in Hp;
     apply typed_update; [apply Hp|done]).
Qed.

Lemma typed_route_config now ev relist b c :
  buffer_good good_config relist → config_typed c →
  buffer_good good_config (route_config_event now ev c relist b).1 ∧
  config_typed (route_config_event now ev c relist b).2.
Proof.
  apply route_relist_typed.
  - intros o buf st Hbuf Hst. unfold buffer_config. destruct (parse_config_object now o) as [s|] eqn:Hp; [|done].
    apply parse_config_object_fields in Hp. split; [|done]. apply Forall_app. split; [done|]. constructor; [apply Hp|constructor].
  - intros buf st Hbuf Hst. by apply typed_batch.
  - intros ev' st Hst. by apply typed_handle_event.
Qed.

Lemma typed_pump b items relist c lea :
  buffer_good good_config relist → config_typed c → config_typed (pump_loop b relist items c lea).1.1.
Proof.
  revert relist c lea. induction items as [|[now [ev|e]] items IH]; intros relist c lea Hr Hc; simpl; [done| |done].
  pose proof (typed_route_config now ev relist b c Hr Hc) as [Hr' Hc'].
  destruct (route_config_event _ _ _ _ _) as [relist' c']. by apply IH.
Qed.

Lemma typed_run conns attempt c lea : config_typed c → config_typed (Watcher_run conns attempt c lea).1.1.1.
Proof.
  revert attempt c lea. induction conns as [|[items t] conns IH]; intros attempt c lea Hc; simpl; [done|].
  pose proof (typed_pump (bool_decide (0 < attempt)%nat) items None c lea I Hc) as Hp. unfold pump_config_events.
  destruct (pump_loop _ _ _ _ _) as [[c' lea'] []]; simpl in *; [done|].
  specialize (IH (S attempt) (mark_all_stale c' t) lea' (typed_stale good_config good_config_stale _ _ Hp)).
  by destruct (Watcher_run _ _ _ _) as [[[? ?] ?] ?].
Qed.

(** ** The ConfigMap watcher *)
Lemma typed_configmap_event yaml_value now ns ev c :
  config_typed c → config_typed (handle_configmap_event yaml_value now ns ev c).
Proof.
  intros Hc. destruct ev as [o|o| |o|]; simpl; try done; unfold parse_configmap; (destruct (cm_data o) as [data|]; [|done]);
    (apply typed_update; [by apply str_version_range|done]).
Qed.

Lemma typed_configmap yaml_value ns items c :
  config_typed c → config_typed (pump_configmap_events yaml_value ns items c).1.
Proof.
  revert c. induction items as [|[now [ev|e]] items IH]; intros c Hc; simpl; [done| |done]. by apply IH, typed_configmap_event.
Qed.

(** ** The secret watch tasks *)
Section Secrets.
Context (base64 : list Z → list Z).
Context (secret_map_to_string : gmap string string → option string) (from_utf8 : list Z → option string).

Lemma secret_version_range secret : in_u32 (parse_secret_schema_version secret).
Proof.
  unfold parse_secret_schema_version. destruct (so_annotations secret) as [a|]; [|done]. simpl.
  destruct (a !! SCHEMA_VERSION_ANNOTATION) as [v|]; [|done]. simpl.
  destruct (parse_u32 v) as [z|] eqn:Hz; [|done]. by apply parse_unsigned_range in Hz.
Qed.

Lemma typed_handle_secret now ns ev st :
  secret_typed (ss_cache st) → secret_typed (ss_cache (handle_secret_event base64 secret_map_to_string from_utf8 now ns ev st)).
Proof. intros Hc. destruct ev; simpl; try done; (apply typed_update; [apply secret_version_range|done]). Qed.

Lemma typed_route_secret now ns ev relist b st :
  buffer_good good_secret relist → secret_typed (ss_cache st) →
  buffer_good good_secret (route_secret_event base64 secret_map_to_string from_utf8 now ns ev relist b st).1 ∧
  secret_typed (ss_cache (route_secret_event base64 secret_map_to_string from_utf8 now ns ev relist b st).2).
Proof.
  apply (route_relist_typed good_secret (λ st, secret_typed (ss_cache st))).
  - intros o buf st0 Hbuf Hst. split; [|done]. simpl. apply Forall_app. split; [done|].
    constructor; [apply secret_version_range|constructor].
  - intros buf st0 Hbuf Hst. simpl. by apply typed_batch.
  - intros ev' st0 Hst. by apply typed_handle_secret.
Qed.

Lemma typed_secret_pump ns b items relist st lea :
  buffer_good good_secret relist → secret_typed (ss_cache st) →
  secret_typed (ss_cache (secret_pump_loop base64 secret_map_to_string from_utf8 ns b relist items st lea).1.1).
Proof.
  revert relist st lea. induction items as [|[now [ev|e]] items IH]; intros relist st lea Hr Hc; simpl; [done| |done].
  pose proof (typed_route_secret now ns ev relist b st Hr Hc) as [Hr' Hc'].
  destruct (route_secret_event _ _ _ _ _ _ _ _ _) as [relist' st']. by apply IH.
Qed.

Lemma typed_secret_task conns ns st lea :
  secret_typed (ss_cache st) →
  secret_typed (ss_cache (secret_watch_task base64 secret_map_to_string from_utf8 conns ns st lea).1.1).
Proof.
  intros Hc. unfold secret_watch_task.
  match goal with |- context [run_with_reconnect ?od ?f0 ?r0 ?a0 ?s0] =>
    assert (Hinv : ∀ rounds attempt s, secret_typed (ss_cache s.1.1) →
      secret_typed (ss_cache (run_with_reconnect od f0 rounds attempt s).1.1.1)); [|specialize (Hinv r0 a0 s0 Hc)] end.
  - induction rounds as [|rounds IH]; intros attempt s Hs; simpl; [done|].
    match goal with |- context [run_with_reconnect _ _ rounds (S attempt) ?x] => specialize (IH (S attempt) x) end.
    destruct (run_with_reconnect _ _ rounds _ _) as [s' sl]. simpl in *. apply IH.
    assert (Hf : secret_typed (ss_cache match conns !! attempt with
        | Some (items, _) =>
            let '(st', lea, _) := pump_secret_events base64 secret_map_to_string from_utf8 items ns s.1.1 s.1.2
                                    (bool_decide (0 < attempt)%nat) in (st', lea, attempt)
        | None => s end.1.1)).
    { destruct (conns !! attempt) as [[items t]|]; [|done]. unfold pump_secret_events.
      pose proof (typed_secret_pump ns (bool_decide (0 < attempt)%nat) items None s.1.1 s.1.2 I Hs) as Hp.
      by destruct (secret_pump_loop _ _ _ _ _ _ _ _ _) as [[? ?] ?]. }
    destruct (match conns !! attempt with Some _ => _ | None => _ end) as [[st1 lea1] k]. simpl in *.
    destruct (conns !! k) as [[? t]|]; simpl; [|done]. by apply (typed_stale good_secret good_secret_stale).
  - by destruct (run_with_reconnect _ _ _ _ _) as [s sl].
Qed.
End Secrets.

(** ** The initial caches *)
Lemma initial_secret_typed : secret_typed SecretCache_new.
Proof.
  split; [apply SecretCache_new_ok|]. intros k s Hk. change ((∅ : gmap OwnedKey SecretSnapshot) !! k = Some s) in Hk.
  by rewrite lookup_empty in Hk.
Qed.

Lemma initial_config_typed snap : good_config snap → config_typed (ConfigCache_new snap).
Proof.
  intros Hs. split; [apply ConfigCache_new_ok|]. simpl. destruct (_ && _)%bool; intros k s.
  - by intros [_ <-]%lookup_singleton_Some.
  - by rewrite lookup_empty.
Qed.

(** ** Reads *)
Lemma typed_get {S} `{CacheEntry S} (good : S → Prop) (c : CowCache S) ns n s :
  cache_typed good c → CowCache.get c ns n = Some s → namespace s = ns ∧ name s = n ∧ good s.
Proof.
  intros [[Hk _] Hg] Hs. specialize (Hk _ _ Hs). specialize (Hg _ _ Hs). unfold key_of in Hk. by simplify_eq.
Qed.

(** C15: the caches are well typed and reads answer what was asked.  The empty and
    the initial caches are typed; any run of the Config watcher (all connections,
    relists and errors), of the ConfigMap watcher and of a secret watch task keeps
    its cache typed, as does each single Config event, so the watchers that share the
    Config cache may interleave; and
    from a typed cache Get and GetSecret answer with a message for exactly the
    namespace and name requested and a 32-bit version, GetAll and GetAllSecrets
    only with messages of the namespace requested. *)
Theorem caches_well_typed `{X : Externals} `{!MapIter OwnedKey ConfigSnapshot, !MapIterLaws OwnedKey ConfigSnapshot}
    `{!MapIter OwnedKey SecretSnapshot, !MapIterLaws OwnedKey SecretSnapshot} base64 to_str from_utf8 yaml_value :
  secret_typed SecretCache_new ∧
  (∀ snap, good_config snap → config_typed (ConfigCache_new snap)) ∧
  (∀ conns attempt c lea, config_typed c → config_typed (Watcher_run conns attempt c lea).1.1.1) ∧
  (∀ now ev c, config_typed c → config_typed (handle_event now ev c)) ∧
  (∀ ns items c, config_typed c → config_typed (pump_configmap_events yaml_value ns items c).1) ∧
  (∀ conns ns st lea, secret_typed (ss_cache st) →
     secret_typed (ss_cache (secret_watch_task base64 to_str from_utf8 conns ns st lea).1.1)) ∧
  (∀ c now ns, config_typed c →
     (∀ n msg, handle_get now c ns n = Ok msg → m_namespace msg = ns ∧ m_name msg = n ∧ in_u32 (m_schema_version msg)) ∧
     (∀ msg, msg ∈ handle_get_all now c ns → m_namespace msg = ns)) ∧
  (∀ c now ns, secret_typed c →
     (∀ n msg, handle_get_secret to_str from_utf8 now c ns n = Ok msg →
        sp_namespace msg = ns ∧ sp_name msg = n ∧ in_u32 (sp_schema_version msg)) ∧
     (∀ msg, msg ∈ handle_get_all_secrets to_str from_utf8 now c ns → sp_namespace msg = ns)).
Proof.
  split_and!.
  - apply initial_secret_typed.
  - apply initial_config_typed.
  - apply typed_run.
  - apply typed_handle_event.
  - apply typed_configmap.
  - apply typed_secret_task.
  - intros c now ns Hc. split.
    + intros n msg. unfold handle_get. destruct (CowCache.get c ns n) as [s|] eqn:Hs; [|done]. intros [= <-].
      exact (typed_get good_config c ns n s Hc Hs).
    + intros msg. unfold handle_get_all. rewrite list_elem_of_fmap. intros (s & -> & Hs).
      apply elem_of_all_in_namespace in Hs as [n Hn]; [|apply Hc]. exact (proj1 (typed_get good_config c ns n s Hc Hn)).
  - intros c now ns Hc. split.
    + intros n msg. unfold handle_get_secret. destruct (CowCache.get c ns n) as [s|] eqn:Hs; [|done]. intros [= <-].
      exact (typed_get good_secret c ns n s Hc Hs).
    + intros msg. unfold handle_get_all_secrets. rewrite list_elem_of_fmap. intros (s & -> & Hs).
      apply elem_of_all_in_namespace in Hs as [n Hn]; [|apply Hc]. exact (proj1 (typed_get good_secret c ns n s Hc Hn)).
Qed.

Import CanonicalIter ServerDemo.

(** A Config delivered by the watch stream is read back under its own name. *)
Lemma caches_well_typed_witness :
  let c := (Watcher_run [([(5, Ok (Apply (demo_obj "web" 3 "7")))], 9)] 0 (ConfigCache_new (ConfigSnapshot_default 0)) 0).1.1.1 in
  is_ok (handle_get 10 c "prod" "web") = true ∧
  ∀ n msg, handle_get 10 c "prod" n = Ok msg → m_namespace msg = "prod"%string ∧ m_name msg = n ∧ in_u32 (m_schema_version msg).
Proof.
  destruct (caches_well_typed (λ b, b) (λ _, None) (λ _, None) (λ _, Err "none"%string))
    as (_ & Hnew & Hrun & _ & _ & _ & Hget & _).
  intros c. split; [vm_compute; reflexivity|]. apply Hget, Hrun, Hnew. vm_compute. split; discriminate.
Defined.

End Typing.
