(* ===== verification/Consumer.v ===== *)
(** * The client library: [konfig-consumer/src/stream.rs], [snapshot.rs], [lib.rs]

    The stream driver that keeps one snapshot per watched name, its reconnect
    loop with the resume cursor, and the raw reconnecting event stream.  JSON
    parsing is a parameter. *)
From S2P Require Export Subscribe.

Module Consumer.

Record Snapshot : Type := mkSnap {
  cl_content : json;
  cl_schema_version : Z;
  cl_resource_version : string;
  cl_loaded_at : Instant;
  cl_stale_since : option Instant
}.

Definition snapshot_default (now : Instant) : Snapshot := mkSnap JNull 0 "" now None.

Definition compiled_in (now : Instant) (content : json) : Snapshot := mkSnap content 0 "" now None.

Definition spec_snapshot (now : Instant) (spec : ConfigSpec) (rv : string) : Snapshot :=
  mkSnap (cs_content spec) (cs_schema_version spec) rv now None.

Definition with_stale_since (s : Snapshot) (t : Instant) : Snapshot :=
  mkSnap (cl_content s) (cl_schema_version s) (cl_resource_version s) (cl_loaded_at s) (Some t).

(** [backoff_delay] repeats the schedule of the server's watchers. *)
Definition client_backoff_steps_secs : list Z := [1; 2; 4; 8; 16; 30].
Definition client_backoff_delay (attempt : nat) : Z :=
  default (default 0 (last client_backoff_steps_secs)) (client_backoff_steps_secs !! attempt).

Section Client.
Context (from_str : string → option json).

Definition snapshot_from_proto (now : Instant) (cfg : ConfigMsg) : option Snapshot :=
  let content := if is_empty (m_content_json cfg) then Some (JObj []) else from_str (m_content_json cfg) in
  (λ c, mkSnap c (m_schema_version cfg) (m_resource_version cfg) now None) <$> content.

(** The stores and the resume cursor. *)
Record Driver : Type := mkDriver {
  dv_stores : gmap string Snapshot;
  dv_resume_rv : string;
  dv_last_event_at : option Instant
}.

(** The free function [apply]. *)
Definition demux (now : Instant) (ev : ConfigEvent) (stores : gmap string Snapshot) (resume_rv : string) :
    gmap string Snapshot * string :=
  match ev_config ev with
  | None => (stores, resume_rv)
  | Some cfg =>
      let resume_rv := if is_empty (m_resource_version cfg) then resume_rv else m_resource_version cfg in
      match stores !! m_name cfg with
      | None => (stores, resume_rv)
      | Some _ =>
          match ev_type ev with
          | DELETED => (stores, resume_rv)
          | ADDED | MODIFIED | SNAPSHOT =>
              match snapshot_from_proto now cfg with
              | Some snap => (<[m_name cfg := snap]> stores, resume_rv)
              | None => (stores, resume_rv)
              end
          end
      end
  end.

Definition mark_all_stale (now : Instant) (stores : gmap string Snapshot) : gmap string Snapshot :=
  (λ s, match cl_stale_since s with Some _ => s | None => with_stale_since s now end) <$> stores.

Inductive StreamEnd : Set := Clean | Error.

(** One connected stream: its messages, [Ok None] being the clean close; with no
    message left the pump is still waiting. *)
Notation Messages := (list (Instant * rpc (option ConfigEvent))).

Fixpoint pump (msgs : Messages) (d : Driver) : Driver * option StreamEnd :=
  match msgs with
  | [] => (d, None)
  | (_, Ok None) :: _ => (d, Some Clean)
  | (_, Err _) :: _ => (d, Some Error)
  | (now, Ok (Some ev)) :: rest =>
      let '(stores, rv) := demux now ev (dv_stores d) (dv_resume_rv d) in
      pump rest (mkDriver stores rv (Some now))
  end.

(** One turn of the loop: the answer to Subscribe, and when a failure is
    observed. *)
Definition Turn : Type := result Messages Status * Instant.

(** Returns the driver, the requests made (their resume cursors) and the sleeps
    (in seconds).  A stream that has not ended blocks the loop. *)
Fixpoint run (turns : list Turn) (attempt : nat) (d : Driver) : Driver * list string * list Z :=
  match turns with
  | [] => (d, [], [])
  | (answer, t) :: rest =>
      let req := dv_resume_rv d in
      let stale d := mkDriver (mark_all_stale t (dv_stores d)) (dv_resume_rv d) (dv_last_event_at d) in
      let next attempt d :=
        let '(d', reqs, sleeps) := run rest (S attempt) d in
        (d', req :: reqs, client_backoff_delay attempt :: sleeps) in
      match answer with
      | Err _ => next attempt (stale d)
      | Ok msgs =>
          match pump msgs d with
          | (d', None) => (d', [req], [])
          | (d', Some Clean) => next 0%nat d'
          | (d', Some Error) => next 0%nat (stale d')
          end
      end
  end.

(** [watch]: one store per name, then the driver. *)
Definition watch_stores (now : Instant) (names : list string) : option (gmap string Snapshot) :=
  if bool_decide (names = []) then None
  else Some (foldl (λ m n, <[n := snapshot_default now]> m) ∅ names).

(** [reconnecting_event_stream]: the events yielded and the cursors requested. *)
Fixpoint raw_messages (msgs : Messages) (rv : string) : list ConfigEvent * string * bool :=
  match msgs with
  | [] => ([], rv, false)
  | (_, Ok None) :: _ | (_, Err _) :: _ => ([], rv, true)
  | (_, Ok (Some ev)) :: rest =>
      let rv := match ev_config ev with
                | Some cfg => if is_empty (m_resource_version cfg) then rv else m_resource_version cfg
                | None => rv
                end in
      let '(evs, rv', ended) := raw_messages rest rv in (ev :: evs, rv', ended)
  end.

Fixpoint reconnecting_event_stream (turns : list Turn) (attempt : nat) (rv : string) :
    list ConfigEvent * list string * list Z :=
  match turns with
  | [] => ([], [], [])
  | (Err _, _) :: rest =>
      let '(evs, reqs, sleeps) := reconnecting_event_stream rest (S attempt) rv in
      (evs, rv :: reqs, client_backoff_delay attempt :: sleeps)
  | (Ok msgs, _) :: rest =>
      match raw_messages msgs rv with
      | (evs, rv', false) => (evs, [rv], [])
      | (evs, rv', true) =>
          let '(evs', reqs, sleeps) := reconnecting_event_stream rest 1%nat rv' in
          (evs ++ evs', rv :: reqs, client_backoff_delay 0 :: sleeps)
      end
  end.

(** ** What was received *)

(** The events of a stream before its end, and of a run. *)
Fixpoint received (msgs : Messages) : list (Instant * ConfigEvent) :=
  match msgs with
  | (now, Ok (Some ev)) :: rest => (now, ev) :: received rest
  | _ => []
  end.

Fixpoint ended (msgs : Messages) : bool :=
  match msgs with
  | [] => false
  | (_, Ok (Some _)) :: rest => ended rest
  | _ => true
  end.

Fixpoint run_received (turns : list Turn) : list (Instant * ConfigEvent) :=
  match turns with
  | [] => []
  | (Err _, _) :: rest => run_received rest
  | (Ok msgs, _) :: rest => received msgs ++ (if ended msgs then run_received rest else [])
  end.

(** What a client cares about in a snapshot. *)
Definition payload (s : Snapshot) : json * Z * string :=
  (cl_content s, cl_schema_version s, cl_resource_version s).

(** The payload an event carries for [n]. *)
Definition news (n : string) (p : Instant * ConfigEvent) : option (json * Z * string) :=
  match ev_config p.2 with
  | Some cfg =>
      if bool_decide (m_name cfg = n) && negb (bool_decide (ev_type p.2 = DELETED))
      then payload <$> snapshot_from_proto p.1 cfg else None
  | None => None
  end.

Definition cursor (p : Instant * ConfigEvent) : option string :=
  match ev_config p.2 with
  | Some cfg => if is_empty (m_resource_version cfg) then None else Some (m_resource_version cfg)
  | None => None
  end.

(** The last of a list of optional values, or the value before. *)
Definition latest {A B} (f : A → option B) (l : list A) (b : B) : B :=
  foldl (λ acc x, default acc (f x)) b l.

Lemma demux_spec now ev stores rv n old :
  payload <$> stores !! n = Some old →
  let '(stores', rv') := demux now ev stores rv in
  payload <$> stores' !! n = Some (default old (news n (now, ev))) ∧
  rv' = default rv (cursor (now, ev)).
Proof.
  intros Hn. unfold demux, news, cursor; simpl. destruct (ev_config ev) as [cfg|]; [|done].
  assert (Hrv : (if is_empty (m_resource_version cfg) then rv else m_resource_version cfg) =
                default rv (if is_empty (m_resource_version cfg) then None else Some (m_resource_version cfg)))
    by (by destruct (is_empty _)).
  destruct (stores !! m_name cfg) as [s|] eqn:Hs.
  2: { rewrite bool_decide_false; [done|]. intros Heq. rewrite Heq in Hs. by rewrite Hs in Hn. }
  case_bool_decide as Hname; simpl.
  - subst n. destruct (ev_type ev) eqn:Hty; simpl; try done;
      (destruct (snapshot_from_proto now cfg) as [snap|]; simpl; [by rewrite lookup_insert_eq|done]).
  - destruct (ev_type ev); simpl; try done;
      (destruct (snapshot_from_proto now cfg) as [snap|]; simpl; [by rewrite lookup_insert_ne|done]).
Qed.

Lemma pump_spec msgs d n old :
  payload <$> dv_stores d !! n = Some old →
  payload <$> dv_stores (pump msgs d).1 !! n = Some (latest (news n) (received msgs) old) ∧
  dv_resume_rv (pump msgs d).1 = latest cursor (received msgs) (dv_resume_rv d) ∧
  ((pump msgs d).2 = None ↔ ended msgs = false).
Proof.
  revert d old; induction msgs as [|[now [[ev|]|e]] msgs IH]; intros d old Hn; simpl; try done.
  pose proof (demux_spec now ev (dv_stores d) (dv_resume_rv d) n old Hn) as Hd.
  destruct (demux now ev (dv_stores d) (dv_resume_rv d)) as [stores rv]. destruct Hd as [Hp Hr].
  destruct (IH (mkDriver stores rv (Some now)) _ Hp) as (H1 & H2 & H3). split_and!; [done| |done].
  rewrite H2. simpl. by rewrite Hr.
Qed.

Lemma mark_all_stale_payload now stores n :
  payload <$> mark_all_stale now stores !! n = payload <$> stores !! n.
Proof.
  unfold mark_all_stale. rewrite lookup_fmap. destruct (stores !! n) as [s|]; simpl; [|done].
  by destruct (cl_stale_since s).
Qed.

Lemma latest_app {A B} (f : A → option B) a b x : latest f (a ++ b) x = latest f b (latest f a x).
Proof. apply foldl_app. Qed.

(** C34: the client keeps the last good value of every watched config.  Whatever
    the sequence of answers, streams, disconnects and reconnects, a watched
    config shows the payload of the last event for it that was not a deletion and
    could be parsed (the initial one if there was none), and the driver asks to
    resume from the version of the last event it received that carries one. *)
Theorem consumer_last_known_good turns attempt d n old :
  payload <$> dv_stores d !! n = Some old →
  payload <$> dv_stores (run turns attempt d).1.1 !! n = Some (latest (news n) (run_received turns) old) ∧
  dv_resume_rv (run turns attempt d).1.1 = latest cursor (run_received turns) (dv_resume_rv d).
Proof.
  revert attempt d old; induction turns as [|[[msgs|e] t] turns IH]; intros attempt d old Hn; simpl.
  - done.
  - destruct (pump_spec msgs d n old Hn) as (Hp & Hr & He).
    rewrite !latest_app. destruct (pump msgs d) as [d' o]. simpl in Hp, Hr, He.
    destruct o as [[]|].
    + assert (ended msgs = true) as -> by (destruct (ended msgs); [done|]; discriminate (proj2 He eq_refl)).
      destruct (IH 1%nat d' _ Hp) as [H1 H2]. destruct (run turns 1 d') as [[d'' reqs] sl]. simpl in *.
      by rewrite H2, Hr.
    + assert (ended msgs = true) as -> by (destruct (ended msgs); [done|]; discriminate (proj2 He eq_refl)).
      set (ds := mkDriver (mark_all_stale t (dv_stores d')) (dv_resume_rv d') (dv_last_event_at d')).
      destruct (IH 1%nat ds (latest (news n) (received msgs) old)) as [H1 H2].
      { simpl. by rewrite mark_all_stale_payload. }
      destruct (run turns 1 ds) as [[d'' reqs] sl]. simpl in *. by rewrite H2, Hr.
    + rewrite (proj1 He) by done. simpl. done.
  - set (ds := mkDriver (mark_all_stale t (dv_stores d)) (dv_resume_rv d) (dv_last_event_at d)).
    destruct (IH (S attempt) ds old) as [H1 H2].
    { simpl. by rewrite mark_all_stale_payload. }
    destruct (run turns (S attempt) ds) as [[d'' reqs] sl]. simpl in *. done.
Qed.
End Client.

(** A value, a broken stream, a deletion and an unreadable update: the value is
    still shown, stale, and the next request resumes from the last version. *)
Definition demo_msg (ty : EventType) (content rv : string) : ConfigEvent :=
  mkConfigEvent ty (Some (mkConfigMsg "prod" "web" 3 content rv 0 (-1))).
Definition demo_parse (s : string) : option json := if String.eqb s "ok" then Some (JBool true) else None.

Lemma consumer_last_known_good_witness :
  let d := mkDriver {["web"%string := snapshot_default 0]} "" None in
  let turns : list Turn :=
    [(Ok [(1, Ok (Some (demo_msg MODIFIED "ok" "7"))); (2, Err (status Unavailable "gone"))], 3);
     (Err (status Unavailable "down"), 4);
     (Ok [(5, Ok (Some (demo_msg MODIFIED "broken" "8"))); (6, Ok (Some (demo_msg DELETED "ok" "9")))], 7)] in
  payload <$> dv_stores (run demo_parse turns 0 d).1.1 !! "web"%string = Some (JBool true, 3, "7"%string) ∧
  dv_resume_rv (run demo_parse turns 0 d).1.1 = "9"%string ∧ (run demo_parse turns 0 d).1.2 = ["" ; "7"; "7"]%string.
Proof.
  intros d turns.
  destruct (consumer_last_known_good demo_parse turns 0 d "web" (JNull, 0, ""%string)) as [H1 H2].
  - vm_compute. reflexivity.
  - split; [|split].
    + rewrite H1. vm_compute. reflexivity.
    + rewrite H2. vm_compute. reflexivity.
    + vm_compute. reflexivity.
Defined.
End Consumer.
