(* ===== verification/Startup.v ===== *)
(** * Process start-up

    [startup.rs] (arguments, fail-fast resolution of TLS and of the HTTP
    gateway, the tasks [run] spawns), [grpc/tls.rs] (reading the PEM files),
    [grpc/serve.rs] (shard clamp, HTTP/2 overrides, the server's initial state,
    the 5-second gauge sampler), [metrics.rs] (freshness), and the readiness
    gate: the poller that reports SERVING once the cache is populated, racing
    with the drain sequence that reports NOT_SERVING. *)
From Stdlib Require Import SpecFloat.
From S2P Require Export Gateway.

(** ** Files

    [std::fs::read] of a path: the bytes, or the error as it is displayed. *)
Definition Fs : Type := string → result (list Z) string.

(** [std::str::from_utf8] succeeds: Rust's table of well-formed sequences. *)
Definition in_range (lo hi b : Z) : bool := (lo <=? b) && (b <=? hi).
Definition cont (b : Z) : bool := in_range 128 191 b.

Fixpoint utf8_valid (l : list Z) : bool :=
  match l with
  | [] => true
  | a :: r =>
      if in_range 0 127 a then utf8_valid r
      else match r with
      | [] => false
      | b :: r1 =>
          if in_range 194 223 a then cont b && utf8_valid r1
          else match r1 with
          | [] => false
          | c :: r2 =>
              if a =? 224 then in_range 160 191 b && cont c && utf8_valid r2
              else if in_range 225 236 a || in_range 238 239 a then cont b && cont c && utf8_valid r2
              else if a =? 237 then in_range 128 159 b && cont c && utf8_valid r2
              else match r2 with
              | [] => false
              | d :: r3 =>
                  if a =? 240 then in_range 144 191 b && cont c && cont d && utf8_valid r3
                  else if in_range 241 243 a then cont b && cont c && cont d && utf8_valid r3
                  else if a =? 244 then in_range 128 143 b && cont c && cont d && utf8_valid r3
                  else false
              end
          end
      end
  end.

(** [str::contains] on bytes. *)
Fixpoint prefix_bytes (p l : list Z) : bool :=
  match p, l with
  | [], _ => true
  | _, [] => false
  | a :: p', b :: l' => (a =? b) && prefix_bytes p' l'
  end.

Fixpoint contains_bytes (p l : list Z) : bool :=
  prefix_bytes p l || match l with [] => false | _ :: l' => contains_bytes p l' end.

(** ** TLS *)
Record TlsPaths : Set := mkTlsPaths { tp_cert : string; tp_key : string; tp_client_ca : string }.

(** tonic's [ServerTlsConfig]: the identity presented, the CA clients are
    checked against, and whether a client may come without a certificate. *)
Record ServerTlsConfig : Set := mkServerTls {
  tl_identity : option (list Z * list Z);
  tl_client_ca_root : option (list Z);
  tl_client_auth_optional : bool
}.

Definition read_file (fs : Fs) (path label : string) : result (list Z) string :=
  let? bytes := map_err (λ e, "failed to read " +:+ label +:+ " at " +:+ path +:+ ": " +:+ e) (fs path) in
  if bool_decide (bytes = []) then Err (label +:+ " at " +:+ path +:+ " is empty")
  else
    let head := take (Nat.min (length bytes) 64) bytes in
    if negb (utf8_valid head) then Err (label +:+ " at " +:+ path +:+ " is not valid UTF-8 PEM")
    else if negb (contains_bytes (bytes_of "-----BEGIN") head) then
      Err (label +:+ " at " +:+ path +:+ " does not look like PEM (missing -----BEGIN header)")
    else Ok bytes.

Definition build_server_tls_config (fs : Fs) (paths : TlsPaths) : result ServerTlsConfig string :=
  let? cert_pem := read_file fs (tp_cert paths) "server cert" in
  let? key_pem := read_file fs (tp_key paths) "server key" in
  let? ca_pem := read_file fs (tp_client_ca paths) "client CA bundle" in
  Ok (mkServerTls (Some (cert_pem, key_pem)) (Some ca_pem) false).

(** ** Arguments

    An address is its text; clap has parsed it. *)
Record Args : Set := mkArgs {
  a_grpc_addr : string;
  a_metrics_addr : string;
  a_namespace : string;
  a_name : string;
  a_secret_namespaces : list string;
  a_tls : bool;
  a_tls_cert : option string;
  a_tls_key : option string;
  a_tls_client_ca : option string;
  a_h2_initial_window_bytes : option Z;
  a_h2_max_concurrent_streams : option Z;
  a_coalesce_window_ms : Z;
  a_broadcast_shards : nat;
  a_default_max_subscribers : Z;
  a_default_max_applies_per_second : Z;
  a_default_cache_budget_bytes : Z;
  a_http_addr : option string;
  a_http_auth_token : option string;
  a_http_cors_allow_origin : option string;
  a_http_insecure : bool
}.

Definition tls_missing (flag : string) : string :=
  "TLS enabled but " +:+ flag +:+ " not set. Pass --tls=false to disable (local dev only).".

Definition resolve_tls_config (fs : Fs) (args : Args) : result (option ServerTlsConfig) string :=
  if negb (a_tls args) then Ok None
  else
    let? cert := ok_or (a_tls_cert args) (tls_missing "--tls-cert/KONFIG_TLS_CERT") in
    let? key := ok_or (a_tls_key args) (tls_missing "--tls-key/KONFIG_TLS_KEY") in
    let? client_ca := ok_or (a_tls_client_ca args) (tls_missing "--tls-client-ca/KONFIG_TLS_CLIENT_CA") in
    let? cfg := build_server_tls_config fs (mkTlsPaths cert key client_ca) in
    Ok (Some cfg).

Definition gateway_token_missing : string :=
  "HTTP/JSON gateway enabled (--http-addr) but --http-auth-token/KONFIG_HTTP_AUTH_TOKEN not set. " +:+
  "The gateway exposes writes and secret reads over plaintext, so a bearer token is required. " +:+
  "Pass --http-insecure=true to explicitly opt out (cluster-internal only).".

Definition resolve_http_gateway_config (args : Args) : result (option HttpGatewayConfig) string :=
  match a_http_addr args with
  | None => Ok None
  | Some addr =>
      if a_http_insecure args then
        Ok (Some (mkGatewayConfig addr None (a_http_cors_allow_origin args) true))
      else
        let? token := ok_or (match a_http_auth_token args with
                             | Some t => if negb (is_empty t) then Some t else None
                             | None => None
                             end) gateway_token_missing in
        Ok (Some (mkGatewayConfig addr (Some token) (a_http_cors_allow_origin args) false))
  end.

Definition normalize_secret_namespaces (raw : list string) : list string :=
  List.filter (λ s, negb (is_empty s)) raw.

(** ** Freshness and gauges *)

(** [LastEventAt::elapsed_secs] at [now] nanoseconds since process start. *)
Definition elapsed_secs (now : Instant) (prev : Z) : option spec_float :=
  if prev =? 0 then None
  else Some (f64_div (f64_of_Z (u64_saturating_sub (now mod (u64_max + 1)) prev)) (f64_of_Z 1000000000)).

(** The map holds shared cells: a namespace maps to the cell's index, so every
    caller of one namespace touches the same cell. *)
Record Freshness : Type := mkFreshness { fr_cells : list Z; fr_map : gmap string nat }.

Definition last_event_at_for (ns : string) (f : Freshness) : nat * Freshness :=
  match fr_map f !! ns with
  | Some i => (i, f)
  | None => let i := length (fr_cells f) in
            (i, mkFreshness (fr_cells f ++ [0]) (<[ns := i]> (fr_map f)))
  end.

Definition touch_cell (i : nat) (now : Instant) (f : Freshness) : Freshness :=
  mkFreshness (<[i := touch now]> (fr_cells f)) (fr_map f).

(** One tick of the sampler of [serve]: [konfig_replay_buffer_depth] and
    [konfig_stale_seconds].  Series of namespaces that are gone keep their last
    value; a cell never touched reads as fresh. *)
Record Gauges : Type := mkGauges {
  ga_depth : gmap string spec_float;
  ga_stale : gmap string spec_float
}.

Definition sampler_tick (now : Instant) (replay : gmap string (list ReplayEntry)) (f : Freshness)
    (g : Gauges) : Gauges :=
  mkGauges
    (((λ buf, f64_of_Z (Z.of_nat (length buf))) <$> replay) ∪ ga_depth g)
    (((λ i, default (f64_of_Z 0) (fr_cells f !! i ≫= elapsed_secs now)) <$> fr_map f) ∪ ga_stale g).

(** ** The tasks of [run]

    What [run] starts, in order: [run_with_reconnect] around each watcher, the
    samplers, the readiness poller, the metrics listener, the signal handler. *)
Inductive Task : Set :=
  | TokioSampler
  | ConfigWatch (ns name : string)
  | AclWatch
  | QuotaWatch
  | SchemaWatch
  | SecretWatch (ns : string)
  | HealthPoller
  | MetricsServer (addr : string)
  | SignalHandler
  | GcTask
  | GaugeSampler
  | GatewayServer (addr : string).

Inductive BootEvent : Set :=
  | Spawned (t : Task)
  | KubeConnected
  | Bound (addr : string).

(** What [run] hands to [serve]; the tables it shares with the watchers are
    empty and unsynced at that point. *)
Record ServerConfig : Type := mkServerConfig {
  sc_addr : string;
  sc_cache : ConfigCache;
  sc_secret_cache : SecretCache;
  sc_secret_broadcasts : gset string;
  sc_freshness : Freshness;
  sc_tls_config : option ServerTlsConfig;
  sc_h2_initial_window_bytes : option Z;
  sc_h2_max_concurrent_streams : option Z;
  sc_coalesce_window_ms : Z;
  sc_broadcast_shards : nat;
  sc_authz_mode : Mode;
  sc_quota_mode : QuotaMode;
  sc_default_max_subscribers : Z;
  sc_default_max_applies_per_second : Z;
  sc_default_cache_budget_bytes : Z;
  sc_http_gateway : option HttpGatewayConfig
}.

(** [SecretWatcher::spawn_all]: one broadcast, one freshness cell and one
    reconnecting task per namespace, in order. *)
Fixpoint spawn_all (namespaces : list string) (broadcasts : gset string) (f : Freshness) :
    list BootEvent * gset string * Freshness :=
  match namespaces with
  | [] => ([], broadcasts, f)
  | ns :: rest =>
      let '(_, f1) := last_event_at_for ns f in
      let '(evs, b2, f2) := spawn_all rest ({[ns]} ∪ broadcasts) f1 in
      (Spawned (SecretWatch ns) :: evs, b2, f2)
  end.

(** [run] up to its call of [serve], with [kube] the outcome of
    [Client::try_default]: the events so far and the configuration, or the error
    the process exits with. *)
Definition run_boot (fs : Fs) (kube : result unit string) (now : Instant)
    (authz_var quota_var : option string) (args : Args) : list BootEvent * result ServerConfig string :=
  match resolve_tls_config fs args with
  | Err e => ([], Err e)
  | Ok tls_config =>
      match resolve_http_gateway_config args with
      | Err e => ([], Err e)
      | Ok http_gateway =>
          match kube with
          | Err e => ([Spawned TokioSampler], Err e)
          | Ok _ =>
              let cache := ConfigCache_new (ConfigSnapshot_default now) in
              let '(_, f1) := last_event_at_for (a_namespace args) (mkFreshness [] ∅) in
              let secret_namespaces := normalize_secret_namespaces (a_secret_namespaces args) in
              let '(secret_evs, broadcasts, f2) := spawn_all secret_namespaces ∅ f1 in
              ([Spawned TokioSampler; KubeConnected;
                Spawned (ConfigWatch (a_namespace args) (a_name args));
                Spawned AclWatch; Spawned QuotaWatch; Spawned SchemaWatch] ++ secret_evs ++
               [Spawned HealthPoller; Spawned (MetricsServer (a_metrics_addr args)); Spawned SignalHandler],
               Ok (mkServerConfig (a_grpc_addr args) cache SecretCache_new broadcasts f2 tls_config
                     (a_h2_initial_window_bytes args) (a_h2_max_concurrent_streams args)
                     (a_coalesce_window_ms args) (a_broadcast_shards args) (Mode_from_env authz_var)
                     (QuotaMode_from_env quota_var) (a_default_max_subscribers args)
                     (a_default_max_applies_per_second args) (a_default_cache_budget_bytes args)
                     http_gateway))
          end
      end
  end.

(** ** [serve] up to the accept loop *)

(** tonic's server builder, as far as [serve] sets it ([None]: tonic's default). *)
Record Builder : Set := mkBuilder {
  bd_keepalive_interval_s : option Z;
  bd_keepalive_timeout_s : option Z;
  bd_accept_http1 : bool;
  bd_initial_stream_window_size : option Z;
  bd_max_concurrent_streams : option Z;
  bd_tls : option ServerTlsConfig
}.

Definition apply_h2_overrides (b : Builder) (initial_window_bytes max_concurrent_streams : option Z) : Builder :=
  let b1 := match initial_window_bytes with
            | Some w => mkBuilder (bd_keepalive_interval_s b) (bd_keepalive_timeout_s b) (bd_accept_http1 b)
                          (Some w) (bd_max_concurrent_streams b) (bd_tls b)
            | None => b
            end in
  match max_concurrent_streams with
  | Some m => mkBuilder (bd_keepalive_interval_s b1) (bd_keepalive_timeout_s b1) (bd_accept_http1 b1)
                (bd_initial_stream_window_size b1) (Some m) (bd_tls b1)
  | None => b1
  end.

Definition clamp_shards (n : nat) : nat := Nat.min (Nat.max n MIN_BROADCAST_SHARDS) MAX_BROADCAST_SHARDS.

Section Serve.
Context `{X : Externals}.

(** The server [serve] starts with: not draining, tables empty and unsynced. *)
Definition boot_server (cfg : ServerConfig) (k8s_events : bool) : Server :=
  mkServer _ false (sc_authz_mode cfg) ∅ false ∅ (sc_quota_mode cfg) ∅ false
    (sc_default_max_subscribers cfg) (sc_default_max_applies_per_second cfg)
    (sc_default_cache_budget_bytes cfg) (clamp_shards (sc_broadcast_shards cfg))
    (sc_cache cfg) (sc_secret_cache cfg) k8s_events.

(** The outcome of the startup half of [serve]: accepting, an error from the
    TLS configuration, or the panic of a failed gateway bind. *)
Inductive ServeOutcome : Type :=
  | Accepting (srv : Server) (b : Builder)
  | TransportError (e : string)
  | BindPanic (addr : string).

(** [bind addr] tells whether the listener is bound; [tls_ok] is tonic's
    [tls_config], which parses the PEM material. *)
Definition serve_boot (bind : string → bool) (tls_ok : ServerTlsConfig → result unit string)
    (k8s_events : bool) (cfg : ServerConfig) : list BootEvent * ServeOutcome :=
  let srv := boot_server cfg k8s_events in
  let base := [Spawned GcTask; Spawned GaugeSampler] in
  let b0 := mkBuilder (Some 20) (Some 10) true None None None in
  let b1 := apply_h2_overrides b0 (sc_h2_initial_window_bytes cfg) (sc_h2_max_concurrent_streams cfg) in
  let with_tls evs :=
    match sc_tls_config cfg with
    | None => (evs, Accepting srv b1)
    | Some tls =>
        match tls_ok tls with
        | Err e => (evs, TransportError e)
        | Ok _ => (evs, Accepting srv (mkBuilder (bd_keepalive_interval_s b1) (bd_keepalive_timeout_s b1)
                          (bd_accept_http1 b1) (bd_initial_stream_window_size b1)
                          (bd_max_concurrent_streams b1) (Some tls)))
        end
    end in
  match sc_http_gateway cfg with
  | None => with_tls base
  | Some g =>
      if bind (gc_addr g) then with_tls (base ++ [Bound (gc_addr g); Spawned (GatewayServer (gc_addr g))])
      else (base, BindPanic (gc_addr g))
  end.

(** The whole start-up: [run] into [serve]. *)
Definition boot (fs : Fs) (kube : result unit string) (bind : string → bool)
    (tls_ok : ServerTlsConfig → result unit string) (now : Instant)
    (authz_var quota_var : option string) (k8s_events : bool) (args : Args) :
    list BootEvent * result ServeOutcome string :=
  let '(evs, r) := run_boot fs kube now authz_var quota_var args in
  match r with
  | Err e => (evs, Err e)
  | Ok cfg => let '(evs', out) := serve_boot bind tls_ok k8s_events cfg in (evs ++ evs', Ok out)
  end.
End Serve.

(** ** Readiness

    [Polling] tests the cache every 100 ms and, once it holds an entry, calls
    [set_serving] and ends; the drain sequence of [serve] flips the flag, wakes
    the streams, calls [set_not_serving] and sleeps for the drain timeout.  The
    two run in different tasks. *)
Inductive Health : Set := NotServing | Serving.
Inductive Poller : Set := Polling | Found | Ended.
Inductive Drain : Set := Running | Flagged | Waiting | Stopped.

Record Proc : Type := mkProc {
  pr_cache : ConfigCache;
  pr_relist : option (list ConfigMutation);     (* the watcher's relist buffer *)
  pr_health : Health;
  pr_poller : Poller;
  pr_drain : Drain
}.

Definition boot_proc (cfg : ServerConfig) : Proc := mkProc (sc_cache cfg) None NotServing Polling Running.

Definition proc_draining (p : Proc) : bool :=
  match pr_drain p with Running => false | _ => true end.

(** One atomic action of one task: the Config watcher handles an event or, on a
    disconnect, marks the cache stale; the poller tests, sleeps or reports; the
    drain sequence advances. *)
Inductive proc_step : Proc → Proc → Prop :=
  | PEvent c l h p d now ev batch :
      proc_step (mkProc c l h p d)
        (let '(l', c') := route_config_event now ev c l batch in mkProc c' l' h p d)
  | PDisconnect c l h p d now :
      proc_step (mkProc c l h p d) (mkProc (mark_all_stale c now) None h p d)
  | PPoll c l h d : is_populated c = true → proc_step (mkProc c l h Polling d) (mkProc c l h Found d)
  | PSleep c l h d : is_populated c = false → proc_step (mkProc c l h Polling d) (mkProc c l h Polling d)
  | PServing c l h d : proc_step (mkProc c l h Found d) (mkProc c l Serving Ended d)
  | PSignal c l h p : proc_step (mkProc c l h p Running) (mkProc c l h p Flagged)
  | PNotServing c l h p : proc_step (mkProc c l h p Flagged) (mkProc c l NotServing p Waiting)
  | PTimeout c l h p : proc_step (mkProc c l h p Waiting) (mkProc c l h p Stopped).

(** The poller alone, on the clock: [populated t] is what the cache answers at
    [t], and the [k]-th sleep lasts 100 ms plus [delay k].  The instant at which
    SERVING is reported. *)
Fixpoint poll_loop (populated : Instant → bool) (delay : nat → Z) (fuel k : nat) (t : Instant) : option Instant :=
  match fuel with
  | O => None
  | S fuel' => if populated t then Some t
               else poll_loop populated delay fuel' (S k) (t + 100 + delay k)
  end.

(** ** Lemmas *)

(** A file [read_file] accepts. *)
Definition pem_file (fs : Fs) (path : string) (bytes : list Z) : Prop :=
  fs path = Ok bytes ∧ bytes ≠ [] ∧ utf8_valid (take 64 bytes) = true ∧
  contains_bytes (bytes_of "-----BEGIN") (take 64 bytes) = true.

Lemma read_file_ok fs path label bytes :
  read_file fs path label = Ok bytes ↔ pem_file fs path bytes.
Proof.
  unfold read_file, pem_file. destruct (fs path) as [b|e]; simpl; [|by split; [|intros [? ?]]].
  assert (Ht : take (Nat.min (length b) 64) b = take 64 b).
  { rewrite <- take_take, (firstn_all2 (n := length b)); [done|]. rewrite length_take. lia. }
  rewrite Ht. split.
  - case_bool_decide; [done|]. destruct (utf8_valid _) eqn:Hu; [|done].
    destruct (contains_bytes _ _) eqn:Hc; [|done]. by intros [= <-].
  - intros ([= <-] & Hn & Hu & Hc). rewrite bool_decide_false by done. by rewrite Hu, Hc.
Qed.

#[local] Arguments handle_event : simpl never.

(** Each handled event keeps the relist buffer upsert-only and evicts nothing. *)
Lemma route_config_event_retains now ev c l batch :
  only_upserts (default [] l) →
  let '(l', c') := route_config_event now ev c l batch in
  only_upserts (default [] l') ∧ ∀ k, is_Some (inner c !! k) → is_Some (inner c' !! k).
Proof.
  intros Hl. unfold route_config_event, route_relist_event, buffer_config.
  destruct l as [buf|]; simpl in Hl.
  - destruct ev; simpl; try (split; [done|intros k; apply handle_event_retains]).
    + destruct (parse_config_object now o); simpl; (split; [|done]); [|exact Hl].
      apply only_upserts_app; [done|by repeat constructor].
    + split; [by constructor|]. intros k Hk. rewrite apply_batch_inner_fold. by apply apply_mutations_retain.
  - destruct ev; simpl; try (split; [by constructor|intros k; apply handle_event_retains]).
    by destruct batch; simpl; (split; [by constructor|]).
Qed.

Lemma is_populated_lookup (c : ConfigCache) : is_populated c = true ↔ ∃ k, is_Some (inner c !! k).
Proof.
  rewrite is_populated_true. split; [intros (ns & n & H); eauto|].
  intros [[ns n] H]. by exists ns, n.
Qed.

Lemma populated_retains (c c' : ConfigCache) :
  (∀ k, is_Some (inner c !! k) → is_Some (inner c' !! k)) → is_populated c = true → is_populated c' = true.
Proof. rewrite !is_populated_lookup. naive_solver. Qed.

(** The poller reports SERVING only when it has found an entry, the cache never
    empties again, and NOT_SERVING is only overwritten by a poller still to end. *)
Record proc_inv (p : Proc) : Prop := {
  pi_relist : only_upserts (default [] (pr_relist p));
  pi_found : pr_poller p ≠ Polling → is_populated (pr_cache p) = true;
  pi_serving : pr_health p = Serving → pr_poller p = Ended;
  pi_ended : pr_poller p = Ended → pr_drain p = Running → pr_health p = Serving
}.

Lemma boot_proc_inv cfg : proc_inv (boot_proc cfg).
Proof. constructor; try done. by constructor. Qed.

Lemma proc_inv_step p q : proc_step p q → proc_inv p → proc_inv q.
Proof.
  intros Hs [Hl Hf Hh He]. destruct Hs; simpl in *.
  - pose proof (route_config_event_retains now ev c l batch Hl) as Hr.
    destruct (route_config_event _ _ _ _ _) as [l' c']. destruct Hr as [Hl' Hk].
    constructor; simpl; [done| |done|done]. intros Hp. by eapply populated_retains; [|apply Hf].
  - constructor; simpl; [by constructor| |done|done]. intros Hp.
    eapply populated_retains; [|by apply Hf]. intros k. simpl. unfold stale_all.
    by rewrite lookup_fmap, fmap_is_Some.
  - constructor; simpl; naive_solver.
  - constructor; simpl; naive_solver.
  - constructor; simpl; naive_solver.
  - constructor; simpl; naive_solver.
  - constructor; simpl; naive_solver.
  - constructor; simpl; naive_solver.
Qed.

Lemma proc_inv_steps p q : rtc proc_step p q → proc_inv p → proc_inv q.
Proof. induction 1; eauto using proc_inv_step. Qed.

(** After the drain sequence has reported, an ended poller cannot undo it. *)
Lemma drained_final p q :
  pr_poller p = Ended → pr_drain p = Flagged → rtc proc_step p q →
  pr_drain q = Waiting ∨ pr_drain q = Stopped → pr_health q = NotServing.
Proof.
  intros Hp Hd Hs. cut (pr_poller q = Ended ∧ (pr_drain q = Flagged ∨ pr_health q = NotServing ∧ pr_drain q ≠ Running)).
  { intros [_ [?|[? ?]]] [?|?]; congruence. }
  assert (pr_poller p = Ended ∧ (pr_drain p = Flagged ∨ pr_health p = NotServing ∧ pr_drain p ≠ Running)) as Hi by auto.
  clear Hp Hd. induction Hs as [|? ? ? Hs _ IH]; [done|]. apply IH. clear IH.
  destruct Hs; simpl in *; try (destruct (route_config_event _ _ _ _ _)); simpl;
    destruct Hi as [? [?|[? ?]]]; split; auto; first [congruence | by right].
Qed.

Lemma handle_event_apply now o c :
  handle_event now (Apply o) c = match parse_config_object now o with Some snap => update c snap | None => c end.
Proof. done. Qed.

(** [LastEventAt]: a namespace keeps one cell, and later calls share it. *)
Lemma last_event_at_for_shared ns f :
  (∀ k i, fr_map f !! k = Some i → (i < length (fr_cells f))%nat) →
  let '(i, f1) := last_event_at_for ns f in
  last_event_at_for ns f1 = (i, f1) ∧ fr_map f1 !! ns = Some i ∧ (i < length (fr_cells f1))%nat ∧
  (∀ k j, fr_map f !! k = Some j → fr_map f1 !! k = Some j ∧ fr_cells f1 !! j = fr_cells f !! j).
Proof.
  intros Hok. unfold last_event_at_for. destruct (fr_map f !! ns) as [i|] eqn:Hi; simpl.
  - rewrite Hi. split_and!; eauto.
  - rewrite lookup_insert_eq, length_app; simpl. split_and!; [done|done|lia|].
    intros k j Hk. rewrite lookup_insert_ne by congruence. split; [done|].
    apply lookup_app_l; eauto.
Qed.

Lemma resolve_gateway_cases args r :
  resolve_http_gateway_config args = r ↔
  match a_http_addr args with
  | None => r = Ok None
  | Some addr =>
      if a_http_insecure args
      then r = Ok (Some (mkGatewayConfig addr None (a_http_cors_allow_origin args) true))
      else (∃ t, a_http_auth_token args = Some t ∧ t ≠ ""%string ∧
              r = Ok (Some (mkGatewayConfig addr (Some t) (a_http_cors_allow_origin args) false))) ∨
           ((a_http_auth_token args = None ∨ a_http_auth_token args = Some ""%string) ∧
              r = Err gateway_token_missing)
  end.
Proof.
  unfold resolve_http_gateway_config.
  destruct (a_http_addr args); [|naive_solver]. destruct (a_http_insecure args); [naive_solver|].
  destruct (a_http_auth_token args) as [[|a t]|]; simpl; split; naive_solver.
Qed.

Lemma spawn_all_events nss b f :
  (spawn_all nss b f).1.1 = (λ ns, Spawned (SecretWatch ns)) <$> nss ∧
  (spawn_all nss b f).1.2 = list_to_set nss ∪ b.
Proof.
  revert b f. induction nss as [|ns nss IH]; intros b f; simpl; [split; [done|set_solver]|].
  destruct (last_event_at_for ns f) as [i f1]. specialize (IH ({[ns]} ∪ b) f1).
  destruct (spawn_all _ _ _) as [[evs b2] f2]. simpl in *. destruct IH as [-> ->]. split; [done|set_solver].
Qed.

(** What [run] does before [serve]: no gateway, and the configuration of the
    gateway is the resolved one. *)
Lemma run_boot_gateway fs kube now av qv args evs cfg addr :
  run_boot fs kube now av qv args = (evs, Ok cfg) →
  Spawned (GatewayServer addr) ∉ evs ∧ resolve_http_gateway_config args = Ok (sc_http_gateway cfg).
Proof.
  unfold run_boot. destruct (resolve_tls_config _ _); [|done].
  destruct (resolve_http_gateway_config _); [|done]. destruct kube; [|done].
  destruct (last_event_at_for _ _) as [i f1].
  pose proof (spawn_all_events (normalize_secret_namespaces (a_secret_namespaces args)) ∅ f1) as [He _].
  destruct (spawn_all _ _ _) as [[evs0 b] f2]. simpl in He. intros [= <- <-]. split; [|done].
  subst evs0. rewrite !elem_of_cons, elem_of_app, list_elem_of_fmap, !elem_of_cons, elem_of_nil.
  naive_solver.
Qed.

Lemma run_boot_cold fs kube now av qv args evs cfg :
  run_boot fs kube now av qv args = (evs, Ok cfg) → is_populated (sc_cache cfg) = false.
Proof.
  unfold run_boot. destruct (resolve_tls_config _ _); [|done].
  destruct (resolve_http_gateway_config _); [|done]. destruct kube; [|done].
  destruct (last_event_at_for _ _), (spawn_all _ _ _) as [[??]?]. by intros [= <- <-].
Qed.

Lemma run_boot_err fs kube now av qv args evs e addr :
  run_boot fs kube now av qv args = (evs, Err e) → Spawned (GatewayServer addr) ∉ evs.
Proof.
  unfold run_boot. destruct (resolve_tls_config _ _); [|by intros [= <- _] ?%elem_of_nil].
  destruct (resolve_http_gateway_config _); [|by intros [= <- _] ?%elem_of_nil].
  destruct kube; [by destruct (last_event_at_for _ _), (spawn_all _ _ _) as [[??]?]|].
  intros [= <- _] [?|?%elem_of_nil]%elem_of_cons; done.
Qed.

Lemma serve_boot_gateway `{X : Externals} bind tls_ok ev cfg evs out addr :
  serve_boot bind tls_ok ev cfg = (evs, out) → Spawned (GatewayServer addr) ∈ evs →
  ∃ g, sc_http_gateway cfg = Some g ∧ gc_addr g = addr.
Proof.
  unfold serve_boot. intros Hs Hin.
  destruct (sc_http_gateway cfg) as [g|].
  - exists g. split; [done|]. destruct (bind _); case_all; set_solver.
  - case_all; set_solver.
Qed.

(** The poller ends one poll after the cache is populated. *)
Lemma poll_loop_done populated delay J tp fuel k t :
  (∀ u, tp ≤ u → populated u = true) → (∀ i, 0 ≤ delay i ≤ J) →
  (Z.to_nat (tp - t) + 100 ≤ fuel * 100)%nat →
  ∃ u, poll_loop populated delay fuel k t = Some u ∧ populated u = true ∧ t ≤ u ≤ Z.max t (tp + 100 + J).
Proof.
  intros Hp Hd. revert k t. induction fuel as [|fuel IH]; intros k t Hf; [lia|]. simpl.
  destruct (populated t) eqn:Ht; [exists t; split_and!; [done|done|lia|lia]|].
  assert (t < tp) by (destruct (Z_lt_le_dec t tp) as [|Hle]; [done|by rewrite Hp in Ht]).
  pose proof (Hd k). destruct (IH (S k) (t + 100 + delay k)) as (u & Hu & Hpu & Hr); [lia|].
  exists u. split_and!; [done|done|lia|lia].
Qed.

(** ** Properties *)

(** C36: TLS fails fast and never half-configures.  It is off exactly when
    [--tls=false]; it is on exactly when the three paths are given and each names
    a non-empty file whose first 64 bytes are UTF-8 and hold a PEM header, and
    then it carries those bytes and requires client certificates.  A missing path
    is an error before any file is read. *)
Theorem tls_resolution fs args :
  (resolve_tls_config fs args = Ok None ↔ a_tls args = false) ∧
  (∀ cfg, resolve_tls_config fs args = Ok (Some cfg) ↔
     a_tls args = true ∧
     ∃ c k ca cb kb cab, a_tls_cert args = Some c ∧ a_tls_key args = Some k ∧ a_tls_client_ca args = Some ca ∧
       pem_file fs c cb ∧ pem_file fs k kb ∧ pem_file fs ca cab ∧
       cfg = mkServerTls (Some (cb, kb)) (Some cab) false) ∧
  (a_tls args = true → None ∈ [a_tls_cert args; a_tls_key args; a_tls_client_ca args] →
   ∃ e, ∀ fs', resolve_tls_config fs' args = Err e).
Proof.
  unfold resolve_tls_config, build_server_tls_config.
  destruct (a_tls args); simpl; [|by split_and!; [|intros cfg; split; [|intros [? ?]]|]].
  split_and!.
  - destruct (a_tls_cert args); simpl; [|done]. destruct (a_tls_key args); simpl; [|done].
    destruct (a_tls_client_ca args); simpl; [|done].
    by do 3 (destruct (read_file _ _ _); simpl; [|done]).
  - intros cfg. split.
    + destruct (a_tls_cert args) as [c|]; simpl; [|done]. destruct (a_tls_key args) as [k|]; simpl; [|done].
      destruct (a_tls_client_ca args) as [ca|]; simpl; [|done].
      destruct (read_file fs c _) as [cb|] eqn:Hc; simpl; [|done].
      destruct (read_file fs k _) as [kb|] eqn:Hk; simpl; [|done].
      destruct (read_file fs ca _) as [cab|] eqn:Hca; simpl; [|done].
      intros [= <-]. apply read_file_ok in Hc, Hk, Hca. split; [done|]. by exists c, k, ca, cb, kb, cab.
    + intros (_ & c & k & ca & cb & kb & cab & -> & -> & -> & Hc & Hk & Hca & ->). simpl.
      by rewrite (proj2 (read_file_ok _ _ _ _) Hc), (proj2 (read_file_ok _ _ _ _) Hk),
        (proj2 (read_file_ok _ _ _ _) Hca).
  - intros _ Hn. rewrite !elem_of_cons, elem_of_nil in Hn.
    destruct (a_tls_cert args); simpl; [|eauto]. destruct (a_tls_key args); simpl; [|eauto].
    destruct (a_tls_client_ca args); simpl; [|eauto]. naive_solver.
Qed.

(** no accidental open gateway.  Whatever the arguments, a gateway is
    started only on the configured address, and then either [--http-insecure] was
    set explicitly or a request passes its check only with the configured
    non-empty token; an unusable TLS or gateway configuration ends the process
    before a task is spawned, the cluster is contacted or a port is bound. *)
Theorem gateway_fail_safe `{X : Externals} json_bytes header_ok fs kube bind tls_ok now authz_var quota_var ev args
    evs r :
  boot fs kube bind tls_ok now authz_var quota_var ev args = (evs, r) →
  (∀ addr, Spawned (GatewayServer addr) ∈ evs →
     a_http_addr args = Some addr ∧
     ∃ g, resolve_http_gateway_config args = Ok (Some g) ∧
       (a_http_insecure args = true ∨
        ∃ t, a_http_auth_token args = Some t ∧ t ≠ ""%string ∧
          ∀ h, check_auth json_bytes header_ok g h = None ↔ provided_token h = t)) ∧
  (is_ok (resolve_tls_config fs args) = false ∨ is_ok (resolve_http_gateway_config args) = false →
   evs = [] ∧ is_ok r = false).
Proof.
  unfold boot. intros Hb. destruct (run_boot _ _ _ _ _ _) as [evs0 [cfg|e]] eqn:Hr.
  - destruct (serve_boot _ _ _ _) as [evs1 out] eqn:Hs. injection Hb as <- <-. split.
    + intros addr [Hin|Hin]%elem_of_app.
      { by apply (run_boot_gateway _ _ _ _ _ _ _ _ addr) in Hr as [? _]. }
      apply (run_boot_gateway _ _ _ _ _ _ _ _ addr) in Hr as [_ Hg].
      destruct (serve_boot_gateway _ _ _ _ _ _ _ Hs Hin) as (g & Hc & Ha). rewrite Hc in Hg.
      pose proof (proj1 (resolve_gateway_cases _ _) Hg) as Hcase.
      destruct (a_http_addr args) as [addr'|]; [|done].
      destruct (a_http_insecure args); [split; [naive_solver|]; eauto|].
      destruct Hcase as [(t & Ht & Hne & [= ->])|[_ ?]]; [|done]. simpl in Ha. split; [by subst|].
      eexists. split; [done|]. right. exists t. split_and!; [done..|]. intros h.
      rewrite check_auth_none by done. simpl. naive_solver.
    + unfold run_boot in Hr. destruct (resolve_tls_config _ _), (resolve_http_gateway_config _); simpl; naive_solver.
  - injection Hb as <- <-. split; [intros addr Hin; by apply (run_boot_err _ _ _ _ _ _ _ _ addr) in Hr|].
    unfold run_boot in Hr. destruct (resolve_tls_config _ _); [|by injection Hr as <-].
    destruct (resolve_http_gateway_config _); [|by injection Hr as <-]. simpl. naive_solver.
Qed.

(** C19: the readiness gate.  From any boot, whatever the watcher, the poller and
    the drain sequence interleave: SERVING is reported only once the cache has an
    entry, and it still has one; without a shutdown, SERVING is final.  When the
    poller has ended before the shutdown is reported, NOT_SERVING is final; a
    poller that finds its first entry during the drain overwrites it. *)
Theorem readiness_gate fs kube now av qv args evs cfg :
  run_boot fs kube now av qv args = (evs, Ok cfg) →
  is_populated (sc_cache cfg) = false ∧
  (∀ p, rtc proc_step (boot_proc cfg) p →
     (pr_health p = Serving → is_populated (pr_cache p) = true) ∧
     (pr_poller p = Ended → pr_drain p = Running → pr_health p = Serving) ∧
     (∀ q, pr_poller p = Ended → pr_drain p = Flagged → rtc proc_step p q →
        pr_drain q = Waiting ∨ pr_drain q = Stopped → pr_health q = NotServing)) ∧
  (∀ now o snap, parse_config_object now o = Some snap →
   ∃ p, rtc proc_step (boot_proc cfg) p ∧ pr_drain p = Waiting ∧ pr_health p = Serving).
Proof.
  intros Hr. split_and!; [by eapply run_boot_cold| |].
  - intros p Hp. pose proof (proc_inv_steps _ _ Hp (boot_proc_inv cfg)) as [Hl Hf Hh He].
    split_and!; [|done|by intros q; apply drained_final].
    intros Hs. apply Hf. by rewrite (Hh Hs).
  - intros t o snap Hsn. unfold boot_proc.
    exists (mkProc (update (sc_cache cfg) snap) None Serving Ended Waiting). split_and!; [|done..].
    eapply rtc_l; [apply PSignal|]. eapply rtc_l; [apply PNotServing|].
    eapply rtc_l; [apply (PEvent _ None _ _ _ t (Apply o) false)|]. simpl. rewrite handle_event_apply, Hsn.
    eapply rtc_l; [apply PPoll|].
    { apply is_populated_lookup. exists (key_of snap). simpl. unfold insert_snap. rewrite lookup_insert_eq. eauto. }
    eapply rtc_l; [apply PServing|]. done.
Qed.

(** readiness is reached.  Once the cache is and stays populated from [tp]
    on, the poller started at [t0] reports SERVING no later than one poll after
    [tp] (100 ms plus the scheduling delay [J] of a sleep), after at most
    [(tp - t0) / 100 + 2] polls. *)
Theorem readiness_liveness populated delay J tp t0 :
  (∀ u, tp ≤ u → populated u = true) → (∀ i, 0 ≤ delay i ≤ J) →
  ∃ u, poll_loop populated delay (Z.to_nat ((tp - t0) / 100) + 2) 0 t0 = Some u ∧
    populated u = true ∧ t0 ≤ u ≤ Z.max t0 (tp + 100 + J).
Proof.
  intros Hp Hd. apply (poll_loop_done _ _ _ tp); [done|done|].
  pose proof (Z.div_mod (tp - t0) 100 ltac:(done)). pose proof (Z.mod_pos_bound (tp - t0) 100 ltac:(done)).
  destruct (Z_lt_le_dec (tp - t0) 0); [|assert (0 ≤ (tp - t0) / 100) by (apply Z.div_pos; lia)]; lia.
Qed.

Section BootFacts.
Context `{X : Externals}.
Context {W : Type} `{KubeApi W, SecretApi W}.
Context `{!MapIter OwnedKey ConfigSnapshot, !MapIter OwnedKey SecretSnapshot}.

Lemma boot_auth cfg ev c :
  sc_authz_mode cfg = Enforce → targets c ≠ [] →
  ∃ m, auth_of (boot_server cfg ev) c = Err (status Unavailable m).
Proof.
  intros Hm Ht. exists "authorization cache not yet synced — retry shortly"%string.
  assert (Ha : ∀ T (req : Request T) v ns n, authorize (boot_server cfg ev) req v ns n =
    Err (status Unavailable "authorization cache not yet synced — retry shortly")).
  { intros T req v ns n. unfold authorize, check; simpl. by rewrite Hm. }
  destruct c; simpl in *; try apply Ha. destruct (rq_body req); simpl in *; [done|]. by rewrite Ha.
Qed.

(** The server that accepts calls is built from what [run] resolved. *)
Lemma boot_accepting fs kube bind tls_ok now authz_var quota_var ev args evs srv b :
  boot fs kube bind tls_ok now authz_var quota_var ev args = (evs, Ok (Accepting srv b)) →
  ∃ cfg, srv = boot_server cfg ev ∧ sc_authz_mode cfg = Mode_from_env authz_var ∧
    sc_cache cfg = ConfigCache_new (ConfigSnapshot_default now) ∧ sc_secret_cache cfg = SecretCache_new.
Proof.
  unfold boot. destruct (run_boot _ _ _ _ _ _) as [evs0 [cfg|e]] eqn:Hr; [|done].
  destruct (serve_boot _ _ _ _) as [evs1 out] eqn:Hs. intros [= _ ->]. exists cfg. split.
  { unfold serve_boot in Hs. case_all; done. }
  unfold run_boot in Hr. destruct (resolve_tls_config _ _); [|done].
  destruct (resolve_http_gateway_config _); [|done]. destruct kube; [|done].
  destruct (last_event_at_for _ _), (spawn_all _ _ _) as [[??]?]. by injection Hr as <- <-.
Qed.

(** C18: the boot window is closed.  The server a start-up produces has between
    1 and 16 shards and is not draining; under [KONFIG_AUTHZ_MODE=enforce] it
    refuses every call that names a target with UNAVAILABLE, touching nothing,
    for its ACL table has not been listed yet. *)
Theorem boot_fail_closed fs kube bind tls_ok now authz_var quota_var ev args evs srv b :
  boot fs kube bind tls_ok now authz_var quota_var ev args = (evs, Ok (Accepting srv b)) →
  (1 ≤ srv_shards srv ≤ 16)%nat ∧ srv_draining srv = false ∧
  (Mode_from_env authz_var = Enforce → ∀ c (s : St (W := W)) r s', targets c ≠ [] → serve srv c s = (r, s') →
     untouched s s' ∧ ∃ m, r = Err (status Unavailable m)).
Proof.
  intros (cfg & -> & Hm & _)%boot_accepting.
  split_and!; [simpl; unfold clamp_shards, MIN_BROADCAST_SHARDS, MAX_BROADCAST_SHARDS; lia..|done|].
  intros He c s r s' Ht Hc. rewrite <- Hm in He. destruct (boot_auth cfg ev c He Ht) as [m Ha].
  destruct (serve_head _ _ _ _ _ Hc) as [(e & -> & Hu & [[Hd _]|He'])|[Ha' _]]; [done| |by rewrite Ha in Ha'].
  split; [done|]. exists m. congruence.
Qed.
End BootFacts.

(** ** Witnesses *)
Module StartupDemo.
Import CanonicalIter ServerDemo.
Definition pem : list Z := bytes_of "-----BEGIN CERTIFICATE-----".
Definition demo_fs : Fs := λ p, if bool_decide (p = "missing"%string) then Err "No such file"%string else Ok pem.

Definition demo_args (shards : nat) : Args :=
  mkArgs "0.0.0.0:50051" "0.0.0.0:9090" "default" "cfg" [""; "trading"]%string true
    (Some "c"%string) (Some "k"%string) (Some "ca"%string) None (Some 8) 0 shards 0 0 0
    (Some "0.0.0.0:8080"%string) (Some "s3cret"%string) None false.

Definition booted : list BootEvent * result ServeOutcome string :=
  boot demo_fs (Ok tt) (λ _, true) (λ _, Ok tt) 0 (Some "enforce"%string) None false (demo_args 40).

Definition demo_config : ServerConfig :=
  mkServerConfig "0.0.0.0:50051" (ConfigCache_new (ConfigSnapshot_default 0)) SecretCache_new
    {["trading"%string]} (mkFreshness [0; 0] {["default"%string := 0%nat; "trading"%string := 1%nat]})
    (Some (mkServerTls (Some (pem, pem)) (Some pem) false)) None (Some 8) 0 40 Enforce QDisabled 0 0 0
    (Some (mkGatewayConfig "0.0.0.0:8080" (Some "s3cret"%string) None false)).
Definition demo_booted : Server := boot_server demo_config false.
Definition demo_builder : Builder :=
  mkBuilder (Some 20) (Some 10) true None (Some 8) (Some (mkServerTls (Some (pem, pem)) (Some pem) false)).

Lemma demo_config_eq :
  (run_boot demo_fs (Ok tt) 0 (Some "enforce"%string) None (demo_args 40)).2 = Ok demo_config.
Proof. vm_compute. reflexivity. Qed.

Lemma demo_booted_eq : booted = (booted.1, Ok (Accepting demo_booted demo_builder)).
Proof.
  unfold booted, boot. pose proof demo_config_eq as Hc. destruct (run_boot _ _ _ _ _ _) as [evs r].
  simpl in Hc. subst r. reflexivity.
Qed.
End StartupDemo.
Import CanonicalIter ServerDemo StartupDemo.

Lemma tls_resolution_witness :
  ∃ e, ∀ fs', resolve_tls_config fs'
    (mkArgs "" "" "" "" [] true (Some "c"%string) None (Some "ca"%string) None None 0 1 0 0 0 None None None false) = Err e.
Proof.
  apply (proj2 (proj2 (tls_resolution demo_fs (mkArgs "" "" "" "" [] true (Some "c"%string) None (Some "ca"%string)
    None None 0 1 0 0 0 None None None false)))); [reflexivity|]. apply list_elem_of_In. simpl. auto.
Defined.

(** The demo process starts its gateway, and its token opens it. *)
Lemma gateway_fail_safe_witness :
  Spawned (GatewayServer "0.0.0.0:8080") ∈ booted.1 ∧
  a_http_addr (demo_args 40) = Some "0.0.0.0:8080"%string.
Proof.
  assert (Hin : Spawned (GatewayServer "0.0.0.0:8080") ∈ booted.1).
  { apply list_elem_of_In. vm_compute. tauto. }
  split; [exact Hin|].
  exact (proj1 (proj1 (gateway_fail_safe (λ _, None) (λ _, true) demo_fs (Ok tt) (λ _, true) (λ _, Ok tt) 0
    (Some "enforce"%string) None false (demo_args 40) booted.1 booted.2 eq_refl) _ Hin)).
Defined.

(** The demo process accepts with 16 shards and refuses an Apply with a valid
    client certificate until the ACL list lands. *)
Lemma boot_fail_closed_witness :
  srv_shards demo_booted = 16%nat ∧
  ∃ m, (serve demo_booted (demo_apply (Some [[1]])) (demo_state empty_kube)).1 = Err (status Unavailable m).
Proof.
  split; [reflexivity|].
  destruct (boot_fail_closed demo_fs (Ok tt) (λ _, true) (λ _, Ok tt) 0 (Some "enforce"%string) None false
    (demo_args 40) booted.1 demo_booted demo_builder demo_booted_eq) as (_ & _ & Hc).
  exact (proj2 (Hc eq_refl (demo_apply (Some [[1]])) (demo_state empty_kube) _
    (serve demo_booted (demo_apply (Some [[1]])) (demo_state empty_kube)).2 ltac:(discriminate)
    (surjective_pairing _))).
Defined.

(** A shutdown before the first Config object: the object then makes the draining
    process report SERVING. *)
Lemma readiness_gate_witness :
  ∃ cfg p, (run_boot demo_fs (Ok tt) 0 None None (demo_args 1)).2 = Ok cfg ∧
    rtc proc_step (boot_proc cfg) p ∧ pr_drain p = Waiting ∧ pr_health p = Serving.
Proof.
  destruct (run_boot demo_fs (Ok tt) 0 None None (demo_args 1)) as [evs [cfg|e]] eqn:Hr.
  - exists cfg. simpl.
    destruct (proj2 (proj2 (readiness_gate demo_fs (Ok tt) 0 None None (demo_args 1) evs cfg Hr)) 5
      (demo_obj "web" 1 "7") (default (ConfigSnapshot_default 0) (parse_config_object 5 (demo_obj "web" 1 "7")))
      eq_refl) as (p & Hp & Hw & Hs).
    exists p. auto.
  - exfalso. vm_compute in Hr. discriminate.
Defined.

(** The cache is populated at 250 ms; the poll at 300 ms reports it. *)
Lemma readiness_liveness_witness :
  poll_loop (λ u, 250 <=? u) (λ _, 0) 4 0 0 = Some 300 ∧
  ∃ u, poll_loop (λ u, 250 <=? u) (λ _, 0) 4 0 0 = Some u ∧ (250 <=? u) = true ∧ 0 ≤ u ≤ 350.
Proof.
  split; [reflexivity|].
  exact (readiness_liveness (λ u, 250 <=? u) (λ _, 0) 0 250 0 ltac:(intros u Hu; apply Z.leb_le; exact Hu)
    ltac:(intros i; split; reflexivity || discriminate)).
Defined.
