(* ===== verification/Telemetry.v ===== *)
(** * Tracing set-up and the allocation-sample sink

    [telemetry.rs] (sampler, endpoint, kill switch, filters, the tracer
    provider), [init_tracing] and [main] of [main.rs], and [stream_sink.rs] (the
    heap-profiling build's bounded queue between the allocator callback and the
    writer thread).  Environment variables are a function; building the exporter,
    parsing a filter and the socket are parameters. *)
From Stdlib Require Import SpecFloat.
From S2P Require Export Startup.

Module Telemetry.

Definition Env : Type := string → option string.

Inductive Sampler : Set :=
  | AlwaysOn
  | AlwaysOff
  | TraceIdRatioBased (ratio : spec_float)
  | ParentBased (root : Sampler).

Definition resolve_sampler (sampler arg : option string) : Sampler :=
  let ratio := default (f64_of_Z 1) (arg ≫= λ a, parse_f64 (trim a)) in
  match trim <$> sampler with
  | Some s =>
      if String.eqb s "always_on" then AlwaysOn
      else if String.eqb s "always_off" then AlwaysOff
      else if String.eqb s "traceidratio" then TraceIdRatioBased ratio
      else if String.eqb s "parentbased_always_off" then ParentBased AlwaysOff
      else if String.eqb s "parentbased_traceidratio" then ParentBased (TraceIdRatioBased ratio)
      else ParentBased AlwaysOn
  | None => ParentBased AlwaysOn
  end.

Definition endpoint_from_env (env : Env) : option string :=
  match env "OTEL_EXPORTER_OTLP_ENDPOINT" with
  | Some v => if negb (is_empty (trim v)) then Some v else None
  | None => None
  end.

Definition log_format_is_json (raw : option string) : bool := bool_decide (raw = Some "json"%string).

Definition sdk_disabled (raw : option string) : bool :=
  match raw with Some v => eq_ignore_ascii_case (trim v) "true" | None => false end.

Definition blank_default (raw : option string) (d : string) : string :=
  match trim <$> raw with
  | Some s => if negb (is_empty s) then s else d
  | None => d
  end.

Definition DEFAULT_OTEL_TRACES_LEVEL : string := "konfig=debug".
Definition DEFAULT_SERVICE_NAME : string := "konfig".

Definition otel_trace_filter_spec (raw : option string) : string := blank_default raw DEFAULT_OTEL_TRACES_LEVEL.
Definition service_name (raw : option string) : string := blank_default raw DEFAULT_SERVICE_NAME.

Definition DEFAULT_OTLP_ENDPOINT : string := "http://localhost:4317".

Record TracerProvider : Set := mkProvider {
  tp_endpoint : string;
  tp_sampler : Sampler;
  tp_service_name : string
}.

Section Init.
(** [SpanExporter::builder()...build()] for an endpoint. *)
Context (exporter : string → result unit string).
(** [EnvFilter::try_new]. *)
Context (filter_ok : string → result unit string).

Definition build_tracer_provider (env : Env) : result (option TracerProvider) string :=
  if sdk_disabled (env "OTEL_SDK_DISABLED") then Ok None
  else match endpoint_from_env env with
  | None => Ok None
  | Some endpoint =>
      let endpoint := if is_empty (trim endpoint) then DEFAULT_OTLP_ENDPOINT else endpoint in
      let? _ := exporter endpoint in
      Ok (Some (mkProvider endpoint
            (resolve_sampler (env "OTEL_TRACES_SAMPLER") (env "OTEL_TRACES_SAMPLER_ARG"))
            (service_name (env "OTEL_SERVICE_NAME"))))
  end.

(** The subscriber [init_tracing] installs: the log encoder and writer, and the
    filter of the trace layer when there is one. *)
Record Subscriber : Set := mkSubscriber {
  sb_sync : bool;
  sb_json : bool;
  sb_trace_filter : option string
}.

(** [guard_set]: [TRACING_GUARD] is already populated.  Returns the flag after
    the call. *)
Definition init_tracing (console : bool) (env : Env) (guard_set : bool) :
    result (option (Subscriber * option TracerProvider)) string * bool :=
  if console && bool_decide (env "RUST_CONSOLE" = Some "1"%string) then (Ok None, guard_set)
  else
    let sync_logs := bool_decide (env "KONFIG_LOG_SYNC" = Some "1"%string) in
    if negb sync_logs && guard_set then
      (Err "init_tracing called more than once: TRACING_GUARD already populated"%string, guard_set)
    else
      let guard_set' := if sync_logs then guard_set else true in
      let json_logs := log_format_is_json (env "RUST_LOG_FORMAT") in
      ((let? tracer_provider := build_tracer_provider env in
        match tracer_provider with
        | None => Ok (Some (mkSubscriber sync_logs json_logs None, None))
        | Some p =>
            let spec := otel_trace_filter_spec (env "OTEL_TRACES_LEVEL") in
            let? _ := filter_ok spec in
            Ok (Some (mkSubscriber sync_logs json_logs (Some spec), Some p))
        end), guard_set').

(** Export is on exactly when it is not switched off, an endpoint is named and
    the exporter builds; the endpoint is used as given. *)
Lemma tracer_provider_iff env p :
  build_tracer_provider env = Ok (Some p) ↔
  sdk_disabled (env "OTEL_SDK_DISABLED") = false ∧
  ∃ v, env "OTEL_EXPORTER_OTLP_ENDPOINT" = Some v ∧ trim v ≠ ""%string ∧ exporter v = Ok tt ∧
    p = mkProvider v (resolve_sampler (env "OTEL_TRACES_SAMPLER") (env "OTEL_TRACES_SAMPLER_ARG"))
          (service_name (env "OTEL_SERVICE_NAME")).
Proof.
  unfold build_tracer_provider, endpoint_from_env.
  destruct (sdk_disabled _); [by split; [|intros [? _]]|].
  destruct (env "OTEL_EXPORTER_OTLP_ENDPOINT"%string) as [v|]; [|by split; [|intros (_ & v & ? & _)]].
  destruct (is_empty (trim v)) eqn:He; simpl.
  - split; [done|]. intros (_ & v' & [= <-] & Hn & _). by destruct (trim v).
  - rewrite He. destruct (exporter v) as [[]|e] eqn:Hx; simpl; split; try done.
    + intros [= <-]. split; [done|]. exists v. split_and!; [done|by destruct (trim v)|done..].
    + by intros (_ & v' & [= <-] & _ & _ & ->).
    + intros (_ & v' & [= <-] & _ & ? & _). congruence.
Qed.

(** Only an explicit [always_off] (or a parsed ratio) can drop traces: an unset
    or misspelt sampler, and an unreadable ratio, sample everything. *)
Lemma resolve_sampler_default s arg :
  (∀ v, s = Some v → trim v ∉ ["always_on"; "always_off"; "traceidratio"; "parentbased_always_off";
                              "parentbased_traceidratio"]%string) →
  resolve_sampler s arg = ParentBased AlwaysOn.
Proof.
  intros Hs. unfold resolve_sampler. destruct s as [v|]; [|done]. simpl. specialize (Hs v eq_refl).
  repeat match goal with |- context [String.eqb ?a ?b] => destruct (String.eqb_spec a b) as [He|_];
    [rewrite He in Hs; exfalso; apply Hs; set_solver|] end. done.
Qed.
End Init.

(** [main]: the provider is shut down after [run] whatever [run] returned, and a
    failed initialisation ends the process before the arguments are parsed. *)
Inductive MainEvent : Set := MInit | MRun | MShutdown.

Definition main_ (init : result (option (Subscriber * option TracerProvider)) string)
    (run : result unit string) : list MainEvent * result unit string :=
  match init with
  | Err e => ([MInit], Err e)
  | Ok i =>
      let provider := match i with Some (_, p) => p | None => None end in
      ([MInit; MRun] ++ match provider with Some _ => [MShutdown] | None => [] end, run)
  end.

End Telemetry.

Module StreamSink.

Inductive EventKind : Set := KAlloc | KResize.

Record StreamEvent : Set := mkStreamEvent {
  ev_ts_ns : N;
  ev_kind : EventKind;
  ev_site : N;
  ev_size : N
}.

(** What the allocator hands to the callback. *)
Record StreamSample : Set := mkSample {
  sa_kind : EventKind;
  sa_stack : list N;
  sa_alloc_ptr : N;
  sa_requested_size : N
}.

Definition CHANNEL_CAPACITY : nat := N.to_nat 16384.

(** [{:016x}]. *)
Definition hex_digit (d : N) : string :=
  String (ascii_of_N (if (d <? 10)%N then 48 + d else 87 + d)%N) "".
Fixpoint hex_fixed (w : nat) (n : N) : string :=
  match w with O => "" | S w' => hex_fixed w' (n / 16) +:+ hex_digit (n mod 16) end.

Definition kind_str (k : EventKind) : string :=
  match k with KAlloc => "alloc" | KResize => "resize" end.

(** One JSONL line. *)
Definition stream_line (ev : StreamEvent) : string :=
  "{" +:+ quoted "ts_ns" +:+ ":" +:+ pretty (ev_ts_ns ev) +:+ "," +:+ quoted "kind" +:+ ":" +:+
  quoted (kind_str (ev_kind ev)) +:+ "," +:+ quoted "site" +:+ ":" +:+
  quoted ("0x" +:+ hex_fixed 16 (ev_site ev)) +:+ "," +:+ quoted "size" +:+ ":" +:+ pretty (ev_size ev) +:+ "}" +:+
  newline.

Inductive WriterPc : Set := Writing | Draining.

(** The queue, the drop counter, the writer thread and what it has handed to
    its buffered file; [accepted] and [samples] are history. *)
Record Sink : Type := mkSink {
  sk_queue : list StreamEvent;
  sk_dropped : nat;
  sk_writer : WriterPc;
  sk_out : list string;
  sk_accepted : list StreamEvent;
  sk_samples : nat
}.

Definition sink_new : Sink := mkSink [] 0 Writing [] [] 0.

(** [start] is [PROC_START], set before the first sample can fire. *)
Definition handle_sample (start : option Instant) (now : Instant) (sample : StreamSample) (s : Sink) : Sink :=
  let ts_ns := match start with Some t => Z.to_N (Z.max 0 (now - t)) | None => 0%N end in
  let site := match sa_stack sample with p :: _ => p | [] => sa_alloc_ptr sample end in
  let ev := mkStreamEvent ts_ns (sa_kind sample) site (sa_requested_size sample) in
  if bool_decide (length (sk_queue s) < CHANNEL_CAPACITY)%nat then
    mkSink (sk_queue s ++ [ev]) (sk_dropped s) (sk_writer s) (sk_out s) (sk_accepted s ++ [ev]) (S (sk_samples s))
  else
    mkSink (sk_queue s) (S (sk_dropped s)) (sk_writer s) (sk_out s) (sk_accepted s) (S (sk_samples s)).

(** One turn of [writer_loop]; [ok] is the outcome of [writeln!]. *)
Definition writer_turn (ok : bool) (s : Sink) : Sink :=
  match sk_queue s with
  | [] => s
  | ev :: q =>
      match sk_writer s with
      | Writing =>
          if ok then mkSink q (sk_dropped s) Writing (sk_out s ++ [stream_line ev]) (sk_accepted s) (sk_samples s)
          else mkSink q (sk_dropped s) Draining (sk_out s) (sk_accepted s) (sk_samples s)
      | Draining => mkSink q (sk_dropped s) Draining (sk_out s) (sk_accepted s) (sk_samples s)
      end
  end.

(** The session is leaked, so the sender is never dropped and the loop never
    reaches its final flush: samples and turns are all that happens. *)
Inductive sink_step : Sink → Sink → Prop :=
  | KSample start now sample s : sink_step s (handle_sample start now sample s)
  | KTurn ok s : sink_step s (writer_turn ok s).

(** [start_if_env]: the variable, creating the file, spawning the thread,
    starting the session; with the flag [SESSION_STARTED] after the call. *)
Definition start_if_env (path : option string) (create : string → result unit string)
    (spawn session : result unit string) (started : bool) : result bool string * bool :=
  match path with
  | None => (Ok false, started)
  | Some p =>
      if is_empty p then (Ok false, started)
      else if started then (Ok false, true)
      else ((let? _ := create p in let? _ := spawn in let? _ := session in Ok true), true)
  end.

(** A failed activation is final: every later call reports "not activated"
    without an error. *)
Lemma start_if_env_no_retry p create spawn session create' spawn' session' :
  p ≠ ""%string → is_ok (start_if_env (Some p) create spawn session false).1 = false →
  let started := (start_if_env (Some p) create spawn session false).2 in
  start_if_env (Some p) create' spawn' session' started = (Ok false, true).
Proof. intros Hp _. unfold start_if_env. by destruct p. Qed.

Record sink_inv (s : Sink) : Prop := {
  si_bound : (length (sk_queue s) ≤ CHANNEL_CAPACITY)%nat;
  si_count : sk_samples s = (length (sk_accepted s) + sk_dropped s)%nat;
  si_split : ∃ taken, sk_accepted s = taken ++ sk_queue s ∧
               (sk_out s `prefix_of` (stream_line <$> taken)) ∧
               (sk_writer s = Writing → sk_out s = stream_line <$> taken)
}.

Lemma sink_inv_step s s' : sink_step s s' → sink_inv s → sink_inv s'.
Proof.
  intros Hs [Hb Hc (taken & Ha & Hp & Hw)]. destruct Hs as [start now sample s|ok s].
  - unfold handle_sample. case_bool_decide.
    + constructor; simpl; rewrite ?length_app; simpl; [lia|lia|].
      exists taken. rewrite Ha, app_assoc. auto.
    + constructor; simpl; [done|lia|]. eauto.
  - unfold writer_turn. destruct (sk_queue s) as [|ev q] eqn:Hq; [constructor; rewrite ?Hq; eauto|].
    simpl in Hb. destruct (sk_writer s); [destruct ok|]; constructor; simpl; try lia;
      exists (taken ++ [ev]); rewrite <- app_assoc, fmap_app; simpl; split_and!; try done.
    + by rewrite Hw.
    + by rewrite Hw.
    + by apply prefix_app_r.
    + by apply prefix_app_r.
Qed.

(** The sink loses nothing silently: whatever the interleaving of allocator
    callbacks and writer, the queue never exceeds its capacity, every sample is
    either accepted or counted as dropped, and the lines written are, in order,
    an initial run of the accepted samples (all that were taken, until the first
    write error). *)
Theorem sink_accounting s :
  rtc sink_step sink_new s →
  (length (sk_queue s) ≤ 16384)%nat ∧ sk_samples s = (length (sk_accepted s) + sk_dropped s)%nat ∧
  ∃ taken, sk_accepted s = taken ++ sk_queue s ∧ (sk_out s `prefix_of` (stream_line <$> taken)) ∧
    (sk_writer s = Writing → sk_out s = stream_line <$> taken).
Proof.
  intros Hs. assert (sink_inv s) as [Hb Hc Ht]; [|done].
  assert (sink_inv sink_new) as Hi by (constructor; simpl; [lia|done|by exists []]).
  induction Hs; eauto using sink_inv_step.
Qed.

End StreamSink.
