(* ===== verification/Lifecycle.v ===== *)
(** * The life of a namespace watch

    [grpc/subscribe/watch.rs]: [get_or_create_broadcast], [run_namespace_watcher]
    and the collection loop of [gc_tick], for one namespace, at the grain of
    single map operations.  The maps hold shared objects, so channels, replay
    buffers and tasks have identities here: the question is whether a subscriber,
    the maps and the running watch still refer to the same ones after the three
    operations have interleaved.  [Subscribe] models what flows through them. *)
From S2P Require Export Telemetry.

Module Lifecycle.

(** A watch task pumps until its stream ends, then removes the broadcast entry,
    then the replay buffer, with no await in between; an abort takes effect only
    while it pumps. *)
Inductive Phase : Set := Pumping | StreamEnded | BroadcastRemoved | Gone.
#[global] Instance Phase_eq_dec : EqDecision Phase.
Proof. solve_decision. Defined.

Record Task : Set := mkTask { t_shards : nat; t_buf : nat; t_phase : Phase }.
#[global] Instance Task_eq_dec : EqDecision Task.
Proof. solve_decision. Defined.

(** A Subscribe call, by how far it got. *)
Inductive Sub : Set :=
  | FastGot (sh : nat)                 (* cloned the ShardSet, reference dropped *)
  | SlowCreated (sh : nat)             (* inserted a fresh ShardSet, holds a receiver *)
  | SlowBuffer (sh buf : nat)
  | SlowSpawned (sh buf task : nat)
  | Attached (sh buf : nat)
  | Left.
#[global] Instance Sub_eq_dec : EqDecision Sub.
Proof. solve_decision. Defined.

(** The collector between its removals. *)
Inductive Gc : Set := GcIdle | GcRemoved | GcAborted.
#[global] Instance Gc_eq_dec : EqDecision Gc.
Proof. solve_decision. Defined.

(** The three maps at the namespace, the tasks and calls so far, and the next
    channel and buffer. *)
Record Ns : Set := mkNs {
  n_bcast : option nat;
  n_buf : option nat;
  n_handle : option nat;
  n_tasks : list Task;
  n_subs : list Sub;
  n_gc : Gc;
  n_next_sh : nat;
  n_next_buf : nat
}.

Definition ns_new : Ns := mkNs None None None [] [] GcIdle 0 0.

(** The channel a call holds a receiver of. *)
Definition receiver (s : Sub) : option nat :=
  match s with
  | SlowCreated sh | SlowBuffer sh _ | SlowSpawned sh _ _ | Attached sh _ => Some sh
  | FastGot _ | Left => None
  end.

Definition total_receiver_count (sh : nat) (subs : list Sub) : nat :=
  length (List.filter (λ s, bool_decide (receiver s = Some sh)) subs).

(** [entry(..).or_insert_with(..)] on the replay map. *)
Definition buf_or_insert (s : Ns) : nat * Ns :=
  match n_buf s with
  | Some b => (b, s)
  | None => (n_next_buf s, mkNs (n_bcast s) (Some (n_next_buf s)) (n_handle s) (n_tasks s) (n_subs s) (n_gc s)
                             (n_next_sh s) (S (n_next_buf s)))
  end.

Definition set_sub (i : nat) (x : Sub) (s : Ns) : Ns :=
  mkNs (n_bcast s) (n_buf s) (n_handle s) (n_tasks s) (<[i := x]> (n_subs s)) (n_gc s) (n_next_sh s) (n_next_buf s).
Definition set_phase (t : nat) (p : Phase) (s : Ns) : Ns :=
  mkNs (n_bcast s) (n_buf s) (n_handle s)
    (alter (λ k, mkTask (t_shards k) (t_buf k) p) t (n_tasks s)) (n_subs s) (n_gc s) (n_next_sh s) (n_next_buf s).

(** One map operation of one of the three operations. *)
Inductive Op : Set :=
  | OFast | OFastBuf (i : nat)
  | OVacant | OSlowBuf (i : nat) | OSpawn (i : nat) | OHandle (i : nat)
  | OLeave (i : nat)
  | OEnd (t : nat) | ORemoveBroadcast (t : nat) | ORemoveReplay (t : nat)
  | OGcRemove | OGcAbort | OGcReplay.

Definition phase_of (t : nat) (s : Ns) : option Phase := t_phase <$> n_tasks s !! t.

Definition exec (o : Op) (s : Ns) : option Ns :=
  match o with
  | OFast =>
      match n_bcast s with
      | Some sh => Some (mkNs (n_bcast s) (n_buf s) (n_handle s) (n_tasks s) (n_subs s ++ [FastGot sh]) (n_gc s)
                          (n_next_sh s) (n_next_buf s))
      | None => None
      end
  | OFastBuf i =>
      match n_subs s !! i with
      | Some (FastGot sh) => let '(b, s1) := buf_or_insert s in Some (set_sub i (Attached sh b) s1)
      | _ => None
      end
  | OVacant =>
      match n_bcast s with
      | Some _ => None
      | None => Some (mkNs (Some (n_next_sh s)) (n_buf s) (n_handle s) (n_tasks s)
                        (n_subs s ++ [SlowCreated (n_next_sh s)]) (n_gc s) (S (n_next_sh s)) (n_next_buf s))
      end
  | OSlowBuf i =>
      match n_subs s !! i with
      | Some (SlowCreated sh) => let '(b, s1) := buf_or_insert s in Some (set_sub i (SlowBuffer sh b) s1)
      | _ => None
      end
  | OSpawn i =>
      match n_subs s !! i with
      | Some (SlowBuffer sh b) =>
          Some (set_sub i (SlowSpawned sh b (length (n_tasks s)))
                 (mkNs (n_bcast s) (n_buf s) (n_handle s) (n_tasks s ++ [mkTask sh b Pumping]) (n_subs s) (n_gc s)
                    (n_next_sh s) (n_next_buf s)))
      | _ => None
      end
  | OHandle i =>
      match n_subs s !! i with
      | Some (SlowSpawned sh b t) =>
          Some (set_sub i (Attached sh b)
                 (mkNs (n_bcast s) (n_buf s) (Some t) (n_tasks s) (n_subs s) (n_gc s) (n_next_sh s) (n_next_buf s)))
      | _ => None
      end
  | OLeave i =>
      match n_subs s !! i with Some (Attached _ _) => Some (set_sub i Left s) | _ => None end
  | OEnd t => if decide (phase_of t s = Some Pumping) then Some (set_phase t StreamEnded s) else None
  | ORemoveBroadcast t =>
      if decide (phase_of t s = Some StreamEnded) then
        Some (set_phase t BroadcastRemoved
               (mkNs None (n_buf s) (n_handle s) (n_tasks s) (n_subs s) (n_gc s) (n_next_sh s) (n_next_buf s)))
      else None
  | ORemoveReplay t =>
      if decide (phase_of t s = Some BroadcastRemoved) then
        Some (set_phase t Gone
               (mkNs (n_bcast s) None (n_handle s) (n_tasks s) (n_subs s) (n_gc s) (n_next_sh s) (n_next_buf s)))
      else None
  | OGcRemove =>
      match n_bcast s, n_gc s with
      | Some sh, GcIdle =>
          if decide (total_receiver_count sh (n_subs s) = 0%nat) then
            Some (mkNs None (n_buf s) (n_handle s) (n_tasks s) (n_subs s) GcRemoved (n_next_sh s) (n_next_buf s))
          else None
      | _, _ => None
      end
  | OGcAbort =>
      if decide (n_gc s = GcRemoved) then
        let s1 := match n_handle s with
                  | Some t => if decide (phase_of t s = Some Pumping) then set_phase t Gone s else s
                  | None => s
                  end in
        Some (mkNs (n_bcast s1) (n_buf s1) None (n_tasks s1) (n_subs s1) GcAborted (n_next_sh s1) (n_next_buf s1))
      else None
  | OGcReplay =>
      if decide (n_gc s = GcAborted) then
        Some (mkNs (n_bcast s) None (n_handle s) (n_tasks s) (n_subs s) GcIdle (n_next_sh s) (n_next_buf s))
      else None
  end.

Definition life_step (s s' : Ns) : Prop := ∃ o, exec o s = Some s'.

Fixpoint run_ops (os : list Op) (s : Ns) : option Ns :=
  match os with [] => Some s | o :: os' => exec o s ≫= run_ops os' end.

(** The operations run one at a time: what the code intends each to do. *)
Inductive Block : Set := BSubscribe | BLeave (i : nat) | BEnd (t : nat) | BCollect.

Definition block_ops (b : Block) (s : Ns) : list Op :=
  let i := length (n_subs s) in
  match b with
  | BSubscribe => match n_bcast s with
                  | Some _ => [OFast; OFastBuf i]
                  | None => [OVacant; OSlowBuf i; OSpawn i; OHandle i]
                  end
  | BLeave i => [OLeave i]
  | BEnd t => [OEnd t; ORemoveBroadcast t; ORemoveReplay t]
  | BCollect => [OGcRemove; OGcAbort; OGcReplay]
  end.

Definition block_step (s s' : Ns) : Prop := ∃ b, run_ops (block_ops b s) s = Some s'.

(** Every subscriber attached to a channel replays from the buffer its watch
    writes to. *)
Definition coherent (s : Ns) : Prop :=
  ∀ sh b k, Attached sh b ∈ n_subs s → k ∈ n_tasks s → t_shards k = sh → t_buf k = b.

(** The namespace is served: a channel in the map has a pumping watch, writing
    to the buffer in the map, with its handle kept for the collector. *)
Definition served (s : Ns) : Prop :=
  ∀ sh, n_bcast s = Some sh →
    ∃ t b, n_tasks s !! t = Some (mkTask sh b Pumping) ∧ n_buf s = Some b ∧ n_handle s = Some t.

(** No watch runs outside the map. *)
Definition no_leak (s : Ns) : Prop :=
  ∀ t k, n_tasks s !! t = Some k → t_phase k = Pumping → n_bcast s = Some (t_shards k) ∧ n_handle s = Some t.

(** ** What each operation does when nothing interleaves *)

Lemma insert_last {A} (l : list A) x y : <[length l := y]> (l ++ [x]) = l ++ [y].
Proof. by rewrite insert_app_r_alt, Nat.sub_diag by lia. Qed.

Lemma lookup_last_app {A} (l : list A) x : (l ++ [x]) !! length l = Some x.
Proof. by rewrite lookup_app_r, Nat.sub_diag by lia. Qed.

Lemma subscribe_fast s sh b :
  n_bcast s = Some sh → n_buf s = Some b →
  run_ops (block_ops BSubscribe s) s =
    Some (mkNs (Some sh) (Some b) (n_handle s) (n_tasks s) (n_subs s ++ [Attached sh b]) (n_gc s)
           (n_next_sh s) (n_next_buf s)).
Proof.
  destruct s as [bc bu h ts ss g ns nb]; simpl. intros -> ->. simpl.
  by rewrite lookup_last_app; simpl; unfold set_sub; simpl; rewrite insert_last.
Qed.

Lemma subscribe_slow s :
  n_bcast s = None → n_buf s = None →
  run_ops (block_ops BSubscribe s) s =
    Some (mkNs (Some (n_next_sh s)) (Some (n_next_buf s)) (Some (length (n_tasks s)))
           (n_tasks s ++ [mkTask (n_next_sh s) (n_next_buf s) Pumping])
           (n_subs s ++ [Attached (n_next_sh s) (n_next_buf s)]) (n_gc s)
           (S (n_next_sh s)) (S (n_next_buf s))).
Proof.
  destruct s as [bc bu h ts ss g ns nb]; simpl. intros -> ->. simpl.
  repeat (rewrite ?lookup_last_app, ?insert_last; simpl; unfold set_sub; simpl). done.
Qed.

Lemma alter_alter_phase (ts : list Task) t p q :
  alter (λ k, mkTask (t_shards k) (t_buf k) q) t (alter (λ k, mkTask (t_shards k) (t_buf k) p) t ts) =
  alter (λ k, mkTask (t_shards k) (t_buf k) q) t ts.
Proof. revert t; induction ts as [|k ts IH]; intros [|t]; simpl; [done..|]. f_equal. apply IH. Qed.

Lemma end_block s t :
  phase_of t s = Some Pumping →
  run_ops (block_ops (BEnd t) s) s =
    Some (set_phase t Gone (mkNs None None (n_handle s) (n_tasks s) (n_subs s) (n_gc s) (n_next_sh s) (n_next_buf s))).
Proof.
  intros Hp. simpl. rewrite decide_True by done. simpl. unfold phase_of in *.
  destruct (n_tasks s !! t) as [k|] eqn:Hk; [|done]. unfold set_phase; simpl.
  rewrite decide_True by (by rewrite list_lookup_alter_eq, Hk). simpl.
  rewrite decide_True by (by rewrite !list_lookup_alter_eq, Hk). simpl.
  by rewrite !alter_alter_phase.
Qed.

Lemma collect_block s sh t b :
  n_bcast s = Some sh → n_gc s = GcIdle → total_receiver_count sh (n_subs s) = 0%nat →
  n_handle s = Some t → n_tasks s !! t = Some (mkTask sh b Pumping) →
  run_ops (block_ops BCollect s) s =
    Some (set_phase t Gone (mkNs None None None (n_tasks s) (n_subs s) GcIdle (n_next_sh s) (n_next_buf s))).
Proof.
  destruct s as [bc bu h ts ss g ns nb]; simpl. intros -> -> Hc -> Ht.
  rewrite decide_True by done. simpl. unfold phase_of; simpl. rewrite Ht; simpl.
  done.
Qed.

(** ** The invariant of uninterrupted operations *)
Record block_inv (s : Ns) : Prop := {
  bi_gc : n_gc s = GcIdle;
  bi_quiet : ∀ x, x ∈ n_subs s → (∃ sh b, x = Attached sh b) ∨ x = Left;
  bi_buf : n_bcast s = None → n_buf s = None;
  bi_served : served s;
  bi_leak : no_leak s;
  bi_coherent : coherent s;
  bi_current : ∀ sh k, n_bcast s = Some sh → k ∈ n_tasks s → t_shards k = sh → n_buf s = Some (t_buf k);
  bi_tasks : ∀ k, k ∈ n_tasks s → (t_shards k < n_next_sh s)%nat;
  bi_phase : ∀ k, k ∈ n_tasks s → t_phase k = Pumping ∨ t_phase k = Gone;
  bi_subs : ∀ sh b, Attached sh b ∈ n_subs s → (sh < n_next_sh s)%nat
}.

Lemma ns_new_inv : block_inv ns_new.
Proof.
  constructor; simpl; try done; try (by intros ? ?%elem_of_nil); try (by intros ? ? ?%elem_of_nil);
    try (by intros ? ? ? ?%elem_of_nil).
Qed.

(** Taking a pumping watch out of the maps. *)
Lemma retire_inv s t h :
  block_inv s → phase_of t s = Some Pumping →
  block_inv (set_phase t Gone (mkNs None None h (n_tasks s) (n_subs s) GcIdle (n_next_sh s) (n_next_buf s))).
Proof.
  intros [Hg Hq Hb Hsv Hl Hc Hcur Ht Hph Hsub] Hp.
  assert (Hin : ∀ k, k ∈ alter (λ k, mkTask (t_shards k) (t_buf k) Gone) t (n_tasks s) →
                ∃ k', k' ∈ n_tasks s ∧ t_shards k = t_shards k' ∧ t_buf k = t_buf k' ∧
                  (t_phase k = t_phase k' ∨ t_phase k = Gone)).
  { intros k (i & Hi)%list_elem_of_lookup. destruct (decide (i = t)) as [->|Hne].
    - rewrite list_lookup_alter_eq in Hi. destruct (n_tasks s !! t) as [k'|] eqn:Hk; [|done].
      injection Hi as <-. exists k'. split_and!; auto. by eapply list_elem_of_lookup_2.
    - rewrite list_lookup_alter_ne in Hi by done. exists k. split_and!; auto. by eapply list_elem_of_lookup_2. }
  constructor; simpl; try done.
  - intros t' k Hk Hpk. simpl in Hk. destruct (decide (t' = t)) as [->|Hne].
    + rewrite list_lookup_alter_eq in Hk. destruct (n_tasks s !! t); [|done]. by injection Hk as <-.
    + rewrite list_lookup_alter_ne in Hk by done. destruct (Hl t' k Hk Hpk) as [_ Hh].
      unfold phase_of in Hp. destruct (n_tasks s !! t) as [k0|] eqn:Hk0; [|done]. injection Hp as Hp.
      destruct (Hl t k0 Hk0 Hp) as [_ Hh']. congruence.
  - intros sh b k Hs Hk <-. destruct (Hin k Hk) as (k' & Hk' & Hsh & -> & _). symmetry in Hsh.
    by eapply Hc; [|done|].
  - intros k Hk. destruct (Hin k Hk) as (k' & Hk' & -> & _). by apply Ht.
  - intros k Hk. destruct (Hin k Hk) as (k' & Hk' & _ & _ & [-> | ->]); auto.
Qed.

Lemma leave_inv s i x y :
  block_inv s → n_subs s !! i = Some (Attached x y) → block_inv (set_sub i Left s).
Proof.
  intros [Hg Hq Hb Hsv Hl Hc Hcur Ht Hph Hsub] Hi.
  assert (Hin : ∀ z, z ∈ <[i := Left]> (n_subs s) → z = Left ∨ z ∈ n_subs s).
  { intros z (j & Hj)%list_elem_of_lookup. destruct (decide (j = i)) as [->|Hne].
    - rewrite list_lookup_insert_eq in Hj by (by eapply lookup_lt_Some). left. congruence.
    - rewrite list_lookup_insert_ne in Hj by done. right. by eapply list_elem_of_lookup_2. }
  constructor; simpl; try done.
  - intros z [->|Hz]%Hin; auto.
  - intros sh b k [?|Hz]%Hin; [done|]. by apply Hc.
  - intros sh b [?|Hz]%Hin; [done|]. by eapply Hsub.
Qed.

Lemma subscribe_inv s s' :
  block_inv s → run_ops (block_ops BSubscribe s) s = Some s' → block_inv s'.
Proof.
  intros [Hg Hq Hb Hsv Hl Hc Hcur Ht Hph Hsub].
  assert (Hsnoc : ∀ {A} (x y : A) l, x ∈ l ++ [y] → x ∈ l ∨ x = y).
  { intros A x y l. rewrite elem_of_app, list_elem_of_singleton. done. }
  destruct (n_bcast s) as [sh|] eqn:Hs.
  - destruct (Hsv sh Hs) as (t & b & Htk & Hbf & Hh). rewrite (subscribe_fast s sh b) by done. intros [= <-].
    constructor; simpl; try done.
    + intros z [Hz| ->]%Hsnoc; eauto.
    + intros sh' [= <-]. eauto.
    + intros t' k Hk Hp. destruct (Hl t' k Hk Hp). simpl. split; congruence.
    + intros sh' b' k [Hz|[= -> ->]]%Hsnoc Hk Hsh; [by eapply Hc|]. specialize (Hcur sh k eq_refl Hk Hsh). congruence.
    + intros sh' k [= <-] Hk Hsh. specialize (Hcur sh k eq_refl Hk Hsh). congruence.
    + intros sh' b' [Hz|[= -> ->]]%Hsnoc; [by eapply Hsub|]. apply (Ht (mkTask sh b Pumping)).
      by eapply list_elem_of_lookup_2.
  - rewrite subscribe_slow by auto. intros [= <-].
    assert (Hold : ∀ k, k ∈ n_tasks s → t_phase k ≠ Pumping).
    { intros k (t & Hk)%list_elem_of_lookup Hp. destruct (Hl t k Hk Hp) as [? _]. congruence. }
    constructor; simpl; try done.
    + intros z [Hz| ->]%Hsnoc; eauto.
    + intros sh' [= <-]. exists (length (n_tasks s)), (n_next_buf s). simpl. by rewrite lookup_last_app.
    + intros t' k Hk Hp. simpl in Hk. apply lookup_app_Some in Hk as [Hk|[Hlen Hk]].
      { exfalso. by eapply Hold; [by eapply list_elem_of_lookup_2|]. }
      destruct (t' - length (n_tasks s))%nat eqn:Hd; [|done]. injection Hk as <-. simpl. split; [done|f_equal; lia].
    + intros sh' b' k [Hz|[= -> ->]]%Hsnoc [Hk| ->]%Hsnoc Hsh; simpl in *; try done.
      * by eapply Hc.
      * apply Hsub in Hz. lia.
      * apply Ht in Hk. lia.
    + intros sh' k [= <-] [Hk| ->]%Hsnoc Hsh; [apply Ht in Hk; lia|done].
    + intros k [Hk| ->]%Hsnoc; [apply Ht in Hk; lia|simpl; lia].
    + intros k [Hk| ->]%Hsnoc; auto.
    + intros sh' b' [Hz|[= -> ->]]%Hsnoc; [apply Hsub in Hz; lia|lia].
Qed.

Lemma block_inv_step s s' : block_step s s' → block_inv s → block_inv s'.
Proof.
  intros [b Hr] Hi. destruct b as [|i|t|].
  - by eapply subscribe_inv.
  - simpl in Hr. destruct (n_subs s !! i) as [[]|] eqn:Hs; try done. injection Hr as <-. by eapply leave_inv.
  - destruct (decide (phase_of t s = Some Pumping)) as [Hp|Hp].
    + rewrite end_block in Hr by done. injection Hr as <-. rewrite (bi_gc s Hi). by apply retire_inv.
    + simpl in Hr. by rewrite decide_False in Hr.
  - destruct (n_bcast s) as [sh|] eqn:Hb; [|simpl in Hr; by rewrite Hb in Hr].
    destruct (bi_served s Hi sh Hb) as (t & b & Ht & Hbf & Hh).
    destruct (decide (total_receiver_count sh (n_subs s) = 0%nat)) as [Hc|Hc].
    + rewrite (collect_block s sh t b) in Hr; try done; [|by apply bi_gc]. injection Hr as <-.
      apply retire_inv; [done|]. unfold phase_of. by rewrite Ht.
    + simpl in Hr. rewrite Hb, (bi_gc s Hi) in Hr. by rewrite decide_False in Hr.
Qed.

Lemma run_ops_steps os s s' : run_ops os s = Some s' → rtc life_step s s'.
Proof.
  revert s. induction os as [|o os IH]; intros s; simpl; [by intros [= <-]|].
  destruct (exec o s) as [s1|] eqn:He; simpl; [|done]. intros Hr. eapply rtc_l; [by exists o|]. by apply IH.
Qed.

(** C17: run one at a time, the three operations keep a namespace whole: a
    channel in the map always has one pumping watch that writes to the buffer in
    the map and whose handle the collector holds, no watch runs outside the map,
    and every subscriber replays from the buffer its own watch writes to. *)
Theorem namespace_coherent s :
  rtc block_step ns_new s → rtc life_step ns_new s ∧ served s ∧ no_leak s ∧ coherent s.
Proof.
  intros Hs. assert (block_inv s) as Hi.
  { generalize ns_new_inv. induction Hs; eauto using block_inv_step. }
  split; [|split_and!; by apply Hi].
  clear Hi. induction Hs as [|s s1 s2 [b Hb] _ IH]; [done|]. etrans; [by eapply run_ops_steps|done].
Qed.

(** interleaved, they do not.  A Subscribe between the collector's removal
    of the channel and its removal of the handle has its fresh watch aborted: the
    namespace stays in the map with a subscriber and nothing pumping.  A Subscribe
    between the two removals of an ended watch takes over the old buffer, which
    then leaves the map: later subscribers replay from one nobody writes to.  A
    watch that ends while the collector runs removes its successor's entries,
    whose watch then runs outside the map, beyond the collector. *)
Theorem namespace_races :
  (∃ s sh b, rtc life_step ns_new s ∧ n_gc s = GcIdle ∧ n_bcast s = Some sh ∧ Attached sh b ∈ n_subs s ∧
     ∀ k, k ∈ n_tasks s → t_shards k = sh → t_phase k = Gone) ∧
  (∃ s, rtc life_step ns_new s ∧ ¬ coherent s) ∧
  (∃ s t u j k, rtc life_step ns_new s ∧ n_tasks s !! t = Some j ∧ n_tasks s !! u = Some k ∧ t ≠ u ∧
     t_phase j = Pumping ∧ t_phase k = Pumping ∧ n_handle s = Some u).
Proof.
  split_and!.
  - destruct (run_ops [OVacant; OSlowBuf 0; OSpawn 0; OHandle 0; OLeave 0; OGcRemove;
                       OVacant; OSlowBuf 1; OSpawn 1; OHandle 1; OGcAbort; OGcReplay] ns_new) as [s|] eqn:Hr;
      [|vm_compute in Hr; discriminate].
    exists s, 1%nat, 0%nat. split; [by eapply run_ops_steps|]. vm_compute in Hr. injection Hr as <-.
    split_and!; [done|done|by right; left|]. intros k [->|[->|?%elem_of_nil]%elem_of_cons]%elem_of_cons; simpl; done.
  - destruct (run_ops [OVacant; OSlowBuf 0; OSpawn 0; OHandle 0; OEnd 0; ORemoveBroadcast 0;
                       OVacant; OSlowBuf 1; OSpawn 1; OHandle 1; ORemoveReplay 0; OFast; OFastBuf 2] ns_new)
      as [s|] eqn:Hr; [|vm_compute in Hr; discriminate].
    exists s. split; [by eapply run_ops_steps|]. vm_compute in Hr. injection Hr as <-. intros Hc.
    specialize (Hc 1%nat 1%nat (mkTask 1 0 Pumping)). simpl in Hc. discriminate Hc; [|by right; left|done].
    by do 2 right; left.
  - destruct (run_ops [OVacant; OSlowBuf 0; OSpawn 0; OHandle 0; OLeave 0; OEnd 0; OGcRemove; OGcAbort; OGcReplay;
                       OVacant; OSlowBuf 1; OSpawn 1; OHandle 1; ORemoveBroadcast 0; ORemoveReplay 0;
                       OVacant; OSlowBuf 2; OSpawn 2; OHandle 2] ns_new) as [s|] eqn:Hr;
      [|vm_compute in Hr; discriminate].
    exists s, 1%nat, 2%nat. eexists _, _. split; [by eapply run_ops_steps|]. vm_compute in Hr. injection Hr as <-.
    split_and!; done.
Qed.

(** Two subscribers, one leaves, the watch ends, a third subscribes. *)
Lemma namespace_coherent_witness :
  ∃ s, rtc block_step ns_new s ∧ n_bcast s = Some 1%nat ∧ served s ∧ no_leak s ∧ coherent s.
Proof.
  pose (step b s := default s (run_ops (block_ops b s) s)).
  assert (Hstep : ∀ b s, is_Some (run_ops (block_ops b s) s) → block_step s (step b s)).
  { intros b s [s' Hs]. exists b. unfold step. rewrite Hs. reflexivity. }
  pose (s := step BSubscribe (step (BEnd 0) (step (BLeave 0) (step BSubscribe (step BSubscribe ns_new))))).
  assert (Hs : rtc block_step ns_new s).
  { repeat (eapply rtc_r; [|apply Hstep; vm_compute; eauto]). apply rtc_refl. }
  exists s. split; [exact Hs|]. split; [reflexivity|]. exact (proj2 (namespace_coherent s Hs)).
Defined.

End Lifecycle.
