(* ===== verification/EndToEnd.v ===== *)
(** * From one client to another

    The client library's calls ([konfig-consumer/src/lib.rs], [metrics.rs]) and
    the path of a value through every component: [KonfigClient::apply] builds the
    request, the Apply handler writes the object, the watch stream delivers it to
    the server's cache and to the namespace's broadcast, and another client reads
    it with Get or through its watch. *)
From Stdlib Require Import SpecFloat.
From S2P Require Export Lifecycle Consumer.

Module Client.
Import Consumer.

Inductive ClientError : Set :=
  | InvalidEndpoint (raw : string)
  | NoNames
  | Rpc (s : Status).

(** [endpoint], the check of [connect] and [connect_tls]; [valid_uri] is
    [Channel::from_shared]. *)
Definition endpoint (valid_uri : string → bool) (raw : string) : result string ClientError :=
  if valid_uri raw then Ok raw else Err (InvalidEndpoint raw).

(** [to_text] is [Value::to_string]. *)
Definition apply_yaml (to_text : json → string) (schema_version : Z) (content : json) : string :=
  to_text (JObj [("content", content); ("schema_version", JInt schema_version)]).

Definition apply_request (to_text : json → string) (ns n : string) (content : json) (schema_version : Z) :
    ApplyRequest :=
  mkApplyRequest ns n (apply_yaml to_text schema_version content).

(** The handles of one [watch]: one per requested name, all sharing the driver
    task; the task is aborted when the last handle is dropped. *)
Record Handles : Set := mkHandles { hd_names : list string; hd_running : bool }.

Definition watch (now : Instant) (names : list string) : result (Handles * gmap string Snapshot) ClientError :=
  match watch_stores now names with
  | None => Err NoNames
  | Some stores => Ok (mkHandles names true, stores)
  end.

Definition clone_handle (i : nat) (h : Handles) : Handles :=
  match hd_names h !! i with
  | Some n => mkHandles (hd_names h ++ [n]) (hd_running h)
  | None => h
  end.

Definition drop_handle (i : nat) (h : Handles) : Handles :=
  match hd_names h !! i with
  | Some _ =>
      let names := take i (hd_names h) ++ drop (S i) (hd_names h) in
      mkHandles names (hd_running h && negb (bool_decide (names = [])))
  | None => h
  end.

Definition watch_one (now : Instant) (n : string) : result (Handles * gmap string Snapshot) ClientError :=
  watch now [n].

(** The driver runs exactly as long as a handle is left. *)
Definition handles_ok (h : Handles) : Prop := hd_running h = true ↔ hd_names h ≠ [].

Lemma handles_kept now names h stores i :
  (watch now names = Ok (h, stores) → handles_ok h) ∧
  (handles_ok h → handles_ok (clone_handle i h) ∧ handles_ok (drop_handle i h)).
Proof.
  unfold handles_ok, watch, watch_stores, clone_handle, drop_handle. split.
  - case_bool_decide; [done|]. intros [= <- <-]. done.
  - intros Hh. destruct (hd_names h !! i) as [n|] eqn:Hi; [|done]. simpl.
    assert (hd_names h ≠ []) as Hne by (intros He; by rewrite He in Hi).
    rewrite (proj2 Hh Hne). split.
    + split; [|done]. intros _ He. by destruct (hd_names h).
    + simpl. rewrite negb_true_iff, bool_decide_eq_false. done.
Qed.

(** [metrics.rs]: the consumer's own freshness cell and gauge. *)
Definition client_touch (now : Instant) (cell : option Instant) : option Instant := Some now.
Definition client_elapsed_secs (now : Instant) (cell : option Instant) : option spec_float :=
  (λ t, nanos_as_secs_f64 (now - t)) <$> cell.
Definition stale_sample (now : Instant) (cell : option Instant) : spec_float :=
  default (f64_of_Z 0) (client_elapsed_secs now cell).
End Client.

(** ** The path of a write *)

(** What a server-side apply by the only manager of an object does: the object
    stored carries the applied spec under its own name. *)
Class SsaLaws (W : Type) `{KubeLaws W} : Prop := ssa_law ns n body w o w' :
  quiet w → kube_patch ns n body w = (Ok o, w') →
  json_get "spec" (do_data o) = json_get "spec" body ∧
  om_name (do_metadata o) = Some n ∧ om_namespace (do_metadata o) = Some ns.

#[global] Instance ScriptKube_ssa : SsaLaws ScriptKube.
Proof.
  intros ns n body w o w' _. simpl. destruct (sk_step w) as [[e|] w1]; [done|]. by intros [= <- <-].
Qed.

Section Path.
Context {W : Type} `{SsaLaws W}.
Context (tp : option string) (nanos : nat → Z).

(** A write that is answered with [rv] has stored an object of that version. *)
Lemma patch_loop_stored ns n body fuel a e rv e' :
  quiet (e_kube e) → patch_loop nanos fuel a (patch_once ns n body) e = (Ok rv, e') →
  ∃ o w, quiet w ∧ kube_patch ns n body w = (Ok o, e_kube e') ∧
    rv = default ""%string (om_resource_version (do_metadata o)) ∧ store (e_kube e') !! (ns, n) = Some o.
Proof.
  revert a e; induction fuel as [|fuel IH]; intros a e Hq; simpl; [done|].
  unfold patch_once at 1, api_patch. destruct (kube_patch ns n body (e_kube e)) as [r w1] eqn:Hp.
  destruct (patch_law _ _ _ _ _ _ Hq Hp) as [Hq1 Hr]. destruct r as [o|err].
  - intros [= <- <-]. exists o, (e_kube e). destruct Hr as [Hst _]. split_and!; try done.
    simpl. by rewrite Hst, lookup_insert_eq.
  - destruct (classify_patch_error err a); try done. by apply IH.
Qed.

(** The patch behind a successful write. *)
Lemma apply_spec_patched ns n spec e rv e' :
  quiet (e_kube e) → apply_spec tp nanos ns n spec e = (Ok rv, e') →
  ∃ o w, quiet w ∧ kube_patch ns n (patch_body tp ns n spec) w = (Ok o, e_kube e') ∧
    rv = default ""%string (om_resource_version (do_metadata o)) ∧ store (e_kube e') !! (ns, n) = Some o.
Proof.
  intros Hq. unfold apply_spec, bind at 1.
  destruct (fetch_current_schema_version ns n e) as [[cur|s] e1] eqn:Hf; [|done].
  assert (quiet (e_kube e1)) as Hq1.
  { unfold fetch_current_schema_version, api_get in Hf.
    destruct (kube_get ns n (e_kube e)) as [g w] eqn:Hg. destruct (get_law _ _ _ _ _ Hq Hg) as [Hq1 _].
    destruct g; [by injection Hf as _ <-|]. case_bool_decide; by injection Hf as _ <-. }
  destruct (schema_version_decision _ _); [|done].
  destruct (patch_with_retry nanos ns n _ e1) as [[rv'|s] e2] eqn:Hl; [|done].
  intros [= <- <-]. simpl. by eapply patch_loop_stored.
Qed.

Lemma apply_spec_stored ns n spec e rv e' :
  quiet (e_kube e) → in_u32 (cs_schema_version spec) →
  apply_spec tp nanos ns n spec e = (Ok rv, e') →
  ∃ o, store (e_kube e') !! (ns, n) = Some o ∧
    ∀ t, ∃ snap, parse_config_object t o = Some snap ∧ key_of snap = mkOwnedKey ns n ∧
      c_content snap = cs_content spec ∧ c_schema_version snap = cs_schema_version spec ∧
      c_resource_version snap = rv ∧ c_content_json_cache snap = None.
Proof.
  intros Hq Hr (o & w & Hqw & Hp & -> & Hst)%apply_spec_patched; [|done].
  destruct (ssa_law _ _ _ _ _ _ Hqw Hp) as (Hspec & Hn & Hns).
  exists o. split; [done|]. intros t. unfold parse_config_object. rewrite Hspec.
  change (json_get "spec" (patch_body tp ns n spec)) with (Some (config_spec_to_json spec)).
  cbv beta iota zeta. rewrite config_spec_json_roundtrip by done. eexists. split; [done|]. rewrite Hn, Hns. simpl.
  by destruct (om_labels (do_metadata o)).
Qed.
End Path.

(** Later live events on other keys leave the entry alone. *)
Lemma upserts_elsewhere (ms : list ConfigMutation) (m : gmap OwnedKey ConfigSnapshot) k snap :
  only_upserts ms → (∀ s, Upsert s ∈ ms → key_of s ≠ k) → m !! k = Some snap →
  foldl apply_mutation m ms !! k = Some snap.
Proof.
  revert m; induction ms as [|mu ms IH]; intros m Hu Hne Hm; simpl; [exact Hm|].
  inversion Hu as [|? ? Hmu Hms]; subst. apply IH; [done|intros s Hin; apply Hne; by right|].
  destruct mu as [s|]; [|done]. simpl. unfold insert_snap. rewrite lookup_insert_ne; [done|].
  apply Hne. by left.
Qed.

Lemma stream_only_upserts items : only_upserts (mjoin (event_upserts <$> items)).
Proof.
  induction items as [|it items IH]; [constructor|]. simpl.
  apply only_upserts_app; [apply event_upserts_only|exact IH].
Qed.

Lemma pump_reaches b pre t o snap post (c : ConfigCache) lea :
  Forall live pre → Forall live post → parse_config_object t o = Some snap →
  (∀ s, Upsert s ∈ mjoin (event_upserts <$> post) → key_of s ≠ key_of snap) →
  inner (pump_config_events (pre ++ (t, Ok (Apply o)) :: post) c lea b).1.1 !! key_of snap = Some snap.
Proof.
  intros Hpre Hpost Hs Hne. unfold pump_config_events. rewrite pump_live_inner.
  2: { apply Forall_app. split; [done|]. by constructor. }
  rewrite fmap_app, join_app, foldl_app. simpl. rewrite foldl_app.
  apply upserts_elsewhere; [apply stream_only_upserts|exact Hne|].
  assert (event_upserts (t, Ok (Apply o)) = [Upsert snap]) as -> by (unfold event_upserts; simpl; by rewrite Hs).
  simpl. unfold insert_snap. by rewrite lookup_insert_eq.
Qed.

(** ** Properties *)

(** C16: what one client writes, another reads.  When [KonfigClient::apply]
    succeeds on a quiet cluster where konfig is the object's only manager, the
    object stored is such that, once the watch has delivered it (whatever came
    before, and if nothing later was for this config), Get answers with the
    written content, version and the resource version Apply returned; the
    namespace's broadcast carries the same; and a client watching the config has
    them in its handle after that event. *)
Theorem apply_end_to_end {W} `{X : Externals, SsaLaws W} (to_text : json → string) (from_str : string → option json)
    (t : gmap (string * string) Validator) ns n content version js (e : Env W) rv e' :
  (let doc := JObj [("content", content); ("schema_version", JInt version)] in
   x_yaml_spec (to_text doc) = map_err x_de_display (config_spec_of_json doc)) →
  x_to_string content = Some js → js ≠ ""%string → from_str js = Some content →
  quiet (e_kube e) →
  handle_apply x_yaml_spec x_iter_errors x_traceparent x_nanos t
    (Client.apply_request to_text ns n content version) e = (Ok rv, e') →
  ∃ o, store (e_kube e') !! (ns, n) = Some o ∧
  ∀ seen pre post (c : ConfigCache) lea b now buf,
    Forall live pre → Forall live post →
    (∀ s, Upsert s ∈ mjoin (event_upserts <$> post) → key_of s ≠ mkOwnedKey ns n) →
    let cache := (pump_config_events (pre ++ (seen, Ok (Apply o)) :: post) c lea b).1.1 in
    (∃ msg, handle_get now cache ns n = Ok msg ∧
       Consumer.payload <$> Consumer.snapshot_from_proto from_str now msg = Some (content, version, rv)) ∧
    (∃ f buf', process_namespace_event x_to_string seen (Apply o) buf = (Some f, buf') ∧
       ∀ stores cur, is_Some (stores !! n) →
         Consumer.payload <$> (Consumer.demux from_str now (fr_event f) stores cur).1 !! n =
           Some (content, version, rv)).
Proof.
  intros Hyaml Hjs Hne' Hfs Hq. unfold handle_apply, apply_inner, Client.apply_request, Client.apply_yaml; simpl.
  cbv zeta in Hyaml. rewrite Hyaml. destruct (config_spec_of_json _) as [spec|] eqn:Hc; simpl; [|done].
  assert (spec = mkConfigSpec version content ∧ in_u32 version) as [-> Hv].
  { pose proof (config_spec_of_json_range _ _ Hc) as Hr. unfold config_spec_of_json, de_field in Hc; simpl in Hc.
    case_bool_decide; [|done]. by injection Hc as <-. }
  rewrite bind_ok. intros ([] & e1 & Hval & Ha). injection Hval as _ <-.
  destruct (apply_spec_stored _ _ ns n (mkConfigSpec version content) e rv e' Hq Hv Ha) as (o & Hst & Hsnap).
  exists o. split; [done|]. intros seen pre post c lea b now buf Hpre Hpost Hne.
  destruct (Hsnap seen) as (snap & Hp & Hk & Hcon & Hsv & Hrv & Hm). simpl in Hcon, Hsv.
  assert (Hproto : ∀ now', Consumer.payload <$>
            Consumer.snapshot_from_proto from_str now (snapshot_to_proto x_to_string now' snap) =
            Some (content, version, rv)).
  { intros now'. unfold Consumer.snapshot_from_proto; simpl. unfold content_json, get_or_init. rewrite Hm, Hcon, Hjs.
    simpl. destruct js; [done|]. simpl. rewrite Hfs. simpl.
    unfold Consumer.payload; simpl. by rewrite Hsv, Hrv. }
  split.
  - exists (snapshot_to_proto x_to_string now snap). split; [|done]. unfold handle_get, CowCache.get.
    rewrite <- Hk. by rewrite pump_reaches by (try done; by rewrite Hk).
  - rewrite Hp. eexists _, _. split; [done|]. intros stores cur [old Hold].
    assert (c_name snap = n) as Hn by (by injection Hk).
    unfold Consumer.demux; simpl. rewrite Hn, Hold. specialize (Hproto seen).
    destruct (Consumer.snapshot_from_proto _ _ _); [|done]. simpl. by rewrite lookup_insert_eq.
Qed.

Module EndToEndDemo.
Import CanonicalIter ServerDemo.
(** The toy YAML of the demo server is the version number alone. *)
Definition demo_text (v : json) : string :=
  match json_get "schema_version" v with Some (JInt z) => pretty z | _ => "" end.
Definition demo_from_str (s : string) : option json := if String.eqb s "{}" then Some (JObj []) else None.
End EndToEndDemo.
Import CanonicalIter ServerDemo EndToEndDemo.

Lemma apply_end_to_end_witness :
  let e := mkEnv empty_kube [] ∅ in
  let out := handle_apply x_yaml_spec x_iter_errors x_traceparent x_nanos (∅ : gmap _ Validator)
               (Client.apply_request demo_text "prod" "web" (JObj []) 4) e in
  ∃ rv o, out.1 = Ok rv ∧ sk_objs (e_kube out.2) !! ("prod", "web")%string = Some o ∧
    ∃ msg, handle_get 9 (pump_config_events [(5, Ok (Apply o))] (from_map "config" ∅) 0 false).1.1 "prod" "web" = Ok msg ∧
      Consumer.payload <$> Consumer.snapshot_from_proto demo_from_str 9 msg = Some (JObj [], 4, rv).
Proof.
  intros e out. exists "rv0"%string.
  destruct (apply_end_to_end demo_text demo_from_str ∅ "prod" "web" (JObj []) 4 "{}" e "rv0" out.2) as (o & Ho & Hall).
  - vm_compute. reflexivity.
  - reflexivity.
  - discriminate.
  - reflexivity.
  - constructor.
  - vm_compute. reflexivity.
  - exists o. split; [vm_compute; reflexivity|]. split; [exact Ho|].
    refine (proj1 (Hall 5 [] [] (from_map "config" ∅) 0 false 9 [] _ _ _)).
    + constructor.
    + constructor.
    + intros s Hs. inversion Hs.
Defined.
