(* ===== verification/Cli.v ===== *)
(** * The operator's command line: [tools/konfig-cli/src/main.rs]

    The commands write to the cluster directly, reusing the server's handlers
    (Apply, BatchApply, DryRunApply, Revert, import) with an empty schema table,
    and carry their own copy of the secret path.  A command yields the lines it
    prints and how it ends; errors keep what they report, not its wording. *)
From S2P Require Export EndToEnd ConfigMap.

Module Cli.

Inductive Commands : Set :=
  | CmdApply (namespace name yaml_file : string)
  | CmdBatchApply (items : list string)
  | CmdDryRun (namespace name yaml_file : string)
  | CmdGet (namespace name : string)
  | CmdRevert (namespace name resource_version : string)
  | CmdImport (namespace name : string) (target : option string)
  | CmdGetSecret (namespace name : string) (reveal : bool)
  | CmdApplySecret (namespace name yaml_file : string).

Inductive CliError : Set :=
  | ReadError (path e : string)
  | MalformedItem (item : string)
  | RpcFailed (s : Status)
  | KubeFailed (e : KubeError)
  | YamlFailed (e : string)
  | StaleVersion (incoming current : Z)
  | ExitNotFound (namespace name : string).

Definition Out : Type := list string * result unit CliError.

Definition exit_code (o : Out) : Z := if is_ok o.2 then 0 else 1.

(** [splitn(3, ':')] into exactly three parts. *)
Definition parse_item (item : string) : option (string * string * string) :=
  match split_once ":" item with
  | None => None
  | Some (namespace, rest) =>
      match split_once ":" rest with
      | None => None
      | Some (name, yaml_path) => Some (namespace, name, yaml_path)
      end
  end.

Section Commands.
Context `{X : Externals}.
Context {W : Type} `{KubeApi W, SecretApi W, ConfigMapApi W}.
(** [std::fs::read_to_string] and [serde_yaml::to_string]. *)
Context (read_to_string : string → result string string).
Context (to_yaml : json → result string string).

Definition done_with (lines : list string) : Out := (lines, Ok tt).
Definition failed (e : CliError) : Out := ([], Err e).

Definition cmd_apply (namespace name yaml_file : string) (e : Env W) : Out * Env W :=
  match read_to_string yaml_file with
  | Err m => (failed (ReadError yaml_file m), e)
  | Ok yaml_content =>
      match apply_inner x_yaml_spec x_iter_errors x_traceparent x_nanos (∅ : gmap _ Validator) namespace name
              yaml_content e with
      | (Err s, e1) => (failed (RpcFailed s), e1)
      | (Ok rv, e1) => (done_with ["Applied " +:+ namespace +:+ "/" +:+ name +:+ " (resource_version: " +:+ rv +:+ ")"], e1)
      end
  end.

(** The requests of [batch-apply], stopping at the first bad item. *)
Definition batch_request (item : string) : result ApplyRequest CliError :=
  match parse_item item with
  | None => Err (MalformedItem item)
  | Some (namespace, name, yaml_path) =>
      let? yaml_content := map_err (ReadError yaml_path) (read_to_string yaml_path) in
      Ok (mkApplyRequest namespace name yaml_content)
  end.

Definition cmd_batch_apply (items : list string) (e : Env W) : Out * Env W :=
  match try_map batch_request items with
  | Err err => (failed err, e)
  | Ok requests =>
      match handle_batch_apply x_yaml_spec x_iter_errors x_traceparent x_nanos (∅ : gmap _ Validator) requests e with
      | (Err s, e1) => (failed (RpcFailed s), e1)
      | (Ok results, e1) =>
          (done_with ((λ r, br_namespace r +:+ "/" +:+ br_name r +:+ " -> " +:+ br_resource_version r) <$> results), e1)
      end
  end.

Definition cmd_dry_run (namespace name yaml_file : string) (e : Env W) : Out * Env W :=
  match read_to_string yaml_file with
  | Err m => (failed (ReadError yaml_file m), e)
  | Ok yaml_content =>
      match handle_dry_run_apply x_yaml_spec x_dry_run_string (mkApplyRequest namespace name yaml_content) e with
      | (Err s, e1) => (failed (RpcFailed s), e1)
      | (Ok resp, e1) =>
          (done_with
             ["# Dry-run diff for " +:+ namespace +:+ "/" +:+ name +:+ " (NO changes written)";
              "schema_version: " +:+ pretty (dr_current_schema_version resp) +:+ " -> " +:+
                pretty (dr_proposed_schema_version resp);
              "--- current content";
              (if is_empty (dr_current_content_json resp) then "<absent>" else dr_current_content_json resp);
              "+++ proposed content";
              dr_proposed_content_json resp]%string, e1)
      end
  end.

Definition cmd_revert (namespace name resource_version : string) (e : Env W) : Out * Env W :=
  match handle_revert x_traceparent x_nanos x_de_display (mkRevertRequest namespace name resource_version) e with
  | (Err s, e1) => (failed (RpcFailed s), e1)
  | (Ok resp, e1) =>
      (done_with ["Reverted " +:+ namespace +:+ "/" +:+ name +:+ " to resource_version=" +:+ resource_version +:+
         " (new schema_version: " +:+ pretty (rv_schema_version resp) +:+ ", new resource_version: " +:+
         rv_resource_version resp +:+ ")"], e1)
  end.

Definition cmd_get (namespace name : string) (e : Env W) : Out * Env W :=
  match api_get namespace name e with
  | (Ok obj, e1) =>
      match to_yaml (default JNull (json_get "spec" (do_data obj))) with
      | Ok yaml => (done_with [yaml], e1)
      | Err m => (failed (YamlFailed m), e1)
      end
  | (Err err, e1) =>
      if bool_decide (api_status_code err = Some 404) then (failed (ExitNotFound namespace name), e1)
      else (failed (KubeFailed err), e1)
  end.

Definition with_kube (e : Env W) (w : W) : Env W := mkEnv w (e_trace e) (e_applies e).

Definition cmd_import_configmap (namespace configmap_name target_name : string) (e : Env W) : Out * Env W :=
  match import_configmap namespace configmap_name target_name (e_kube e) with
  | (Err err, w) => (failed (KubeFailed err), with_kube e w)
  | (Ok rv, w) =>
      (done_with ["Imported " +:+ namespace +:+ "/" +:+ configmap_name +:+ " → Config " +:+ namespace +:+ "/" +:+
         target_name +:+ " (rv: " +:+ rv +:+ ")"], with_kube e w)
  end.

(** A [BTreeMap] prints in key order. *)
Definition sorted_keys {A} (m : gmap string A) : list string := sorted_strings (dom m).

(** [std::str::from_utf8(raw).unwrap_or("<binary>")]. *)
Definition utf8_or_binary (raw : list Z) : string :=
  if utf8_valid raw then string_of_list_ascii ((λ b, ascii_of_N (Z.to_N b)) <$> raw) else "<binary>".

Definition print_secret (namespace name : string) (reveal : bool) (secret : Secret) : list string :=
  ["namespace: " +:+ namespace; "name: " +:+ name;
   "schema_version: " +:+ pretty (parse_secret_schema_version secret)] ++
  match so_data secret with
  | None => ["# No data keys."%string]
  | Some data =>
      (λ k, if reveal then k +:+ ": " +:+ utf8_or_binary (default [] (data !! k))
            else k +:+ ": <REDACTED>") <$> sorted_keys data
  end.

Definition cmd_get_secret (namespace name : string) (reveal : bool) (e : Env W) : Out * Env W :=
  match secret_get namespace name (e_kube e) with
  | (Err err, w) => (failed (KubeFailed err), with_kube e w)
  | (Ok secret, w) => (done_with (print_secret namespace name reveal secret), with_kube e w)
  end.

Definition cmd_apply_secret (namespace name yaml_content : string) (e : Env W) : Out * Env W :=
  match x_yaml_map yaml_content with
  | Err m => (failed (YamlFailed m), e)
  | Ok plaintext_map =>
      let incoming := incoming_version plaintext_map in
      let '(r, w) := secret_get namespace name (e_kube e) in
      let current := match r with
                     | Ok s => Ok (parse_secret_schema_version s)
                     | Err err => if bool_decide (api_status_code err = Some 404) then Ok 0 else Err err
                     end in
      match current with
      | Err err => (failed (KubeFailed err), with_kube e w)
      | Ok current =>
          if incoming <=? current then (failed (StaleVersion incoming current), with_kube e w)
          else
            match secret_patch namespace name (build_patch namespace name incoming (encoded_data x_base64 plaintext_map)) w with
            | (Err err, w2) => (failed (KubeFailed err), with_kube e w2)
            | (Ok s, w2) =>
                (done_with ["Applied " +:+ namespace +:+ "/" +:+ name +:+ " (resource_version: " +:+
                   default ""%string (so_resource_version s) +:+ ")"], with_kube e w2)
            end
      end
  end.

(** [client] is the outcome of [Client::try_default]. *)
Definition main (client : result unit string) (cmd : Commands) (e : Env W) : Out * Env W :=
  match client with
  | Err m => (failed (KubeFailed (OtherErr m)), e)
  | Ok _ =>
      match cmd with
      | CmdApply ns n f => cmd_apply ns n f e
      | CmdBatchApply items => cmd_batch_apply items e
      | CmdDryRun ns n f => cmd_dry_run ns n f e
      | CmdGet ns n => cmd_get ns n e
      | CmdRevert ns n rv => cmd_revert ns n rv e
      | CmdImport ns n target => cmd_import_configmap ns n (default n target) e
      | CmdGetSecret ns n reveal => cmd_get_secret ns n reveal e
      | CmdApplySecret ns n f =>
          match read_to_string f with
          | Err m => (failed (ReadError f m), e)
          | Ok yaml_content => cmd_apply_secret ns n yaml_content e
          end
      end
  end.
End Commands.

(** ** Facts *)

(** An item is read exactly when it is three parts, and only the path may hold
    colons. *)
Lemma parse_item_spec item ns n path :
  parse_item item = Some (ns, n, path) ↔
  item = ns +:+ String ":" (n +:+ String ":" path) ∧
  contains_char ":" ns = false ∧ contains_char ":" n = false.
Proof.
  unfold parse_item. split.
  - destruct (split_once ":" item) as [[a r]|] eqn:H1; [|done]. apply split_once_spec in H1 as [-> Ha].
    destruct (split_once ":" r) as [[b q]|] eqn:H2; [|done]. apply split_once_spec in H2 as [-> Hb].
    by intros [= <- <- <-].
  - intros (-> & Ha & Hb). rewrite (proj2 (split_once_spec _ _ _ _) (conj eq_refl Ha)).
    by rewrite (proj2 (split_once_spec _ _ _ _) (conj eq_refl Hb)).
Qed.

Section Facts.
Context `{X : Externals}.
Context {W : Type} `{KubeApi W, SecretApi W, ConfigMapApi W}.

Lemma secret_patch_loop_S nanos fuel a (once : SecretEnv W → result string KubeError * SecretEnv W) e :
  secret_patch_loop nanos (S fuel) a once e =
    match once e with
    | (Ok rv, e1) => (Ok rv, e1)
    | (Err err, e1) =>
        match classify_secret_patch_error err a with
        | SecretRetryAfter d => secret_patch_loop nanos fuel (S a) once
            (mkSecretEnv (sv_kube e1) (sv_sleeps e1 ++ [jittered_retry_ms (nanos a) d]))
        | SecretAbortRetriesExhausted => (Err (status Aborted "ApplySecret: 409 Conflict — exceeded max retries"), e1)
        | SecretUnavailable => (Err (status Unavailable ("kube patch error: " +:+ kube_display err)), e1)
        end
    end.
Proof. done. Qed.

#[local] Arguments secret_patch_loop : simpl never.

(** The retry loop only ever adds sleeps. *)
Lemma secret_loop_sleeps nanos (once : SecretEnv W → result string KubeError * SecretEnv W) fuel a e :
  (∀ e, sv_sleeps (once e).2 = sv_sleeps e) →
  sv_sleeps e `prefix_of` sv_sleeps (secret_patch_loop nanos fuel a once e).2.
Proof.
  intros Ho. revert a e. induction fuel as [|fuel IH]; intros a e; [done|]. rewrite secret_patch_loop_S.
  specialize (Ho e). destruct (once e) as [[rv|err] e1]; simpl in Ho; [by rewrite <- Ho|].
  destruct (classify_secret_patch_error err a); simpl; [|by rewrite <- Ho..].
  etrans; [|apply IH]. simpl. rewrite <- Ho. by apply prefix_app_r.
Qed.

(** A first success is the outcome; after a first failure the loop has slept or
    it fails. *)
Lemma secret_loop_first nanos (once : SecretEnv W → result string KubeError * SecretEnv W) e :
  (∀ e, sv_sleeps (once e).2 = sv_sleeps e) →
  match (once e).1 with
  | Ok rv => run_secret_patch_retry_loop nanos once e = (Ok rv, (once e).2)
  | Err err => is_ok (run_secret_patch_retry_loop nanos once e).1 = false ∨
               sv_sleeps (run_secret_patch_retry_loop nanos once e).2 ≠ sv_sleeps e
  end.
Proof.
  intros Ho. unfold run_secret_patch_retry_loop. cbn [length SECRET_RETRY_DELAYS_MS].
  rewrite secret_patch_loop_S. pose proof (Ho e) as He.
  destruct (once e) as [[rv|err] e1]; simpl in He; simpl; [done|].
  destruct (classify_secret_patch_error err 0); [|by left..]. right. intros Heq.
  pose proof (secret_loop_sleeps nanos once 2 1
    (mkSecretEnv (sv_kube e1) (sv_sleeps e1 ++ [jittered_retry_ms (nanos 0%nat) delay_ms])) Ho) as Hp.
  rewrite Heq in Hp. apply prefix_length in Hp. simpl in Hp. rewrite length_app, He in Hp. simpl in Hp. lia.
Qed.

(** What the command and the server's handler have in common: they succeed
    together (the server at its first attempt), with the same cluster and version,
    and refuse the same versions. *)
Definition secret_agree (ns n : string) (sl : list Z) (server : rpc string * SecretEnv W) (cli : Out * Env W) : Prop :=
  (is_ok cli.1.2 = true ↔ is_ok server.1 = true ∧ sv_sleeps server.2 = sl) ∧
  (is_ok cli.1.2 = true → e_kube cli.2 = sv_kube server.2 ∧
     ∃ rv, server.1 = Ok rv ∧
       cli.1.1 = ["Applied " +:+ ns +:+ "/" +:+ n +:+ " (resource_version: " +:+ rv +:+ ")"]) ∧
  (∀ i c, cli.1.2 = Err (StaleVersion i c) →
     server.1 = Err (status FailedPrecondition (version_message i c)) ∧ e_kube cli.2 = sv_kube server.2) ∧
  (∀ st, server.1 = Err st → st_code st = FailedPrecondition → ∃ i c, cli.1.2 = Err (StaleVersion i c)).

Lemma agree_fail ns n sl st se err (e : Env W) :
  st_code st ≠ FailedPrecondition → (∀ i c, err ≠ StaleVersion i c) →
  secret_agree ns n sl (Err st, se) (failed err, e).
Proof. intros Hst Herr. split_and!; simpl; [split; [done|by intros [? _]]|done|naive_solver|naive_solver]. Qed.

Lemma secret_loop_codes nanos once fuel a (e : SecretEnv W) st e' :
  secret_patch_loop nanos fuel a once e = (Err st, e') → st_code st ≠ FailedPrecondition.
Proof.
  revert a e. induction fuel as [|fuel IH]; intros a e; [by intros [= <- _]|].
  rewrite secret_patch_loop_S. destruct (once e) as [[rv|err] e1]; [done|].
  destruct (classify_secret_patch_error err a); [apply IH|by intros [= <- _]..].
Qed.

Lemma agree_patch ns n v data (e : Env W) w sl :
  secret_agree ns n sl (patch_secret_with_retry x_nanos ns n v data (mkSecretEnv w sl))
    (match secret_patch ns n (build_patch ns n v data) w with
     | (Err err, w2) => (failed (KubeFailed err), with_kube e w2)
     | (Ok s, w2) => (done_with ["Applied " +:+ ns +:+ "/" +:+ n +:+ " (resource_version: " +:+
           default ""%string (so_resource_version s) +:+ ")"], with_kube e w2)
     end).
Proof.
  unfold patch_secret_with_retry. set (once := λ e : SecretEnv W, _).
  assert (Ho : ∀ e, sv_sleeps (once e).2 = sv_sleeps e).
  { intros e0. unfold once. by destruct (secret_patch _ _ _ _) as [[]]. }
  pose proof (secret_loop_first x_nanos once (mkSecretEnv w sl) Ho) as Hf.
  destruct (run_secret_patch_retry_loop x_nanos once (mkSecretEnv w sl)) as [[rv|st] e'] eqn:Hr;
    unfold once in Hf; simpl in Hf;
    destruct (secret_patch ns n _ w) as [[s|err] w2]; simpl in Hf; simplify_eq.
  - split_and!; simpl; [done|eauto|done|done].
  - split_and!; simpl; [|done|done|done]. split; [done|]. intros [_ ?]. by destruct Hf.
  - apply agree_fail; [by eapply secret_loop_codes|done].
Qed.

(** [apply-secret] is the server's ApplySecret without the retries.  On the
    same cluster and file it succeeds exactly when the server succeeds at its
    first attempt, and then leaves the same cluster and reports the same version;
    a version the one refuses the other refuses, with the cluster as read. *)
Theorem cli_apply_secret_equiv ns n yaml (e : Env W) sl :
  secret_agree ns n sl (apply_secret_inner x_base64 x_yaml_map x_nanos ns n yaml (mkSecretEnv (e_kube e) sl))
    (cmd_apply_secret ns n yaml e).
Proof.
  unfold apply_secret_inner, cmd_apply_secret, fetch_current_secret_version.
  destruct (x_yaml_map yaml) as [plain|m]; [|by apply agree_fail]. simpl.
  destruct (secret_get ns n (e_kube e)) as [r w].
  assert (Hgate : ∀ cur, secret_agree ns n sl
    (if incoming_version plain <=? cur
     then (Err (status FailedPrecondition (version_message (incoming_version plain) cur)), mkSecretEnv w sl)
     else patch_secret_with_retry x_nanos ns n (incoming_version plain) (encoded_data x_base64 plain) (mkSecretEnv w sl))
    (if incoming_version plain <=? cur
     then (failed (StaleVersion (incoming_version plain) cur), with_kube e w)
     else match secret_patch ns n (build_patch ns n (incoming_version plain) (encoded_data x_base64 plain)) w with
          | (Err err, w2) => (failed (KubeFailed err), with_kube e w2)
          | (Ok s, w2) => (done_with ["Applied " +:+ ns +:+ "/" +:+ n +:+ " (resource_version: " +:+
                default ""%string (so_resource_version s) +:+ ")"], with_kube e w2)
          end)).
  { intros cur. destruct (_ <=? cur); [|apply agree_patch].
    split_and!; simpl; [split; [done|by intros [? _]]|done|by intros i c [= <- <-]|by eauto]. }
  destruct r as [s|err]; [apply Hgate|]. case_bool_decide; [apply Hgate|by apply agree_fail].
Qed.

(** Without [--reveal], [get-secret] shows nothing of the values: what it
    prints, and how it ends, is the same for two clusters whose answers differ
    only in the secret's values. *)
Theorem get_secret_redacted ns n (e1 e2 : Env W) s1 s2 w1 w2 :
  secret_get ns n (e_kube e1) = (Ok s1, w1) → secret_get ns n (e_kube e2) = (Ok s2, w2) →
  so_annotations s1 = so_annotations s2 → (dom <$> so_data s1 : option (gset string)) = dom <$> so_data s2 →
  (cmd_get_secret ns n false e1).1 = (cmd_get_secret ns n false e2).1.
Proof.
  unfold cmd_get_secret. intros -> -> Ha Hd. simpl. unfold done_with, print_secret, parse_secret_schema_version.
  rewrite Ha. do 2 f_equal. destruct (so_data s1) as [d1|], (so_data s2) as [d2|]; try done.
  simpl in Hd. injection Hd as Hd. unfold sorted_keys. by rewrite Hd.
Qed.
End Facts.
End Cli.

Module CliDemo.
Import CanonicalIter ServerDemo Cli.
Definition reply (v : list Z) : Secret :=
  mkSecret (Some "db"%string) (Some "prod"%string) (Some "7"%string) None
    (Some {[SCHEMA_VERSION_ANNOTATION := "3"%string]}) (Some {["password"%string := v; "user"%string := [98]]}).
(** A cluster that answers every read with one secret. *)
#[export] Instance one_kube : KubeApi Secret := {|
  kube_get _ _ w := (Err (ApiErr 404 "not found"), w);
  kube_patch _ _ _ w := (Err (ApiErr 403 "forbidden"), w);
  kube_list_exact _ _ _ w := (Ok [], w)
|}.
#[export] Instance one_secret : SecretApi Secret := {|
  secret_get _ _ w := (Ok w, w);
  secret_patch _ _ body _ := (Ok body, body)
|}.
End CliDemo.
Import CanonicalIter ServerDemo CliDemo.

Lemma get_secret_redacted_witness :
  (Cli.cmd_get_secret "prod" "db" false (mkEnv (reply [104; 105]) [] ∅)).1 =
    (["namespace: prod"; "name: db"; "schema_version: 3"; "password: <REDACTED>"; "user: <REDACTED>"]%string, Ok tt) ∧
  (Cli.cmd_get_secret "prod" "db" false (mkEnv (reply [104; 105]) [] ∅)).1 =
  (Cli.cmd_get_secret "prod" "db" false (mkEnv (reply [1]) [] ∅)).1.
Proof.
  split; [vm_compute; reflexivity|].
  apply (Cli.get_secret_redacted "prod" "db" (mkEnv (reply [104; 105]) [] ∅) (mkEnv (reply [1]) [] ∅)
    (reply [104; 105]) (reply [1]) (reply [104; 105]) (reply [1])); vm_compute; reflexivity.
Defined.

(** Revealing a secret written by [apply-secret] prints its base64 text. *)
Example reveal_shows_base64 :
  Cli.print_secret "prod" "db" true (build_patch "prod" "db" 2 (encoded_data b64_encode {["password"%string := "hi"%string]})) =
  ["namespace: prod"; "name: db"; "schema_version: 2"; "password: aGk="]%string.
Proof. vm_compute. reflexivity. Qed.
