(* ===== verification/Flame.v ===== *)
(** * The flame-graph tools: [tools/konfig-flamediff]

    [flamebearer.rs]: reading a flamebearer document, decoding its levels into
    bars with their parents, the hottest frames, and the pprof encoding with its
    hand-written protobuf.  [gate.rs] and [main.rs]: the regression gate and its
    exit codes.  JSON text, the regex engine and the demangler are parameters; a
    panic (an index out of range) is [None].  Integer additions wrap at 64 bits,
    as in a release build. *)
From Stdlib Require Import SpecFloat.
From S2P Require Export F64 Kube.

Module Flame.

(** ** Machine integers *)
Definition wrap_u64 (z : Z) : Z := z mod 18446744073709551616.
Definition wrap_i64 (z : Z) : Z := (z + 9223372036854775808) mod 18446744073709551616 - 9223372036854775808.
Definition i64_add (a b : Z) : Z := wrap_i64 (a + b).
Definition i64_mul (a b : Z) : Z := wrap_i64 (a * b).
Definition in_i64 (z : Z) : Prop := i64_min ≤ z ≤ i64_max.

(** [v\[i\]] with a [usize] index: [None] is the panic. *)
Definition index {A} (l : list A) (i : Z) : option A :=
  if i <? Z.of_nat (length l) then l !! Z.to_nat i else None.

(** [Value::as_i64] and [Value::as_f64]. *)
Definition as_i64 (v : json) : option Z :=
  match v with JInt z => if (i64_min <=? z) && (z <=? i64_max) then Some z else None | _ => None end.
Definition as_f64 (v : json) : option spec_float :=
  match v with JInt z => Some (f64_of_Z z) | JFloat f => Some f | _ => None end.
(** [v.get(k).and_then(f)]. *)
Definition get_with {A} (f : json → option A) (k : string) (v : json) : option A :=
  match json_get k v with Some x => f x | None => None end.
Definition as_array (v : json) : option (list json) := match v with JArr l => Some l | _ => None end.

(** ** The document *)
Record Flamebearer : Type := mkFlame {
  names : list string;
  levels : list (list Z);
  num_ticks : Z;
  sample_rate : Z;
  units : string
}.

Record Bar : Type := mkBar {
  x0 : Z;
  x1 : Z;
  self_ : Z;
  name_idx : Z;
  parent : option nat
}.

Inductive LoadError : Set :=
  | NotFound (path : string)
  | InvalidJson (path e : string)
  | MissingNames (path : string)
  | MissingLevels (path : string)
  | LevelNotArray (path : string)
  | NoFramesList (path : string)
  | BadFrame (path : string) (i : nat)
  | BadPct (path : string) (i : nat).

Section Load.
Context (read_to_string : string → result string string).
Context (from_str : string → result json string).
Context (demangle : string → string).
Context (to_lowercase : string → string).

Definition parse_level (path : string) (lvl : json) : result (list Z) LoadError :=
  let? row := ok_or (as_array lvl) (LevelNotArray path) in
  Ok ((λ n, default 0 (as_i64 n)) <$> row).

Definition load (path : string) : result Flamebearer LoadError :=
  let? text := map_err (λ _, NotFound path) (read_to_string path) in
  let? raw := map_err (InvalidJson path) (from_str text) in
  let fb := default raw (json_get "flamebearer" raw) in
  let? ns := ok_or (get_with as_array "names" fb) (MissingNames path) in
  let? ls := ok_or (get_with as_array "levels" fb) (MissingLevels path) in
  let? levels := try_map (parse_level path) ls in
  let meta := default JNull (json_get "metadata" raw) in
  Ok (mkFlame ((λ v, demangle (default ""%string (as_str v))) <$> ns) levels
        (default 0 (get_with as_i64 "numTicks" fb))
        (default 0 (get_with as_i64 "sampleRate" meta))
        (to_lowercase (default "samples"%string (get_with as_str "units" meta)))).
End Load.

(** ** Bars *)

(** One level: groups of four, a short tail ignored. *)
Fixpoint decode_row (x : Z) (lvl : list Z) : list Bar :=
  match lvl with
  | off :: total :: slf :: name :: rest =>
      let b0 := i64_add x off in
      let b1 := i64_add b0 total in
      mkBar b0 b1 slf (wrap_u64 name) None :: decode_row b1 rest
  | _ => []
  end.

(** The forward-only cursor: skip the parents that end at or before the bar. *)
Fixpoint skip_parents (fuel pi : nat) (parents : list Bar) (x : Z) : nat :=
  match fuel with
  | O => pi
  | S fuel' =>
      match parents !! pi with
      | Some p => if x1 p <=? x then skip_parents fuel' (S pi) parents x else pi
      | None => pi
      end
  end.

Definition set_parent (b : Bar) (p : option nat) : Bar := mkBar (x0 b) (x1 b) (self_ b) (name_idx b) p.

Fixpoint link_parents (parents : list Bar) (pi : nat) (bars : list Bar) : list Bar :=
  match bars with
  | [] => []
  | bar :: rest =>
      let pi := skip_parents (length parents) pi parents (x0 bar) in
      let linked := match parents !! pi with
                    | Some p => if (x0 p <=? x0 bar) && (x1 bar <=? x1 p) then set_parent bar (Some pi) else bar
                    | None => bar
                    end in
      linked :: link_parents parents pi rest
  end.

Fixpoint link_levels (prev : option (list Bar)) (rows : list (list Bar)) : list (list Bar) :=
  match rows with
  | [] => []
  | row :: rest =>
      let row' := match prev with Some parents => link_parents parents 0 row | None => row end in
      row' :: link_levels (Some row') rest
  end.

Definition decode_levels (fb : Flamebearer) : list (list Bar) :=
  link_levels None (decode_row 0 <$> levels fb).

(** ** The hottest frames *)

(** [f64::round]: to the nearest integer, halves away from zero. *)
Definition f64_round (x : spec_float) : spec_float :=
  match x with
  | S754_finite s m e =>
      if 0 <=? e then x
      else let d := 2 ^ (- e) in
           let z := (2 * Zpos m + d) / (2 * d) in
           if z =? 0 then S754_zero s else f64_of_Z (if s then - z else z)
  | _ => x
  end.

Definition round4 (x : spec_float) : spec_float :=
  f64_div (f64_round (f64_mul x (f64_of_Z 10000))) (f64_of_Z 10000).

Definition frame_name (fb : Flamebearer) (b : Bar) : option string := index (names fb) (name_idx b).

(** Sum of [self] per name, in the order the names are first met; [None] when a
    bar names no frame. *)
Definition add_self (fb : Flamebearer) (acc : option (gmap string Z)) (b : Bar) : option (gmap string Z) :=
  m ← acc; n ← frame_name fb b; Some (<[n := i64_add (default 0 (m !! n)) (self_ b)]> m).

Definition by_name (fb : Flamebearer) : option (gmap string Z) :=
  foldl (add_self fb) (Some ∅) (mjoin (decode_levels fb)).

Definition i64_sum (l : list Z) : Z := foldl i64_add 0 l.

Definition total_ticks (fb : Flamebearer) (m : gmap string Z) : Z :=
  if 0 <? num_ticks fb then num_ticks fb
  else let s := i64_sum ((map_to_list m).*2) in if 0 <? s then s else 1.

(** Hottest first, ties by name. *)
Definition hotter (a b : string * Z) : Prop := (b.2 <? a.2) || ((a.2 =? b.2) && String.leb a.1 b.1) = true.
#[global] Instance hotter_dec a b : Decision (hotter a b).
Proof. unfold hotter. apply _. Defined.

Definition top_frames (excluded : string → bool) (n : nat) (fb : Flamebearer) : option (list (string * spec_float)) :=
  m ← by_name fb;
  let total := total_ticks fb m in
  let rows := merge_sort hotter (List.filter (λ r, negb (excluded r.1)) (map_to_list m)) in
  Some ((λ r, (r.1, round4 (f64_mul (f64_div (f64_of_Z r.2) (f64_of_Z total)) (f64_of_Z 100)))) <$>
        take n (List.filter (λ r, 0 <? r.2) rows)).

Definition frames_to_json (frames : list (string * spec_float)) : json :=
  JObj [("frames", JArr ((λ f, JObj [("name", JStr f.1); ("self_pct", JFloat f.2)]) <$> frames))].

(** ** Protobuf wire format *)
Fixpoint varint_fuel (fuel : nat) (n : Z) : list Z :=
  let b := Z.land n 127 in
  let n' := Z.shiftr n 7 in
  match fuel with
  | O => [b]
  | S fuel' => if n' =? 0 then [b] else Z.lor b 128 :: varint_fuel fuel' n'
  end.

(** Ten groups of seven bits hold a [u64]. *)
Definition varint (n : Z) : list Z := varint_fuel 9 n.

Definition tag (field wire : Z) : list Z := varint (Z.lor (Z.shiftl field 3) wire).
Definition vfield (field val : Z) : list Z := tag field 0 ++ varint val.
Definition lfield (field : Z) (data : list Z) : list Z := tag field 2 ++ varint (Z.of_nat (length data)) ++ data.
Definition packed (field : Z) (vals : list Z) : list Z := lfield field (mjoin (varint <$> vals)).

(** ** pprof *)
Record Interner : Type := mkInterner { in_strings : list string; in_idx : gmap string Z }.
Definition interner_new : Interner := mkInterner [""%string] {[""%string := 0]}.
Definition intern (s : string) (t : Interner) : Z * Interner :=
  match in_idx t !! s with
  | Some i => (i, t)
  | None => let i := Z.of_nat (length (in_strings t)) in
            (i, mkInterner (in_strings t ++ [s]) (<[s := i]> (in_idx t)))
  end.

(** The tables while the frames are visited. *)
Record Tables : Type := mkTables {
  tb_strings : Interner;
  tb_loc : gmap string Z;
  tb_functions : list Z;
  tb_locations : list Z
}.

Definition tables_new : Tables := mkTables interner_new ∅ [] [].

Definition add_frame (name : string) (t : Tables) : Tables :=
  match tb_loc t !! name with
  | Some _ => t
  | None =>
      let fid := Z.of_nat (size (tb_loc t)) + 1 in
      let '(idx, strings) := intern name (tb_strings t) in
      mkTables strings (<[name := fid]> (tb_loc t))
        (tb_functions t ++ lfield 5 (vfield 1 fid ++ vfield 2 idx ++ vfield 4 idx))
        (tb_locations t ++ lfield 4 (vfield 1 fid ++ lfield 4 (vfield 1 fid)))
  end.

Definition add_bar (fb : Flamebearer) (acc : option Tables) (b : Bar) : option Tables :=
  t ← acc; n ← frame_name fb b; Some (add_frame n t).

(** The walk to the root: at most one bar per level. *)
Fixpoint stack_of (fb : Flamebearer) (bars : list (list Bar)) (loc : gmap string Z) (d i : nat) : option (list Z) :=
  row ← bars !! d; bar ← row !! i; n ← frame_name fb bar; l ← loc !! n;
  match parent bar, d with
  | Some pi, S d' => ls ← stack_of fb bars loc d' pi; Some (l :: ls)
  | Some _, O => None
  | None, _ => Some [l]
  end.

Definition sample_bytes (fb : Flamebearer) (bars : list (list Bar)) (loc : gmap string Z) (scale : Z) (d i : nat)
    (b : Bar) : option (list Z) :=
  if self_ b <=? 0 then Some []
  else
    stack ← stack_of fb bars loc d i;
    Some (lfield 2 (packed 1 stack ++ packed 2 [wrap_u64 (i64_mul (self_ b) scale)])).

(** A partial function over a list with its indices, concatenating. *)
Fixpoint concat_opt {A B} (f : nat → A → option (list B)) (i : nat) (l : list A) : option (list B) :=
  match l with
  | [] => Some []
  | a :: l' => x ← f i a; y ← concat_opt f (S i) l'; Some (x ++ y)
  end.

Definition value_kind (fb : Flamebearer) : string * string * Z * Z :=
  if String.eqb (units fb) "samples" && (0 <? sample_rate fb) then
    let ns := match f64_round (f64_div (f64_of_Z 1000000000) (f64_of_Z (sample_rate fb))) with
              | S754_finite false m e => Z.shiftl (Zpos m) e
              | _ => 0
              end in
    ("cpu"%string, "nanoseconds"%string, ns, wrap_u64 ns)
  else ("samples"%string, "count"%string, 1, 1).

Definition to_pprof (fb : Flamebearer) : option (list Z) :=
  let bars := decode_levels fb in
  let '(st_type, st_unit, scale, period) := value_kind fb in
  t ← foldl (add_bar fb) (Some tables_new) (mjoin bars);
  samples ← concat_opt (λ d row, concat_opt (λ i b, sample_bytes fb bars (tb_loc t) scale d i b) 0 row) 0 bars;
  let '(ty, s1) := intern st_type (tb_strings t) in
  let '(un, s2) := intern st_unit s1 in
  let value_type := vfield 1 ty ++ vfield 2 un in
  Some (lfield 1 value_type ++ samples ++ tb_functions t ++ tb_locations t ++
        lfield 11 value_type ++ vfield 12 period ++
        mjoin ((λ s, lfield 6 (bytes_of s)) <$> in_strings s2)).

(** ** The gate *)
Inductive Reason : Set :=
  | RelOver (rel threshold : spec_float)
  | NewHot (cur floor : spec_float).

(** [reason] keeps what is reported; [Reports] has the wording. *)
Record Row : Type := mkRow {
  row_name : string;
  base_pct : spec_float;
  cur_pct : spec_float;
  rel_delta : option spec_float;
  regressed : bool;
  reason : option Reason
}.

Section GateLoad.
Context (read_to_string : string → result string string).
Context (from_str : string → result json string).

Fixpoint frames_of (path : string) (i : nat) (arr : list json) (out : gmap string spec_float) :
    result (gmap string spec_float) LoadError :=
  match arr with
  | [] => Ok out
  | fr :: rest =>
      match get_with as_str "name" fr, json_get "self_pct" fr with
      | Some name, Some v =>
          let? pct := ok_or (as_f64 v) (BadPct path i) in
          frames_of path (S i) rest (<[name := pct]> out)
      | _, _ => Err (BadFrame path i)
      end
  end.

Definition load_frames (path : string) : result (gmap string spec_float) LoadError :=
  let? text := map_err (λ _, NotFound path) (read_to_string path) in
  let? raw := map_err (InvalidJson path) (from_str text) in
  let frames := default raw (json_get "frames" raw) in
  let? arr := ok_or (as_array frames) (NoFramesList path) in
  frames_of path 0 arr ∅.
End GateLoad.

(** Highest first, ties (and what cannot be compared) by name. *)
Definition hot_le (a b : string * spec_float) : Prop :=
  match SFcompare b.2 a.2 with
  | Some Lt => true
  | Some Gt => false
  | _ => str_leb a.1 b.1
  end = true.
#[global] Instance hot_le_dec a b : Decision (hot_le a b).
Proof. unfold hot_le. apply _. Defined.

Definition top_names (frames : gmap string spec_float) (top : nat) : list string :=
  (take top (merge_sort hot_le (map_to_list frames))).*1.

Definition zero : spec_float := S754_zero false.

Definition diff_row (current baseline : gmap string spec_float) (threshold min_base_pct new_frame_floor_pct : spec_float)
    (name : string) : Row :=
  let base := default zero (baseline !! name) in
  let cur := default zero (current !! name) in
  if f64_ge base min_base_pct then
    let rel := f64_div (f64_sub cur base) base in
    let over := f64_lt threshold rel in
    mkRow name base cur (Some rel) over (if over then Some (RelOver rel threshold) else None)
  else if f64_ge cur new_frame_floor_pct then
    mkRow name base cur None true (Some (NewHot cur new_frame_floor_pct))
  else mkRow name base cur None false None.

(** Rows hottest first, stable. *)
Definition row_le (a b : Row) : Prop := f64_lt (cur_pct a) (cur_pct b) = false.
#[global] Instance row_le_dec a b : Decision (row_le a b).
Proof. unfold row_le. apply _. Defined.

Definition diff (current baseline : gmap string spec_float) (threshold : spec_float) (top : nat)
    (min_base_pct new_frame_floor_pct : spec_float) : list Row :=
  let names : gset string := list_to_set (top_names baseline top) ∪ list_to_set (top_names current top) in
  merge_sort row_le (diff_row current baseline threshold min_base_pct new_frame_floor_pct <$> sorted_strings names).

(** ** The commands *)
Definition EXIT_OK : Z := 0.
Definition EXIT_REGRESSION : Z := 1.
Definition EXIT_INPUT : Z := 2.

Inductive CmdError : Set :=
  | CmdLoad (e : LoadError)
  | CmdWrite (path e : string)
  | CmdRegex (e : string).

Section Commands.
Context (read_to_string : string → result string string).
Context (from_str : string → result json string).
(** [std::fs::write] of a path, whatever the contents. *)
Context (write : string → result unit string).

Definition write_opt (output : option string) : result unit CmdError :=
  match output with
  | Some path => map_err (CmdWrite path) (write path)
  | None => Ok tt
  end.

Definition cmd_gate (current baseline : string) (threshold : spec_float) (top : nat)
    (min_base_pct new_frame_floor_pct : spec_float) (output : option string) : result Z CmdError :=
  let? cur := map_err CmdLoad (load_frames read_to_string from_str current) in
  let? base := map_err CmdLoad (load_frames read_to_string from_str baseline) in
  let rows := diff cur base threshold top min_base_pct new_frame_floor_pct in
  let? _ := write_opt output in
  Ok (if existsb regressed rows then EXIT_REGRESSION else EXIT_OK).

Context (demangle to_lowercase : string → string).
(** [Regex::new] and [is_match]. *)
Context (regex : string → result (string → bool) string).

(** [None] is the panic of an out-of-range name index. *)
Definition cmd_top_frames (input : string) (top : nat) (exclude : option string) (output : option string) :
    option (result (Z * json) CmdError) :=
  match match exclude with
        | Some pat => map_err CmdRegex (regex pat)
        | None => Ok (λ _, false)
        end with
  | Err e => Some (Err e)
  | Ok excluded =>
      match map_err CmdLoad (load read_to_string from_str demangle to_lowercase input) with
      | Err e => Some (Err e)
      | Ok fb =>
          match top_frames excluded top fb with
          | None => None
          | Some frames => Some (let? _ := write_opt output in Ok (EXIT_OK, frames_to_json frames))
          end
      end
  end.

Definition cmd_to_pprof (input output : string) : option (result (Z * list Z) CmdError) :=
  match map_err CmdLoad (load read_to_string from_str demangle to_lowercase input) with
  | Err e => Some (Err e)
  | Ok fb =>
      match to_pprof fb with
      | None => None
      | Some bytes => Some (let? _ := write_opt (Some output) in Ok (EXIT_OK, bytes))
      end
  end.

(** The process's exit code. *)
Definition exit_code (r : result Z CmdError) : Z :=
  match r with Ok code => code | Err _ => EXIT_INPUT end.
End Commands.

End Flame.
