(* ===== verification/FlameFacts.v ===== *)
(** * The pprof encoding is readable, the gate is fair

    A reader of the protobuf wire format and of the part of the pprof schema the
    tool writes, and the theorems about [Flame]: what is written reads back as
    the stacks of the flame graph, the parent of a bar is the bar that contains
    it, and the gate never fails an improvement. *)
From Stdlib Require Import SpecFloat.
From S2P Require Export Flame.

Module FlameFacts.
Import Flame.

(** ** Reading the wire format *)
Definition u64_bound : Z := 18446744073709551616.

Fixpoint get_varint (fuel : nat) (l : list Z) : option (Z * list Z) :=
  match fuel, l with
  | S fuel', b :: r =>
      if b <? 128 then Some (b, r)
      else match get_varint fuel' r with
           | Some (v, r') => Some (b - 128 + 128 * v, r')
           | None => None
           end
  | _, _ => None
  end.

Lemma land_low_high n : Z.land (n mod 128) 128 = 0.
Proof.
  apply Z.bits_inj'. intros i Hi. rewrite Z.land_spec, Z.bits_0. change 128 with (2 ^ 7) at 2.
  rewrite Z.pow2_bits_eqb by lia. destruct (Z.eqb_spec 7 i) as [<-|]; [|by rewrite andb_false_r].
  change 128 with (2 ^ 7). by rewrite Z.mod_pow2_bits_high by lia.
Qed.

Lemma varint_fuel_S fuel n :
  varint_fuel (S fuel) n = if n / 128 =? 0 then [n mod 128] else n mod 128 + 128 :: varint_fuel fuel (n / 128).
Proof.
  simpl. change 127 with (Z.ones 7). rewrite Z.land_ones, Z.shiftr_div_pow2 by lia.
  change (2 ^ 7) with 128. destruct (n / 128 =? 0); [done|]. f_equal.
  rewrite <- Z.lxor_lor by apply land_low_high. symmetry. apply Z.add_nocarry_lxor, land_low_high.
Qed.

Lemma get_varint_fuel fuel n rest :
  0 ≤ n < 128 ^ (Z.of_nat fuel + 1) → get_varint (S fuel) (varint_fuel fuel n ++ rest) = Some (n, rest).
Proof.
  revert n; induction fuel as [|fuel IH]; intros n Hn.
  - simpl. change 127 with (Z.ones 7). rewrite Z.land_ones by lia. change (2 ^ 7) with 128.
    rewrite Z.mod_small by (simpl in Hn; lia). rewrite (proj2 (Z.ltb_lt n 128)) by (simpl in Hn; lia). done.
  - rewrite varint_fuel_S. pose proof (Z.mod_pos_bound n 128 ltac:(lia)). pose proof (Z.div_mod n 128 ltac:(lia)).
    destruct (Z.eqb_spec (n / 128) 0) as [Hz|Hz].
    + cbn [app get_varint]. rewrite (proj2 (Z.ltb_lt _ _)) by lia. do 2 f_equal. lia.
    + remember (S fuel) as f eqn:Hf. cbn [app get_varint].
      rewrite (proj2 (Z.ltb_ge _ _)) by lia. subst f. rewrite IH.
      { do 2 f_equal. lia. }
      split; [apply Z.div_pos; lia|]. apply Z.div_lt_upper_bound; [lia|].
      rewrite <- Z.pow_succ_r by lia. replace (Z.succ (Z.of_nat fuel + 1)) with (Z.of_nat (S fuel) + 1) by lia. lia.
Qed.

Lemma get_varint_varint n rest :
  0 ≤ n < u64_bound → get_varint 10 (varint n ++ rest) = Some (n, rest).
Proof. intros Hn. apply get_varint_fuel. unfold u64_bound in Hn. simpl. lia. Qed.

Lemma varint_nonempty n : varint n ≠ [].
Proof. unfold varint. rewrite varint_fuel_S. by destruct (_ =? 0). Qed.

#[local] Arguments get_varint : simpl never.
#[local] Arguments varint : simpl never.
#[local] Arguments varint_fuel : simpl never.
#[local] Arguments vfield : simpl never.
#[local] Arguments lfield : simpl never.

(** A message is a list of fields: a number, or bytes. *)
Inductive Wire : Type := WV (n : Z) | WL (data : list Z).

Definition enc (f : Z * Wire) : list Z :=
  match f with (k, WV n) => vfield k n | (k, WL d) => lfield k d end.
Definition fields_bytes (fs : list (Z * Wire)) : list Z := mjoin (enc <$> fs).

Definition get_field (l : list Z) : option (Z * Wire * list Z) :=
  match get_varint 10 l with
  | Some (key, r) =>
      if key mod 8 =? 0 then
        match get_varint 10 r with Some (v, r') => Some (key / 8, WV v, r') | None => None end
      else if key mod 8 =? 2 then
        match get_varint 10 r with
        | Some (len, r') => if len <=? Z.of_nat (length r')
                            then Some (key / 8, WL (take (Z.to_nat len) r'), drop (Z.to_nat len) r') else None
        | None => None
        end
      else None
  | None => None
  end.

Fixpoint decode_fields_fuel (fuel : nat) (l : list Z) : option (list (Z * Wire)) :=
  match fuel, l with
  | _, [] => Some []
  | S fuel', _ =>
      match get_field l with
      | Some (k, w, r) => match decode_fields_fuel fuel' r with Some fs => Some ((k, w) :: fs) | None => None end
      | None => None
      end
  | O, _ => None
  end.
Definition decode_fields (l : list Z) : option (list (Z * Wire)) := decode_fields_fuel (length l) l.

(** The values that fit the format. *)
Definition field_ok (f : Z * Wire) : Prop :=
  0 ≤ f.1 < 1024 ∧ match f.2 with WV n => 0 ≤ n < u64_bound | WL d => Z.of_nat (length d) < u64_bound end.

Lemma tag_key k w : 0 ≤ k → 0 ≤ w < 8 → Z.lor (Z.shiftl k 3) w = 8 * k + w.
Proof.
  intros Hk Hw. assert (Hl : Z.land (Z.shiftl k 3) w = 0).
  { apply Z.bits_inj'. intros i Hi. rewrite Z.land_spec, Z.bits_0.
    destruct (Z_lt_le_dec i 3); [by rewrite Z.shiftl_spec_low|].
    rewrite <- (Z.mod_small w (2 ^ 3)) by (change (2 ^ 3) with 8; lia).
    rewrite Z.mod_pow2_bits_high by lia. apply andb_false_r. }
  rewrite <- Z.lxor_lor by done. rewrite <- Z.add_nocarry_lxor by done.
  rewrite Z.shiftl_mul_pow2 by lia. change (2 ^ 3) with 8. lia.
Qed.

Lemma get_field_enc f rest : field_ok f → get_field (enc f ++ rest) = Some (f, rest).
Proof.
  destruct f as [k w]. intros [Hk Hw]; simpl in Hk, Hw. unfold get_field.
  destruct w as [n|d]; simpl; unfold vfield, lfield, tag; rewrite tag_key by lia; rewrite <- !app_assoc.
  - rewrite get_varint_varint by (unfold u64_bound; lia).
    replace ((8 * k + 0) mod 8) with 0 by (rewrite Z.add_0_r, Z.mul_comm, Z.mod_mul; lia). simpl.
    rewrite get_varint_varint by done. do 3 f_equal. rewrite Z.add_0_r, Z.mul_comm, Z.div_mul; lia.
  - rewrite get_varint_varint by (unfold u64_bound; lia).
    replace ((8 * k + 2) mod 8) with 2 by (rewrite Z.add_comm, Z.mul_comm, Z.mod_add by lia; done). simpl.
    rewrite get_varint_varint by (unfold u64_bound in *; lia).
    rewrite length_app. rewrite (proj2 (Z.leb_le _ _)) by lia. rewrite Nat2Z.id, take_app_length, drop_app_length.
    do 3 f_equal. rewrite Z.add_comm, Z.mul_comm, Z.div_add by lia. done.
Qed.

Lemma enc_nonempty f : (1 ≤ length (enc f))%nat.
Proof.
  destruct f as [k [n|d]]; simpl; unfold vfield, lfield, tag; rewrite length_app;
    (destruct (varint _) eqn:E; [by destruct (varint_nonempty _ E)|simpl; lia]).
Qed.

Lemma fields_bytes_cons f fs : fields_bytes (f :: fs) = enc f ++ fields_bytes fs.
Proof. done. Qed.
Lemma fields_bytes_app a b : fields_bytes (a ++ b) = fields_bytes a ++ fields_bytes b.
Proof. unfold fields_bytes. by rewrite fmap_app, join_app. Qed.

Lemma fields_bytes_one f : fields_bytes [f] = enc f.
Proof. rewrite fields_bytes_cons. apply app_nil_r. Qed.

Lemma fields_bytes_length fs : (length fs ≤ length (fields_bytes fs))%nat.
Proof.
  induction fs as [|f fs IH]; [done|]. rewrite fields_bytes_cons, length_app. pose proof (enc_nonempty f). simpl. lia.
Qed.

Lemma decode_fields_step fuel l :
  l ≠ [] → decode_fields_fuel (S fuel) l =
    match get_field l with
    | Some (k, w, r) => match decode_fields_fuel fuel r with Some fs => Some ((k, w) :: fs) | None => None end
    | None => None
    end.
Proof. by destruct l. Qed.

(** What is written field by field reads back. *)
Lemma decode_fields_bytes fs : Forall field_ok fs → decode_fields (fields_bytes fs) = Some fs.
Proof.
  unfold decode_fields. intros Hok.
  assert (H : ∀ fuel, (length fs ≤ fuel)%nat → decode_fields_fuel fuel (fields_bytes fs) = Some fs).
  { induction Hok as [|[k w] fs Hf Hfs IH]; intros fuel Hfuel; [by destruct fuel|].
    destruct fuel as [|fuel]; [simpl in Hfuel; lia|]. rewrite fields_bytes_cons, decode_fields_step.
    - rewrite get_field_enc by done. by rewrite IH by (simpl in Hfuel; lia).
    - intros [E _]%app_eq_nil. pose proof (enc_nonempty (k, w)) as Hn. rewrite E in Hn. simpl in Hn. lia. }
  apply H, fields_bytes_length.
Qed.

Fixpoint decode_varints_fuel (fuel : nat) (l : list Z) : option (list Z) :=
  match fuel, l with
  | _, [] => Some []
  | S fuel', _ =>
      match get_varint 10 l with
      | Some (v, r) => match decode_varints_fuel fuel' r with Some vs => Some (v :: vs) | None => None end
      | None => None
      end
  | O, _ => None
  end.
Definition decode_varints (l : list Z) : option (list Z) := decode_varints_fuel (length l) l.

Lemma decode_varints_step fuel l :
  l ≠ [] → decode_varints_fuel (S fuel) l =
    match get_varint 10 l with
    | Some (v, r) => match decode_varints_fuel fuel r with Some vs => Some (v :: vs) | None => None end
    | None => None
    end.
Proof. by destruct l. Qed.

Lemma decode_varints_packed vs :
  Forall (λ v, 0 ≤ v < u64_bound) vs → decode_varints (mjoin (varint <$> vs)) = Some vs.
Proof.
  unfold decode_varints. intros Hok.
  assert (H : ∀ fuel, (length vs ≤ fuel)%nat → decode_varints_fuel fuel (mjoin (varint <$> vs)) = Some vs).
  { induction Hok as [|v vs Hv Hvs IH]; intros fuel Hf; [by destruct fuel|].
    destruct fuel as [|fuel]; [simpl in Hf; lia|].
    change (mjoin (varint <$> v :: vs)) with (varint v ++ mjoin (varint <$> vs)).
    rewrite decode_varints_step by (intros [E _]%app_eq_nil; by apply varint_nonempty in E).
    rewrite get_varint_varint by done. by rewrite IH by (simpl in Hf; lia). }
  apply H. clear. induction vs as [|v vs IH]; [done|].
  change (mjoin (varint <$> v :: vs)) with (varint v ++ mjoin (varint <$> vs)). rewrite length_app.
  destruct (varint v) eqn:E; [by destruct (varint_nonempty _ E)|]. cbn [length] in *. lia.
Qed.

(** ** Reading a profile *)
Fixpoint get_v (k : Z) (fs : list (Z * Wire)) : option Z :=
  match fs with
  | [] => None
  | (k', WV n) :: r => if k =? k' then Some n else get_v k r
  | _ :: r => get_v k r
  end.
Fixpoint get_l (k : Z) (fs : list (Z * Wire)) : option (list Z) :=
  match fs with
  | [] => None
  | (k', WL d) :: r => if k =? k' then Some d else get_l k r
  | _ :: r => get_l k r
  end.
Fixpoint lookup_id (i : Z) (l : list (Z * Z)) : option Z :=
  match l with [] => None | (j, v) :: r => if i =? j then Some v else lookup_id i r end.

Definition read_function (f : Z * Wire) : option (Z * Z) :=
  match f with
  | (5, WL b) => fs ← decode_fields b; id ← get_v 1 fs; nm ← get_v 2 fs; Some (id, nm)
  | _ => None
  end.
Definition read_location (f : Z * Wire) : option (Z * Z) :=
  match f with
  | (4, WL b) => fs ← decode_fields b; id ← get_v 1 fs; ln ← get_l 4 fs;
                 lfs ← decode_fields ln; fid ← get_v 1 lfs; Some (id, fid)
  | _ => None
  end.
Definition read_sample (f : Z * Wire) : option (list Z * list Z) :=
  match f with
  | (2, WL b) => fs ← decode_fields b; st ← get_l 1 fs; vs ← get_l 2 fs;
                 stack ← decode_varints st; vals ← decode_varints vs; Some (stack, vals)
  | _ => None
  end.
Definition read_string (f : Z * Wire) : option (list Z) :=
  match f with (6, WL b) => Some b | _ => None end.

(** From a location id to the bytes of the function's name. *)
Definition resolve (fs : list (Z * Wire)) (loc : Z) : option (list Z) :=
  fid ← lookup_id loc (omap read_location fs);
  idx ← lookup_id fid (omap read_function fs);
  omap read_string fs !! Z.to_nat idx.

(** The stacks of a profile: the names from leaf to root, and the values. *)
Definition read_stacks (bytes : list Z) : option (list (list (list Z) * list Z)) :=
  fs ← decode_fields bytes;
  mapM (λ s, stack ← mapM (resolve fs) s.1; Some (stack, s.2)) (omap read_sample fs).

(** ** What should be read: the bars with self time and the names above them *)
Fixpoint name_stack (fb : Flamebearer) (bars : list (list Bar)) (d i : nat) : option (list string) :=
  row ← bars !! d; bar ← row !! i; n ← frame_name fb bar;
  match parent bar, d with
  | Some pi, S d' => ns ← name_stack fb bars d' pi; Some (n :: ns)
  | Some _, O => None
  | None, _ => Some [n]
  end.

Definition expected_sample (fb : Flamebearer) (bars : list (list Bar)) (scale : Z) (d i : nat) (b : Bar) :
    option (list (list (list Z) * list Z)) :=
  if self_ b <=? 0 then Some []
  else match name_stack fb bars d i with
       | Some ns => Some [(bytes_of <$> ns, [wrap_u64 (i64_mul (self_ b) scale)])]
       | None => None
       end.

Definition expected_stacks (fb : Flamebearer) : option (list (list (list Z) * list Z)) :=
  let bars := decode_levels fb in
  concat_opt (λ d row, concat_opt (λ i b, expected_sample fb bars (value_kind fb).1.2 d i b) 0 row) 0 bars.

(** ** The tables *)
Definition interner_ok (t : Interner) : Prop :=
  ∀ s i, in_idx t !! s = Some i → 0 ≤ i ∧ in_strings t !! Z.to_nat i = Some s.

Lemma intern_spec s t i t' :
  interner_ok t → intern s t = (i, t') →
  interner_ok t' ∧ 0 ≤ i ∧ in_strings t' !! Z.to_nat i = Some s ∧ in_strings t `prefix_of` in_strings t'.
Proof.
  intros Ht. unfold intern. destruct (in_idx t !! s) as [j|] eqn:Hj; intros [= <- <-].
  { destruct (Ht _ _ Hj). split_and!; try done. }
  assert (Hlast : (in_strings t ++ [s]) !! Z.to_nat (Z.of_nat (length (in_strings t))) = Some s).
  { rewrite Nat2Z.id, lookup_app_r, Nat.sub_diag by lia. done. }
  split_and!; simpl; [|lia|done|by apply prefix_app_r].
  intros s' i'. simpl. intros [[<- <-]|[Hne Hi]]%lookup_insert_Some; [split; [lia|done]|].
  destruct (Ht _ _ Hi) as [? Hl]. split; [done|]. by apply lookup_app_l_Some.
Qed.

Definition fun_field (i : nat) (idx : Z) : Z * Wire :=
  (5, WL (fields_bytes [(1, WV (Z.of_nat i + 1)); (2, WV idx); (4, WV idx)])).
Definition loc_field (i : nat) (idx : Z) : Z * Wire :=
  (4, WL (fields_bytes [(1, WV (Z.of_nat i + 1)); (4, WL (fields_bytes [(1, WV (Z.of_nat i + 1))]))])).

(** [order]: the frame names as first met; [idxs]: their string indices. *)
Record tables_inv (t : Tables) (order : list string) (idxs : list Z) : Prop := {
  ti_loc : ∀ n z, tb_loc t !! n = Some z ↔ ∃ i, order !! i = Some n ∧ z = Z.of_nat i + 1;
  ti_size : size (tb_loc t) = length order;
  ti_fun : tb_functions t = fields_bytes (imap fun_field idxs);
  ti_locs : tb_locations t = fields_bytes (imap loc_field idxs);
  ti_len : length idxs = length order;
  ti_str : interner_ok (tb_strings t);
  ti_idx : ∀ i n idx, order !! i = Some n → idxs !! i = Some idx →
             0 ≤ idx ∧ in_strings (tb_strings t) !! Z.to_nat idx = Some n
}.

Lemma add_frame_inv n t order idxs :
  tables_inv t order idxs → ∃ order' idxs', tables_inv (add_frame n t) order' idxs'.
Proof.
  intros [Hloc Hsize Hfun Hlocs Hlen Hstr Hidx]. unfold add_frame.
  destruct (tb_loc t !! n) as [z|] eqn:Hn; [by exists order, idxs|].
  destruct (intern n (tb_strings t)) as [idx st'] eqn:Hi.
  destruct (intern_spec _ _ _ _ Hstr Hi) as (Hok & Hpos & Hlk & Hpre).
  exists (order ++ [n]), (idxs ++ [idx]). constructor; simpl.
  - intros m z. rewrite lookup_insert_Some, Hloc. split.
    + intros [[<- <-]|[Hne (i & Hi' & ->)]].
      * exists (length order). rewrite lookup_app_r, Nat.sub_diag by lia. split; [done|lia].
      * exists i. split; [|done]. by apply lookup_app_l_Some.
    + intros (i & Hi' & ->). apply lookup_app_Some in Hi' as [Hi'|[Hge Hi']].
      * right. split; [|by exists i]. intros <-. assert (is_Some (tb_loc t !! n)) as [? ?]; [|congruence].
        exists (Z.of_nat i + 1). apply Hloc. by exists i.
      * left. destruct (i - length order)%nat eqn:Hd; [|done]. injection Hi' as <-. split; [done|lia].
  - rewrite map_size_insert_None by done. rewrite length_app. simpl. lia.
  - rewrite imap_app, fields_bytes_app, Hfun. f_equal. simpl. rewrite Nat.add_0_r, Hsize, <- Hlen.
    by rewrite fields_bytes_one; unfold fun_field; rewrite !fields_bytes_cons, app_nil_r.
  - rewrite imap_app, fields_bytes_app, Hlocs. f_equal. simpl. rewrite Nat.add_0_r, Hsize, <- Hlen.
    by rewrite fields_bytes_one; unfold loc_field; rewrite fields_bytes_cons, !fields_bytes_one.
  - rewrite !length_app. simpl. lia.
  - done.
  - intros i m j Hm Hj. apply lookup_app_Some in Hj as [Hj|[Hge Hj]].
    + rewrite lookup_app_l in Hm by (apply lookup_lt_Some in Hj; lia). destruct (Hidx i m j Hm Hj). split; [done|].
      by eapply prefix_lookup_Some.
    + destruct (i - length idxs)%nat eqn:Hd; [|done]. injection Hj as <-.
      rewrite lookup_app_r in Hm by lia. replace (i - length order)%nat with 0%nat in Hm by lia.
      injection Hm as <-. done.
Qed.

Lemma tables_fold_inv fb bars t :
  foldl (add_bar fb) (Some tables_new) bars = Some t → ∃ order idxs, tables_inv t order idxs.
Proof.
  assert (Hinit : ∃ order idxs, tables_inv tables_new order idxs).
  { exists [], []. constructor; simpl; try done.
    - intros n z. rewrite lookup_empty. split; [done|]. by intros (i & ? & _).
    - intros s i. unfold interner_new; simpl. intros [<- <-]%lookup_singleton_Some. done. }
  revert Hinit. generalize tables_new. induction bars as [|b bars IH]; intros t0 Hi; simpl; [by intros [= <-]|].
  destruct (frame_name fb b) as [n|]; simpl.
  - apply IH. destruct Hi as (o & ix & Hi). by eapply add_frame_inv.
  - intros H. exfalso. revert H. clear. induction bars as [|b bars IH]; simpl; done.
Qed.

(** ** Samples *)
Definition sample_field (r : list Z * list Z) : Z * Wire :=
  (2, WL (fields_bytes [(1, WL (mjoin (varint <$> r.1))); (2, WL (mjoin (varint <$> r.2)))])).

(** Location ids against the names they stand for. *)
Definition sample_rel (loc : gmap string Z) (r : list Z * list Z) (e : list (list Z) * list Z) : Prop :=
  r.2 = e.2 ∧ Forall (λ v, 0 ≤ v < u64_bound) r.2 ∧
  ∃ ns, e.1 = bytes_of <$> ns ∧ Forall2 (λ l n, loc !! n = Some l) r.1 ns.

Definition samples_rel (loc : gmap string Z) (bytes : list Z) (e : list (list (list Z) * list Z)) : Prop :=
  ∃ raws, bytes = fields_bytes (sample_field <$> raws) ∧ Forall2 (sample_rel loc) raws e.

Lemma samples_rel_app loc a b x y :
  samples_rel loc a x → samples_rel loc b y → samples_rel loc (a ++ b) (x ++ y).
Proof.
  intros (r1 & -> & H1) (r2 & -> & H2). exists (r1 ++ r2).
  rewrite fmap_app, fields_bytes_app. split; [done|]. by apply Forall2_app.
Qed.

Lemma concat_opt_rel {A B C} (R : list B → list C → Prop) (f : nat → A → option (list B)) (g : nat → A → option (list C)) :
  R [] [] → (∀ a b x y, R a x → R b y → R (a ++ b) (x ++ y)) →
  (∀ i a x, f i a = Some x → ∃ y, g i a = Some y ∧ R x y) →
  ∀ l i x, concat_opt f i l = Some x → ∃ y, concat_opt g i l = Some y ∧ R x y.
Proof.
  intros Hnil Happ Hfg l. induction l as [|a l IH]; intros i x; simpl; [intros [= <-]; eauto|].
  destruct (f i a) as [u|] eqn:Hf; simpl; [|done]. destruct (concat_opt f (S i) l) as [v|] eqn:Hc; simpl; [|done].
  intros [= <-]. destruct (Hfg _ _ _ Hf) as (u' & -> & Hu). destruct (IH _ _ Hc) as (v' & -> & Hv). simpl. eauto.
Qed.

Lemma stack_names fb bars loc d i ls :
  stack_of fb bars loc d i = Some ls →
  ∃ ns, name_stack fb bars d i = Some ns ∧ Forall2 (λ l n, loc !! n = Some l) ls ns.
Proof.
  revert i ls; induction d as [|d IH]; intros i ls; simpl;
    (destruct (bars !! _) as [row|]; simpl; [|done]); (destruct (row !! i) as [bar|]; simpl; [|done]);
    (destruct (frame_name fb bar) as [n|]; simpl; [|done]); (destruct (loc !! n) as [l|] eqn:Hl; simpl; [|done]);
    (destruct (parent bar) as [pi|]; [|intros [= <-]; eauto]); [done|].
  destruct (stack_of fb bars loc d pi) as [ls'|] eqn:Hs; simpl; [|done]. intros [= <-].
  destruct (IH _ _ Hs) as (ns & -> & Hf). simpl. eauto.
Qed.

Lemma wrap_u64_range z : 0 ≤ wrap_u64 z < u64_bound.
Proof. unfold wrap_u64, u64_bound. apply Z.mod_pos_bound. done. Qed.

Lemma sample_bytes_rel fb bars loc scale d i b x :
  sample_bytes fb bars loc scale d i b = Some x →
  ∃ y, expected_sample fb bars scale d i b = Some y ∧ samples_rel loc x y.
Proof.
  unfold sample_bytes, expected_sample. destruct (self_ b <=? 0).
  { intros [= <-]. exists []. split; [done|]. by exists []. }
  destruct (stack_of fb bars loc d i) as [ls|] eqn:Hs; simpl; [|done]. intros [= <-].
  destruct (stack_names _ _ _ _ _ _ Hs) as (ns & -> & Hf). eexists. split; [done|].
  exists [(ls, [wrap_u64 (i64_mul (self_ b) scale)])]. split.
  - rewrite fmap_cons, fmap_nil, fields_bytes_one. unfold sample_field. simpl.
    by rewrite fields_bytes_cons, fields_bytes_one.
  - repeat constructor; simpl; try done; try apply wrap_u64_range. by exists ns.
Qed.

(** ** Selecting fields *)
Lemma omap_none {A B} (f : A → option B) l : Forall (λ a, f a = None) l → omap f l = [].
Proof. induction 1 as [|a l Ha _ IH]; simpl; [done|]. by rewrite Ha. Qed.

Lemma omap_some {A B} (f : A → option B) l (k : list B) : Forall2 (λ a b, f a = Some b) l k → omap f l = k.
Proof. induction 1 as [|a b l k Ha _ IH]; simpl; [done|]. rewrite Ha. f_equal. exact IH. Qed.

Lemma Forall_imap {A B} (P : B → Prop) (g : nat → A → B) l :
  (∀ i a, l !! i = Some a → P (g i a)) → Forall P (imap g l).
Proof.
  intros Hg. apply Forall_lookup. intros i b. rewrite list_lookup_imap. intros (a & Ha & ->)%fmap_Some.
  by apply Hg.
Qed.

Lemma lookup_id_imap (v : nat → Z → Z) (l : list Z) o k :
  (o ≤ k)%nat →
  lookup_id (Z.of_nat k + 1) (imap (λ i x, (Z.of_nat (o + i) + 1, v (o + i)%nat x)) l) =
  v k <$> l !! (k - o)%nat.
Proof.
  revert o; induction l as [|x l IH]; intros o Ho; simpl; [by destruct (k - o)%nat|].
  rewrite Nat.add_0_r. destruct (Z.eqb_spec (Z.of_nat k + 1) (Z.of_nat o + 1)) as [He|He].
  { assert (k = o) as -> by lia. by rewrite Nat.sub_diag. }
  rewrite (imap_ext _ (λ i x, (Z.of_nat (S o + i) + 1, v (S o + i)%nat x))).
  2: { intros i y _. simpl. by rewrite Nat.add_succ_r. }
  rewrite IH by lia. replace (k - o)%nat with (S (k - S o)) by lia. done.
Qed.

Lemma data_length k d fs : (k, WL d) ∈ fs → (length d ≤ length (fields_bytes fs))%nat.
Proof.
  induction fs as [|x fs IH]; [by intros ?%elem_of_nil|]. rewrite fields_bytes_cons, length_app.
  intros [<-|Hin]%elem_of_cons; [|specialize (IH Hin); lia]. simpl. unfold lfield. rewrite !length_app. lia.
Qed.

(** Fields whose numbers fit, in a message whose length fits. *)
Definition weak_ok (f : Z * Wire) : Prop :=
  0 ≤ f.1 < 1024 ∧ match f.2 with WV n => 0 ≤ n < u64_bound | WL _ => True end.

Lemma fields_fit fs :
  Z.of_nat (length (fields_bytes fs)) < u64_bound → Forall weak_ok fs → Forall field_ok fs.
Proof.
  intros Hlen Hf. rewrite Forall_forall in Hf. apply Forall_forall. intros [k w] Hin.
  destruct (Hf _ Hin) as [H1 H2]. split; [done|]. destruct w as [n|d]; simpl in *; [done|].
  pose proof (data_length _ _ _ Hin). lia.
Qed.

(** ** The whole profile *)
Section Profile.
Context (vt : list Z) (period : Z) (raws : list (list Z * list Z)) (idxs : list Z) (strings : list string).

Definition string_field (s : string) : Z * Wire := (6, WL (bytes_of s)).
Definition profile_fields : list (Z * Wire) :=
  [(1, WL vt)] ++ (sample_field <$> raws) ++ imap fun_field idxs ++ imap loc_field idxs ++
  [(11, WL vt); (12, WV period)] ++ (string_field <$> strings).

Context (Hlen : Z.of_nat (length (fields_bytes profile_fields)) < u64_bound).
Context (Hper : 0 ≤ period < u64_bound).
Context (Hraws : Forall (λ r, Forall (λ v, 0 ≤ v < u64_bound) r.1 ∧ Forall (λ v, 0 ≤ v < u64_bound) r.2) raws).
Context (Hidx : Forall (λ i, 0 ≤ i < u64_bound) idxs).

Lemma profile_ok : Forall field_ok profile_fields.
Proof.
  apply fields_fit; [done|]. unfold profile_fields. rewrite !Forall_app, !Forall_cons, !Forall_nil, !Forall_fmap.
  assert (Hk : ∀ k d, 0 ≤ k < 1024 → weak_ok (k, WL d)) by done.
  split_and!; try (by apply Forall_imap; intros; apply Hk); try (by apply Forall_true; intros; apply Hk);
    try (by apply Hk); done.
Qed.

(** Every nested message reads back. *)
Lemma nested_decode k fs :
  (k, WL (fields_bytes fs)) ∈ profile_fields → Forall weak_ok fs → decode_fields (fields_bytes fs) = Some fs.
Proof.
  intros Hin Hf. apply decode_fields_bytes, fields_fit; [|done]. pose proof (data_length _ _ _ Hin). lia.
Qed.

Lemma idxs_length : Z.of_nat (length idxs) < u64_bound.
Proof.
  pose proof (fields_bytes_length profile_fields). unfold profile_fields in H at 1.
  rewrite !length_app, length_imap in H. lia.
Qed.

Lemma lookup_idx_range i idx : idxs !! i = Some idx → 0 ≤ idx < u64_bound ∧ 0 ≤ Z.of_nat i + 1 < u64_bound.
Proof.
  intros Hi. rewrite Forall_forall in Hidx. split; [apply Hidx; by eapply list_elem_of_lookup_2|].
  apply lookup_lt_Some in Hi. pose proof idxs_length. lia.
Qed.

(** A selector keeps one segment of the profile. *)
Lemma select {B} (f : Z * Wire → option B) :
  f (1, WL vt) = None → f (11, WL vt) = None → f (12, WV period) = None →
  omap f profile_fields =
    omap f (sample_field <$> raws) ++ omap f (imap fun_field idxs) ++ omap f (imap loc_field idxs) ++
    omap f (string_field <$> strings).
Proof.
  intros H1 H2 H3. unfold profile_fields. rewrite !omap_app.
  change (omap f [(1, WL vt)]) with (match f (1, WL vt) with Some b => [b] | None => [] end).
  change (omap f [(11, WL vt); (12, WV period)]) with
    (match f (11, WL vt) with
     | Some b => b :: match f (12, WV period) with Some b => [b] | None => [] end
     | None => match f (12, WV period) with Some b => [b] | None => [] end
     end).
  by rewrite H1, H2, H3.
Qed.

Lemma imap_member {A B} (g : nat → A → B) l i a : l !! i = Some a → g i a ∈ imap g l.
Proof. intros Hi. apply list_elem_of_lookup. exists i. by rewrite list_lookup_imap, Hi. Qed.

Lemma profile_functions : omap read_function profile_fields = imap (λ i x, (Z.of_nat i + 1, x)) idxs.
Proof.
  rewrite select by done. rewrite (omap_none _ (sample_field <$> raws)) by (by apply Forall_fmap, Forall_true).
  rewrite (omap_none _ (imap loc_field idxs)) by (by apply Forall_imap).
  rewrite (omap_none _ (string_field <$> strings)) by (by apply Forall_fmap, Forall_true).
  rewrite !app_nil_r. simpl. apply omap_some, Forall2_lookup. intros i. rewrite !list_lookup_imap.
  destruct (idxs !! i) as [idx|] eqn:Hi; simpl; constructor. destruct (lookup_idx_range _ _ Hi).
  unfold read_function, fun_field. erewrite nested_decode; [done| |].
  - unfold profile_fields. rewrite !elem_of_app. right; right; left. by eapply (imap_member fun_field).
  - rewrite !Forall_cons, Forall_nil. unfold weak_ok; simpl. split_and!; done || lia.
Qed.

Lemma profile_locations : omap read_location profile_fields = imap (λ i x, (Z.of_nat i + 1, Z.of_nat i + 1)) idxs.
Proof.
  rewrite select by done. rewrite (omap_none _ (sample_field <$> raws)) by (by apply Forall_fmap, Forall_true).
  rewrite (omap_none _ (imap fun_field idxs)) by (by apply Forall_imap).
  rewrite (omap_none _ (string_field <$> strings)) by (by apply Forall_fmap, Forall_true).
  rewrite !app_nil_r. simpl. apply omap_some, Forall2_lookup. intros i. rewrite !list_lookup_imap.
  destruct (idxs !! i) as [idx|] eqn:Hi; simpl; constructor. destruct (lookup_idx_range _ _ Hi).
  unfold read_location, loc_field. erewrite nested_decode.
  - simpl. rewrite decode_fields_bytes; [done|].
    rewrite Forall_cons, Forall_nil. unfold field_ok; simpl. split_and!; done || lia.
  - unfold profile_fields. rewrite !elem_of_app. right; right; right; left. by apply (imap_member loc_field idxs i idx).
  - rewrite !Forall_cons, Forall_nil. unfold weak_ok; simpl. split_and!; done || lia.
Qed.

Lemma profile_strings : omap read_string profile_fields = bytes_of <$> strings.
Proof.
  rewrite select by done. rewrite (omap_none _ (sample_field <$> raws)) by (by apply Forall_fmap, Forall_true).
  rewrite (omap_none _ (imap fun_field idxs)) by (by apply Forall_imap).
  rewrite (omap_none _ (imap loc_field idxs)) by (by apply Forall_imap).
  simpl. apply omap_some, Forall2_fmap_l, Forall2_fmap_r, Forall_Forall2_diag, Forall_true. done.
Qed.

Lemma profile_samples : omap read_sample profile_fields = raws.
Proof.
  rewrite select by done.
  rewrite (omap_none _ (imap fun_field idxs)) by (by apply Forall_imap).
  rewrite (omap_none _ (imap loc_field idxs)) by (by apply Forall_imap).
  rewrite (omap_none _ (string_field <$> strings)) by (by apply Forall_fmap, Forall_true).
  rewrite !app_nil_r. apply omap_some, Forall2_fmap_l, Forall_Forall2_diag.
  apply Forall_forall. intros [st vs] Hin. rewrite Forall_forall in Hraws. destruct (Hraws _ Hin) as [H1 H2].
  change (read_sample (sample_field (st, vs)) = Some (st, vs)).
  unfold read_sample, sample_field. cbn [fst snd]. erewrite nested_decode.
  - simpl. simpl in H1, H2. by rewrite !decode_varints_packed by done.
  - unfold profile_fields. rewrite !elem_of_app. right; left. by apply (list_elem_of_fmap_2 sample_field) in Hin.
  - rewrite !Forall_cons, Forall_nil. unfold weak_ok; simpl. split_and!; done || lia.
Qed.

Lemma profile_resolve i idx s :
  idxs !! i = Some idx → strings !! Z.to_nat idx = Some s →
  resolve profile_fields (Z.of_nat i + 1) = Some (bytes_of s).
Proof.
  intros Hi Hs. unfold resolve. rewrite profile_functions, profile_locations, profile_strings.
  pose proof (lookup_id_imap (λ i _, Z.of_nat i + 1) idxs 0 i ltac:(lia)) as Hl. simpl in Hl.
  rewrite Nat.sub_0_r, Hi in Hl. rewrite Hl. simpl.
  pose proof (lookup_id_imap (λ _ x, x) idxs 0 i ltac:(lia)) as Hf. simpl in Hf.
  rewrite Nat.sub_0_r, Hi in Hf. rewrite Hf. simpl. by rewrite list_lookup_fmap, Hs.
Qed.
End Profile.

(** What [to_pprof] writes, field by field. *)
Lemma to_pprof_fields fb bytes :
  to_pprof fb = Some bytes →
  ∃ vt period raws order idxs strings exp,
    bytes = fields_bytes (profile_fields vt period raws idxs strings) ∧ 0 ≤ period < u64_bound ∧
    expected_stacks fb = Some exp ∧ length idxs = length order ∧
    (∀ i n idx, order !! i = Some n → idxs !! i = Some idx → 0 ≤ idx ∧ strings !! Z.to_nat idx = Some n) ∧
    Forall2 (λ r e, r.2 = e.2 ∧ Forall (λ v, 0 ≤ v < u64_bound) r.2 ∧
      ∃ ns, e.1 = bytes_of <$> ns ∧ Forall2 (λ l n, ∃ i, order !! i = Some n ∧ l = Z.of_nat i + 1) r.1 ns) raws exp.
Proof.
  unfold to_pprof, expected_stacks. destruct (value_kind fb) as [[[ty un] scale] period] eqn:Hvk.
  assert (Hper : 0 ≤ period < u64_bound).
  { unfold value_kind in Hvk. case_match; simplify_eq; [apply wrap_u64_range|done]. }
  destruct (foldl (add_bar fb) (Some tables_new) (mjoin (decode_levels fb))) as [t|] eqn:Ht; cbn [mbind option_bind]; [|done].
  destruct (tables_fold_inv _ _ _ Ht) as (order & idxs & [Hloc Hsize Hfun Hlocs Hlen Hstr Hidx]).
  destruct (concat_opt _ 0 (decode_levels fb)) as [samples|] eqn:Hs; cbn [mbind option_bind]; [|done].
  destruct (intern ty (tb_strings t)) as [tyi s1] eqn:H1. destruct (intern un s1) as [uni s2] eqn:H2.
  destruct (intern_spec _ _ _ _ Hstr H1) as (Hs1 & _ & _ & Hp1).
  destruct (intern_spec _ _ _ _ Hs1 H2) as (_ & _ & _ & Hp2).
  intros Hb. apply (inj Some) in Hb. subst bytes.
  destruct (concat_opt_rel (samples_rel (tb_loc t)) _
    (λ d row, concat_opt (λ i b, expected_sample fb (decode_levels fb) scale d i b) 0 row)
    ltac:(by exists []) ltac:(by intros; apply samples_rel_app)
    ltac:(intros d row x; apply concat_opt_rel; [by exists []|by intros; apply samples_rel_app|];
          intros i b y; apply sample_bytes_rel) _ _ _ Hs) as (exp & Hexp & raws & -> & Hrel).
  exists (vfield 1 tyi ++ vfield 2 uni), period, raws, order, idxs, (in_strings s2), exp. split_and!; try (done || lia).
  - unfold profile_fields. rewrite !fields_bytes_app, !fields_bytes_cons, <- Hfun, <- Hlocs.
    change (fields_bytes []) with (@nil Z). rewrite !app_nil_r, <- !app_assoc. do 6 f_equal.
    unfold fields_bytes. by rewrite <- list_fmap_compose.
  - intros i n idx Hn Hi. destruct (Hidx i n idx Hn Hi) as [? Hl]. split; [done|].
    eapply prefix_lookup_Some; [|done]. by eapply prefix_lookup_Some.
  - eapply Forall2_impl; [exact Hrel|]. intros r e (Hr & Hv & ns & Hns & Hf). split_and!; [done|done|].
    exists ns. split; [done|]. eapply Forall2_impl; [exact Hf|]. intros l n. apply Hloc.
Qed.

(** ** Bars and their parents *)

(** Non-negative offsets and widths whose sum stays in range. *)
Fixpoint row_fits (x : Z) (lvl : list Z) : Prop :=
  match lvl with
  | off :: total :: _ :: _ :: rest =>
      0 ≤ off ∧ 0 ≤ total ∧ x + off + total ≤ i64_max ∧ row_fits (x + off + total) rest
  | _ => True
  end.

Definition ordered (bars : list Bar) : Prop :=
  (∀ a, a ∈ bars → x0 a ≤ x1 a) ∧
  ∀ i j a b, (i < j)%nat → bars !! i = Some a → bars !! j = Some b → x1 a ≤ x0 b.

Lemma ordered_cons a l : x0 a ≤ x1 a → (∀ b, b ∈ l → x1 a ≤ x0 b) → ordered l → ordered (a :: l).
Proof.
  intros Ha Hl [H1 H2]. split.
  - intros b [->|Hb]%elem_of_cons; auto.
  - intros [|i] [|j] b c Hij; simpl; try lia.
    + intros [= <-] Hc. apply Hl. by eapply list_elem_of_lookup_2.
    + intros Hb Hc. apply (H2 i j); [lia|done..].
Qed.

Lemma wrap_i64_id z : in_i64 z → wrap_i64 z = z.
Proof. unfold in_i64, i64_min, i64_max, wrap_i64. intros Hz. rewrite Z.mod_small by lia. lia. Qed.

Lemma decode_row_ordered x lvl :
  0 ≤ x ≤ i64_max → row_fits x lvl →
  ordered (decode_row x lvl) ∧ ∀ b, b ∈ decode_row x lvl → x ≤ x0 b ∧ parent b = None.
Proof.
  remember (length lvl) as n eqn:Hn. revert x lvl Hn. induction (Nat.lt_wf_0 n) as [n _ IH]; intros x lvl Hn Hx Hf.
  assert (Hnil : ordered [] ∧ ∀ b : Bar, b ∈ [] → x ≤ x0 b ∧ parent b = None).
  { split; [split|]; [by intros ? ?%elem_of_nil|done|by intros ? ?%elem_of_nil]. }
  destruct lvl as [|off [|total [|slf [|nm rest]]]]; try exact Hnil.
  simpl in Hf. destruct Hf as (Ho & Ht & Hm & Hf). simpl.
  assert (i64_add x off = x + off) as -> by (apply wrap_i64_id; unfold in_i64, i64_min in *; lia).
  assert (i64_add (x + off) total = x + off + total) as -> by (apply wrap_i64_id; unfold in_i64, i64_min in *; lia).
  destruct (IH (length rest) ltac:(simpl in Hn; lia) (x + off + total) rest eq_refl ltac:(lia) Hf) as [Hord Hall].
  split.
  - apply ordered_cons; simpl; [lia| |done]. intros b Hb. by apply Hall.
  - intros b [->|Hb]%elem_of_cons; simpl; [split; [lia|done]|]. destruct (Hall b Hb). split; [lia|done].
Qed.

Lemma skip_spec fuel pi parents x :
  (length parents ≤ pi + fuel)%nat →
  let j := skip_parents fuel pi parents x in
  (pi ≤ j)%nat ∧ (∀ k p, (pi ≤ k < j)%nat → parents !! k = Some p → x1 p ≤ x) ∧
  (∀ p, parents !! j = Some p → x < x1 p).
Proof.
  revert pi; induction fuel as [|fuel IH]; intros pi Hl; simpl.
  - split_and!; [lia|lia|]. intros p Hp%lookup_lt_Some. lia.
  - destruct (parents !! pi) as [p|] eqn:Hp; [|split_and!; [lia|lia|congruence]].
    destruct (Z.leb_spec (x1 p) x) as [Hle|Hgt]; [|split_and!; [lia|lia|congruence]].
    destruct (IH (S pi) ltac:(lia)) as (H1 & H2 & H3). split_and!; [lia| |done].
    intros k q Hk Hq. destruct (decide (k = pi)) as [->|]; [congruence|]. apply (H2 k); [lia|done].
Qed.

(** [bar] lies in the [q]-th of [parents] and starts before its end. *)
Definition inside (parents : list Bar) (bar : Bar) (q : nat) : Prop :=
  ∃ p, parents !! q = Some p ∧ x0 p ≤ x0 bar ∧ x1 bar ≤ x1 p ∧ x0 bar < x1 p.

Lemma link_spec parents pi bars i bar :
  ordered parents → ordered bars → (∀ b, b ∈ bars → parent b = None) →
  (∀ k p b, (k < pi)%nat → parents !! k = Some p → b ∈ bars → x1 p ≤ x0 b) →
  bars !! i = Some bar →
  ∃ bar', link_parents parents pi bars !! i = Some bar' ∧ set_parent bar' None = bar ∧
    ∀ q, parent bar' = Some q ↔ inside parents bar q.
Proof.
  intros [Hp1 Hp2]. revert pi i. induction bars as [|b bars IH]; intros pi i [Hb1 Hb2] Hnone Hpi Hi; [done|].
  simpl. destruct (skip_spec (length parents) pi parents (x0 b) ltac:(lia)) as (Hj1 & Hj2 & Hj3).
  set (j := skip_parents _ _ _ _) in *.
  assert (Hbefore : ∀ k p, (k < j)%nat → parents !! k = Some p → x1 p ≤ x0 b).
  { intros k p Hk Hp. destruct (decide (k < pi)%nat); [apply (Hpi k); [done|done|by left]|apply (Hj2 k); [lia|done]]. }
  destruct i as [|i]; simpl in Hi |- *.
  - injection Hi as ->. specialize (Hnone bar ltac:(by left)). eexists. split; [done|].
    assert (Huniq : ∀ q, inside parents bar q → q = j).
    { intros q (p & Hq & Hx & _ & Hlt). destruct (lt_eq_lt_dec q j) as [[Hlt'| ->]|Hgt]; [|done|].
      - pose proof (Hbefore q p Hlt' Hq). lia.
      - destruct (lookup_lt_is_Some_2 parents j) as [p' Hp']; [apply lookup_lt_Some in Hq; lia|].
        pose proof (Hj3 _ Hp'). pose proof (Hp2 j q p' p Hgt Hp' Hq). lia. }
    destruct bar as [bx0 bx1 bs bn bp]; simpl in *. subst bp.
    destruct (parents !! j) as [p|] eqn:Hpj.
    + destruct (_ && _) eqn:Hc; bools; simpl; (split; [done|]); intros q; split.
      * intros [= <-]. exists p. split_and!; try done. by apply Hj3.
      * intros Hq. f_equal. symmetry. by apply Huniq.
      * done.
      * intros Hq. pose proof (Huniq q Hq) as ->. destruct Hq as (p' & Hp' & Hx & Hy & _).
        rewrite Hpj in Hp'. injection Hp' as <-. simpl in Hx, Hy.
        rewrite (proj2 (Z.leb_le _ _) Hx), (proj2 (Z.leb_le _ _) Hy) in Hc. done.
    + split; [done|]. intros q; simpl; split; [done|]. intros Hq. pose proof (Huniq q Hq) as ->.
      destruct Hq as (p' & Hp' & _). congruence.
  - apply IH; [| |intros k p c Hk Hp Hc|done].
    + split; [intros a Ha; apply Hb1; by right|]. intros i1 i2 a c Hlt Ha Hc.
      apply (Hb2 (S i1) (S i2)); [lia|done|done].
    + intros c Hc. apply Hnone. by right.
    + apply list_elem_of_lookup in Hc as (m & Hm). pose proof (Hb2 0%nat (S m) b c ltac:(lia) eq_refl Hm).
      pose proof (Hb1 b ltac:(by left)). pose proof (Hbefore k p Hk Hp). lia.
Qed.

Lemma link_length parents pi bars : length (link_parents parents pi bars) = length bars.
Proof. revert pi; induction bars as [|b bars IH]; intros pi; simpl; [done|]. by rewrite IH. Qed.

Lemma inside_set_parent parents bar o q : inside parents (set_parent bar o) q ↔ inside parents bar q.
Proof. done. Qed.

(** Linking a row keeps its order and gives each bar the parent that contains it. *)
Lemma link_row parents row :
  ordered parents → ordered row → (∀ b, b ∈ row → parent b = None) →
  ordered (link_parents parents 0 row) ∧
  ∀ i bar', link_parents parents 0 row !! i = Some bar' → ∀ q, parent bar' = Some q ↔ inside parents bar' q.
Proof.
  intros Hp Hr Hn.
  assert (Hback : ∀ i bar', link_parents parents 0 row !! i = Some bar' →
    ∃ bar, row !! i = Some bar ∧ set_parent bar' None = bar ∧ ∀ q, parent bar' = Some q ↔ inside parents bar' q).
  { intros i bar' Hi. destruct (lookup_lt_is_Some_2 row i) as [bar Hbar].
    { apply lookup_lt_Some in Hi. by rewrite link_length in Hi. }
    destruct (link_spec parents 0 row i bar Hp Hr Hn ltac:(lia) Hbar) as (b' & Hb' & Hs & Hq).
    rewrite Hb' in Hi. injection Hi as <-. exists bar. split_and!; [done|done|]. intros q. rewrite Hq, <- Hs. done. }
  split; [|intros i bar' Hi; by destruct (Hback i bar' Hi) as (_ & _ & _ & ?)]. destruct Hr as [Hr1 Hr2]. split.
  - intros a (i & Hi)%list_elem_of_lookup. destruct (Hback i a Hi) as (bar & Hb & <- & _).
    apply (Hr1 (set_parent a None)). by eapply list_elem_of_lookup_2.
  - intros i j a b Hij Ha Hb. destruct (Hback i a Ha) as (a' & Ha' & <- & _), (Hback j b Hb) as (b' & Hb' & <- & _).
    by apply (Hr2 i j _ _ Hij Ha' Hb').
Qed.

Lemma link_levels_spec rows prev d row :
  Forall (λ r, ordered r ∧ ∀ b, b ∈ r → parent b = None) rows → (∀ ps, prev = Some ps → ordered ps) →
  link_levels prev rows !! d = Some row →
  match d with O => prev | S d' => link_levels prev rows !! d' end = None ∧ (∀ b, b ∈ row → parent b = None) ∨
  ∃ ps, match d with O => prev | S d' => link_levels prev rows !! d' end = Some ps ∧
    ∀ bar, bar ∈ row → ∀ q, parent bar = Some q ↔ inside ps bar q.
Proof.
  revert prev d; induction rows as [|r rows IH]; intros prev d Hall Hprev Hd; [done|].
  inversion Hall as [|? ? [Ho Hn] Hrest]; subst. simpl in *.
  set (r' := match prev with Some parents => link_parents parents 0 r | None => r end) in *.
  assert (Hr' : ordered r').
  { unfold r'. destruct prev as [ps|]; [|done]. apply link_row; [by apply Hprev|done|done]. }
  destruct d as [|d]; simpl in Hd.
  - injection Hd as <-. destruct prev as [ps|]; [right|left; done]. exists ps. split; [done|].
    intros bar (i & Hi)%list_elem_of_lookup. destruct (link_row ps r (Hprev _ eq_refl) Ho Hn) as [_ Hl]. by apply (Hl i).
  - destruct (IH (Some r') d Hrest ltac:(by intros ps [= <-]) Hd) as [[Hc Hb]|(ps & Hc & Hb)].
    + destruct d; simpl in Hc; [done|]. left. done.
    + right. exists ps. split; [|done]. by destruct d.
Qed.

(** A bar's parent is the bar above that contains it.  For a document whose
    offsets and widths are non-negative and stay within an [i64], the parent the
    single forward cursor assigns is exactly the one bar of the level above whose
    range contains the bar's and reaches past its start; the bars of the first
    level have none. *)
Theorem bar_parent fb d i row bar :
  Forall (row_fits 0) (levels fb) →
  decode_levels fb !! d = Some row → row !! i = Some bar →
  match d with
  | O => parent bar = None
  | S d' => ∃ above, decode_levels fb !! d' = Some above ∧ ∀ q, parent bar = Some q ↔ inside above bar q
  end.
Proof.
  intros Hf Hd Hi. apply list_elem_of_lookup_2 in Hi. unfold decode_levels in *.
  assert (Hall : Forall (λ r, ordered r ∧ ∀ b, b ∈ r → parent b = None) (decode_row 0 <$> levels fb)).
  { apply Forall_fmap. eapply Forall_impl; [exact Hf|]. intros lvl Hl.
    destruct (decode_row_ordered 0 lvl ltac:(unfold i64_max; lia) Hl) as [Ho Hp]. split; [done|].
    intros b Hb. by apply Hp. }
  destruct (link_levels_spec _ None d row Hall ltac:(done) Hd) as [[Hc Hb]|(ps & Hc & Hb)].
  - destruct d; [by apply Hb|]. exfalso. apply lookup_ge_None in Hc. apply lookup_lt_Some in Hd. lia.
  - destruct d; [done|]. exists ps. split; [done|]. by apply Hb.
Qed.

(** C39: the pprof profile reads back as the flame graph.  Whatever the document,
    when [to_pprof] produces bytes (shorter than 2^64), a protobuf reader that
    resolves locations to functions to the string table finds exactly one sample
    per bar with self time, in order, with the names of the bar and of its
    ancestors from leaf to root and the scaled self time. *)
Theorem pprof_roundtrip fb bytes :
  to_pprof fb = Some bytes → Z.of_nat (length bytes) < u64_bound →
  ∃ exp, expected_stacks fb = Some exp ∧ read_stacks bytes = Some exp.
Proof.
  intros Hb Hlen.
  destruct (to_pprof_fields _ _ Hb) as (vt & period & raws & order & idxs & strings & exp & -> & Hper & Hexp & Hlo & Hidx & Hrel).
  exists exp. split; [done|].
  pose proof (fields_bytes_length (profile_fields vt period raws idxs strings)) as Hfl.
  unfold profile_fields in Hfl at 1. rewrite !length_app, length_imap, !length_fmap in Hfl.
  assert (Hi : Forall (λ i, 0 ≤ i < u64_bound) idxs).
  { apply Forall_lookup. intros i idx Hx. destruct (lookup_lt_is_Some_2 order i) as [n Hn].
    { apply lookup_lt_Some in Hx. lia. }
    destruct (Hidx i n idx Hn Hx) as [? Hs%lookup_lt_Some]. lia. }
  assert (Hr : Forall (λ r, Forall (λ v, 0 ≤ v < u64_bound) r.1 ∧ Forall (λ v, 0 ≤ v < u64_bound) r.2) raws).
  { eapply Forall2_Forall_l; [exact Hrel|]. apply Forall_true. intros e r (_ & Hv & ns & _ & Hf). split; [|done].
    eapply Forall2_Forall_l; [exact Hf|]. apply Forall_true. intros n l (i & Ho%lookup_lt_Some & ->). lia. }
  unfold read_stacks. rewrite decode_fields_bytes by (by apply profile_ok). cbn [mbind option_bind].
  rewrite profile_samples by done. apply mapM_Some. eapply Forall2_impl; [exact Hrel|].
  intros r [nms vs] (Hv & _ & ns & Hns & Hf). simpl in *. subst nms vs.
  assert (mapM (resolve (profile_fields vt period raws idxs strings)) r.1 = Some (bytes_of <$> ns)) as ->; [|done].
  apply mapM_Some, Forall2_fmap_r. eapply Forall2_impl; [exact Hf|]. intros l n (i & Ho & ->).
  destruct (lookup_lt_is_Some_2 idxs i) as [idx Hx]; [apply lookup_lt_Some in Ho; lia|].
  destruct (Hidx i n idx Ho Hx). by eapply profile_resolve.
Qed.

(** ** The gate *)
Lemma top_names_dom frames top n : n ∈ top_names frames top → is_Some (frames !! n).
Proof.
  unfold top_names. intros (x & -> & Hx)%list_elem_of_fmap. apply elem_of_take in Hx as (i & Hi & _).
  apply list_elem_of_lookup_2 in Hi. rewrite merge_sort_Permutation in Hi. destruct x as [k v].
  apply elem_of_map_to_list in Hi. eauto.
Qed.

Lemma diff_rows current baseline th top mb fl r :
  r ∈ diff current baseline th top mb fl ↔
  ∃ n, (n ∈ top_names baseline top ∨ n ∈ top_names current top) ∧ r = diff_row current baseline th mb fl n.
Proof.
  unfold diff, sorted_strings. rewrite merge_sort_Permutation, list_elem_of_fmap. setoid_rewrite merge_sort_Permutation.
  setoid_rewrite elem_of_elements. setoid_rewrite elem_of_union. setoid_rewrite elem_of_list_to_set. naive_solver.
Qed.

(** The values of a file: finite or infinite floats, as JSON numbers are. *)
Definition values_ok (m : gmap string spec_float) : Prop :=
  ∀ n v, m !! n = Some v → valid_binary prec emax v = true.

Lemma value_ok m n : values_ok m → valid_binary prec emax (default zero (m !! n)) = true.
Proof. intros Hm. destruct (m !! n) as [v|] eqn:Hv; [by apply (Hm n)|done]. Qed.

Lemma improvement_row current baseline th mb fl n :
  values_ok current → values_ok baseline → SFleb zero th = true → SFltb zero mb = true → SFleb mb fl = true →
  SFleb (default zero (current !! n)) (default zero (baseline !! n)) = true →
  regressed (diff_row current baseline th mb fl n) = false.
Proof.
  intros Hc Hb Hth Hmb Hfl Hle. unfold diff_row, f64_ge.
  destruct (SFleb mb (default zero (baseline !! n))) eqn:Hbase; simpl.
  - apply rel_change_not_over; try done; [by apply value_ok|by apply value_ok|by eapply pos_of_lt].
  - destruct (SFleb fl (default zero (current !! n))) eqn:Hcur; [|done].
    exfalso. rewrite (SFleb_trans mb (default zero (current !! n))) in Hbase; [done| |done].
    by eapply SFleb_trans.
Qed.

(** The gate is fair and watchful.  With a threshold that is not negative
    and a new-frame floor not below the positive noise floor (as the defaults
    are), files in which no frame grew pass with exit code 0; and a frame among
    either side's hottest that grew past the threshold, or appeared at the floor,
    fails it with exit code 1 whatever the other frames do.  Unreadable input is
    exit code 2. *)
Theorem gate_verdict read parse write cur_path base_path th top mb fl output current baseline :
  load_frames read parse cur_path = Ok current → load_frames read parse base_path = Ok baseline →
  write_opt write output = Ok tt → values_ok current → values_ok baseline →
  SFleb zero th = true → SFltb zero mb = true → SFleb mb fl = true →
  let code := exit_code (cmd_gate read parse write cur_path base_path th top mb fl output) in
  let pct m n := default zero (m !! n : option spec_float) in
  ((∀ n, SFleb (pct current n) (pct baseline n) = true) → code = 0) ∧
  (∀ n, n ∈ top_names baseline top ∨ n ∈ top_names current top →
     (if f64_ge (pct baseline n) mb
      then f64_lt th (f64_div (f64_sub (pct current n) (pct baseline n)) (pct baseline n))
      else f64_ge (pct current n) fl) = true → code = 1) ∧
  (∀ other, is_ok (load_frames read parse other) = false →
     exit_code (cmd_gate read parse write cur_path other th top mb fl output) = 2 ∧
     exit_code (cmd_gate read parse write other base_path th top mb fl output) = 2).
Proof.
  intros Hcl Hbl Hw Hc Hb Hth Hmb Hfl code pct.
  assert (Hcode : code = if existsb regressed (diff current baseline th top mb fl) then 1 else 0).
  { unfold code, cmd_gate. rewrite Hcl, Hbl. simpl. rewrite Hw. simpl. by destruct (existsb _ _). }
  split_and!.
  - intros Hall. rewrite Hcode. destruct (existsb _ _) eqn:He; [|done].
    apply existsb_exists in He as (r & Hr & Hreg). apply list_elem_of_In, diff_rows in Hr as (n & _ & ->).
    rewrite improvement_row in Hreg; try done. apply Hall.
  - intros n Hn Hover. rewrite Hcode. assert (existsb regressed (diff current baseline th top mb fl) = true) as ->; [|done].
    apply existsb_exists. exists (diff_row current baseline th mb fl n). split.
    + apply list_elem_of_In, diff_rows. eauto.
    + unfold diff_row. fold (pct baseline n) (pct current n). destruct (f64_ge (pct baseline n) mb); [done|].
      by rewrite Hover.
  - intros other Ho. destruct (load_frames read parse other) as [?|e] eqn:Hl; [done|].
    unfold cmd_gate. rewrite Hcl, Hl. done.
Qed.

(** ** The three claims at concrete inputs *)

(** Two functions under a root: [main] 60 samples, [compute] 40. *)
Definition demo_flame : Flamebearer :=
  mkFlame ["total"; "main"; "compute"]%string [[0; 100; 0; 0]; [0; 60; 60; 1; 0; 40; 40; 2]] 100 100 "samples".

Lemma bar_parent_witness :
  ∃ above, decode_levels demo_flame !! 0%nat = Some above ∧
    ∀ q, Some 0%nat = Some q ↔ inside above (mkBar 60 100 40 2 (Some 0%nat)) q.
Proof.
  apply (bar_parent demo_flame 1 1 [mkBar 0 60 60 1 (Some 0%nat); mkBar 60 100 40 2 (Some 0%nat)]
           (mkBar 60 100 40 2 (Some 0%nat))).
  - repeat constructor; vm_compute; congruence.
  - vm_compute. reflexivity.
  - reflexivity.
Defined.

Lemma pprof_roundtrip_witness :
  ∃ bytes exp, to_pprof demo_flame = Some bytes ∧ expected_stacks demo_flame = Some exp ∧ read_stacks bytes = Some exp.
Proof.
  destruct (to_pprof demo_flame) as [bytes|] eqn:Hb; [|exfalso; vm_compute in Hb; discriminate Hb].
  destruct (pprof_roundtrip demo_flame bytes Hb) as (exp & He & Hr).
  - vm_compute in Hb. injection Hb as <-. vm_compute. reflexivity.
  - exists bytes, exp. auto.
Defined.

(** One frame, at 10% in the baseline and at 12% now: a relative change of 0.2
    against the 0.1 allowed. *)
Definition demo_frames (pct : Z) : json :=
  JArr [JObj [("name"%string, JStr "f"); ("self_pct"%string, JInt pct)]].
Definition demo_read (path : string) : result string string := Ok path.
Definition demo_parse (text : string) : result json string :=
  if String.eqb text "cur" then Ok (demo_frames 12) else if String.eqb text "base" then Ok (demo_frames 10) else Err "eof"%string.

Lemma gate_verdict_witness :
  exit_code (cmd_gate demo_read demo_parse (λ _, Ok tt) "cur" "base" (f64_div (f64_of_Z 1) (f64_of_Z 10)) 20
    (f64_of_Z 1) (f64_of_Z 2) None) = 1 ∧
  exit_code (cmd_gate demo_read demo_parse (λ _, Ok tt) "base" "cur" (f64_div (f64_of_Z 1) (f64_of_Z 10)) 20
    (f64_of_Z 1) (f64_of_Z 2) None) = 0.
Proof.
  assert (Hok : ∀ k, valid_binary prec emax (f64_of_Z k) = true →
            values_ok (<["f"%string := f64_of_Z k]> ∅)).
  { intros k Hk n v. rewrite lookup_insert_Some. intros [[_ <-]|[_ H]]; [exact Hk|]. rewrite lookup_empty in H. discriminate H. }
  split.
  - refine (proj1 (proj2 (gate_verdict demo_read demo_parse (λ _, Ok tt) "cur" "base" _ 20 _ _ None
      (<["f"%string := f64_of_Z 12]> ∅) (<["f"%string := f64_of_Z 10]> ∅) _ _ _ _ _ _ _ _)) "f"%string _ _);
      try (apply Hok); try (vm_compute; reflexivity).
    left. vm_compute. constructor.
  - refine (proj1 (gate_verdict demo_read demo_parse (λ _, Ok tt) "base" "cur" _ 20 _ _ None
      (<["f"%string := f64_of_Z 10]> ∅) (<["f"%string := f64_of_Z 12]> ∅) _ _ _ _ _ _ _ _) _);
      try (apply Hok); try (vm_compute; reflexivity).
    intros n. destruct (decide (n = "f"%string)) as [->|Hn]; [vm_compute; reflexivity|].
    rewrite !lookup_insert_ne by done. reflexivity.
Defined.

End FlameFacts.
