(* ===== verification/LoadTest.v ===== *)
(** * The load-test harness: [tools/konfig-loadtest]

    Module [LoadTest] ([args.rs], [client.rs], [metrics.rs], [scenarios/*.rs],
    [main.rs]): latency statistics, the apply drivers, what each subscriber task
    counts, the verdict of every scenario and the JSON summary.  Module [PerfGate]
    ([bin/gate.rs]): the p99 regression gate.  Connections, RPC answers and clocks
    are inputs; a panic (an index out of range) is [None]; [u32] sums and products
    wrap, as in a release build. *)
From Stdlib Require Import SpecFloat.
From S2P Require Export Rounding Flame.

Module LoadTest.
Import Flame.

(** ** [args.rs]: [env::var(key).ok().and_then(parse).unwrap_or(default)] *)
Definition u128_max : Z := 340282366920938463463374607431768211455.
Definition env_parse (hi : Z) (var : option string) (dflt : Z) : Z := default dflt (var ≫= parse_unsigned hi).
Definition env_usize := env_parse u64_max.
Definition env_u32 := env_parse u32_max.
Definition env_u64 := env_parse u64_max.
Definition env_u128 := env_parse u128_max.

(** ** Latency statistics *)
Definition Stats : Type := list Z.

Definition sorted (st : Stats) : list Z := merge_sort Z.le st.

Definition c95 : spec_float := f64_of_decimal false 95 (-2).
Definition c99 : spec_float := f64_of_decimal false 99 (-2).
(** [(s.len() as f64 * c) as usize] *)
Definition percentile_index (c : spec_float) (len : nat) : Z := f64_as_u64 (f64_mul (f64_of_Z (Z.of_nat len)) c).

Definition p50 (st : Stats) : option Z := let s := sorted st in s !! (length s `div` 2)%nat.
Definition p95 (st : Stats) : option Z := let s := sorted st in index s (percentile_index c95 (length s)).
Definition p99 (st : Stats) : option Z := let s := sorted st in index s (percentile_index c99 (length s)).
Definition max_ (st : Stats) : Z := default 0 (last (sorted st)).

Record LatencyMetrics : Type := mkLat { samples : Z; p50_ms : Z; p95_ms : Z; p99_ms : Z; max_ms : Z }.

Record ScenarioResult : Type := mkScenario {
  sr_name : string;
  pass : bool;
  failures : list string;
  metrics : option LatencyMetrics
}.

Definition scenario_pass (name : string) : ScenarioResult := mkScenario name true [] None.
Definition scenario_fail (name : string) (fs : list string) : ScenarioResult := mkScenario name false fs None.
Definition with_metrics (m : LatencyMetrics) (r : ScenarioResult) : ScenarioResult :=
  mkScenario (sr_name r) (pass r) (failures r) (Some m).

(** ** The JSON summary *)
Definition dq : ascii := byte 34.
Definition backslash : ascii := byte 92.

Definition esc_char (c : ascii) : string :=
  if Ascii.eqb c dq then String backslash (String dq "")
  else if Ascii.eqb c backslash then String backslash (String backslash "")
  else if Ascii.eqb c (byte 10) then String backslash "n"
  else if Ascii.eqb c (byte 13) then String backslash "r"
  else if Ascii.eqb c (byte 9) then String backslash "t"
  else String c "".
Fixpoint esc (s : string) : string :=
  match s with
  | EmptyString => ""
  | String c s' => esc_char c +:+ esc s'
  end.

Definition quote (s : string) : string := String dq (s +:+ String dq "").
Definition bool_text (b : bool) : string := if b then "true" else "false".
(** [sep]-joined pieces, as the [if i > 0] of the loops writes them. *)
Fixpoint commas (l : list string) : string :=
  match l with
  | [] => ""
  | [a] => a
  | a :: l' => a +:+ "," +:+ commas l'
  end.
Definition member (k v : string) : string := quote k +:+ ":" +:+ v.

Definition metrics_text (m : option LatencyMetrics) : string :=
  match m with
  | Some m =>
      "{" +:+ member "samples" (pretty (samples m)) +:+ "," +:+ member "p50_ms" (pretty (p50_ms m)) +:+ "," +:+
      member "p95_ms" (pretty (p95_ms m)) +:+ "," +:+ member "p99_ms" (pretty (p99_ms m)) +:+ "," +:+
      member "max_ms" (pretty (max_ms m)) +:+ "}"
  | None => "null"
  end.

Definition scenario_text (r : ScenarioResult) : string :=
  "{" +:+ member "name" (quote (esc (sr_name r))) +:+ "," +:+ member "pass" (bool_text (pass r)) +:+ "," +:+
  member "metrics" (metrics_text (metrics r)) +:+ "," +:+
  member "failures" ("[" +:+ commas ((λ f, quote (esc f)) <$> failures r) +:+ "]") +:+ "}".

(** The document [write_results_json] hands to [fs::write]. *)
Definition results_json (results : list ScenarioResult) (any_fail : bool) : string :=
  "{" +:+ member "all_passed" (bool_text (negb any_fail)) +:+ "," +:+
  member "scenarios" ("[" +:+ commas (scenario_text <$> results) +:+ "]") +:+ "}" +:+ String (byte 10) "".

(** ** Drivers ([client.rs]) *)

(** The answer to [Get]: the stored version, or an error. *)
Definition seed_start_seq (connect : result unit string) (get : option Z) : result Z string :=
  let? _ := map_err (λ e, "connect failed: " +:+ e) connect in
  Ok (match get with Some version => as_u32 (version + 1) | None => 1 end).

Definition nl : string := String (byte 10) "".
Definition driver_yaml (label : string) (seq : Z) : string :=
  "schema_version: " +:+ pretty seq +:+ nl +:+ "content:" +:+ nl +:+ "  iteration: " +:+ pretty seq +:+ nl +:+
  "  scenario: " +:+ label +:+ nl.

(** [for seq in start..=end]: [n] applies from [seq] on; [apply] is the server. *)
Fixpoint drive_loop (apply : string → bool) (label : string) (seq : Z) (n : nat) (ok err : Z) : Z * Z :=
  match n with
  | O => (ok, err)
  | S n' =>
      if apply (driver_yaml label seq) then drive_loop apply label (seq + 1) n' (as_u32 (ok + 1)) err
      else drive_loop apply label (seq + 1) n' ok (as_u32 (err + 1))
  end.

Definition drive_applies (connect : result unit string) (apply : string → bool) (label : string)
    (start_seq end_seq : Z) : result (Z * Z) string :=
  let? _ := map_err (λ e, "connect failed: " +:+ e) connect in
  Ok (drive_loop apply label start_seq (Z.to_nat (end_seq - start_seq + 1)) 0 0).

(** The timed apply loop of scenarios 1, 3 and 4: the answers from [start_seq] on,
    each with the instant read after it; the table of instants and the successes. *)
Fixpoint timed_applies (answers : list (bool * Instant)) : list (option Instant) * Z :=
  match answers with
  | [] => ([], 0)
  | (ok, at_) :: rest =>
      let '(table, n) := timed_applies rest in
      if ok : bool then (Some at_ :: table, n + 1) else (None :: table, n)
  end.

(** ** Subscriber tasks *)

(** One item of a stream: when it was received, the table as read then, and the
    version of the event ([None] is a stream error). *)
Record Recv : Type := mkRecv { r_at : Instant; r_table : list (option Instant); r_item : option Z }.

(** [saturating_duration_since(t).as_millis()] of nanoseconds. *)
Definition lag_ms (r : Recv) (start_seq version : Z) : option Z :=
  t ← mjoin (r_table r !! Z.to_nat (version - start_seq)); Some (Z.max 0 (r_at r - t) / 1000000).

(** What became of a subscriber's connection. *)
Inductive Conn (A : Type) : Type :=
  | ConnectFailed
  | SubscribeFailed
  | Streaming (items : list A).
Arguments ConnectFailed {A}.
Arguments SubscribeFailed {A}.
Arguments Streaming {A} items.

Fixpoint s1_loop (start_seq : Z) (items : list Recv) : list Z * Z :=
  match items with
  | [] => ([], 0)
  | r :: rest =>
      match r_item r with
      | None => ([], 0)
      | Some version =>
          let '(lats, count) := s1_loop start_seq rest in
          if version <? start_seq then (lats, count)
          else (match lag_ms r start_seq version with Some ms => ms :: lats | None => lats end, count + 1)
      end
  end.

(** The samples a task pushes and the events it counts. *)
Definition s1_subscriber (start_seq : Z) (conn : Conn Recv) : list Z * Z :=
  match conn with Streaming items => s1_loop start_seq items | _ => ([], 0) end.
Definition s4_subscriber := s1_subscriber.

(** The tasks that only count: sustained mode and the second phase of the
    reconnect storm; [None] is a stream error. *)
Fixpoint count_loop (start_seq : Z) (items : list (option Z)) : Z :=
  match items with
  | Some version :: rest => if version <? start_seq then count_loop start_seq rest else count_loop start_seq rest + 1
  | _ => 0
  end.
Definition s1_subscriber_sustained (start_seq : Z) (conn : Conn (option Z)) : Z :=
  match conn with Streaming items => count_loop start_seq items | _ => 0 end.
Definition s3_subscriber_phase2 := s1_subscriber_sustained.

(** [s3_subscriber_phase1]: the last resource version seen (empty at first). *)
Fixpoint last_rv (rv : string) (items : list (option (option string))) : string :=
  match items with
  | Some cfg :: rest => last_rv (default rv cfg) rest
  | _ => rv
  end.
Definition s3_subscriber_phase1 (conn : Conn (option (option string))) : string :=
  match conn with Streaming items => last_rv "" items | _ => "" end.

(** [s5_subscriber]: events counted, stream errors, of which UNAVAILABLE. *)
Fixpoint s5_loop (start_seq : Z) (items : list (result Z Code)) : Z * Z * Z :=
  match items with
  | [] => (0, 0, 0)
  | Ok version :: rest =>
      let '(n, e, u) := s5_loop start_seq rest in
      if version <? start_seq then (n, e, u) else (n + 1, e, u)
  | Err code :: _ => (0, 1, match code with Unavailable => 1 | _ => 0 end)
  end.
Definition s5_subscriber (start_seq : Z) (conn : Conn (result Z Code)) : Z * Z * Z :=
  match conn with
  | ConnectFailed => (0, 0, 0)
  | SubscribeFailed => (0, 1, 0)
  | Streaming items => s5_loop start_seq items
  end.

(** ** Soak *)

(** [seed_config] and [seed_secret]: 1 when nothing can be read. *)
Definition seed (connect : bool) (get : option Z) : Z :=
  if connect then match get with Some version => as_u32 (version + 1) | None => 1 end else 1.

Definition soak_config_yaml (seq : Z) : string := driver_yaml "soak" seq.
Definition soak_secret_yaml (seq : Z) : string :=
  "schema_version: " +:+ pretty seq +:+ nl +:+ "token: soak-secret-" +:+ pretty seq +:+ nl.

(** The apply loops: one answer per round before the deadline; the documents sent
    and the successes. *)
Fixpoint soak_loop (yaml : Z → string) (seq : Z) (answers : list bool) : list string * Z :=
  match answers with
  | [] => ([], 0)
  | ok :: rest =>
      let '(docs, n) := soak_loop yaml (as_u32 (seq + 1)) rest in
      (yaml seq :: docs, if ok : bool then n + 1 else n)
  end.
Definition apply_config_loop (connect : bool) (seq0 : Z) (answers : list bool) : list string * Z :=
  if connect then soak_loop soak_config_yaml seq0 answers else ([], 0).
Definition apply_secret_loop (connect : bool) (seq0 : Z) (answers : list bool) : list string * Z :=
  if connect then soak_loop soak_secret_yaml seq0 answers else ([], 0).

(** The long-lived subscribers count every item up to the first error. *)
Fixpoint ok_prefix (items : list bool) : Z :=
  match items with true :: rest => ok_prefix rest + 1 | _ => 0 end.
Definition sub_config (conn : Conn bool) : Z := match conn with Streaming items => ok_prefix items | _ => 0 end.
Definition sub_secret := sub_config.

(** One round of the reconnect churn per connection; the cycles counted. *)
Definition reconnect_churn (rounds : list (Conn unit)) : Z :=
  Z.of_nat (length (List.filter (λ c, match c with Streaming _ => true | _ => false end) rounds)).

(** ** Draining *)

(** [max_by_key(parse or 0)] over the non-empty versions; the last of the largest. *)
Definition rv_key (rv : string) : Z := default 0 (parse_u64 rv).
Definition known_rv (rvs : list string) : string :=
  default ""%string
    (foldl (λ best rv, match best with
                       | Some b => if rv_key b <=? rv_key rv then Some rv else Some b
                       | None => Some rv end) None (List.filter (λ rv, negb (is_empty rv)) rvs)).

(** The drain loops: each poll is the total received and the clock; whether all
    expected events arrived before the deadline. *)
Fixpoint drain (expected deadline : Z) (polls : list (Z * Z)) : option bool :=
  match polls with
  | [] => None
  | (received, now) :: rest =>
      if expected <=? received then Some true
      else if deadline <=? now then Some false
      else drain expected deadline rest
  end.

(** [iter().sum::<u32>()] *)
Definition u32_sum (l : list Z) : Z := foldl (λ a b, as_u32 (a + b)) 0 l.
Definition total_expected (subscribers n_ok : Z) : Z := as_u32 (as_u32 subscribers * n_ok).
Definition missed (expected received : Z) : Z := Z.max 0 (expected - received).

(** ** Verdicts *)
Definition latency_metrics (lat : Stats) : option LatencyMetrics :=
  a ← p50 lat; b ← p95 lat; c ← p99 lat;
  Some (mkLat (Z.of_nat (length lat)) a b c (max_ lat)).

Definition verdict (name : string) (fs : list string) : ScenarioResult :=
  match fs with [] => scenario_pass name | _ => scenario_fail name fs end.
(** A failure line when the condition holds. *)
Definition fail_if (b : bool) (msg : string) : list string := if b then [msg] else [].

Definition p99_message (p99 limit : Z) : string := "p99 " +:+ pretty p99 +:+ " ms >= gate " +:+ pretty limit +:+ " ms".

Definition no_samples : string := "no latency samples — did subscribers connect?".

Definition flood_verdict (name : string) (limit : Z) (missed_text : string) (lat : Stats) (n_missed : Z) : option ScenarioResult :=
  if bool_decide (lat = []) then Some (scenario_fail name [no_samples])
  else
    m ← latency_metrics lat;
    Some (with_metrics m (verdict name
      (fail_if (limit <=? p99_ms m) (p99_message (p99_ms m) limit) ++
       fail_if (0 <? n_missed) (pretty n_missed +:+ missed_text)))).

Definition subscribe_flood_verdict (limit : Z) := flood_verdict "subscribe_flood" limit " missed events".
Definition secrets_flood_verdict := flood_verdict "secrets_flood" 500 " missed secret events".

Definition S2_P99_LIMIT_MS : Z := 50.
Definition get_flood_verdict (lat : Stats) (errors : Z) : option ScenarioResult :=
  if bool_decide (lat = []) then Some (scenario_fail "get_flood" ["no latency samples"])
  else
    m ← latency_metrics lat;
    Some (with_metrics m (verdict "get_flood"
      (fail_if (0 <? errors) (pretty errors +:+ " RPC errors") ++
       fail_if (S2_P99_LIMIT_MS <=? p99_ms m) (p99_message (p99_ms m) S2_P99_LIMIT_MS)))).

(** One task of the get flood: latencies and errors; [None] is a failed connection. *)
Definition s2_get_task (gets : option (list (option Z))) : list Z * Z :=
  match gets with
  | None => ([], 100)
  | Some l => (omap id l, Z.of_nat (length (List.filter (λ g, bool_decide (g = None)) l)))
  end.

Definition sustained_verdict (n_ok received expected : Z) (drained : bool) : ScenarioResult :=
  verdict "subscribe_flood_sustained"
    (fail_if (n_ok =? 0) "zero successful applies" ++
     fail_if (negb drained) ("drain timeout: " +:+ pretty received +:+ "/" +:+ pretty expected)).

Definition reconnect_verdict (quorum_met : bool) (populated n_missed : Z) : ScenarioResult :=
  verdict "reconnect_storm"
    (fail_if (negb quorum_met)
       ("warm-event RV quorum missed: " +:+ pretty populated +:+ "/50 subscribers reported a resource_version within 1s — Subscribe should emit a synchronous snapshot on connect") ++
     fail_if (0 <? n_missed) (pretty n_missed +:+ " missed events post-reconnect")).

Definition backpressure_verdict (n_applies_ok normal_missed : Z) : ScenarioResult :=
  verdict "backpressure"
    (fail_if (n_applies_ok =? 0) "zero successful applies" ++
     fail_if (0 <? normal_missed) (pretty normal_missed +:+ " missed events on normal subscribers")).

Definition soak_verdict (cfg_ap sec_ap cfg_ev sec_ev : Z) : ScenarioResult :=
  verdict "soak"
    (fail_if (cfg_ap =? 0) "zero successful config applies" ++ fail_if (sec_ap =? 0) "zero successful secret applies" ++
     fail_if (cfg_ev =? 0) "config subscribers received zero events" ++
     fail_if (sec_ev =? 0) "secret subscribers received zero events").

(** ** [main.rs]: which scenarios run, and the exit code *)
Inductive Scenario : Set := SubscribeFlood | GetFlood | ReconnectStorm | SecretsFlood | Backpressure | Soak.

Definition selected (scenario : string) : list Scenario :=
  let all := String.eqb scenario "all" in
  (if all || String.eqb scenario "subscribe" then [SubscribeFlood] else []) ++
  (if all || String.eqb scenario "get" then [GetFlood] else []) ++
  (if all || String.eqb scenario "reconnect" then [ReconnectStorm] else []) ++
  (if all || String.eqb scenario "secrets" then [SecretsFlood] else []) ++
  (if String.eqb scenario "backpressure" then [Backpressure] else []) ++
  (if String.eqb scenario "soak" then [Soak] else []).

Definition any_fail (results : list ScenarioResult) : bool := existsb (λ r, negb (pass r)) results.

(** The file written (path and text) and the exit code; whether the write
    succeeded changes neither. *)
Definition finish (flag env : option string) (results : list ScenarioResult) : option (string * string) * Z :=
  let failed := any_fail results in
  let path := match flag with Some p => Some p | None => env end in
  ((λ p, (p, results_json results failed)) <$> path, if failed then 1 else 0).

(** ** The replay-buffer poller *)
Fixpoint find_first (p : ascii → bool) (s : string) : string :=
  match s with
  | EmptyString => ""
  | String c s' => if p c then "" else String c (find_first p s')
  end.

Definition derive_metrics_url (grpc_addr : string) : option string :=
  let rest := match strip_prefix "http://" grpc_addr with
              | Some r => r
              | None => default grpc_addr (strip_prefix "https://" grpc_addr) end in
  let host := find_first (λ c, Ascii.eqb c ":" || Ascii.eqb c "/") rest in
  if is_empty host then None else Some ("http://" +:+ host +:+ ":9090/metrics").

(** [str::lines]: split at newlines; a carriage return before a newline goes with
    it, and a final empty piece is dropped. *)
Definition strip_cr (l : string) : string :=
  match rev (list_ascii_of_string l) with
  | c :: r => if Ascii.eqb c (byte 13) then string_of_list_ascii (rev r) else l
  | [] => l
  end.
Definition lines (s : string) : list string :=
  let ps := split_on (byte 10) s in
  (strip_cr <$> removelast ps) ++ match last ps with Some p => if is_empty p then [] else [p] | None => [] end.

Definition depth_needle (namespace : string) : string :=
  "konfig_replay_buffer_depth{namespace=" +:+ quote namespace +:+ "}".

(** The gauge in the text of [/metrics]: the first line with the prefix decides. *)
Fixpoint depth_in (needle : string) (ls : list string) : option Z :=
  match ls with
  | [] => None
  | l :: rest =>
      match strip_prefix needle l with
      | Some val => f ← parse_f64 (trim val); Some (f64_as_u64 f)
      | None => depth_in needle rest
      end
  end.
Definition replay_buffer_depth (body namespace : string) : option Z := depth_in (depth_needle namespace) (lines body).

(** The poller: high-water mark, samples, errors. *)
Definition poll_depth (st : Z * Z * Z) (fetched : option Z) : Z * Z * Z :=
  let '(hw, n, e) := st in
  match fetched with
  | Some depth => (if hw <? depth then depth else hw, n + 1, e)
  | None => (hw, n, e + 1)
  end.
Definition poller (metrics_url : option string) (fetches : list (option Z)) : Z * Z * Z :=
  match metrics_url with None => (0, 0, 0) | Some _ => foldl poll_depth (0, 0, 0) fetches end.

End LoadTest.

Module PerfGate.
Import Flame.

(** ** Files and arguments *)

(** What the process sees of the file system; errors as they are displayed. *)
Record Fs : Type := mkFs {
  read_to_string : string → result string string;
  read_dir : string → option (list string);
  create_dir_all : string → result unit string;
  can_write : string → result unit string
}.

Record Cli : Type := mkCli {
  cli_current : string;
  baselines_dir : string;
  cli_baseline : option string;
  threshold : spec_float;
  update : option string;
  output : option string
}.

(** [Path::join] and [Path::parent] of a path that ends in a file name. *)
Definition ends_with_slash (s : string) : bool :=
  match last (list_ascii_of_string s) with Some c => Ascii.eqb c "/" | None => false end.
Definition join (dir name : string) : string :=
  if starts_with "/" name then name
  else if is_empty dir || ends_with_slash dir then dir +:+ name
  else dir +:+ "/" +:+ name.
Fixpoint parent_l (l : list ascii) : option (list ascii) :=
  match l with
  | [] => None
  | c :: l' =>
      match parent_l l' with
      | Some p => Some (c :: p)
      | None => if Ascii.eqb c "/" then Some [] else None
      end
  end.
Definition parent (path : string) : string :=
  match parent_l (list_ascii_of_string path) with
  | Some [] => "/"
  | Some p => string_of_list_ascii p
  | None => ""
  end.

(** [Path::extension] and [file_stem] of a file name: split at the last dot, which
    may not be the first character. *)
Fixpoint rsplit_dot (s : string) : option (string * string) :=
  match s with
  | EmptyString => None
  | String c s' =>
      match rsplit_dot s' with
      | Some (a, b) => Some (String c a, b)
      | None => if Ascii.eqb c "." then Some (EmptyString, s') else None
      end
  end.
Definition stem_ext (name : string) : string * option string :=
  match rsplit_dot name with
  | Some (EmptyString, _) | None => (name, None)
  | Some (a, b) => (a, Some b)
  end.

(** ** Loading *)
Inductive GateError : Set :=
  | Mkdir (path e : string)
  | Read (path e : string)
  | Write (path e : string)
  | BadJson (path e : string)
  | NoScenarios (path : string)
  | NoName (path : string) (i : nat).

Section Gate.
Context (from_str : string → result json string).
Context (fs : Fs).

Fixpoint p99_of (path : string) (i : nat) (scenarios : list json) (out : gmap string spec_float) :
    result (gmap string spec_float) GateError :=
  match scenarios with
  | [] => Ok out
  | sc :: rest =>
      let? name := ok_or (get_with as_str "name" sc) (NoName path i) in
      p99_of path (S i) rest
        (match json_get "metrics" sc ≫= get_with as_f64 "p99_ms" with
         | Some p99 => <[name := p99]> out
         | None => out
         end)
  end.

Definition load_p99 (path : string) : result (gmap string spec_float) GateError :=
  let? text := map_err (Read path) (read_to_string fs path) in
  let? raw := map_err (BadJson path) (from_str text) in
  let? scenarios := ok_or (get_with as_array "scenarios" raw) (NoScenarios path) in
  p99_of path 0 scenarios ∅.

(** ** The newest baseline *)
Definition semver_key (stem : string) : Z * Z * Z :=
  let s := default stem (strip_prefix "v" stem) in
  let ks := (λ p, default 0 (parse_u64 p)) <$> split_on "." s in
  (default 0 (ks !! 0%nat), default 0 (ks !! 1%nat), default 0 (ks !! 2%nat)).

(** [a > b] on tuples. *)
Definition key_gtb (a b : Z * Z * Z) : bool :=
  let '(a1, a2, a3) := a in
  let '(b1, b2, b3) := b in
  (b1 <? a1) || (a1 =? b1) && ((b2 <? a2) || (a2 =? b2) && (b3 <? a3)).

Definition consider (dir : string) (best : option ((Z * Z * Z) * string)) (name : string) : option ((Z * Z * Z) * string) :=
  match stem_ext name with
  | (stem, Some ext) =>
      if String.eqb ext "json" then
        let key := semver_key stem in
        match best with
        | Some (k, _) => if key_gtb key k then Some (key, join dir name) else best
        | None => Some (key, join dir name)
        end
      else best
  | _ => best
  end.

Definition newest_baseline (dir : string) : option string :=
  match read_dir fs dir with
  | None => None
  | Some names => snd <$> foldl (consider dir) None names
  end.

(** ** Comparison *)
Record Row : Type := mkRow { row_name : string; base_p99 : spec_float; cur_p99 : spec_float; regressed : bool }.

Definition diff (current baseline : gmap string spec_float) (threshold : spec_float) : list Row :=
  omap (λ name,
      base ← baseline !! name; cur ← current !! name;
      Some (mkRow name base cur (f64_lt (f64_mul base threshold) cur)))
    (sorted_strings (dom baseline)).

(** What the report says ([Reports] has the wording): nothing to compare with, or the rows. *)
Inductive Report : Type :=
  | NoBaseline (dir : string)
  | Table (baseline : string) (threshold : spec_float) (rows : list Row).

(** What the process writes: the baseline it copies, and the report. *)
Inductive Written : Type :=
  | Copied (path text : string)
  | Reported (path : string) (md : Report).

Definition emit (out : option string) (md : Report) : list Written * result unit GateError :=
  match out with
  | Some path =>
      match can_write fs path with
      | Ok _ => ([Reported path md], Ok tt)
      | Err e => ([], Err (Write path e))
      end
  | None => ([], Ok tt)
  end.

Definition run_update (cli : Cli) (tag : string) : list Written * result Z GateError :=
  let dest := join (baselines_dir cli) (tag +:+ ".json") in
  match create_dir_all fs (parent dest) with
  | Err e => ([], Err (Mkdir (parent dest) e))
  | Ok _ =>
      match read_to_string fs (cli_current cli) with
      | Err e => ([], Err (Read (cli_current cli) e))
      | Ok body =>
          match can_write fs dest with
          | Err e => ([], Err (Write dest e))
          | Ok _ => ([Copied dest body], Ok EXIT_OK)
          end
      end
  end.

Definition run_compare (cli : Cli) : list Written * result Z GateError :=
  match load_p99 (cli_current cli) with
  | Err e => ([], Err e)
  | Ok current =>
      match (match cli_baseline cli with Some p => Some p | None => newest_baseline (baselines_dir cli) end) with
      | None =>
          let '(w, r) := emit (output cli) (NoBaseline (baselines_dir cli)) in
          (w, let? _ := r in Ok EXIT_OK)
      | Some path =>
          match load_p99 path with
          | Err e => ([], Err e)
          | Ok baseline =>
              let rows := diff current baseline (threshold cli) in
              let '(w, r) := emit (output cli) (Table path (threshold cli) rows) in
              (w, let? _ := r in Ok (if existsb regressed rows then EXIT_REGRESSION else EXIT_OK))
          end
      end
  end.

Definition run (cli : Cli) : list Written * result Z GateError :=
  match update cli with Some tag => run_update cli tag | None => run_compare cli end.

Definition main (cli : Cli) : Z := match (run cli).2 with Ok code => code | Err _ => EXIT_INPUT end.
End Gate.
End PerfGate.
