(* ===== verification/LoadTestFacts.v ===== *)
(** * What the load-test tools guarantee

    The percentiles are in range, ordered and cover the share of samples they
    name; the JSON summary denotes the results and the gate reads the p99 of each
    scenario back; a bumped baseline passes its own gate. *)
From Stdlib Require Import SpecFloat.
From S2P Require Import LoadTest.

Module LoadTestFacts.
Import Flame LoadTest.

(** ** Percentile indices *)
Lemma c95_value : c95 = S754_finite false 8556839292003942 (-53).
Proof. by vm_compute. Qed.
Lemma c99_value : c99 = S754_finite false 8917127262193582 (-53).
Proof. by vm_compute. Qed.

Lemma small_index (P : nat → bool) n m : forallb P (seq 1 m) = true → (1 ≤ n ≤ m)%nat → P n = true.
Proof. intros H Hn. rewrite forallb_true in H. apply H, elem_of_seq. lia. Qed.

Section Index.
Context (n : nat) (Hn : (1 ≤ n)%nat) (Hmax : Z.of_nat n ≤ 2 ^ 40).

Lemma index_between c mc k :
  c = S754_finite false mc (-53) → 2 ^ 52 ≤ Zpos mc < 2 ^ 53 → 0 ≤ k →
  (k * 2 ^ 53 ≤ Z.of_nat n * Zpos mc → k ≤ percentile_index c n) ∧
  (Z.of_nat n * Zpos mc ≤ k * 2 ^ 53 → percentile_index c n ≤ k).
Proof.
  intros -> Hc Hk. exact (trunc_mul_between (Z.of_nat n) mc (-53) k ltac:(lia) Hc ltac:(lia) ltac:(simpl; lia) Hk).
Qed.

Lemma index_95_rank : 95 * Z.of_nat n ≤ 100 * (percentile_index c95 n + 1).
Proof.
  set (j := Z.of_nat n * 8556839292003942 / 2 ^ 53).
  assert (j ≤ percentile_index c95 n).
  { apply (index_between _ _ j c95_value); [lia|apply Z.div_pos; lia|]. unfold j.
    pose proof (Z.mul_div_le (Z.of_nat n * 8556839292003942) (2 ^ 53) ltac:(lia)). lia. }
  pose proof (Z.mul_succ_div_gt (Z.of_nat n * 8556839292003942) (2 ^ 53) ltac:(lia)). fold j in H0. lia.
Qed.

Lemma index_99_rank : 99 * Z.of_nat n ≤ 100 * (percentile_index c99 n + 1).
Proof.
  set (j := Z.of_nat n * 8917127262193582 / 2 ^ 53).
  assert (j ≤ percentile_index c99 n).
  { apply (index_between _ _ j c99_value); [lia|apply Z.div_pos; lia|]. unfold j.
    pose proof (Z.mul_div_le (Z.of_nat n * 8917127262193582) (2 ^ 53) ltac:(lia)). lia. }
  pose proof (Z.mul_succ_div_gt (Z.of_nat n * 8917127262193582) (2 ^ 53) ltac:(lia)). fold j in H0. lia.
Qed.

Lemma index_99_lt : percentile_index c99 n < Z.of_nat n.
Proof.
  destruct (Nat.le_gt_cases n 100) as [Hs|Hl].
  - apply Z.ltb_lt. apply (small_index (λ n, percentile_index c99 n <? Z.of_nat n) n 100); [by vm_compute|lia].
  - assert (percentile_index c99 n ≤ Z.of_nat n - 1); [|lia].
    apply (index_between _ _ _ c99_value); lia.
Qed.

Lemma index_95_99 : percentile_index c95 n ≤ percentile_index c99 n.
Proof.
  destruct (Nat.le_gt_cases n 30) as [Hs|Hl].
  - apply Z.leb_le. apply (small_index (λ n, percentile_index c95 n <=? percentile_index c99 n) n 30); [by vm_compute|lia].
  - set (k := Z.of_nat n * 8556839292003942 / 2 ^ 53 + 1).
    pose proof (Z.mul_succ_div_gt (Z.of_nat n * 8556839292003942) (2 ^ 53) ltac:(lia)).
    pose proof (Z.mul_div_le (Z.of_nat n * 8556839292003942) (2 ^ 53) ltac:(lia)).
    assert (0 ≤ k) by (unfold k; pose proof (Z.div_pos (Z.of_nat n * 8556839292003942) (2 ^ 53)); lia).
    transitivity k.
    + apply (index_between _ _ _ c95_value); [lia|done|unfold k; lia].
    + apply (index_between _ _ _ c99_value); [lia|done|unfold k; lia].
Qed.

Lemma index_50_95 : Z.of_nat (n `div` 2)%nat ≤ percentile_index c95 n.
Proof.
  apply (index_between _ _ _ c95_value); [lia|lia|].
  pose proof (Nat.Div0.mul_div_le n 2). lia.
Qed.
End Index.

(** ** Sorted samples *)
Lemma sorted_length st : length (sorted st) = length st.
Proof. unfold sorted. by rewrite merge_sort_Permutation. Qed.

Lemma sorted_mono st i j a b : (i ≤ j)%nat → sorted st !! i = Some a → sorted st !! j = Some b → a ≤ b.
Proof.
  intros Hij Ha Hb. destruct (decide (i = j)) as [->|Hne]; [simplify_eq; lia|].
  assert (Hs : StronglySorted Z.le (sorted st)) by (apply StronglySorted_merge_sort; apply _).
  rewrite <- (take_drop_middle _ _ _ Hb) in Hs. eapply StronglySorted_app_1_elem_of; [exact Hs| |by left].
  apply (list_elem_of_lookup_2 _ i). rewrite lookup_take_lt by lia. done.
Qed.

Lemma sorted_elem st i a : sorted st !! i = Some a → a ∈ st.
Proof. intros H%list_elem_of_lookup_2. by rewrite <- (merge_sort_Permutation Z.le). Qed.

Lemma sorted_last st : st ≠ [] → sorted st !! pred (length st) = Some (max_ st).
Proof.
  intros Hne. unfold max_. rewrite <- (sorted_length st), <- last_lookup.
  destruct (last (sorted st)) eqn:Hl; [done|]. apply last_None in Hl. exfalso. apply Hne.
  apply nil_length_inv. by rewrite <- sorted_length, Hl.
Qed.

Lemma filter_keeps {A} (P : A → Prop) `{!∀ x, Decision (P x)} (l : list A) : Forall P l → filter P l = l.
Proof. induction 1 as [|x l Hx _ IH]; [done|]. by rewrite filter_cons_True, IH. Qed.

(** The sample at position [i] has [i + 1] samples at or below it. *)
Lemma sorted_rank (st : list Z) i (a : Z) :
  sorted st !! i = Some a → (S i ≤ length (filter (λ x : Z, (x ≤ a)%Z) st))%nat.
Proof.
  intros Ha. pose proof (lookup_lt_Some _ _ _ Ha) as Hlen.
  rewrite <- (merge_sort_Permutation Z.le st). change (merge_sort Z.le st) with (sorted st).
  rewrite <- (take_drop (S i) (sorted st)), filter_app, length_app.
  assert (filter (λ x : Z, x ≤ a) (take (S i) (sorted st)) = take (S i) (sorted st)) as ->.
  { apply filter_keeps. apply Forall_lookup_2. intros j x Hj. apply lookup_take_Some in Hj as [Hj ?].
    by apply (sorted_mono st j i); [lia| |]. }
  rewrite length_take. lia.
Qed.

Lemma percentiles st :
  Z.of_nat (length st) ≤ 2 ^ 40 →
  st = [] ∨ st ≠ [] ∧ ∃ a b c, p50 st = Some a ∧ p95 st = Some b ∧ p99 st = Some c.
Proof.
  intros Hmax. destruct (decide (st = [])) as [->|Hne]; [by left|right]. split; [done|].
  assert (Hn : (1 ≤ length st)%nat) by (destruct st; [done|simpl; lia]).
  pose proof (index_99_lt _ Hn Hmax). pose proof (index_95_99 _ Hn Hmax). pose proof (index_50_95 _ Hn Hmax).
  unfold p50, p95, p99, index. rewrite !sorted_length. rewrite !(proj2 (Z.ltb_lt _ _)) by lia.
  assert (Hex : ∀ i, (i < length st)%nat → ∃ x, sorted st !! i = Some x).
  { intros i Hi. apply lookup_lt_is_Some_2. by rewrite sorted_length. }
  destruct (Hex (length st `div` 2)%nat) as [a ->]; [lia|].
  destruct (Hex (Z.to_nat (percentile_index c95 (length st)))) as [b ->]; [lia|].
  destruct (Hex (Z.to_nat (percentile_index c99 (length st)))) as [c ->]; [lia|]. eauto 10.
Qed.

(** C40: the percentiles are what they say.  For any non-empty set of samples (up
    to 2^40 of them) the three indices computed in binary64 are in range, so no
    scenario panics; the values are samples, in order p50 <= p95 <= p99 <= max,
    max is the largest, and at least 95 (99) in 100 samples are at or below p95
    (p99).  With no sample the index is out of range. *)
Theorem percentiles_ordered (st : list Z) :
  Z.of_nat (length st) ≤ 2 ^ 40 →
  (st = [] ∧ p50 st = None ∧ p95 st = None ∧ p99 st = None ∧ max_ st = 0) ∨
  ∃ a b c, p50 st = Some a ∧ p95 st = Some b ∧ p99 st = Some c ∧ a ∈ st ∧ b ∈ st ∧ c ∈ st ∧
    a ≤ b ∧ b ≤ c ∧ c ≤ max_ st ∧ (∀ x, x ∈ st → x ≤ max_ st) ∧
    95 * Z.of_nat (length st) ≤ 100 * Z.of_nat (length (filter (λ x, x ≤ b) st)) ∧
    99 * Z.of_nat (length st) ≤ 100 * Z.of_nat (length (filter (λ x, x ≤ c) st)).
Proof.
  intros Hmax. destruct (percentiles st Hmax) as [->|(Hne & a & b & c & Ea & Eb & Ec)]; [left; by vm_compute|right].
  assert (Hn : (1 ≤ length st)%nat) by (destruct st; [done|simpl; lia]).
  pose proof (index_99_lt _ Hn Hmax). pose proof (index_95_99 _ Hn Hmax). pose proof (index_50_95 _ Hn Hmax).
  pose proof (index_95_rank _ Hn Hmax). pose proof (index_99_rank _ Hn Hmax).
  assert (Ha := Ea). assert (Hb := Eb). assert (Hc := Ec). unfold p50, p95, p99, index in Ha, Hb, Hc.
  rewrite sorted_length in Ha, Hb, Hc. rewrite (proj2 (Z.ltb_lt _ _)) in Hb by lia. rewrite (proj2 (Z.ltb_lt _ _)) in Hc by lia.
  pose proof (sorted_last st Hne) as Hl. pose proof (sorted_rank _ _ _ Hb) as Rb. pose proof (sorted_rank _ _ _ Hc) as Rc.
  exists a, b, c. split_and!; try done; try (by eapply sorted_elem); try lia.
  - eapply (sorted_mono st); [|exact Ha|exact Hb]. lia.
  - eapply (sorted_mono st); [|exact Hb|exact Hc]. lia.
  - eapply (sorted_mono st); [|exact Hc|exact Hl]. lia.
  - intros x Hx. rewrite <- (merge_sort_Permutation Z.le) in Hx. apply list_elem_of_lookup_1 in Hx as [i Hi].
    eapply (sorted_mono st); [|exact Hi|exact Hl]. apply lookup_lt_Some in Hi.
    change (merge_sort Z.le st) with (sorted st) in Hi. rewrite sorted_length in Hi. lia.
Qed.

Lemma percentiles_ordered_witness :
  p50 [30; 10; 20] = Some 20 ∧ p99 [30; 10; 20] = Some 30 ∧
  ∃ a b c, p50 [30; 10; 20] = Some a ∧ p95 [30; 10; 20] = Some b ∧ p99 [30; 10; 20] = Some c ∧ a ≤ b ∧ b ≤ c.
Proof.
  split; [by vm_compute|]. split; [by vm_compute|].
  destruct (percentiles_ordered [30; 10; 20]) as [[H _]|(a & b & c & Ha & Hb & Hc & _ & _ & _ & H1 & H2 & _)].
  - vm_compute. discriminate.
  - discriminate H.
  - exists a, b, c. auto.
Defined.

(** ** Verdicts *)

(** A latency scenario passes exactly when it has samples, a p99 below the limit
    and nothing missed in total. *)
Lemma flood_pass_iff name limit text lat n_missed :
  Z.of_nat (length lat) ≤ 2 ^ 40 →
  (∃ r, flood_verdict name limit text lat n_missed = Some r ∧
    (pass r = true ↔ lat ≠ [] ∧ (∀ c, p99 lat = Some c → c < limit) ∧ n_missed ≤ 0)).
Proof.
  intros Hl. unfold flood_verdict, latency_metrics. destruct (percentiles lat Hl) as [->|(Hne & a & b & c & -> & -> & ->)].
  - eexists. split; [done|]. simpl. split; [done|by intros []].
  - rewrite bool_decide_false by done. simpl. eexists. split; [done|].
    destruct (Z.leb_spec limit c), (Z.ltb_spec 0 n_missed); simpl;
      split; try done; try (by intros (_ & Hc & _); specialize (Hc c eq_refl); lia); try (by intros (_ & _ & ?); lia).
    intros _. split; [done|]. split; [|lia]. by intros ? [= <-].
Qed.

(** A subscriber's count is the number of events at or above the first version
    sent, up to the first error. *)
Lemma s1_count start items :
  Forall (λ r, is_Some (r_item r)) items →
  (s1_loop start items).2 = Z.of_nat (length (filter (λ r, start ≤ default 0 (r_item r)) items)).
Proof.
  induction 1 as [|r items [v Hv] _ IH]; [done|]. simpl. rewrite Hv. destruct (s1_loop start items) as [lats n]. simpl in *.
  destruct (Z.ltb_spec v start); simpl.
  - rewrite filter_cons_False by (rewrite Hv; simpl; lia). done.
  - rewrite filter_cons_True by (rewrite Hv; simpl; lia). simpl length. lia.
Qed.

(** The total hides who received what: of two subscribers owed two events each,
    one may receive four and the other none. *)
Example missed_is_a_total : missed (total_expected 2 2) (u32_sum [4; 0]) = 0.
Proof. done. Qed.

(** ** The newest baseline *)
Import PerfGate.

Definition key_lt (b a : Z * Z * Z) : Prop :=
  let '(a1, a2, a3) := a in
  let '(b1, b2, b3) := b in b1 < a1 ∨ a1 = b1 ∧ (b2 < a2 ∨ a2 = b2 ∧ b3 < a3).

Lemma key_gtb_spec a b : reflect (key_lt b a) (key_gtb a b).
Proof.
  apply iff_reflect. destruct a as [[a1 a2] a3], b as [[b1 b2] b3]. unfold key_gtb, key_lt.
  by rewrite !orb_true_iff, !andb_true_iff, !orb_true_iff, !andb_true_iff, !Z.ltb_lt, !Z.eqb_eq.
Qed.

Lemma key_lt_trans a b c : key_lt a b → key_lt b c → key_lt a c.
Proof. destruct a as [[a1 a2] a3], b as [[b1 b2] b3], c as [[c1 c2] c3]. unfold key_lt. lia. Qed.

Lemma key_lt_irrefl a : ¬ key_lt a a.
Proof. destruct a as [[a1 a2] a3]. unfold key_lt. lia. Qed.

(** The version of a baseline file; [None] for any other file. *)
Definition file_key (name : string) : option (Z * Z * Z) :=
  match stem_ext name with
  | (stem, Some ext) => if String.eqb ext "json" then Some (semver_key stem) else None
  | _ => None
  end.

Lemma consider_spec dir best name :
  consider dir best name =
    match file_key name, best with
    | Some k, Some (k', _) => if key_gtb k k' then Some (k, join dir name) else best
    | Some k, None => Some (k, join dir name)
    | None, _ => best
    end.
Proof. unfold consider, file_key. destruct (stem_ext name) as [stem [ext|]]; [|done]. by destruct (String.eqb ext "json"). Qed.

(** The file picked is a baseline, and no baseline has a higher version. *)
Definition newest_of (dir : string) (names : list string) (best : option ((Z * Z * Z) * string)) : Prop :=
  match best with
  | None => ∀ m, m ∈ names → file_key m = None
  | Some (k, path) =>
      (∃ name, name ∈ names ∧ file_key name = Some k ∧ path = join dir name) ∧
      ∀ m k', m ∈ names → file_key m = Some k' → ¬ key_lt k k'
  end.

Lemma newest_spec dir names : newest_of dir names (foldl (consider dir) None names).
Proof.
  induction names as [|name names IH] using rev_ind; [by intros m ?%elem_of_nil|].
  rewrite foldl_snoc, consider_spec. set (best := foldl _ None names) in *.
  assert (Hin : ∀ m, m ∈ names ++ [name] ↔ m ∈ names ∨ m = name) by (intros m; rewrite elem_of_app, list_elem_of_singleton; done).
  destruct (file_key name) as [k|] eqn:Hk; destruct best as [[kb pb]|]; simpl in *.
  - destruct IH as [(nb & Hnb & Hkb & ->) Hmax]. destruct (key_gtb_spec k kb) as [Hlt|Hge]; simpl.
    + split; [exists name; rewrite Hin; auto|]. intros m k' [Hm| ->]%Hin Hm' Hlt'; [|simplify_eq; by apply key_lt_irrefl in Hlt'].
      apply (Hmax m k' Hm Hm'). by eapply key_lt_trans.
    + split; [exists nb; rewrite Hin; auto|]. intros m k' [Hm| ->]%Hin Hm'; [by apply (Hmax m)|by simplify_eq].
  - split; [exists name; rewrite Hin; auto|]. intros m k' [Hm| ->]%Hin Hm' Hlt; [by rewrite IH in Hm'|].
    simplify_eq. by apply key_lt_irrefl in Hlt.
  - destruct IH as [(nb & Hnb & Hkb & ->) Hmax]. split; [exists nb; rewrite Hin; auto|].
    intros m k' [Hm| ->]%Hin Hm'; [by apply (Hmax m)|by simplify_eq].
  - intros m [Hm| ->]%Hin; auto.
Qed.

Lemma newest_strict dir names name k :
  name ∈ names → file_key name = Some k →
  (∀ m k', m ∈ names → m ≠ name → file_key m = Some k' → key_lt k' k) →
  foldl (consider dir) None names = Some (k, join dir name).
Proof.
  intros Hin Hk Hmax. pose proof (newest_spec dir names) as Hs. destruct (foldl _ None names) as [[kb pb]|]; simpl in Hs.
  - destruct Hs as [(nb & Hnb & Hkb & ->) Hge]. destruct (decide (nb = name)) as [->|Hne]; [by simplify_eq|].
    exfalso. by apply (Hge name k Hin Hk), (Hmax nb).
  - by rewrite Hs in Hk.
Qed.

(** The name [--update] gives a baseline is one, unless the tag is empty. *)
Lemma rsplit_dot_json tag : rsplit_dot (tag +:+ ".json") = Some (tag, "json"%string).
Proof. induction tag as [|c tag IH]; [done|]. change (String c tag +:+ ".json") with (String c (tag +:+ ".json")). simpl. by rewrite IH. Qed.

Lemma file_key_tag tag : tag ≠ ""%string → file_key (tag +:+ ".json") = Some (semver_key tag).
Proof. intros Hne. unfold file_key, stem_ext. rewrite rsplit_dot_json. by destruct tag. Qed.

(** ** The gate *)
Lemma p99_of_path p q i j scs out m : p99_of p i scs out = Ok m → p99_of q j scs out = Ok m.
Proof.
  revert i j out. induction scs as [|sc scs IH]; intros i j out; simpl; [done|].
  destruct (get_with as_str "name" sc); simpl; [|done]. apply IH.
Qed.

Lemma load_same_text from_str fs p q text m :
  read_to_string fs p = Ok text → read_to_string fs q = Ok text →
  load_p99 from_str fs p = Ok m → load_p99 from_str fs q = Ok m.
Proof.
  intros Hp Hq. unfold load_p99. rewrite Hp, Hq. simpl. destruct (from_str text) as [raw|]; simpl; [|done].
  destruct (get_with as_array "scenarios" raw); simpl; [|done]. apply p99_of_path.
Qed.

Lemma diff_rows_in current baseline th r :
  r ∈ diff current baseline th ↔
  ∃ name base cur, baseline !! name = Some base ∧ current !! name = Some cur ∧
    r = mkRow name base cur (f64_lt (f64_mul base th) cur).
Proof.
  unfold diff, sorted_strings. rewrite list_elem_of_omap. split.
  - intros (name & _ & H). destruct (baseline !! name) as [base|] eqn:Hb; simpl in H; [|done].
    destruct (current !! name) as [cur|] eqn:Hc; simpl in H; [|done]. simplify_eq. by exists name, base, cur.
  - intros (name & base & cur & Hb & Hc & ->). exists name. split; [|by rewrite Hb; simpl; rewrite Hc].
    rewrite merge_sort_Permutation, elem_of_elements, elem_of_dom. by rewrite Hb.
Qed.

(** Exit code 1 exactly when a scenario present in both files is above the
    allowed factor. *)
Lemma compare_exit from_str fs cli path current baseline :
  update cli = None → is_ok (emit fs (output cli) (Table path (threshold cli) (diff current baseline (threshold cli)))).2 = true →
  match cli_baseline cli with Some p => Some p | None => newest_baseline fs (baselines_dir cli) end = Some path →
  load_p99 from_str fs (cli_current cli) = Ok current → load_p99 from_str fs path = Ok baseline →
  main from_str fs cli =
    if existsb regressed (diff current baseline (threshold cli)) then EXIT_REGRESSION else EXIT_OK.
Proof.
  intros Hu He Hp Hc Hb. unfold main, run. rewrite Hu. unfold run_compare. rewrite Hc, Hp, Hb.
  destruct (emit fs (output cli) _) as [w [[]|e]]; simpl in *; [|done]. by destruct (existsb _ _).
Qed.

(** A bumped baseline passes its own gate.  When [gate --update tag] exits 0
    it has copied the current results, and nothing else, to the tag's file.  A
    later run on the same results, with a factor of at least one and a directory
    in which no other baseline has as high a version, compares with that file and
    exits 0; and with any baseline, a run exits 1 exactly when a scenario in both
    files is above the baseline by more than the factor. *)
Theorem bumped_baseline_passes from_str fs fs' cli cli' tag written names p99s :
  tag ≠ ""%string → update cli = Some tag → run from_str fs cli = (written, Ok EXIT_OK) →
  cli_current cli' = cli_current cli → baselines_dir cli' = baselines_dir cli →
  update cli' = None → (∀ md, is_ok (emit fs' (output cli') md).2 = true) →
  load_p99 from_str fs' (cli_current cli') = Ok p99s →
  let dest := join (baselines_dir cli) (tag +:+ ".json") in
  (∃ body, written = [Copied dest body] ∧ read_to_string fs (cli_current cli) = Ok body ∧
    (cli_baseline cli' = None → read_to_string fs' (cli_current cli') = Ok body → read_to_string fs' dest = Ok body →
     read_dir fs' (baselines_dir cli') = Some names → (tag +:+ ".json") ∈ names →
     (∀ m k, m ∈ names → m ≠ tag +:+ ".json" → file_key m = Some k → key_lt k (semver_key tag)) →
     (∀ n v, p99s !! n = Some v → valid_binary prec emax v = true ∧ SFleb (S754_zero false) v = true) →
     valid_binary prec emax (threshold cli') = true → SFleb (f64_of_Z 1) (threshold cli') = true →
     main from_str fs' cli' = 0)) ∧
  (∀ path baseline, cli_baseline cli' = Some path → load_p99 from_str fs' path = Ok baseline →
     (main from_str fs' cli' = 1 ↔
      ∃ n base cur, baseline !! n = Some base ∧ p99s !! n = Some cur ∧ f64_lt (f64_mul base (threshold cli')) cur = true)).
Proof.
  intros Htag Hup Hrun Hcur Hdir Hup' Hemit Hload dest. split.
  - unfold run, run_update in Hrun. rewrite Hup in Hrun. fold dest in Hrun.
    destruct (create_dir_all fs _); [|done]. destruct (read_to_string fs (cli_current cli)) as [body|] eqn:Hbody; [|done].
    destruct (can_write fs dest); [|done]. exists body. split; [congruence|]. split; [done|].
    intros Hnb Hread Hreadd Hnames Hin Hmax Hvals Hthv Hth.
    assert (Hnew : newest_baseline fs' (baselines_dir cli') = Some dest).
    { unfold newest_baseline. rewrite Hnames, Hdir.
      by rewrite (newest_strict _ _ _ _ Hin (file_key_tag tag Htag) Hmax). }
    rewrite (compare_exit from_str fs' cli' dest p99s p99s); try done; [|by rewrite Hnb|exact (load_same_text _ _ _ _ _ _ Hread Hreadd Hload)].
    replace (existsb regressed _) with false; [done|]. symmetry. apply not_true_iff_false. rewrite existsb_true.
    intros (r & Hr & Hreg). apply diff_rows_in in Hr as (n & base & cur & Hb & Hc & ->). simpl in Hreg.
    assert (base = cur) as -> by congruence. destruct (Hvals n cur Hc) as [Hv Hz]. by rewrite (mul_not_below cur (threshold cli')) in Hreg.
  - intros path baseline Hp Hb. rewrite (compare_exit from_str fs' cli' path p99s baseline); try done; [|by rewrite Hp].
    destruct (existsb regressed _) eqn:He.
    + split; [intros _|done]. apply existsb_true in He as (r & Hr & Hreg).
      apply diff_rows_in in Hr as (n & base & cur & ? & ? & ->). by exists n, base, cur.
    + split; [done|]. intros (n & base & cur & H1 & H2 & H3). apply not_true_iff_false in He. destruct He.
      apply existsb_true. eexists. split; [apply diff_rows_in; by exists n, base, cur|done].
Qed.

(** ** The summary is JSON *)

(** The grammar of JSON texts, as far as the summary needs it (no fractions, no
    white space but a final newline): a text and the value it denotes. *)
Definition escape (c : ascii) : option ascii :=
  if Ascii.eqb c dq then Some dq else if Ascii.eqb c backslash then Some backslash
  else if Ascii.eqb c (byte 10) then Some "n"%char else if Ascii.eqb c (byte 13) then Some "r"%char
  else if Ascii.eqb c (byte 9) then Some "t"%char else None.
Definition plain (c : ascii) : bool :=
  (32 <=? Z.of_nat (nat_of_ascii c)) && negb (Ascii.eqb c dq) && negb (Ascii.eqb c backslash).

Inductive string_body : string → string → Prop :=
  | body_nil : string_body "" ""
  | body_plain c s t : plain c = true → string_body s t → string_body (String c s) (String c t)
  | body_escape c e s t : escape c = Some e → string_body s t → string_body (String c s) (String backslash (String e t)).

Inductive denotes : json → string → Prop :=
  | den_null : denotes JNull "null"
  | den_bool b : denotes (JBool b) (bool_text b)
  | den_int z : in_u64 z → denotes (JInt z) (pretty z)
  | den_str s t : string_body s t → denotes (JStr s) (quote t)
  | den_arr vs ts : all_denote vs ts → denotes (JArr vs) ("[" +:+ commas ts +:+ "]")
  | den_obj kvs ts : members kvs ts → denotes (JObj kvs) ("{" +:+ commas ts +:+ "}")
with all_denote : list json → list string → Prop :=
  | all_nil : all_denote [] []
  | all_cons v t vs ts : denotes v t → all_denote vs ts → all_denote (v :: vs) (t :: ts)
with members : list (string * json) → list string → Prop :=
  | mem_nil : members [] []
  | mem_cons k kt v t kvs ts : string_body k kt → denotes v t → members kvs ts →
      members ((k, v) :: kvs) ((quote kt +:+ ":" +:+ t) :: ts).

(** The value the doc comment of [write_results_json] describes. *)
Definition metrics_value (m : option LatencyMetrics) : json :=
  match m with
  | Some m => JObj [("samples"%string, JInt (samples m)); ("p50_ms"%string, JInt (p50_ms m)); ("p95_ms"%string, JInt (p95_ms m));
                    ("p99_ms"%string, JInt (p99_ms m)); ("max_ms"%string, JInt (max_ms m))]
  | None => JNull
  end.
Definition scenario_value (r : ScenarioResult) : json :=
  JObj [("name"%string, JStr (sr_name r)); ("pass"%string, JBool (pass r)); ("metrics"%string, metrics_value (metrics r));
        ("failures"%string, JArr (JStr <$> failures r))].
Definition results_value (results : list ScenarioResult) (failed : bool) : json :=
  JObj [("all_passed"%string, JBool (negb failed)); ("scenarios"%string, JArr (scenario_value <$> results))].

(** Text without control characters other than tab, line feed and carriage return. *)
Definition clean (s : string) : Prop := str_all (λ c, plain c || bool_decide (is_Some (escape c))) s = true.
Definition result_ok (r : ScenarioResult) : Prop :=
  clean (sr_name r) ∧ Forall clean (failures r) ∧
  match metrics r with
  | Some m => in_u64 (samples m) ∧ in_u64 (p50_ms m) ∧ in_u64 (p95_ms m) ∧ in_u64 (p99_ms m) ∧ in_u64 (max_ms m)
  | None => True
  end.

Lemma esc_char_spec c :
  esc_char c = match escape c with Some e => String backslash (String e "") | None => String c "" end.
Proof. unfold esc_char, escape. by repeat case_match. Qed.

Lemma esc_body s : clean s → string_body s (esc s).
Proof.
  unfold clean, str_all. induction s as [|c s IH]; [constructor|]. simpl. intros [Hc Hs]%andb_prop.
  rewrite esc_char_spec. destruct (escape c) as [e|] eqn:He; simpl.
  - apply body_escape; auto.
  - apply body_plain; [|auto]. destruct (plain c); [done|]. done.
Qed.

Lemma key_body s : str_all plain s = true → string_body s s.
Proof. unfold str_all. induction s as [|c s IH]; [constructor|]. simpl. intros [Hc Hs]%andb_prop. apply body_plain; auto. Qed.

(** A text of members and commas is the object's text. *)
Ltac object_text ts :=
  match goal with |- denotes _ ?t => replace t with ("{" +:+ commas ts +:+ "}")
    by (unfold member; cbn [commas]; by rewrite !string_app_assoc) end;
  apply den_obj; repeat (apply mem_cons; [by apply key_body| |]); [..|apply mem_nil].

Lemma metrics_denote r : result_ok r → denotes (metrics_value (metrics r)) (metrics_text (metrics r)).
Proof.
  intros (_ & _ & Hm). destruct (metrics r) as [m|]; [|constructor]. destruct Hm as (? & ? & ? & ? & ?).
  simpl metrics_text.
  object_text [member "samples" (pretty (samples m)); member "p50_ms" (pretty (p50_ms m));
    member "p95_ms" (pretty (p95_ms m)); member "p99_ms" (pretty (p99_ms m)); member "max_ms" (pretty (max_ms m))];
    by apply den_int.
Qed.

Lemma scenario_denote r : result_ok r → denotes (scenario_value r) (scenario_text r).
Proof.
  intros Hr. unfold scenario_text, scenario_value.
  object_text [member "name" (quote (esc (sr_name r))); member "pass" (bool_text (pass r));
    member "metrics" (metrics_text (metrics r)); member "failures" ("[" +:+ commas ((λ f, quote (esc f)) <$> failures r) +:+ "]")].
  - apply den_str, esc_body, Hr.
  - apply den_bool.
  - by apply metrics_denote.
  - apply den_arr. destruct Hr as (_ & Hf & _). induction Hf as [|f fs Hc _ IH]; constructor; [|exact IH].
    by apply den_str, esc_body.
Qed.

Lemma results_denote results failed :
  Forall result_ok results → ∃ t, denotes (results_value results failed) t ∧ results_json results failed = t +:+ nl.
Proof.
  intros Hr. eexists ("{" +:+ commas [member "all_passed" (bool_text (negb failed));
    member "scenarios" ("[" +:+ commas (scenario_text <$> results) +:+ "]")] +:+ "}"). split.
  - object_text [member "all_passed" (bool_text (negb failed)); member "scenarios" ("[" +:+ commas (scenario_text <$> results) +:+ "]")].
    + apply den_bool.
    + apply den_arr. induction Hr as [|r rs Hr _ IH]; constructor; [by apply scenario_denote|exact IH].
  - unfold results_json, nl, member. cbn [commas]. by rewrite !string_app_assoc.
Qed.

(** The p99 of each scenario that has latencies, the last of a name winning. *)
Definition p99_map (results : list ScenarioResult) : gmap string spec_float :=
  foldl (λ out r, match metrics r with Some m => <[sr_name r := f64_of_Z (p99_ms m)]> out | None => out end) ∅ results.

Lemma p99_of_results path i results out :
  p99_of path i (scenario_value <$> results) out =
    Ok (foldl (λ out r, match metrics r with Some m => <[sr_name r := f64_of_Z (p99_ms m)]> out | None => out end) out results).
Proof.
  revert i out. induction results as [|r rs IH]; intros i out; [done|]. rewrite fmap_cons. simpl. rewrite IH.
  by destruct (metrics r).
Qed.

(** The gate reads back what the load test wrote.  The summary of any
    results (text without exotic control characters, latencies within 64 bits) is
    a JSON text of the documented shape; read by a JSON parser that reads this
    text as what it denotes, it gives the gate exactly the p99 of each scenario
    that measured latencies. *)
Theorem results_roundtrip from_str fs path results failed :
  Forall result_ok results → read_to_string fs path = Ok (results_json results failed) →
  (∀ t, denotes (results_value results failed) t → t +:+ nl = results_json results failed →
     from_str (t +:+ nl) = Ok (results_value results failed)) →
  load_p99 from_str fs path = Ok (p99_map results).
Proof.
  intros Hr Hread Hparse. destruct (results_denote results failed Hr) as (t & Hd & Ht).
  unfold load_p99. rewrite Hread. simpl. rewrite Ht, Hparse by done. simpl. apply p99_of_results.
Qed.

(** ** The claims at concrete inputs *)
Definition demo_results : list ScenarioResult :=
  [with_metrics (mkLat 100 2 8 20 30) (scenario_pass "get_flood"); scenario_fail "reconnect_storm" ["3 missed events post-reconnect"%string]].
Definition demo_reader (_ : string) : result json string := Ok (results_value demo_results true).
Definition demo_text : string := results_json demo_results true.
(** The results, and a directory with an older baseline and the bumped one. *)
Definition demo_fs : Fs :=
  mkFs (λ p, if String.eqb p "results.json" || String.eqb p "baselines/v1.10.0.json" then Ok demo_text else Err "not found"%string)
    (λ _, Some ["v1.9.0.json"; "v1.10.0.json"; "README.md"]%string) (λ _, Ok tt) (λ _, Ok tt).

Lemma results_roundtrip_witness :
  load_p99 demo_reader demo_fs "results.json" = Ok (p99_map demo_results).
Proof.
  apply (results_roundtrip demo_reader demo_fs "results.json" demo_results true).
  - repeat constructor; vm_compute; congruence.
  - reflexivity.
  - reflexivity.
Defined.

Lemma bumped_baseline_passes_witness :
  main demo_reader demo_fs
    (mkCli "results.json" "baselines" None (f64_of_decimal false 11 (-1)) None None) = 0.
Proof.
  destruct (bumped_baseline_passes demo_reader demo_fs demo_fs
    (mkCli "results.json" "baselines" None (f64_of_Z 1) (Some "v1.10.0"%string) None)
    (mkCli "results.json" "baselines" None (f64_of_decimal false 11 (-1)) None None)
    "v1.10.0" [Copied "baselines/v1.10.0.json" demo_text] ["v1.9.0.json"; "v1.10.0.json"; "README.md"]%string
    (p99_map demo_results)) as [(body & Hw & Hr & Hpass) _].
  - discriminate.
  - reflexivity.
  - reflexivity.
  - reflexivity.
  - reflexivity.
  - reflexivity.
  - reflexivity.
  - vm_compute. reflexivity.
  - assert (body = demo_text) as -> by (injection Hw as ->; reflexivity).
    apply Hpass; try reflexivity.
    + right. left.
    + intros m k Hm Hne Hk. rewrite !elem_of_cons, elem_of_nil in Hm.
      destruct Hm as [Hm|[Hm|[Hm|[]]]]; subst m.
      * change (Some (1, 9, 0) = Some k) in Hk. injection Hk as <-. change (key_lt (1, 9, 0) (1, 10, 0)).
        right. split; [reflexivity|]. left. reflexivity.
      * exfalso. apply Hne. reflexivity.
      * discriminate Hk.
    + intros n v Hv. unfold p99_map, demo_results in Hv. simpl in Hv. rewrite lookup_insert_Some in Hv.
      destruct Hv as [[_ <-]|[_ Hv]]; [vm_compute; auto|]. rewrite lookup_empty in Hv. discriminate.
Defined.

End LoadTestFacts.
