(* ===== verification/Confinement.v ===== *)
(** * What each handler and each RPC may touch

    Over any API server: the writes of a handler go to the objects its request
    names, and what it sends is appended to the trace.  On a quiet cluster: no
    stored version goes down and no other object changes.  The facts are stated
    once per primitive as a preorder on states and carried through the monads, so
    every RPC of [grpc/service.rs] is covered; [System] composes them along runs
    of the whole server. *)
From S2P Require Export ApplyFacts Server.

(** ** The two endpoints of one cluster

    Configs and Secrets are different resources: a request on one endpoint does
    not change what the other one stores. *)
Class ClusterLaws (W : Type) `{KubeLaws W, SecretLaws W} : Prop := {
  secret_get_frame ns n w r w' : quiet w → secret_get ns n w = (r, w') → quiet w' ∧ store w' = store w;
  secret_patch_frame ns n b w r w' : quiet w → secret_patch ns n b w = (r, w') → quiet w' ∧ store w' = store w;
  kube_get_frame ns n w r w' : squiet w → kube_get ns n w = (r, w') → squiet w' ∧ sstore w' = sstore w;
  kube_patch_frame ns n b w r w' : squiet w → kube_patch ns n b w = (r, w') → squiet w' ∧ sstore w' = sstore w;
  kube_list_frame ns n rv w r w' : squiet w → kube_list_exact ns n rv w = (r, w') → squiet w' ∧ sstore w' = sstore w
}.

(** ** What the handlers send

    A handler is built from reads, patches, sleeps and counters; a preorder on
    states that holds across each of them, patches of [ks] included, holds across
    every handler that targets [ks]. *)
Section Closed.
Context {W : Type} `{KubeApi W}.

Record closed (ks : list (string * string)) (R : relation (Env W)) : Prop := {
  cl_pre : PreOrder R;
  cl_get ns n e : R e (api_get ns n e).2;
  cl_list ns n rv e : R e (api_list_exact ns n rv e).2;
  cl_sleep ms e : R e (emit (IoSleep ms) e);
  cl_count ns res e : R e (count_apply ns res e).2;
  cl_patch ns n body e : (ns, n) ∈ ks → R e (api_patch ns n body e).2
}.

(** A computation keeps to [R]: every final state is related to the initial one. *)
Definition keeps {A} (R : relation (Env W)) (m : M W A) : Prop := ∀ e, R e (m e).2.

Context (ks : list (string * string)) (R : relation (Env W)) (HR : closed ks R).
#[local] Instance closed_preorder : PreOrder R := cl_pre _ _ HR.

Lemma keeps_ret {A} (a : A) : keeps R (ret a).
Proof using HR. by intros e. Qed.
Lemma keeps_fail {A} s : keeps R (fail s : M W A).
Proof using HR. by intros e. Qed.
Lemma keeps_lift {A} (r : rpc A) : keeps R (lift r).
Proof using HR. by intros e. Qed.
Lemma keeps_bind {A B} (m : M W A) (k : A → M W B) :
  keeps R m → (∀ a, keeps R (k a)) → keeps R (bind m k).
Proof using HR.
  intros Hm Hk e. unfold bind. specialize (Hm e). destruct (m e) as [[a|s] e1]; simpl in *; [|done].
  etrans; [exact Hm|apply Hk].
Qed.
#[local] Hint Resolve keeps_ret keeps_fail keeps_lift keeps_bind : core.

Lemma keeps_fetch_current ns n : keeps R (fetch_current_schema_version ns n).
Proof using HR.
  intros e. unfold fetch_current_schema_version. pose proof (cl_get _ _ HR ns n e) as Hg.
  destruct (api_get ns n e) as [[o|err] e1]; simpl in *; [done|]. by case_bool_decide.
Qed.

Lemma keeps_count ns res : keeps R (count_apply ns res).
Proof using HR. intros e. apply (cl_count _ _ HR). Qed.
#[local] Hint Resolve keeps_fetch_current keeps_count : core.

Lemma keeps_patch_loop nanos ns n body fuel a e :
  (ns, n) ∈ ks → R e (patch_loop nanos fuel a (patch_once ns n body) e).2.
Proof using HR.
  intros Hin. revert a e; induction fuel as [|fuel IH]; intros a e; simpl; [done|].
  unfold patch_once at 1. pose proof (cl_patch _ _ HR ns n body e Hin) as Hp.
  destruct (api_patch ns n body e) as [[o|err] e1]; simpl in *; [done|].
  destruct (classify_patch_error err a); [|done..].
  etrans; [exact Hp|]. etrans; [apply (cl_sleep _ _ HR)|apply IH].
Qed.

Lemma keeps_apply_spec tp nanos ns n spec : (ns, n) ∈ ks → keeps R (apply_spec tp nanos ns n spec).
Proof using HR.
  intros Hin. unfold apply_spec. apply keeps_bind; [done|]. intros cur.
  destruct (schema_version_decision _ _); [|auto]. intros e.
  pose proof (keeps_patch_loop nanos ns n (patch_body tp ns n spec) 3 0 e Hin) as Hl.
  unfold patch_with_retry, run_patch_retry_loop. change (S (length RETRY_DELAYS_MS)) with 3%nat.
  destruct (patch_loop _ _ _ _ _) as [[rv|s] e1]; simpl in *; (etrans; [exact Hl|]).
  - apply (cl_count _ _ HR).
  - apply (cl_count _ _ HR).
Qed.

Lemma keeps_apply {V} yaml (it : V → json → list string) tp nanos t req :
  (ar_namespace req, ar_name req) ∈ ks → keeps R (handle_apply yaml it tp nanos t req).
Proof using HR.
  intros Hin. unfold handle_apply, apply_inner. destruct (yaml _); [|auto].
  apply keeps_bind; [auto|]. intros _. by apply keeps_apply_spec.
Qed.

Lemma keeps_fetch_currents items : keeps R (fetch_currents items).
Proof using HR. induction items; simpl; eauto 10. Qed.

Lemma keeps_apply_items tp nanos items :
  (∀ it, it ∈ items → item_key it ∈ ks) → keeps R (apply_items tp nanos items).
Proof using HR.
  induction items as [|it items IH]; intros Hin; simpl; [auto|]. apply keeps_bind.
  - apply keeps_apply_spec, (Hin it). by left.
  - intros rv. apply keeps_bind; [|auto]. apply IH. intros x Hx. apply Hin. by right.
Qed.

Lemma keeps_batch_gate {V} yaml (it : V → json → list string) t reqs : keeps R (batch_gate yaml it t reqs).
Proof using HR. unfold batch_gate. eauto 10 using keeps_fetch_currents. Qed.

Lemma keeps_dry_run yaml to_string req : keeps R (handle_dry_run_apply yaml to_string req).
Proof using HR.
  unfold handle_dry_run_apply. destruct (yaml _); [|auto]. intros e.
  pose proof (cl_get _ _ HR (ar_namespace req) (ar_name req) e) as Hg.
  destruct (api_get _ _ e) as [[o|err] e1]; simpl in *; [done|]. by case_bool_decide.
Qed.

Lemma keeps_historical de ns n rv : keeps R (fetch_historical_spec de ns n rv).
Proof using HR.
  intros e. unfold fetch_historical_spec. pose proof (cl_list _ _ HR ns n rv e) as Hl.
  destruct (api_list_exact ns n rv e) as [[os|err] e1]; simpl in *; [|done]. by destruct (filter _ os).
Qed.

Lemma keeps_revert tp nanos de req :
  (rr_namespace req, rr_name req) ∈ ks → keeps R (handle_revert tp nanos de req).
Proof using HR.
  intros Hin. unfold handle_revert. destruct (is_empty _); [auto|].
  apply keeps_bind; [apply keeps_historical|]. intros h. apply keeps_bind; [auto|]. intros c.
  apply keeps_bind; [by apply keeps_apply_spec|auto].
Qed.
End Closed.

(** The items that pass the gate are those of the request. *)
Lemma parsed_targets yaml reqs items it :
  parse_batch_items yaml reqs = Ok items → it ∈ items →
  item_key it ∈ (λ r, (ar_namespace r, ar_name r)) <$> reqs.
Proof.
  intros (_ & H2 & _)%parse_batch_items_ok Hit. apply list_elem_of_lookup in Hit as [i Hi].
  destruct (Forall2_lookup_r _ _ _ _ _ H2 Hi) as (r & Hr & -> & _).
  apply list_elem_of_fmap. exists r. split; [done|]. by eapply list_elem_of_lookup_2.
Qed.

Lemma batch_gate_parsed {W} `{KubeApi W} {V} yaml (it : V → json → list string) t reqs (e : Env W) items e1 :
  batch_gate yaml it t reqs e = (Ok items, e1) → parse_batch_items yaml reqs = Ok items.
Proof.
  unfold batch_gate. rewrite bind_ok. intros (i & e2 & Hp & Hrest). unfold lift in Hp. injection Hp as Hp _.
  rewrite bind_ok in Hrest. destruct Hrest as ([] & e3 & _ & Hrest).
  rewrite bind_ok in Hrest. destruct Hrest as (cs & e4 & _ & Hrest).
  rewrite bind_ok in Hrest. destruct Hrest as ([] & e5 & _ & Hrest). unfold ret in Hrest. by simplify_eq.
Qed.

Lemma keeps_batch_apply {W} `{KubeApi W} {V} ks (R : relation (Env W)) yaml (it : V → json → list string)
    tp nanos t reqs :
  closed ks R → (λ r, (ar_namespace r, ar_name r)) <$> reqs ⊆ ks →
  keeps R (handle_batch_apply yaml it tp nanos t reqs).
Proof.
  intros HR Hs e. unfold handle_batch_apply, bind. pose proof (cl_pre _ _ HR).
  pose proof (keeps_batch_gate ks R HR yaml it t reqs e) as Hg.
  destruct (batch_gate yaml it t reqs e) as [[items|s] e1] eqn:Hb; simpl in *; [|done].
  etrans; [exact Hg|]. eapply keeps_apply_items; [done|]. intros x Hx.
  unfold sort_batch_items in Hx. rewrite merge_sort_Permutation in Hx.
  eapply Hs, parsed_targets; [|done]. by eapply batch_gate_parsed.
Qed.

(** *** Two such relations *)
Section Instances.
Context {W : Type} `{KubeApi W}.

(** The trace only grows, and only [ks] were patched. *)
Definition sends (ks : list (string * string)) (e e' : Env W) : Prop :=
  ∃ new, e_trace e' = e_trace e ++ new ∧ ∀ ns n body, IoPatch ns n body ∈ new → (ns, n) ∈ ks.

#[global] Instance sends_preorder ks : PreOrder (sends ks).
Proof.
  split.
  - intros e. exists []. rewrite app_nil_r. split; [done|]. by intros ns n b Hin%not_elem_of_nil.
  - intros a b c (n1 & H1 & Hk1) (n2 & H2 & Hk2). exists (n1 ++ n2). rewrite H2, H1, app_assoc.
    split; [done|]. intros ns n body [?|?]%elem_of_app; eauto.
Qed.

Lemma sends_one ks e io w a :
  (∀ ns n body, io = IoPatch ns n body → (ns, n) ∈ ks) → sends ks e (mkEnv w (e_trace e ++ [io]) a).
Proof. intros Hk. exists [io]. split; [done|]. intros ns n b Hin%list_elem_of_singleton. by eapply Hk. Qed.

Lemma sends_same ks e e' : e_trace e' = e_trace e → sends ks e e'.
Proof. intros Ht. exists []. rewrite app_nil_r. split; [done|]. by intros ? ? ? Hin%not_elem_of_nil. Qed.

Lemma closed_sends ks : closed ks (sends ks).
Proof.
  split; [apply _|..]; intros; unfold api_get, api_list_exact, api_patch, emit; try (by apply sends_same).
  - destruct (kube_get _ _ _). by apply sends_one.
  - destruct (kube_list_exact _ _ _ _). by apply sends_one.
  - by apply sends_one.
  - destruct (kube_patch _ _ _ _). apply sends_one. by intros ? ? ? [= <- <- <-].
Qed.
End Instances.

(** ** The Secret endpoint *)
Section SecretClosed.
Context (base64 : list Z → list Z) (yaml_map : string → result (gmap string string) string) (nanos : nat → Z).
Context {W : Type} `{SecretApi W}.
Context (R : relation W) (R_pre : PreOrder R) (req : ApplyRequest).
Context (R_get : ∀ w, R w (secret_get (ar_namespace req) (ar_name req) w).2).
Context (R_patch : ∀ b w, R w (secret_patch (ar_namespace req) (ar_name req) b w).2).

Lemma keeps_apply_secret e :
  R (sv_kube e) (sv_kube (handle_apply_secret base64 yaml_map nanos req e).2).
Proof using Type*.
  unfold handle_apply_secret, apply_secret_inner. destruct (yaml_map _) as [p|]; [|done].
  unfold fetch_current_secret_version. specialize (R_get (sv_kube e)).
  destruct (secret_get _ _ (sv_kube e)) as [r w]; simpl in *.
  destruct (match r with Ok _ => _ | Err _ => _ end) as [cr e1] eqn:Hf.
  assert (Hw : sv_kube e1 = w) by (destruct r as [|]; [|case_bool_decide]; by simplify_eq/=).
  destruct cr as [cur|st]; [|by simpl; rewrite Hw]. destruct (_ <=? _); [by simpl; rewrite Hw|].
  rewrite <- Hw in R_get. etrans; [exact R_get|].
  unfold patch_secret_with_retry, run_secret_patch_retry_loop. generalize 0%nat as a.
  generalize (S (length SECRET_RETRY_DELAYS_MS)) as fuel. intros fuel. clear Hf Hw R_get.
  revert e1; induction fuel as [|fuel IH]; intros e1 a; simpl; [done|].
  specialize (R_patch (build_patch (ar_namespace req) (ar_name req) (incoming_version p) (encoded_data base64 p)) (sv_kube e1)) as Hp.
  destruct (secret_patch _ _ _ (sv_kube e1)) as [pr w1]; simpl in *. destruct pr as [o|err]; [done|].
  destruct (classify_secret_patch_error err a); [|done..]. etrans; [exact Hp|]. apply (IH (mkSecretEnv w1 _)).
Qed.
End SecretClosed.

(** Versions read from the cluster are [u32]. *)
Lemma current_u32 {W} `{KubeApi W} ns n (e : Env W) v e1 :
  fetch_current_schema_version ns n e = (Ok v, e1) → in_u32 v.
Proof.
  unfold fetch_current_schema_version. destruct (api_get ns n e) as [[o|err] e2].
  - intros [= <- _]. apply as_u32_range.
  - case_bool_decide; [|done]. by intros [= <- _].
Qed.

Lemma historical_u32 {W} `{KubeApi W} de ns n rv (e : Env W) spec e1 :
  fetch_historical_spec de ns n rv e = (Ok spec, e1) → in_u32 (cs_schema_version spec).
Proof.
  unfold fetch_historical_spec. destruct (api_list_exact ns n rv e) as [[os|err] e2]; [|done].
  destruct (filter _ os) as [|o os']; [done|]. intros [= Hp _]. unfold parse_historical_obj in Hp.
  destruct (json_get _ _); [|done]. destruct (config_spec_of_json _) eqn:Hc; [|done]. simplify_eq.
  by apply config_spec_of_json_range in Hc.
Qed.

(** ** On a quiet cluster *)
Section Cluster.
Context {W : Type} `{ClusterLaws W}.
#[local] Notation wstore e := (store (e_kube e)).

(** Config versions do not go down, and only [ks] changed. *)
Definition grows (ks : list (string * string)) (e e' : Env W) : Prop :=
  quiet (e_kube e) →
  quiet (e_kube e') ∧ (∀ k, stored_version e k ≤ stored_version e' k) ∧ ∀ k, k ∉ ks → wstore e' !! k = wstore e !! k.

#[global] Instance grows_preorder ks : PreOrder (grows ks).
Proof.
  split; [by intros e|]. intros a b c Hab Hbc Hq. destruct (Hab Hq) as (Hq1 & Hv1 & Hf1).
  destruct (Hbc Hq1) as (Hq2 & Hv2 & Hf2). split_and!; [done| |].
  - intros k. specialize (Hv1 k). specialize (Hv2 k). lia.
  - intros k Hk. by rewrite Hf2, Hf1.
Qed.

Lemma grows_same ks e e' : (quiet (e_kube e) → quiet (e_kube e')) → (quiet (e_kube e) → wstore e' = wstore e) → grows ks e e'.
Proof.
  intros Hq Hs Hqe. rewrite (Hs Hqe). split_and!; [auto| |done]. intros k. unfold stored_version. by rewrite Hs.
Qed.

Lemma grows_fetch_current ks ns n : keeps (grows ks) (fetch_current_schema_version ns n).
Proof.
  intros e. destruct (fetch_current_schema_version ns n e) as [r e1] eqn:Hf.
  apply grows_same; intros Hq; by apply fetch_current_spec in Hf as (? & ? & _).
Qed.

Lemma grows_apply_spec tp nanos ks ns n spec :
  in_u32 (cs_schema_version spec) → (ns, n) ∈ ks → keeps (grows ks) (apply_spec tp nanos ns n spec).
Proof.
  intros Hr Hin e Hq. destruct (apply_spec tp nanos ns n spec e) as [r e1] eqn:Ha. simpl.
  destruct (apply_spec_cases _ _ _ _ _ _ _ _ Hq Ha) as (Hq1 & Hcase). split; [done|].
  assert (Hsame : wstore e1 = wstore e →
    (∀ k, stored_version e k ≤ stored_version e1 k) ∧ ∀ k, k ∉ ks → wstore e1 !! k = wstore e !! k).
  { intros Hs. unfold stored_version. by rewrite Hs. }
  assert (Hw : stored_version e (ns, n) < cs_schema_version spec → only_wrote (ns, n) (patch_body tp ns n spec) e e1 →
    (∀ k, stored_version e k ≤ stored_version e1 k) ∧ ∀ k, k ∉ ks → wstore e1 !! k = wstore e !! k).
  { intros Hlt Ho. split.
    - intros k. destruct (only_wrote_version tp ns n spec e e1 k Hr Ho) as [->|[-> ->]]; lia.
    - intros k Hk. apply (proj1 Ho). by intros ->. }
  destruct r as [rv|s].
  - destruct Hcase. by apply Hw; [|apply wrote_only].
  - destruct Hcase as [(_ & _ & Hs & _)|[(_ & Hs & _)|[Hlt Ho]]]; [by apply Hsame..|by apply Hw].
Qed.

Context {V : Type} (yaml : string → result ConfigSpec string) (it : V → json → list string).
Context (tp : option string) (nanos : nat → Z) (de : DeError → string).
Context (yaml_u32 : ∀ y s, yaml y = Ok s → in_u32 (cs_schema_version s)).

Lemma grows_bind {A B} ks (m : M W A) (k : A → M W B) :
  keeps (grows ks) m → (∀ e a e1, m e = (Ok a, e1) → grows ks e1 (k a e1).2) → keeps (grows ks) (bind m k).
Proof using Type.
  intros Hm Hk e. unfold bind. specialize (Hm e). destruct (m e) as [[a|s] e1] eqn:He; simpl in *; [|done].
  etrans; [exact Hm|by eapply Hk].
Qed.

Lemma grows_apply t ks req :
  (ar_namespace req, ar_name req) ∈ ks → keeps (grows ks) (handle_apply yaml it tp nanos t req).
Proof using yaml_u32.
  intros Hin. unfold handle_apply, apply_inner. destruct (yaml _) as [spec|] eqn:Hy; [|by intros ?].
  apply grows_bind; [by intros ?|]. intros e [] e1 _. apply grows_apply_spec; eauto.
Qed.

Lemma grows_apply_items ks items :
  (∀ x, x ∈ items → item_key x ∈ ks ∧ in_u32 (cs_schema_version (bi_spec x))) →
  keeps (grows ks) (apply_items tp nanos items).
Proof using Type.
  induction items as [|x items IH]; intros Hin; simpl; [by intros ?|]. apply grows_bind.
  - apply grows_apply_spec; apply (Hin x); by left.
  - intros e rv e1 _. apply grows_bind; [|by intros ? ? ? _]. apply IH. intros y Hy. apply Hin. by right.
Qed.

Lemma grows_batch t ks reqs :
  (λ r, (ar_namespace r, ar_name r)) <$> reqs ⊆ ks → keeps (grows ks) (handle_batch_apply yaml it tp nanos t reqs).
Proof using yaml_u32.
  intros Hs. unfold handle_batch_apply. apply grows_bind.
  - intros e. destruct (batch_gate yaml it t reqs e) as [r e1] eqn:Hg.
    apply grows_same; intros Hq; by apply batch_gate_spec in Hg as (? & ? & _).
  - intros e items e1 Hg. apply grows_apply_items. intros x Hx.
    unfold sort_batch_items in Hx. rewrite merge_sort_Permutation in Hx. apply batch_gate_parsed in Hg.
    split; [by eapply Hs, parsed_targets|].
    apply parse_batch_items_ok in Hg as (_ & Hf2 & _). apply list_elem_of_lookup in Hx as [i Hi].
    destruct (Forall2_lookup_r _ _ _ _ _ Hf2 Hi) as (q & _ & _ & Hyq). by eapply yaml_u32.
Qed.

Lemma grows_dry_run to_string ks req : keeps (grows ks) (handle_dry_run_apply yaml to_string req).
Proof using Type.
  unfold handle_dry_run_apply. destruct (yaml _); [|by intros ?]. intros e. unfold api_get.
  destruct (kube_get _ _ (e_kube e)) as [r w] eqn:Hg.
  assert (grows ks e (mkEnv w (e_trace e ++ [IoGet (ar_namespace req) (ar_name req)]) (e_applies e))).
  { apply grows_same; intros Hq; by apply get_law in Hg as (? & ? & _). }
  destruct r; simpl; [done|]. by case_bool_decide.
Qed.

Lemma grows_revert ks req :
  (rr_namespace req, rr_name req) ∈ ks → keeps (grows ks) (handle_revert tp nanos de req).
Proof using Type.
  intros Hin. unfold handle_revert. destruct (is_empty _); [by intros ?|].
  apply grows_bind.
  - intros e. destruct (fetch_historical_spec de _ _ _ e) as [r e1] eqn:Hf.
    apply grows_same; intros Hq; by apply fetch_historical_spec_store in Hf as (? & ? & _).
  - intros e h e1 Hh. apply grows_bind; [apply grows_fetch_current|]. intros e2 c e3 Hc.
    apply grows_bind; [|by intros ? ? ? _]. apply grows_apply_spec; [|done]. simpl.
    apply historical_u32 in Hh. apply current_u32 in Hc.
    apply u32_saturating_add_range; [unfold in_u32 in *; lia|by vm_compute].
Qed.
End Cluster.

Lemma apply_secret_squiet {W} `{SecretLaws W} base64 yaml_map nanos req (e : SecretEnv W) :
  let e' := (handle_apply_secret base64 yaml_map nanos req e).2 in
  squiet (sv_kube e) → squiet (sv_kube e').
Proof.
  apply (keeps_apply_secret base64 yaml_map nanos (λ w w', squiet w → squiet w')).
  - split; [by intros ?|]. intros a b c Hab Hbc Hq. auto.
  - intros w Hq. destruct (secret_get _ _ w) eqn:Hg. by eapply secret_get_law.
  - intros b w Hq. destruct (secret_patch _ _ _ w) eqn:Hg. by eapply secret_patch_law.
Qed.

(** *** The Secret endpoint on a quiet cluster *)
Section Secrets.
Context {W : Type} `{ClusterLaws W}.

(** Secret versions do not go down, and only [ks] changed. *)
Definition sgrows (ks : list (string * string)) (w w' : W) : Prop :=
  squiet w →
  squiet w' ∧
  (∀ k o, sstore w !! k = Some o →
     ∃ o', sstore w' !! k = Some o' ∧ parse_secret_schema_version o ≤ parse_secret_schema_version o') ∧
  ∀ k, k ∉ ks → sstore w' !! k = sstore w !! k.

#[global] Instance sgrows_preorder ks : PreOrder (sgrows ks).
Proof.
  split.
  - intros w Hq. split_and!; [done| |done]. intros k o Ho. by exists o.
  - intros a b c Hab Hbc Hq. destruct (Hab Hq) as (Hq1 & Hv1 & Hf1). destruct (Hbc Hq1) as (Hq2 & Hv2 & Hf2).
    split_and!; [done| |].
    + intros k o Ho. destruct (Hv1 k o Ho) as (o1 & Ho1 & ?). destruct (Hv2 k o1 Ho1) as (o2 & Ho2 & ?).
      exists o2. split; [done|lia].
    + intros k Hk. by rewrite Hf2, Hf1.
Qed.

Lemma sgrows_same ks w w' :
  (squiet w → squiet w' ∧ sstore w' = sstore w) → sgrows ks w w'.
Proof.
  intros Hs Hq. destruct (Hs Hq) as [? ->]. split_and!; [done| |done]. intros k o Ho. by exists o.
Qed.

(** Config handlers leave the Secret endpoint alone. *)
Lemma closed_secrets ks sks : closed ks (λ e e' : Env W, sgrows sks (e_kube e) (e_kube e')).
Proof.
  split; [split; repeat intro; [by apply sgrows_preorder|by eapply (sgrows_preorder sks)]|..];
    intros; try (by apply sgrows_same); apply sgrows_same; intros Hq;
    unfold api_get, api_list_exact, api_patch; simpl.
  - destruct (kube_get _ _ _) as [r w] eqn:Hg. by eapply kube_get_frame.
  - destruct (kube_list_exact _ _ _ _) as [r w] eqn:Hg. by eapply kube_list_frame.
  - destruct (kube_patch _ _ _ _) as [r w] eqn:Hg. by eapply kube_patch_frame.
Qed.

Section ApplySecret.
Context (base64 : list Z → list Z) (yaml_map : string → result (gmap string string) string) (nanos : nat → Z).

Lemma apply_secret_frame req (e : SecretEnv W) :
  let e' := (handle_apply_secret base64 yaml_map nanos req e).2 in
  quiet (sv_kube e) → quiet (sv_kube e') ∧ store (sv_kube e') = store (sv_kube e).
Proof.
  apply (keeps_apply_secret base64 yaml_map nanos (λ w w', quiet w → quiet w' ∧ store w' = store w)).
  - split; [by intros ?|]. intros a b c Hab Hbc Hq. destruct (Hab Hq) as [Hq1 <-]. by apply Hbc.
  - intros w Hq. destruct (secret_get _ _ w) eqn:Hg. by eapply secret_get_frame.
  - intros b w Hq. destruct (secret_patch _ _ _ w) eqn:Hg. by eapply secret_patch_frame.
Qed.

Lemma apply_secret_grows req (e : SecretEnv W) :
  sgrows [(ar_namespace req, ar_name req)] (sv_kube e) (sv_kube (handle_apply_secret base64 yaml_map nanos req e).2).
Proof.
  intros Hq. pose proof (apply_secret_squiet base64 yaml_map nanos req e Hq) as Hq'. simpl in Hq'.
  destruct (handle_apply_secret base64 yaml_map nanos req e) as [r e'] eqn:Hr. simpl in *. split; [done|].
  destruct (apply_secret_cases _ _ _ _ _ _ _ Hq Hr) as [[Hst _]|(p & _ & (o & Hst & Hp) & Hlt)]; rewrite Hst.
  { split; [|done]. intros k o Ho. by exists o. }
  destruct (patched_version _ _ _ _ _ (incoming_version_range p) Hp) as [Hver _]. split.
  - intros k o0 Ho0. destruct (decide (k = (ar_namespace req, ar_name req))) as [->|Hne].
    + exists o. rewrite lookup_insert_eq. split; [done|]. apply Hlt in Ho0. lia.
    + exists o0. by rewrite lookup_insert_ne.
  - intros k Hk. rewrite lookup_insert_ne; [done|]. intros <-. apply Hk. by left.
Qed.
End ApplySecret.
End Secrets.

(** ** The RPCs *)
Section Rpc.
Context `{X : Externals} {W : Type} `{ClusterLaws W}.
Context `{!MapIter OwnedKey ConfigSnapshot, !MapIter OwnedKey SecretSnapshot}.
Context (yaml_u32 : ∀ y s, x_yaml_spec y = Ok s → in_u32 (cs_schema_version s)).
#[local] Notation St := (St (W := W)).
#[local] Notation SM := (SM (W := W)).

Definition within {A} (R : relation St) (m : SM A) : Prop := ∀ s, R s (m s).2.

(** A step inside the process: nothing is sent, the audit log only grows, no
    stream is counted in or out. *)
Record local_step (s s' : St) : Prop := {
  lc_env : s_env s' = s_env s;
  lc_audit : lo_audit (s_logs s) `prefix_of` lo_audit (s_logs s');
  lc_counts : tn_counts (s_tenancy s') = tn_counts (s_tenancy s)
}.

(** A call that may patch [ks], write the secrets [sks], and nothing else. *)
Record touches (ks sks : list (string * string)) (s s' : St) : Prop := {
  to_sends : sends ks (s_env s) (s_env s');
  to_grows : grows ks (s_env s) (s_env s');
  to_sgrows : sgrows sks (e_kube (s_env s)) (e_kube (s_env s'));
  to_audit : lo_audit (s_logs s) `prefix_of` lo_audit (s_logs s')
}.

Definition counted ks sks (s s' : St) : Prop :=
  touches ks sks s s' ∧ tn_counts (s_tenancy s') = tn_counts (s_tenancy s).

#[global] Instance touches_preorder ks sks : PreOrder (touches ks sks).
Proof.
  split; [by split|]. intros a b c [? ? ? ?] [? ? ? ?]. by split; etrans.
Qed.
#[global] Instance counted_preorder ks sks : PreOrder (counted ks sks).
Proof. split; [by split|]. intros a b c [? ?] [? ?]. split; [by etrans|congruence]. Qed.

Lemma local_counted ks sks s s' : local_step s s' → counted ks sks s s'.
Proof. intros [He ? ?]. split; [|done]. split; rewrite ?He; done. Qed.

Lemma within_bind {A B} R `{!Transitive R} (m : SM A) (k : A → SM B) :
  within R m → (∀ a, within R (k a)) → within R (sbind m k).
Proof.
  intros Hm Hk s. unfold sbind. specialize (Hm s). destruct (m s) as [[a|e] s1]; simpl in *; [|done].
  etrans; [exact Hm|apply Hk].
Qed.

Lemma within_lift {A} R `{!Reflexive R} (r : rpc A) : within R (slift r).
Proof. by intros s. Qed.
Lemma within_ret {A} R `{!Reflexive R} (a : A) : within R (sret a).
Proof. by intros s. Qed.

(** *** Steps inside the process *)
Lemma local_request_id {T} (req : Request T) : within local_step (request_id req).
Proof.
  intros s. unfold request_id. by destruct (rq_request_id req) as [v|]; [destruct (is_empty (trim v))|].
Qed.

Lemma local_log {T} name (req : Request T) : within local_step (log_rpc_entry name req).
Proof.
  intros s. unfold log_rpc_entry, sbind. pose proof (local_request_id req s) as Hr.
  destruct (request_id req s) as [[i|e] s1]; simpl in *; [|done]. destruct Hr. by split.
Qed.

Lemma local_drain srv : within local_step (check_drain srv).
Proof. intros s. unfold check_drain. by destruct (srv_draining srv). Qed.

Lemma local_rate {T} srv (req : Request T) name cost : within local_step (rate_limit_apply srv req name cost).
Proof. intros s. unfold rate_limit_apply. by destruct (apply_admission _ _ _ _ _ _ _ _) as [[] l]. Qed.

Lemma local_ledger f : within local_step (with_ledger f).
Proof. by intros s. Qed.

Lemma local_emit r : within local_step (audit_emit r).
Proof. intros s. split; [done| |done]. by apply prefix_app_r. Qed.

Lemma local_both srv r : within local_step (audit_both srv r).
Proof.
  intros s. unfold audit_both, sbind; simpl. unfold maybe_emit_k8s_event; simpl.
  destruct (srv_k8s_events srv); (split; [done| |done]; by apply prefix_app_r).
Qed.

Lemma local_capture {T} name (req : Request T) ns n : within local_step (capture name req ns n).
Proof.
  intros s. unfold capture, sbind. pose proof (local_request_id req s) as Hr.
  by destruct (request_id req s) as [[i|e] s1].
Qed.

Lemma counted_local {A} ks sks (m : SM A) : within local_step m → within (counted ks sks) m.
Proof. intros Hm s. apply local_counted, Hm. Qed.

Lemma counted_kube {A} ks sks (m : M W A) :
  (∀ R, closed ks R → keeps R m) → keeps (grows ks) m → within (counted ks sks) (run_kube m).
Proof.
  intros Hc Hg s. unfold run_kube. pose proof (Hc _ (closed_sends ks) (s_env s)) as Hs.
  pose proof (Hc _ (closed_secrets ks sks) (s_env s)) as Hk. specialize (Hg (s_env s)).
  destruct (m (s_env s)) as [r e]; simpl in *. by split.
Qed.

Lemma counted_secret ks req :
  within (counted ks [(ar_namespace req, ar_name req)])
    (run_secret (handle_apply_secret x_base64 x_yaml_map x_nanos req)).
Proof.
  intros s. unfold run_secret.
  pose proof (apply_secret_frame x_base64 x_yaml_map x_nanos req (mkSecretEnv (e_kube (s_env s)) (s_secret_sleeps s))) as Hf.
  pose proof (apply_secret_grows x_base64 x_yaml_map x_nanos req (mkSecretEnv (e_kube (s_env s)) (s_secret_sleeps s))) as Hg.
  destruct (handle_apply_secret _ _ _ _ _) as [r e]; simpl in *. split; [|done]. split; simpl.
  - by apply sends_same.
  - apply grows_same; simpl; intros Hq; by apply Hf.
  - done.
  - done.
Qed.

(** *** What a call writes *)
Definition config_writes (c : Call) : list (string * string) :=
  match c with
  | CApply req => [(ar_namespace (rq_body req), ar_name (rq_body req))]
  | CBatchApply req => (λ r, (ar_namespace r, ar_name r)) <$> rq_body req
  | CRevert req => [(rr_namespace (rq_body req), rr_name (rq_body req))]
  | _ => []
  end.
Definition secret_writes (c : Call) : list (string * string) :=
  match c with CApplySecret req => [(ar_namespace (rq_body req), ar_name (rq_body req))] | _ => [] end.
(** The calls that open a stream. *)
Definition opens (c : Call) : bool := match c with CSubscribe _ _ _ | CSubscribeSecrets _ _ _ => true | _ => false end.

Ltac stay :=
  repeat first
    [ apply counted_local; solve [auto using local_log, local_drain, local_rate, local_ledger, local_emit,
        local_both, local_capture, local_request_id]
    | apply within_lift, _ | apply within_ret, _
    | apply within_bind; [apply _| |intros ?] ].

Lemma counted_items {T} ks sks srv (req : Request T) rid res items :
  within (counted ks sks) (audit_items srv req rid res items).
Proof. induction items as [|x items IH]; cbn [audit_items]; stay. exact IH. Qed.

Lemma serve_counted srv c : opens c = false → within (counted (config_writes c) (secret_writes c)) (serve srv c).
Proof using Type*.
  destruct c; simpl; try done; intros _; unfold erased; (apply within_bind; [apply _| |intros ?; apply within_ret, _]).
  - unfold rpc_get. destruct (rq_body req). stay.
  - unfold rpc_get_all. stay.
  - unfold rpc_apply. stay. apply counted_kube.
    + intros R HR. apply (keeps_apply _ R HR). by left.
    + apply grows_apply; [done|by left].
  - unfold rpc_batch_apply. stay; [|apply counted_items]. apply counted_kube.
    + intros R HR. by apply keeps_batch_apply with (1 := HR).
    + by apply grows_batch.
  - unfold rpc_dry_run_apply. stay. apply counted_kube; [intros R HR; apply (keeps_dry_run _ R HR)|apply grows_dry_run].
  - unfold rpc_revert. stay. apply counted_kube.
    + intros R HR. apply (keeps_revert _ R HR). by left.
    + apply grows_revert. by left.
  - unfold rpc_get_secret. destruct (rq_body req). stay.
  - unfold rpc_get_all_secrets. stay.
  - unfold rpc_apply_secret. stay. apply counted_secret.
Qed.

(** *** Streams *)
Definition live_count (s : St) (i : string) : Z := current (tn_counts (s_tenancy s)) i.
(** What a stream with this guard counts for. *)
Definition held (g : option string) (i : string) : Z := occurrences i (option_list g).

Lemma held_range g i : 0 ≤ held g i ≤ 1.
Proof. unfold held. pose proof (occurrences_bound i (option_list g)). destruct g; simpl in *; lia. Qed.

Lemma held_Some id i : held (Some id) i = if decide (id = i) then 1 else 0.
Proof. unfold held; simpl. rewrite occurrences_cons. unfold occurrences; simpl. case_decide; lia. Qed.
Lemma held_None i : held None i = 0.
Proof. done. Qed.

Lemma admit_stream_count c id mode limit i :
  in_u32 (current c id + 1) → 0 ≤ current c id →
  current (admit_stream c id mode limit).2 i =
    current c i + match (admit_stream c id mode limit).1 with AdmitAllowed g _ _ _ => held (Some g) i | AdmitDenied _ _ => 0 end.
Proof.
  intros Hr Hpos. pose proof (admit_bump c id mode limit) as Hb. destruct c as [inner g]. cbn [sc_inner sc_gauge] in Hb.
  destruct (bump _ inner id) as [[n|e] inner'] eqn:Hbump.
  - destruct Hb as [-> [over ->]]. rewrite run_task_current. apply bump_ok in Hbump as (-> & -> & _).
    rewrite held_Some. rewrite current_insert. unfold current in *; simpl in *. case_decide; subst; [|lia]. rewrite as_u32_id by done. lia.
  - rewrite Hb. simpl. apply bump_err in Hbump as (-> & -> & _). rewrite current_insert.
    case_decide; subst; unfold current; simpl; lia.
Qed.

Lemma release_count c id i :
  0 < current c id → current (release c id) i = current c i - held (Some id) i.
Proof.
  intros Hpos. rewrite release_steps. destruct c as [inner g]; cbn [sc_inner sc_gauge].
  destruct (drop_one inner id) as [inner' z] eqn:Hd.
  assert (Hc : current (mkCounts inner' g) i = current (mkCounts inner g) i - held (Some id) i).
  { rewrite (drop_one_current _ _ _ _ _ _ Hd). rewrite held_Some. case_decide; subst; lia. }
  destruct z; cbv zeta; rewrite ?run_task_current; exact Hc.
Qed.

Lemma admit_subscriber_count {T} srv (req : Request T) s i :
  (∀ j, 0 ≤ live_count s j < u32_max) →
  s_env (admit_subscriber srv req s).2 = s_env s ∧
  lo_audit (s_logs (admit_subscriber srv req s).2) = lo_audit (s_logs s) ∧
  live_count (admit_subscriber srv req s).2 i =
    live_count s i + match (admit_subscriber srv req s).1 with Ok g => held g i | Err _ => 0 end.
Proof.
  intros Hb. unfold admit_subscriber. case_bool_decide.
  { split_and!; [done..|]. simpl. unfold held, occurrences; simpl. lia. }
  set (id := ci_id (identity_of req)).
  pose proof (admit_stream_count (tn_counts (s_tenancy s)) id (srv_quota_mode srv)
    (effective_subscriber_limit (srv_quota srv) (srv_quota_synced srv) (srv_default_max_subscribers srv) id) i) as Hc.
  specialize (Hb id). unfold live_count in Hb.
  destruct (admit_stream _ _ _ _) as [a counts]; simpl in Hc.
  specialize (Hc ltac:(unfold in_u32; lia) ltac:(lia)). by destruct a as [g cur lim []|].
Qed.

Lemma drop_guard_count g s i :
  (∀ j, held g j ≤ live_count s j) → live_count (drop_guard g s) i = live_count s i - held g i.
Proof.
  intros Hg. destruct g as [id|]; [|rewrite held_None; simpl; lia]. unfold live_count; simpl.
  apply release_count. specialize (Hg id). rewrite held_Some, decide_True in Hg by done.
  unfold live_count in Hg. lia.
Qed.

Lemma drop_guard_local g (s : St) : s_env (drop_guard g s) = s_env s ∧ s_logs (drop_guard g s) = s_logs s.
Proof. by destruct g. Qed.

Definition countable (s : St) : Prop := ∀ j, 0 ≤ live_count s j < u32_max.

Lemma counted_live ks sks s s' i : counted ks sks s s' → live_count s' i = live_count s i.
Proof. intros [_ Hc]. unfold live_count. by rewrite Hc. Qed.

(** The head of a stream RPC: refused with nothing counted, or admitted. *)
Lemma stream_head {T A} srv name (req : Request T) (auth : rpc unit) (k : option string → SM A) s r s' :
  countable s →
  sbind (log_rpc_entry name req) (λ _, sbind (check_drain srv) (λ _, sbind (slift auth) (λ _,
    sbind (admit_subscriber srv req) k))) s = (r, s') →
  (∃ e, r = Err e ∧ touches [] [] s s' ∧ ∀ i, live_count s' i = live_count s i) ∨
  (∃ g s1, touches [] [] s s1 ∧ (∀ i, live_count s1 i = live_count s i + held g i) ∧ k g s1 = (r, s')).
Proof.
  intros Hb. unfold sbind at 1. pose proof (local_counted [] [] _ _ (local_log name req s)) as Hl.
  destruct (log_rpc_entry_spec name req s) as (s1 & Hlog & _). rewrite Hlog in *. simpl in Hl.
  assert (Hstop : ∀ e, (Err e, s1) = (r, s') →
    ∃ e, r = Err e ∧ touches [] [] s s' ∧ ∀ i, live_count s' i = live_count s i).
  { intros e [= <- <-]. exists e. split_and!; [done|apply Hl|]. intros i. by eapply counted_live. }
  unfold sbind at 1, check_drain. destruct (srv_draining srv); [intros Hk; left; exact (Hstop _ Hk)|].
  unfold sbind at 1, sret, slift. destruct auth as [[]|e]; [|intros Hk; left; exact (Hstop _ Hk)].
  assert (Hb1 : countable s1) by (intros j; rewrite (counted_live _ _ _ _ j Hl); apply Hb).
  unfold sbind. pose proof (λ i, admit_subscriber_count srv req s1 i Hb1) as Ha.
  destruct (admit_subscriber srv req s1) as [[g|e] s2]; simpl in Ha.
  all: assert (Ht : touches [] [] s s2) by
    (etrans; [apply Hl|]; destruct (Ha ""%string) as (He & Hau & _); split; rewrite ?He, ?Hau; done).
  - intros Hk. right. exists g, s2. split_and!; [done| |done]. intros i. destruct (Ha i) as (_ & _ & ->).
    by rewrite (counted_live _ _ _ _ i Hl).
  - intros [= <- <-]. left. exists e. split_and!; [done..|]. intros i. destruct (Ha i) as (_ & _ & ->).
    rewrite (counted_live _ _ _ _ i Hl). lia.
Qed.

(** Dropping the guard that was just taken. *)
Lemma undo_admission g s s1 i :
  countable s → (∀ j, live_count s1 j = live_count s j + held g j) →
  live_count (drop_guard g s1) i = live_count s i.
Proof.
  intros Hb Hc. rewrite drop_guard_count, Hc; [lia|]. intros j. rewrite Hc. specialize (Hb j). lia.
Qed.

Lemma subscribe_opens srv req rx task s r s' :
  countable s → rpc_subscribe srv req rx task s = (r, s') →
  touches [] [] s s' ∧
  ∀ i, live_count s' i = live_count s i + match r with Ok (_, _, _, g, _) => held g i | Err _ => 0 end.
Proof.
  intros Hb Hr. unfold rpc_subscribe in Hr.
  apply stream_head in Hr as [(e & -> & Ht & Hc)|(g & s1 & Ht & Hc & Hk)]; [| |done].
  { split; [done|]. intros i. rewrite Hc. lia. }
  destruct (handle_subscribe _ _ _ _ _ _) as [[[[f idx] buf]|e] maps]; injection Hk as <- <-.
  - split; [|exact Hc]. etrans; [exact Ht|]. by split.
  - set (s2 := mkSt _ _ _ _ _). assert (Ht2 : touches [] [] s (drop_guard g s2)).
    { etrans; [exact Ht|]. destruct (drop_guard_local g s2) as [He Hl]. split; rewrite ?He, ?Hl; done. }
    split; [exact Ht2|]. intros i. rewrite (undo_admission g s s2 i Hb Hc). lia.
Qed.

Lemma subscribe_secrets_opens srv req live raw s r s' :
  countable s → rpc_subscribe_secrets srv req live raw s = (r, s') →
  touches [] [] s s' ∧
  ∀ i, live_count s' i = live_count s i + match r with Ok (_, g, _) => held g i | Err _ => 0 end.
Proof.
  intros Hb Hr. unfold rpc_subscribe_secrets in Hr.
  apply stream_head in Hr as [(e & -> & Ht & Hc)|(g & s1 & Ht & Hc & Hk)]; [| |done].
  { split; [done|]. intros i. rewrite Hc. lia. }
  unfold sbind at 1 in Hk.
  pose proof (local_counted [] [] _ _ (local_capture "SubscribeSecrets" req (ssr_namespace (rq_body req)) "*" s1)) as Hl.
  destruct (capture _ _ _ _ s1) as [[ra|e] s2] eqn:Hcap; simpl in Hl.
  2: { unfold capture, sbind in Hcap. destruct (request_id_spec req s1) as (? & ? & He & _). by rewrite He in Hcap. }
  assert (Ht2 : touches [] [] s s2) by (etrans; [exact Ht|apply Hl]).
  assert (Hc2 : ∀ j, live_count s2 j = live_count s j + held g j)
    by (intros j; by rewrite (counted_live _ _ _ _ j Hl)).
  destruct (handle_subscribe_secrets _ _ _ _ _ _ _ _ _) as [ch|e].
  - unfold sbind, audit_emit, slift in Hk. injection Hk as <- <-. split.
    + etrans; [exact Ht2|]. split; simpl; [done..|by apply prefix_app_r].
    + exact Hc2.
  - unfold sbind, audit_emit, slift in Hk. injection Hk as <- <-. destruct (drop_guard_local g s2) as [He Hlg]. split.
    + etrans; [exact Ht2|]. split; simpl; rewrite ?He, ?Hlg; [done..|by apply prefix_app_r].
    + intros i. change (live_count (with_logs _ ?x) i) with (live_count x i).
      rewrite (undo_admission g s s2 i Hb Hc2). lia.
Qed.
End Rpc.
