(* ===== verification/System.v ===== *)
(** * The running server

    The whole process as one state machine: the RPCs of any clients, the streams
    they hold and drop, the Config, ConfigMap and Secret watches, the three policy
    watches, the namespace watches, the collector and the drain, in any order.
    Each action is the definition of its component; an RPC is one action that
    runs to its end, so two RPCs do not overlap here and none is cancelled (what overlapping writes can do is [Concurrent],
    what overlapping admissions can do is [sub_step], and the namespace maps under
    interleaving are [Lifecycle]). *)
From S2P Require Export Typing Confinement Startup.

Module System.
Import Typing.

Section System.
Context `{X : Externals} {W : Type} `{ClusterLaws W}.
Context `{!MapIter OwnedKey ConfigSnapshot, !MapIter OwnedKey SecretSnapshot, !MapIter string ShardSet}.
Context `{!MapIter string AclEntry, !MapIter string QuotaEntry, !MapIter string (SchemaEntry (Validator := Validator))}.
Context (yaml_value : string → result json string).          (* YAML of a ConfigMap member *)
Context (draft7_new : json → result Validator string).       (* the schema compiler *)
#[local] Notation St := (St (W := W)).

(** [sy_streams]: the guard of each open stream; [sy_relist], [sy_srelist]: the
    relist buffers of the open watches; [sy_sent]: what each secret broadcast
    carried; then the mirrors of the three policy connections. *)
Record Sys : Type := mkSystem {
  sy_srv : Server;
  sy_st : St;
  sy_streams : list (option string);
  sy_relist : option (list ConfigMutation);
  sy_srelist : gmap string (list SecretMutation);
  sy_sent : gmap string (list SecretEvent);
  sy_acl : gmap string AclEntry;
  sy_quota : gmap string QuotaEntry;
  sy_schema : gmap string (SchemaEntry (Validator := Validator))
}.

(** *** Updates of the shared parts of the server *)
Definition set_cache (c : ConfigCache) (v : Server) : Server :=
  mkServer _ (srv_draining v) (srv_authz_mode v) (srv_acl v) (srv_acl_synced v) (srv_schemas v) (srv_quota_mode v)
    (srv_quota v) (srv_quota_synced v) (srv_default_max_subscribers v) (srv_default_rate v) (srv_default_budget v)
    (srv_shards v) c (srv_secret_cache v) (srv_k8s_events v).
Definition set_secrets (c : SecretCache) (v : Server) : Server :=
  mkServer _ (srv_draining v) (srv_authz_mode v) (srv_acl v) (srv_acl_synced v) (srv_schemas v) (srv_quota_mode v)
    (srv_quota v) (srv_quota_synced v) (srv_default_max_subscribers v) (srv_default_rate v) (srv_default_budget v)
    (srv_shards v) (srv_cache v) c (srv_k8s_events v).
Definition set_policy (acl : AclTable) (acl_synced : bool) (q : QuotaTable) (q_synced : bool)
    (schemas : gmap (string * string) Validator) (v : Server) : Server :=
  mkServer _ (srv_draining v) (srv_authz_mode v) acl acl_synced schemas (srv_quota_mode v) q q_synced
    (srv_default_max_subscribers v) (srv_default_rate v) (srv_default_budget v)
    (srv_shards v) (srv_cache v) (srv_secret_cache v) (srv_k8s_events v).

(** *** Actions *)
Inductive Act : Type :=
  | ACall (c : Call)
  | AClose (i : nat)                                                     (* a client drops its stream *)
  | AConfig (now : Instant) (ev : Event DynamicObject) (batch : bool)    (* [route_config_event] *)
  | AConfigLost (now : Instant)                                          (* stream error *)
  | AConfigMap (now : Instant) (ns : string) (ev : Event ConfigMap)
  | ASecret (now : Instant) (ns : string) (ev : Event Secret) (batch : bool)
  | ASecretLost (now : Instant) (ns : string)
  | AAcl (ev : Event DynamicObject) | AAclConnect
  | AQuota (ev : Event DynamicObject) | AQuotaConnect
  | ASchema (ev : Event DynamicObject) | ASchemaConnect
  | AWatch (now : Instant) (ns : string) (ev : Event DynamicObject)      (* a namespace watch *)
  | ABridgeEnd (ns : string) (rx : nat)                                  (* the bridge of a stream returns *)
  | AGc (now clock : Instant)
  | ADrain.

Definition with_srv (f : Server → Server) (s : Sys) : Sys :=
  mkSystem (f (sy_srv s)) (sy_st s) (sy_streams s) (sy_relist s) (sy_srelist s) (sy_sent s) (sy_acl s) (sy_quota s) (sy_schema s).
Definition with_st (f : St → St) (s : Sys) : Sys :=
  mkSystem (sy_srv s) (f (sy_st s)) (sy_streams s) (sy_relist s) (sy_srelist s) (sy_sent s) (sy_acl s) (sy_quota s) (sy_schema s).
Definition with_streams (l : list (option string)) (s : Sys) : Sys :=
  mkSystem (sy_srv s) (sy_st s) l (sy_relist s) (sy_srelist s) (sy_sent s) (sy_acl s) (sy_quota s) (sy_schema s).
Definition with_maps (f : NsMaps → NsMaps) (s : Sys) : Sys :=
  with_st (λ st, mkSt (s_env st) (s_secret_sleeps st) (s_tenancy st) (s_logs st) (f (s_maps st))) s.

(** A successful subscription holds its guard until its stream is dropped. *)
Definition call (c : Call) (s : Sys) : Sys :=
  match c with
  | CSubscribe req rx task =>
      let '(r, st) := rpc_subscribe (sy_srv s) req rx task (sy_st s) in
      with_streams (sy_streams s ++ match r with Ok (_, _, _, g, _) => [g] | Err _ => [] end) (with_st (λ _, st) s)
  | CSubscribeSecrets req live raw =>
      let '(r, st) := rpc_subscribe_secrets (sy_srv s) req live raw (sy_st s) in
      with_streams (sy_streams s ++ match r with Ok (_, g, _) => [g] | Err _ => [] end) (with_st (λ _, st) s)
  | _ => with_st (λ _, (serve (sy_srv s) c (sy_st s)).2) s
  end.

(** Dropping the stream drops its guard and the receiving end of its channel.
    The bridge task owns the broadcast receiver and looks at that channel only
    when it has an allowed frame to send, so the receiver leaves its shard at the
    bridge's own return, [ABridgeEnd]. *)
Definition close (i : nat) (s : Sys) : Sys :=
  match sy_streams s !! i with
  | Some g => with_streams (delete i (sy_streams s)) (with_st (drop_guard g) s)
  | None => s
  end.

Definition config_event (now : Instant) (ev : Event DynamicObject) (batch : bool) (s : Sys) : Sys :=
  let '(relist, c) := route_config_event now ev (srv_cache (sy_srv s)) (sy_relist s) batch in
  mkSystem (set_cache c (sy_srv s)) (sy_st s) (sy_streams s) relist (sy_srelist s) (sy_sent s) (sy_acl s) (sy_quota s) (sy_schema s).

(** A stream error marks the cache stale; the next connection starts without a
    buffer. *)
Definition config_lost (now : Instant) (s : Sys) : Sys :=
  mkSystem (set_cache (mark_all_stale (srv_cache (sy_srv s)) now) (sy_srv s)) (sy_st s) (sy_streams s) None
    (sy_srelist s) (sy_sent s) (sy_acl s) (sy_quota s) (sy_schema s).

Definition secret_event_at (now : Instant) (ns : string) (ev : Event Secret) (batch : bool) (s : Sys) : Sys :=
  let st := mkSecretSt (srv_secret_cache (sy_srv s)) (default [] (sy_sent s !! ns)) in
  let '(relist, st') := route_secret_event x_base64 x_secret_string x_from_utf8 now ns ev (sy_srelist s !! ns) batch st in
  mkSystem (set_secrets (ss_cache st') (sy_srv s)) (sy_st s) (sy_streams s) (sy_relist s)
    (partial_alter (λ _, relist) ns (sy_srelist s)) (<[ns := ss_sent st']> (sy_sent s)) (sy_acl s) (sy_quota s) (sy_schema s).

Definition secret_lost (now : Instant) (ns : string) (s : Sys) : Sys :=
  mkSystem (set_secrets (mark_all_stale (srv_secret_cache (sy_srv s)) now) (sy_srv s)) (sy_st s) (sy_streams s)
    (sy_relist s) (delete ns (sy_srelist s)) (sy_sent s) (sy_acl s) (sy_quota s) (sy_schema s).

(** One event of a policy watch: the mirror, then the published table. *)
Definition acl_event (ev : Event DynamicObject) (s : Sys) : Sys :=
  let v := sy_srv s in
  let '(changed, m, synced) := handle_acl_event ev (sy_acl s) (srv_acl_synced v) in
  mkSystem (set_policy (if changed : bool then publish acl_build m else srv_acl v) synced (srv_quota v) (srv_quota_synced v)
              (srv_schemas v) v) (sy_st s) (sy_streams s) (sy_relist s) (sy_srelist s) (sy_sent s) m (sy_quota s) (sy_schema s).
Definition quota_event (ev : Event DynamicObject) (s : Sys) : Sys :=
  let v := sy_srv s in
  let '(changed, m, synced) := handle_quota_event ev (sy_quota s) (srv_quota_synced v) in
  mkSystem (set_policy (srv_acl v) (srv_acl_synced v) (if changed : bool then publish quota_build m else srv_quota v) synced
              (srv_schemas v) v) (sy_st s) (sy_streams s) (sy_relist s) (sy_srelist s) (sy_sent s) (sy_acl s) m (sy_schema s).
Definition schema_event (ev : Event DynamicObject) (s : Sys) : Sys :=
  let v := sy_srv s in
  let '(changed, m, _) := handle_schema_event draft7_new ev (sy_schema s) true in
  mkSystem (set_policy (srv_acl v) (srv_acl_synced v) (srv_quota v) (srv_quota_synced v)
              (if changed : bool then publish schema_build m else srv_schemas v) v) (sy_st s) (sy_streams s) (sy_relist s)
    (sy_srelist s) (sy_sent s) (sy_acl s) (sy_quota s) m.

Definition connect_policy (acl quota schema : bool) (s : Sys) : Sys :=
  mkSystem (sy_srv s) (sy_st s) (sy_streams s) (sy_relist s) (sy_srelist s) (sy_sent s)
    (if acl then ∅ else sy_acl s) (if quota then ∅ else sy_quota s) (if schema then ∅ else sy_schema s).

(** A namespace watch that is running records the event in its replay buffer. *)
Definition watch_event (now : Instant) (ns : string) (ev : Event DynamicObject) (m : NsMaps) : NsMaps :=
  match nm_broadcasts m !! ns with
  | Some _ =>
      let '(_, buf) := process_namespace_event x_to_string now ev (default [] (nm_replay m !! ns)) in
      mkMaps (nm_broadcasts m) (<[ns := buf]> (nm_replay m)) (nm_handles m) (nm_idle m)
  | None => m
  end.

(** A bridge that returns (drain, lag, a full or closed channel) drops its
    receiver. *)
Definition bridge_end (ns : string) (rx : nat) (m : NsMaps) : NsMaps :=
  match nm_broadcasts m !! ns with
  | Some s => mkMaps (<[ns := drop_receiver rx s]> (nm_broadcasts m)) (nm_replay m) (nm_handles m) (nm_idle m)
  | None => m
  end.

Definition exec (a : Act) (s : Sys) : Sys :=
  match a with
  | ACall c => call c s
  | AClose i => close i s
  | AConfig now ev batch => config_event now ev batch s
  | AConfigLost now => config_lost now s
  | AConfigMap now ns ev => with_srv (λ v, set_cache (handle_configmap_event yaml_value now ns ev (srv_cache v)) v) s
  | ASecret now ns ev batch => secret_event_at now ns ev batch s
  | ASecretLost now ns => secret_lost now ns s
  | AAcl ev => acl_event ev s
  | AQuota ev => quota_event ev s
  | ASchema ev => schema_event ev s
  | AAclConnect => connect_policy true false false s
  | AQuotaConnect => connect_policy false true false s
  | ASchemaConnect => connect_policy false false true s
  | AWatch now ns ev => with_maps (watch_event now ns ev) s
  | ABridgeEnd ns rx => with_maps (bridge_end ns rx) s
  | AGc now clock => with_maps (λ m, (gc_tick now clock (λ _ m, m) m).1) s
  | ADrain => with_srv (λ v, (begin_drain v).1) s
  end.

(** Runs; the process never holds 2^32 - 1 streams at once. *)
Inductive run : Sys → list Act → Sys → Prop :=
  | run_nil s : run s [] s
  | run_snoc s acts s' a : run s acts s' → Z.of_nat (length (sy_streams s')) < u32_max → run s (acts ++ [a]) (exec a s').

(** ** The invariant *)

(** Every Config write ever sent is in the audit log. *)
Definition writes_audited (st : St) : Prop :=
  ∀ ns n body, IoPatch ns n body ∈ e_trace (s_env st) →
    ∃ a, a ∈ lo_audit (s_logs st) ∧ au_namespace a = ns ∧ au_name a = n ∧
      au_rpc a ∈ ["Apply"; "BatchApply"; "Revert"]%string.

Record sys_ok (s : Sys) : Prop := {
  ok_cache : config_typed (srv_cache (sy_srv s));
  ok_relist : buffer_good good_config (sy_relist s);
  ok_secrets : secret_typed (srv_secret_cache (sy_srv s));
  ok_srelist : map_Forall (λ _ buf, Forall (mutation_good good_secret) buf) (sy_srelist s);
  ok_counts i : live_count (sy_st s) i = occurrences i (omap id (sy_streams s));
  ok_audit : writes_audited (sy_st s)
}.

Lemma occurrences_omap_app i l g : occurrences i (omap id (l ++ [g])) = occurrences i (omap id l) + held g i.
Proof. rewrite omap_app, occurrences_app. unfold held. by destruct g. Qed.

Lemma length_omap_id (l : list (option string)) : (length (omap id l) ≤ length l)%nat.
Proof. induction l as [|[g|] l IH]; cbn; [done|lia..]. Qed.

Lemma streams_countable s :
  sys_ok s → Z.of_nat (length (sy_streams s)) < u32_max → countable (sy_st s).
Proof.
  intros Hok Hl i. rewrite (ok_counts _ Hok). pose proof (occurrences_bound i (omap id (sy_streams s))).
  pose proof (length_omap_id (sy_streams s)). lia.
Qed.

(** The records a call leaves cover what it wrote. *)
Lemma config_writes_audited c ns n :
  (ns, n) ∈ config_writes c →
  ∃ name, (name, ns, n) ∈ audited c ∧ name ∈ ["Apply"; "BatchApply"; "Revert"]%string.
Proof.
  destruct c; simpl; try (by intros Hin%not_elem_of_nil).
  - intros Hin%list_elem_of_singleton. injection Hin as -> ->. exists "Apply"%string. split; [by left|set_solver].
  - intros (r & [= -> ->] & Hr)%list_elem_of_fmap. exists "BatchApply"%string. split; [|set_solver].
    apply list_elem_of_fmap. by exists r.
  - intros Hin%list_elem_of_singleton. injection Hin as -> ->. exists "Revert"%string. split; [by left|set_solver].
Qed.

Lemma call_audited {A} c (s : St) (r : rpc A) s' :
  sends (config_writes c) (s_env s) (s_env s') → accounted c s r s' → writes_audited s → writes_audited s'.
Proof.
  intros (new & Ht & Hnew) (recs & Hl & Hc) Hs ns n body. rewrite Ht. intros [Hin|Hin]%elem_of_app.
  { destruct (Hs ns n body Hin) as (a & Ha & ?). exists a. rewrite Hl. split; [|done]. apply elem_of_app. by left. }
  destruct Hc as [[Hk _]|(-> & _ & He & _)].
  - apply Hnew, config_writes_audited in Hin as (name & Hau & Hn). rewrite <- Hk in Hau.
    apply list_elem_of_fmap in Hau as (a & Ha & Hin). unfold audit_key in Ha. simplify_eq.
    exists a. rewrite Hl. split_and!; [|done..]. apply elem_of_app. by right.
  - exfalso. rewrite He in Ht. assert (new = []) as -> by (by apply app_inv_head with (e_trace (s_env s)); rewrite app_nil_r).
    by apply not_elem_of_nil in Hin.
Qed.

(** A step that leaves the server's state outside the maps alone. *)
Lemma ok_same_st s s' :
  s_env (sy_st s') = s_env (sy_st s) → s_tenancy (sy_st s') = s_tenancy (sy_st s) → s_logs (sy_st s') = s_logs (sy_st s) →
  sy_streams s' = sy_streams s →
  config_typed (srv_cache (sy_srv s')) → buffer_good good_config (sy_relist s') →
  secret_typed (srv_secret_cache (sy_srv s')) →
  map_Forall (λ _ buf, Forall (mutation_good good_secret) buf) (sy_srelist s') →
  sys_ok s → sys_ok s'.
Proof.
  intros He Ht Hl Hst Hc Hr Hs Hsr [_ _ _ _ Hcnt Hau]. split; [done..| |].
  - intros i. unfold live_count in *. by rewrite Ht, Hst.
  - unfold writes_audited. by rewrite He, Hl.
Qed.

Context (yaml_u32 : ∀ y s, x_yaml_spec y = Ok s → in_u32 (cs_schema_version s)).

Lemma serve_accounted srv c (s : St) r s' : serve srv c s = (r, s') → accounted c s r s'.
Proof. intros Hs. destruct c; (by apply (accounted_writes srv)) || (by apply (accounted_reads srv)). Qed.

(** The stream RPCs are the served calls with their reply. *)
Lemma subscribe_served srv req rx task (s : St) :
  (serve srv (CSubscribe req rx task) s).2 = (rpc_subscribe srv req rx task s).2.
Proof. simpl. unfold erased, sbind. by destruct (rpc_subscribe _ _ _ _ _) as [[] ?]. Qed.
Lemma subscribe_secrets_served srv req live raw (s : St) :
  (serve srv (CSubscribeSecrets req live raw) s).2 = (rpc_subscribe_secrets srv req live raw s).2.
Proof. simpl. unfold erased, sbind. by destruct (rpc_subscribe_secrets _ _ _ _ _) as [[] ?]. Qed.

(** What a call does to the state, whichever call it is. *)
Lemma call_touches c s :
  sys_ok s → Z.of_nat (length (sy_streams s)) < u32_max →
  touches (config_writes c) (secret_writes c) (sy_st s) (sy_st (call c s)) ∧
  sy_st (call c s) = (serve (sy_srv s) c (sy_st s)).2.
Proof using Type*.
  intros Hok Hlen. pose proof (streams_countable s Hok Hlen) as Hb.
  destruct (opens c) eqn:Ho.
  - destruct c; try done; unfold call.
    + rewrite subscribe_served. destruct (rpc_subscribe _ _ _ _ _) as [r st] eqn:Hr. split; [|done].
      by apply subscribe_opens in Hr as [? _].
    + rewrite subscribe_secrets_served. destruct (rpc_subscribe_secrets _ _ _ _ _) as [r st] eqn:Hr. split; [|done].
      by apply subscribe_secrets_opens in Hr as [? _].
  - pose proof (serve_counted yaml_u32 (sy_srv s) c Ho (sy_st s)) as [? _]. by destruct c.
Qed.

Lemma call_ok c s : sys_ok s → Z.of_nat (length (sy_streams s)) < u32_max → sys_ok (call c s).
Proof using Type*.
  intros Hok Hlen. pose proof (call_touches c s Hok Hlen) as [Ht Hst].
  pose proof (streams_countable s Hok Hlen) as Hb.
  destruct (serve (sy_srv s) c (sy_st s)) as [r st'] eqn:Hs. simpl in Hst.
  assert (Hau : writes_audited (sy_st (call c s))).
  { eapply call_audited; [apply Ht| |apply Hok]. rewrite Hst. by eapply serve_accounted. }
  assert (Hcnt : ∀ i, live_count (sy_st (call c s)) i = occurrences i (omap id (sy_streams (call c s)))).
  { intros i. clear Hau Ht Hst. destruct (opens c) eqn:Ho.
    - destruct c; try done; unfold call.
      + destruct (rpc_subscribe _ _ _ _ _) as [r' st] eqn:Hr. apply subscribe_opens in Hr as [_ Hc]; [|done].
        simpl. rewrite Hc, (ok_counts _ Hok). destruct r' as [[[[[f idx] buf] g] acct]|e].
        * by rewrite occurrences_omap_app.
        * rewrite app_nil_r. lia.
      + destruct (rpc_subscribe_secrets _ _ _ _ _) as [r' st] eqn:Hr. apply subscribe_secrets_opens in Hr as [_ Hc]; [|done].
        simpl. rewrite Hc, (ok_counts _ Hok). destruct r' as [[[ch g] acct]|e].
        * by rewrite occurrences_omap_app.
        * rewrite app_nil_r. lia.
    - pose proof (serve_counted yaml_u32 (sy_srv s) c Ho (sy_st s)) as Hc. apply (counted_live _ _ _ _ i) in Hc.
      assert (call c s = with_st (λ _, (serve (sy_srv s) c (sy_st s)).2) s) as -> by (by destruct c).
      simpl. rewrite Hc. apply Hok. }
  destruct Hok as [Hc Hr Hse Hsr _ _].
  split; try done; (destruct c; simpl; try done; by destruct (rpc_subscribe _ _ _ _ _) || destruct (rpc_subscribe_secrets _ _ _ _ _)).
Qed.

Lemma close_ok i s : sys_ok s → sys_ok (close i s).
Proof.
  intros Hok. unfold close. destruct (sy_streams s !! i) as [g|] eqn:Hi; [|done].
  assert (Hsplit : ∀ j, occurrences j (omap id (sy_streams s)) = occurrences j (omap id (delete i (sy_streams s))) + held g j).
  { intros j. rewrite <- (take_drop_middle _ _ _ Hi) at 1. rewrite delete_take_drop, !omap_app, !occurrences_app.
    change (g :: drop (S i) (sy_streams s)) with ([g] ++ drop (S i) (sy_streams s)).
    rewrite omap_app, occurrences_app. unfold held. destruct g; simpl; lia. }
  assert (Hcnt := ok_counts _ Hok). destruct Hok as [Hc Hr Hse Hsr _ Hau]. split; try done.
  - intros j. simpl. rewrite drop_guard_count, Hcnt, Hsplit; [lia|]. intros j'. rewrite Hcnt, Hsplit.
    pose proof (occurrences_bound j' (omap id (delete i (sy_streams s)))). lia.
  - unfold writes_audited. simpl. destruct (drop_guard_local g (sy_st s)) as [-> ->]. exact Hau.
Qed.

(** Every action keeps the invariant. *)
Lemma exec_ok a s : sys_ok s → Z.of_nat (length (sy_streams s)) < u32_max → sys_ok (exec a s).
Proof using Type*.
  intros Hok Hlen. pose proof Hok as [Hc Hr Hse Hsr _ _].
  destruct a; simpl; try (by apply call_ok || by apply close_ok);
    try (eapply (ok_same_st s); [done..|]; exact Hok).
  - pose proof (typed_route_config now ev (sy_relist s) batch _ Hr Hc) as [? ?]. unfold config_event.
    destruct (route_config_event _ _ _ _ _) as [relist c]. by eapply (ok_same_st s).
  - eapply (ok_same_st s); try done. simpl. by apply (typed_stale good_config good_config_stale).
  - eapply (ok_same_st s); try done. simpl. by apply typed_configmap_event.
  - assert (Hbuf : buffer_good good_secret (sy_srelist s !! ns)).
    { destruct (sy_srelist s !! ns) as [buf|] eqn:Hn; [|done]. exact (Hsr ns buf Hn). }
    set (st := mkSecretSt (srv_secret_cache (sy_srv s)) (default [] (sy_sent s !! ns))).
    pose proof (typed_route_secret x_base64 x_secret_string x_from_utf8 now ns ev (sy_srelist s !! ns) batch st Hbuf Hse)
      as [Hb' Hs']. unfold secret_event_at. fold st.
    destruct (route_secret_event _ _ _ _ _ _ _ _ _) as [relist st']. simpl in *.
    eapply (ok_same_st s); try done. simpl. intros k buf Hk. destruct (decide (k = ns)) as [->|Hne].
    + rewrite lookup_partial_alter_eq in Hk. destruct relist; by simplify_eq.
    + rewrite lookup_partial_alter_ne in Hk by done. exact (Hsr k buf Hk).
  - eapply (ok_same_st s); try done; simpl.
    + by apply (typed_stale good_secret good_secret_stale).
    + by apply map_Forall_delete.
  - unfold acl_event. destruct (handle_acl_event _ _ _) as [[ch m] sy]. by eapply (ok_same_st s).
  - unfold quota_event. destruct (handle_quota_event _ _ _) as [[ch m] sy]. by eapply (ok_same_st s).
  - unfold schema_event. destruct (handle_schema_event _ _ _ _) as [[ch m] sy]. by eapply (ok_same_st s).
Qed.

Lemma run_ok s acts s' : run s acts s' → sys_ok s → sys_ok s'.
Proof using Type*. induction 1; [done|]. intros Hs. apply exec_ok; auto. Qed.

(** ** Histories *)

(** Secret versions do not go down, wherever they were written. *)
Definition secret_versions_grow (w w' : W) : Prop :=
  squiet w → squiet w' ∧ ∀ k o, sstore w !! k = Some o →
    ∃ o', sstore w' !! k = Some o' ∧ parse_secret_schema_version o ≤ parse_secret_schema_version o'.
Definition config_versions_grow (e e' : Env W) : Prop :=
  quiet (e_kube e) → quiet (e_kube e') ∧ ∀ k, stored_version e k ≤ stored_version e' k.

(** What never goes back; on a draining server no stream is added. *)
Record advances (s s' : Sys) : Prop := {
  ad_audit : lo_audit (s_logs (sy_st s)) `prefix_of` lo_audit (s_logs (sy_st s'));
  ad_modes : srv_authz_mode (sy_srv s') = srv_authz_mode (sy_srv s) ∧ srv_quota_mode (sy_srv s') = srv_quota_mode (sy_srv s);
  ad_synced : srv_acl_synced (sy_srv s) = true → srv_acl_synced (sy_srv s') = true;
  ad_draining : srv_draining (sy_srv s) = true →
    srv_draining (sy_srv s') = true ∧ sy_streams s' `sublist_of` sy_streams s;
  ad_versions : config_versions_grow (s_env (sy_st s)) (s_env (sy_st s'));
  ad_secrets : secret_versions_grow (e_kube (s_env (sy_st s))) (e_kube (s_env (sy_st s')))
}.

#[global] Instance advances_preorder : PreOrder advances.
Proof.
  split.
  - intros s. split; try done. intros Hq. split; [done|]. intros k o Ho. by exists o.
  - intros a b c [Ha1 [Hm1 Hm1'] Hs1 Hd1 Hv1 Hse1] [Ha2 [Hm2 Hm2'] Hs2 Hd2 Hv2 Hse2]. split.
    + by etrans.
    + split; congruence.
    + auto.
    + intros Hd. destruct (Hd1 Hd) as [Hd' ?]. destruct (Hd2 Hd') as [? ?]. split; [done|by etrans].
    + intros Hq. destruct (Hv1 Hq) as [Hq' Hle]. destruct (Hv2 Hq') as [? Hle']. split; [done|].
      intros k. specialize (Hle k). specialize (Hle' k). lia.
    + intros Hq. destruct (Hse1 Hq) as [Hq' Hle]. destruct (Hse2 Hq') as [? Hle']. split; [done|].
      intros k o Ho. destruct (Hle k o Ho) as (o1 & Ho1 & ?). destruct (Hle' k o1 Ho1) as (o2 & ? & ?).
      exists o2. split; [done|lia].
Qed.

Lemma advances_local s s' :
  s_env (sy_st s') = s_env (sy_st s) → s_logs (sy_st s') = s_logs (sy_st s) →
  sy_streams s' `sublist_of` sy_streams s →
  srv_authz_mode (sy_srv s') = srv_authz_mode (sy_srv s) → srv_quota_mode (sy_srv s') = srv_quota_mode (sy_srv s) →
  (srv_acl_synced (sy_srv s) = true → srv_acl_synced (sy_srv s') = true) →
  (srv_draining (sy_srv s) = true → srv_draining (sy_srv s') = true) → advances s s'.
Proof.
  intros He Hl Hst Ha Hq Hs Hd. split; rewrite ?He, ?Hl; auto; try done.
  intros Hqu. split; [done|]. intros k o Ho. by exists o.
Qed.

(** A draining server opens no stream. *)
Lemma call_draining c s : srv_draining (sy_srv s) = true → sy_streams (call c s) = sy_streams s.
Proof.
  intros Hd. destruct c; try done; unfold call.
  - destruct (rpc_subscribe _ _ _ _ _) as [r st] eqn:Hr. unfold rpc_subscribe in Hr.
    apply guarded in Hr as [(e & -> & _)|(Hd' & _)]; [|congruence]. apply app_nil_r.
  - destruct (rpc_subscribe_secrets _ _ _ _ _) as [r st] eqn:Hr. unfold rpc_subscribe_secrets in Hr.
    apply guarded in Hr as [(e & -> & _)|(Hd' & _)]; [|congruence]. apply app_nil_r.
Qed.

Lemma call_srv c s : sy_srv (call c s) = sy_srv s.
Proof.
  destruct c; simpl; try done; [by destruct (rpc_subscribe _ _ _ _ _)|by destruct (rpc_subscribe_secrets _ _ _ _ _)].
Qed.

Lemma exec_advances a s : sys_ok s → Z.of_nat (length (sy_streams s)) < u32_max → advances s (exec a s).
Proof using Type*.
  intros Hok Hlen. destruct a; simpl; try (by apply advances_local).
  - pose proof (call_touches c s Hok Hlen) as [[Hs Hg Hsg Ha] _]. split; rewrite ?call_srv; try done.
    + intros Hd. split; [done|]. by rewrite call_draining.
    + intros Hq. destruct (Hg Hq) as (? & ? & _). done.
    + intros Hq. destruct (Hsg Hq) as (? & ? & _). done.
  - unfold close. destruct (sy_streams s !! i) as [g|]; [|done]. destruct (drop_guard_local g (sy_st s)) as [He Hl].
    apply advances_local; try done. simpl. apply sublist_delete.
  - unfold config_event. destruct (route_config_event _ _ _ _ _). by apply advances_local.
  - unfold secret_event_at. destruct (route_secret_event _ _ _ _ _ _ _ _ _). by apply advances_local.
  - unfold acl_event. pose proof (mirror_event_synced parse_acl_object ev (sy_acl s) (srv_acl_synced (sy_srv s))) as Hsy.
    unfold handle_acl_event. destruct (mirror_event _ _ _ _) as [[ch m] sy]. simpl in Hsy.
    apply advances_local; try done. simpl. intros Ht. by rewrite Hsy, Ht.
  - unfold quota_event. destruct (handle_quota_event _ _ _) as [[ch m] sy]. by apply advances_local.
  - unfold schema_event. destruct (handle_schema_event _ _ _ _) as [[ch m] sy]. by apply advances_local.
Qed.

Lemma run_advances s acts s' : run s acts s' → sys_ok s → advances s s'.
Proof using Type*.
  induction 1 as [|s acts s' a Hr IH Hl]; intros Hok; [done|]. etrans; [by apply IH|].
  apply exec_advances; [|done]. by eapply run_ok.
Qed.

(** ** Who wrote what *)
Lemma config_writes_targets c ns n : (ns, n) ∈ config_writes c → (Write, ns, n) ∈ targets c.
Proof.
  destruct c; simpl; try (by intros Hin%not_elem_of_nil).
  - intros Hin%list_elem_of_singleton. injection Hin as -> ->. by left.
  - intros (r & [= -> ->] & Hr)%list_elem_of_fmap. apply list_elem_of_fmap. by exists r.
  - intros Hin%list_elem_of_singleton. injection Hin as -> ->. by left.
Qed.

(** The permission a served write had, from the server as it was then. *)
Definition permitted (v : Server) (c : Call) (ns n : string) : Prop :=
  (ns, n) ∈ config_writes c ∧
  (srv_draining v = true → is_revert c = true) ∧
  (srv_authz_mode v = Enforce →
     srv_acl_synced v = true ∧ ci_anonymous (caller c) = false ∧
     AclTable_grants (srv_acl v) (ci_id (caller c)) Write ns n = true).

Lemma exec_patches a s ns n body :
  sys_ok s → Z.of_nat (length (sy_streams s)) < u32_max →
  IoPatch ns n body ∈ e_trace (s_env (sy_st (exec a s))) →
  IoPatch ns n body ∈ e_trace (s_env (sy_st s)) ∨ ∃ c, a = ACall c ∧ permitted (sy_srv s) c ns n.
Proof using Type*.
  intros Hok Hlen. destruct a; simpl; try (intros Hin; by left).
  - pose proof (call_touches c s Hok Hlen) as [[(new & Ht & Hnew) _ _ _] Hst].
    intros Hin. rewrite Ht in Hin. apply elem_of_app in Hin as [Hin|Hin]; [by left|right].
    exists c. split; [done|]. pose proof (Hnew ns n body Hin) as Hw. split; [done|].
    destruct (serve (sy_srv s) c (sy_st s)) as [r st] eqn:Hs. simpl in Hst.
    apply serve_head in Hs as [(e & _ & Hu & _)|[Hauth Hd]].
    { exfalso. rewrite Hst, (un_env _ _ Hu) in Ht. rewrite <- (app_nil_r (e_trace _)) in Ht at 1.
      apply app_inv_head in Ht as <-. by apply not_elem_of_nil in Hin. }
    split; [intros Hdr; destruct (is_revert c); [done|]; by rewrite (Hd eq_refl) in Hdr|].
    intros Hm. pose proof (auth_of_enforce (sy_srv s) c Hm) as Ha. rewrite Hauth in Ha.
    by apply Ha, config_writes_targets.
  - unfold close. destruct (sy_streams s !! i) as [g|]; [|by left]. simpl.
    destruct (drop_guard_local g (sy_st s)) as [-> _]. by left.
  - unfold config_event. destruct (route_config_event _ _ _ _ _). by left.
  - unfold secret_event_at. destruct (route_secret_event _ _ _ _ _ _ _ _ _). by left.
  - unfold acl_event. destruct (handle_acl_event _ _ _) as [[ch m] sy]. by left.
  - unfold quota_event. destruct (handle_quota_event _ _ _) as [[ch m] sy]. by left.
  - unfold schema_event. destruct (handle_schema_event _ _ _ _) as [[ch m] sy]. by left.
Qed.

Lemma run_patches s acts s' ns n body :
  run s acts s' → sys_ok s → IoPatch ns n body ∈ e_trace (s_env (sy_st s')) →
  IoPatch ns n body ∈ e_trace (s_env (sy_st s)) ∨
  ∃ before c after mid, acts = before ++ ACall c :: after ∧ run s before mid ∧ permitted (sy_srv mid) c ns n.
Proof using Type*.
  induction 1 as [|s acts s' a Hr IH Hl]; intros Hok Hin; [by left|].
  apply exec_patches in Hin as [Hin|(c & -> & Hp)]; [| |by eapply run_ok|done].
  - destruct (IH Hok Hin) as [?|(b & c & af & mid & -> & ? & ?)]; [by left|right].
    exists b, c, (af ++ [a]), mid. split_and!; [|done..]. by rewrite <- app_assoc.
  - right. by exists acts, c, [], s'.
Qed.

(** ** The server that was started *)
Definition started (srv : Server) (w : W) : Sys :=
  mkSystem srv (mkSt (mkEnv w [] ∅) [] (mkTenancy ∅ counts_new ledger_new ∅ ∅) (mkLogs 0 [] [] []) (mkMaps ∅ ∅ ∅ ∅))
    [] None ∅ ∅ ∅ ∅ ∅.

Lemma started_ok fs kube bind tls_ok now authz_var quota_var ev args evs srv b w :
  boot fs kube bind tls_ok now authz_var quota_var ev args = (evs, Ok (Accepting srv b)) → sys_ok (started srv w).
Proof.
  intros (cfg & -> & _ & Hc & Hse)%boot_accepting. split; simpl; try done.
  - rewrite Hc. apply initial_config_typed. by vm_compute.
  - rewrite Hse. apply initial_secret_typed.
  - unfold writes_audited. by intros ns n body Hin%not_elem_of_nil.
Qed.

(** ** The claims, from a process that has just started *)
Context (fs : Fs) (kube : result unit string) (bind : string → bool) (tls_ok : ServerTlsConfig → result unit string).
Context (now : Instant) (authz_var quota_var : option string) (ev : bool) (args : Args).
Context (evs : list BootEvent) (srv : Server) (b : Builder) (w : W).
Context (Hboot : boot fs kube bind tls_ok now authz_var quota_var ev args = (evs, Ok (Accepting srv b))).

(** C5: the server stays sound whatever it is asked and whatever its watches
    deliver.  From start-up, after any sequence of RPCs, dropped streams, watch
    events and errors, policy changes, collections and a drain: both caches are
    well typed, the subscriber count of every identity is the number of streams
    it holds, and every Config write that was ever sent has its audit record. *)
Theorem system_invariant acts s' :
  run (started srv w) acts s' →
  config_typed (srv_cache (sy_srv s')) ∧ secret_typed (srv_secret_cache (sy_srv s')) ∧
  (∀ i, live_count (sy_st s') i = occurrences i (omap id (sy_streams s'))) ∧
  (∀ ns n body, IoPatch ns n body ∈ e_trace (s_env (sy_st s')) →
     ∃ a, a ∈ lo_audit (s_logs (sy_st s')) ∧ au_namespace a = ns ∧ au_name a = n ∧
       au_rpc a ∈ ["Apply"; "BatchApply"; "Revert"]%string).
Proof using Type*.
  intros Hr. apply run_ok in Hr as [? _ ? _ ? ?]; [done|]. by eapply started_ok.
Qed.

(** C6: what a server that serves its RPCs one at a time never takes back.
    Between any two moments of a run in which every RPC is one action (none
    overlaps another and none is cancelled) the audit log is only appended to, the
    modes stay, an ACL table once listed stays listed, a drain is final and opens
    no stream; while nobody else writes to the cluster, no stored Config or Secret
    version goes down.  Overlapping RPCs keep less: two Applies to one Config can
    take it from version 5 back to 4 ([acknowledged_overwritten]); what they do
    keep is [writers_interleaved]. *)
Theorem system_history acts mid acts' s' :
  run (started srv w) acts mid → run mid acts' s' →
  lo_audit (s_logs (sy_st mid)) `prefix_of` lo_audit (s_logs (sy_st s')) ∧
  srv_authz_mode (sy_srv s') = Mode_from_env authz_var ∧
  (srv_acl_synced (sy_srv mid) = true → srv_acl_synced (sy_srv s') = true) ∧
  (srv_draining (sy_srv mid) = true →
     srv_draining (sy_srv s') = true ∧ sy_streams s' `sublist_of` sy_streams mid) ∧
  config_versions_grow (s_env (sy_st mid)) (s_env (sy_st s')) ∧
  secret_versions_grow (e_kube (s_env (sy_st mid))) (e_kube (s_env (sy_st s'))).
Proof using Type*.
  intros Hr Hr'. assert (Hok : sys_ok (started srv w)) by (by eapply started_ok).
  destruct (run_advances _ _ _ Hr Hok) as [_ [Hm _] _ _ _ _].
  destruct (run_advances _ _ _ Hr' (run_ok _ _ _ Hr Hok)) as [? [Hm' _] ? ? ? ?]. split_and!; try done.
  rewrite Hm', Hm. apply boot_accepting in Hboot as (cfg & -> & <- & _). done.
Qed.

(** C7: no Config is written without permission.  Every write in the history
    of a server comes from an RPC it was asked, on an object that RPC names, and at
    that moment: on a draining server the RPC was Revert, and in enforce mode the
    ACL table had been listed and granted the verified caller a write to it. *)
Theorem system_writes_authorized acts s' ns n body :
  run (started srv w) acts s' → IoPatch ns n body ∈ e_trace (s_env (sy_st s')) →
  ∃ before c after mid, acts = before ++ ACall c :: after ∧ run (started srv w) before mid ∧
    permitted (sy_srv mid) c ns n.
Proof using Type*.
  intros Hr Hin. destruct (run_patches _ _ _ _ _ _ Hr (started_ok _ _ _ _ _ _ _ _ _ _ _ _ w Hboot) Hin) as [H0in|?]; [|done].
  by apply not_elem_of_nil in H0in.
Qed.
End System.

(** ** Witnesses *)
Module SystemDemo.
Import CanonicalIter ServerDemo StartupDemo.

(** Both endpoints of one cluster. *)
Definition World : Type := ScriptKube * gmap (string * string) Secret.

#[export] Instance World_kube : KubeApi World := {|
  kube_get ns n w := let '(r, k) := kube_get ns n w.1 in (r, (k, w.2));
  kube_patch ns n body w := let '(r, k) := kube_patch ns n body w.1 in (r, (k, w.2));
  kube_list_exact ns n rv w := let '(r, k) := kube_list_exact ns n rv w.1 in (r, (k, w.2))
|}.
#[export] Instance World_secrets : SecretApi World := {|
  secret_get ns n w := (ok_or (w.2 !! (ns, n)) (ApiErr 404 "not found"), w);
  secret_patch ns n body w := (Ok body, (w.1, <[(ns, n) := body]> w.2))
|}.

#[export, program] Instance World_kube_laws : KubeLaws World := {| quiet w := quiet w.1; store w := store w.1 |}.
Next Obligation.
  intros ns n [k s] r w' Hq Hr. unfold kube_get, World_kube in Hr. destruct (kube_get ns n (k, s).1) as [r' k'] eqn:Hk.
  injection Hr as <- <-. exact (get_law _ _ _ _ _ Hq Hk).
Qed.
Next Obligation.
  intros ns n body [k s] r w' Hq Hr. unfold kube_patch, World_kube in Hr.
  destruct (kube_patch ns n body (k, s).1) as [r' k'] eqn:Hk. injection Hr as <- <-. exact (patch_law _ _ _ _ _ _ Hq Hk).
Qed.
Next Obligation.
  intros ns n rv [k s] r w' Hq Hr. unfold kube_list_exact, World_kube in Hr.
  destruct (kube_list_exact ns n rv (k, s).1) as [r' k'] eqn:Hk. injection Hr as <- <-. exact (list_law _ _ _ _ _ _ Hq Hk).
Qed.

#[export, program] Instance World_secret_laws : SecretLaws World := {| squiet _ := True; sstore w := w.2 |}.
Next Obligation. intros ns n w r w' _ Hr. injection Hr as <- <-. by destruct (w.2 !! (ns, n)). Qed.
Next Obligation. intros ns n body w r w' _ Hr. injection Hr as <- <-. unfold patched, includes. by split_and!. Qed.

#[export] Instance World_laws : ClusterLaws World.
Proof.
  split.
  - intros ns n w r w' Hq Hr. by injection Hr as <- <-.
  - intros ns n b w r w' Hq Hr. by injection Hr as <- <-.
  - intros ns n w r w' Hq Hr. unfold kube_get, World_kube in Hr. destruct (kube_get ns n w.1). by injection Hr as <- <-.
  - intros ns n b w r w' Hq Hr. unfold kube_patch, World_kube in Hr. destruct (kube_patch ns n b w.1).
    by injection Hr as <- <-.
  - intros ns n rv w r w' Hq Hr. unfold kube_list_exact, World_kube in Hr. destruct (kube_list_exact ns n rv w.1).
    by injection Hr as <- <-.
Qed.

Lemma demo_yaml_u32 y s : x_yaml_spec y = Ok s → in_u32 (cs_schema_version s).
Proof. exact (toy_yaml_range y s). Qed.

(** The demo process lists a ConfigACL that grants [svc] writes to [prod/*], an
    Apply and a Subscribe of [svc] come in, the server drains. *)
Definition writer_acl : DynamicObject :=
  mkObj (mkMeta (Some "o1"%string) None None None None)
    (JObj [("spec", JObj [("identity", JStr "svc");
      ("rules", JArr [JObj [("verbs", JArr [JStr "read"; JStr "write"]); ("patterns", JArr [JStr "prod/*"])]])])])%string.
Definition grant : list Act := [AAcl Init; AAcl (InitApply writer_acl); AAcl InitDone].
Definition traffic : list Act :=
  [ACall (demo_apply (Some [[1]])); ACall (demo_apply None);
   AConfig 5 (Apply (demo_obj "web" 4 "rv0")) true; ADrain; ACall (demo_apply (Some [[1]]))].

Definition no_value (_ : string) : result json string := Err "no value"%string.
Definition no_compiler (_ : json) : result string string := Err "no schema"%string.
Definition execs (acts : list Act) (s : Sys (W := World)) : Sys :=
  foldl (λ s a, exec no_value no_compiler a s) s acts.

Lemma execs_run s0 acts :
  (∀ k, (k ≤ length acts)%nat → Z.of_nat (length (sy_streams (execs (take k acts) s0))) < u32_max) →
  run no_value no_compiler s0 acts (execs acts s0).
Proof.
  induction acts as [|a acts IH] using rev_ind; intros Hl; [constructor|].
  unfold execs. rewrite foldl_app. simpl. constructor.
  - apply IH. intros k Hk. specialize (Hl k). rewrite take_app_le in Hl by done. apply Hl. rewrite length_app. simpl. lia.
  - specialize (Hl (length acts)). rewrite take_app_le, take_ge in Hl by done. apply Hl. rewrite length_app. simpl. lia.
Qed.

Definition demo_start : Sys (W := World) := started demo_booted (empty_kube, ∅).

Lemma demo_few k : (k ≤ 8)%nat → Z.of_nat (length (sy_streams (execs (take k (grant ++ traffic)) demo_start))) < u32_max.
Proof. intros Hk. do 9 (destruct k as [|k]; [vm_compute; reflexivity|]). lia. Qed.
End SystemDemo.
Import CanonicalIter ServerDemo StartupDemo SystemDemo.

(** The Apply of [svc] and nothing else was written, and it is on record. *)
Lemma system_invariant_witness :
  let s' := execs (grant ++ traffic) demo_start in
  length (patches (s_env (sy_st s'))) = 1%nat ∧
  config_typed (srv_cache (sy_srv s')) ∧ secret_typed (srv_secret_cache (sy_srv s')) ∧
  (∀ i, live_count (sy_st s') i = occurrences i (omap id (sy_streams s'))).
Proof.
  intros s'. split; [vm_compute; reflexivity|].
  destruct (system_invariant (X := demo_externals) (W := World) no_value no_compiler demo_yaml_u32 demo_fs (Ok tt) (λ _, true) (λ _, Ok tt) 0 (Some "enforce"%string) None false
    (demo_args 40) booted.1 demo_booted demo_builder (empty_kube, ∅) demo_booted_eq (grant ++ traffic) s') as (? & ? & ? & _).
  - apply execs_run, demo_few.
  - auto.
Defined.

(** The permitted write: the Apply of [svc], once the ConfigACL was listed. *)
Lemma system_writes_authorized_witness :
  let s' := execs (grant ++ traffic) demo_start in
  ∃ body, IoPatch "prod" "web" body ∈ e_trace (s_env (sy_st s')) ∧
  ∃ before c after (mid : Sys (W := World)),
    grant ++ traffic = before ++ ACall c :: after ∧ permitted (sy_srv mid) c "prod" "web".
Proof.
  intros s'. exists (patch_body None "prod" "web" (mkConfigSpec 4 (JObj []))).
  assert (Hin : IoPatch "prod" "web" (patch_body None "prod" "web" (mkConfigSpec 4 (JObj []))) ∈ e_trace (s_env (sy_st s'))).
  { apply list_elem_of_In. vm_compute. tauto. }
  split; [exact Hin|].
  destruct (system_writes_authorized (X := demo_externals) (W := World) no_value no_compiler demo_yaml_u32 demo_fs (Ok tt)
    (λ _, true) (λ _, Ok tt) 0 (Some "enforce"%string) None false (demo_args 40) booted.1 demo_booted demo_builder
    (empty_kube, ∅) demo_booted_eq (grant ++ traffic) s' "prod" "web" _ (execs_run demo_start (grant ++ traffic) demo_few) Hin)
    as (before & c & after & mid & Hsp & Hr & Hp).
  exists before, c, after, mid. split; [exact Hsp|exact Hp].
Defined.

(** The drain in the middle of the run is final, and the log has grown. *)
Lemma system_history_witness :
  let mid := execs grant demo_start in
  let s' := execs traffic mid in
  lo_audit (s_logs (sy_st mid)) `prefix_of` lo_audit (s_logs (sy_st s')) ∧ length (lo_audit (s_logs (sy_st s'))) = 1%nat ∧
  srv_authz_mode (sy_srv s') = Enforce ∧ srv_acl_synced (sy_srv s') = true ∧
  config_versions_grow (s_env (sy_st mid)) (s_env (sy_st s')).
Proof.
  intros mid s'.
  destruct (system_history (X := demo_externals) (W := World) no_value no_compiler demo_yaml_u32 demo_fs (Ok tt)
    (λ _, true) (λ _, Ok tt) 0 (Some "enforce"%string) None false (demo_args 40) booted.1 demo_booted demo_builder
    (empty_kube, ∅) demo_booted_eq grant mid traffic s') as (Hp & Hm & Hs & _ & Hv & _).
  - apply execs_run. intros k Hk. do 4 (destruct k as [|k]; [vm_compute; reflexivity|]). simpl in Hk. lia.
  - apply execs_run. intros k Hk. do 6 (destruct k as [|k]; [vm_compute; reflexivity|]). simpl in Hk. lia.
  - split_and!; [exact Hp|vm_compute; reflexivity|exact Hm|apply Hs; vm_compute; reflexivity|exact Hv].
Defined.
End System.
