(* ===== verification/Metrics.v ===== *)
(** * The metrics registry

    [metrics.rs]: the lazily registered statics, the recorders the other parts
    call, the guard of the subscriber gauge and the copy of the runtime's counters.
    The Prometheus registry is an interface ([Prometheus]): what the code relies on
    is [PrometheusLaws].  Values are the binary64 numbers the exposition shows. *)
From Stdlib Require Import SpecFloat.
From S2P Require Export Quota TenantCache Rounding SubscribeFacts.

Module Metrics.
Open Scope string_scope.
Open Scope Z_scope.

(** ** Descriptors *)
Inductive Kind : Set := Gauge | IntGauge | Counter | Histogram (buckets : list spec_float).
Record Desc : Set := mkDesc { d_name : string; d_help : string; d_labels : list string; d_kind : Kind }.

(** A decimal literal: [m * 10^e]. *)
Definition dec (m e : Z) : spec_float := f64_of_decimal false m e.

Definition RPC_LATENCY_BUCKETS : list spec_float :=
  [dec 1 (-3); dec 5 (-3); dec 1 (-2); dec 25 (-3); dec 5 (-2); dec 1 (-1); dec 25 (-2); dec 5 (-1); dec 1 0; dec 25 (-1); dec 5 0; dec 10 0].
Definition SUBSCRIBE_LATENCY_BUCKETS : list spec_float :=
  [dec 1 (-4); dec 5 (-4); dec 1 (-3); dec 5 (-3); dec 1 (-2); dec 25 (-3); dec 5 (-2); dec 1 (-1); dec 5 (-1); dec 1 0].
Definition PIPELINE_STAGE_BUCKETS : list spec_float :=
  [dec 1 (-4); dec 25 (-5); dec 5 (-4); dec 1 (-3); dec 25 (-4); dec 5 (-3); dec 1 (-2); dec 25 (-3); dec 5 (-2); dec 1 (-1)].
Definition H2_FRAME_BYTE_BUCKETS : list spec_float :=
  [dec 256 0; dec 512 0; dec 1024 0; dec 2048 0; dec 4096 0; dec 8192 0; dec 16384 0; dec 32768 0; dec 65536 0].

Definition ACTIVE_SUBSCRIBERS : Desc :=
  mkDesc "konfig_active_subscribers"
    "Current number of active gRPC Subscribe streams"
    ["namespace"] Gauge.
Definition EVENTS_BROADCAST : Desc :=
  mkDesc "konfig_events_broadcast_total"
    "Total ConfigEvents broadcast per namespace"
    ["namespace"] Counter.
Definition BROADCAST_LAG : Desc :=
  mkDesc "konfig_broadcast_lag_total"
    "Total number of subscriber lag disconnects per namespace"
    ["namespace"] Counter.
Definition SUBSCRIBE_SNAPSHOT_EMITTED : Desc :=
  mkDesc "konfig_subscribe_snapshot_emitted_total"
    "Subscribers that received a synchronous snapshot on connect (empty resume_rv)"
    ["kind"] Counter.
Definition CACHE_ENTRIES : Desc :=
  mkDesc "konfig_cache_entries"
    "Current number of entries in each cache"
    ["cache"] Gauge.
Definition CACHE_WRITE_MUTATIONS_TOTAL : Desc :=
  mkDesc "konfig_cache_write_mutations_total"
    "Total cache write mutations (whole-map clone+swap) per cache"
    ["cache"] Counter.
Definition REPLAY_BUFFER_DEPTH : Desc :=
  mkDesc "konfig_replay_buffer_depth"
    "Number of events currently held in the per-namespace replay buffer"
    ["namespace"] Gauge.
Definition STALE_SECONDS : Desc :=
  mkDesc "konfig_stale_seconds"
    "Seconds since the watcher last received an event from the K8s API server (0 = fresh)"
    ["namespace"] Gauge.
Definition APPLY_TOTAL : Desc :=
  mkDesc "konfig_apply_total"
    "Total Apply RPC calls per namespace and result"
    ["namespace"; "result"] Counter.
Definition APPLY_DURATION : Desc :=
  mkDesc "konfig_apply_duration_seconds"
    "Apply RPC handler duration in seconds"
    ["namespace"; "result"] (Histogram RPC_LATENCY_BUCKETS).
Definition GET_DURATION : Desc :=
  mkDesc "konfig_get_duration_seconds"
    "Get/GetAll RPC handler duration in seconds"
    ["namespace"] (Histogram RPC_LATENCY_BUCKETS).
Definition SUBSCRIBE_E2E_LATENCY : Desc :=
  mkDesc "konfig_subscribe_e2e_latency_seconds"
    "Subscribe end-to-end latency (broadcast send to subscriber mpsc enqueue) in seconds"
    ["namespace"] (Histogram SUBSCRIBE_LATENCY_BUCKETS).
Definition APPLY_TO_BROADCAST_SECONDS : Desc :=
  mkDesc "konfig_apply_to_broadcast_seconds"
    "Seconds from kube watch event observed to broadcast::send (proto encode + replay-push)"
    [] (Histogram PIPELINE_STAGE_BUCKETS).
Definition BROADCAST_TO_ENCODE_SECONDS : Desc :=
  mkDesc "konfig_broadcast_to_encode_seconds"
    "Seconds from broadcast::send to subscriber bcast_rx.recv() return (broadcast fan-out hop)"
    [] (Histogram PIPELINE_STAGE_BUCKETS).
Definition ENCODE_TO_SEND_SECONDS : Desc :=
  mkDesc "konfig_encode_to_send_seconds"
    "Seconds from bridge recv to per-subscriber mpsc try_send completion (encode + hand-off)"
    [] (Histogram PIPELINE_STAGE_BUCKETS).
Definition WRITEV_CALLS_TOTAL : Desc :=
  mkDesc "konfig_writev_calls_total"
    "Total successful per-subscriber mpsc sends (proxy for h2 writev calls)"
    [] Counter.
Definition H2_DATA_FRAME_BYTES : Desc :=
  mkDesc "konfig_h2_data_frame_bytes"
    "Encoded ConfigEvent size in bytes (prost::encoded_len) — proxy for h2 DATA frame payload"
    [] (Histogram H2_FRAME_BYTE_BUCKETS).
Definition TOKIO_WORKERS_COUNT : Desc :=
  mkDesc "tokio_workers_count"
    "Number of worker threads in the tokio runtime"
    [] IntGauge.
Definition TOKIO_PARK_COUNT_TOTAL : Desc :=
  mkDesc "tokio_park_count_total"
    "Total park count summed across all workers in the last interval"
    [] IntGauge.
Definition TOKIO_NOOP_COUNT_TOTAL : Desc :=
  mkDesc "tokio_noop_count_total"
    "Total noop count (parks that found no work) in the last interval"
    [] IntGauge.
Definition TOKIO_STEAL_COUNT_TOTAL : Desc :=
  mkDesc "tokio_steal_count_total"
    "Total tasks stolen across all workers in the last interval"
    [] IntGauge.
Definition TOKIO_STEAL_OPERATIONS_TOTAL : Desc :=
  mkDesc "tokio_steal_operations_total"
    "Total steal operations across all workers in the last interval"
    [] IntGauge.
Definition TOKIO_REMOTE_SCHEDULES_TOTAL : Desc :=
  mkDesc "tokio_remote_schedules_total"
    "Tasks scheduled remotely (off-runtime) in the last interval"
    [] IntGauge.
Definition TOKIO_LOCAL_SCHEDULES_TOTAL : Desc :=
  mkDesc "tokio_local_schedules_total"
    "Tasks scheduled on the local worker queue in the last interval"
    [] IntGauge.
Definition TOKIO_OVERFLOW_COUNT_TOTAL : Desc :=
  mkDesc "tokio_overflow_count_total"
    "Times the local worker queue overflowed into the global queue"
    [] IntGauge.
Definition TOKIO_POLLS_COUNT_TOTAL : Desc :=
  mkDesc "tokio_polls_count_total"
    "Total task polls across all workers in the last interval"
    [] IntGauge.
Definition TOKIO_BUSY_DURATION_TOTAL : Desc :=
  mkDesc "tokio_busy_duration_total"
    "Total worker busy duration in seconds (summed across workers) in the last interval"
    [] Gauge.
Definition TOKIO_BUSY_RATIO : Desc :=
  mkDesc "tokio_busy_ratio"
    "Fraction of worker time spent busy (0.0–1.0) in the last interval"
    [] Gauge.
Definition TOKIO_MEAN_POLLS_PER_PARK : Desc :=
  mkDesc "tokio_mean_polls_per_park"
    "Mean polls processed per worker park in the last interval"
    [] Gauge.
Definition TOKIO_MEAN_POLL_DURATION_SECONDS : Desc :=
  mkDesc "tokio_mean_poll_duration_seconds"
    "Mean task poll duration across all workers (seconds) in the last interval"
    [] Gauge.
Definition TOKIO_LOCAL_QUEUE_DEPTH_TOTAL : Desc :=
  mkDesc "tokio_local_queue_depth_total"
    "Sum of per-worker local queue depths at sample time"
    [] IntGauge.
Definition TOKIO_GLOBAL_QUEUE_DEPTH : Desc :=
  mkDesc "tokio_global_queue_depth"
    "Global injection queue depth at sample time"
    [] IntGauge.
Definition TOKIO_BLOCKING_QUEUE_DEPTH : Desc :=
  mkDesc "tokio_blocking_queue_depth"
    "Pending tasks in the blocking-thread queue at sample time"
    [] IntGauge.
Definition TOKIO_BLOCKING_THREADS_COUNT : Desc :=
  mkDesc "tokio_blocking_threads_count"
    "Number of live blocking-pool threads at sample time"
    [] IntGauge.
Definition TOKIO_IDLE_BLOCKING_THREADS_COUNT : Desc :=
  mkDesc "tokio_idle_blocking_threads_count"
    "Number of idle blocking-pool threads at sample time"
    [] IntGauge.
Definition TOKIO_LIVE_TASKS_COUNT : Desc :=
  mkDesc "tokio_live_tasks_count"
    "Number of live tasks tracked by the tokio runtime at sample time"
    [] IntGauge.
Definition TOKIO_BUDGET_FORCED_YIELDS_TOTAL : Desc :=
  mkDesc "tokio_budget_forced_yields_total"
    "Times a task was forced to yield by the cooperative scheduling budget"
    [] IntGauge.
Definition TOKIO_IO_DRIVER_READY_TOTAL : Desc :=
  mkDesc "tokio_io_driver_ready_total"
    "I/O driver readiness events processed in the last interval"
    [] IntGauge.
Definition TENANT_SUBSCRIBERS : Desc :=
  mkDesc "konfig_tenant_subscribers"
    "Live concurrent Subscribe/SubscribeSecrets streams per tenant identity"
    ["identity"] Gauge.
Definition TENANT_QUOTA_DENIED_TOTAL : Desc :=
  mkDesc "konfig_tenant_quota_denied_total"
    "Per-tenant quota denials by rpc and enforcement mode"
    ["rpc"; "mode"] Counter.
Definition TENANT_CACHE_BYTES : Desc :=
  mkDesc "konfig_tenant_cache_bytes"
    "Attributed cached payload bytes per tenant identity"
    ["identity"] Gauge.
Definition TENANT_CACHE_EVICTIONS_TOTAL : Desc :=
  mkDesc "konfig_tenant_cache_evictions_total"
    "Per-tenant cache-view evictions on budget breach"
    ["identity"] Counter.
Definition TENANT_APPLIES_TOTAL : Desc :=
  mkDesc "konfig_tenant_applies_total"
    "Per-tenant admitted Apply volume (cost-weighted) by identity"
    ["identity"] Counter.

(** Every static of the [lazy_static!] block, in its order. *)
Definition catalogue : list Desc :=
  [ACTIVE_SUBSCRIBERS; EVENTS_BROADCAST; BROADCAST_LAG; SUBSCRIBE_SNAPSHOT_EMITTED; CACHE_ENTRIES;
   CACHE_WRITE_MUTATIONS_TOTAL; REPLAY_BUFFER_DEPTH; STALE_SECONDS; APPLY_TOTAL; APPLY_DURATION; GET_DURATION;
   SUBSCRIBE_E2E_LATENCY; APPLY_TO_BROADCAST_SECONDS; BROADCAST_TO_ENCODE_SECONDS; ENCODE_TO_SEND_SECONDS;
   WRITEV_CALLS_TOTAL; H2_DATA_FRAME_BYTES; TOKIO_WORKERS_COUNT; TOKIO_PARK_COUNT_TOTAL;
   TOKIO_NOOP_COUNT_TOTAL; TOKIO_STEAL_COUNT_TOTAL; TOKIO_STEAL_OPERATIONS_TOTAL;
   TOKIO_REMOTE_SCHEDULES_TOTAL; TOKIO_LOCAL_SCHEDULES_TOTAL; TOKIO_OVERFLOW_COUNT_TOTAL;
   TOKIO_POLLS_COUNT_TOTAL; TOKIO_BUSY_DURATION_TOTAL; TOKIO_BUSY_RATIO; TOKIO_MEAN_POLLS_PER_PARK;
   TOKIO_MEAN_POLL_DURATION_SECONDS; TOKIO_LOCAL_QUEUE_DEPTH_TOTAL; TOKIO_GLOBAL_QUEUE_DEPTH;
   TOKIO_BLOCKING_QUEUE_DEPTH; TOKIO_BLOCKING_THREADS_COUNT; TOKIO_IDLE_BLOCKING_THREADS_COUNT;
   TOKIO_LIVE_TASKS_COUNT; TOKIO_BUDGET_FORCED_YIELDS_TOTAL; TOKIO_IO_DRIVER_READY_TOTAL; TENANT_SUBSCRIBERS;
   TENANT_QUOTA_DENIED_TOTAL; TENANT_CACHE_BYTES; TENANT_CACHE_EVICTIONS_TOTAL; TENANT_APPLIES_TOTAL].

(** ** The registry *)

(** What the registry accepts: names of the exposition format, a help text,
    distinct label names (not [le] on a histogram), increasing buckets. *)
Definition name_start (c : Z) : bool := (65 <=? c) && (c <=? 90) || (97 <=? c) && (c <=? 122) || (c =? 95).
Definition name_rest (c : Z) : bool := name_start c || (48 <=? c) && (c <=? 57).
Definition valid_name (s : string) : bool :=
  match bytes_of s with c :: rest => name_start c && forallb name_rest rest | [] => false end.
Fixpoint increasing (l : list spec_float) : bool :=
  match l with
  | a :: ((b :: _) as rest) => SFltb a b && increasing rest
  | _ => true
  end.
Definition well_formed (d : Desc) : bool :=
  valid_name (d_name d) && negb (String.eqb (d_help d) "") && forallb valid_name (d_labels d) &&
  bool_decide (NoDup (d_labels d)) &&
  match d_kind d with Histogram bs => increasing bs && bool_decide ("le" ∉ d_labels d) | _ => true end.

(** What a scrape sees: the registered families and the value of each series. *)
Inductive Sample : Set := Value (v : spec_float) | Int (n : Z) | Observed (count : Z).
Definition zero_sample (k : Kind) : Sample :=
  match k with Histogram _ => Observed 0 | IntGauge => Int 0 | _ => Value (S754_zero false) end.
Definition SeriesKey : Type := string * list string.

(** The operations of the [prometheus] crate that the code uses.  [pr_child] is
    [with_label_values]: it creates the series at zero, and panics ([None]) when the
    number of values is not the number of labels; the others act on a series that
    exists. *)
Class Prometheus (R : Type) := {
  pr_register : Desc → R → result unit string * R;
  pr_child : string → list string → R → option R;
  pr_set : SeriesKey → Sample → R → R;
  pr_inc_by : SeriesKey → spec_float → R → R;
  pr_dec_by : SeriesKey → spec_float → R → R;
  pr_observe : SeriesKey → spec_float → R → R;
  pr_remove : SeriesKey → R → R
}.

(** Documented behaviour, in terms of what a scrape sees. *)
Class PrometheusLaws (R : Type) `{Prometheus R} := {
  families : R → gmap string Desc;
  series : R → gmap SeriesKey Sample;
  register_law d r : well_formed d = true → families r !! d_name d = None →
    ∃ r', pr_register d r = (Ok tt, r') ∧ families r' = <[d_name d := d]> (families r) ∧
      series r' = if d_labels d is [] then <[(d_name d, []) := zero_sample (d_kind d)]> (series r) else series r;
  child_law name ls d r : families r !! name = Some d → length ls = length (d_labels d) →
    ∃ r', pr_child name ls r = Some r' ∧ families r' = families r ∧
      series r' = <[(name, ls) := default (zero_sample (d_kind d)) (series r !! (name, ls))]> (series r);
  set_law k v r : is_Some (series r !! k) → families (pr_set k v r) = families r ∧ series (pr_set k v r) = <[k := v]> (series r);
  inc_law k x v r : series r !! k = Some (Value v) →
    families (pr_inc_by k x r) = families r ∧ series (pr_inc_by k x r) = <[k := Value (f64_add v x)]> (series r);
  dec_law k x v r : series r !! k = Some (Value v) →
    families (pr_dec_by k x r) = families r ∧ series (pr_dec_by k x r) = <[k := Value (f64_sub v x)]> (series r);
  observe_law k x n r : series r !! k = Some (Observed n) →
    families (pr_observe k x r) = families r ∧ series (pr_observe k x r) = <[k := Observed (n + 1)]> (series r);
  remove_law k r : families (pr_remove k r) = families r ∧ series (pr_remove k r) = delete k (series r)
}.

(** ** The statics and the recorders *)
Section Code.
Context {R : Type} `{Prometheus R}.

(** [m_forced]: the statics whose initialiser has run. *)
Record Reg : Type := mkReg { m_forced : gset string; m_prom : R }.

(** First use of a [lazy_static]: register, [expect]ing success. *)
Definition force (d : Desc) (s : Reg) : option Reg :=
  if bool_decide (d_name d ∈ m_forced s) then Some s
  else match pr_register d (m_prom s) with
       | (Ok _, r) => Some (mkReg ({[d_name d]} ∪ m_forced s) r)
       | (Err _, _) => None
       end.

Definition with_label_values (d : Desc) (ls : list string) (s : Reg) : option Reg :=
  s ← force d s; r ← pr_child (d_name d) ls (m_prom s); Some (mkReg (m_forced s) r).
Definition on_prom (f : R → R) (s : Reg) : Reg := mkReg (m_forced s) (f (m_prom s)).

Definition set (d : Desc) (ls : list string) (v : spec_float) (s : Reg) : option Reg :=
  on_prom (pr_set (d_name d, ls) (Value v)) <$> with_label_values d ls s.
Definition inc_by (d : Desc) (ls : list string) (v : spec_float) (s : Reg) : option Reg :=
  on_prom (pr_inc_by (d_name d, ls) v) <$> with_label_values d ls s.
Definition dec_by (d : Desc) (ls : list string) (v : spec_float) (s : Reg) : option Reg :=
  on_prom (pr_dec_by (d_name d, ls) v) <$> with_label_values d ls s.
Definition observe (d : Desc) (ls : list string) (v : spec_float) (s : Reg) : option Reg :=
  on_prom (pr_observe (d_name d, ls) v) <$> with_label_values d ls s.
Definition inc (d : Desc) (ls : list string) : Reg → option Reg := inc_by d ls (dec 1 0).

Definition set_tenant_subscribers (identity : string) (n : Z) : Reg → option Reg :=
  set TENANT_SUBSCRIBERS [identity] (f64_of_u32 n).
(** [remove_label_values], whose error (no such series) is ignored. *)
Definition clear_tenant_subscribers (identity : string) (s : Reg) : option Reg :=
  on_prom (pr_remove (d_name TENANT_SUBSCRIBERS, [identity])) <$> force TENANT_SUBSCRIBERS s.
Definition record_tenant_quota_denied (rpc mode : string) : Reg → option Reg :=
  inc TENANT_QUOTA_DENIED_TOTAL [rpc; mode].
Definition set_tenant_cache_bytes (identity : string) (bytes : Z) : Reg → option Reg :=
  set TENANT_CACHE_BYTES [identity] (f64_of_Z bytes).
Definition record_tenant_cache_evictions (identity : string) (n : Z) : Reg → option Reg :=
  inc_by TENANT_CACHE_EVICTIONS_TOTAL [identity] (f64_of_Z n).
Definition record_tenant_applies (identity : string) (n : Z) : Reg → option Reg :=
  inc_by TENANT_APPLIES_TOTAL [identity] (f64_of_u32 n).

(** [bridge_broadcast] counts itself in; its [SubGauge] counts it out. *)
Definition bridge_started (ns : string) : Reg → option Reg := inc ACTIVE_SUBSCRIBERS [ns].
Definition SubGauge_drop (ns : string) : Reg → option Reg := dec_by ACTIVE_SUBSCRIBERS [ns] (dec 1 0).
(** *** One call site each *)

(** [RuntimeMetrics] as far as it is published: counters of the last interval,
    with the durations in nanoseconds and the two ratios the crate computes. *)
Record RuntimeMetrics : Type := mkRuntime {
  workers_count : Z; total_park_count : Z; total_noop_count : Z; total_steal_count : Z; total_steal_operations : Z;
  num_remote_schedules : Z; total_local_schedule_count : Z; total_overflow_count : Z; total_polls_count : Z;
  total_busy_duration : Z; busy_ratio : spec_float; mean_polls_per_park : spec_float; mean_poll_duration : Z;
  total_local_queue_depth : Z; global_queue_depth : Z; blocking_queue_depth : Z; blocking_threads_count : Z;
  idle_blocking_threads_count : Z; live_tasks_count : Z; budget_forced_yield_count : Z; io_driver_ready_count : Z
}.

(** [u64 as i64] reinterprets the bits. *)
Definition as_i64 (n : Z) : Z := if n <? 2 ^ 63 then n else n - 2 ^ 64.

(** What one tick publishes, in order. *)
Definition tokio_gauges (m : RuntimeMetrics) : list (Desc * Sample) :=
  [(TOKIO_WORKERS_COUNT, Int (as_i64 (workers_count m)));
   (TOKIO_PARK_COUNT_TOTAL, Int (as_i64 (total_park_count m)));
   (TOKIO_NOOP_COUNT_TOTAL, Int (as_i64 (total_noop_count m)));
   (TOKIO_STEAL_COUNT_TOTAL, Int (as_i64 (total_steal_count m)));
   (TOKIO_STEAL_OPERATIONS_TOTAL, Int (as_i64 (total_steal_operations m)));
   (TOKIO_REMOTE_SCHEDULES_TOTAL, Int (as_i64 (num_remote_schedules m)));
   (TOKIO_LOCAL_SCHEDULES_TOTAL, Int (as_i64 (total_local_schedule_count m)));
   (TOKIO_OVERFLOW_COUNT_TOTAL, Int (as_i64 (total_overflow_count m)));
   (TOKIO_POLLS_COUNT_TOTAL, Int (as_i64 (total_polls_count m)));
   (TOKIO_BUSY_DURATION_TOTAL, Value (nanos_as_secs_f64 (total_busy_duration m)));
   (TOKIO_BUSY_RATIO, Value (busy_ratio m));
   (TOKIO_MEAN_POLLS_PER_PARK, Value (mean_polls_per_park m));
   (TOKIO_MEAN_POLL_DURATION_SECONDS, Value (nanos_as_secs_f64 (mean_poll_duration m)));
   (TOKIO_LOCAL_QUEUE_DEPTH_TOTAL, Int (as_i64 (total_local_queue_depth m)));
   (TOKIO_GLOBAL_QUEUE_DEPTH, Int (as_i64 (global_queue_depth m)));
   (TOKIO_BLOCKING_QUEUE_DEPTH, Int (as_i64 (blocking_queue_depth m)));
   (TOKIO_BLOCKING_THREADS_COUNT, Int (as_i64 (blocking_threads_count m)));
   (TOKIO_IDLE_BLOCKING_THREADS_COUNT, Int (as_i64 (idle_blocking_threads_count m)));
   (TOKIO_LIVE_TASKS_COUNT, Int (as_i64 (live_tasks_count m)));
   (TOKIO_BUDGET_FORCED_YIELDS_TOTAL, Int (as_i64 (budget_forced_yield_count m)));
   (TOKIO_IO_DRIVER_READY_TOTAL, Int (as_i64 (io_driver_ready_count m)))].

(** An unlabelled static is its one series. *)
Definition unlabelled (d : Desc) (f : SeriesKey → R → R) (s : Reg) : option Reg :=
  on_prom (f (d_name d, [])) <$> force d s.

Fixpoint each {A} (f : A → Reg → option Reg) (l : list A) (s : Reg) : option Reg :=
  match l with [] => Some s | a :: rest => f a s ≫= each f rest end.

Definition tokio_tick (m : RuntimeMetrics) : Reg → option Reg :=
  each (λ '(d, v), unlabelled d (λ k, pr_set k v)) (tokio_gauges m).

(** The sampler publishes the snapshots of its iterator until it ends. *)
Definition spawn_tokio_runtime_sampler (intervals : list RuntimeMetrics) : Reg → option Reg :=
  each tokio_tick intervals.

Inductive Use : Type :=
  | UTenantSubscribers (identity : string) (n : Z)                  (* quota.rs *)
  | UTenantClear (identity : string)
  | UQuotaDenied (rpc mode : string)
  | UCacheBytes (identity : string) (bytes : Z)                     (* tenant_cache.rs *)
  | UEvictions (identity : string) (n : Z)
  | UApplies (identity : string) (n : Z)                            (* grpc/mod.rs *)
  | UBridgeStart (ns : string) | UBridgeEnd (ns : string)           (* subscribe/broadcast.rs *)
  | UDelivered (ns : string) (hop : spec_float)                     (* the two latencies of a received frame *)
  | UWritten (stage : spec_float)                                   (* a frame accepted by the channel *)
  | ULagged (ns : string)
  | UFrame (bytes : Z) (stage : spec_float)                         (* subscribe/watch.rs *)
  | UBroadcast (ns : string)
  | USnapshot (kind : string)                                       (* subscribe/replay.rs, subscribe_secrets.rs *)
  | UEntries (kind : string) (n : Z) | UMutation (kind : string)    (* cow_cache.rs *)
  | UApply (ns outcome : string) (secs : spec_float)                (* apply.rs *)
  | UGet (ns : string) (secs : spec_float)                          (* get.rs *)
  | UDepth (ns : string) (n : Z) | UStale (ns : string) (secs : spec_float)   (* serve.rs *)
  | UTokio (m : RuntimeMetrics).

Definition record (u : Use) : Reg → option Reg :=
  match u with
  | UTenantSubscribers i n => set_tenant_subscribers i n
  | UTenantClear i => clear_tenant_subscribers i
  | UQuotaDenied rpc mode => record_tenant_quota_denied rpc mode
  | UCacheBytes i b => set_tenant_cache_bytes i b
  | UEvictions i n => record_tenant_cache_evictions i n
  | UApplies i n => record_tenant_applies i n
  | UBridgeStart ns => bridge_started ns
  | UBridgeEnd ns => SubGauge_drop ns
  | UDelivered ns hop => λ s, unlabelled BROADCAST_TO_ENCODE_SECONDS (λ k, pr_observe k hop) s ≫= observe SUBSCRIBE_E2E_LATENCY [ns] hop
  | UWritten stage => λ s, unlabelled ENCODE_TO_SEND_SECONDS (λ k, pr_observe k stage) s ≫=
                        unlabelled WRITEV_CALLS_TOTAL (λ k, pr_inc_by k (dec 1 0))
  | ULagged ns => inc BROADCAST_LAG [ns]
  | UFrame bytes stage => λ s, unlabelled H2_DATA_FRAME_BYTES (λ k, pr_observe k (f64_of_Z bytes)) s ≫=
                            unlabelled APPLY_TO_BROADCAST_SECONDS (λ k, pr_observe k stage)
  | UBroadcast ns => inc EVENTS_BROADCAST [ns]
  | USnapshot kind => inc SUBSCRIBE_SNAPSHOT_EMITTED [kind]
  | UEntries kind n => set CACHE_ENTRIES [kind] (f64_of_Z n)
  | UMutation kind => inc CACHE_WRITE_MUTATIONS_TOTAL [kind]
  | UApply ns outcome secs => λ s, inc APPLY_TOTAL [ns; outcome] s ≫= observe APPLY_DURATION [ns; outcome] secs
  | UGet ns secs => observe GET_DURATION [ns] secs
  | UDepth ns n => set REPLAY_BUFFER_DEPTH [ns] (f64_of_Z n)
  | UStale ns secs => set STALE_SECONDS [ns] secs
  | UTokio m => tokio_tick m
  end.

Definition records : list Use → Reg → option Reg := each record.
End Code.

(** *** What a bridge records

    The calls of [bridge_broadcast] on the metrics, along its loop; [hop] and
    [stage] are the two latencies it measures for a frame. *)
Section Bridge.
Context (selector_matches : list Expression → gmap string string → bool).
Context (hop stage : Frame → spec_float) (ns : string).

Fixpoint bridge_uses (f : SubscribeFilter) (ins : list BridgeInput) (ch : Chan Msg) : list Use :=
  match ins with
  | [] => []
  | BDrain :: _ => []
  | BRecv fr :: rest =>
      if negb (allows selector_matches f (fr_event fr) (fr_labels fr)) then bridge_uses f rest ch
      else
        UDelivered ns (hop fr) ::
        match try_send ch (Ok (fr_event fr)) with
        | (Sent, ch') => UWritten (stage fr) :: bridge_uses f rest ch'
        | (Full, _) | (Closed, _) => []
        end
  | BLagged _ :: _ => [ULagged ns]
  | BClosed :: _ => []
  end.

(** The whole task: the guard is dropped on every way out of the loop. *)
Definition bridge_session (f : SubscribeFilter) (ins : list BridgeInput) (ch : Chan Msg) : list Use :=
  (UBridgeStart ns :: bridge_uses f ins ch ++ [UBridgeEnd ns])%list.
End Bridge.

(** ** The specification: an exact ledger

    What a scrape should show after a history of uses, in integers: the last
    value set, the exact sum, the number of observations. *)
Inductive Entry : Type := Num (z : Z) | Real (v : spec_float) | Signed (n : Z) | Count (n : Z).
Definition shown (e : Entry) : Sample :=
  match e with Num z => Value (f64_of_Z z) | Real v => Value v | Signed n => Int n | Count n => Observed n end.

Inductive Effect : Type := ESet (e : Entry) | EAdd (z : Z) | ESub (z : Z) | EObserve | EClear.
Definition number (e : option Entry) : Z := match e with Some (Num z) => z | _ => 0 end.
Definition tally (e : option Entry) : Z := match e with Some (Count n) => n | _ => 0 end.

Definition book (m : gmap SeriesKey Entry) (x : Desc * list string * Effect) : gmap SeriesKey Entry :=
  let '(d, ls, e) := x in
  let k := (d_name d, ls) in
  match e with
  | ESet v => <[k := v]> m
  | EAdd z => <[k := Num (number (m !! k) + z)]> m
  | ESub z => <[k := Num (number (m !! k) - z)]> m
  | EObserve => <[k := Count (tally (m !! k) + 1)]> m
  | EClear => delete k m
  end.

Definition sample_entry (v : Sample) : Entry :=
  match v with Value x => Real x | Int n => Signed n | Observed n => Count n end.

Definition effects (u : Use) : list (Desc * list string * Effect) :=
  match u with
  | UTenantSubscribers i n => [(TENANT_SUBSCRIBERS, [i], ESet (Num n))]
  | UTenantClear i => [(TENANT_SUBSCRIBERS, [i], EClear)]
  | UQuotaDenied rpc mode => [(TENANT_QUOTA_DENIED_TOTAL, [rpc; mode], EAdd 1)]
  | UCacheBytes i b => [(TENANT_CACHE_BYTES, [i], ESet (Num b))]
  | UEvictions i n => [(TENANT_CACHE_EVICTIONS_TOTAL, [i], EAdd n)]
  | UApplies i n => [(TENANT_APPLIES_TOTAL, [i], EAdd n)]
  | UBridgeStart ns => [(ACTIVE_SUBSCRIBERS, [ns], EAdd 1)]
  | UBridgeEnd ns => [(ACTIVE_SUBSCRIBERS, [ns], ESub 1)]
  | UDelivered ns _ => [(BROADCAST_TO_ENCODE_SECONDS, [], EObserve); (SUBSCRIBE_E2E_LATENCY, [ns], EObserve)]
  | UWritten _ => [(ENCODE_TO_SEND_SECONDS, [], EObserve); (WRITEV_CALLS_TOTAL, [], EAdd 1)]
  | ULagged ns => [(BROADCAST_LAG, [ns], EAdd 1)]
  | UFrame _ _ => [(H2_DATA_FRAME_BYTES, [], EObserve); (APPLY_TO_BROADCAST_SECONDS, [], EObserve)]
  | UBroadcast ns => [(EVENTS_BROADCAST, [ns], EAdd 1)]
  | USnapshot kind => [(SUBSCRIBE_SNAPSHOT_EMITTED, [kind], EAdd 1)]
  | UEntries kind n => [(CACHE_ENTRIES, [kind], ESet (Num n))]
  | UMutation kind => [(CACHE_WRITE_MUTATIONS_TOTAL, [kind], EAdd 1)]
  | UApply ns outcome _ => [(APPLY_TOTAL, [ns; outcome], EAdd 1); (APPLY_DURATION, [ns; outcome], EObserve)]
  | UGet ns _ => [(GET_DURATION, [ns], EObserve)]
  | UDepth ns n => [(REPLAY_BUFFER_DEPTH, [ns], ESet (Num n))]
  | UStale ns secs => [(STALE_SECONDS, [ns], ESet (Real secs))]
  | UTokio m => (λ '(d, v), (d, [], ESet (sample_entry v))) <$> tokio_gauges m
  end.

Definition ledger (us : list Use) : gmap SeriesKey Entry := foldl book ∅ (us ≫= effects).

(** Sums that binary64 represents: below [2^53], and no stream counted out that
    was not counted in. *)
Definition in_range (m : gmap SeriesKey Entry) (x : Desc * list string * Effect) : bool :=
  let '(d, ls, e) := x in
  match e with
  | EAdd z => (0 <=? z) && (number (m !! (d_name d, ls)) + z <? 2 ^ 53)
  | ESub z => (0 <=? z) && (z <=? number (m !! (d_name d, ls)))
  | _ => true
  end.
Fixpoint exact (m : gmap SeriesKey Entry) (xs : list (Desc * list string * Effect)) : bool :=
  match xs with [] => true | x :: rest => in_range m x && exact (book m x) rest end.

(** ** The registry follows the ledger *)
#[global] Instance spec_float_eq_dec : EqDecision spec_float.
Proof. solve_decision. Defined.
#[global] Instance Kind_eq_dec : EqDecision Kind.
Proof. solve_decision. Defined.
#[global] Instance Desc_eq_dec : EqDecision Desc.
Proof. solve_decision. Defined.

(** What a static may hold. *)
Definition summed (d : Desc) : bool := bool_decide (d_kind d = Counter) || bool_decide (d = ACTIVE_SUBSCRIBERS).
Definition fits (d : Desc) (e : Entry) : bool :=
  match d_kind d, e with
  | Counter, Num z => (0 <=? z) && (z <? 2 ^ 53)
  | Histogram _, Count _ => true
  | IntGauge, Signed _ => true
  | Gauge, Num z => negb (bool_decide (d = ACTIVE_SUBSCRIBERS)) || (0 <=? z) && (z <? 2 ^ 53)
  | Gauge, Real _ => negb (bool_decide (d = ACTIVE_SUBSCRIBERS))
  | _, _ => false
  end.

(** The call sites use each static at its type, with its number of labels. *)
Definition proper (x : Desc * list string * Effect) : Prop :=
  let '(d, ls, e) := x in
  d ∈ catalogue ∧ length ls = length (d_labels d) ∧
  match e with
  | ESet v => fits d v = true
  | EAdd _ | ESub _ => summed d = true
  | EObserve => match d_kind d with Histogram _ => True | _ => False end
  | EClear => d_labels d ≠ []
  end.

Lemma catalogue_names : NoDup (d_name <$> catalogue).
Proof. apply (bool_decide_unpack _). vm_compute. exact I. Qed.

Lemma catalogue_inj d d' : d ∈ catalogue → d' ∈ catalogue → d_name d = d_name d' → d = d'.
Proof.
  intros [i Hi]%list_elem_of_lookup [j Hj]%list_elem_of_lookup Hn.
  assert (i = j) as ->; [|congruence]. eapply (NoDup_lookup _ i j (d_name d) catalogue_names).
  - by rewrite list_lookup_fmap, Hi.
  - by rewrite list_lookup_fmap, Hj, Hn.
Qed.

Lemma catalogue_well_formed d : d ∈ catalogue → well_formed d = true.
Proof.
  assert (Hall : forallb well_formed catalogue = true) by (vm_compute; reflexivity).
  intros Hd. rewrite forallb_forall in Hall. by apply Hall, list_elem_of_In.
Qed.

Lemma forced_other (a b : string) (X : gset string) : a ≠ b → b ∈ {[a]} ∪ X ↔ b ∈ X.
Proof. rewrite elem_of_union, elem_of_singleton. naive_solver. Qed.

Lemma exact_app m xs ys : exact m (xs ++ ys)%list = exact m xs && exact (foldl book m xs) ys.
Proof. revert m; induction xs as [|x xs IH]; intros m; simpl; [done|]. by rewrite IH, andb_assoc. Qed.

(** *** The subscriber gauge *)
Definition started_ns (u : Use) : option string := match u with UBridgeStart ns => Some ns | _ => None end.
Definition ended_ns (u : Use) : option string := match u with UBridgeEnd ns => Some ns | _ => None end.

Lemma book_other m d ls e k : (d_name d, ls) ≠ k → book m (d, ls, e) !! k = m !! k.
Proof. intros Hne. destruct e; simpl; by rewrite ?lookup_insert_ne, ?lookup_delete_ne. Qed.

Lemma books_other xs m k :
  Forall (λ x, (d_name x.1.1, x.1.2) ≠ k) xs → foldl book m xs !! k = m !! k.
Proof.
  revert m; induction xs as [|[[d ls] e] xs IH]; intros m Hx; [done|]. apply Forall_cons in Hx as [Hx Hxs].
  simpl foldl. rewrite IH by done. by apply book_other.
Qed.

Lemma ledger_active us ns :
  number (ledger us !! (d_name ACTIVE_SUBSCRIBERS, [ns])) =
  occurrences ns (omap started_ns us) - occurrences ns (omap ended_ns us).
Proof.
  unfold ledger. induction us as [|u us IH] using rev_ind; [done|].
  rewrite bind_app, foldl_app, !omap_app, !occurrences_app. change ([u] ≫= effects) with (effects u ++ [])%list.
  rewrite app_nil_r. revert IH. generalize (foldl book ∅ (us ≫= effects)). intros m IH.
  destruct u as [| | | | | |ns'|ns'| | | | | | | | | | | | |rt];
    try (rewrite books_other; [rewrite IH; simpl; lia|repeat constructor; simpl; congruence]).
  all: cbn [omap list_omap started_ns ended_ns]; rewrite occurrences_cons; change (occurrences ns []) with 0;
    cbn [effects foldl book]; case_decide as Hn; [subst ns'; rewrite lookup_insert_eq|rewrite lookup_insert_ne by congruence];
    cbn [number]; rewrite IH; lia.
Qed.

Section Facts.
Context {R : Type} `{PrometheusLaws R}.
#[local] Notation Reg := (Reg (R := R)).

Record agrees (m : gmap SeriesKey Entry) (s : Reg) : Prop := {
  ag_families d : d ∈ catalogue →
    families (m_prom s) !! d_name d = if bool_decide (d_name d ∈ m_forced s) then Some d else None;
  ag_series d ls : d ∈ catalogue → series (m_prom s) !! (d_name d, ls) = shown <$> m !! (d_name d, ls);
  ag_unforced d ls : d ∈ catalogue → d_name d ∉ m_forced s → m !! (d_name d, ls) = None;
  ag_single d : d ∈ catalogue → d_labels d = [] → d_name d ∈ m_forced s → is_Some (m !! (d_name d, []));
  ag_fits d ls e : d ∈ catalogue → m !! (d_name d, ls) = Some e → fits d e = true
}.

(** A series about to be written: it exists, at zero when it is new. *)
Record ready (m : gmap SeriesKey Entry) (d : Desc) (ls : list string) (s : Reg) : Prop := {
  re_forced : d_name d ∈ m_forced s;
  re_families d' : d' ∈ catalogue →
    families (m_prom s) !! d_name d' = if bool_decide (d_name d' ∈ m_forced s) then Some d' else None;
  re_here : series (m_prom s) !! (d_name d, ls) = Some (default (zero_sample (d_kind d)) (shown <$> m !! (d_name d, ls)));
  re_other d' ls' : d' ∈ catalogue → (d_name d', ls') ≠ (d_name d, ls) →
    series (m_prom s) !! (d_name d', ls') = shown <$> m !! (d_name d', ls');
  re_unforced d' ls' : d' ∈ catalogue → d_name d' ∉ m_forced s → m !! (d_name d', ls') = None;
  re_single d' : d' ∈ catalogue → d_labels d' = [] → d_name d' ∈ m_forced s → d' ≠ d → is_Some (m !! (d_name d', []));
  re_fits d' ls' e : d' ∈ catalogue → m !! (d_name d', ls') = Some e → fits d' e = true
}.

(** Registering a static of the catalogue succeeds. *)
Lemma force_ok m s d : agrees m s → d ∈ catalogue →
  ∃ s', force d s = Some s' ∧ m_forced s' = {[d_name d]} ∪ m_forced s ∧
    (∀ d', d' ∈ catalogue →
       families (m_prom s') !! d_name d' = if bool_decide (d_name d' ∈ m_forced s') then Some d' else None) ∧
    series (m_prom s') = if bool_decide (d_name d ∈ m_forced s) then series (m_prom s)
      else if d_labels d is [] then <[(d_name d, []) := zero_sample (d_kind d)]> (series (m_prom s)) else series (m_prom s).
Proof.
  intros Hag Hd. unfold force. pose proof (ag_families _ _ Hag) as Hf. case_bool_decide as Hin.
  { exists s. split_and!; [done| |done|done]. symmetry. by apply subseteq_union_1_L, singleton_subseteq_l. }
  destruct (register_law d (m_prom s)) as (r' & -> & Hfam & Hser).
  { by apply catalogue_well_formed. }
  { rewrite (Hf d Hd). by rewrite bool_decide_false. }
  eexists. split; [done|]. simpl. split; [done|]. split; [|done].
  intros d' Hd'. rewrite Hfam. destruct (decide (d_name d = d_name d')) as [He|Hne].
  - rewrite <- (catalogue_inj d d' Hd Hd' He). rewrite lookup_insert_eq, bool_decide_true; [done|]. by apply elem_of_union_l, elem_of_singleton_2.
  - rewrite lookup_insert_ne, (Hf d' Hd') by done. by rewrite (bool_decide_ext _ _ (forced_other _ _ _ Hne)).
Qed.

(** Reaching a series of a static: the child of its labels, or its only series. *)
Definition access (d : Desc) (ls : list string) (s : Reg) : option Reg :=
  if d_labels d is [] then force d s else with_label_values d ls s.

Lemma access_ready m s d ls :
  agrees m s → d ∈ catalogue → length ls = length (d_labels d) → ∃ s', access d ls s = Some s' ∧ ready m d ls s'.
Proof.
  intros Hag Hd Hlen. destruct (force_ok m s d Hag Hd) as (s1 & Hf & Hfo & Hfam & Hser).
  assert (Hin : d_name d ∈ m_forced s1) by (rewrite Hfo; by apply elem_of_union_l, elem_of_singleton_2).
  assert (Hun : ∀ d' ls', d' ∈ catalogue → d_name d' ∉ m_forced s1 → m !! (d_name d', ls') = None).
  { intros d' ls' Hd' Hn. apply (ag_unforced _ _ Hag); [done|]. intros Hi. apply Hn. rewrite Hfo. by apply elem_of_union_r. }
  assert (Hsi : ∀ d', d' ∈ catalogue → d_labels d' = [] → d_name d' ∈ m_forced s1 → d' ≠ d → is_Some (m !! (d_name d', []))).
  { intros d' Hd' Hl Hi Hne. apply (ag_single _ _ Hag); [done..|]. rewrite Hfo in Hi.
    assert (d_name d ≠ d_name d') as Hnn by (intros He; exact (Hne (eq_sym (catalogue_inj d d' Hd Hd' He)))). exact (proj1 (forced_other _ _ _ Hnn) Hi). }
  unfold access. destruct (d_labels d) as [|l0 ls0] eqn:Hl.
  - destruct ls; [|done]. exists s1. split; [done|]. split; try done; [|intros d' ls' Hd' Hne|apply Hag].
    + rewrite Hser. case_bool_decide as Hb.
      * rewrite (ag_series _ _ Hag) by done. destruct (ag_single _ _ Hag d Hd Hl Hb) as [e ->]. done.
      * rewrite lookup_insert_eq, (ag_unforced _ _ Hag) by done. done.
    + rewrite Hser, <- (ag_series _ _ Hag) by done. case_bool_decide; [done|]. by rewrite lookup_insert_ne by congruence.
  - unfold with_label_values. rewrite Hf. simpl.
    destruct (child_law (d_name d) ls d (m_prom s1)) as (r' & -> & Hfam' & Hser').
    { rewrite Hfam, bool_decide_true by done. done. }
    { by rewrite Hl. }
    assert (Hs1 : series (m_prom s1) = series (m_prom s)) by (rewrite Hser; by case_bool_decide).
    eexists. split; [done|]. split; simpl; try done.
    + intros d' Hd'. by rewrite Hfam', Hfam.
    + rewrite Hser', lookup_insert_eq, Hs1, (ag_series _ _ Hag) by done. done.
    + intros d' ls' Hd' Hne. by rewrite Hser', lookup_insert_ne, Hs1, (ag_series _ _ Hag) by done.
    + apply Hag.
Qed.

(** Writing a ready series as the ledger does. *)
Lemma ready_write m d ls s r' e :
  ready m d ls s → d ∈ catalogue → length ls = length (d_labels d) → fits d e = true →
  families r' = families (m_prom s) → series r' = <[(d_name d, ls) := shown e]> (series (m_prom s)) →
  agrees (<[(d_name d, ls) := e]> m) (mkReg (m_forced s) r').
Proof.
  intros Hr Hd Hlen He Hf Hs. split; simpl.
  - intros d' Hd'. rewrite Hf. by apply Hr.
  - intros d' ls' Hd'. rewrite Hs. destruct (decide ((d_name d', ls') = (d_name d, ls))) as [->|Hne].
    + by rewrite !lookup_insert_eq.
    + rewrite !lookup_insert_ne by congruence. by apply (re_other _ _ _ _ Hr).
  - intros d' ls' Hd' Hn. rewrite lookup_insert_ne by (intros [= Hx _]; apply Hn; rewrite <- Hx; apply Hr).
    by apply (re_unforced _ _ _ _ Hr).
  - intros d' Hd' Hl Hi. destruct (decide ((d_name d', []) = (d_name d, ls))) as [->|Hne].
    + rewrite lookup_insert_eq. by eexists.
    + rewrite lookup_insert_ne by congruence. destruct (decide (d' = d)) as [->|Hdd].
      * exfalso. apply Hne. rewrite Hl in Hlen. by destruct ls.
      * by apply (re_single _ _ _ _ Hr).
  - intros d' ls' e' Hd'. destruct (decide ((d_name d', ls') = (d_name d, ls))) as [Hk|Hne].
    + rewrite Hk, lookup_insert_eq. intros [= <-]. injection Hk as Hk _. by rewrite (catalogue_inj d' d Hd' Hd Hk).
    + rewrite lookup_insert_ne by congruence. by apply (re_fits _ _ _ _ Hr).
Qed.

(** The call on the series that has a given effect. *)
Definition performs (k : SeriesKey) (e : Effect) (op : R → R) : Prop :=
  match e with
  | ESet v => op = pr_set k (shown v)
  | EAdd z => op = pr_inc_by k (f64_of_Z z)
  | ESub z => op = pr_dec_by k (f64_of_Z z)
  | EObserve => ∃ x, op = pr_observe k x
  | EClear => op = pr_remove k
  end.

Lemma summed_entry m d ls s :
  ready m d ls s → d ∈ catalogue → summed d = true →
  series (m_prom s) !! (d_name d, ls) = Some (Value (f64_of_Z (number (m !! (d_name d, ls))))) ∧
  0 ≤ number (m !! (d_name d, ls)) < 2 ^ 53.
Proof.
  intros Hr Hd Hs. rewrite (re_here _ _ _ _ Hr). pose proof (re_fits _ _ _ _ Hr d ls) as Hf.
  unfold summed in Hs. apply orb_true_iff in Hs. rewrite !bool_decide_eq_true in Hs.
  destruct (m !! (d_name d, ls)) as [e|] eqn:He; simpl.
  - specialize (Hf e Hd eq_refl). unfold fits in Hf. destruct Hs as [Hk| ->].
    + rewrite Hk in Hf. destruct e; try done. split; [done|]. simpl. lia.
    + destruct e; try done. split; [done|]. simpl in *. lia.
  - destruct Hs as [->| ->]; done.
Qed.

Lemma summed_fits d z : summed d = true → 0 ≤ z < 2 ^ 53 → fits d (Num z) = true.
Proof.
  unfold summed. intros Hs Hz. apply orb_true_iff in Hs. rewrite !bool_decide_eq_true in Hs. unfold fits.
  destruct Hs as [->| ->]; simpl; lia.
Qed.

Lemma step_ok m s d ls e op :
  agrees m s → proper (d, ls, e) → in_range m (d, ls, e) = true → performs (d_name d, ls) e op → e ≠ EClear →
  ∃ s', on_prom op <$> access d ls s = Some s' ∧ agrees (book m (d, ls, e)) s'.
Proof.
  intros Hag (Hd & Hlen & Hp) Hr Hop Hne. destruct (access_ready m s d ls Hag Hd Hlen) as (s1 & -> & Hre).
  eexists. split; [done|]. unfold on_prom, book. pose proof (re_here _ _ _ _ Hre) as Hh.
  destruct e as [v|z|z| |]; simpl in Hop, Hr, Hp; [subst op..|destruct Hop as [x ->]|done].
  - destruct (set_law (d_name d, ls) (shown v) (m_prom s1)) as [? ?]; [by eexists|]. by eapply ready_write.
  - destruct (summed_entry m d ls s1 Hre Hd Hp) as [Hv Hb].
    destruct (inc_law (d_name d, ls) (f64_of_Z z) _ _ Hv) as [? Hs]. rewrite f64_add_exact in Hs by lia.
    eapply ready_write; try done. apply summed_fits; [done|lia].
  - destruct (summed_entry m d ls s1 Hre Hd Hp) as [Hv Hb].
    destruct (dec_law (d_name d, ls) (f64_of_Z z) _ _ Hv) as [? Hs]. rewrite f64_sub_exact in Hs by lia.
    eapply ready_write; try done. apply summed_fits; [done|lia].
  - destruct (d_kind d) as [| | |bs] eqn:Hk; try done.
    assert (Hv : series (m_prom s1) !! (d_name d, ls) = Some (Observed (tally (m !! (d_name d, ls))))).
    { rewrite Hh. destruct (m !! (d_name d, ls)) as [e|] eqn:He; [|done]. pose proof (re_fits _ _ _ _ Hre d ls e Hd He) as Hf.
      unfold fits in Hf. rewrite Hk in Hf. by destruct e. }
    destruct (observe_law (d_name d, ls) x _ _ Hv) as [? Hs]. eapply ready_write; try done. unfold fits. by rewrite Hk.
Qed.

Lemma clear_ok m s d ls :
  agrees m s → proper (d, ls, EClear) →
  ∃ s', on_prom (pr_remove (d_name d, ls)) <$> force d s = Some s' ∧ agrees (book m (d, ls, EClear)) s'.
Proof.
  intros Hag (Hd & Hlen & Hp). destruct (force_ok m s d Hag Hd) as (s1 & -> & Hfo & Hfam & Hser).
  assert (Hs1 : series (m_prom s1) = series (m_prom s)) by (rewrite Hser; case_bool_decide; [done|]; by destruct (d_labels d)).
  destruct (remove_law (d_name d, ls) (m_prom s1)) as [Hf' Hs']. eexists. split; [done|]. unfold on_prom, book.
  split; simpl.
  - intros d' Hd'. by rewrite Hf', Hfam.
  - intros d' ls' Hd'. rewrite Hs', Hs1. destruct (decide ((d_name d', ls') = (d_name d, ls))) as [->|Hne].
    + by rewrite !lookup_delete_eq.
    + rewrite !lookup_delete_ne by congruence. by apply Hag.
  - intros d' ls' Hd' Hn. apply lookup_delete_None. right. apply (ag_unforced _ _ Hag); [done|]. intros Hi. apply Hn.
    rewrite Hfo. by apply elem_of_union_r.
  - intros d' Hd' Hl Hi. assert (d_name d ≠ d_name d') as Hnn by (intros He; by rewrite (catalogue_inj d d' Hd Hd' He), Hl in Hp).
    rewrite lookup_delete_ne by congruence. apply (ag_single _ _ Hag); [done..|]. rewrite Hfo in Hi. exact (proj1 (forced_other _ _ _ Hnn) Hi).
  - intros d' ls' e Hd' [_ He]%lookup_delete_Some. by eapply (ag_fits _ _ Hag).
Qed.

(** The arguments that are [u32] in the code. *)
Definition lossless (u : Use) : bool :=
  match u with UTenantSubscribers _ n | UApplies _ n => (0 <=? n) && (n <=? u32_max) | _ => true end.

Lemma effects_proper u : Forall proper (effects u).
Proof.
  assert (Hin : ∀ d, bool_decide (d ∈ catalogue) = true → d ∈ catalogue) by (intros d; apply bool_decide_eq_true).
  destruct u; simpl; repeat constructor; try (apply Hin; vm_compute; reflexivity); done.
Qed.

Lemma seq_ok m (o : option Reg) (g : Reg → option Reg) x y :
  in_range m x && (in_range (book m x) y && true) = true →
  (in_range m x = true → ∃ s', o = Some s' ∧ agrees (book m x) s') →
  (∀ s1, agrees (book m x) s1 → in_range (book m x) y = true → ∃ s', g s1 = Some s' ∧ agrees (book (book m x) y) s') →
  ∃ s', o ≫= g = Some s' ∧ agrees (book (book m x) y) s'.
Proof.
  intros [Hx [Hy _]%andb_true_iff]%andb_true_iff Hf Hg. destruct (Hf Hx) as (s1 & -> & H1). exact (Hg s1 H1 Hy).
Qed.

Lemma tokio_ok l m s :
  agrees m s → Forall proper ((λ '(d, v), (d, [], ESet (sample_entry v))) <$> l) →
  ∃ s', each (λ '(d, v), unlabelled d (λ k, pr_set k v)) l s = Some s' ∧
    agrees (foldl book m ((λ '(d, v), (d, [], ESet (sample_entry v))) <$> l)) s'.
Proof.
  revert m s; induction l as [|[d v] l IH]; intros m s Hag Hp; [by exists s|].
  apply Forall_cons in Hp as [Hp Hps]. pose proof Hp as (_ & Hlen & _).
  destruct (step_ok m s d [] (ESet (sample_entry v)) (pr_set (d_name d, []) v) Hag Hp eq_refl) as (s1 & Hs & H1); [|done|].
  { simpl. by destruct v. }
  simpl. unfold unlabelled. unfold access in Hs. destruct (d_labels d); [|done]. rewrite Hs. by apply IH.
Qed.

(** The two shapes of a call site. *)
Lemma labelled_ok m s d ls e op :
  agrees m s → proper (d, ls, e) → in_range m (d, ls, e) = true → d_labels d ≠ [] →
  performs (d_name d, ls) e op → e ≠ EClear →
  ∃ s', on_prom op <$> with_label_values d ls s = Some s' ∧ agrees (book m (d, ls, e)) s'.
Proof.
  intros Hag Hp Hr Hl Hop Hne. destruct (step_ok m s d ls e op Hag Hp Hr Hop Hne) as (s' & Hs & Ha). exists s'.
  split; [|done]. unfold access in Hs. by destruct (d_labels d).
Qed.
Lemma unlabelled_ok m s d e f :
  agrees m s → proper (d, [], e) → in_range m (d, [], e) = true → performs (d_name d, []) e (f (d_name d, [])) → e ≠ EClear →
  ∃ s', unlabelled d f s = Some s' ∧ agrees (book m (d, [], e)) s'.
Proof.
  intros Hag Hp Hr Hop Hne. destruct (step_ok m s d [] e _ Hag Hp Hr Hop Hne) as (s' & Hs & Ha). exists s'.
  split; [|done]. unfold access in Hs. destruct Hp as (_ & Hlen & _). by destruct (d_labels d).
Qed.

(** Every call site keeps the registry in step with the ledger, and none panics. *)
Lemma record_ok u m s :
  agrees m s → lossless u = true → exact m (effects u) = true →
  ∃ s', record u s = Some s' ∧ agrees (foldl book m (effects u)) s'.
Proof.
  intros Hag Hu Hex. pose proof (effects_proper u) as Hp.
  assert (Hone : dec 1 0 = f64_of_Z 1) by (vm_compute; reflexivity).
  destruct u; try (by apply tokio_ok); cbn [effects foldl exact] in Hex, Hp |- *;
    repeat match goal with Hp : Forall proper (_ :: _) |- _ => apply Forall_cons in Hp as [? Hp] end; cbn [record];
    unfold set_tenant_subscribers, clear_tenant_subscribers, record_tenant_quota_denied, set_tenant_cache_bytes,
      record_tenant_cache_evictions, record_tenant_applies, bridge_started, SubGauge_drop, inc, set, inc_by, dec_by, observe;
    rewrite ?Hone.
  1, 6: rewrite f64_of_u32_eq by (simpl in *; unfold u32_max in *; lia).
  all: try (by apply clear_ok).
  all: try (apply andb_true_iff in Hex as [Hex _]; by eapply labelled_ok; simpl; eauto).
  all: eapply seq_ok; [exact Hex| |]; intros;
    (by eapply labelled_ok; simpl; eauto) || (by eapply unlabelled_ok; simpl; eauto).
Qed.

Lemma records_ok us m s :
  agrees m s → forallb lossless us = true → exact m (us ≫= effects) = true →
  ∃ s', records us s = Some s' ∧ agrees (foldl book m (us ≫= effects)) s'.
Proof.
  revert m s; induction us as [|u us IH]; intros m s Hag Hl Hex; [by exists s|].
  simpl in Hl. apply andb_true_iff in Hl as [Hu Hl].
  change ((u :: us) ≫= effects) with (effects u ++ (us ≫= effects))%list in *. rewrite exact_app in Hex.
  apply andb_true_iff in Hex as [Hx Hex]. destruct (record_ok u m s Hag Hu Hx) as (s1 & Hs & H1).
  rewrite foldl_app. unfold records. simpl. rewrite Hs. by apply IH.
Qed.

(** A registry in which nobody has registered a metric of this process. *)
Definition fresh (r : R) : Prop :=
  ∀ d, d ∈ catalogue → families r !! d_name d = None ∧ ∀ ls, series r !! (d_name d, ls) = None.

Lemma fresh_agrees r : fresh r → agrees ∅ (mkReg ∅ r).
Proof.
  intros Hf. split; simpl; try done.
  - intros d Hd. rewrite bool_decide_false by apply not_elem_of_empty. by apply Hf.
  - intros d ls Hd. rewrite lookup_empty. by apply Hf.
Qed.

(** C38: the exposition is exact.  On a registry that knows none of the names,
    whatever the order in which the call sites run, no registration and no label
    lookup panics; each series of the catalogue shows the value of the integer
    ledger (the last value set, the exact sum, the number of observations) as long
    as its sums stay below 2^53; and the subscriber gauge of a namespace is the
    number of its bridges that have started and not ended. *)
Theorem exposition_exact us (r : R) :
  fresh r → forallb lossless us = true → exact ∅ (us ≫= effects) = true →
  ∃ s, records us (mkReg ∅ r) = Some s ∧
    (∀ d ls, d ∈ catalogue → series (m_prom s) !! (d_name d, ls) = shown <$> ledger us !! (d_name d, ls)) ∧
    (∀ ns, number (ledger us !! (d_name ACTIVE_SUBSCRIBERS, [ns])) =
       occurrences ns (omap started_ns us) - occurrences ns (omap ended_ns us)).
Proof.
  intros Hf Hl Hex. destruct (records_ok us ∅ _ (fresh_agrees r Hf) Hl Hex) as (s & Hs & Hag).
  exists s. split; [done|]. split; [apply Hag|]. intros ns. apply ledger_active.
Qed.
End Facts.

(** *** Sessions *)
Definition is_written (u : Use) : bool := match u with UWritten _ => true | _ => false end.
Definition is_delivered (u : Use) : bool := match u with UDelivered _ _ => true | _ => false end.
Definition is_lagged (u : Use) : bool := match u with ULagged _ => true | _ => false end.
Definition many (p : Use → bool) (us : list Use) : nat := length (List.filter p us).
Definition events_sent (ch : Chan Msg) : nat := length (List.filter is_ok (ch_accepted ch)).

Lemma try_send_events ch (m : Msg) o ch' :
  try_send ch m = (o, ch') → events_sent ch' = (events_sent ch + match o with Sent => if is_ok m then 1 else 0 | _ => 0 end)%nat.
Proof.
  intros Hs%try_send_accepted. unfold events_sent. rewrite Hs, List.filter_app, length_app. destruct o; [|done..]. simpl.
  by destruct (is_ok m).
Qed.

Section Sessions.
Context (selector_matches : list Expression → gmap string string → bool).
Context (hop stage : Frame → spec_float) (ns : string).

(** One more write than before for each event the client was sent by the bridge,
    at most one frame measured and not delivered, at most one lag. *)
Lemma bridge_uses_exact f ins ch :
  let us := bridge_uses selector_matches hop stage ns f ins ch in
  events_sent (bridge_broadcast selector_matches f ins ch) = (events_sent ch + many is_written us)%nat ∧
  (many is_written us ≤ many is_delivered us ≤ many is_written us + 1)%nat ∧ (many is_lagged us ≤ 1)%nat ∧
  omap started_ns us = [] ∧ omap ended_ns us = [].
Proof.
  revert ch; induction ins as [|[|fr|n|] ins IH]; intros ch; simpl; try (unfold many; simpl; split_and!; lia || done).
  - destruct (negb _); [apply IH|]. destruct (try_send ch (Ok (fr_event fr))) as [[| |] ch'] eqn:Hs;
      apply try_send_events in Hs; simpl in Hs.
    + destruct (IH ch') as (He & Hd & Hl & H1 & H2). rewrite He, Hs. unfold many in *. simpl. split_and!; lia || done.
    + destruct (try_send ch' (Err too_slow)) as [o ch2] eqn:Hs2. apply try_send_events in Hs2. simpl in *.
      destruct o; unfold many; simpl; split_and!; lia || done.
    + unfold many; simpl; split_and!; lia || done.
  - destruct (try_send ch (Err lagged)) as [o ch2] eqn:Hs2. apply try_send_events in Hs2. simpl in *.
    destruct o; unfold many; simpl; split_and!; lia || done.
Qed.

Lemma session_balanced f ins ch i :
  occurrences i (omap started_ns (bridge_session selector_matches hop stage ns f ins ch)) =
  occurrences i (omap ended_ns (bridge_session selector_matches hop stage ns f ins ch)).
Proof.
  unfold bridge_session. destruct (bridge_uses_exact f ins ch) as (_ & _ & _ & H1 & H2).
  cbn [omap list_omap started_ns ended_ns]. by rewrite !omap_app, H1, H2.
Qed.
End Sessions.

(** ** Witness *)
Module MetricsDemo.
(** A registry that holds what a scrape sees. *)
Definition MapRegistry : Type := gmap string Desc * gmap SeriesKey Sample.

Definition add_to (k : SeriesKey) (op : spec_float → spec_float) (r : MapRegistry) : MapRegistry :=
  (r.1, alter (λ x, match x with Value v => Value (op v) | x => x end) k r.2).

#[export] Instance MapRegistry_prometheus : Prometheus MapRegistry := {|
  pr_register d r :=
    if well_formed d && bool_decide (r.1 !! d_name d = None)
    then (Ok tt, (<[d_name d := d]> r.1, if d_labels d is [] then <[(d_name d, []) := zero_sample (d_kind d)]> r.2 else r.2))
    else (Err "AlreadyReg", r);
  pr_child name ls r :=
    d ← r.1 !! name;
    if bool_decide (length ls = length (d_labels d))
    then Some (r.1, <[(name, ls) := default (zero_sample (d_kind d)) (r.2 !! (name, ls))]> r.2) else None;
  pr_set k v r := (r.1, <[k := v]> r.2);
  pr_inc_by k x := add_to k (λ v, f64_add v x);
  pr_dec_by k x := add_to k (λ v, f64_sub v x);
  pr_observe k _ r := (r.1, alter (λ x, match x with Observed n => Observed (n + 1) | x => x end) k r.2);
  pr_remove k r := (r.1, delete k r.2)
|}.

Lemma alter_insert {A} (m : gmap SeriesKey A) k f a : m !! k = Some a → alter f k m = <[k := f a]> m.
Proof.
  intros Hk. apply map_eq. intros j. destruct (decide (k = j)) as [<-|Hne].
  - by rewrite lookup_alter_eq, lookup_insert_eq, Hk.
  - by rewrite lookup_alter_ne, lookup_insert_ne.
Qed.

#[export, program] Instance MapRegistry_laws : PrometheusLaws MapRegistry := {| families r := r.1; series r := r.2 |}.
Next Obligation. intros d r Hw Hn. simpl. rewrite Hw, bool_decide_true by done. by eexists. Qed.
Next Obligation. intros name ls d r Hd Hl. simpl. rewrite Hd. simpl. rewrite bool_decide_true by done. by eexists. Qed.
Next Obligation. done. Qed.
Next Obligation. intros k x v r Hv. split; [done|]. simpl. by rewrite (alter_insert _ _ _ _ Hv). Qed.
Next Obligation. intros k x v r Hv. split; [done|]. simpl. by rewrite (alter_insert _ _ _ _ Hv). Qed.
Next Obligation. intros k x n r Hv. split; [done|]. simpl. by rewrite (alter_insert _ _ _ _ Hv). Qed.
Next Obligation. done. Qed.

Definition demo_uses : list Use :=
  [UTenantSubscribers "svc" 1; UBridgeStart "prod"; UBridgeStart "prod"; UApplies "svc" 3; UApplies "svc" 4;
   UBridgeEnd "prod"; UTenantClear "svc"; UWritten (dec 1 (-3))].
End MetricsDemo.
Import MetricsDemo.

Lemma exposition_exact_witness :
  let r0 : MapRegistry := (∅, ∅) in
  ∃ s, records demo_uses (mkReg ∅ r0) = Some s ∧
    series (m_prom s) !! ("konfig_tenant_applies_total", ["svc"]) = Some (Value (f64_of_Z 7)) ∧
    series (m_prom s) !! ("konfig_active_subscribers", ["prod"]) = Some (Value (f64_of_Z 1)) ∧
    series (m_prom s) !! ("konfig_tenant_subscribers", ["svc"]) = None.
Proof.
  intros r0. destruct (exposition_exact demo_uses r0) as (s & Hs & Hser & _).
  - intros d _. split; [done|]. intros ls. done.
  - vm_compute. reflexivity.
  - vm_compute. reflexivity.
  - exists s. split; [exact Hs|].
    assert (Hin : ∀ d, bool_decide (d ∈ catalogue) = true → d ∈ catalogue) by (intros d; apply bool_decide_eq_true).
    pose proof (Hser TENANT_APPLIES_TOTAL ["svc"] (Hin TENANT_APPLIES_TOTAL eq_refl)) as Ha.
    pose proof (Hser ACTIVE_SUBSCRIBERS ["prod"] (Hin ACTIVE_SUBSCRIBERS eq_refl)) as Hb.
    pose proof (Hser TENANT_SUBSCRIBERS ["svc"] (Hin TENANT_SUBSCRIBERS eq_refl)) as Hc.
    split_and!; [exact (eq_trans Ha eq_refl)|exact (eq_trans Hb eq_refl)|exact (eq_trans Hc eq_refl)].
Defined.
End Metrics.
