(* ===== verification/Trace.v ===== *)
(** * Traces across the watch boundary

    [telemetry.rs] stamps the span of an Apply on the object it writes and reads it
    back from the object a watch delivers; [grpc/subscribe/watch.rs] links the
    broadcast to it.  The W3C propagator of OpenTelemetry is an interface. *)
From S2P Require Export EndToEnd.

Module Trace.

(** ** The carrier: [MapCarrier] *)
Definition MapCarrier : Type := gmap string string.
Definition MapCarrier_set (key value : string) (c : MapCarrier) : MapCarrier := <[key := value]> c.
Definition MapCarrier_get (key : string) (c : MapCarrier) : option string := c !! key.
Definition MapCarrier_keys (c : MapCarrier) : gset string := dom c.

Definition TRACEPARENT_ANNOTATION : string := "konfig.io/traceparent".

(** ** The propagator

    [SpanContext] as far as the code looks at it: whether it is valid, and the
    identifiers (trace, span, flags) that make two contexts the same.  [tc_inject]
    and [tc_extract] are [TraceContextPropagator] through the carrier's [set] and
    [get]; the root context has an invalid span. *)
Class Propagator := {
  SpanContext : Type;
  is_valid : SpanContext → bool;
  span_ids : SpanContext → Z * Z * Z;
  root_span : SpanContext;
  tc_inject : SpanContext → MapCarrier → MapCarrier;
  tc_extract : MapCarrier → SpanContext
}.

(** The header it writes for a valid context is the one it reads that context
    from; the root context is invalid. *)
Class PropagatorLaws `{Propagator} : Prop := {
  root_invalid : is_valid root_span = false;
  inject_extract sc c : is_valid sc = true → ∃ tp,
    tc_inject sc c !! "traceparent"%string = Some tp ∧
    ∀ c', c' !! "traceparent"%string = Some tp →
      is_valid (tc_extract c') = true ∧ span_ids (tc_extract c') = span_ids sc
}.

Section Trace.
Context `{Propagator}.

(** [installed]: [build_tracer_provider] has replaced the global propagator,
    which until then writes nothing and reads the root context. *)
Definition inject_context (installed : bool) (sc : SpanContext) (c : MapCarrier) : MapCarrier :=
  if installed then tc_inject sc c else c.
Definition extract (installed : bool) (c : MapCarrier) : SpanContext :=
  if installed then tc_extract c else root_span.

(** [span]: the context of the current span. *)
Definition current_traceparent (installed : bool) (span : SpanContext) : option string :=
  if negb (is_valid span) then None
  else inject_context installed span ∅ !! "traceparent"%string.

Definition span_context_from_traceparent (installed : bool) (traceparent : string) : option SpanContext :=
  let carrier := MapCarrier_set "traceparent" traceparent ∅ in
  let sc := extract installed carrier in
  if is_valid sc then Some sc else None.

(** [process_namespace_event]: the span context the object carries. *)
Definition parent_span (installed : bool) (obj : DynamicObject) : option SpanContext :=
  a ← om_annotations (do_metadata obj); tp ← a !! TRACEPARENT_ANNOTATION; span_context_from_traceparent installed tp.

(** ** Dispatch

    A frame with its [parent_span]; the span of a dispatch records the number of
    receivers, the size of the burst, and its links. *)
Definition TFrame : Type := Frame * option SpanContext.

Record Dispatch : Type := mkDispatch {
  dp_subscribers : nat;
  dp_events : nat;
  dp_links : list SpanContext
}.

(** [pump_immediate]: one span per frame. *)
Definition dispatch_one (shards : ShardSet) (tf : TFrame) (q : gmap nat Receiver) :
    Dispatch * bool * gmap nat Receiver :=
  let '(delivered, q') := send_to_all shards tf.1 q in
  (mkDispatch (total_receiver_count shards) 1 (option_list tf.2), delivered, q').

Fixpoint dispatch_each (shards : ShardSet) (batch : list TFrame) (q : gmap nat Receiver) :
    list Dispatch * Z * gmap nat Receiver :=
  match batch with
  | [] => ([], 0, q)
  | tf :: rest =>
      let '(d, delivered, q') := dispatch_one shards tf q in
      let '(ds, n, q'') := dispatch_each shards rest q' in
      (d :: ds, (if delivered : bool then 1 else 0) + n, q'')
  end.

(** [flush_batch]: one span for the burst, a link per frame that has a parent,
    [events_broadcast] incremented per frame that reached a receiver. *)
Fixpoint flush_loop (shards : ShardSet) (batch : list TFrame) (links : list SpanContext) (count : Z)
    (q : gmap nat Receiver) : list SpanContext * Z * gmap nat Receiver :=
  match batch with
  | [] => (links, count, q)
  | (frame, parent) :: rest =>
      let links := match parent with Some sc => links ++ [sc] | None => links end in
      let '(delivered, q') := send_to_all shards frame q in
      flush_loop shards rest links (if delivered : bool then count + 1 else count) q'
  end.
Definition flush_batch (shards : ShardSet) (batch : list TFrame) (q : gmap nat Receiver) :
    Dispatch * Z * gmap nat Receiver :=
  let '(links, count, q') := flush_loop shards batch [] 0 q in
  (mkDispatch (total_receiver_count shards) (length batch) links, count, q').

(** ** Facts *)

(** A send reports a receiver exactly when there is one. *)
Lemma send_to_all_delivered shards f q :
  (send_to_all shards f q).1 = negb (bool_decide (total_receiver_count shards = 0%nat)).
Proof.
  unfold send_to_all, total_receiver_count.
  assert (Hg : ∀ ss b q, (foldl (λ acc rxs, let '(d, q) := shard_send f rxs acc.2 in (acc.1 || d, q)) (b, q) ss).1 =
    b || negb (bool_decide (sum_list (length <$> ss) = 0%nat))).
  { induction ss as [|rxs ss IH]; intros b q'; simpl; [by rewrite orb_false_r|]. rewrite IH, <- orb_assoc. f_equal.
    destruct rxs as [|r rxs]; simpl; [done|]. done. }
  by rewrite Hg.
Qed.

Lemma flush_loop_each shards batch links count q :
  let '(ds, n, q') := dispatch_each shards batch q in
  flush_loop shards batch links count q = (links ++ (ds ≫= dp_links), count + n, q').
Proof.
  revert links count q; induction batch as [|[f p] batch IH]; intros links count q; simpl.
  { by rewrite app_nil_r, Z.add_0_r. }
  unfold dispatch_one; simpl. destruct (send_to_all shards f q) as [d q1] eqn:Hs.
  specialize (IH (match p with Some sc => links ++ [sc] | None => links end) (if d then count + 1 else count) q1).
  destruct (dispatch_each shards batch q1) as [[ds n] q2]. rewrite IH.
  replace (count + ((if d then 1 else 0) + n)) with ((if d then count + 1 else count) + n) by (destruct d; lia).
  do 2 f_equal. destruct p; cbn; [|done]. by rewrite <- app_assoc.
Qed.

Lemma dispatch_each_count shards batch q :
  let '(ds, n, _) := dispatch_each shards batch q in
  n = (if bool_decide (total_receiver_count shards = 0%nat) then 0 else Z.of_nat (length batch)) ∧
  ds ≫= dp_links = omap snd batch ∧ length ds = length batch.
Proof.
  revert q; induction batch as [|[f p] batch IH]; intros q; simpl; [by case_bool_decide|].
  unfold dispatch_one; simpl. pose proof (send_to_all_delivered shards f q) as Hd.
  destruct (send_to_all shards f q) as [d q1]. specialize (IH q1).
  destruct (dispatch_each shards batch q1) as [[ds n] q2]. destruct IH as (-> & Hl & Hn). simpl in Hd. subst d.
  split_and!; [case_bool_decide; simpl; lia| |by f_equal/=]. cbn. rewrite Hl. by destruct p.
Qed.

(** A coalesced burst carries what the frames would have carried one by one. *)
Lemma flush_batch_exact shards batch q :
  let '(ds, n, q') := dispatch_each shards batch q in
  flush_batch shards batch q =
    (mkDispatch (total_receiver_count shards) (length batch) (omap snd batch),
     if bool_decide (total_receiver_count shards = 0%nat) then 0 else Z.of_nat (length batch), q').
Proof.
  unfold flush_batch. pose proof (flush_loop_each shards batch [] 0 q) as Hf. pose proof (dispatch_each_count shards batch q) as Hc.
  destruct (dispatch_each shards batch q) as [[ds n] q']. destruct Hc as (-> & <- & _). by rewrite Hf.
Qed.

Context `{!PropagatorLaws}.

Lemma traceparent_roundtrip sc :
  is_valid sc = true → ∃ tp sc', current_traceparent true sc = Some tp ∧
    span_context_from_traceparent true tp = Some sc' ∧ span_ids sc' = span_ids sc.
Proof.
  intros Hv. destruct (inject_extract sc ∅ Hv) as (tp & Hi & He).
  destruct (He (MapCarrier_set "traceparent" tp ∅)) as [Hv' Hids].
  { unfold MapCarrier_set. apply lookup_insert_eq. }
  exists tp, (tc_extract (MapCarrier_set "traceparent" tp ∅)).
  unfold current_traceparent, span_context_from_traceparent; simpl. rewrite Hv, Hv'. by split_and!.
Qed.

Lemma traceparent_off sc tp : current_traceparent false sc = None ∧ span_context_from_traceparent false tp = None.
Proof.
  unfold current_traceparent, span_context_from_traceparent; simpl. rewrite root_invalid. by destruct (is_valid sc).
Qed.
End Trace.

(** A server-side apply by the only manager of an object sets the annotations of
    the body on it and drops the ones the manager no longer applies. *)
Class AnnotationLaws (W : Type) `{KubeLaws W} : Prop := annotation_law ns n body w o w' :
  quiet w → kube_patch ns n body w = (Ok o, w') →
  (om_annotations (do_metadata o) ≫= lookup TRACEPARENT_ANNOTATION) =
  (body_annotations body ≫= lookup TRACEPARENT_ANNOTATION).

#[global] Instance ScriptKube_annotations : AnnotationLaws ScriptKube.
Proof.
  intros ns n body w o w' _. simpl. destruct (sk_step w) as [[e|] w1]; [done|]. by intros [= <- <-].
Qed.

Lemma patch_body_annotation tp ns n spec :
  (body_annotations (patch_body tp ns n spec) ≫= lookup TRACEPARENT_ANNOTATION) = tp.
Proof. by destruct tp. Qed.

(** C37: a broadcast is linked to the Apply that caused it.  With tracing on and
    an Apply that runs in a valid span and succeeds, the object stored is one whose
    watch event carries a parent span with the ids of the Apply's span, and a burst of such
    events carries the parent of each, in order, whether or not it was coalesced;
    with tracing off no annotation is written and no link is made.  Coalescing
    counts each frame as broadcast exactly when there is a receiver. *)
Theorem apply_trace_linked {W} `{Propagator, !PropagatorLaws, AnnotationLaws W}
    (installed : bool) (span : SpanContext) (nanos : nat → Z) ns n spec (e : Env W) rv e' :
  quiet (e_kube e) → apply_spec (current_traceparent installed span) nanos ns n spec e = (Ok rv, e') →
  (∃ o, store (e_kube e') !! (ns, n) = Some o ∧
     span_ids <$> parent_span installed o = if installed && is_valid span then Some (span_ids span) else None) ∧
  ∀ shards batch q, let '(ds, count, q') := dispatch_each shards batch q in
    flush_batch shards batch q = (mkDispatch (total_receiver_count shards) (length batch) (omap snd batch), count, q') ∧
    ds ≫= dp_links = omap snd batch ∧
    count = if bool_decide (total_receiver_count shards = 0%nat) then 0 else Z.of_nat (length batch).
Proof.
  intros Hq Ha. split.
  - destruct (apply_spec_patched _ _ _ _ _ _ _ _ Hq Ha) as (o & w & Hqw & Hp & _ & Hst). exists o. split; [done|].
    pose proof (annotation_law _ _ _ _ _ _ Hqw Hp) as Hann. rewrite patch_body_annotation in Hann.
    assert (Hps : parent_span installed o = current_traceparent installed span ≫= span_context_from_traceparent installed).
    { unfold parent_span. rewrite <- Hann. by destruct (om_annotations (do_metadata o)). }
    rewrite Hps. destruct installed; simpl.
    + destruct (is_valid span) eqn:Hv.
      * destruct (traceparent_roundtrip span Hv) as (tp & sc' & -> & Hs & Hids). simpl. rewrite Hs. simpl. by rewrite Hids.
      * unfold current_traceparent. by rewrite Hv.
    + by rewrite (proj1 (traceparent_off span ""%string)).
  - intros shards batch q. pose proof (flush_batch_exact shards batch q) as Hf.
    pose proof (dispatch_each_count shards batch q) as Hc. destruct (dispatch_each shards batch q) as [[ds cnt] q'].
    destruct Hc as (Hn & Hl & _). rewrite Hn at 1. split_and!; done.
Qed.

(** ** Witness: contexts are their header *)
Module TraceDemo.
#[export] Instance demo_propagator : Propagator := {|
  SpanContext := string;
  is_valid s := negb (is_empty s);
  span_ids s := (Z.of_nat (String.length s), 0, 0);
  root_span := ""%string;
  tc_inject s c := MapCarrier_set "traceparent" s c;
  tc_extract c := default ""%string (MapCarrier_get "traceparent" c)
|}.
#[export] Instance demo_propagator_laws : PropagatorLaws.
Proof.
  split; [done|]. intros sc c Hv. exists sc. split; [apply lookup_insert_eq|]. intros c' Hc. simpl.
  unfold MapCarrier_get. by rewrite Hc.
Qed.
End TraceDemo.
Import TraceDemo.

Lemma apply_trace_linked_witness :
  let e := mkEnv (mkScript ∅ ∅ []) [] ∅ in
  let spec := mkConfigSpec 4 (JObj []) in
  let out := apply_spec (current_traceparent true "00-ab-cd-01"%string) (λ _, 0) "prod" "web" spec e in
  is_ok out.1 = true ∧
  ∃ o, store (e_kube out.2) !! ("prod", "web")%string = Some o ∧ span_ids <$> parent_span true o = Some (11, 0, 0).
Proof.
  intros e spec out. split; [vm_compute; reflexivity|].
  exact (proj1 (apply_trace_linked true "00-ab-cd-01"%string (λ _, 0) "prod" "web" spec e _ out.2
    (List.Forall_nil _) eq_refl)).
Defined.
End Trace.
