(* ===== verification/Upkeep.v ===== *)
(** * The tasks that keep the process up

    [gc_task] of [grpc/subscribe/watch.rs] around the collector's sweep, with the
    panics it survives; the metrics listener of [startup.rs] and its two handlers;
    the stream wrapper that holds a subscriber's guard ([quota.rs]). *)
From S2P Require Export SubscribeFacts Startup.

Module Upkeep.

(** ** Panics

    A payload of [catch_unwind], by what it downcasts to. *)
Inductive Payload : Set := PStr (s : string) | PString (s : string) | POpaque.
Definition panic_message (p : Payload) : string :=
  match p with PStr s => s | PString s => s | POpaque => "<opaque>" end.

(** ** The collector's loop *)
Section Gc.
Context `{!MapIter string ShardSet}.

(** The teardown of one namespace, removal by removal, as the second pass does it
    once [remove_if] has taken the broadcast entry. *)
Inductive TearStep : Set := TBroadcast | THandle | TAbort | TReplay | TIdle.
Definition tear_order : list TearStep := [TBroadcast; THandle; TAbort; TReplay; TIdle].

(** [h] is the handle [watcher_handles.remove] returned. *)
Definition tear_step (ns : string) (h : option nat) (acc : NsMaps * list nat) (t : TearStep) :
    NsMaps * list nat :=
  let '(m, aborted) := acc in
  match t with
  | TBroadcast => (mkMaps (delete ns (nm_broadcasts m)) (nm_replay m) (nm_handles m) (nm_idle m), aborted)
  | THandle => (mkMaps (nm_broadcasts m) (nm_replay m) (delete ns (nm_handles m)) (nm_idle m), aborted)
  | TAbort => (m, aborted ++ option_list h)
  | TReplay => (mkMaps (nm_broadcasts m) (delete ns (nm_replay m)) (nm_handles m) (nm_idle m), aborted)
  | TIdle => (mkMaps (nm_broadcasts m) (nm_replay m) (nm_handles m) (delete ns (nm_idle m)), aborted)
  end.

(** What the re-check under the entry lock decides. *)
Definition removable (m : NsMaps) (ns : string) : bool :=
  match nm_broadcasts m !! ns with
  | Some s => bool_decide (total_receiver_count s = 0%nat)
  | None => false
  end.

(** The second pass on [ns] up to its [j]-th effect: a namespace that is not
    removed only loses its timer. *)
Definition gc_torn (j : nat) (acc : NsMaps * list nat) (ns : string) : NsMaps * list nat :=
  if removable acc.1 ns then
    foldl (tear_step ns (nm_handles acc.1 !! ns)) acc (take j tear_order)
  else foldl (tear_step ns None) acc (take j [TIdle]).

(** Where a panic cuts a sweep: so many namespaces scanned and, when all were, so
    many torn down whole and so many effects on the next one. *)
Record Cut : Set := mkCut { ct_scanned : nat; ct_whole : nat; ct_effects : nat }.

(** The namespace a cut leaves half torn down, with the effects it had. *)
Definition half_torn (j : nat) (m : NsMaps) (ns : string) : list (string * nat) :=
  if removable m ns && (0 <? j)%nat && (j <? length tear_order)%nat then [(ns, j)] else [].

(** The second pass over the collected names [gc], up to the cut. *)
Definition gc_second (c : Cut) (m : NsMaps) (gc : list string) : NsMaps * list nat * list (string * nat) :=
  let acc := foldl gc_collect_one (m, []) (take (ct_whole c) gc) in
  match gc !! ct_whole c with
  | Some ns => (gc_torn (ct_effects c) acc ns, half_torn (ct_effects c) acc.1 ns)
  | None => (acc, [])
  end.

(** A sweep cut by a panic: the maps, the tasks aborted, the namespace left half
    torn down. *)
Definition gc_swept (now clock : Instant) (m : NsMaps) (c : Cut) : NsMaps * list nat * list (string * nat) :=
  let l := map_iter (nm_broadcasts m) in
  let '(idle, gc) :=
    foldl (λ acc kv, gc_scan_one now clock kv.1 kv.2 acc) (nm_idle m, []) (take (ct_scanned c) l) in
  let m' := mkMaps (nm_broadcasts m) (nm_replay m) (nm_handles m) idle in
  if (ct_scanned c <? length l)%nat then (m', [], []) else gc_second c m' gc.

(** A tick: what other tasks did to the maps since the last one, the clock, and
    the panic that cut the sweep, if one did. *)
Record Tick : Type := mkTick {
  tk_env : NsMaps → NsMaps;
  tk_now : Instant;
  tk_clock : Instant;
  tk_panic : option (Cut * Payload)
}.

(** The maps, the tasks aborted, the warnings, and (not visible to the program)
    the namespaces left half torn down. *)
Record GcOut : Type := mkGcOut {
  go_maps : NsMaps;
  go_aborted : list nat;
  go_warnings : list string;
  go_half : list (string * nat)
}.

Definition gc_iteration (t : Tick) (m : NsMaps) : GcOut :=
  match tk_panic t with
  | None =>
      let '(m', ab) := gc_tick (tk_now t) (tk_clock t) (λ _ m, m) (tk_env t m) in mkGcOut m' ab [] []
  | Some (c, p) =>
      let '(m', ab, half) := gc_swept (tk_now t) (tk_clock t) (tk_env t m) c in
      mkGcOut m' ab [panic_message p] half
  end.

Fixpoint gc_task (ticks : list Tick) (m : NsMaps) : GcOut :=
  match ticks with
  | [] => mkGcOut m [] [] []
  | t :: rest =>
      let o := gc_iteration t m in
      let o' := gc_task rest (go_maps o) in
      mkGcOut (go_maps o') (go_aborted o ++ go_aborted o') (go_warnings o ++ go_warnings o')
        (go_half o ++ go_half o')
  end.

(** *** One namespace under sweeps *)
Context `{!MapIterLaws string ShardSet}.

(** [ns] as the maps know it. *)
Definition entry (m : NsMaps) (ns : string) : option ShardSet * option (list ReplayEntry) * option nat :=
  (nm_broadcasts m !! ns, nm_replay m !! ns, nm_handles m !! ns).

(** What [j] effects of its teardown leave of a namespace with buffer [r] and
    task [h]: all five leave nothing. *)
Definition torn_at (ns : string) (r : option (list ReplayEntry)) (h : option nat) (j : nat)
    (m : NsMaps) (ab : list nat) : Prop :=
  entry m ns = (None, if (j <? 4)%nat then r else None, if (j <? 2)%nat then h else None) ∧
  (nm_idle m !! ns = None ↔ j = 5%nat) ∧
  ((3 ≤ j)%nat → ∀ x, h = Some x → x ∈ ab).

(** [ns] was torn down, whole or as far as the recorded cut let it. *)
Definition torn (ns : string) (r : option (list ReplayEntry)) (h : option nat)
    (m : NsMaps) (ab : list nat) (half : list (string * nat)) : Prop :=
  ∃ j, (1 ≤ j ≤ 5)%nat ∧ torn_at ns r h j m ab ∧ ∀ j', (ns, j') ∈ half ↔ j' = j ∧ j ≠ 5%nat.

Lemma scan_entry now clock s ns l idle gc :
  (∀ s', (ns, s') ∈ l → s' = s) → total_receiver_count s = 0%nat →
  let idle' := (foldl (λ acc kv, gc_scan_one now clock kv.1 kv.2 acc) (idle, gc) l).1 in
  (idle' !! ns = idle !! ns ∨ idle' !! ns = Some (default clock (idle !! ns))) ∧
  ((ns, s) ∈ l → idle' !! ns = Some (default clock (idle !! ns))) ∧
  (ns ∉ l.*1 → idle' !! ns = idle !! ns).
Proof.
  intros Hs Hz. revert idle gc; induction l as [|[k s'] l IH]; intros idle gc; simpl.
  { split_and!; [by left|set_solver|done]. }
  assert (Hs' : ∀ x, (ns, x) ∈ l → x = s) by (intros x Hx; apply Hs; by right). specialize (IH Hs').
  destruct (decide (k = ns)) as [->|Hne].
  - assert (s' = s) as -> by (apply Hs; by left). rewrite bool_decide_true by done.
    match goal with |- context [foldl _ (?i, ?g) l] => specialize (IH i g) end. rewrite lookup_insert_eq in IH. simpl in IH.
    destruct IH as (H1 & _ & _). split_and!; [right|intros _|set_solver]; by destruct H1.
  - assert (Hstep : ∀ i g, i !! ns = idle !! ns →
      let idle' := (foldl (λ acc kv, gc_scan_one now clock kv.1 kv.2 acc) (i, g) l).1 in
      (idle' !! ns = idle !! ns ∨ idle' !! ns = Some (default clock (idle !! ns))) ∧
      ((ns, s) ∈ (k, s') :: l → idle' !! ns = Some (default clock (idle !! ns))) ∧
      (ns ∉ k :: l.*1 → idle' !! ns = idle !! ns)).
    { intros i g Hi. specialize (IH i g). rewrite Hi in IH. destruct IH as (H1 & H2 & H3). split_and!; [done| |].
      - intros [[= -> _]|Hin]%elem_of_cons; [done|]. by apply H2.
      - intros Hn. apply H3. intros Hin. apply Hn. by right. }
    case_bool_decide; apply Hstep; [by rewrite lookup_insert_ne|by rewrite lookup_delete_ne].
Qed.

Lemma scan_keys now clock l idle gc :
  ∀ ns, ns ∈ (foldl (λ acc kv, gc_scan_one now clock kv.1 kv.2 acc) (idle, gc) l).2 → ns ∈ gc ∨ ns ∈ l.*1.
Proof.
  revert idle gc; induction l as [|[k s] l IH]; intros idle gc ns; simpl; [by left|].
  case_bool_decide; intros Hin%IH; [|set_solver]. case_match; set_solver.
Qed.

(** The teardown in steps is the teardown. *)
Lemma gc_torn_whole acc ns : gc_torn 5 acc ns = gc_collect_one acc ns.
Proof.
  destruct acc as [m ab]. unfold gc_torn, removable, gc_collect_one. simpl.
  destruct (nm_broadcasts m !! ns) as [s|]; [case_bool_decide|]; done.
Qed.

Lemma gc_torn_other j m ab x ns :
  x ≠ ns → let '(m', ab') := gc_torn j (m, ab) x in
  entry m' ns = entry m ns ∧ nm_idle m' !! ns = nm_idle m !! ns ∧ ab `prefix_of` ab'.
Proof.
  intros Hne. unfold gc_torn.
  assert (Hf : ∀ ts h m ab, let '(m', ab') := foldl (tear_step x h) (m, ab) ts in
    entry m' ns = entry m ns ∧ nm_idle m' !! ns = nm_idle m !! ns ∧ ab `prefix_of` ab').
  { clear m ab. induction ts as [|t ts IH]; intros h m ab; cbn [foldl]; [done|].
    assert (Ht : let '(m', ab') := tear_step x h (m, ab) t in
      entry m' ns = entry m ns ∧ nm_idle m' !! ns = nm_idle m !! ns ∧ ab `prefix_of` ab').
    { destruct t; simpl; unfold entry; simpl; rewrite ?lookup_delete_ne by done; split_and!; try done.
      by apply prefix_app_r. }
    destruct (tear_step x h (m, ab) t) as [m1 ab1]. specialize (IH h m1 ab1).
    destruct (foldl _ _ ts) as [m2 ab2]. destruct Ht as (? & ? & ?), IH as (? & ? & ?).
    split_and!; [congruence..|]. by etransitivity. }
  destruct (removable _ _); apply Hf.
Qed.

Lemma gc_torn_here j m ab ns s since :
  nm_broadcasts m !! ns = Some s → total_receiver_count s = 0%nat → nm_idle m !! ns = Some since →
  (1 ≤ j)%nat →
  let '(m', ab') := gc_torn j (m, ab) ns in
  torn_at ns (nm_replay m !! ns) (nm_handles m !! ns) (Nat.min j 5) m' ab'.
Proof.
  intros Hs Hz Hi Hj. unfold gc_torn, removable. simpl. rewrite Hs, bool_decide_true by done.
  assert (Hab : ∀ x, nm_handles m !! ns = Some x → x ∈ ab ++ option_list (nm_handles m !! ns)).
  { intros x Hx. rewrite Hx. apply elem_of_app. right. by left. }
  unfold torn_at, entry, Instant in *.
  destruct j as [|[|[|[|[|j]]]]]; [lia|..]; rewrite ?Nat.min_l by lia; rewrite ?(Nat.min_r (S (S (S (S (S j))))) 5) by lia;
    simpl; rewrite ?take_nil; simpl; rewrite ?lookup_delete_eq, ?Hi; (split; [done|]); (split; [by split|]); intros; try lia;
    by apply Hab.
Qed.

Lemma torn_at_mono ns r h j m ab m' ab' :
  entry m' ns = entry m ns → nm_idle m' !! ns = nm_idle m !! ns → ab `prefix_of` ab' →
  torn_at ns r h j m ab → torn_at ns r h j m' ab'.
Proof.
  intros He Hi [k ->] (H1 & H2 & H3). split_and!; [congruence|by rewrite Hi|].
  intros Hj x Hx. apply elem_of_app. left. by apply H3.
Qed.

(** Tearing down some namespaces: one not among them is left alone. *)
Lemma collect_other ns xs m ab :
  ns ∉ xs → let '(m', ab') := foldl gc_collect_one (m, ab) xs in
  entry m' ns = entry m ns ∧ nm_idle m' !! ns = nm_idle m !! ns ∧ ab `prefix_of` ab'.
Proof.
  revert m ab; induction xs as [|x xs IH]; intros m ab Hn; [done|]. apply not_elem_of_cons in Hn as [Hne Hn].
  cbn [foldl]. rewrite <- gc_torn_whole. pose proof (gc_torn_other 5 m ab x ns (not_eq_sym Hne)) as Ht.
  destruct (gc_torn 5 (m, ab) x) as [m1 ab1]. specialize (IH m1 ab1 Hn).
  destruct (foldl gc_collect_one (m1, ab1) xs) as [m2 ab2]. destruct Ht as (? & ? & ?), IH as (? & ? & ?).
  split_and!; [congruence..|]. by etransitivity.
Qed.

(** One among them, idle and with a timer, goes whole. *)
Lemma collect_here ns xs m ab s since :
  ns ∈ xs → NoDup xs →
  nm_broadcasts m !! ns = Some s → total_receiver_count s = 0%nat → nm_idle m !! ns = Some since →
  let '(m', ab') := foldl gc_collect_one (m, ab) xs in
  torn_at ns (nm_replay m !! ns) (nm_handles m !! ns) 5 m' ab'.
Proof.
  intros Hin Hnd Hs Hz Hi. apply list_elem_of_split in Hin as (l1 & l2 & ->).
  apply NoDup_app in Hnd as (_ & Hd & Hnd). apply NoDup_cons in Hnd as [Hn2 _].
  assert (Hn1 : ns ∉ l1) by (intros H1; apply (Hd ns H1); by left).
  rewrite foldl_app. pose proof (collect_other ns l1 m ab Hn1) as H1.
  destruct (foldl gc_collect_one (m, ab) l1) as [m1 ab1]. destruct H1 as (He1 & Hi1 & _).
  injection He1 as Hb1 Hr1 Hh1. cbn [foldl]. rewrite <- gc_torn_whole.
  pose proof (gc_torn_here 5 m1 ab1 ns s since) as H2. rewrite Hb1, Hi1, Hr1, Hh1 in H2.
  specialize (H2 Hs Hz Hi ltac:(lia)). destruct (gc_torn 5 (m1, ab1) ns) as [m2 ab2].
  pose proof (collect_other ns l2 m2 ab2 Hn2) as H3. destruct (foldl gc_collect_one (m2, ab2) l2) as [m3 ab3].
  destruct H3 as (He3 & Hi3 & Hp3). exact (torn_at_mono _ _ _ 5 _ _ _ _ He3 Hi3 Hp3 H2).
Qed.

Lemma iter_unique ns s m k s' : nm_broadcasts m !! ns = Some s → (ns, s') ∈ take k (map_iter (nm_broadcasts m)) → s' = s.
Proof.
  intros Hs Hin. apply subseteq_take in Hin. rewrite map_iter_perm, elem_of_map_to_list in Hin. congruence.
Qed.

Lemma iter_absent ns m k : nm_broadcasts m !! ns = None → ns ∉ (take k (map_iter (nm_broadcasts m))).*1.
Proof.
  intros Hn ([x s] & -> & Hin)%list_elem_of_fmap. apply subseteq_take in Hin.
  rewrite map_iter_perm, elem_of_map_to_list in Hin. simpl in *. congruence.
Qed.

Lemma half_torn_other j m x ns : x ≠ ns → ns ∉ (half_torn j m x).*1.
Proof. intros Hne. unfold half_torn. case_match; simpl; set_solver. Qed.

(** A whole teardown stays whole whatever the cut does to the next namespace. *)
Lemma second_whole c m gc ns s since :
  NoDup gc → ns ∈ take (ct_whole c) gc →
  nm_broadcasts m !! ns = Some s → total_receiver_count s = 0%nat → nm_idle m !! ns = Some since →
  let '(m', ab, half) := gc_second c m gc in
  torn ns (nm_replay m !! ns) (nm_handles m !! ns) m' ab half.
Proof.
  intros Hnd Hin Hs Hz Hi. rewrite <- (take_drop (ct_whole c) gc) in Hnd.
  apply NoDup_app in Hnd as (Hnd1 & Hdis & _).
  pose proof (collect_here ns _ m [] s _ Hin Hnd1 Hs Hz Hi) as Ht. unfold gc_second.
  destruct (foldl gc_collect_one (m, []) (take (ct_whole c) gc)) as [m2 ab2].
  destruct (gc !! ct_whole c) as [x|] eqn:Hx.
  - assert (Hne : x ≠ ns).
    { intros ->. apply (Hdis ns Hin). by apply (elem_of_drop_lookup gc _ (ct_whole c)). }
    pose proof (gc_torn_other (ct_effects c) m2 ab2 x ns Hne) as Ho.
    destruct (gc_torn _ _ x) as [m3 ab3]. destruct Ho as (? & ? & ?). exists 5%nat. split_and!; [lia|lia| |].
    { by eapply torn_at_mono. }
    intros j'. split; [|lia]. intros Hj. exfalso. apply (half_torn_other (ct_effects c) m2 x ns Hne).
    by apply (list_elem_of_fmap_2 fst) in Hj.
  - exists 5%nat. split_and!; [lia|lia|done|]. intros j'. split; [by intros ?%not_elem_of_nil|lia].
Qed.

(** The second pass, cut anywhere, on an idle namespace with a timer. *)
Lemma second_entry c m gc ns s since :
  NoDup gc → nm_broadcasts m !! ns = Some s → total_receiver_count s = 0%nat → nm_idle m !! ns = Some since →
  let '(m', ab, half) := gc_second c m gc in
  (entry m' ns = entry m ns ∧ nm_idle m' !! ns = Some since ∧ ns ∉ half.*1) ∨
  torn ns (nm_replay m !! ns) (nm_handles m !! ns) m' ab half.
Proof.
  intros Hnd Hs Hz Hi. destruct (decide (ns ∈ take (ct_whole c) gc)) as [Hin|Hnin].
  { pose proof (second_whole c m gc ns s since Hnd Hin Hs Hz Hi) as H.
    destruct (gc_second c m gc) as [[? ?] ?]. by right. }
  pose proof (collect_other ns _ m [] Hnin) as Ht. unfold gc_second.
  destruct (foldl gc_collect_one (m, []) (take (ct_whole c) gc)) as [m2 ab2]. destruct Ht as (He & Hi2 & _).
  rewrite Hi in Hi2. destruct (gc !! ct_whole c) as [x|]; [|left; split_and!; [done|done|apply not_elem_of_nil]].
  destruct (decide (x = ns)) as [->|Hne].
  - pose proof He as [= Hb Hr Hh]. destruct (ct_effects c) as [|j].
    + unfold gc_torn, half_torn, removable. simpl. rewrite Hb, Hs, bool_decide_true by done. simpl. left.
      split_and!; [done|done|apply not_elem_of_nil].
    + pose proof (gc_torn_here (S j) m2 ab2 ns s since) as Ht. rewrite Hb, Hr, Hh in Ht.
      specialize (Ht Hs Hz Hi2 ltac:(lia)). destruct (gc_torn (S j) (m2, ab2) ns) as [m3 ab3].
      right. exists (Nat.min (S j) 5). split_and!; [lia|lia|done|].
      intros j'. unfold half_torn, removable. cbn [fst]. rewrite Hb, Hs, bool_decide_true by done.
      change (0 <? S j)%nat with true. change (length tear_order) with 5%nat. cbn [andb].
      destruct (Nat.ltb_spec (S j) 5) as [Hlt|Hge5].
      { rewrite list_elem_of_singleton. rewrite Nat.min_l by lia. split; [intros [= ->]; lia|]. by intros [-> _]. }
      split; [by intros ?%not_elem_of_nil|lia].
  - pose proof (gc_torn_other (ct_effects c) m2 ab2 x ns Hne) as Ho.
    destruct (gc_torn _ _ x) as [m3 ab3]. destruct Ho as (He3 & Hi3 & _). left.
    split_and!; [by rewrite He3, He|congruence|by apply half_torn_other].
Qed.

(** What a sweep, cut anywhere, does to a namespace without a receiver. *)
Lemma swept_entry now clock m c ns s :
  nm_broadcasts m !! ns = Some s → total_receiver_count s = 0%nat →
  let '(m', ab, half) := gc_swept now clock m c in
  (entry m' ns = entry m ns ∧
   (nm_idle m' !! ns = nm_idle m !! ns ∨ nm_idle m' !! ns = Some (default clock (nm_idle m !! ns))) ∧
   ((length (map_iter (nm_broadcasts m)) ≤ ct_scanned c)%nat →
      nm_idle m' !! ns = Some (default clock (nm_idle m !! ns))) ∧ ns ∉ half.*1) ∨
  torn ns (nm_replay m !! ns) (nm_handles m !! ns) m' ab half.
Proof.
  intros Hs Hz. unfold gc_swept. set (l := map_iter (nm_broadcasts m)).
  destruct (scan_entry now clock s ns (take (ct_scanned c) l) (nm_idle m) []) as (H1 & H2 & _);
    [intros s'; by apply iter_unique|done|].
  pose proof (gc_scan_spec now clock (take (ct_scanned c) l) (nm_idle m) []) as Hsc.
  destruct (foldl _ _ (take (ct_scanned c) l)) as [idle gc]. simpl in H1, H2.
  destruct (Nat.ltb_spec (ct_scanned c) (length l)) as [Hlt|Hge].
  { left. split_and!; [done|done|lia|apply not_elem_of_nil]. }
  destruct Hsc as (new & Hnew & Hnd & _).
  { rewrite take_ge by lia. unfold l. rewrite map_iter_perm. apply NoDup_fst_map_to_list. }
  simpl in Hnew. subst new.
  assert (Hidle : idle !! ns = Some (default clock (nm_idle m !! ns))).
  { apply H2. rewrite take_ge by lia. unfold l. by rewrite map_iter_perm, elem_of_map_to_list. }
  set (m1 := mkMaps _ _ _ idle).
  pose proof (second_entry c m1 gc ns s _ Hnd Hs Hz Hidle) as Hse.
  destruct (gc_second c m1 gc) as [[m' ab] half]. destruct Hse as [(He & Hi & Hn)|Ht]; [left|by right].
  split_and!; [by rewrite He|by right|done|done].
Qed.

(** A sweep only looks at namespaces that have a broadcast entry. *)
Lemma swept_absent now clock m c ns :
  nm_broadcasts m !! ns = None →
  let '(m', _, half) := gc_swept now clock m c in
  entry m' ns = entry m ns ∧ nm_idle m' !! ns = nm_idle m !! ns ∧ ns ∉ half.*1.
Proof.
  intros Hb. unfold gc_swept, gc_second. set (l := map_iter (nm_broadcasts m)).
  pose proof (iter_absent ns m (ct_scanned c) Hb) as Hn. fold l in Hn.
  destruct (scan_entry now clock (ShardSet_new 0) ns (take (ct_scanned c) l) (nm_idle m) []) as (_ & _ & H3).
  { intros s' Hin. exfalso. apply Hn, list_elem_of_fmap. by exists (ns, s'). }
  { done. }
  specialize (H3 Hn). pose proof (scan_keys now clock (take (ct_scanned c) l) (nm_idle m) [] ns) as Hk.
  destruct (foldl _ _ (take (ct_scanned c) l)) as [idle gc]. simpl in H3, Hk.
  assert (Hgc : ns ∉ gc) by (intros Hin; apply Hk in Hin as [?%not_elem_of_nil|?]; done).
  destruct (ct_scanned c <? length l)%nat; [split_and!; [done|done|apply not_elem_of_nil]|].
  set (m1 := mkMaps _ _ _ idle).
  pose proof (collect_other ns (take (ct_whole c) gc) m1 [] ltac:(intros Hin; by apply Hgc, (subseteq_take (ct_whole c)))) as Ho.
  destruct (foldl gc_collect_one (m1, []) (take (ct_whole c) gc)) as [m2 ab2]. destruct Ho as (He & Hi & _).
  destruct (gc !! ct_whole c) as [x|] eqn:Hx.
  - assert (Hne : x ≠ ns) by (intros ->; by apply Hgc, list_elem_of_lookup_2 with (ct_whole c)).
    pose proof (gc_torn_other (ct_effects c) m2 ab2 x ns Hne) as Ho. destruct (gc_torn _ _ x) as [m3 ab3].
    destruct Ho as (He3 & Hi3 & _). split_and!; [by rewrite He3, He|by rewrite Hi3, Hi|by apply half_torn_other].
  - split_and!; [by rewrite He|by rewrite Hi|apply not_elem_of_nil].
Qed.

(** A sweep that completes is one that was cut after its last effect. *)
Lemma tick_swept now clock m :
  ∃ c, (length (map_iter (nm_broadcasts m)) ≤ ct_scanned c)%nat ∧
    gc_swept now clock m c = (gc_tick now clock (λ _ m, m) m, []).
Proof.
  unfold gc_tick, gc_swept, gc_second.
  destruct (foldl (λ acc kv, gc_scan_one now clock kv.1 kv.2 acc) (nm_idle m, []) (map_iter (nm_broadcasts m))) as [idle gc] eqn:Hf.
  exists (mkCut (length (map_iter (nm_broadcasts m))) (length gc) 0). simpl. split; [lia|].
  rewrite take_ge, Hf, Nat.ltb_irrefl, take_ge by lia. rewrite (lookup_ge_None_2 gc (length gc)) by lia. f_equal.
  generalize (mkMaps (nm_broadcasts m) (nm_replay m) (nm_handles m) idle, [] : list nat).
  clear. induction gc as [|x gc IH]; intros acc; [done|]. cbn [foldl]. rewrite IH. by destruct acc.
Qed.

(** *** Liveness *)

(** Other tasks leave [ns] alone: nobody subscribes to it and no watch of it
    starts or ends. *)
Definition spares (ns : string) (f : NsMaps → NsMaps) : Prop :=
  ∀ m, entry (f m) ns = entry m ns ∧ nm_idle (f m) !! ns = nm_idle m !! ns.

Lemma iteration_swept t m :
  ∃ c w, (let '(m', ab, half) := gc_swept (tk_now t) (tk_clock t) (tk_env t m) c in
          gc_iteration t m = mkGcOut m' ab w half) ∧
    (tk_panic t = None → (length (map_iter (nm_broadcasts (tk_env t m))) ≤ ct_scanned c)%nat).
Proof.
  unfold gc_iteration. destruct (tk_panic t) as [[c p]|] eqn:Hp.
  - exists c, [panic_message p]. split; [by destruct (gc_swept _ _ _ _) as [[? ?] ?]|done].
  - destruct (tick_swept (tk_now t) (tk_clock t) (tk_env t m)) as (c & Hc & Hg). exists c, [].
    rewrite Hg. split; [by destruct (gc_tick _ _ _ _)|done].
Qed.

(** [ns] since it fell idle: still there with [idle] true of its timer, or torn
    down. *)
Definition waiting (ns : string) (b : ShardSet) (r : option (list ReplayEntry)) (h : option nat)
    (idle : option Instant → Prop) (m : NsMaps) (ab : list nat) (half : list (string * nat)) : Prop :=
  (entry m ns = (Some b, r, h) ∧ idle (nm_idle m !! ns) ∧ ns ∉ half.*1) ∨ torn ns r h m ab half.

Lemma torn_iteration t m ns r h ab half :
  spares ns (tk_env t) → torn ns r h m ab half →
  let o := gc_iteration t m in torn ns r h (go_maps o) (ab ++ go_aborted o) (half ++ go_half o).
Proof.
  intros Hsp (j & Hj & Ht & Hh). destruct (Hsp m) as [He' Hi'].
  destruct (iteration_swept t m) as (c & w & Ho & _). simpl.
  pose proof Ht as ([= Hb _ _] & _ & _).
  pose proof (swept_absent (tk_now t) (tk_clock t) (tk_env t m) c ns) as Ha.
  destruct (gc_swept _ _ _ c) as [[m' ab'] half']. rewrite Ho. simpl. destruct Ha as (He & Hi & Hn).
  { injection He' as Hb' _ _. by rewrite Hb'. }
  exists j. split; [done|]. split.
  - eapply torn_at_mono; [by rewrite He|by rewrite Hi|by apply prefix_app_r|done].
  - intros j'. rewrite elem_of_app, Hh. split; [|by left]. intros [?|Hin]; [done|].
    exfalso. apply Hn. by apply (list_elem_of_fmap_2 fst) in Hin.
Qed.

Lemma torn_more ns r h m ab half ab0 half0 :
  ns ∉ half0.*1 → torn ns r h m ab half → torn ns r h m (ab0 ++ ab) (half0 ++ half).
Proof.
  intros Hn (j & Hj & (H1 & H2 & H3) & Hh). exists j. split_and!; [lia|lia| |].
  - split_and!; [done|done|]. intros Hle x Hx. apply elem_of_app. right. by apply H3.
  - intros j'. rewrite elem_of_app, Hh. split; [|by right]. intros [Hin|?]; [|done].
    exfalso. apply Hn. by apply (list_elem_of_fmap_2 fst) in Hin.
Qed.

(** One iteration; [I] holds of the timer before and [J] after. *)
Lemma waiting_iteration t m ns b r h (I J : option Instant → Prop) ab half :
  spares ns (tk_env t) → total_receiver_count b = 0%nat →
  (∀ i, I i → J (Some (default (tk_clock t) i)) ∧ (tk_panic t = None ∨ J i)) →
  waiting ns b r h I m ab half →
  let o := gc_iteration t m in
  waiting ns b r h J (go_maps o) (ab ++ go_aborted o) (half ++ go_half o).
Proof.
  intros Hsp Hz HIJ [(He0 & HI & Hn0)|Ht]; [|right; by apply torn_iteration].
  destruct (Hsp m) as [He' Hi']. rewrite He0 in He'. injection He' as Hb' Hr' Hh'.
  destruct (iteration_swept t m) as (c & w & Ho & Hc). simpl.
  pose proof (swept_entry (tk_now t) (tk_clock t) (tk_env t m) c ns b Hb' Hz) as Hse.
  destruct (gc_swept _ _ _ c) as [[m' ab'] half']. rewrite Ho. simpl. rewrite Hr', Hh' in Hse.
  destruct Hse as [(He & Hor & Hfull & Hn)|Ht]; [left|right; by apply torn_more].
  destruct (HIJ _ HI) as [HJ1 HJ2]. unfold Instant in *. rewrite Hi' in Hor, Hfull.
  split_and!.
  - rewrite He. unfold entry. by rewrite Hb', Hr', Hh'.
  - destruct HJ2 as [Hp|HJ2]; [by rewrite (Hfull (Hc Hp))|]. destruct Hor as [-> | ->]; done.
  - rewrite fmap_app, not_elem_of_app. done.
Qed.

Lemma gc_task_app ts1 ts2 m :
  gc_task (ts1 ++ ts2) m =
    let o := gc_task ts1 m in let o' := gc_task ts2 (go_maps o) in
    mkGcOut (go_maps o') (go_aborted o ++ go_aborted o') (go_warnings o ++ go_warnings o') (go_half o ++ go_half o').
Proof.
  revert m; induction ts1 as [|t ts1 IH]; intros m; simpl; [by destruct (gc_task ts2 m)|].
  rewrite IH. simpl. by rewrite <- !app_assoc.
Qed.

(** Any iterations that keep a condition on the timer. *)
Lemma waiting_task ts m ns b r h (I : option Instant → Prop) ab half :
  Forall (λ t, spares ns (tk_env t) ∧ ∀ i, I i → I (Some (default (tk_clock t) i))) ts →
  total_receiver_count b = 0%nat → waiting ns b r h I m ab half →
  let o := gc_task ts m in
  waiting ns b r h I (go_maps o) (ab ++ go_aborted o) (half ++ go_half o).
Proof.
  intros Hsp Hz. revert m ab half; induction ts as [|t ts IH]; intros m ab half Hp; simpl; [by rewrite !app_nil_r|].
  apply Forall_cons in Hsp as [[Ht HI] Hts].
  apply (waiting_iteration t _ _ _ _ _ I I) in Hp; [|done|done|by intros i Hi; split; [apply HI|right]].
  rewrite !app_assoc. by apply IH.
Qed.

Lemma default_le (o : option Instant) (d c : Instant) : d ≤ c → (∀ i, o = Some i → i ≤ c) → default d o ≤ c.
Proof. destruct o; simpl; auto. Qed.

(** A sweep that completes after the grace period tears it down whole. *)
Lemma finish_iteration t m ns b r h c ab half :
  spares ns (tk_env t) → total_receiver_count b = 0%nat → tk_panic t = None → GC_GRACE < tk_now t - c →
  waiting ns b r h (λ i, ∃ since, i = Some since ∧ since ≤ c) m ab half →
  let o := gc_iteration t m in torn ns r h (go_maps o) (ab ++ go_aborted o) (half ++ go_half o).
Proof.
  intros Hsp Hz Hp Hlt [(He0 & (since & Hi & Hle) & Hn0)|Ht]; [|by apply torn_iteration].
  destruct (Hsp m) as [He' Hi']. rewrite He0 in He'. injection He' as Hb' Hr' Hh'. unfold gc_iteration. rewrite Hp.
  pose proof (proj1 (gc_tick_exact (tk_now t) (tk_clock t) (tk_env t m))) as Hx.
  destruct (gc_tick _ _ _ _) as [m' ab']. destruct (Hx ns) as [Hd _]. destruct Hd as (H1 & H2 & H3 & H4 & H5).
  { exists b. split; [done|]. split; [done|]. unfold Instant in *. rewrite Hi', Hi. simpl. lia. }
  simpl. exists 5%nat. split_and!; [lia|lia| |].
  - split_and!; [unfold entry; by rewrite H1, H2, H3|done|]. intros _ x Hhx. apply elem_of_app. right. apply H5. congruence.
  - intros j'. rewrite app_nil_r. split; [|lia]. intros Hin. exfalso. apply Hn0. by apply (list_elem_of_fmap_2 fst) in Hin.
Qed.

Lemma gc_task_warnings ts m : go_warnings (gc_task ts m) = (λ cp, panic_message cp.2) <$> omap tk_panic ts.
Proof.
  revert m; induction ts as [|t ts IH]; intros m; [done|]. cbn [gc_task go_warnings]. rewrite IH.
  unfold gc_iteration. simpl.
  destruct (tk_panic t) as [[c p]|]; [destruct (gc_swept _ _ _ _) as [[? ?] ?]|destruct (gc_tick _ _ _ _)]; done.
Qed.

End Gc.

(** ** The metrics listener: [serve_metrics] *)
Definition text (code : Z) (body : string) : HttpResponse :=
  mkHttp code [("content-type", "text/plain; charset=utf-8")]%string body.

(** [encode]: what the text encoder makes of the gathered families. *)
Definition metrics_handler (from_utf8 : list Z → option string) (encode : result (list Z) string) : HttpResponse :=
  match encode with
  | Err e => text 500 ("metrics encode failed: " +:+ e)
  | Ok buf =>
      match from_utf8 buf with
      | Some body => text 200 body
      | None => text 500 "metrics output not UTF-8"
      end
  end.

(** [profiling]: the [snmalloc_profiling] feature, with the outcome of the pprof
    writer (the gzipped bytes as a string). *)
Definition heap_profile_handler (profiling : option (result string string)) : HttpResponse :=
  match profiling with
  | Some (Ok buf) =>
      mkHttp 200 [("content-type", "application/octet-stream");
                  ("content-disposition", "attachment; filename=" +:+ quoted "heap-profile.pprof.gz")]%string buf
  | Some (Err e) => text 500 ("heap-profile encode failed: " +:+ e)
  | None => text 404 "heap profiling not compiled in; rebuild with Bazel target //rust/konfig:konfig_bin_heapprof to enable"
  end.

(** The router: a GET route also answers HEAD, without the body. *)
Definition get_only (m : Method) (r : HttpResponse) : HttpResponse :=
  match m with
  | GET => r
  | HEAD => mkHttp (hr_status r) (hr_headers r) ""
  | _ => mkHttp 405 [] ""
  end.
Definition serve_metrics (from_utf8 : list Z → option string) (encode : result (list Z) string)
    (profiling : option (result string string)) (m : Method) (path : string) : HttpResponse :=
  if String.eqb path "/metrics" then get_only m (metrics_handler from_utf8 encode)
  else if String.eqb path "/debug/heap-profile.pprof" then get_only m (heap_profile_handler profiling)
  else mkHttp 404 [] "".

(** ** The guarded stream of [quota.rs] *)
Inductive Poll (A : Type) : Type := Ready (item : option A) | Pending.
Arguments Ready {A} item.
Arguments Pending {A}.

Record GuardedStream (S : Type) : Type := mkGuarded { gs_inner : S; gs_guard : option string }.
Arguments mkGuarded {S} _ _.
Arguments gs_inner {S} _.
Arguments gs_guard {S} _.

Section Guarded.
Context {S A : Type} (poll_inner : S → Poll A * S).

Definition poll_next (g : GuardedStream S) : Poll A * GuardedStream S :=
  let '(p, i) := poll_inner (gs_inner g) in (p, mkGuarded i (gs_guard g)).

(** What a client receives by polling [n] times. *)
Fixpoint polls (n : nat) (g : GuardedStream S) : list (Poll A) * GuardedStream S :=
  match n with
  | O => ([], g)
  | Datatypes.S n => let '(p, g1) := poll_next g in let '(ps, g2) := polls n g1 in (p :: ps, g2)
  end.

Definition drop_stream (g : GuardedStream S) (c : SubscriberCounts) : SubscriberCounts :=
  match gs_guard g with Some identity => release c identity | None => c end.

(** However long it is polled, the stream gives back the slot it was opened with. *)
Lemma guard_held n inner identity c :
  drop_stream (polls n (mkGuarded inner (Some identity))).2 c = release c identity.
Proof.
  revert inner; induction n as [|n IH]; intros inner; [done|]. simpl. unfold poll_next; simpl.
  destruct (poll_inner inner) as [p i]. specialize (IH i). by destruct (polls n (mkGuarded i (Some identity))).
Qed.
End Guarded.

(** ** Witness *)
Import CanonicalIter.

End Upkeep.
