(* ===== verification/Scenarios.v ===== *)
(** * The load-test scenarios, whole

    Each [scenario_*] of [tools/konfig-loadtest/src/scenarios] from its knobs to its
    result: seeding, the documents it applies, its subscriber tasks, the drain and
    the verdict.  What the server and the clock answer are inputs; every task path
    waits on the start barrier exactly once, so the barrier only orders the inputs.
    [None] is a scenario that has not returned: its drain is still polling, or a
    percentile was asked of no samples. *)
From S2P Require Import LoadTest LoadTestFacts.

Module Scenarios.
Import Flame LoadTest LoadTestFacts.
Open Scope string_scope.
Open Scope Z_scope.

(** [schema_version + 1] of what is stored, or 1. *)
Definition next_seq (get : option Z) : Z := match get with Some version => as_u32 (version + 1) | None => 1 end.
(** [start + n - 1] *)
Definition end_seq (start n : Z) : Z := as_u32 (start + n - 1).
(** The numbers of [for seq in start..=last]. *)
Definition seqs (start last : Z) : list Z := (λ i, start + Z.of_nat i) <$> seq 0 (Z.to_nat (last - start + 1)).

Definition connect_failed (name e : string) : ScenarioResult := scenario_fail name ["connect failed: " +:+ e].

(** What a scenario did: the documents it applied, in order, and its result. *)
Definition Outcome : Type := list string * option ScenarioResult.
Definition ends (r : ScenarioResult) : Outcome := ([], Some r).

(** ** Scenario 1: subscribe flood *)
Definition S1_DRAIN_SECS : Z := 30.
Definition S1_P99_LIMIT_MS : Z := 500.
Definition S1_SUSTAINED_DRAIN_SECS : Z := 60.

Definition payload_blob (bytes : Z) : string :=
  if bytes =? 0 then "" else "  blob: " +:+ quote (string_of_list_ascii (replicate (Z.to_nat bytes) (byte 97))) +:+ nl.
Definition flood_yaml (label blob : string) (seq : Z) : string := driver_yaml label seq +:+ blob.

(** [fl_answers]: the answer to each apply with the instant after it; [fl_subs]:
    what became of each subscriber; [fl_polls]: the drain's readings, with times
    counted from the end of the apply loop. *)
Record FloodIn : Type := mkFlood {
  fl_seed : result unit string;
  fl_get : option Z;
  fl_driver : result unit string;
  fl_answers : list (bool * Instant);
  fl_subs : list (Conn Recv);
  fl_polls : list (Z * Z)
}.

Record SustainedIn : Type := mkSustained {
  su_seed : result unit string;
  su_get : option Z;
  su_driver : result unit string;
  su_answers : list bool;                      (* one per round before the deadline *)
  su_subs : list (Conn (option Z));
  su_polls : list (Z * Z)
}.

Definition secs (n : Z) : Z := n * 1000000000.

(** [seq.wrapping_add(1)] per round. *)
Fixpoint sustained_docs (blob : string) (seq : Z) (answers : list bool) : list string :=
  match answers with
  | [] => []
  | _ :: rest => flood_yaml "subscribe_flood_sustained" blob seq :: sustained_docs blob (as_u32 (seq + 1)) rest
  end.

Definition scenario_subscribe_flood_sustained (env : string → option string) (i : SustainedIn) : Outcome :=
  match su_seed i, su_driver i with
  | Err e, _ => ends (connect_failed "subscribe_flood_sustained" e)
  | _, Err e => ends (connect_failed "subscribe_flood_sustained" e)
  | Ok _, Ok _ =>
      let start_seq := next_seq (su_get i) in
      let blob := payload_blob (env_usize (env "S1_PAYLOAD_BYTES") 0) in
      let n_ok := Z.of_nat (length (List.filter id (su_answers i))) in
      let expected := Z.of_nat (length (su_subs i)) * n_ok in
      let received := foldl Z.add 0 (s1_subscriber_sustained start_seq <$> su_subs i) in
      (sustained_docs blob start_seq (su_answers i),
       drained ← drain expected (secs S1_SUSTAINED_DRAIN_SECS) (su_polls i);
       Some (sustained_verdict n_ok received expected drained))
  end.

(** The task results of a timed flood. *)
Definition flood_samples (start_seq : Z) (subs : list (Conn Recv)) : Stats := subs ≫= λ c, (s1_subscriber start_seq c).1.
Definition flood_counts (start_seq : Z) (subs : list (Conn Recv)) : list Z := (λ c, (s1_subscriber start_seq c).2) <$> subs.

Definition scenario_subscribe_flood (env : string → option string) (duration_secs : option Z)
    (si : SustainedIn) (i : FloodIn) : Outcome :=
  let s1_applies := env_u32 (env "S1_APPLIES") 200 in
  let limit := env_u128 (env "S1_P99_LIMIT_MS") S1_P99_LIMIT_MS in
  let blob := payload_blob (env_usize (env "S1_PAYLOAD_BYTES") 0) in
  match duration_secs with
  | Some _ => scenario_subscribe_flood_sustained env si
  | None =>
      match fl_seed i, fl_driver i with
      | Err e, _ => ends (connect_failed "subscribe_flood" e)
      | _, Err e => ends (connect_failed "subscribe_flood" e)
      | Ok _, Ok _ =>
          let start_seq := next_seq (fl_get i) in
          let '(_, n_ok) := timed_applies (fl_answers i) in
          let expected := total_expected (Z.of_nat (length (fl_subs i))) n_ok in
          (flood_yaml "subscribe_flood" blob <$> seqs start_seq (end_seq start_seq s1_applies),
           _ ← drain expected (secs S1_DRAIN_SECS) (fl_polls i);
           subscribe_flood_verdict limit (flood_samples start_seq (fl_subs i))
             (missed expected (u32_sum (flood_counts start_seq (fl_subs i)))))
      end
  end.

(** ** Scenario 2: get flood *)
Definition S2_TASKS : nat := 50.
Definition S2_GETS_PER_TASK : nat := 100.
Definition scenario_get_flood (tasks : list (option (list (option Z)))) : option ScenarioResult :=
  get_flood_verdict (tasks ≫= λ t, (s2_get_task t).1) (foldl Z.add 0 ((λ t, (s2_get_task t).2) <$> tasks)).

(** ** Scenario 3: reconnect storm *)
Definition S3_SUBSCRIBERS : nat := 50.
Definition S3_WARM_APPLIES : Z := 5.
Definition S3_POST_APPLIES : Z := 10.
Definition S3_DRAIN_SECS : Z := 15.
Definition S3_WARM_DRAIN_SECS : Z := 1.
Definition S3_WARM_RV_QUORUM : Z := Z.of_nat S3_SUBSCRIBERS.

Definition phase_yaml (phase : string) (seq : Z) : string :=
  "schema_version: " +:+ pretty seq +:+ nl +:+ "content:" +:+ nl +:+ "  phase: " +:+ phase +:+ nl +:+
  "  seq: " +:+ pretty seq +:+ nl.

(** [re_warm_polls]: subscribers with a version, and the time; [re_post]: the
    answers to the second round of applies, [None] when its own connection failed
    and the task panicked. *)
Record ReconnectIn : Type := mkReconnect {
  re_connect : result unit string;
  re_get : option Z;
  re_first : list (Conn (option (option string)));
  re_warm_polls : list (Z * Z);
  re_second : list (Conn (option Z));
  re_post : option (list (bool * Instant));
  re_polls : list (Z * Z)
}.

(** The loop that waits for the quorum. *)
Fixpoint warm_drain (polls : list (Z * Z)) : option (bool * Z) :=
  match polls with
  | [] => None
  | (populated, now) :: rest =>
      if S3_WARM_RV_QUORUM <=? populated then Some (true, populated)
      else if secs S3_WARM_DRAIN_SECS <=? now then Some (false, populated)
      else warm_drain rest
  end.

(** The version the subscribers resume from. *)
Definition resume_rv (i : ReconnectIn) : string := known_rv (s3_subscriber_phase1 <$> re_first i).

Definition scenario_reconnect_storm (i : ReconnectIn) : Outcome :=
  match re_connect i with
  | Err e => ends (connect_failed "reconnect_storm" e)
  | Ok _ =>
      let base_seq := next_seq (re_get i) in
      let warm_end := end_seq base_seq S3_WARM_APPLIES in
      let post_start := as_u32 (warm_end + 1) in
      let post_end := end_seq post_start S3_POST_APPLIES in
      let n_ok := match re_post i with Some answers => (timed_applies answers).2 | None => 0 end in
      let expected := total_expected (Z.of_nat S3_SUBSCRIBERS) n_ok in
      let received := u32_sum (s3_subscriber_phase2 post_start <$> re_second i) in
      let warm := phase_yaml "warmup" <$> seqs base_seq warm_end in
      match warm_drain (re_warm_polls i) with
      | None => (warm, None)
      | Some (quorum_met, populated) =>
          (warm ++ match re_post i with Some _ => phase_yaml "post_reconnect" <$> seqs post_start post_end | None => [] end,
           _ ← drain expected (secs S3_DRAIN_SECS) (re_polls i);
           Some (reconnect_verdict quorum_met populated (missed expected received)))
      end
  end%list.

(** ** Scenario 4: secrets flood *)
Definition S4_APPLIES : Z := 20.
Definition S4_SUBSCRIBERS : nat := 50.
Definition S4_DRAIN_SECS : Z := 15.
Definition secret_yaml (seq : Z) : string :=
  "schema_version: " +:+ pretty seq +:+ nl +:+ "token: loadtest-secret-" +:+ pretty seq +:+ nl.

(** One connection seeds and drives. *)
Definition scenario_secrets_flood (connect : result unit string) (get : option Z) (answers : list (bool * Instant))
    (subs : list (Conn Recv)) (polls : list (Z * Z)) : Outcome :=
  match connect with
  | Err e => ends (connect_failed "secrets_flood" e)
  | Ok _ =>
      let start_seq := next_seq get in
      let expected := total_expected (Z.of_nat S4_SUBSCRIBERS) (timed_applies answers).2 in
      (secret_yaml <$> seqs start_seq (end_seq start_seq S4_APPLIES),
       _ ← drain expected (secs S4_DRAIN_SECS) polls;
       secrets_flood_verdict (subs ≫= λ c, (s4_subscriber start_seq c).1)
         (missed expected (u32_sum ((λ c, (s4_subscriber start_seq c).2) <$> subs))))
  end.

(** ** Scenario 5: backpressure *)
Definition S5_NORMAL_SUBS : nat := 50.
Definition S5_SLOW_SUBS : nat := 5.
Definition S5_DRAIN_SECS : Z := 60.

Record PressureIn : Type := mkPressure {
  pi_seed : result unit string;
  pi_get : option Z;
  pi_driver : result unit string;
  pi_apply : string → bool;
  pi_normal : list (Conn (result Z Code));
  pi_slow : list (Conn (result Z Code));
  pi_fetches : list (option Z);                (* depth readings *)
  pi_polls : list (Z * Z)
}.

(** What is reported of the replay buffer's high-water mark. *)
Definition high_water_repr (addr : string) (fetches : list (option Z)) : string :=
  let '(high_water, hw_samples, hw_errors) := poller (derive_metrics_url addr) fetches in
  if bool_decide (derive_metrics_url addr = None) then "n/a (no metrics endpoint derived from addr)"
  else if hw_samples =? 0 then "n/a (" +:+ pretty hw_errors +:+ " fetch errors)"
  else pretty high_water +:+ " (samples=" +:+ pretty hw_samples +:+ ", errors=" +:+ pretty hw_errors +:+ ")".

Definition pressure_counts (start_seq : Z) (subs : list (Conn (result Z Code))) : list Z :=
  (λ c, (s5_subscriber start_seq c).1.1) <$> subs.

Definition scenario_backpressure (env : string → option string) (i : PressureIn) : option ScenarioResult :=
  match seed_start_seq (pi_seed i) (pi_get i) with
  | Err msg => Some (scenario_fail "backpressure" [msg])
  | Ok start_seq =>
      let last := end_seq start_seq (env_u32 (env "S1_APPLIES") 200) in
      match drive_applies (pi_driver i) (pi_apply i) "backpressure" start_seq last with
      | Err e => Some (scenario_fail "backpressure" [e])
      | Ok (n_applies_ok, _) =>
          let expected := total_expected (Z.of_nat S5_NORMAL_SUBS) n_applies_ok in
          _ ← drain expected (secs S5_DRAIN_SECS) (pi_polls i);
          Some (backpressure_verdict n_applies_ok (missed expected (u32_sum (pressure_counts start_seq (pi_normal i)))))
      end
  end.

(** ** Soak *)
Definition DEFAULT_DURATION_SECS : Z := 600.
Definition SOAK_DRAIN_SECS : Z := 10.

Record SoakIn : Type := mkSoak {
  so_seed_config : bool * option Z;            (* connection, answer to Get *)
  so_seed_secret : bool * option Z;
  so_config : bool * list bool;                (* connection, answers to Apply *)
  so_secret : bool * list bool;
  so_config_subs : list (Conn bool);
  so_secret_subs : list (Conn bool);
  so_churn : list (list (Conn unit))
}.

(** The documents of both loops, the reconnect cycles and the verdict. *)
Definition scenario_soak (i : SoakIn) : list string * list string * Z * ScenarioResult :=
  let '(docs, cfg_ap) := apply_config_loop (so_config i).1 (seed (so_seed_config i).1 (so_seed_config i).2) (so_config i).2 in
  let '(sdocs, sec_ap) := apply_secret_loop (so_secret i).1 (seed (so_seed_secret i).1 (so_seed_secret i).2) (so_secret i).2 in
  let total f (l : list (Conn bool)) := foldl Z.add 0 (f <$> l) in
  (docs, sdocs, foldl Z.add 0 (reconnect_churn <$> so_churn i),
   soak_verdict cfg_ap sec_ap (total sub_config (so_config_subs i)) (total sub_secret (so_secret_subs i))).

(** ** [main]: the selected scenarios in order, the summary, the exit code *)
Definition main_ (scenario : string) (run : Scenario → ScenarioResult) (flag env : option string) :
    option (string * string) * Z :=
  finish flag env (run <$> selected scenario).

(** ** Facts *)
Lemma s1_loop_nonneg start items : 0 ≤ (s1_loop start items).2.
Proof.
  induction items as [|r items IH]; simpl; [done|]. destruct (r_item r) as [v|]; [|done].
  destruct (s1_loop start items) as [lats n]. simpl in *. case_match; simpl; lia.
Qed.

Lemma flood_counts_nonneg start subs : Forall (λ c, 0 ≤ c) (flood_counts start subs).
Proof.
  unfold flood_counts. apply Forall_fmap, Forall_true. intros c. simpl. unfold s1_subscriber. destruct c; try done.
  apply s1_loop_nonneg.
Qed.

Definition total (l : list Z) : Z := foldr Z.add 0 l.

Lemma total_bounds l n : Forall (λ c, 0 ≤ c) l → Forall (λ c, c ≤ n) l → 0 ≤ total l ≤ Z.of_nat (length l) * n.
Proof. induction l as [|c l IH]; simpl; intros H0 Hn; [lia|]. apply Forall_cons in H0 as [? H0], Hn as [? Hn]. specialize (IH H0 Hn). lia. Qed.

Lemma total_max l n : Forall (λ c, c ≤ n) l → Z.of_nat (length l) * n ≤ total l ↔ Forall (λ c, c = n) l.
Proof.
  induction l as [|c l IH]; simpl; intros Hn; [split; [constructor|lia]|]. apply Forall_cons in Hn as [Hc Hn]. specialize (IH Hn).
  assert (Hle : total l ≤ Z.of_nat (length l) * n).
  { clear -Hn. induction l as [|x l IH]; simpl; [lia|]. apply Forall_cons in Hn as [? Hn]. specialize (IH Hn). lia. }
  rewrite Forall_cons, <- IH. lia.
Qed.

Lemma u32_sum_total l acc :
  0 ≤ acc → Forall (λ c, 0 ≤ c) l → acc + total l ≤ u32_max → foldl (λ a b, as_u32 (a + b)) acc l = acc + total l.
Proof.
  revert acc; induction l as [|c l IH]; intros acc Ha Hl Hb; simpl in *; [lia|]. apply Forall_cons in Hl as [Hc Hl].
  assert (0 ≤ total l) by (clear -Hl; induction Hl; simpl; lia).
  assert (as_u32 (acc + c) = acc + c) as -> by (unfold as_u32; apply Z.mod_small; unfold u32_max in *; lia).
  rewrite IH; [lia|lia|done|lia].
Qed.

Lemma timed_applies_count answers : 0 ≤ (timed_applies answers).2 ≤ Z.of_nat (length answers).
Proof. induction answers as [|[[] t] l IH]; simpl; [done|..]; destruct (timed_applies l); simpl in *; lia. Qed.

(** what a passing subscribe flood means.  When it could connect, the product of
    subscribers and successful applies fits a u32 and no subscriber counted more
    events than there were successful applies, the scenario (once its drain ends)
    passes exactly when there are samples, the p99 is below the gate and
    {e every} subscriber counted every successful apply. *)
Theorem flood_pass_exact env si i :
  let start := next_seq (fl_get i) in
  let n_ok := (timed_applies (fl_answers i)).2 in
  let limit := env_u128 (env "S1_P99_LIMIT_MS") S1_P99_LIMIT_MS in
  let expected := Z.of_nat (length (fl_subs i)) * n_ok in
  fl_seed i = Ok tt → fl_driver i = Ok tt → expected ≤ u32_max → Z.of_nat (length (fl_subs i)) ≤ u32_max →
  Forall (λ c, c ≤ n_ok) (flood_counts start (fl_subs i)) →
  Z.of_nat (length (flood_samples start (fl_subs i))) ≤ 2 ^ 40 →
  is_Some (drain expected (secs S1_DRAIN_SECS) (fl_polls i)) →
  ∃ r, (scenario_subscribe_flood env None si i).2 = Some r ∧
    (pass r = true ↔
       flood_samples start (fl_subs i) ≠ [] ∧ (∀ c, p99 (flood_samples start (fl_subs i)) = Some c → c < limit) ∧
       Forall (λ c, c = n_ok) (flood_counts start (fl_subs i))).
Proof.
  intros start n_ok limit expected Hs Hd He Hn Hc Hl [b Hdr].
  pose proof (timed_applies_count (fl_answers i)) as Hok. fold n_ok in Hok.
  unfold scenario_subscribe_flood. rewrite Hs, Hd. destruct (timed_applies (fl_answers i)) as [tb n] eqn:Ht.
  change n with (snd (tb, n)). simpl in n_ok. subst n_ok. fold start.
  assert (Hexp : total_expected (Z.of_nat (length (fl_subs i))) n = expected).
  { unfold total_expected, as_u32. rewrite (Z.mod_small (Z.of_nat _)) by (unfold u32_max in *; lia).
    apply Z.mod_small. unfold expected, u32_max in *. simpl in *. lia. }
  simpl. rewrite Hexp, Hdr. simpl.
  destruct (flood_pass_iff "subscribe_flood" limit " missed events" (flood_samples start (fl_subs i))
    (missed expected (u32_sum (flood_counts start (fl_subs i)))) Hl) as (r & Hr & Hiff).
  exists r. split; [exact Hr|]. rewrite Hiff.
  pose proof (flood_counts_nonneg start (fl_subs i)) as H0.
  assert (Hlen : length (flood_counts start (fl_subs i)) = length (fl_subs i)) by apply length_fmap.
  pose proof (total_bounds _ n H0 Hc) as Htot. rewrite Hlen in Htot. fold expected in Htot.
  unfold u32_sum. rewrite u32_sum_total by (done || lia). rewrite Z.add_0_l.
  rewrite <- (total_max _ n Hc), Hlen. fold expected. unfold missed. split; intros (? & ? & ?); split_and!; done || lia.
Qed.

Lemma flood_pass_exact_witness :
  let sub := Streaming [mkRecv 5000000 [Some 0] (Some 1)] in
  let i := mkFlood (Ok tt) None (Ok tt) [(true, 0)] [sub; sub] [(2, 0)] in
  let si := mkSustained (Ok tt) None (Ok tt) [] [] [] in
  ∃ r, (scenario_subscribe_flood (λ _, None) None si i).2 = Some r ∧ pass r = true.
Proof.
  intros sub i si.
  destruct (flood_pass_exact (λ _, None) si i eq_refl eq_refl) as (r & Hr & Hiff).
  - vm_compute. discriminate.
  - vm_compute. discriminate.
  - repeat constructor; vm_compute; discriminate.
  - vm_compute. discriminate.
  - vm_compute. eauto.
  - exists r. split; [exact Hr|]. apply Hiff. split; [vm_compute; discriminate|]. split.
    + intros c Hc. vm_compute in Hc. injection Hc as <-. reflexivity.
    + repeat constructor.
Defined.

(** A storm whose second round never ran passes: the connection of that round
    failed, its task panicked, nothing was expected. *)
Lemma reconnect_vacuous i populated polls :
  re_connect i = Ok tt → re_post i = None → S3_WARM_RV_QUORUM ≤ populated →
  re_warm_polls i = (populated, 0) :: polls → Forall (λ c, c = ConnectFailed) (re_second i) → re_polls i = [(0, 0)] →
  ∃ docs r, scenario_reconnect_storm i = (docs, Some r) ∧ pass r = true.
Proof.
  intros Hc Hp Hq Hw Hs Hpo. unfold scenario_reconnect_storm. rewrite Hc, Hp, Hw, Hpo. simpl.
  rewrite (proj2 (Z.leb_le _ _) Hq). simpl. eexists _, _. split; [done|].
  assert (Hm : ∀ x, u32_sum (s3_subscriber_phase2 x <$> re_second i) = 0).
  { intros x. unfold u32_sum. induction Hs as [|c l -> _ IH]; [done|]. exact IH. }
  rewrite Hm. done.
Qed.

(** A name that is none of the scenarios runs nothing and exits 0. *)
Lemma unknown_scenario_passes run flag env : (main_ "subscrib" run flag env).2 = 0.
Proof. reflexivity. Qed.
End Scenarios.
