(* ===== verification/Resources.v ===== *)
(** * The custom resources and the requests made of them

    The four [*_api_resource] of [watcher.rs], [acl.rs], [quota.rs] and [schema.rs],
    the watch each task opens, every other request of the server, and the
    definitions and roles under [infra/konfig] they have to agree with. *)
From S2P Require Export Server ConfigMap.

Module Resources.
Open Scope string_scope.

Record ApiResource : Set := mkResource {
  ar_group : string;
  ar_version : string;
  ar_api_version : string;
  ar_kind : string;
  ar_plural : string
}.

Definition resource (group version kind plural : string) : ApiResource :=
  mkResource group version (group +:+ "/" +:+ version) kind plural.

Definition config_api_resource : ApiResource := resource "konfig.io" "v1" "Config" "configs".
Definition acl_api_resource : ApiResource := resource "konfig.io" "v1" "ConfigACL" "configacls".
Definition quota_api_resource : ApiResource := resource "konfig.io" "v1" "TenantQuota" "tenantquotas".
Definition schema_api_resource : ApiResource := resource "konfig.io" "v1" "ConfigSchema" "configschemas".

(** ** What is installed in the cluster *)
Inductive Scope : Set := Namespaced | Cluster.
Record Crd : Set := mkCrd { crd_group : string; crd_version : string; crd_kind : string; crd_plural : string; crd_scope : Scope }.

Definition config_crd : Crd := mkCrd "konfig.io" "v1" "Config" "configs" Namespaced.
Definition configacl_crd : Crd := mkCrd "konfig.io" "v1" "ConfigACL" "configacls" Cluster.
Definition tenantquota_crd : Crd := mkCrd "konfig.io" "v1" "TenantQuota" "tenantquotas" Cluster.
Definition configschema_crd : Crd := mkCrd "konfig.io" "v1" "ConfigSchema" "configschemas" Namespaced.

(** The path of a list or watch: [Api::namespaced_with] names a namespace,
    [Api::all_with] does not. *)
Definition api_path (r : ApiResource) (ns : option string) : string :=
  "/apis/" +:+ ar_group r +:+ "/" +:+ ar_version r +:+
  match ns with Some ns => "/namespaces/" +:+ ns | None => "" end +:+ "/" +:+ ar_plural r.

(** The path the API server serves a definition at, in one namespace or in all. *)
Definition served_path (c : Crd) (ns : option string) : option string :=
  match crd_scope c, ns with
  | Cluster, Some _ => None
  | _, _ => Some ("/apis/" +:+ crd_group c +:+ "/" +:+ crd_version c +:+
                  match ns with Some ns => "/namespaces/" +:+ ns | None => "" end +:+ "/" +:+ crd_plural c)
  end.

(** Every watch and request goes to a path that is served, and the documents the
    handlers and the import apply say the version and kind of the resource they
    are sent to. *)
Lemma requests_served ns tp n spec :
  served_path config_crd (Some ns) = Some (api_path config_api_resource (Some ns)) ∧
  served_path configacl_crd None = Some (api_path acl_api_resource None) ∧
  served_path tenantquota_crd None = Some (api_path quota_api_resource None) ∧
  served_path configschema_crd None = Some (api_path schema_api_resource None) ∧
  json_get "apiVersion" (patch_body tp ns n spec) = Some (JStr (ar_api_version config_api_resource)) ∧
  json_get "kind" (patch_body tp ns n spec) = Some (JStr (ar_kind config_api_resource)) ∧
  ar_kind config_api_resource = crd_kind config_crd.
Proof. by split_and!. Qed.

(** ** Requests

    A watch lists first and then watches; [fields] and [labels] are its selectors. *)
Record WatchRequest : Set := mkWatch {
  w_group : string;
  w_plural : string;
  w_ns : option string;
  w_fields : option string;
  w_labels : option string
}.
Definition watch_of (r : ApiResource) (ns fields : option string) : WatchRequest :=
  mkWatch (ar_group r) (ar_plural r) ns fields None.

Definition managed_selector : string := MANAGED_LABEL +:+ "=true".

Definition config_watch (ns name : string) : WatchRequest :=
  watch_of config_api_resource (Some ns) (Some ("metadata.name=" +:+ name)).
Definition namespace_watch (ns : string) : WatchRequest := watch_of config_api_resource (Some ns) None.
Definition acl_watch : WatchRequest := watch_of acl_api_resource None None.
Definition quota_watch : WatchRequest := watch_of quota_api_resource None None.
Definition schema_watch : WatchRequest := watch_of schema_api_resource None None.
Definition secret_watch (ns : string) : WatchRequest := mkWatch "" "secrets" (Some ns) None (Some managed_selector).
Definition configmap_watch (ns : string) : WatchRequest := mkWatch "" "configmaps" (Some ns) None (Some managed_selector).

(** [ConfigMapWatcher::run]: one connection, pumped until it ends. *)
Definition ConfigMapWatcher_run (yaml_value : string → result json string)
    (kube_watch : WatchRequest → stream ConfigMap) (cache : ConfigCache) (namespace : string) : ConfigCache * result unit string :=
  pump_configmap_events yaml_value namespace (kube_watch (configmap_watch namespace)) cache.

(** Any request: the verbs it needs on a resource.  A server-side apply creates
    the object when there is none. *)
Record KubeRequest : Set := mkRequest { q_verbs : list string; q_group : string; q_plural : string; q_ns : option string }.
Definition watch_request (w : WatchRequest) : KubeRequest := mkRequest ["list"; "watch"] (w_group w) (w_plural w) (w_ns w).
(** The request behind an entry of the trace, if it is one. *)
Definition io_request (io : Io) : option KubeRequest :=
  let on verbs ns := Some (mkRequest verbs (ar_group config_api_resource) (ar_plural config_api_resource) (Some ns)) in
  match io with
  | IoGet ns _ => on ["get"] ns
  | IoPatch ns _ _ => on ["patch"; "create"] ns
  | IoList ns _ _ => on ["list"] ns
  | IoSleep _ => None
  end.
Definition secret_get_request (ns : string) : KubeRequest := mkRequest ["get"] "" "secrets" (Some ns).
Definition secret_patch_request (ns : string) : KubeRequest := mkRequest ["patch"; "create"] "" "secrets" (Some ns).
Definition raw_watch_request (ns : string) : KubeRequest := mkRequest ["watch"] "" "secrets" (Some ns).
Definition event_request (e : K8sEvent) : KubeRequest := mkRequest ["create"] "" "events" (Some (kev_namespace e)).

(** ** The roles of the service account *)
Record PolicyRule : Set := mkPolicy { pr_group : string; pr_plural : string; pr_verbs : list string }.
Definition readers : list string := ["get"; "list"; "watch"].
Definition writers : list string := ["get"; "list"; "watch"; "patch"; "create"].
Definition config_access : list PolicyRule :=
  [mkPolicy "konfig.io" "configs" writers; mkPolicy "konfig.io" "configacls" readers;
   mkPolicy "konfig.io" "configschemas" readers; mkPolicy "konfig.io" "tenantquotas" readers;
   mkPolicy "" "configmaps" readers; mkPolicy "" "secrets" readers].
Definition configmap_access : list PolicyRule := [mkPolicy "" "configmaps" readers].
Definition secret_access : list PolicyRule := [mkPolicy "" "secrets" writers].
(** A cluster role binding holds everywhere, a role binding in its namespace. *)
Definition bindings : list (option string * list PolicyRule) :=
  [(None, config_access); (None, configmap_access); (Some "konfig-system", secret_access)].

Definition rule_allows (group plural verb : string) (p : PolicyRule) : bool :=
  String.eqb (pr_group p) group && String.eqb (pr_plural p) plural && existsb (String.eqb verb) (pr_verbs p).
Definition granted (group plural : string) (ns : option string) (verb : string) : bool :=
  existsb (λ b, match b.1 with None => true | Some n => bool_decide (ns = Some n) end &&
                existsb (rule_allows group plural verb) b.2) bindings.
Definition authorized (q : KubeRequest) : bool := forallb (granted (q_group q) (q_plural q) (q_ns q)) (q_verbs q).

(** The roles suffice for every Config request and every watch, wherever they go;
    a Secret can be written only in [konfig-system]; and no Event can be created,
    so the mirror of the audit trail has nowhere to go. *)
Lemma roles_cover_requests ns name :
  (∀ io q, io_request io = Some q → authorized q = true) ∧
  Forall (λ w, authorized (watch_request w) = true)
    [config_watch ns name; namespace_watch ns; acl_watch; quota_watch; schema_watch; secret_watch ns; configmap_watch ns] ∧
  authorized (secret_get_request ns) = true ∧ authorized (raw_watch_request ns) = true ∧
  authorized (secret_patch_request ns) = bool_decide (ns = "konfig-system") ∧
  ∀ r, authorized (event_request (k8s_event r)) = false.
Proof.
  split_and!; [by intros [] q [= <-]| |done|done| |].
  - repeat constructor.
  - unfold authorized, granted. simpl. by destruct (decide (ns = "konfig-system")) as [->|Hne];
      [|rewrite !bool_decide_false by (by intros [=])].
  - intros r. unfold authorized, granted. simpl. by rewrite andb_false_r.
Qed.
End Resources.
