(* ===== verification/Reports.v ===== *)
(** * The reports of the two gates

    What [konfig-loadtest-gate] and [konfig-flamediff gate] print and write: the
    markdown of [bin/gate.rs] and of [gate.rs], with Rust's fixed-point formatting
    of a float ([{:.k}], [{:+.k}]). *)
From Stdlib Require Import SpecFloat.
From S2P Require Import Secrets LoadTest LoadTestFacts.

Module Reports.
Open Scope string_scope.
Open Scope Z_scope.

(** ** Formatting a float

    The exact value in units of [10^-k], as a fraction; then to the nearest unit,
    halves to even. *)
Definition units (k : nat) (m : positive) (e : Z) : Z * Z :=
  if 0 <=? e then (Zpos m * 2 ^ e * 10 ^ Z.of_nat k, 1) else (Zpos m * 10 ^ Z.of_nat k, 2 ^ (- e)).
Definition round_even (num den : Z) : Z :=
  let q := num / den in
  match 2 * (num mod den) ?= den with
  | Lt => q
  | Gt => q + 1
  | Eq => if Z.even q then q else q + 1
  end.

(** The last [k] decimal digits of [n]. *)
Fixpoint low_digits (k : nat) (n : Z) : string :=
  match k with
  | O => ""
  | S k' => low_digits k' (n / 10) +:+ String (byte (48 + Z.to_nat (n mod 10))) ""
  end.
Definition fixed_digits (k : nat) (n : Z) : string :=
  pretty (n / 10 ^ Z.of_nat k) +:+ match k with O => "" | _ => "." +:+ low_digits k n end.

Definition sign_text (plus neg : bool) : string := if neg then "-" else if plus then "+" else "".

(** [{:.k}], and [{:+.k}] when [plus]; NaN has no sign. *)
Definition fmt_f64 (plus : bool) (k : nat) (x : spec_float) : string :=
  match x with
  | S754_nan => "NaN"
  | S754_infinity s => sign_text plus s +:+ "inf"
  | S754_zero s => sign_text plus s +:+ fixed_digits k 0
  | S754_finite s m e => let '(num, den) := units k m e in sign_text plus s +:+ fixed_digits k (round_even num den)
  end.

(** [x as u128] *)
Definition f64_as_u128 (x : spec_float) : Z :=
  match x with
  | S754_finite false m e => Z.min (2 ^ 128 - 1) (if 0 <=? e then Zpos m * 2 ^ e else Zpos m / 2 ^ (- e))
  | S754_infinity false => 2 ^ 128 - 1
  | _ => 0
  end.

Definition hundred : spec_float := f64_of_Z 100.
Definition one : spec_float := f64_of_Z 1.
Definition tick (s : string) : string := "`" +:+ s +:+ "`".
Definition count {A} (p : A → bool) (l : list A) : string := pretty (Z.of_nat (length (List.filter p l))).
Definition flag_text (b : bool) : string := if b then "❌" else "".

Definition nl : string := LoadTest.nl.
Definition rule : string := "|---|---|---|---|---|" +:+ nl.

(** ** [bin/gate.rs] *)
Definition perf_title (path : string) : string :=
  "## Perf gate — p99 latency regression" +:+ nl +:+ nl +:+ "Baseline: " +:+ tick path +:+ nl +:+ nl.
Definition perf_delta (r : PerfGate.Row) : string :=
  if f64_lt (S754_zero false) (PerfGate.base_p99 r)
  then fmt_f64 true 0 (f64_mul (f64_sub (f64_div (PerfGate.cur_p99 r) (PerfGate.base_p99 r)) one) hundred) +:+ "%"
  else "—".
Definition perf_line (r : PerfGate.Row) : string :=
  "| " +:+ tick (PerfGate.row_name r) +:+ " | " +:+ pretty (f64_as_u128 (PerfGate.base_p99 r)) +:+ " | " +:+
  pretty (f64_as_u128 (PerfGate.cur_p99 r)) +:+ " | " +:+ perf_delta r +:+ " |" +:+ flag_text (PerfGate.regressed r) +:+ " |" +:+ nl.

Definition perf_markdown (rows : list PerfGate.Row) (threshold : spec_float) (path : string) : string :=
  let pct := Flame.f64_round (f64_mul (f64_sub threshold one) hundred) in
  perf_title path +:+
  (if existsb PerfGate.regressed rows
   then "❌ **" +:+ count PerfGate.regressed rows +:+ " scenario(s) regressed** (p99 > baseline +" +:+ fmt_f64 false 0 pct +:+ "%)." +:+ nl
   else "✅ No scenario p99 exceeded baseline +" +:+ fmt_f64 false 0 pct +:+ "%." +:+ nl) +:+
  nl +:+ "| scenario | baseline p99 (ms) | current p99 (ms) | Δ | |" +:+ nl +:+ rule +:+
  foldr String.append "" (perf_line <$> rows).

(** The text of a report, whichever it is. *)
Definition report_text (r : PerfGate.Report) : string :=
  match r with
  | PerfGate.NoBaseline dir =>
      "## Perf gate — no baseline" +:+ nl +:+ nl +:+ "No baseline in " +:+ tick dir +:+
      ". Seed one with `--update <tag>`; nothing to gate." +:+ nl
  | PerfGate.Table path threshold rows => perf_markdown rows threshold path
  end.

(** ** [gate.rs] *)
Definition reason_text (r : option Flame.Reason) : string :=
  match r with
  | None => ""
  | Some (Flame.RelOver rel threshold) =>
      "self% +" +:+ fmt_f64 false 0 (f64_mul rel hundred) +:+ "% (> " +:+ fmt_f64 false 0 (f64_mul threshold hundred) +:+ "% gate)"
  | Some (Flame.NewHot cur floor) =>
      "new hot frame " +:+ fmt_f64 false 1 cur +:+ "% (>= " +:+ fmt_f64 false 0 floor +:+ "% floor)"
  end.
Definition flame_title : string := "## Flamediff — top-frame CPU regression gate" +:+ nl +:+ nl.
Definition flame_delta (r : Flame.Row) : string :=
  match Flame.rel_delta r with
  | None => if f64_lt (S754_zero false) (Flame.cur_pct r) then "new" else "—"
  | Some d => fmt_f64 true 0 (f64_mul d hundred) +:+ "%"
  end.
Definition flame_line (r : Flame.Row) : string :=
  let note := if is_empty (reason_text (Flame.reason r)) then "" else " " +:+ reason_text (Flame.reason r) in
  "| " +:+ tick (Flame.row_name r) +:+ " | " +:+ fmt_f64 false 1 (Flame.base_pct r) +:+ "% | " +:+
  fmt_f64 false 1 (Flame.cur_pct r) +:+ "% | " +:+ flame_delta r +:+ " |" +:+ flag_text (Flame.regressed r) +:+ note +:+ " |" +:+ nl.

Definition flame_markdown (rows : list Flame.Row) (threshold : spec_float) (top : nat) : string :=
  let gate := fmt_f64 false 0 (f64_mul threshold hundred) in
  flame_title +:+
  (if existsb Flame.regressed rows
   then "❌ **" +:+ count Flame.regressed rows +:+ " frame(s) regressed** (relative self-% gate: " +:+ gate +:+ "%, top-" +:+
        pretty (Z.of_nat top) +:+ ")." +:+ nl
   else "✅ No top-" +:+ pretty (Z.of_nat top) +:+ " frame regressed beyond the " +:+ gate +:+ "% relative self-% gate." +:+ nl) +:+
  nl +:+ "| frame | baseline self% | current self% | Δ | |" +:+ nl +:+ rule +:+
  foldr String.append "" (flame_line <$> rows).

Lemma fmt_examples :
  fmt_f64 false 1 (f64_of_decimal false 125 (-2)) = "1.2" ∧ fmt_f64 false 1 (f64_of_decimal false 375 (-2)) = "3.8" ∧
  fmt_f64 true 0 (f64_of_decimal true 25 (-1)) = "-2" ∧ fmt_f64 true 0 (f64_of_decimal false 199 (-1)) = "+20" ∧
  fmt_f64 false 2 (f64_of_decimal false 5 (-2)) = "0.05" ∧ fmt_f64 false 0 (f64_of_decimal true 1 (-1)) = "-0".
Proof. by vm_compute. Qed.

(** ** Facts *)

(** The printed number is the nearest one, and the even one of two. *)
Lemma round_even_nearest num den :
  0 < den → 0 ≤ num →
  0 ≤ round_even num den ∧ 2 * Z.abs (round_even num den * den - num) ≤ den ∧
  (2 * Z.abs (round_even num den * den - num) = den → Z.even (round_even num den) = true).
Proof.
  intros Hd Hn. unfold round_even. pose proof (Z.div_mod num den ltac:(lia)) as Hdm.
  pose proof (Z.mod_pos_bound num den Hd) as Hm. pose proof (Z.div_pos num den Hn Hd) as Hq.
  generalize dependent (num / den). generalize dependent (num mod den). intros r Hr q Hdm Hq.
  destruct (Z.compare_spec (2 * r) den) as [He|Hl|Hg].
  - destruct (Z.even q) eqn:Hev.
    + split_and!; [lia|lia|done].
    + split_and!; [lia|lia|]. rewrite Z.even_add, Hev. done.
  - split_and!; [lia|lia|lia].
  - split_and!; [lia|lia|lia].
Qed.

Lemma parse_digits_app s t acc : parse_digits acc (s +:+ t) = parse_digits acc s ≫= λ z, parse_digits z t.
Proof. revert acc; induction s as [|c s IH]; intros acc; [done|]. simpl. destruct (digit_val c); [apply IH|done]. Qed.

Lemma digit_char d : 0 ≤ d < 10 → digit_val (byte (48 + Z.to_nat d)) = Some d.
Proof.
  intros Hd. assert (d = 0 ∨ d = 1 ∨ d = 2 ∨ d = 3 ∨ d = 4 ∨ d = 5 ∨ d = 6 ∨ d = 7 ∨ d = 8 ∨ d = 9) as Hc by lia.
  by repeat destruct Hc as [->|Hc]; subst.
Qed.

Lemma parse_low_digits k n acc :
  0 ≤ n → parse_digits acc (low_digits k n) = Some (acc * 10 ^ Z.of_nat k + n mod 10 ^ Z.of_nat k).
Proof.
  revert n; induction k as [|k IH]; intros n Hn; cbn [low_digits].
  { simpl. rewrite Z.mod_1_r. f_equal. lia. }
  rewrite parse_digits_app, IH by (apply Z.div_pos; lia). cbn [mbind option_bind parse_digits].
  rewrite digit_char by (apply Z.mod_pos_bound; lia). f_equal.
  rewrite Nat2Z.inj_succ, Z.pow_succ_r by lia. assert (0 < 10 ^ Z.of_nat k) by (apply Z.pow_pos_nonneg; lia).
  rewrite Z.rem_mul_r by lia. lia.
Qed.

Lemma length_low_digits k n : String.length (low_digits k n) = k.
Proof.
  assert (Happ : ∀ s t, String.length (s +:+ t) = (String.length s + String.length t)%nat)
    by (intros s t; induction s as [|c s IHs]; simpl; [done|by rewrite IHs]).
  revert n; induction k as [|k IH]; intros n; [done|]. cbn [low_digits]. rewrite Happ, IH. cbn [String.length]. lia.
Qed.

Lemma parse_pretty z : 0 ≤ z → parse_digits 0 (pretty z) = Some z.
Proof.
  destruct z as [|p|p]; [done| |lia]. intros _. change (pretty (Z.pos p)) with (pretty_N_go (N.pos p) "").
  rewrite parse_digits_pretty_go. done.
Qed.
Lemma pretty_head z : 0 ≤ z → ∃ c r d, pretty z = String c r ∧ digit_val c = Some d.
Proof.
  intros Hz. destruct (pretty z) as [|c r] eqn:Hp.
  - exfalso. destruct z as [|p|p]; [done| |lia]. pose proof (parse_pretty (Z.pos p) Hz) as Hd. by rewrite Hp in Hd.
  - pose proof (parse_pretty z Hz) as Hd. rewrite Hp in Hd. simpl in Hd. destruct (digit_val c) as [d|] eqn:Hc; [|done]. eauto.
Qed.

Lemma take_digits_app s r acc n z :
  parse_digits acc s = Some z → take_digits z (n + Z.of_nat (String.length s)) r = (z, n + Z.of_nat (String.length s), r) →
  take_digits acc n (s +:+ r) = (z, n + Z.of_nat (String.length s), r).
Proof.
  revert acc n; induction s as [|c s IH]; intros acc n Hp Hr; simpl in *.
  { injection Hp as ->. by rewrite Z.add_0_r in *. }
  destruct (digit_val c); [|done]. replace (n + Z.of_nat (S (String.length s))) with (n + 1 + Z.of_nat (String.length s)) in * by lia.
  by apply IH.
Qed.
Lemma lower_digit c d : digit_val c = Some d → lower_char c = c.
Proof.
  unfold digit_val, lower_char. destruct ((48 <=? _) && _) eqn:Hr; [|done]. intros _. bools.
  assert ((65 <=? nat_of_ascii c)%nat = false) as ->; [|done]. apply Nat.leb_gt. lia.
Qed.

(** A number starts with a digit, so it is no name of a special value. *)
Lemma parse_digit_first neg c r d :
  digit_val c = Some d →
  eq_ignore_ascii_case (String c r) "inf" = false ∧ eq_ignore_ascii_case (String c r) "infinity" = false ∧
  eq_ignore_ascii_case (String c r) "nan" = false ∧
  parse_f64 ((if neg : bool then "-" else "") +:+ String c r) = parse_f64_unsigned neg (String c r).
Proof.
  intros Hc. pose proof (lower_digit c d Hc) as Hl. unfold eq_ignore_ascii_case, to_ascii_lowercase.
  simpl list_ascii_of_string. simpl map. rewrite Hl. simpl string_of_list_ascii.
  destruct c as [[] [] [] [] [] [] [] []]; try done; by destruct neg.
Qed.

(** The text of [n] units reads back as [n] units. *)
Lemma parse_fixed neg k n :
  0 ≤ n → parse_f64_unsigned neg (fixed_digits k n) = Some (f64_of_decimal neg n (- Z.of_nat k)).
Proof.
  intros Hn. assert (0 < 10 ^ Z.of_nat k) by (apply Z.pow_pos_nonneg; lia).
  assert (Hq : 0 ≤ n / 10 ^ Z.of_nat k) by (by apply Z.div_pos).
  destruct (pretty_head _ Hq) as (c & r & d & Hp & Hc). unfold fixed_digits.
  set (t := match k with O => "" | _ => "." +:+ low_digits k n end).
  destruct (parse_digit_first neg c (r +:+ t) d Hc) as (Hi & Hy & Hna & _).
  change (String c (r +:+ t)) with (String c r +:+ t) in *. rewrite <- Hp in *.
  unfold parse_f64_unsigned. rewrite Hi, Hy, Hna. cbn [orb].
  pose proof (parse_pretty _ Hq) as Hd.
  assert (Hlen : 0 < Z.of_nat (String.length (pretty (n / 10 ^ Z.of_nat k)))) by (rewrite Hp; simpl; lia).
  rewrite (take_digits_app _ t 0 0 _ Hd) by (unfold t; by destruct k). unfold t; clear t Hi Hy Hna. destruct k as [|k].
  - rewrite Z.pow_0_r, Z.div_1_r in *. assert ((0 <? 0 + Z.of_nat (String.length (pretty n)) + 0) = true) as -> by (apply Z.ltb_lt; lia). done.
  - pose proof (parse_low_digits (S k) n (n / 10 ^ Z.of_nat (S k)) Hn) as Hlow. rewrite Z.mul_comm, <- Z.div_mod in Hlow by lia.
    pose proof (take_digits_app _ "" _ 0 _ Hlow eq_refl) as Ht. rewrite string_app_nil_r in Ht.
    cbn [String.append]. rewrite Ht, length_low_digits.
    assert ((0 <? 0 + Z.of_nat (String.length (pretty (n / 10 ^ Z.of_nat (S k)))) + (0 + Z.of_nat (S k))) = true) as -> by (apply Z.ltb_lt; lia).
    done.
Qed.
Lemma units_range k m e : 0 ≤ (units k m e).1 ∧ 0 < (units k m e).2.
Proof.
  unfold units. assert (0 < 10 ^ Z.of_nat k) by (apply Z.pow_pos_nonneg; lia). destruct (Z.leb_spec 0 e); simpl.
  - assert (0 < 2 ^ e) by (apply Z.pow_pos_nonneg; lia). lia.
  - assert (0 < 2 ^ (- e)) by (apply Z.pow_pos_nonneg; lia). lia.
Qed.

(** A printed float reads back as the decimal printed, which is within half a
    unit of the last digit of the float. *)
Lemma fmt_reads_back plus k s m e :
  let '(num, den) := units k m e in let n := round_even num den in
  parse_f64 (fmt_f64 plus k (S754_finite s m e)) = Some (f64_of_decimal s n (- Z.of_nat k)) ∧ 2 * Z.abs (n * den - num) ≤ den.
Proof.
  unfold fmt_f64. pose proof (units_range k m e) as [Hnum Hden]. destruct (units k m e) as [num den]. simpl in Hnum, Hden.
  destruct (round_even_nearest num den Hden Hnum) as (Hn & Hnear & _). split; [|done].
  generalize dependent (round_even num den). intros n Hn _. rewrite <- (parse_fixed s k n Hn).
  assert (0 < 10 ^ Z.of_nat k) by (apply Z.pow_pos_nonneg; lia).
  destruct (pretty_head (n / 10 ^ Z.of_nat k)) as (c & r & d & Hp & Hc); [by apply Z.div_pos|].
  unfold fixed_digits. rewrite Hp. set (t := match k with O => _ | _ => _ end).
  change (String c r +:+ t) with (String c (r +:+ t)).
  destruct (parse_digit_first s c (r +:+ t) d Hc) as (_ & _ & _ & Hs).
  destruct s; [by rewrite <- Hs|]. destruct plus; [done|]. by rewrite <- Hs.
Qed.

Lemma starts_with_app p s t : starts_with (p +:+ s) (p +:+ t) = starts_with s t.
Proof.
  unfold starts_with. induction p as [|c p IH]; [done|]. simpl. destruct (ascii_dec c c); [apply IH|done].
Qed.

Lemma perf_headline rows threshold path :
  starts_with (perf_title path +:+ "❌") (perf_markdown rows threshold path) = existsb PerfGate.regressed rows.
Proof. unfold perf_markdown. rewrite starts_with_app. by destruct (existsb _ _). Qed.
Lemma flame_headline rows threshold top :
  starts_with (flame_title +:+ "❌") (flame_markdown rows threshold top) = existsb Flame.regressed rows.
Proof. unfold flame_markdown. rewrite starts_with_app. by destruct (existsb _ _). Qed.

(** The report that is written and the exit code agree: the headline is the
    failing one exactly with exit code 1. *)
Lemma perf_report_verdict from_str fs cli w code out r :
  PerfGate.run_compare from_str fs cli = (w, Ok code) → PerfGate.Reported out r ∈ w →
  code = match r with
         | PerfGate.Table path _ _ => if starts_with (perf_title path +:+ "❌") (report_text r) then 1 else 0
         | PerfGate.NoBaseline _ => 0
         end.
Proof.
  intros Hrun Hin.
  assert (code = match r with PerfGate.Table _ _ rows => if existsb PerfGate.regressed rows then 1 else 0 | _ => 0 end) as ->.
  { unfold PerfGate.run_compare, PerfGate.emit in Hrun. case_all; try (by apply not_elem_of_nil in Hin);
      apply list_elem_of_singleton in Hin; simplify_eq; done || congruence. }
  destruct r; [done|]. cbn [report_text]. by rewrite perf_headline.
Qed.

(** What [cmd_gate] prints, and writes to its output file, when it succeeds. *)
Definition gate_report (read_to_string : string → result string string) (from_str : string → result json string)
    (current baseline : string) (threshold : spec_float) (top : nat) (min_base_pct new_frame_floor_pct : spec_float) :
    result string Flame.LoadError :=
  let? cur := Flame.load_frames read_to_string from_str current in
  let? base := Flame.load_frames read_to_string from_str baseline in
  Ok (flame_markdown (Flame.diff cur base threshold top min_base_pct new_frame_floor_pct) threshold top).

Lemma flame_report_verdict read parse write cur base th top mb fl output code :
  Flame.cmd_gate read parse write cur base th top mb fl output = Ok code →
  ∃ md, gate_report read parse cur base th top mb fl = Ok md ∧
    code = if starts_with (flame_title +:+ "❌") md then 1 else 0.
Proof.
  unfold Flame.cmd_gate, gate_report. intros Hrun.
  destruct (Flame.load_frames read parse cur) as [c|]; [|done]. destruct (Flame.load_frames read parse base) as [b|]; [|done].
  simpl in *. destruct (Flame.write_opt write output); [|done]. injection Hrun as <-.
  eexists. split; [done|]. by rewrite flame_headline.
Qed.
End Reports.
