(* ===== verification/Concurrent.v ===== *)
(** * Overlapping Applies

    [apply_spec] cut at its requests: a task reads the stored version and decides,
    then patches, once per attempt of the ladder; between two of its steps any other
    task may run.  Each request is atomic at the API server, which nobody else
    writes to.  Items of a batch and reverts write through the same function. *)
From S2P Require Export ApplyFacts.

Module Concurrent.

Record Task : Type := mkTask {
  ta_ns : string;
  ta_name : string;
  ta_spec : ConfigSpec;
  ta_traceparent : option string;
  ta_nanos : nat → Z
}.
Definition key (t : Task) : string * string := (ta_ns t, ta_name t).
Definition version (t : Task) : Z := cs_schema_version (ta_spec t).
Definition body (t : Task) : json := patch_body (ta_traceparent t) (ta_ns t) (ta_name t) (ta_spec t).

(** [seen]: the version the task decided on. *)
Inductive Pc : Type :=
  | Reading
  | Patching (seen : Z) (attempt : nat)
  | Finished (r : rpc string).

Section Concurrent.
Context {W : Type} `{KubeLaws W}.
#[local] Notation wstore e := (store (e_kube e)).

Definition conclude (t : Task) (label : string) (r : rpc string) (e : Env W) : Pc * Env W :=
  (Finished r, (count_apply (ta_ns t) label e).2).

Definition task_step (t : Task) (pc : Pc) (e : Env W) : Pc * Env W :=
  match pc with
  | Reading =>
      match fetch_current_schema_version (ta_ns t) (ta_name t) e with
      | (Err st, e1) => (Finished (Err st), e1)
      | (Ok current, e1) =>
          match schema_version_decision (version t) current with
          | Err st => conclude t "rejected" (Err st) e1
          | Ok _ => (Patching current 0, e1)
          end
      end
  | Patching seen attempt =>
      match patch_once (ta_ns t) (ta_name t) (body t) e with
      | (Ok rv, e1) => conclude t "ok" (Ok rv) e1
      | (Err err, e1) =>
          match classify_patch_error err attempt with
          | RetryAfter delay_ms =>
              (Patching seen (S attempt), emit (IoSleep (jittered_retry_ms (ta_nanos t attempt) delay_ms)) e1)
          | AbortRetriesExhausted =>
              conclude t "error" (Err (status Aborted "409 Conflict — exceeded max retries")) e1
          | PatchUnavailable =>
              conclude t "error" (Err (status Unavailable ("kube patch error: " +:+ kube_display err))) e1
          end
      end
  | Finished _ => (pc, e)
  end.

(** The tasks of a server, and a schedule of their steps. *)
Definition Pool : Type := list (Task * Pc) * Env W.
Definition pool_step (s : Pool) (i : nat) : Pool :=
  match s.1 !! i with
  | Some (t, pc) => let '(pc', e') := task_step t pc s.2 in (<[i := (t, pc')]> s.1, e')
  | None => s
  end.
Definition run (sched : list nat) (s : Pool) : Pool := foldl pool_step s sched.
Definition submitted (ts : list Task) (e : Env W) : Pool := ((λ t, (t, Reading)) <$> ts, e).

(** ** The steps of one task are [apply_spec] *)
Fixpoint alone (n : nat) (t : Task) (pc : Pc) (e : Env W) : Pc * Env W :=
  match n with O => (pc, e) | S n' => let '(pc', e') := task_step t pc e in alone n' t pc' e' end.

Lemma classify_last err d : classify_patch_error err 2 ≠ RetryAfter d.
Proof. unfold classify_patch_error. destruct err as [c m|m]; simpl; [|done]. by case_match. Qed.

Lemma task_alone t e :
  alone 4 t Reading e =
  let '(r, e') := apply_spec (ta_traceparent t) (ta_nanos t) (ta_ns t) (ta_name t) (ta_spec t) e in (Finished r, e').
Proof.
  unfold apply_spec, bind at 1, patch_with_retry, run_patch_retry_loop. fold (body t) (version t).
  cbn [alone]. unfold task_step at 1.
  destruct (fetch_current_schema_version _ _ e) as [[cur|st] e1]; [|done].
  destruct (schema_version_decision _ _); [|done].
  cbn [patch_loop length RETRY_DELAYS_MS].
  unfold task_step at 1. destruct (patch_once _ _ _ e1) as [[rv|err] e2]; [done|].
  destruct (classify_patch_error err 0); [|done..].
  unfold task_step at 1. destruct (patch_once _ _ _ _) as [[rv|err2] e3]; [done|].
  destruct (classify_patch_error err2 1); [|done..].
  unfold task_step at 1. destruct (patch_once _ _ _ _) as [[rv|err3] e4]; [done|].
  destruct (classify_patch_error err3 2) eqn:Hc; [by apply classify_last in Hc|done..].
Qed.

(** ** What a step does *)

(** The version a task is about to write is above the one it saw. *)
Definition pc_ok (t : Task) (pc : Pc) : Prop :=
  match pc with Patching seen _ => seen < version t | _ => True end.

(** A refused patch stores nothing. *)
Lemma patch_refused ns n b e err e1 :
  quiet (e_kube e) → patch_once ns n b e = (Err err, e1) → refuses err = true → wstore e1 = wstore e.
Proof.
  intros Hq. unfold patch_once, api_patch. destruct (kube_patch ns n b (e_kube e)) as [g w] eqn:Hg.
  destruct (patch_law _ _ _ _ _ _ Hq Hg) as (_ & Hr). destruct g as [o|err']; intros [= <- <-].
  intros Hre. destruct Hr as [?|[? _]]; [done|congruence].
Qed.

(** Whether the step wrote, and what it learned. *)
Lemma task_step_cases t pc e pc' e' :
  quiet (e_kube e) → in_u32 (version t) → task_step t pc e = (pc', e') →
  quiet (e_kube e') ∧
  match pc with
  | Reading =>
      wstore e' = wstore e ∧
      match pc' with
      | Patching seen a => a = 0%nat ∧ seen = stored_version e (key t) ∧ seen < version t
      | Finished (Err st) => st_code st = Unavailable ∨ version t ≤ stored_version e (key t)
      | _ => False
      end
  | Patching seen a =>
      only_wrote (key t) (body t) e e' ∧
      match pc' with
      | Patching seen' a' => seen' = seen ∧ a' = S a ∧ (a' ≤ 2)%nat ∧ wstore e' = wstore e
      | Finished (Ok _) => stored_version e' (key t) = version t
      | Finished (Err st) => st_code st = Aborted ∨ st_code st = Unavailable
      | Reading => False
      end
  | Finished _ => pc' = pc ∧ e' = e
  end.
Proof.
  intros Hq Hr. destruct pc as [|seen a|r]; unfold task_step; [| |by intros [= <- <-]].
  - destruct (fetch_current_schema_version _ _ e) as [[cur|st] e1] eqn:Hf;
      destruct (fetch_current_spec _ _ _ _ _ Hq Hf) as (Hq1 & Hs & _ & Hv).
    + subst cur. unfold schema_version_decision. fold (key t) in *.
      destruct (Z.leb_spec (version t) (stored_version e (key t))); intros [= <- <-]; split_and!; try done. by right.
    + intros [= <- <-]. split_and!; try done. by left.
  - destruct (patch_once _ _ _ e) as [[rv|err] e1] eqn:Hp;
      destruct (patch_once_spec _ _ _ _ _ _ Hq Hp) as [Hq1 Hw]; fold (key t) in *.
    + intros [= <- <-]. split; [done|]. split; [by apply wrote_only|]. by apply (wrote_version _ _ _ _ e) in Hw.
    + unfold classify_patch_error. case_bool_decide as H409; simpl.
      * assert (Hst : wstore e1 = wstore e).
        { eapply patch_refused; [done..|]. destruct err as [c m|m]; [|done]. by injection H409 as ->. }
        destruct (RETRY_DELAYS_MS !! a) eqn:Ha; intros [= <- <-]; split_and!; try done; [|by left].
        apply lookup_lt_Some in Ha. simpl in Ha. lia.
      * intros [= <- <-]. split_and!; try done. by right.
Qed.

Lemma task_step_left t pc e pc' e' :
  quiet (e_kube e) → in_u32 (version t) → task_step t pc e = (pc', e') → pc' ≠ Reading.
Proof.
  intros Hq Hr Hs. destruct pc as [| |r]; apply task_step_cases in Hs as [_ Hs]; try done; intros ->.
  - by destruct Hs as [_ Hs].
  - by destruct Hs as [_ Hs].
  - by destruct Hs as [Hs _].
Qed.

(** What a step stores: nothing, or the version of the task, above what it saw. *)
Lemma task_step_stored t pc e pc' e' k :
  quiet (e_kube e) → in_u32 (version t) → task_step t pc e = (pc', e') →
  stored_version e' k = stored_version e k ∨
  ∃ seen a, pc = Patching seen a ∧ k = key t ∧ stored_version e' k = version t.
Proof.
  intros Hq Hr Hs. apply task_step_cases in Hs as [_ Hs]; try done. destruct pc as [|seen a|r].
  - left. unfold stored_version. by destruct Hs as [-> _].
  - destruct Hs as [Hw _]. apply (only_wrote_version _ _ _ _ _ _ k) in Hw as [?|[-> ?]]; [by left| |done]. right. eauto.
  - destruct Hs as [_ ->]. by left.
Qed.

Lemma task_step_frame t pc e pc' e' k :
  quiet (e_kube e) → in_u32 (version t) → task_step t pc e = (pc', e') → k ≠ key t → wstore e' !! k = wstore e !! k.
Proof.
  intros Hq Hr Hs Hk. apply task_step_cases in Hs as [_ Hs]; try done. destruct pc as [|seen a|r].
  - by destruct Hs as [-> _].
  - destruct Hs as [[Hw _] _]. by apply Hw.
  - by destruct Hs as [_ ->].
Qed.

(** ** The invariant of a pool *)

(** A task on [k] with version [v] that has passed its read. *)
Definition author (l : list (Task * Pc)) (k : string * string) (v : Z) : Prop :=
  ∃ j u pc, l !! j = Some (u, pc) ∧ key u = k ∧ version u = v ∧ pc ≠ Reading.

Lemma author_insert l i t pc pc' k v :
  l !! i = Some (t, pc) → pc' ≠ Reading → author l k v → author (<[i := (t, pc')]> l) k v.
Proof.
  intros Hi Hpc (j & u & pcu & Hj & Hk & Hv & Hr). destruct (decide (j = i)) as [->|Hne].
  - rewrite Hi in Hj. simplify_eq. exists i, u, pc'. split_and!; try done.
    apply list_lookup_insert_eq. by eapply lookup_lt_Some.
  - exists j, u, pcu. by rewrite list_lookup_insert_ne.
Qed.

Definition outcome_ok (base : string * string → Z) (l : list (Task * Pc)) (t : Task) (pc : Pc) : Prop :=
  match pc with
  | Reading => True
  | Patching seen a => base (key t) ≤ seen < version t ∧ (a ≤ 2)%nat
  | Finished (Ok _) => base (key t) < version t
  | Finished (Err st) =>
      st_code st = Unavailable ∨ st_code st = Aborted ∨ version t ≤ base (key t) ∨
      ∃ v, author l (key t) v ∧ version t ≤ v
  end.

Record pool_ok (e0 : Env W) (s : Pool) : Prop := {
  po_quiet : quiet (e_kube s.2);
  po_range i t pc : s.1 !! i = Some (t, pc) → in_u32 (version t);
  po_stored k : stored_version s.2 k = stored_version e0 k ∨
    author s.1 k (stored_version s.2 k) ∧ stored_version e0 k < stored_version s.2 k;
  po_frame k : (∀ i t pc, s.1 !! i = Some (t, pc) → key t ≠ k) → wstore s.2 !! k = wstore e0 !! k;
  po_pcs i t pc : s.1 !! i = Some (t, pc) → outcome_ok (stored_version e0) s.1 t pc
}.

Lemma outcome_insert base l i t pc pc' u pcu :
  l !! i = Some (t, pc) → pc' ≠ Reading → outcome_ok base l u pcu → outcome_ok base (<[i := (t, pc')]> l) u pcu.
Proof.
  intros Hi Hpc. destruct pcu as [|?|[?|st]]; simpl; try done.
  intros [?|[?|[?|(v & Ha & ?)]]]; eauto 10 using author_insert.
Qed.

Lemma po_floor e0 s k : pool_ok e0 s → stored_version e0 k ≤ stored_version s.2 k.
Proof. intros Hok. destruct (po_stored _ _ Hok k) as [->|[_ ?]]; lia. Qed.

Lemma pool_step_ok e0 s i : pool_ok e0 s → pool_ok e0 (pool_step s i).
Proof.
  intros Hok. unfold pool_step. destruct (s.1 !! i) as [[t pc]|] eqn:Hi; [|done].
  destruct (task_step t pc s.2) as [pc' e'] eqn:Hs.
  pose proof (po_quiet _ _ Hok) as Hq. pose proof (po_range _ _ Hok i t pc Hi) as Hr.
  pose proof (task_step_left _ _ _ _ _ Hq Hr Hs) as Hleft. pose proof (lookup_lt_Some _ _ _ Hi) as Hlt.
  assert (Hnew : <[i := (t, pc')]> s.1 !! i = Some (t, pc')) by (by apply list_lookup_insert_eq).
  pose proof (po_pcs _ _ Hok i t pc Hi) as Hpc. pose proof (task_step_cases _ _ _ _ _ Hq Hr Hs) as [Hq' Hc].
  split; cbn [fst snd].
  - done.
  - intros j u pcu [(-> & ? & _)|[_ ?]]%list_lookup_insert_Some; simplify_eq; [done|]. by eapply (po_range _ _ Hok).
  - intros k. destruct (task_step_stored _ _ _ _ _ k Hq Hr Hs) as [->|(seen & a & -> & -> & ->)].
    + destruct (po_stored _ _ Hok k) as [?|[? ?]]; [by left|right]. split; [|done]. by eapply author_insert.
    + right. split; [|simpl in Hpc; lia]. by exists i, t, pc'.
  - intros k Hk. rewrite (task_step_frame _ _ _ _ _ k Hq Hr Hs) by (intros ->; by apply (Hk i t pc')).
    apply (po_frame _ _ Hok). intros j u pcu Hj Hku. destruct (decide (j = i)) as [->|Hne].
    + rewrite Hi in Hj. simplify_eq. by apply (Hk i u pc').
    + apply (Hk j u pcu); [|done]. by rewrite list_lookup_insert_ne.
  - intros j u pcu [(-> & ? & _)|[_ Hj]]%list_lookup_insert_Some; simplify_eq.
    2: { eapply outcome_insert; [done..|]. by eapply (po_pcs _ _ Hok). }
    pose proof (po_floor _ _ (key u) Hok) as Hfl. destruct pc as [|seen a|r].
    + destruct Hc as [_ Hc]. destruct pcu as [|seen a|[?|st]]; simpl; try done.
      * destruct Hc as (-> & -> & ?). split; [done|lia].
      * destruct Hc as [?|Hge]; [by left|right; right].
        destruct (po_stored _ _ Hok (key u)) as [Heq|[Ha _]]; [left; lia|right]. exists (stored_version s.2 (key u)).
        split; [|done]. by eapply author_insert.
    + destruct Hc as [_ Hc]. simpl in Hpc. destruct pcu as [|seen' a'|[?|st]]; simpl; try done.
      * destruct Hc as (-> & -> & ? & _). split; [apply Hpc|done].
      * lia.
      * destruct Hc; auto.
    + destruct Hc as [-> ->]. by eapply outcome_insert.
Qed.

Lemma pool_run_ok e0 sched s : pool_ok e0 s → pool_ok e0 (run sched s).
Proof. revert s; induction sched as [|i sched IH]; intros s Hok; [done|]. apply IH. by apply pool_step_ok. Qed.

Lemma submitted_ok ts e :
  quiet (e_kube e) → Forall (λ t, in_u32 (version t)) ts → pool_ok e (submitted ts e).
Proof.
  intros Hq Hr. assert (Hl : ∀ i t pc, (submitted ts e).1 !! i = Some (t, pc) → ts !! i = Some t ∧ pc = Reading).
  { intros i t pc. simpl. rewrite list_lookup_fmap. destruct (ts !! i); simpl; intros; by simplify_eq. }
  split; try done.
  - intros i t pc [Hi _]%Hl. exact (Forall_lookup_1 _ _ _ _ Hr Hi).
  - by left.
  - intros i t pc [_ ->]%Hl. done.
Qed.

(** ** Tasks on different objects *)
Record solo (s : Pool) : Prop := {
  so_keys i j t u pc pcu : s.1 !! i = Some (t, pc) → s.1 !! j = Some (u, pcu) → key t = key u → i = j;
  so_pcs i t pc : s.1 !! i = Some (t, pc) →
    match pc with
    | Patching seen _ => seen = stored_version s.2 (key t)
    | Finished (Ok _) => stored_version s.2 (key t) = version t
    | _ => True
    end
}.

Lemma solo_step e0 s i :
  pool_ok e0 s → solo s →
  solo (pool_step s i) ∧ ∀ k, stored_version s.2 k ≤ stored_version (pool_step s i).2 k.
Proof.
  intros Hok Hso. unfold pool_step. destruct (s.1 !! i) as [[t pc]|] eqn:Hi; [|done].
  destruct (task_step t pc s.2) as [pc' e'] eqn:Hs.
  pose proof (po_quiet _ _ Hok) as Hq. pose proof (po_range _ _ Hok i t pc Hi) as Hr.
  pose proof (po_pcs _ _ Hok i t pc Hi) as Hpc. pose proof (so_pcs _ Hso i t pc Hi) as Hpi.
  pose proof (task_step_cases _ _ _ _ _ Hq Hr Hs) as [_ Hc].
  assert (Hback : ∀ j u pcu, <[i := (t, pc')]> s.1 !! j = Some (u, pcu) → ∃ pcj, s.1 !! j = Some (u, pcj)).
  { intros j u pcu [(-> & ? & _)|[_ Hj]]%list_lookup_insert_Some; simplify_eq; eauto. }
  split; [split|]; cbn [fst snd].
  - intros j j' u u' pcu pcu' Hj Hj'. apply Hback in Hj as [? Hj], Hj' as [? Hj']. by eapply (so_keys _ Hso).
  - intros j u pcu [(-> & ? & _)|[Hne Hj]]%list_lookup_insert_Some; simplify_eq.
    + destruct pc as [|seen a|r]; [| |by destruct Hc as [-> ->]].
      * destruct Hc as [Hst Hc]. unfold stored_version. rewrite Hst. destruct pcu as [| |[|]]; try done. by destruct Hc as (_ & -> & _).
      * destruct Hc as [_ Hc]. destruct pcu as [| |[|]]; try done. destruct Hc as (-> & _ & _ & Hst).
        unfold stored_version. by rewrite Hst.
    + pose proof (so_pcs _ Hso j u pcu Hj) as Hpj.
      assert (Hk : key u ≠ key t) by (intros Hk; apply Hne; by eapply (so_keys _ Hso)).
      assert (stored_version e' (key u) = stored_version s.2 (key u)) as ->; [|done].
      unfold stored_version. by rewrite (task_step_frame _ _ _ _ _ _ Hq Hr Hs Hk).
  - intros k. destruct (task_step_stored _ _ _ _ _ k Hq Hr Hs) as [->|(seen & a & -> & -> & ->)]; [done|].
    simpl in Hpc. lia.
Qed.

Lemma solo_run e0 sched s :
  pool_ok e0 s → solo s → solo (run sched s) ∧ ∀ k, stored_version s.2 k ≤ stored_version (run sched s).2 k.
Proof.
  revert s; induction sched as [|i sched IH]; intros s Hok Hso; [done|].
  destruct (solo_step e0 s i Hok Hso) as [Hso' Hle]. destruct (IH _ (pool_step_ok _ _ i Hok) Hso') as [? Hle'].
  split; [done|]. intros k. specialize (Hle k). specialize (Hle' k). simpl in *. lia.
Qed.

(** ** Four turns finish a task *)
Definition turns (i : nat) (sched : list nat) : nat := length (filter (λ j, j = i) sched).
Definition rank (pc : Pc) : nat :=
  match pc with Reading => 4 | Patching _ a => 3 - a | Finished _ => 0 end.

Lemma pool_step_turn e0 s i j t pc :
  pool_ok e0 s → s.1 !! i = Some (t, pc) →
  ∃ pc', (pool_step s j).1 !! i = Some (t, pc') ∧ (rank pc' ≤ rank pc - (if decide (j = i) then 1 else 0))%nat.
Proof.
  intros Hok Hi. unfold pool_step. destruct (s.1 !! j) as [[u pcj]|] eqn:Hj.
  2: { destruct (decide (j = i)) as [->|]; [congruence|]. exists pc. split; [done|lia]. }
  destruct (task_step u pcj s.2) as [pc' e'] eqn:Hs. cbn [fst].
  destruct (decide (j = i)) as [->|Hne]; [|exists pc; rewrite list_lookup_insert_ne by done; split; [done|lia]].
  rewrite Hi in Hj. simplify_eq. exists pc'. rewrite list_lookup_insert_eq by (by eapply lookup_lt_Some). split; [done|].
  pose proof (po_pcs _ _ Hok _ _ _ Hi) as Hp.
  apply task_step_cases in Hs as [_ Hc]; [|apply Hok|by eapply (po_range _ _ Hok)].
  destruct pcj as [|seen a|r].
  - destruct Hc as [_ Hc]. destruct pc' as [|? a|]; simpl; [done| |lia]. destruct Hc as (-> & _). lia.
  - destruct Hc as [_ Hc]. destruct pc' as [|? a'|]; simpl; [done| |lia]. destruct Hc as (_ & -> & ? & _). lia.
  - destruct Hc as [-> _]. simpl. lia.
Qed.

Lemma run_turns e0 sched s i t pc :
  pool_ok e0 s → s.1 !! i = Some (t, pc) →
  ∃ pc', (run sched s).1 !! i = Some (t, pc') ∧ (rank pc' ≤ rank pc - turns i sched)%nat.
Proof.
  revert s pc; induction sched as [|j sched IH]; intros s pc Hok Hi.
  { exists pc. split; [done|]. unfold turns. simpl. lia. }
  destruct (pool_step_turn e0 s i j t pc Hok Hi) as (pc1 & Hi1 & Hr1).
  destruct (IH _ pc1 (pool_step_ok _ _ j Hok) Hi1) as (pc2 & Hi2 & Hr2). exists pc2. split; [done|].
  unfold turns in *. rewrite filter_cons. destruct (decide (j = i)); simpl; lia.
Qed.

Lemma run_tasks sched s : (run sched s).1.*1 = s.1.*1.
Proof.
  revert s; induction sched as [|i sched IH]; intros s; [done|]. simpl. rewrite IH. unfold pool_step.
  destruct (s.1 !! i) as [[t pc]|] eqn:Hi; [|done]. destruct (task_step t pc s.2) as [pc' e']. cbn [fst].
  rewrite list_fmap_insert. apply list_insert_id. by rewrite list_lookup_fmap, Hi.
Qed.

Lemma run_origin sched ts e i t pc : (run sched (submitted ts e)).1 !! i = Some (t, pc) → ts !! i = Some t.
Proof.
  intros Hi. pose proof (run_tasks sched (submitted ts e)) as Ht. simpl in Ht.
  rewrite <- list_fmap_compose, list_fmap_id in Ht. by rewrite <- Ht, list_lookup_fmap, Hi.
Qed.

Lemma submitted_solo ts e : NoDup (key <$> ts) → solo (submitted ts e).
Proof.
  intros Hnd. assert (Hl : ∀ i t pc, (submitted ts e).1 !! i = Some (t, pc) → ts !! i = Some t ∧ pc = Reading).
  { intros i t pc. simpl. rewrite list_lookup_fmap. destruct (ts !! i); simpl; intros; by simplify_eq. }
  split.
  - intros i j t u pc pcu [Hi _]%Hl [Hj _]%Hl Hk. eapply NoDup_lookup; [done|..]; rewrite list_lookup_fmap.
    + by rewrite Hi.
    + by rewrite Hj, Hk.
  - intros i t pc [_ ->]%Hl. done.
Qed.

(** Turns given to one task without a break are its steps alone. *)
Lemma run_alone n s i t pc :
  s.1 !! i = Some (t, pc) →
  run (replicate n i) s = let '(pc', e') := alone n t pc s.2 in (<[i := (t, pc')]> s.1, e').
Proof.
  revert s pc; induction n as [|n IH]; intros s pc Hi; simpl.
  { rewrite list_insert_id by done. by destruct s. }
  unfold pool_step. rewrite Hi. destruct (task_step t pc s.2) as [pc1 e1].
  rewrite (IH _ pc1) by (cbn [fst]; apply list_lookup_insert_eq; by eapply lookup_lt_Some). cbn [fst snd].
  destruct (alone n t pc1 e1). by rewrite list_insert_insert_eq.
Qed.

(** Overlapping Applies: any number of Applies submitted to a cluster nobody
    else writes to, their requests interleaved by any schedule: no stored version
    falls below what it was when they were submitted, and one that changed is the
    version of one of them on that object; other objects are untouched; four turns
    finish a call; a success was above the version at submission, and a refusal is
    for a version at least as high, stored then or by one of the others.  When no two
    of them name the same object, versions never go down at any step, and at the end
    every success is stored.  Four turns in a row are the sequential [apply_spec]. *)
Theorem concurrent_applies ts (e : Env W) sched :
  quiet (e_kube e) → Forall (λ t, in_u32 (version t)) ts →
  let s := run sched (submitted ts e) in
  (∀ k, stored_version s.2 k = stored_version e k ∨
        author s.1 k (stored_version s.2 k) ∧ stored_version e k < stored_version s.2 k) ∧
  (∀ k, k ∉ key <$> ts → wstore s.2 !! k = wstore e !! k) ∧
  (∀ i t, ts !! i = Some t → (4 ≤ turns i sched)%nat → ∃ r, s.1 !! i = Some (t, Finished r)) ∧
  (∀ i t r, s.1 !! i = Some (t, Finished r) → outcome_ok (stored_version e) s.1 t (Finished r)) ∧
  (NoDup (key <$> ts) →
     (∀ before after k, sched = before ++ after →
        stored_version (run before (submitted ts e)).2 k ≤ stored_version s.2 k) ∧
     ∀ i t rv, s.1 !! i = Some (t, Finished (Ok rv)) → stored_version s.2 (key t) = version t) ∧
  (∀ i t, s.1 !! i = Some (t, Reading) →
     run (replicate 4 i) s =
     let '(r, e') := apply_spec (ta_traceparent t) (ta_nanos t) (ta_ns t) (ta_name t) (ta_spec t) s.2 in
     (<[i := (t, Finished r)]> s.1, e')).
Proof.
  intros Hq Hr s. pose proof (submitted_ok ts e Hq Hr) as Hsub. pose proof (pool_run_ok e sched _ Hsub) as Hok. fold s in Hok.
  split_and!.
  - apply Hok.
  - intros k Hk. apply (po_frame _ _ Hok). intros i t pc Hi Hkt. apply Hk. apply list_elem_of_fmap.
    exists t. split; [done|]. apply run_origin in Hi. by eapply list_elem_of_lookup_2.
  - intros i t Hi Ht. destruct (run_turns e sched (submitted ts e) i t Reading Hsub) as (pc & Hpc & Hrank).
    { simpl. by rewrite list_lookup_fmap, Hi. }
    fold s in Hpc. pose proof (po_pcs _ _ Hok _ _ _ Hpc) as Hp. destruct pc as [|? a|r]; simpl in *; [lia|lia|eauto].
  - intros i t r Hi. by apply (po_pcs _ _ Hok i).
  - intros Hnd. pose proof (submitted_solo ts e Hnd) as Hs0. split.
    + intros before after k ->. unfold s, run. rewrite foldl_app. fold (run before (submitted ts e)).
      eapply solo_run; [by apply pool_run_ok|]. by eapply solo_run.
    + intros i t rv Hi. destruct (solo_run e sched _ Hsub Hs0) as [Hso _]. exact (so_pcs _ Hso i t _ Hi).
  - intros i t Hi. rewrite (run_alone 4 s i t Reading Hi), task_alone. by destruct (apply_spec _ _ _ _ _ _).
Qed.
End Concurrent.

(** ** Witnesses *)
Definition demo_task (n : string) (v : Z) : Task := mkTask "prod" n (mkConfigSpec v (JObj [])) None (λ _, 0).

(** Two clients on one object: both read 3, both write, and both succeed; the
    version acknowledged as 5 is gone. *)
Lemma acknowledged_overwritten :
  let s := run [0; 1; 1; 0]%nat (submitted [demo_task "web" 4; demo_task "web" 5] (demo_world 3 [])) in
  (∃ a b, s.1 = [(demo_task "web" 4, Finished (Ok a)); (demo_task "web" 5, Finished (Ok b))]) ∧
  stored_version s.2 ("prod", "web")%string = 4.
Proof. split; [|by vm_compute]. eexists _, _. by vm_compute. Qed.

Lemma concurrent_applies_witness :
  let e := demo_world 3 [None; None; Some (AFail (ApiErr 409 "conflict"))] in
  let s := run [0; 1; 0; 1; 0; 0]%nat (submitted [demo_task "web" 4; demo_task "api" 1] e) in
  (∃ rv, s.1 !! 0%nat = Some (demo_task "web" 4, Finished (Ok rv))) ∧ stored_version s.2 ("prod", "web")%string = 4 ∧
  ∃ r, s.1 !! 0%nat = Some (demo_task "web" 4, Finished r).
Proof.
  intros e s. assert (Hr : ∃ rv, s.1 !! 0%nat = Some (demo_task "web" 4, Finished (Ok rv))) by (eexists; vm_compute; reflexivity).
  assert (Hq : quiet (e_kube e)) by (repeat constructor).
  assert (Hv : Forall (λ t, in_u32 (version t)) [demo_task "web" 4; demo_task "api" 1]) by (repeat constructor; vm_compute; congruence).
  destruct (concurrent_applies _ e [0; 1; 0; 1; 0; 0]%nat Hq Hv) as (_ & _ & Hfin & _ & Hsolo & _).
  split; [exact Hr|]. split.
  - destruct Hr as [rv Hr]. refine (proj2 (Hsolo _) 0%nat _ rv Hr).
    apply (bool_decide_unpack _). vm_compute. exact I.
  - apply (Hfin 0%nat (demo_task "web" 4)); [reflexivity|]. vm_compute. repeat constructor.
Defined.
End Concurrent.
