(* ===== verification/Conformance.v ===== *)
(** * The repository's unit tests on the model

    Tests of the sources, with their inputs and the results they assert, evaluated
    on the definitions of this library, one lemma per group of tests of a source file.
    What a test takes from another library (the label selector engine, the schema
    validator, the YAML and JSON printers) is a small function of this file. *)
From Stdlib Require Import SpecFloat.
From S2P Require Import ApplyFacts Server ConfigMap Gateway Startup Telemetry.

Module Conformance.
Open Scope string_scope.

Definition code_of {A} (r : rpc A) : option Code := match r with Err s => Some (st_code s) | Ok _ => None end.

(** ** [grpc/authz.rs] *)
Lemma pattern_tests :
  pattern_matches "default/*" "default" "x" = true ∧ pattern_matches "default/*" "prod" "x" = false ∧
  pattern_matches "*/*" "prod" "y" = true ∧ pattern_matches "*/*" "" "" = true ∧
  pattern_matches "default/web" "default" "web" = true ∧ pattern_matches "default/web" "default" "api" = false ∧
  pattern_matches "default/web" "prod" "web" = false ∧ pattern_matches "prod/*" "staging" "db" = false ∧
  pattern_matches "default" "default" "x" = false ∧ pattern_matches "*" "default" "x" = false ∧
  pattern_matches "default/def*" "default" "default" = false ∧ pattern_matches "default/def*" "default" "def*" = true.
Proof. by vm_compute. Qed.

Lemma mode_tests :
  (Mode_parse <$> ["permissive"; "PERMISSIVE"; "enforce"; " Enforce "; "disabled"; ""; "nonsense"; "enabled"]) =
  [Permissive; Permissive; Enforce; Enforce; Disabled; Disabled; Disabled; Disabled].
Proof. by vm_compute. Qed.

Definition anon : ClientIdentity := mkIdentity "anonymous" true.
Definition fixture_table : AclTable :=
  <["svc-a" := [mkRule [Read] ["default/*"]]]> {["svc-w" := [mkRule [Write] ["prod/web"]]]}.
Definition checked (m : Mode) (t : AclTable) (synced : bool) (i : ClientIdentity) (v : Verb) (ns n : string) : option Code :=
  code_of (check m t synced i v ns n).1.

Lemma check_tests :
  checked Disabled ∅ false anon Write "any" "thing" = None ∧ checked Disabled ∅ false (named "nobody") Read "x" "y" = None ∧
  checked Enforce fixture_table true (named "svc-a") Read "default" "web" = None ∧
  checked Enforce fixture_table true anon Read "default" "web" = Some PermissionDenied ∧
  checked Enforce fixture_table true (named "ghost") Read "default" "web" = Some PermissionDenied ∧
  checked Enforce fixture_table true (named "svc-a") Write "default" "web" = Some PermissionDenied ∧
  checked Enforce fixture_table true (named "svc-a") Read "prod" "web" = Some PermissionDenied ∧
  checked Enforce fixture_table false (named "svc-a") Read "default" "web" = Some Unavailable ∧
  checked Permissive fixture_table true (named "ghost") Read "default" "web" = None ∧
  checked Permissive fixture_table true anon Write "prod" "web" = None ∧
  checked Permissive ∅ false (named "ghost") Read "default" "web" = None ∧
  checked Enforce fixture_table true (named "svc-a") Read "kube-system" "x" = Some PermissionDenied ∧
  checked Enforce fixture_table true (named "svc-w") Read "default" "alpha" = Some PermissionDenied.
Proof. by vm_compute. Qed.

(** ** [grpc/subscribe/filter.rs]

    [Selector::matches] as the Kubernetes documentation defines it. *)
Definition expression_matches (labels : gmap string string) (e : Expression) : bool :=
  match e with
  | Equal k v => bool_decide (labels !! k = Some v)
  | NotEqual k v => negb (bool_decide (labels !! k = Some v))
  | Filter.Exists k => bool_decide (is_Some (labels !! k))
  | DoesNotExist k => negb (bool_decide (is_Some (labels !! k)))
  | Filter.In k vs => match labels !! k with Some v => bool_decide (v ∈ vs) | None => false end
  | NotIn k vs => match labels !! k with Some v => negb (bool_decide (v ∈ vs)) | None => true end
  end.
Definition matches (es : list Expression) (labels : gmap string string) : bool := forallb (expression_matches labels) es.
Definition labels (l : list (string * string)) : gmap string string := list_to_map l.
(** The answers of a parsed selector on some label sets; [None] when it is refused. *)
Definition selects (input : string) (ls : list (list (string * string))) : option (list bool) :=
  match parse_label_selector input with Ok es => Some ((λ l, matches es (labels l)) <$> ls) | Err _ => None end.

Lemma selector_tests :
  (parse_label_selector <$> [""; "   "; String (byte 9) (String (byte 10) "")]) = [Ok []; Ok []; Ok []] ∧
  ((λ i, selects i [[("tier", "critical")]; [("tier", "normal")]; []]) <$>
     ["tier=critical"; "tier == critical"; "  tier  =  critical  "; "tier != normal"; "tier"; "!tier"]) =
    [Some [true; false; false]; Some [true; false; false]; Some [true; false; false]; Some [true; false; true];
     Some [true; true; false]; Some [false; false; true]] ∧
  selects "env in (prod, staging)" [[("env", "prod")]; [("env", "staging")]; [("env", "dev")]; []] = Some [true; true; false; false] ∧
  selects "env notin (dev, test)" [[("env", "prod")]; []; [("env", "dev")]] = Some [true; true; false] ∧
  selects "tier=critical, env in (prod,staging)"
    [[("tier", "critical"); ("env", "prod")]; [("tier", "critical"); ("env", "dev")]; [("tier", "normal"); ("env", "prod")]] =
    Some [true; false; false] ∧
  ((λ i, code_of (parse_label_selector i)) <$>
     ["tier in (prod"; "=value"; "tier="; "tier in ()"; "tier in (a,,b)"; ",tier=critical"; "tier foo (a)"]) =
    replicate 7 (Some InvalidArgument).
Proof. split_and!; by vm_compute. Qed.

Definition filter_allows (names : list string) (sel : string) (n : string) (l : list (string * string)) : option bool :=
  match SubscribeFilter_new names sel with Ok f => Some (allow matches f n (labels l)) | Err _ => None end.
Lemma filter_tests :
  filter_allows [] "" "anything" [] = Some true ∧ filter_allows ["cfg-a"; "cfg-b"] "" "cfg-b" [("any", "label")] = Some true ∧
  filter_allows ["cfg-a"; "cfg-b"] "" "cfg-c" [] = Some false ∧ filter_allows [] "tier=critical" "cfg-z" [("tier", "critical"); ("x", "y")] = Some true ∧
  filter_allows [] "tier=critical" "cfg-a" [("tier", "normal")] = Some false ∧
  filter_allows ["cfg-a"] "tier=critical" "cfg-a" [("tier", "critical")] = Some true ∧
  filter_allows ["cfg-a"] "tier=critical" "cfg-a" [("tier", "normal")] = Some false ∧
  filter_allows ["cfg-a"] "tier=critical" "cfg-b" [("tier", "critical")] = Some false ∧
  filter_allows [] "tier in (oops" "a" [] = None ∧ filter_allows_event matches (mkFilter None []) None ∅ = false.
Proof. by vm_compute. Qed.

(** ** [value_parse.rs] *)
Lemma scalar_tests :
  (scalar_value <$> ["42"; "-1"; "0"; "1.5"; "-0.5"; "true"; "false"; "hello"; ""; "Yes"]) =
  [JInt 42; JInt (-1); JInt 0; json_of_f64 (f64_of_decimal false 15 (-1)); json_of_f64 (f64_of_decimal true 5 (-1));
   JBool true; JBool false; JStr "hello"; JStr ""; JStr "Yes"].
Proof. by vm_compute. Qed.

(** ** [tenant_cache.rs] *)
Definition served (l : list (string * string * Z)) (budget : option Z) : Z :=
  match lg_views (foldl (λ g '(kind, n, b), ledger_record "t" (kind, "ns", n) b budget g) ledger_new l) !! "t" with
  | Some v => TenantCache.total v
  | None => 0
  end.
Lemma ledger_tests :
  served [("config", "a", 100); ("config", "a", 40)] None = 40 ∧ served [("config", "x", 10); ("secret", "x", 7)] None = 17 ∧
  served [("config", "a", 8); ("config", "b", 8)] None = 16 ∧
  served [("config", "a", 4); ("config", "b", 4); ("config", "c", 4)] (Some 10) = 8 ∧
  served [("config", "a", 4); ("config", "b", 4); ("config", "c", 4); ("config", "b", 4); ("config", "d", 4)] (Some 8) = 8 ∧
  served [("config", "big", 100)] (Some 10) = 100 ∧
  served ((λ i, ("config", "k" +:+ pretty (Z.of_nat i), 1000)) <$> seq 0 50) (Some 0) = 50000.
Proof. by vm_compute. Qed.
Lemma accounted_stream_tests :
  let cfg n c := Ok (mkConfigMsg "ns" n 0 c "" 0 0) in
  let total_of o := match lg_views (accounted_stream o config_cost [cfg "a" "12345"; cfg "b" "67"] ledger_new).2 !! "tenant" with
                    | Some v => TenantCache.total v | None => 0 end in
  config_cost (mkConfigMsg "ns" "n" 0 "abcd" "" 0 0) = Some ("ns", "n", 7) ∧
  config_event_cost (mkConfigEvent MODIFIED None) = None ∧
  total_of (Some (mkAccountant "tenant" QPermissive 0 "config")) = 13 ∧ total_of None = 0.
Proof. by vm_compute. Qed.

(** ** [grpc/apply.rs] *)
Definition api_err (code : Z) : KubeError := ApiErr code "synthetic".
Definition dyn_obj (spec : json) : DynamicObject :=
  mkObj (mkMeta None None None None None) (JObj [("spec", spec)]).
Definition current_obj (v : Z) (content : json) : DynamicObject :=
  dyn_obj (JObj [("content", content); ("schema_version", JInt v)]).
(** A validator of the schema [object_schema]: the errors of a member [port] that is not an integer. *)
Definition port_errors (_ : unit) (content : json) : list string :=
  match json_get "port" content with Some (JInt _) => [] | Some _ => ["not of type integer"] | None => ["port is required"] end.

Lemma apply_schema_tests :
  let t : gmap (string * string) unit := {[("trading", "limits") := tt]} in
  let bad := mkConfigSpec 1 (JObj [("port", JStr "nope")]) in
  let gate t ns n s := validate_against_schema port_errors t ns n s in
  gate ∅ "trading" "limits" (mkConfigSpec 1 (JObj [("anything", JBool true)])) = Ok tt ∧
  gate t "trading" "limits" (mkConfigSpec 1 (JObj [("port", JInt 8080)])) = Ok tt ∧
  gate t "trading" "limits" bad =
    Err (status FailedPrecondition
      "content does not satisfy registered JSON Schema for trading/limits: not of type integer") ∧
  gate t "risk" "limits" bad = Ok tt ∧ gate t "trading" "other" bad = Ok tt.
Proof. by vm_compute. Qed.

Lemma version_tests :
  schema_version_decision 5 5 = Err (status FailedPrecondition "schema_version must be > 5; got 5") ∧
  code_of (schema_version_decision 3 5) = Some FailedPrecondition ∧ schema_version_decision 6 5 = Ok tt ∧
  schema_version_decision 1 0 = Ok tt ∧ code_of (schema_version_decision 0 0) = Some FailedPrecondition ∧
  (parse_schema_version_from_object <$>
     [dyn_obj (JObj [("schema_version", JInt 42)]); mkObj (mkMeta None None None None None) (JObj []);
      dyn_obj (JObj [("content", JObj [])]); dyn_obj (JObj [("schema_version", JStr "v3")]);
      dyn_obj (JObj [("schema_version", JInt (u32_max + 5))])]) = [42; 0; 0; 0; 4].
Proof. by vm_compute. Qed.

Lemma classify_tests :
  (classify_patch_error (api_err 409) <$> [0%nat; 1%nat; 2%nat; 7%nat]) =
    [RetryAfter 100; RetryAfter 200; AbortRetriesExhausted; AbortRetriesExhausted] ∧
  ((λ c, classify_patch_error (api_err c) 0) <$> [400; 403; 404; 410; 500; 503]) = replicate 6 PatchUnavailable ∧
  classify_patch_error (OtherErr "key must be a string") 0 = PatchUnavailable.
Proof. by vm_compute. Qed.

(** [run_patch_retry_loop] on a stub that always conflicts: three calls, [ABORTED], and
    the sleeps within 26% of 300 ms whatever the clock reads. *)
Lemma retry_loop_test (nanos : nat → Z) :
  (∀ i, 0 <= nanos i) →
  let stub (e : Env nat) := (Err (api_err 409), mkEnv (S (e_kube e)) (e_trace e) (e_applies e)) in
  let '(r, e) := run_patch_retry_loop nanos stub (mkEnv 0%nat [] ∅) in
  e_kube e = 3%nat ∧ code_of r = Some Aborted ∧
  ∃ a b, e_trace e = [IoSleep a; IoSleep b] ∧ 222 <= a + b <= 378.
Proof.
  intros Hn. cbv zeta. unfold run_patch_retry_loop. cbn -[jittered_retry_ms].
  pose proof (jittered_retry_bounds (nanos 0%nat) 100 (Hn 0%nat) ltac:(done) ltac:(done)).
  pose proof (jittered_retry_bounds (nanos 1%nat) 200 (Hn 1%nat) ltac:(done) ltac:(done)).
  split_and!; [done..|]. eexists _, _. split; [done|]. change (100 / 4) with 25 in *. change (200 / 4) with 50 in *. lia.
Qed.

Definition fake_to_string (v : json) : result string string :=
  match v with
  | JObj [(k, JStr s)] => Ok ("{" +:+ k +:+ ":" +:+ s +:+ "}")
  | JObj [] => Ok "{}"
  | _ => Err "other"
  end.
Lemma dry_run_tests :
  let old := JObj [("k", JStr "old")] in
  let new := JObj [("k", JStr "new")] in
  let dry c v := dry_run_response fake_to_string c (mkConfigSpec v new) in
  dry (Some (current_obj 5 old)) 6 = Ok (mkDryRun "{k:old}" "{k:new}" 5 6) ∧
  dry (Some (current_obj 5 old)) 5 = Err (status FailedPrecondition "schema_version must be > 5; got 5") ∧
  code_of (dry (Some (current_obj 5 (JObj []))) 3) = Some FailedPrecondition ∧
  dry None 1 = Ok (mkDryRun "" "{k:new}" 0 1) ∧ code_of (dry None 0) = Some FailedPrecondition ∧
  dry (Some (dyn_obj (JObj [("schema_version", JInt 2)]))) 3 = Ok (mkDryRun "" "{k:new}" 2 3).
Proof. by vm_compute. Qed.

(** The requests of the batch tests carry their version as the whole document. *)
Definition item_yaml (s : string) : result ConfigSpec string :=
  match scalar_value s with JInt v => Ok (mkConfigSpec v (JObj [])) | _ => Err "bad" end.
Definition batch_item (ns n : string) (v : Z) : BatchItem := mkBatchItem ns n (mkConfigSpec v (JObj [])).
Lemma batch_tests :
  let parse l := parse_batch_items item_yaml ((λ '(ns, n, y), mkApplyRequest ns n y) <$> l) in
  parse [] = Err (status InvalidArgument "batch must contain at least one item") ∧
  parse [("trading", "limits", "3"); ("risk", "caps", "7")] = Ok [batch_item "trading" "limits" 3; batch_item "risk" "caps" 7] ∧
  parse [("trading", "limits", "1"); ("risk", "broken", "x")] = Err (status InvalidArgument "invalid YAML for risk/broken: bad") ∧
  code_of (parse [("trading", "limits", "1"); ("trading", "limits", "2")]) = Some InvalidArgument ∧
  gate_batch_versions [batch_item "a" "x" 2; batch_item "b" "y" 5; batch_item "c" "z" 1] [1; 4; 0] = Ok tt ∧
  gate_batch_versions [batch_item "a" "1" 5; batch_item "a" "2" 6; batch_item "a" "3" 4; batch_item "a" "4" 9; batch_item "a" "5" 10]
    [1; 2; 4; 8; 0] = Err (status FailedPrecondition "schema_version must be > 4; got 4") ∧
  (item_key <$> sort_batch_items
     [batch_item "trading" "limits" 1; batch_item "risk" "caps" 1; batch_item "trading" "alerts" 1;
      batch_item "audit" "rules" 1; batch_item "risk" "alerts" 1]) =
  [("audit", "rules"); ("risk", "alerts"); ("risk", "caps"); ("trading", "alerts"); ("trading", "limits")].
Proof. by vm_compute. Qed.

(** ** [grpc/revert.rs] *)
Lemma revert_tests :
  let parse := parse_historical_obj (λ _, "shape") in
  (u32_saturating_add (Z.max 5 1) 1, u32_saturating_add (Z.max 0 10) 1) = (6, 11) ∧
  ((λ c, st_code (map_list_error (api_err c) "cfg" "1")) <$> [410; 404; 400; 403; 500; 503]) =
    [FailedPrecondition; NotFound; Unavailable; Unavailable; Unavailable; Unavailable] ∧
  parse (current_obj 7 (JObj [("k", JStr "v")])) = Ok (mkConfigSpec 7 (JObj [("k", JStr "v")])) ∧
  parse (mkObj (mkMeta None None None None None) (JObj [])) = Err (status DataLoss "historical object missing spec") ∧
  parse (dyn_obj (JObj [("content", JObj []); ("schema_version", JStr "wrong-type")])) =
    Err (status DataLoss "invalid historical spec: shape").
Proof. by vm_compute. Qed.

(** ** [acl.rs] *)
Definition make_obj (n : string) (spec : json) : DynamicObject :=
  mkObj (mkMeta (Some n) None None None None) (JObj [("spec", spec)]).
Definition strs (l : list string) : json := JArr (JStr <$> l).
Definition acl_spec (identity : string) (rules : list (list string * list string)) : json :=
  JObj [("identity", JStr identity);
        ("rules", JArr ((λ '(vs, ps), JObj [("patterns", strs ps); ("verbs", strs vs)]) <$> rules))].
(** The table the watcher publishes after a list of events. *)
Definition acl_after (evs : list (Event DynamicObject)) : AclTable * bool :=
  let it := CanonicalIter.canonical_iter string AclEntry in
  let st := (pump_acl_events (MapIter0 := it) (Ok <$> evs) (mkMirrorSt ∅ false)).1 in (mi_table st, mi_synced st).
Lemma acl_tests :
  let rd := [(["read"], ["default/*"])] in
  let a := make_obj "acl-a" (acl_spec "svc-a" rd) in
  let t := (acl_after [Apply a]).1 in
  let t2 := (acl_after [Apply (make_obj "acl-1" (acl_spec "svc" [(["read"], ["a/*"])]));
                        Apply (make_obj "acl-2" (acl_spec "svc" [(["write"], ["b/*"])]))]).1 in
  parse_acl_object (make_obj "acl-b" (acl_spec "svc-b" [(["read"; "delete"; "WRITE"], ["default/*"; "no-slash"; "prod/db"])])) =
    Some (mkAclEntry "svc-b" [mkRule [Read; Write] ["default/*"; "prod/db"]]) ∧
  parse_acl_object (make_obj "acl-c" (acl_spec "  " [])) = None ∧
  parse_acl_object (mkObj (mkMeta None None None None None) (JObj [])) = None ∧
  parse_acl_object (make_obj "acl-d" (acl_spec "svc-d" [(["delete"], ["default/*"])])) = Some (mkAclEntry "svc-d" []) ∧
  (AclTable_grants t "svc-a" Read "default" "x", AclTable_grants t "svc-a" Write "default" "x",
   AclTable_grants t "svc-a" Read "prod" "x", AclTable_grants t "nobody" Read "default" "x") = (true, false, false, false) ∧
  identity_count (acl_after [Apply a; Delete a]).1 = 0%nat ∧
  (acl_after <$> [[Init]; [Init; InitDone]]).*2 = [false; true] ∧
  identity_count t2 = 1%nat ∧ AclTable_grants t2 "svc" Read "a" "x" = true ∧ AclTable_grants t2 "svc" Write "b" "y" = true ∧
  AclTable_grants t2 "svc" Write "a" "x" = false.
Proof. by vm_compute. Qed.

(** ** [quota.rs] *)
Definition quota_after (evs : list (Event DynamicObject)) : QuotaTable :=
  let it := CanonicalIter.canonical_iter string QuotaEntry in
  mi_table (pump_quota_events (MapIter0 := it) (Ok <$> evs) (mkMirrorSt ∅ false)).1.
Definition quota_obj (n identity : string) (fields : list (string * Z)) : DynamicObject :=
  make_obj n (JObj (("identity", JStr identity) :: ((λ '(k, v), (k, JInt v)) <$> fields))).
Lemma quota_table_tests :
  let q := quota_obj "q-a" "svc-a" [("maxSubscribers", 5)] in
  (QuotaMode_parse <$> ["permissive"; " ENFORCE "; "off"; "disabled"; ""; "bogus"]) =
    [QPermissive; QEnforce; QDisabled; QDisabled; QDisabled; QDisabled] ∧
  [tighter_u32 0 5; tighter_u32 5 0; tighter_u32 3 7; tighter_u32 0 0; tighter_u64 0 9; tighter_u64 9 4; tighter_u64 0 0] =
    [5; 5; 3; 0; 9; 4; 0] ∧
  parse_quota_object (quota_obj "q-payments" "spiffe://corp/payments"
      [("maxSubscribers", 200); ("maxAppliesPerSecond", 50); ("maxAppliesBurst", 100); ("cacheMemoryBudgetBytes", 67108864)]) =
    Some (mkQuotaEntry "spiffe://corp/payments" (mkTenantQuota 200 50 100 67108864)) ∧
  parse_quota_object (quota_obj "q-min" "svc-a" []) = Some (mkQuotaEntry "svc-a" (mkTenantQuota 0 0 0 0)) ∧
  parse_quota_object (quota_obj "q" "  " []) = None ∧
  quota_for (quota_after [Apply q]) "svc-a" = Some (mkTenantQuota 5 0 0 0) ∧ quota_for (quota_after [Apply q]) "nobody" = None ∧
  map_to_list (quota_after [Apply q; Delete q]) = [] ∧ map_to_list (quota_after [Apply q; Apply (quota_obj "q-a" "" [])]) = [] ∧
  map_to_list (quota_after [Apply (quota_obj "q-1" "svc" [("maxSubscribers", 100); ("maxAppliesPerSecond", 0)]);
               Apply (quota_obj "q-2" "svc" [("maxSubscribers", 40); ("maxAppliesPerSecond", 25)])]) =
    [("svc", mkTenantQuota 40 25 0 0)].
Proof. by vm_compute. Qed.

Lemma quota_limit_tests :
  let t : QuotaTable := {["svc-a" := mkTenantQuota 3 50 100 1024]} in
  effective_subscriber_limit t true 99 "svc-a" = 3 ∧ effective_subscriber_limit t true 7 "svc-b" = 7 ∧
  effective_subscriber_limit t false 7 "svc-a" = 7 ∧
  effective_subscriber_limit {["svc-a" := mkTenantQuota 0 0 0 0]} true 5 "svc-a" = 0 ∧
  effective_cache_budget t true 4096 "svc-a" = 1024 ∧ effective_cache_budget t true 4096 "svc-b" = 4096 ∧
  effective_cache_budget t false 4096 "svc-a" = 4096 ∧
  effective_apply_rate t true 5 "svc-a" = (50, 100) ∧ effective_apply_rate ∅ true 25 "svc-x" = (25, 25) ∧
  effective_apply_rate t false 9 "svc-a" = (9, 9) ∧ effective_apply_rate ∅ true 0 "svc-x" = (0, 0).
Proof. by vm_compute. Qed.

(** Stream counts: admissions ([Some] the mode and the limit) and dropped guards. *)
Definition count_run (ops : list (option (QuotaMode * Z))) : list (option Admit) * Z :=
  let '(out, c) := foldl (λ '(out, c) op, match op with
      | Some (m, l) => let '(a, c') := admit_stream c "t" m l in ((out ++ [Some a])%list, c')
      | None => ((out ++ [None])%list, release c "t")
      end) ([], counts_new) ops in (out, current c "t").
Lemma stream_count_tests :
  count_run [Some (QEnforce, 2); Some (QEnforce, 2); Some (QEnforce, 2); None; Some (QEnforce, 2)] =
    ([Some (AdmitAllowed "t" 1 2 false); Some (AdmitAllowed "t" 2 2 false); Some (AdmitDenied 2 2); None;
      Some (AdmitAllowed "t" 2 2 false)], 2) ∧
  (count_run (replicate 50 (Some (QEnforce, 0)))).2 = 50 ∧
  count_run [Some (QPermissive, 1); Some (QPermissive, 1)] =
    ([Some (AdmitAllowed "t" 1 1 false); Some (AdmitAllowed "t" 2 1 true)], 2) ∧
  (count_run [Some (QEnforce, 5); None]).2 = 0.
Proof. by vm_compute. Qed.

(** The token bucket: tries at [(rate, burst, cost, ms)] in order. *)
Definition bucket_run (ops : list (Z * Z * Z * Z)) : list bool :=
  (foldl (λ '(out, l) '(r, b, c, ms), let '(ok, l') := try_acquire_at l "svc-a" r b c (ms * 1000000) in ((out ++ [ok])%list, l'))
     ([], ∅ : gmap string Bucket) ops).1.
Definition admission_run (m : QuotaMode) (rate : Z) (n : nat) : list ApplyOutcome :=
  (foldl (λ '(out, l) _, let '(o, l') := apply_admission l ∅ true m rate "svc-a" 1 0 in ((out ++ [o])%list, l'))
     ([], ∅ : gmap string Bucket) (seq 0 n)).1.
Lemma bucket_tests :
  bucket_run [(10, 3, 1, 0); (10, 3, 1, 0); (10, 3, 1, 0); (10, 3, 1, 0); (10, 3, 1, 100); (10, 3, 1, 100)] =
    [true; true; true; false; true; false] ∧
  bucket_run [(10, 2, 1, 0); (10, 2, 1, 100000); (10, 2, 1, 100000); (10, 2, 1, 100000)] = [true; true; true; false] ∧
  bucket_run [(1, 5, 4, 0); (1, 5, 4, 0); (1, 5, 1, 0)] = [true; false; true] ∧
  admission_run QDisabled 1 2 = [OutcomeAllowed; OutcomeAllowed] ∧ admission_run QEnforce 0 2 = [OutcomeAllowed; OutcomeAllowed] ∧
  admission_run QEnforce 1 2 = [OutcomeAllowed; OutcomeDenied 1 1] ∧
  admission_run QPermissive 1 2 = [OutcomeAllowed; OutcomeOverBudget 1 1].
Proof. split_and!; vm_compute; reflexivity. Qed.

(** ** [grpc/http_gateway.rs] *)
Lemma gateway_tests :
  (status_to_http <$> [Code_Ok; InvalidArgument; Unauthenticated; PermissionDenied; NotFound; AlreadyExists; FailedPrecondition;
     ResourceExhausted; Unavailable; Unimplemented; Internal; Unknown]) = [200; 400; 401; 403; 404; 409; 412; 429; 503; 501; 500; 500] ∧
  [tokens_match "abc123" "abc123"; tokens_match "abc123" "abc124"; tokens_match "abc" "abc123"; tokens_match "" "x"; tokens_match "" ""] =
    [true; false; false; false; true] ∧
  (strip_bearer_prefix <$> ["Bearer tok"; "bearer tok"; "BEARER tok"; "Basic abc"; "Bearer"; ""]) =
    [Some "tok"; Some "tok"; Some "tok"; None; None; None] ∧
  trim <$> strip_bearer_prefix "Bearer   tok" = Some "tok" ∧
  (event_type_name <$> [0; 1; 2; 3; 99]) = ["ADDED"; "MODIFIED"; "DELETED"; "SNAPSHOT"; "MODIFIED"] ∧
  sse_frame "RELOAD" "" "{}" = "event: RELOAD" +:+ newline +:+ "data: {}" +:+ newline +:+ newline ∧
  sse_frame "ADDED" "rv-1" "[1]" =
    "event: ADDED" +:+ newline +:+ "id: rv-1" +:+ newline +:+ "data: [1]" +:+ newline +:+ newline.
Proof. by vm_compute. Qed.

(** ** [telemetry.rs] *)
Lemma telemetry_tests :
  (Telemetry.log_format_is_json <$> [Some "json"; Some "JSON"; Some "pretty"; Some ""; None]) = [true; false; false; false; false] ∧
  (Telemetry.sdk_disabled <$> [Some "true"; Some "TRUE"; Some "  True "; Some "false"; Some "0"; Some "1"; Some ""; None]) =
    [true; true; true; false; false; false; false; false] ∧
  (Telemetry.service_name <$> [None; Some "   "; Some "konfig-canary"; Some "  svc-x  "]) = ["konfig"; "konfig"; "konfig-canary"; "svc-x"] ∧
  (Telemetry.otel_trace_filter_spec <$> [None; Some "   "; Some ""; Some "konfig=trace,h2=info"; Some "  info  "]) =
    ["konfig=debug"; "konfig=debug"; "konfig=debug"; "konfig=trace,h2=info"; "info"].
Proof. by vm_compute. Qed.

(** ** [startup.rs] *)
Lemma startup_tests :
  (normalize_secret_namespaces <$> [["a"; ""; "b"; ""]; ["z"; "a"; "m"]; []; [""; ""]]) = [["a"; "b"]; ["z"; "a"; "m"]; []; []] ∧
  clamp_shards 0 = 1%nat ∧ clamp_shards 1 = 1%nat.
Proof. by vm_compute. Qed.
End Conformance.
