(* ===== verification/Admission.v ===== *)
(** * What the custom resource definitions admit

    The OpenAPI schemas under [infra/konfig] and their meaning: which documents
    conform and what the API server keeps of them.  Every stored object that
    conforms is understood by the watcher it is meant for, pruning takes nothing
    from it that a watcher reads, and the documents the handlers send conform
    exactly when their content is an object. *)
From S2P Require Export ApplyFacts Watcher Acl Quota Schema.

Module Admission.
Open Scope string_scope.

(** ** The schema language the definitions use *)
Inductive Format : Set := int32 | int64.
#[warnings="-register-all"] Inductive OpenApi : Type :=
  | OObject (required : list string) (properties : list (string * OpenApi)) (preserve_unknown : bool)
  | OArray (items : OpenApi)
  | OString (enum : option (list string))
  | OInteger (format : option Format) (minimum : Z).

Definition format_max (f : option Format) : option Z :=
  match f with Some int32 => Some (2 ^ 31 - 1)%Z | Some int64 => Some (2 ^ 63 - 1)%Z | None => None end.

Definition config_spec_schema : OpenApi :=
  OObject ["schema_version"] [("schema_version", OInteger None 0); ("content", OObject [] [] true)] false.
Definition configacl_spec_schema : OpenApi :=
  OObject ["identity"]
    [("identity", OString None);
     ("rules", OArray (OObject []
        [("verbs", OArray (OString (Some ["read"; "write"]))); ("patterns", OArray (OString None))] false))] false.
Definition tenantquota_spec_schema : OpenApi :=
  OObject ["identity"]
    [("identity", OString None);
     ("maxSubscribers", OInteger (Some int32) 0);
     ("maxAppliesPerSecond", OInteger (Some int32) 0);
     ("maxAppliesBurst", OInteger (Some int32) 0);
     ("cacheMemoryBudgetBytes", OInteger (Some int64) 0)] false.
Definition configschema_spec_schema : OpenApi :=
  OObject ["configName"; "schema"] [("configName", OString None); ("schema", OObject [] [] true)] false.

(** The root of each definition; [apiVersion], [kind] and [metadata] belong to
    every object and [spec] is optional. *)
Definition root_of (spec : OpenApi) : OpenApi := OObject [] [("spec", spec)] false.

(** *** Meaning *)
Fixpoint conforms (s : OpenApi) (v : json) : bool :=
  match s, v with
  | OObject required properties _, JObj l =>
      forallb (λ k, bool_decide (is_Some (assoc k l))) required &&
      forallb (λ '(k, s'), match assoc k l with Some v' => conforms s' v' | None => true end) properties
  | OArray items, JArr l => forallb (conforms items) l
  | OString enum, JStr x => match enum with Some e => bool_decide (x ∈ e) | None => true end
  | OInteger format minimum, JInt z =>
      ((minimum <=? z) && match format_max format with Some hi => z <=? hi | None => true end)%Z
  | _, _ => false
  end.

(** Members a definition does not declare are removed, unless it preserves them. *)
Fixpoint prune (s : OpenApi) (v : json) : json :=
  match s, v with
  | OObject _ properties preserve, JObj l =>
      if preserve then v
      else JObj (omap (λ '(k, v'),
        (fix declared (ps : list (string * OpenApi)) : option (string * json) :=
           match ps with
           | [] => None
           | (k', s') :: ps' => if String.eqb k k' then Some (k, prune s' v') else declared ps'
           end) properties) l)
  | OArray items, JArr l => JArr (prune items <$> l)
  | _, _ => v
  end.

(** An object as it is stored: the metadata, and the declared part of its [spec]. *)
Definition stored (spec : OpenApi) (obj : DynamicObject) : DynamicObject :=
  mkObj (do_metadata obj) (prune (root_of spec) (do_data obj)).

(** ** Conformance *)
Fixpoint property (k : string) (ps : list (string * OpenApi)) : option OpenApi :=
  match ps with [] => None | (k', s) :: ps' => if String.eqb k k' then Some s else property k ps' end.

Lemma conforms_object req ps pr v :
  conforms (OObject req ps pr) v = true →
  ∃ l, v = JObj l ∧ (∀ k, k ∈ req → is_Some (assoc k l)) ∧
       ∀ k s v', property k ps = Some s → assoc k l = Some v' → conforms s v' = true.
Proof.
  destruct v as [| | | | | |l]; try done. simpl. intros [Hr Hp]%andb_prop. exists l. split_and!; [done| |].
  - intros k Hk. rewrite forallb_forall in Hr. by apply list_elem_of_In, Hr, bool_decide_eq_true in Hk.
  - intros k s v'. induction ps as [|[k' s'] ps IH]; [done|]; simpl in *.
    apply andb_prop in Hp as [Hp1 Hp]. destruct (String.eqb_spec k k') as [<-|]; [|by apply IH].
    intros [= ->] Hl. by rewrite Hl in Hp1.
Qed.

Lemma conforms_array it v :
  conforms (OArray it) v = true → ∃ l, v = JArr l ∧ Forall (λ x, conforms it x = true) l.
Proof. destruct v as [| | | | |l|]; try done. simpl. rewrite forallb_forall. intros. exists l. by rewrite Forall_forall; setoid_rewrite list_elem_of_In. Qed.

Lemma conforms_string en v :
  conforms (OString en) v = true → ∃ x, v = JStr x ∧ ∀ e, en = Some e → x ∈ e.
Proof. destruct v; try done. simpl. intros H. eexists. split; [done|]. intros e ->. by bools. Qed.

Lemma conforms_integer f lo v :
  conforms (OInteger f lo) v = true → ∃ z, v = JInt z ∧ (lo ≤ z)%Z ∧ ∀ hi, format_max f = Some hi → (z ≤ hi)%Z.
Proof. destruct v; try done. simpl. intros [? H]%andb_prop. eexists. split_and!; [done|lia|]. intros hi E. rewrite E in H. lia. Qed.

(** ** Pruning *)
Lemma assoc_prune k req ps l :
  assoc k (match prune (OObject req ps false) (JObj l) with JObj l' => l' | _ => [] end) =
  match property k ps, assoc k l with Some s, Some v => Some (prune s v) | _, _ => None end.
Proof.
  simpl. induction l as [|[k' v] l IH]; simpl; [by destruct (property k ps)|].
  assert ((fix declared (qs : list (string * OpenApi)) : option (string * json) :=
             match qs with
             | [] => None
             | (k'', s') :: qs' => if String.eqb k' k'' then Some (k', prune s' v) else declared qs'
             end) ps = (λ s, (k', prune s v)) <$> property k' ps) as ->.
  { clear. induction ps as [|[k'' s] ps IH]; simpl; [done|]. by destruct (String.eqb k' k''). }
  destruct (String.eqb_spec k k') as [<-|Hne].
  - destruct (property k ps); simpl; [by rewrite String.eqb_refl|]. exact IH.
  - destruct (property k' ps); simpl; [|done]. by rewrite (proj2 (String.eqb_neq _ _) Hne).
Qed.

Lemma prune_object req ps l :
  ∃ l', prune (OObject req ps false) (JObj l) = JObj l' ∧
        ∀ k, assoc k l' = match property k ps, assoc k l with Some s, Some v => Some (prune s v) | _, _ => None end.
Proof. eexists. split; [done|]. intros k. apply (assoc_prune k req ps l). Qed.

(** ** Decoding

    [decodes s dec Q]: [dec] reads a value with [Q] from every document that
    conforms to [s], and the same value from the declared part of it. *)
Definition decodes {A} (s : OpenApi) (dec : json → result A DeError) (Q : A → Prop) : Prop :=
  ∀ v, conforms s v = true → ∃ a, dec v = Ok a ∧ dec (prune s v) = Ok a ∧ Q a.

Lemma decodes_string en : decodes (OString en) string_of_json (λ x, ∀ e, en = Some e → x ∈ e).
Proof. intros v (x & -> & Hx)%conforms_string. by exists x. Qed.

Lemma decodes_u32 : decodes (OInteger (Some int32) 0) u32_of_json (λ z, 0 ≤ z < 2 ^ 31)%Z.
Proof.
  intros v (z & -> & Hz & Hmax)%conforms_integer. specialize (Hmax _ eq_refl). exists z. simpl.
  rewrite bool_decide_true; [split_and!; [done..|lia]|]. unfold in_u32, u32_max. lia.
Qed.

Lemma decodes_u64 : decodes (OInteger (Some int64) 0) u64_of_json (λ z, 0 ≤ z < 2 ^ 63)%Z.
Proof.
  intros v (z & -> & Hz & Hmax)%conforms_integer. specialize (Hmax _ eq_refl). exists z. simpl.
  rewrite bool_decide_true; [split_and!; [done..|lia]|]. unfold in_u64, u64_max. lia.
Qed.

Definition is_object (v : json) : Prop := is_Some (as_object v).
Lemma decodes_value : decodes (OObject [] [] true) (@Ok json DeError) is_object.
Proof. intros v (l & -> & _)%conforms_object. eexists. split_and!; [done..|by eexists]. Qed.

Lemma decodes_vec {A} s (dec : json → result A DeError) Q :
  decodes s dec Q → decodes (OArray s) (vec_of_json dec) (Forall Q).
Proof.
  intros H v (l & -> & Hl)%conforms_array. cbn [prune vec_of_json].
  induction Hl as [|x l Hx Hl (bs & Hb & Hp & HQ)]; [by exists []|]. destruct (H x Hx) as (b & Hb' & Hp' & HQ').
  exists (b :: bs). rewrite fmap_cons. cbn [try_map]. by rewrite Hb, Hp, Hb', Hp'; simpl; auto.
Qed.

(** A declared member of a conforming object: it is decoded, or absent and defaulted. *)
Lemma decodes_field {A} req ps l i k s (dec : json → result A DeError) Q d :
  conforms (OObject req ps false) (JObj l) = true → property k ps = Some s → decodes s dec Q →
  k ∈ req ∨ (∃ a, d = Some a ∧ Q a) →
  ∃ a, de_field (JObj l) i k dec d = Ok a ∧
       de_field (prune (OObject req ps false) (JObj l)) i k dec d = Ok a ∧ Q a.
Proof.
  intros (l0 & [= <-] & Hreq & Hps)%conforms_object Hk Hdec Hd.
  destruct (prune_object req ps l) as (l' & -> & Hl'). unfold de_field. rewrite Hl', Hk.
  destruct (assoc k l) as [v|] eqn:Hv; [exact (Hdec v (Hps _ _ _ Hk Hv))|].
  destruct Hd as [Hin|(a & -> & Ha)]; [|by exists a]. apply Hreq in Hin. rewrite Hv in Hin. by destruct Hin.
Qed.

Lemma de_struct_prune {A} req ps l n (body : result A DeError) :
  de_struct (prune (OObject req ps false) (JObj l)) n body = body.
Proof. by destruct (prune_object req ps l) as (l' & -> & _). Qed.

(** [struct H l]: a conforming object; [field H Hd]: its next field. *)
Ltac field H Hd :=
  match goal with
  | |- ∃ _, result_bind (de_field (JObj ?l) ?i ?k ?dec ?d) _ = _ ∧ _ =>
      match type of H with conforms (OObject ?req _ _) _ = _ =>
      match type of Hd with decodes _ _ ?Q =>
      let Hs := fresh in let Hok := fresh in let Hp := fresh in
      assert (k ∈ req ∨ ∃ a, d = Some a ∧ Q a) as Hs;
        [first [left; apply (bool_decide_unpack _); vm_compute; exact I | right; eexists; split; [reflexivity|done]]|];
      destruct (decodes_field _ _ l i k _ dec Q d H eq_refl Hd Hs) as (? & Hok & Hp & ?);
      rewrite Hok, Hp; cbn [result_bind]; clear Hs Hok Hp
      end end
  end.
Ltac struct H l :=
  pose proof H as (l & -> & _)%conforms_object; rewrite de_struct_prune; unfold de_struct.

Lemma decodes_quota_spec :
  decodes tenantquota_spec_schema quota_spec_of_json (λ q,
    (0 ≤ qs_max_subscribers q < 2 ^ 31 ∧ 0 ≤ qs_max_applies_per_second q < 2 ^ 31 ∧
     0 ≤ qs_max_applies_burst q < 2 ^ 31 ∧ 0 ≤ qs_cache_memory_budget_bytes q < 2 ^ 63)%Z).
Proof.
  unfold quota_spec_of_json, tenantquota_spec_schema. intros v H. struct H l.
  field H (decodes_string None). do 3 field H decodes_u32. field H decodes_u64. by eexists.
Qed.

Lemma decodes_rule_spec :
  decodes (OObject [] [("verbs", OArray (OString (Some ["read"; "write"]))); ("patterns", OArray (OString None))] false)
    rule_spec_of_json (λ r, Forall (λ x, is_Some (Verb_parse x)) (rs_verbs r)).
Proof.
  unfold rule_spec_of_json. intros v H. struct H l.
  field H (decodes_vec _ _ _ (decodes_string (Some ["read"; "write"]))).
  field H (decodes_vec _ _ _ (decodes_string None)). eexists. split_and!; [done..|]. simpl.
  eapply Forall_impl; [done|]. simpl. intros y Hx. specialize (Hx _ eq_refl).
  repeat (apply elem_of_cons in Hx as [->|Hx]; [by eexists|]). by apply elem_of_nil in Hx.
Qed.

Lemma decodes_acl_spec :
  decodes configacl_spec_schema acl_spec_of_json
    (λ s, Forall (λ r, Forall (λ x, is_Some (Verb_parse x)) (rs_verbs r)) (as_rules s)).
Proof.
  unfold acl_spec_of_json, configacl_spec_schema. intros v H. struct H l.
  field H (decodes_string None). field H (decodes_vec _ _ _ decodes_rule_spec). by eexists.
Qed.

Lemma decodes_schema_spec : decodes configschema_spec_schema schema_spec_of_json (λ s, is_object (ss_schema s)).
Proof.
  unfold schema_spec_of_json, configschema_spec_schema. intros v H. struct H l.
  field H (decodes_string None). field H decodes_value. by eexists.
Qed.

(** ** Stored objects *)
Lemma conforms_root spec data s :
  conforms (root_of spec) data = true → json_get "spec" data = Some s → conforms spec s = true.
Proof. intros (l & -> & _ & Hp)%conforms_object. by apply Hp. Qed.

Lemma stored_spec spec obj :
  conforms (root_of spec) (do_data obj) = true →
  json_get "spec" (do_data (stored spec obj)) = prune spec <$> json_get "spec" (do_data obj).
Proof.
  intros (l & Hl & _)%conforms_object. unfold stored, root_of. rewrite Hl.
  destruct (prune_object [] [("spec", spec)] l) as (l' & -> & Hl'). simpl. rewrite Hl'. simpl. by destruct (assoc "spec" l).
Qed.

(** The spec of a conforming object is decoded, and so is what is stored of it. *)
Lemma decodes_stored {A} spec (dec : json → result A DeError) Q obj s :
  decodes spec dec Q → conforms (root_of spec) (do_data obj) = true → json_get "spec" (do_data obj) = Some s →
  ∃ a, dec s = Ok a ∧ Q a ∧ json_get "spec" (do_data (stored spec obj)) = Some (prune spec s) ∧ dec (prune spec s) = Ok a.
Proof.
  intros Hd Hc Hs. destruct (Hd s (conforms_root _ _ _ Hc Hs)) as (a & Ha & Hp & HQ).
  exists a. by rewrite (stored_spec _ _ Hc), Hs.
Qed.

(** A TenantQuota that conforms is understood unless its identity is blank, the
    same as it is stored, and its limits are below 2^31 and 2^63: no value that
    the definition admits is refused or wraps. *)
Lemma quota_understood obj s :
  conforms (root_of tenantquota_spec_schema) (do_data obj) = true → json_get "spec" (do_data obj) = Some s →
  ∃ q, quota_spec_of_json s = Ok q ∧ parse_quota_object (stored tenantquota_spec_schema obj) = parse_quota_object obj ∧
    (parse_quota_object obj = None ↔ is_empty (trim (qs_identity q)) = true) ∧
    (0 ≤ qs_max_subscribers q < 2 ^ 31 ∧ 0 ≤ qs_max_applies_per_second q < 2 ^ 31 ∧
     0 ≤ qs_max_applies_burst q < 2 ^ 31 ∧ 0 ≤ qs_cache_memory_budget_bytes q < 2 ^ 63)%Z.
Proof.
  intros Hc Hs. destruct (decodes_stored _ _ _ _ _ decodes_quota_spec Hc Hs) as (q & Hq & HQ & Hst & Hpq).
  exists q. unfold parse_quota_object. rewrite Hst, Hs, Hpq, Hq. split; [done|]; split; [done|]; split; [by destruct (is_empty _)|exact HQ].
Qed.

(** A ConfigACL that conforms is understood unless its identity is blank, the same
    as it is stored, and no verb of it is ignored. *)
Lemma acl_understood obj s :
  conforms (root_of configacl_spec_schema) (do_data obj) = true → json_get "spec" (do_data obj) = Some s →
  ∃ a, acl_spec_of_json s = Ok a ∧ parse_acl_object (stored configacl_spec_schema obj) = parse_acl_object obj ∧
    (parse_acl_object obj = None ↔ is_empty (trim (as_identity a)) = true) ∧
    Forall (λ r, length (omap Verb_parse (rs_verbs r)) = length (rs_verbs r)) (as_rules a).
Proof.
  intros Hc Hs. destruct (decodes_stored _ _ _ _ _ decodes_acl_spec Hc Hs) as (a & Ha & HQ & Hst & Hpa).
  exists a. unfold parse_acl_object. rewrite Hst, Hs, Hpa, Ha. split_and!; [done..|by destruct (is_empty _)|].
  eapply Forall_impl; [exact HQ|]. simpl. intros r Hr. induction Hr as [|x l [v Hv] _ IH]; [done|].
  simpl. rewrite Hv. simpl. by f_equal.
Qed.

(** A ConfigSchema that conforms, in a namespace, with a name that is not blank,
    is registered exactly when its document compiles. *)
Lemma schema_understood {V} (draft7_new : json → result V string) obj s ns :
  conforms (root_of configschema_spec_schema) (do_data obj) = true → json_get "spec" (do_data obj) = Some s →
  om_namespace (do_metadata obj) = Some ns → is_empty (trim ns) = false →
  ∃ d, schema_spec_of_json s = Ok d ∧ is_object (ss_schema d) ∧
    parse_schema_object draft7_new (stored configschema_spec_schema obj) = parse_schema_object draft7_new obj ∧
    (is_empty (trim (ss_config_name d)) = false →
       parse_schema_object draft7_new obj =
         match draft7_new (ss_schema d) with
         | Ok v => Some (mkSchemaEntry (ns, trim (ss_config_name d)) v)
         | Err _ => None
         end).
Proof.
  intros Hc Hs Hns Hne. destruct (decodes_stored _ _ _ _ _ decodes_schema_spec Hc Hs) as (d & Hd & HQ & Hst & Hpd).
  exists d. unfold parse_schema_object, compile.
  change (do_metadata (stored configschema_spec_schema obj)) with (do_metadata obj). rewrite Hns; cbn [default from_option id].
  rewrite Hne, Hst, Hs, Hpd, Hd. split_and!; [done..|]. by intros ->.
Qed.

(** A Config that conforms has a version that is not negative; it is understood
    exactly when the version fits in 32 bits, which the definition does not ask. *)
Lemma config_understood now obj s :
  conforms (root_of config_spec_schema) (do_data obj) = true → json_get "spec" (do_data obj) = Some s →
  ∃ z, version_field (do_data obj) = Some (JInt z) ∧ (0 ≤ z)%Z ∧
    parse_config_object now (stored config_spec_schema obj) = parse_config_object now obj ∧
    (is_Some (parse_config_object now obj) ↔ (z ≤ u32_max)%Z).
Proof.
  intros Hc Hs. pose proof (conforms_root _ _ _ Hc Hs) as H. unfold parse_config_object, version_field.
  rewrite (stored_spec _ _ Hc), Hs. change (do_metadata (stored config_spec_schema obj)) with (do_metadata obj).
  unfold config_spec_of_json, config_spec_schema in *.
  pose proof H as (l & -> & Hreq & Hps)%conforms_object. cbn [fmap option_fmap option_map]. rewrite de_struct_prune. unfold de_struct.
  destruct (decodes_field _ _ l 1 "content" _ Ok is_object (Some default_content) H eq_refl decodes_value) as (c & Hcn & Hcp & _);
    [right; eexists; split; [done|by eexists]|].
  destruct (prune_object ["schema_version"] [("schema_version", OInteger None 0); ("content", OObject [] [] true)] l) as (l' & El & Hl').
  rewrite Hcn, Hcp, El. unfold de_field. rewrite Hl'. simpl.
  destruct (Hreq "schema_version") as [v Hv]; [constructor|]. rewrite Hv.
  destruct (conforms_integer None 0 v) as (z & -> & Hz & _); [exact (Hps "schema_version" _ v eq_refl Hv)|].
  exists z. split_and!; [done..|]. simpl. case_bool_decide as Hu; simpl; unfold in_u32 in Hu.
  - split; [lia|by eexists].
  - split; [by intros []|lia].
Qed.

(** ** What the handlers send *)
Lemma body_conforms tp ns n spec :
  conforms (root_of config_spec_schema) (patch_body tp ns n spec) = true ↔
  (0 ≤ cs_schema_version spec)%Z ∧ is_object (cs_content spec).
Proof.
  rewrite <- Z.leb_le. unfold is_object. destruct spec as [v c]. simpl. rewrite is_Some_alt.
  destruct (0 <=? v)%Z, c; simpl; (split; [by auto|by intros []]).
Qed.

Lemma body_stored tp ns n spec md :
  is_object (cs_content spec) →
  json_get "spec" (do_data (stored config_spec_schema (mkObj md (patch_body tp ns n spec)))) = Some (config_spec_to_json spec).
Proof. intros [l Hl]. destruct spec as [v []], tp; done. Qed.

(** ** A document whose content is not an object

    The API server refuses what does not conform with 422: [rejects]. *)
Section Refused.
Context {W : Type} `{KubeApi W}.
Context (yaml_spec : string → result ConfigSpec string) (to_string : json → result string string).
Context {Validator : Type} (iter_errors : Validator → json → list string).
Context (tp : option string) (nanos : nat → Z).
Hypothesis rejects : ∀ ns n body w, conforms (root_of config_spec_schema) body = false →
  ∃ msg w', kube_patch ns n body w = (Err (ApiErr 422 msg), w').
Hypothesis prints : ∀ v, is_ok (to_string v) = true.

(** Apply asks once and answers [UNAVAILABLE], as it does when the cluster is not
    reachable, although the document can never be stored; DryRunApply of the same
    document succeeds. *)
Lemma shape_refused t req spec e o e1 :
  yaml_spec (ar_yaml_content req) = Ok spec → ¬ is_object (cs_content spec) →
  validate_against_schema iter_errors t (ar_namespace req) (ar_name req) spec = Ok tt →
  api_get (ar_namespace req) (ar_name req) e = (Ok o, e1) →
  (parse_schema_version_from_object o < cs_schema_version spec)%Z →
  (∃ msg e2, handle_apply yaml_spec iter_errors tp nanos t req e = (Err (status Unavailable ("kube patch error: " +:+ msg)), e2) ∧
     e_trace e2 = (e_trace e1 ++ [IoPatch (ar_namespace req) (ar_name req) (patch_body tp (ar_namespace req) (ar_name req) spec)])%list) ∧
  is_ok (handle_dry_run_apply yaml_spec to_string req e).1 = true.
Proof.
  intros Hy Hno Hv Hg Hlt.
  assert (schema_version_decision (cs_schema_version spec) (parse_schema_version_from_object o) = Ok tt) as Hd.
  { unfold schema_version_decision. by destruct (Z.leb_spec (cs_schema_version spec) (parse_schema_version_from_object o)); [lia|]. }
  split.
  - destruct (rejects (ar_namespace req) (ar_name req) (patch_body tp (ar_namespace req) (ar_name req) spec) (e_kube e1)) as (msg & w' & Hp).
    { apply not_true_iff_false. rewrite body_conforms. by intros []. }
    eexists msg, _. unfold handle_apply, apply_inner. rewrite Hy. unfold bind at 1, lift. rewrite Hv.
    unfold apply_spec, bind at 1, fetch_current_schema_version. rewrite Hg, Hd.
    unfold patch_with_retry, run_patch_retry_loop, patch_once, api_patch. simpl. rewrite Hp. simpl. done.
  - unfold handle_dry_run_apply. rewrite Hy, Hg. unfold dry_run_response, extract_current_content_json. simpl. rewrite Hd.
    pose proof (prints (cs_content spec)). destruct (to_string (cs_content spec)); [|done].
    destruct (json_get "spec" (do_data o) ≫= json_get "content") as [c|]; [|done].
    pose proof (prints c). by destruct (to_string c).
Qed.
End Refused.

(** The in-memory API server with the definition installed. *)
#[local] Instance validating : KubeApi ScriptKube := {|
  kube_get := @kube_get _ ScriptKube_api;
  kube_list_exact := @kube_list_exact _ ScriptKube_api;
  kube_patch ns n body w :=
    if conforms (root_of config_spec_schema) body then @kube_patch _ ScriptKube_api ns n body w
    else (Err (ApiErr 422 "spec.content in body must be of type object"), w)
|}.

Lemma shape_refused_witness :
  let stored_obj := mkObj (mkMeta (Some "web") (Some "prod") (Some "7") None None) (JObj [("spec", JObj [("schema_version", JInt 3)])]) in
  let w := mkScript {[("prod", "web") := stored_obj]} ∅ [] in
  let req := mkApplyRequest "prod" "web" "doc" in
  let yaml (_ : string) : result ConfigSpec string := Ok (mkConfigSpec 4 (JArr [JInt 1; JInt 2])) in
  let print (_ : json) : result string string := Ok "[1,2]" in
  (∃ msg e2, handle_apply yaml (λ (_ : unit) _, []) None (λ _, 0%Z) ∅ req (mkEnv w [] ∅) =
     (Err (status Unavailable ("kube patch error: " +:+ msg)), e2) ∧ length (e_trace e2) = 2%nat) ∧
  is_ok (handle_dry_run_apply yaml print req (mkEnv w [] ∅)).1 = true.
Proof.
  intros stored_obj w req yaml print.
  destruct (shape_refused yaml print (λ (_ : unit) _, []) None (λ _, 0%Z)
    ltac:(intros ns n body w0 Hb; eexists _, w0; unfold kube_patch, validating; by rewrite Hb) ltac:(done)
    ∅ req (mkConfigSpec 4 (JArr [JInt 1; JInt 2])) (mkEnv w [] ∅) stored_obj (mkEnv w [IoGet "prod" "web"] ∅))
    as [(msg & e2 & -> & Ht) Hok]; [done|by intros []|done|vm_compute; reflexivity|vm_compute; reflexivity|].
  split; [|exact Hok]. exists msg, e2. by rewrite Ht.
Defined.
End Admission.
