(* ===== verification/ClientApi.v ===== *)
(** * The rest of the client library's surface

    [konfig-consumer]: the unary and streaming calls of [KonfigClient] and the
    reads of a [ConfigHandle] ([lib.rs]), and the staleness gauge with its sampler
    ([metrics.rs]) on the registry the caller supplies.  The raw event stream of
    [subscribe] and the driver behind [watch] are two copies of one reconnect loop:
    they make the same requests and the same pauses. *)
From Stdlib Require Import SpecFloat.
From S2P Require Export EndToEnd Metrics.

Module ClientApi.
Import Consumer Client Metrics.MetricsDemo.
Open Scope string_scope.
Open Scope Z_scope.

(** ** Calls *)

(** [get]; the answer of the server, or that there is none. *)
Definition client_get (call : string → string → rpc ConfigMsg) (ns n : string) : result ConfigMsg ClientError :=
  map_err Rpc (call ns n).

(** [subscribe]: the raw stream, from no cursor. *)
Definition client_subscribe (turns : list Turn) : list ConfigEvent * list string * list Z :=
  reconnecting_event_stream turns 0 "".

(** [ConfigHandle::name] and [get]: the name and the store the handle was made with. *)
Definition handle_name (h : Handles) (i : nat) : option string := hd_names h !! i.
Definition handle_snapshot (h : Handles) (i : nat) (stores : gmap string Snapshot) : option Snapshot :=
  handle_name h i ≫= λ n, stores !! n.

(** Every handle of a watch reads a snapshot, before and after any run of the
    driver: an answer is never missing. *)
Definition covered (h : Handles) (stores : gmap string Snapshot) : Prop :=
  ∀ n, n ∈ hd_names h → is_Some (stores !! n).

Lemma covered_get h stores i : covered h stores → (i < length (hd_names h))%nat → is_Some (handle_snapshot h i stores).
Proof.
  intros Hc [n Hn]%lookup_lt_is_Some. unfold handle_snapshot, handle_name. rewrite Hn. simpl.
  apply Hc. by eapply list_elem_of_lookup_2.
Qed.

Lemma watch_covered now names h stores : watch now names = Ok (h, stores) → covered h stores.
Proof.
  unfold watch, watch_stores. case_bool_decide; [done|]. intros [= <- <-] n Hn. simpl in Hn.
  assert (∀ (l : list string) (m : gmap string Snapshot), n ∈ l ∨ is_Some (m !! n) →
    is_Some (foldl (λ m x, <[x := snapshot_default now]> m) m l !! n)) as Hf; [|by apply Hf; left].
  induction l as [|x l IH]; intros m Hm; simpl.
  - by destruct Hm as [Hl%elem_of_nil|].
  - apply IH. destruct (decide (x = n)) as [->|Hne]; [right; by rewrite lookup_insert_eq|].
    rewrite lookup_insert_ne by done. destruct Hm as [[->|Hl]%elem_of_cons|Hm]; [done|by left|by right].
Qed.

Section Loops.
Context (from_str : string → option json).

Definition same_names (a b : gmap string Snapshot) : Prop := ∀ n, is_Some (a !! n) → is_Some (b !! n).

Lemma pump_names msgs d : same_names (dv_stores d) (dv_stores (pump from_str msgs d).1).
Proof.
  intros n [s Hs]. destruct (pump_spec from_str msgs d n (payload s)) as (Hp & _); [by rewrite Hs|].
  apply (fmap_is_Some payload). rewrite Hp. by eexists.
Qed.

Lemma stale_names now stores : same_names stores (mark_all_stale now stores).
Proof. intros n Hn. unfold mark_all_stale. by rewrite lookup_fmap, fmap_is_Some. Qed.

Lemma run_names turns attempt d : same_names (dv_stores d) (dv_stores (run from_str turns attempt d).1.1).
Proof.
  revert attempt d. induction turns as [|[[msgs|e] t] turns IH]; intros attempt d n Hn; simpl; [done| |].
  - pose proof (pump_names msgs d n Hn) as Hp. destruct (pump from_str msgs d) as [d' [[]|]]; simpl in Hp; [| |done].
    + specialize (IH 1%nat d' n Hp). by destruct (run from_str turns 1 d') as [[]].
    + match goal with |- context [run from_str turns 1 ?ds] => specialize (IH 1%nat ds n (stale_names _ _ n Hp));
        by destruct (run from_str turns 1 ds) as [[]] end.
  - match goal with |- context [run from_str turns (S attempt) ?ds] => specialize (IH (S attempt) ds n (stale_names _ _ n Hn));
      by destruct (run from_str turns (S attempt) ds) as [[]] end.
Qed.

(** A handle always has a snapshot to return, whatever the driver went through. *)
Lemma handle_always_reads now names h stores turns i :
  watch now names = Ok (h, stores) → (i < length (hd_names h))%nat →
  is_Some (handle_snapshot h i (dv_stores (run from_str turns 0 (mkDriver stores "" None)).1.1)).
Proof.
  intros Hw Hi. apply covered_get; [|done]. intros n Hn.
  apply (run_names turns 0 (mkDriver stores "" None)), (watch_covered _ _ _ _ Hw), Hn.
Qed.

(** ** One loop written twice *)
Lemma raw_messages_pump msgs d :
  (raw_messages msgs (dv_resume_rv d)).1.2 = dv_resume_rv (pump from_str msgs d).1 ∧
  (raw_messages msgs (dv_resume_rv d)).2 = bool_decide (is_Some (pump from_str msgs d).2).
Proof.
  revert d. induction msgs as [|[now [[ev|]|e]] msgs IH]; intros d; simpl; try done.
  destruct (demux from_str now ev (dv_stores d) (dv_resume_rv d)) as [stores rv] eqn:Hd.
  assert ((match ev_config ev with
           | Some cfg => if is_empty (m_resource_version cfg) then dv_resume_rv d else m_resource_version cfg
           | None => dv_resume_rv d
           end) = rv) as ->.
  { unfold demux in Hd. destruct (ev_config ev) as [cfg|]; [|congruence].
    destruct (stores !! m_name cfg), (dv_stores d !! m_name cfg), (ev_type ev), (snapshot_from_proto from_str now cfg); congruence. }
  specialize (IH (mkDriver stores rv (Some now))). cbn [dv_resume_rv] in IH.
  by destruct (raw_messages msgs rv) as [[]].
Qed.

(** The raw stream and the driver ask to resume from the same versions and pause
    for the same times; the stream yields every event that was received. *)
Lemma loops_agree turns attempt d :
  (reconnecting_event_stream turns attempt (dv_resume_rv d)).1.2 = (run from_str turns attempt d).1.2 ∧
  (reconnecting_event_stream turns attempt (dv_resume_rv d)).2 = (run from_str turns attempt d).2.
Proof.
  revert attempt d. induction turns as [|[[msgs|e] t] turns IH]; intros attempt d; simpl; [done| |].
  - destruct (raw_messages_pump msgs d) as [Hr He].
    destruct (raw_messages msgs (dv_resume_rv d)) as [[evs rv] en]. simpl in *. subst.
    destruct (pump from_str msgs d) as [d' [[]|]]; simpl; [| |done].
    + destruct (IH 1%nat d') as [Hq Hs]. simpl in *.
      destruct (reconnecting_event_stream turns 1 (dv_resume_rv d')) as [[]], (run from_str turns 1 d') as [[]]. simpl in *. by subst.
    + match goal with |- context [run from_str turns 1 ?ds] => destruct (IH 1%nat ds) as [Hq Hs]; cbn [dv_resume_rv] in Hq, Hs;
        destruct (reconnecting_event_stream turns 1 (dv_resume_rv d')) as [[]], (run from_str turns 1 ds) as [[]] end. simpl in *. by subst.
  - match goal with |- context [run from_str turns (S attempt) ?ds] => destruct (IH (S attempt) ds) as [Hq Hs]; cbn [dv_resume_rv] in Hq, Hs;
      destruct (reconnecting_event_stream turns (S attempt) (dv_resume_rv d)) as [[]], (run from_str turns (S attempt) ds) as [[]] end. simpl in *. by subst.
Qed.
End Loops.

Lemma raw_messages_events msgs rv : (raw_messages msgs rv).1.1 = (received msgs).*2 ∧ (raw_messages msgs rv).2 = ended msgs.
Proof.
  revert rv. induction msgs as [|[now [[ev|]|e]] msgs IH]; intros rv; simpl; try done.
  match goal with |- context [raw_messages msgs ?r] => specialize (IH r); destruct (raw_messages msgs r) as [[]] end.
  simpl in *. by destruct IH as [-> ->].
Qed.

Lemma subscribe_yields turns : (client_subscribe turns).1.1 = (run_received turns).*2.
Proof.
  unfold client_subscribe. generalize 0%nat, "". induction turns as [|[[msgs|e] t] turns IH]; intros a rv; simpl; [done| |].
  - destruct (raw_messages_events msgs rv) as [He Hn]. destruct (raw_messages msgs rv) as [[evs rv'] en]. simpl in *. subst.
    rewrite fmap_app. destruct (ended msgs); simpl; [|by rewrite app_nil_r].
    specialize (IH 1%nat rv'). destruct (reconnecting_event_stream turns 1 rv') as [[]]. simpl in *. by rewrite IH.
  - specialize (IH (S a) rv). by destruct (reconnecting_event_stream turns (S a) rv) as [[]].
Qed.

(** ** The staleness gauge *)
Definition CONSUMER_STALE_SECONDS : Metrics.Desc :=
  Metrics.mkDesc "konfig_consumer_stale_seconds" "Seconds since the konfig stream last received an event (0 = active / fresh)"
    [] Metrics.Gauge.
Definition stale_series : Metrics.SeriesKey := ("konfig_consumer_stale_seconds", []).

Section Gauge.
Context {R : Type} `{Metrics.Prometheus R}.

Definition register_stale_seconds (registry : R) : result unit string * R :=
  Metrics.pr_register CONSUMER_STALE_SECONDS registry.

(** The sampler: at each tick, what the clock and the freshness cell hold. *)
Definition spawn_stale_sampler (ticks : list (Instant * option Instant)) (registry : R) : R :=
  foldl (λ r '(now, cell), Metrics.pr_set stale_series (Metrics.Value (stale_sample now cell)) r) registry ticks.

Context `{!Metrics.PrometheusLaws R}.

(** On a registry that does not have the gauge yet, registration succeeds, and a
    scrape shows the staleness of the last tick (0 before the first), and every
    other series as it was. *)
Lemma stale_gauge_exact registry ticks :
  Metrics.families registry !! "konfig_consumer_stale_seconds" = None →
  ∃ r, register_stale_seconds registry = (Ok tt, r) ∧
    Metrics.series (spawn_stale_sampler ticks r) =
      <[stale_series := Metrics.Value (default (S754_zero false) ((λ '(now, cell), stale_sample now cell) <$> last ticks))]>
        (Metrics.series registry).
Proof.
  intros Hn. destruct (Metrics.register_law CONSUMER_STALE_SECONDS registry eq_refl Hn) as (r & Hr & _ & Hs).
  exists r. split; [exact Hr|]. simpl in Hs. unfold spawn_stale_sampler.
  induction ticks as [|[now cell] ticks IH] using rev_ind; [exact Hs|].
  rewrite foldl_snoc, last_snoc. simpl.
  destruct (Metrics.set_law stale_series (Metrics.Value (stale_sample now cell))
    (foldl (λ r '(now, cell), Metrics.pr_set stale_series (Metrics.Value (stale_sample now cell)) r) r ticks)) as [_ ->].
  - rewrite IH, lookup_insert_eq. by eexists.
  - by rewrite IH, insert_insert_eq.
Qed.
End Gauge.

(** The tests of [metrics.rs]: a second registration on one registry is refused. *)
Lemma registration_tests :
  let r0 : Metrics.MetricsDemo.MapRegistry := (∅, ∅) in
  is_ok (register_stale_seconds r0).1 = true ∧ is_ok (register_stale_seconds (register_stale_seconds r0).2).1 = false.
Proof. by vm_compute. Qed.
End ClientApi.
