(* ===== verification/Wiring.v ===== *)
(** * Small parts every call goes through

    [sync_util.rs] (locks that outlive a panic) and the parts of
    [grpc/context.rs] around the handlers: the status recorded on the span of a
    call, the process anchor and the request ids minted from it, which never
    repeat. *)
From S2P Require Export Server.

Module Wiring.
Open Scope string_scope.
Open Scope Z_scope.

(** ** [sync_util.rs] *)

(** [std::sync::Mutex]: its data, and whether a holder panicked. *)
Record Mutex (T : Type) : Type := mkMutex { mx_data : T; mx_poisoned : bool }.
Arguments mkMutex {T} _ _.
Arguments mx_data {T} _.
Arguments mx_poisoned {T} _.

(** [lock]: the guard, or a [PoisonError] that carries it. *)
Definition lock {T} (m : Mutex T) : result T T := if mx_poisoned m then Err (mx_data m) else Ok (mx_data m).
Definition lock_recovered {T} (m : Mutex T) : T := match lock m with Ok g => g | Err e => e end.

(** A critical section: it leaves the data it wrote, and poisons the lock when it
    panics on the way ([None] for its result). *)
Definition critical {T A} (f : T → option A * T) (m : Mutex T) : option A * Mutex T :=
  let '(r, d) := f (lock_recovered m) in
  (r, mkMutex d (mx_poisoned m || bool_decide (r = None))).

(** A panic in one holder is invisible to the next: what a section computes and
    leaves behind does not depend on the poison. *)
Lemma poison_invisible {T A} (f : T → option A * T) (d : T) (p : bool) :
  (critical f (mkMutex d p)).1 = (f d).1 ∧ mx_data (critical f (mkMutex d p)).2 = (f d).2.
Proof. unfold critical, lock_recovered, lock. destruct p; simpl; by destruct (f d). Qed.

(** ** [grpc/context.rs] *)

(** [Debug] of a [Code]. *)
Definition code_debug (c : Code) : string :=
  match c with
  | Code_Ok => "Ok" | Cancelled => "Cancelled" | Unknown => "Unknown" | InvalidArgument => "InvalidArgument"
  | DeadlineExceeded => "DeadlineExceeded" | NotFound => "NotFound" | AlreadyExists => "AlreadyExists"
  | PermissionDenied => "PermissionDenied" | ResourceExhausted => "ResourceExhausted"
  | FailedPrecondition => "FailedPrecondition" | Aborted => "Aborted" | OutOfRange => "OutOfRange"
  | Unimplemented => "Unimplemented" | Internal => "Internal" | Unavailable => "Unavailable"
  | DataLoss => "DataLoss" | Unauthenticated => "Unauthenticated"
  end.

(** The span is its fields. *)
Definition record_status {A} (result : rpc A) (span : gmap string string) : rpc A * gmap string string :=
  let code := match result with Ok _ => "Ok" | Err st => code_debug (st_code st) end in
  (result, <["status_code" := code]> span).

(** The outcome passes through unchanged and is told apart on the span, except an
    error that carries the code of success. *)
Lemma record_status_exact {A} (r1 r2 : rpc A) span1 span2 :
  (record_status r1 span1).1 = r1 ∧
  ((record_status r1 span1).2 !! "status_code" = (record_status r2 span2).2 !! "status_code" ↔
   match r1 with Ok _ => Code_Ok | Err s => st_code s end = match r2 with Ok _ => Code_Ok | Err s => st_code s end).
Proof.
  split; [done|]. simpl. rewrite !lookup_insert_eq.
  destruct r1 as [?|[c1 ??]], r2 as [?|[c2 ??]]; simpl; try destruct c1; try destruct c2; simpl; split; congruence.
Qed.

(** [OnceLock::get_or_init] on the wall clock, [None] when it is before the epoch. *)
Definition process_start_nanos (cell : option Z) (wall_nanos : option Z) : Z * option Z :=
  match cell with
  | Some t => (t, cell)
  | None => let t := default 0 wall_nanos in (t, Some t)
  end.

Lemma process_start_once cell w1 w2 :
  let '(t, cell') := process_start_nanos cell w1 in process_start_nanos cell' w2 = (t, cell').
Proof. by destruct cell. Qed.

(** ** Request ids *)
Definition hex_value (c : ascii) : Z :=
  let n := Z.of_nat (nat_of_ascii c) in if n <? 58 then n - 48 else n - 87.
Fixpoint hex_read (z : Z) (s : string) : Z :=
  match s with "" => z | String c s' => hex_read (z * 16 + hex_value c) s' end.
Definition is_hex (c : ascii) : bool :=
  let n := Z.of_nat (nat_of_ascii c) in ((48 <=? n) && (n <? 58)) || ((97 <=? n) && (n <? 103)).

Lemma hex_digit_spec d : 0 ≤ d < 16 → hex_value (hex_digit d) = d ∧ is_hex (hex_digit d) = true.
Proof.
  intros Hd. assert (d ∈ seqZ 0 16) as Hin by (apply elem_of_seqZ; lia).
  assert (Forall (λ d, hex_value (hex_digit d) = d ∧ is_hex (hex_digit d) = true) (seqZ 0 16)) as Hall
    by (vm_compute; repeat constructor).
  rewrite Forall_forall in Hall. by apply Hall.
Qed.

Lemma hex_go_spec fuel n acc :
  0 ≤ n < 16 ^ Z.of_nat fuel → (0 < fuel)%nat →
  hex_read 0 (hex_go fuel n acc) = hex_read n acc ∧
  (str_all is_hex acc = true → str_all is_hex (hex_go fuel n acc) = true).
Proof.
  revert n acc. induction fuel as [|fuel IH]; intros n acc Hn Hf; [lia|].
  pose proof (Z.div_mod n 16 ltac:(lia)) as Hdm. pose proof (Z.mod_pos_bound n 16 ltac:(lia)) as Hm.
  destruct (hex_digit_spec (n mod 16) Hm) as [Hv Hh]. cbn [hex_go].
  destruct (Z.eqb_spec (n / 16) 0) as [H0|H0].
  - cbn [hex_read]. rewrite Hv. replace (0 * 16 + n mod 16) with n by lia. split; [done|].
    intros Ha. unfold str_all in *. cbn [list_ascii_of_string forallb]. by rewrite Hh, Ha.
  - assert (16 ^ Z.of_nat (S fuel) = 16 * 16 ^ Z.of_nat fuel) as Hp by (rewrite Nat2Z.inj_succ, Z.pow_succ_r; lia).
    assert (0 ≤ n / 16 < 16 ^ Z.of_nat fuel) as Hr by (split; [apply Z.div_pos; lia|apply Z.div_lt_upper_bound; lia]).
    assert (0 < fuel)%nat by (destruct fuel; [simpl in Hr; lia|lia]).
    destruct (IH (n / 16) (String (hex_digit (n mod 16)) acc) Hr) as [IH1 IH2]; [done|]. split.
    + rewrite IH1. cbn [hex_read]. rewrite Hv. f_equal. lia.
    + intros Ha. apply IH2. unfold str_all in *. cbn [list_ascii_of_string forallb]. by rewrite Hh, Ha.
Qed.

Lemma hex_spec n : 0 ≤ n < 2 ^ 128 → hex_read 0 (hex n) = n ∧ contains_char "-" (hex n) = false.
Proof.
  intros Hn. destruct (hex_go_spec 32 n "") as [Hr Hc]; [by change (16 ^ Z.of_nat 32) with (2 ^ 128)|lia|].
  split; [exact Hr|]. by apply (str_all_contains is_hex); [|apply Hc].
Qed.

(** The id minted by the process that started at [start], for its [seq]-th request. *)
Definition minted_id (start seq : Z) : string := hex start +:+ "-" +:+ hex seq.

Lemma minted_id_inj st1 st2 q1 q2 :
  0 ≤ st1 < 2 ^ 128 → 0 ≤ st2 < 2 ^ 128 → 0 ≤ q1 < 2 ^ 128 → 0 ≤ q2 < 2 ^ 128 →
  minted_id st1 q1 = minted_id st2 q2 → st1 = st2 ∧ q1 = q2.
Proof.
  intros H1 H2 H3 H4 Heq.
  destruct (hex_spec st1 H1) as [Hr1 Hc1], (hex_spec st2 H2) as [Hr2 Hc2].
  assert (split_once "-" (minted_id st1 q1) = Some (hex st1, hex q1)) as Hs1 by (by apply split_once_spec).
  assert (split_once "-" (minted_id st2 q2) = Some (hex st2, hex q2)) as Hs2 by (by apply split_once_spec).
  rewrite Heq, Hs2 in Hs1. injection Hs1 as Hs Hq. split.
  - by rewrite <- Hr1, <- Hr2, Hs.
  - by rewrite <- (proj1 (hex_spec q1 H3)), <- (proj1 (hex_spec q2 H4)), Hq.
Qed.

Lemma mod_shift_inj a i j m n :
  0 < m → n ≤ m → 0 ≤ i < 0 + n → 0 ≤ j < 0 + n → (a + i) mod m = (a + j) mod m → i = j.
Proof.
  intros Hm Hn Hi Hj Hq. pose proof (Z.div_mod (a + i) m ltac:(lia)). pose proof (Z.div_mod (a + j) m ltac:(lia)).
  assert (i - j = m * ((a + i) / m - (a + j) / m)) by lia. assert ((a + i) / m - (a + j) / m = 0) by nia. lia.
Qed.

Section Ids.
Context `{X : Externals} {W : Type}.

(** The ids of a sequence of calls that bring none of their own. *)
Fixpoint mint {T} (reqs : list (Request T)) (s : @St W) : list string :=
  match reqs with
  | [] => []
  | req :: rest => match request_id req s with (Ok id, s') => id :: mint rest s' | (Err _, _) => [] end
  end.

Definition anonymous_call {T} (req : Request T) : Prop :=
  match rq_request_id req with Some v => is_empty (trim v) = true | None => True end.

Lemma request_id_minted {T} (req : Request T) (s : @St W) :
  anonymous_call req →
  ∃ s', request_id req s = (Ok (minted_id x_process_start_nanos (lo_seq (s_logs s))), s') ∧
        lo_seq (s_logs s') = (lo_seq (s_logs s) + 1) mod (u64_max + 1).
Proof. unfold anonymous_call, request_id. destruct (rq_request_id req) as [v|]; [intros ->|intros _]; by eexists. Qed.

Lemma mint_spec {T} (reqs : list (Request T)) (s : @St W) :
  Forall anonymous_call reqs → in_u64 (lo_seq (s_logs s)) →
  mint reqs s = (λ i, minted_id x_process_start_nanos ((lo_seq (s_logs s) + i) mod (u64_max + 1))) <$> seqZ 0 (Z.of_nat (length reqs)).
Proof.
  intros Ha. revert s. induction Ha as [|req reqs Hr Ha IH]; intros s Hs; [done|].
  destruct (request_id_minted req s Hr) as (s' & Hid & Hseq).
  rewrite length_cons, Nat2Z.inj_succ, seqZ_cons by lia. cbn [mint fmap list_fmap]. rewrite Hid. f_equal.
  - unfold in_u64 in Hs. by rewrite Z.add_0_r, Z.mod_small by lia.
  - rewrite IH; [|unfold in_u64; rewrite Hseq; pose proof (Z.mod_pos_bound (lo_seq (s_logs s) + 1) (u64_max + 1) ltac:(done)); lia].
    rewrite Hseq, Z.pred_succ, <- (fmap_add_seqZ 1 0), <- list_fmap_compose. apply list_fmap_ext. intros i x _. simpl.
    rewrite Zplus_mod_idemp_l. do 2 f_equal. lia.
Qed.

(** No two calls of one process get the same minted id before 2^64 of them, and no
    two processes that started at different instants ever mint the same one. *)
Lemma request_ids_unique {T} (reqs : list (Request T)) (s : @St W) :
  0 ≤ x_process_start_nanos < 2 ^ 128 → in_u64 (lo_seq (s_logs s)) → Forall anonymous_call reqs →
  Z.of_nat (length reqs) ≤ u64_max + 1 →
  NoDup (mint reqs s) ∧
  ∀ id start seq, id ∈ mint reqs s → 0 ≤ start < 2 ^ 128 → in_u64 seq → start ≠ x_process_start_nanos → id ≠ minted_id start seq.
Proof.
  intros Hst Hs Ha Hlen. rewrite mint_spec by done.
  assert (∀ i, 0 ≤ (lo_seq (s_logs s) + i) mod (u64_max + 1) < 2 ^ 128) as Hm.
  { intros i. pose proof (Z.mod_pos_bound (lo_seq (s_logs s) + i) (u64_max + 1) ltac:(done)). unfold u64_max in *. lia. }
  split.
  - apply NoDup_fmap_2_strong; [|apply NoDup_seqZ]. intros i j Hi%elem_of_seqZ Hj%elem_of_seqZ Heq.
    destruct (minted_id_inj _ _ _ _ Hst Hst (Hm i) (Hm j) Heq) as [_ Hq]. by eapply (mod_shift_inj _ _ _ (u64_max + 1)).
  - intros id start seq [i [-> _]]%list_elem_of_fmap Hstart Hseq Hne Heq. apply Hne.
    assert (0 ≤ seq < 2 ^ 128) as Hseq' by (unfold in_u64, u64_max in Hseq; lia).
    by destruct (minted_id_inj _ _ _ _ Hst Hstart (Hm i) Hseq' Heq).
Qed.
End Ids.
End Wiring.
