(* ===== verification/Interleave.v ===== *)
(** * Any mix of writers, interleaved request by request

    The handlers of Apply, BatchApply, DryRunApply and Revert as trees of the
    requests they make: a call is a program whose next request is visible, so that
    several calls can be run against one API server in any order of their
    requests.  A program run without a break is the handler ([prog_handler]). *)
From S2P Require Export ApplyFacts Concurrent.

Module Interleave.

Section Program.
Context {A : Type}.
Inductive Prog : Type :=
  | Done (r : rpc A)
  | PGet (ns n : string) (k : result DynamicObject KubeError → Prog)
  | PPatch (ns n : string) (body : json) (k : result DynamicObject KubeError → Prog)
  | PList (ns n rv : string) (k : result (list DynamicObject) KubeError → Prog)
  | PSleep (ms : Z) (k : Prog)
  | PCount (ns label : string) (k : Prog).
End Program.
Arguments Prog A : clear implicits.

Fixpoint pthen {A B} (p : Prog A) (k : rpc A → Prog B) : Prog B :=
  match p with
  | Done r => k r
  | PGet ns n f => PGet ns n (λ r, pthen (f r) k)
  | PPatch ns n b f => PPatch ns n b (λ r, pthen (f r) k)
  | PList ns n rv f => PList ns n rv (λ r, pthen (f r) k)
  | PSleep ms p' => PSleep ms (pthen p' k)
  | PCount ns l p' => PCount ns l (pthen p' k)
  end.
Definition pbind {A B} (p : Prog A) (k : A → Prog B) : Prog B :=
  pthen p (λ r, match r with Ok a => k a | Err st => Done (Err st) end).

(** ** The handlers as programs *)
Section Handlers.
Context (yaml_spec : string → result ConfigSpec string).
Context (to_string : json → result string string).
Context {Validator : Type} (iter_errors : Validator → json → list string).
Context (traceparent : option string) (nanos : nat → Z) (de_display : DeError → string).

Definition fetch_current_prog (ns n : string) : Prog Z :=
  PGet ns n (λ r, Done (match r with
    | Ok obj => Ok (parse_schema_version_from_object obj)
    | Err err => if bool_decide (api_status_code err = Some 404) then Ok 0
                 else Err (status Unavailable ("kube error: " +:+ kube_display err))
    end)).

Fixpoint patch_prog (fuel attempt : nat) (ns n : string) (body : json) : Prog string :=
  match fuel with
  | O => Done (Err (status Unknown "out of fuel"))
  | S fuel' =>
      PPatch ns n body (λ r, match r with
        | Ok obj => Done (Ok (default ""%string (om_resource_version (do_metadata obj))))
        | Err err =>
            match classify_patch_error err attempt with
            | RetryAfter delay_ms =>
                PSleep (jittered_retry_ms (nanos attempt) delay_ms) (patch_prog fuel' (S attempt) ns n body)
            | AbortRetriesExhausted => Done (Err (status Aborted "409 Conflict — exceeded max retries"))
            | PatchUnavailable => Done (Err (status Unavailable ("kube patch error: " +:+ kube_display err)))
            end
        end)
  end.

Definition counted (ns : string) (r : rpc string) : Prog string :=
  PCount ns (if is_ok r then "ok" else "error") (Done r).

Definition apply_prog (ns n : string) (spec : ConfigSpec) : Prog string :=
  pbind (fetch_current_prog ns n) (λ current,
    match schema_version_decision (cs_schema_version spec) current with
    | Err st => PCount ns "rejected" (Done (Err st))
    | Ok _ => pthen (patch_prog 3 0 ns n (patch_body traceparent ns n spec)) (counted ns)
    end).

Fixpoint fetch_currents_prog (items : list BatchItem) : Prog (list Z) :=
  match items with
  | [] => Done (Ok [])
  | it :: rest =>
      pbind (fetch_current_prog (bi_namespace it) (bi_name it)) (λ c,
      pbind (fetch_currents_prog rest) (λ cs, Done (Ok (c :: cs))))
  end.

Fixpoint apply_items_prog (items : list BatchItem) : Prog (list BatchApplyResult) :=
  match items with
  | [] => Done (Ok [])
  | it :: rest =>
      pbind (apply_prog (bi_namespace it) (bi_name it) (bi_spec it)) (λ rv,
      pbind (apply_items_prog rest) (λ rs, Done (Ok (mkBatchResult (bi_namespace it) (bi_name it) rv :: rs))))
  end.

Notation SchemaTable := (gmap (string * string) Validator).

Definition handle_apply_prog (t : SchemaTable) (req : ApplyRequest) : Prog string :=
  match yaml_spec (ar_yaml_content req) with
  | Err e => Done (Err (status InvalidArgument ("invalid YAML: " +:+ e)))
  | Ok spec =>
      match validate_against_schema iter_errors t (ar_namespace req) (ar_name req) spec with
      | Err st => Done (Err st)
      | Ok _ => apply_prog (ar_namespace req) (ar_name req) spec
      end
  end.

Definition handle_batch_prog (t : SchemaTable) (reqs : list ApplyRequest) : Prog (list BatchApplyResult) :=
  match parse_batch_items yaml_spec reqs with
  | Err st => Done (Err st)
  | Ok items =>
      match schema_gate iter_errors t items with
      | Err st => Done (Err st)
      | Ok _ =>
          pbind (fetch_currents_prog items) (λ currents,
            match gate_batch_versions items currents with
            | Err st => Done (Err st)
            | Ok _ => apply_items_prog (sort_batch_items items)
            end)
      end
  end.

Definition handle_dry_run_prog (req : ApplyRequest) : Prog DryRunApplyResponse :=
  match yaml_spec (ar_yaml_content req) with
  | Err e => Done (Err (status InvalidArgument ("invalid YAML: " +:+ e)))
  | Ok spec =>
      PGet (ar_namespace req) (ar_name req) (λ r, Done (match r with
        | Ok obj => dry_run_response to_string (Some obj) spec
        | Err err => if bool_decide (api_status_code err = Some 404) then dry_run_response to_string None spec
                     else Err (status Unavailable ("kube error: " +:+ kube_display err))
        end))
  end.

Definition fetch_historical_prog (ns n rv : string) : Prog ConfigSpec :=
  PList ns n rv (λ r, Done (match r with
    | Ok items =>
        match filter (λ o, om_name (do_metadata o) = Some n) items with
        | [] => Err (status NotFound ("Config " +:+ n +:+ " not found at resource_version=" +:+ rv))
        | obj :: _ => parse_historical_obj de_display obj
        end
    | Err err => Err (map_list_error err n rv)
    end)).

Definition handle_revert_prog (req : RevertRequest) : Prog RevertResponse :=
  if is_empty (rr_to_resource_version req)
  then Done (Err (status InvalidArgument "to_resource_version must not be empty"))
  else
    pbind (fetch_historical_prog (rr_namespace req) (rr_name req) (rr_to_resource_version req)) (λ historical,
    pbind (fetch_current_prog (rr_namespace req) (rr_name req)) (λ current,
    let new_version := u32_saturating_add (Z.max current (cs_schema_version historical)) 1 in
    pbind (apply_prog (rr_namespace req) (rr_name req) (mkConfigSpec new_version (cs_content historical))) (λ rv,
    Done (Ok (mkRevertResponse rv new_version))))).

(** ** Calls *)
Inductive WriteCall : Type :=
  | CallApply (t : SchemaTable) (req : ApplyRequest)
  | CallBatch (t : SchemaTable) (reqs : list ApplyRequest)
  | CallDryRun (req : ApplyRequest)
  | CallRevert (req : RevertRequest).
Inductive Answer : Type :=
  | AnsApply (rv : string)
  | AnsBatch (rs : list BatchApplyResult)
  | AnsDryRun (d : DryRunApplyResponse)
  | AnsRevert (r : RevertResponse).

Definition prog_of (c : WriteCall) : Prog Answer :=
  match c with
  | CallApply t req => pbind (handle_apply_prog t req) (λ rv, Done (Ok (AnsApply rv)))
  | CallBatch t reqs => pbind (handle_batch_prog t reqs) (λ rs, Done (Ok (AnsBatch rs)))
  | CallDryRun req => pbind (handle_dry_run_prog req) (λ d, Done (Ok (AnsDryRun d)))
  | CallRevert req => pbind (handle_revert_prog req) (λ r, Done (Ok (AnsRevert r)))
  end.

(** The objects a call may write. *)
Definition targets (c : WriteCall) : list (string * string) :=
  match c with
  | CallApply _ req => [(ar_namespace req, ar_name req)]
  | CallBatch _ reqs => (λ req, (ar_namespace req, ar_name req)) <$> reqs
  | CallDryRun _ => []
  | CallRevert req => [(rr_namespace req, rr_name req)]
  end.

(** ** Running *)
Section Running.
Context {W : Type} `{KubeApi W}.

Definition handler (c : WriteCall) : M W Answer :=
  match c with
  | CallApply t req => let! rv := handle_apply yaml_spec iter_errors traceparent nanos t req in ret (AnsApply rv)
  | CallBatch t reqs => let! rs := handle_batch_apply yaml_spec iter_errors traceparent nanos t reqs in ret (AnsBatch rs)
  | CallDryRun req => let! d := handle_dry_run_apply yaml_spec to_string req in ret (AnsDryRun d)
  | CallRevert req => let! r := handle_revert traceparent nanos de_display req in ret (AnsRevert r)
  end.

(** One request, and a whole program. *)
Definition advance {A} (p : Prog A) (e : Env W) : Prog A * Env W :=
  match p with
  | Done r => (p, e)
  | PGet ns n k => let '(r, e') := api_get ns n e in (k r, e')
  | PPatch ns n b k => let '(r, e') := api_patch ns n b e in (k r, e')
  | PList ns n rv k => let '(r, e') := api_list_exact ns n rv e in (k r, e')
  | PSleep ms k => (k, emit (IoSleep ms) e)
  | PCount ns l k => (k, (count_apply ns l e).2)
  end.
Fixpoint interp {A} (p : Prog A) (e : Env W) : rpc A * Env W :=
  match p with
  | Done r => (r, e)
  | PGet ns n k => let '(r, e') := api_get ns n e in interp (k r) e'
  | PPatch ns n b k => let '(r, e') := api_patch ns n b e in interp (k r) e'
  | PList ns n rv k => let '(r, e') := api_list_exact ns n rv e in interp (k r) e'
  | PSleep ms k => interp k (emit (IoSleep ms) e)
  | PCount ns l k => interp k (count_apply ns l e).2
  end.

Lemma interp_step {A} (p : Prog A) e : interp p e = interp (advance p e).1 (advance p e).2.
Proof. destruct p; simpl; try done; by (destruct (api_get _ _ _) || destruct (api_patch _ _ _ _) || destruct (api_list_exact _ _ _ _)). Qed.

Lemma interp_pthen {A B} (p : Prog A) (k : rpc A → Prog B) e :
  interp (pthen p k) e = let '(r, e') := interp p e in interp (k r) e'.
Proof. revert e. induction p as [r|ns n f IH|ns n b f IH|ns n rv f IH|ms p IH|ns l p IH]; intros e; simpl; try done.
  - by destruct (api_get ns n e).
  - by destruct (api_patch ns n b e).
  - by destruct (api_list_exact ns n rv e).
Qed.

Lemma interp_pbind {A B} (p : Prog A) (k : A → Prog B) (m : M W A) (f : A → M W B) e :
  (∀ e, interp p e = m e) → (∀ a e, interp (k a) e = f a e) → interp (pbind p k) e = bind m f e.
Proof.
  intros Hp Hk. unfold pbind, bind. rewrite interp_pthen, Hp. by destruct (m e) as [[a|st] e']; simpl.
Qed.

Lemma interp_fetch_current ns n e : interp (fetch_current_prog ns n) e = fetch_current_schema_version ns n e.
Proof.
  unfold fetch_current_schema_version. simpl. destruct (api_get ns n e) as [[o|err] e']; [done|]. by case_bool_decide.
Qed.

Lemma interp_patch fuel a ns n b e : interp (patch_prog fuel a ns n b) e = patch_loop nanos fuel a (patch_once ns n b) e.
Proof.
  revert a e. induction fuel as [|fuel IH]; intros a e; simpl; [done|].
  unfold patch_once at 1. destruct (api_patch ns n b e) as [[o|err] e']; [done|].
  destruct (classify_patch_error err a); [|done..]. apply IH.
Qed.

Lemma interp_apply ns n spec e : interp (apply_prog ns n spec) e = apply_spec traceparent nanos ns n spec e.
Proof.
  apply interp_pbind; [apply interp_fetch_current|]. intros cur e1.
  destruct (schema_version_decision _ cur); [|done]. rewrite interp_pthen, interp_patch.
  unfold patch_with_retry, run_patch_retry_loop. by destruct (patch_loop nanos _ 0 _ e1) as [[rv|st] e2].
Qed.

Lemma interp_fetch_currents items e : interp (fetch_currents_prog items) e = fetch_currents items e.
Proof.
  revert e. induction items as [|it items IH]; intros e; [done|].
  apply interp_pbind; [apply interp_fetch_current|]. intros c e1. by apply interp_pbind.
Qed.

Lemma interp_apply_items items e : interp (apply_items_prog items) e = apply_items traceparent nanos items e.
Proof.
  revert e. induction items as [|it items IH]; intros e; [done|].
  apply interp_pbind; [apply interp_apply|]. intros c e1. by apply interp_pbind.
Qed.

Lemma interp_historical ns n rv e : interp (fetch_historical_prog ns n rv) e = fetch_historical_spec de_display ns n rv e.
Proof.
  unfold fetch_historical_spec. simpl. destruct (api_list_exact ns n rv e) as [[items|err] e']; [|done]. by case_match.
Qed.

(** A program run without a break is the handler. *)
Lemma prog_handler c e : interp (prog_of c) e = handler c e.
Proof.
  destruct c as [t req|t reqs|req|req]; apply interp_pbind; try done; clear e; intros e.
  - unfold handle_apply_prog, handle_apply, apply_inner. destruct (yaml_spec _) as [spec|]; [|done].
    unfold bind, lift. destruct (validate_against_schema _ _ _ _ _); [|done]. apply interp_apply.
  - unfold handle_batch_prog, handle_batch_apply, batch_gate, bind at 1 2 3, lift.
    destruct (parse_batch_items yaml_spec reqs) as [items|]; [|done]. destruct (schema_gate _ _ _); [|done].
    unfold pbind. rewrite interp_pthen, interp_fetch_currents. unfold bind at 1 2.
    destruct (fetch_currents items e) as [[cs|st] e1]; [|done]. destruct (gate_batch_versions items cs); [|done].
    apply interp_apply_items.
  - unfold handle_dry_run_prog, handle_dry_run_apply. destruct (yaml_spec _) as [spec|]; [|done]. simpl.
    destruct (api_get _ _ e) as [[o|err] e']; [done|]. by case_bool_decide.
  - unfold handle_revert_prog, handle_revert. destruct (is_empty _); [done|].
    apply interp_pbind; [apply interp_historical|]. intros h e1. apply interp_pbind; [apply interp_fetch_current|]. intros cur e2.
    apply interp_pbind; [apply interp_apply|]. done.
Qed.
End Running.

(** ** What a program may write

    [wp shared K f p Q]: [p] writes only objects of [K], each time a version above
    [f], and ends with [Q].  When the objects are [shared], others write them too
    and [f] is a lower bound of what is stored; otherwise [f] is what is stored, and
    moves with the writes of [p]. *)
Notation key := (string * string)%type.
Definition upd (f : key → Z) (k : key) (v : Z) : key → Z := λ k', if decide (k' = k) then v else f k'.
Definition sees (shared : bool) (f : key → Z) (k : key) (v : Z) : Prop := if shared then f k ≤ v else f k = v.
Definition after (shared : bool) (f : key → Z) (k : key) (v : Z) : key → Z := if shared then f else upd f k v.
Definition read_as (shared : bool) (f : key → Z) (k : key) (r : result DynamicObject KubeError) : Prop :=
  match r with
  | Ok o => sees shared f k (parse_schema_version_from_object o)
  | Err err => api_status_code err = Some 404 → sees shared f k 0
  end.

Fixpoint wp {A} (shared : bool) (K : list key) (f : key → Z) (p : Prog A) (Q : (key → Z) → rpc A → Prop) : Prop :=
  match p with
  | Done r => Q f r
  | PGet ns n k => ∀ r, ((ns, n) ∈ K → read_as shared f (ns, n) r) → wp shared K f (k r) Q
  | PPatch ns n b k =>
      (ns, n) ∈ K ∧ ∃ v, version_field b = Some (JInt v) ∧ in_u32 v ∧ f (ns, n) < v ∧
        (∀ o, wp shared K (after shared f (ns, n) v) (k (Ok o)) Q) ∧
        (∀ err, wp shared K f (k (Err err)) Q) ∧
        (∀ err, refuses err = false → wp shared K (after shared f (ns, n) v) (k (Err err)) Q)
  | PList ns n rv k => ∀ r, wp shared K f (k r) Q
  | PSleep _ k | PCount _ _ k => wp shared K f k Q
  end.

Section Wp.
Context (shared : bool) (K : list key).

Lemma wp_pthen {A B} f (p : Prog A) (k : rpc A → Prog B) Q :
  wp shared K f p (λ g r, wp shared K g (k r) Q) → wp shared K f (pthen p k) Q.
Proof.
  revert f. induction p as [r|ns n h IH|ns n b h IH|ns n rv h IH|ms p IH|ns l p IH]; intros f; simpl; auto.
  intros (Hin & v & Hv & Hr & Hlt & Ho & He & Hm). split; [done|]. exists v. split_and!; auto.
Qed.

Lemma wp_pbind {A B} f (p : Prog A) (k : A → Prog B) Q :
  wp shared K f p (λ g r, match r with Ok a => wp shared K g (k a) Q | Err st => Q g (Err st) end) →
  wp shared K f (pbind p k) Q.
Proof.
  intros Hp. apply wp_pthen. revert Hp. revert f.
  induction p as [r|ns n h IH|ns n b h IH|ns n rv h IH|ms p IH|ns l p IH]; intros f; simpl; auto.
  - by destruct r.
  - intros (Hin & v & Hv & Hr & Hlt & Ho & He & Hm). split; [done|]. exists v. split_and!; auto.
Qed.

Lemma sees_lt f k c v : sees shared f k c → c < v → f k < v.
Proof. unfold sees. destruct shared; lia. Qed.

Lemma wp_fetch f ns n Q :
  (∀ c, in_u32 c → ((ns, n) ∈ K → sees shared f (ns, n) c) → Q f (Ok c)) → (∀ st, Q f (Err st)) →
  wp shared K f (fetch_current_prog ns n) Q.
Proof.
  intros Hok Herr. simpl. intros [o|err] Hr; [apply Hok; [apply as_u32_range|done]|]. case_bool_decide; [|apply Herr].
  apply Hok; [done|]. intros Hin. by apply (Hr Hin).
Qed.

Lemma wp_historical f ns n rv Q :
  (∀ h, in_u32 (cs_schema_version h) → Q f (Ok h)) → (∀ st, Q f (Err st)) →
  wp shared K f (fetch_historical_prog ns n rv) Q.
Proof.
  intros Hok Herr r. cbn [wp]. destruct r as [items|err]; [|apply Herr]. destruct (filter _ items) as [|obj ?]; [apply Herr|].
  unfold parse_historical_obj. destruct (json_get "spec" (do_data obj)) as [v|]; [|apply Herr].
  destruct (config_spec_of_json v) as [h|] eqn:Hh; [|apply Herr]. apply Hok. by eapply config_spec_of_json_range.
Qed.

Lemma wp_patch f fuel a ns n b v Q :
  (ns, n) ∈ K → version_field b = Some (JInt v) → in_u32 v → f (ns, n) < v →
  (∀ rv, Q (after shared f (ns, n) v) (Ok rv)) →
  (∀ st, Q f (Err st)) → (∀ st, Q (after shared f (ns, n) v) (Err st)) →
  wp shared K f (patch_prog fuel a ns n b) Q.
Proof.
  intros Hin Hv Hr Hlt Hok He Hm. revert a. induction fuel as [|fuel IH]; intros a; simpl; [apply He|].
  split; [done|]. exists v. split_and!; [done..|by intros o; apply Hok| |].
  - intros err. destruct (classify_patch_error err a); [apply IH|apply He..].
  - intros err Hre. unfold classify_patch_error. case_bool_decide as H409; [|apply Hm].
    destruct err as [c m|m]; [|done]. by injection H409 as ->.
Qed.

Lemma wp_apply f ns n spec Q :
  (ns, n) ∈ K → in_u32 (cs_schema_version spec) →
  (∀ rv, f (ns, n) < cs_schema_version spec → Q (after shared f (ns, n) (cs_schema_version spec)) (Ok rv)) →
  (∀ g st, Q g (Err st)) →
  wp shared K f (apply_prog ns n spec) Q.
Proof.
  intros Hin Hr Hok He. apply wp_pbind, wp_fetch; [|apply He]. intros c _ Hc.
  destruct (schema_version_decision (cs_schema_version spec) c) as [[]|st] eqn:Hd; [|apply He].
  apply schema_version_decision_ok in Hd. pose proof (sees_lt _ _ _ _ (Hc Hin) Hd) as Hlt.
  apply wp_pthen. eapply wp_patch; [done|apply version_field_body|done..| | |]; simpl; auto.
Qed.

Lemma wp_fetch_currents f items Q :
  (∀ cs, Q f (Ok cs)) → (∀ st, Q f (Err st)) → wp shared K f (fetch_currents_prog items) Q.
Proof.
  revert Q. induction items as [|it items IH]; intros Q Hok He; cbn [fetch_currents_prog]; [apply Hok|].
  apply wp_pbind, wp_fetch; [|apply He]. intros c _ _. apply wp_pbind, IH; [|apply He]. intros cs. apply Hok.
Qed.

(** A version just written relates to what is known of the object. *)
Definition landed (v' v : Z) : Prop := if shared then v' < v else v' = v.
Lemma landed_after f k v : f k < v → landed (after shared f k v k) v.
Proof. unfold landed, after, upd. destruct shared; [done|]. by rewrite decide_True. Qed.
Lemma after_ne f k v k' : k' ≠ k → after shared f k v k' = f k'.
Proof. intros. unfold after, upd. destruct shared; [done|]. by rewrite decide_False. Qed.

Lemma wp_apply_items f items Q :
  NoDup (item_key <$> items) → (∀ it, it ∈ items → item_key it ∈ K ∧ in_u32 (cs_schema_version (bi_spec it))) →
  (∀ g rs, (∀ k, k ∉ item_key <$> items → g k = f k) →
     (∀ it, it ∈ items → landed (g (item_key it)) (cs_schema_version (bi_spec it))) → Q g (Ok rs)) →
  (∀ g st, Q g (Err st)) →
  wp shared K f (apply_items_prog items) Q.
Proof.
  revert f Q. induction items as [|it items IH]; intros f Q Hnd Hit Hok He; cbn [apply_items_prog].
  { apply Hok; [done|]. by intros it ?%elem_of_nil. }
  rewrite fmap_cons in Hnd. apply NoDup_cons in Hnd as [Hnin Hnd].
  destruct (Hit it) as [Hk Hr]; [apply elem_of_cons; by left|].
  apply wp_pbind, wp_apply; [done..| |done]. intros rv Hlt. apply wp_pbind, IH; [done| | |done].
  { intros it' Hin. apply Hit. apply elem_of_cons. by right. }
  intros g rs Hg Hl. simpl. apply Hok.
  - intros k Hkn. rewrite fmap_cons, not_elem_of_cons in Hkn. destruct Hkn as [Hne Hkn].
    rewrite Hg by done. by apply after_ne.
  - intros it' [->|Hin]%elem_of_cons; [|by apply Hl]. rewrite (Hg _ Hnin). by apply landed_after.
Qed.
End Wp.

(** What an answer says about the versions [f]. *)
Definition relates (R : Z → Z → Prop) (f : key → Z) (c : WriteCall) (r : rpc Answer) : Prop :=
  match c, r with
  | CallApply _ req, Ok _ =>
      ∃ spec, yaml_spec (ar_yaml_content req) = Ok spec ∧ R (f (ar_namespace req, ar_name req)) (cs_schema_version spec)
  | CallBatch _ reqs, Ok _ =>
      ∃ items, parse_batch_items yaml_spec reqs = Ok items ∧
        ∀ it, it ∈ items → R (f (item_key it)) (cs_schema_version (bi_spec it))
  | CallRevert req, Ok (AnsRevert resp) => R (f (rr_namespace req, rr_name req)) (rv_schema_version resp)
  | _, _ => True
  end.

Hypothesis yaml_range : ∀ y s, yaml_spec y = Ok s → in_u32 (cs_schema_version s).

Lemma batch_targets t reqs items it :
  parse_batch_items yaml_spec reqs = Ok items → it ∈ items →
  item_key it ∈ targets (CallBatch t reqs) ∧ in_u32 (cs_schema_version (bi_spec it)).
Proof.
  intros (_ & Hspecs & _)%parse_batch_items_ok [i Hi]%list_elem_of_lookup_1.
  destruct (Forall2_lookup_r _ _ _ _ _ Hspecs Hi) as (r & Hr & -> & Hy).
  split; [|by eapply yaml_range]. apply list_elem_of_fmap. exists r. split; [done|]. by eapply list_elem_of_lookup_2.
Qed.

Lemma relates_agree R f g c r : (∀ k, k ∈ targets c → f k = g k) → relates R f c r → relates R g c r.
Proof.
  intros Hfg. destruct c as [t req|t reqs|req|req], r as [[]|]; simpl; try done;
    try (by rewrite Hfg by (by apply list_elem_of_singleton)).
  all: try (intros (items & Hp & Hl); exists items; split; [done|]; intros it Hin; rewrite <- Hfg; [by apply Hl|];
            by eapply (batch_targets t)).
Qed.

Lemma wp_call shared f c : wp shared (targets c) f (prog_of c) (λ g r, relates (landed shared) g c r).
Proof.
  destruct c as [t req|t reqs|req|req]; apply wp_pbind; simpl targets.
  - unfold handle_apply_prog. destruct (yaml_spec _) as [spec|] eqn:Hy; [|done].
    destruct (validate_against_schema _ _ _ _ _); [|done].
    apply wp_apply; [by apply list_elem_of_singleton|by eapply yaml_range| |done].
    intros rv Hlt. simpl. exists spec. split; [done|]. by apply landed_after.
  - unfold handle_batch_prog. destruct (parse_batch_items yaml_spec reqs) as [items|] eqn:Hp; [|done].
    destruct (schema_gate _ _ _); [|done]. apply wp_pbind, wp_fetch_currents; [|done]. intros cs.
    destruct (gate_batch_versions items cs); [|done].
    assert (Hperm : sort_batch_items items ≡ₚ items) by apply merge_sort_Permutation.
    destruct (parse_batch_items_ok _ _ _ Hp) as (_ & _ & Hnd).
    apply wp_apply_items; [by rewrite Hperm|by intros it; rewrite Hperm; apply (batch_targets t _ _ _ Hp)| |done].
    intros g rs _ Hl. simpl. exists items. split; [done|]. intros it Hin. apply Hl. by rewrite Hperm.
  - unfold handle_dry_run_prog. destruct (yaml_spec _) as [spec|]; [|done]. simpl. intros r _. by case_match.
  - unfold handle_revert_prog. destruct (is_empty _); [done|]. 
    apply wp_pbind, wp_historical; [|done]. intros h Hh. apply wp_pbind, wp_fetch; [|done]. intros cur Hcr _.
    apply wp_pbind, wp_apply; [by apply list_elem_of_singleton| | |done].
    + apply u32_saturating_add_range; [unfold in_u32 in *; lia|done].
    + intros rv Hlt. simpl. by apply landed_after.
Qed.

(** ** Programs are short *)
Fixpoint within {A} (n : nat) (p : Prog A) : Prop :=
  match p, n with
  | Done _, _ => True
  | _, O => False
  | PGet _ _ k, S m | PPatch _ _ _ k, S m => ∀ r, within m (k r)
  | PList _ _ _ k, S m => ∀ r, within m (k r)
  | PSleep _ k, S m | PCount _ _ k, S m => within m k
  end.

Lemma within_done {A} n (r : rpc A) : within n (Done r).
Proof. by destruct n. Qed.
#[local] Hint Resolve within_done : core.

Lemma within_le {A} n m (p : Prog A) : within n p → (n ≤ m)%nat → within m p.
Proof.
  revert n m. induction p as [r|ns x h IH|ns x b h IH|ns x rv h IH|ms p IH|ns l p IH]; intros [|n] [|m] Hw Hle; simpl in *; try done; try lia;
    try (intros r; specialize (Hw r)); eapply IH; (done || lia).
Qed.

Lemma within_pthen {A B} n m (p : Prog A) (k : rpc A → Prog B) :
  within n p → (∀ r, within m (k r)) → within (n + m) (pthen p k).
Proof.
  revert n. induction p as [r|ns x h IH|ns x b h IH|ns x rv h IH|ms p IH|ns l p IH]; intros n Hp Hk;
    [apply (within_le m); [apply Hk|lia]|destruct n as [|n]; [done|]; simpl in *; auto..].
Qed.

Lemma within_pbind {A B} n m (p : Prog A) (k : A → Prog B) :
  within n p → (∀ a, within m (k a)) → within (n + m) (pbind p k).
Proof. intros Hp Hk. apply within_pthen; [done|]. intros [a|st]; [apply Hk|done]. Qed.

Lemma within_patch fuel a ns n b : within (2 * fuel) (patch_prog fuel a ns n b).
Proof.
  revert a. induction fuel as [|fuel IH]; intros a; [done|].
  replace (2 * S fuel)%nat with (S (S (2 * fuel))) by lia. simpl. intros [o|err]; [done|].
  destruct (classify_patch_error err a); [apply IH|done..].
Qed.

Lemma within_fetch ns n : within 1 (fetch_current_prog ns n).
Proof. done. Qed.

Lemma within_apply ns n spec : within 8 (apply_prog ns n spec).
Proof.
  apply (within_pbind 1 7); [apply within_fetch|]. intros c. destruct (schema_version_decision _ _); [|done].
  apply (within_pthen 6 1); [apply (within_patch 3)|exact (λ r, I)].
Qed.

Lemma within_fetch_currents items : within (length items) (fetch_currents_prog items).
Proof.
  induction items as [|it items IH]; [done|].
  change (length (it :: items)) with (1 + length items)%nat. apply within_pbind; [apply within_fetch|]. intros c.
  rewrite <- (Nat.add_0_r (length items)). by apply within_pbind.
Qed.

Lemma within_apply_items items : within (8 * length items) (apply_items_prog items).
Proof.
  induction items as [|it items IH]; [done|]. rewrite length_cons, Nat.mul_succ_r, Nat.add_comm.
  apply within_pbind; [apply within_apply|]. intros rv. rewrite <- (Nat.add_0_r (8 * length items)). by apply within_pbind.
Qed.

(** The requests, pauses and counters of a call. *)
Definition cost (c : WriteCall) : nat :=
  match c with CallApply _ _ => 8 | CallBatch _ reqs => 9 * length reqs | CallDryRun _ => 1 | CallRevert _ => 10 end.

Lemma within_cost c : within (cost c) (prog_of c).
Proof.
  rewrite <- (Nat.add_0_r (cost c)). destruct c as [t req|t reqs|req|req]; simpl prog_of; apply within_pbind; try done; simpl cost.
  - unfold handle_apply_prog. destruct (yaml_spec _); [|done]. destruct (validate_against_schema _ _ _ _ _); [|done]. apply within_apply.
  - unfold handle_batch_prog. destruct (parse_batch_items yaml_spec reqs) as [items|] eqn:Hp; [|done].
    destruct (schema_gate _ _ _); [|done]. destruct (parse_batch_items_ok _ _ _ Hp) as (_ & H2 & _). apply Forall2_length in H2. rewrite H2.
    replace (9 * length items)%nat with (length items + 8 * length items)%nat by lia.
    apply within_pbind; [apply within_fetch_currents|]. intros cs. destruct (gate_batch_versions items cs); [|done].
    assert (Hperm : sort_batch_items items ≡ₚ items) by apply merge_sort_Permutation.
    rewrite <- (Permutation_length Hperm). apply within_apply_items.
  - unfold handle_dry_run_prog. by destruct (yaml_spec _).
  - unfold handle_revert_prog. destruct (is_empty _); [done|]. apply (within_pbind 1 9); [exact (λ r, I)|]. intros h.
    apply (within_pbind 1 8); [apply within_fetch|]. intros cur. apply (within_pbind 8 0); [apply within_apply|done].
Qed.

(** ** A step keeps the promise *)
Section Pool.
Context {W : Type} `{KubeLaws W}.
#[local] Notation wstore e := (store (e_kube e)).

(** What a step leaves: the objects outside [K] as they were, and [f'] known of those in it. *)
Definition left_by (shared : bool) (K : list key) (f f' : key → Z) (e e' : Env W) : Prop :=
  (∀ k, k ∉ K → wstore e' !! k = wstore e !! k) ∧
  (∀ k, stored_version e' k = stored_version e k ∨ f k < stored_version e' k) ∧
  (∀ k, k ∈ K → sees shared f' k (stored_version e' k)) ∧ (shared = true → f' = f).

Lemma left_same shared K f e e' :
  wstore e' = wstore e → (∀ k, k ∈ K → sees shared f k (stored_version e k)) → left_by shared K f f e e'.
Proof. intros Hst Hf. unfold left_by, stored_version. rewrite Hst. split_and!; auto. Qed.

Lemma left_write shared K f ns n b v o e e' :
  (ns, n) ∈ K → version_field b = Some (JInt v) → in_u32 v → f (ns, n) < v →
  wstore e' = <[(ns, n) := o]> (wstore e) → version_field (do_data o) = version_field b →
  (∀ k, k ∈ K → sees shared f k (stored_version e k)) → left_by shared K f (after shared f (ns, n) v) e e'.
Proof.
  intros Hin Hv Hrg Hlt Hst Ho Hf.
  assert (Hnew : stored_version e' (ns, n) = v).
  { unfold stored_version. rewrite Hst, lookup_insert_eq. apply parse_version_field_u32; [by rewrite Ho|done]. }
  assert (Hold : ∀ k, k ≠ (ns, n) → wstore e' !! k = wstore e !! k) by (intros k Hk; rewrite Hst; by apply lookup_insert_ne).
  unfold left_by. split_and!.
  - intros k Hk. apply Hold. by intros ->.
  - intros k. destruct (decide (k = (ns, n))) as [->|Hk]; [right; lia|left]. unfold stored_version. by rewrite Hold.
  - intros k Hk. destruct (decide (k = (ns, n))) as [->|Hne].
    + rewrite Hnew. unfold sees, after, upd. destruct shared; [lia|by rewrite decide_True].
    + unfold sees in *. rewrite after_ne by done. specialize (Hf k Hk). unfold stored_version in *. by rewrite Hold.
  - intros ->. done.
Qed.

Lemma wp_step {A} shared K f (p p' : Prog A) Q (e e' : Env W) :
  quiet (e_kube e) → (∀ k, k ∈ K → sees shared f k (stored_version e k)) → wp shared K f p Q → advance p e = (p', e') →
  quiet (e_kube e') ∧ ∃ f', wp shared K f' p' Q ∧ left_by shared K f f' e e'.
Proof.
  intros Hq Hf Hp Hs. destruct p as [r|ns n h|ns n b h|ns n rv h|ms h|ns l h]; simpl in Hs.
  - simplify_eq. split; [done|]. exists f. split; [done|]. by apply left_same.
  - unfold api_get in Hs. destruct (kube_get ns n (e_kube e)) as [g w] eqn:Hg. simplify_eq.
    destruct (get_law _ _ _ _ _ Hq Hg) as (Hq' & Hst & Hr). split; [done|]. exists f. split; [|by apply left_same].
    apply Hp. intros Hin. specialize (Hf _ Hin). unfold stored_version in Hf.
    destruct g as [o|[c m|m]]; simpl; [by rewrite Hr in Hf| |done]. intros [= ->]. by rewrite Hr in Hf.
  - destruct Hp as (Hin & v & Hv & Hrg & Hlt & Hok & Herr & Hoth). unfold api_patch in Hs.
    destruct (kube_patch ns n b (e_kube e)) as [g w] eqn:Hg. simplify_eq.
    destruct (patch_law _ _ _ _ _ _ Hq Hg) as (Hq' & Hr). split; [done|]. destruct g as [o|err].
    + exists (after shared f (ns, n) v). destruct Hr. split; [done|]. by eapply left_write.
    + destruct Hr as [Hr|(Hre & o & Hst & Ho)].
      * exists f. split; [apply Herr|by apply left_same].
      * exists (after shared f (ns, n) v). split; [by apply Hoth|by eapply left_write].
  - unfold api_list_exact in Hs. destruct (kube_list_exact ns n rv (e_kube e)) as [g w] eqn:Hg. simplify_eq.
    destruct (list_law _ _ _ _ _ _ Hq Hg) as (Hq' & Hst). split; [done|]. exists f. split; [apply Hp|by apply left_same].
  - simplify_eq. split; [done|]. exists f. split; [done|]. by apply left_same.
  - simplify_eq. split; [done|]. exists f. split; [done|]. by apply left_same.
Qed.

(** ** The calls of a server, and a schedule of their requests *)
Definition Mix : Type := list (WriteCall * Prog Answer) * Env W.
Definition mix_step (s : Mix) (i : nat) : Mix :=
  match s.1 !! i with
  | Some (c, p) => let '(p', e') := advance p s.2 in (<[i := (c, p')]> s.1, e')
  | None => s
  end.
Definition mix_run (sched : list nat) (s : Mix) : Mix := foldl mix_step s sched.
Definition mix_start (calls : list WriteCall) (e : Env W) : Mix := ((λ c, (c, prog_of c)) <$> calls, e).

Lemma mix_start_lookup calls e i c p :
  (mix_start calls e).1 !! i = Some (c, p) ↔ calls !! i = Some c ∧ p = prog_of c.
Proof.
  simpl. rewrite list_lookup_fmap. destruct (calls !! i) as [d|]; simpl; [|by split; [|intros []]].
  split; [by intros [= -> <-]|by intros [[= ->] ->]].
Qed.

Lemma mix_run_calls sched s : (mix_run sched s).1.*1 = s.1.*1.
Proof.
  revert s; induction sched as [|i sched IH]; intros s; [done|]. simpl. rewrite IH. unfold mix_step.
  destruct (s.1 !! i) as [[c p]|] eqn:Hi; [|done]. destruct (advance p s.2) as [p' e']. cbn [fst].
  rewrite list_fmap_insert. apply list_insert_id. by rewrite list_lookup_fmap, Hi.
Qed.

Lemma mix_run_origin sched calls e i c p : (mix_run sched (mix_start calls e)).1 !! i = Some (c, p) → calls !! i = Some c.
Proof.
  intros Hi. pose proof (mix_run_calls sched (mix_start calls e)) as Ht. simpl in Ht.
  rewrite <- list_fmap_compose, list_fmap_id in Ht. by rewrite <- Ht, list_lookup_fmap, Hi.
Qed.

(** *** Shared objects: nothing falls below where it was *)
Record mix_ok (e0 : Env W) (s : Mix) : Prop := {
  mo_quiet : quiet (e_kube s.2);
  mo_floor k : stored_version e0 k ≤ stored_version s.2 k;
  mo_frame k : (∀ i c p, s.1 !! i = Some (c, p) → k ∉ targets c) → wstore s.2 !! k = wstore e0 !! k;
  mo_progs i c p : s.1 !! i = Some (c, p) →
    wp true (targets c) (stored_version e0) p (λ g r, relates Z.lt g c r)
}.

Lemma mix_start_ok calls e : quiet (e_kube e) → mix_ok e (mix_start calls e).
Proof. intros Hq. split; try done. intros i c p [_ ->]%mix_start_lookup. apply (wp_call true). Qed.

Lemma mix_step_ok e0 s i : mix_ok e0 s → mix_ok e0 (mix_step s i).
Proof.
  intros Hok. unfold mix_step. destruct (s.1 !! i) as [[c p]|] eqn:Hi; [|done]. destruct (advance p s.2) as [p' e'] eqn:Hs.
  destruct (wp_step true _ (stored_version e0) _ _ _ _ _ (mo_quiet _ _ Hok) (λ k _, mo_floor _ _ Hok k) (mo_progs _ _ Hok _ _ _ Hi) Hs)
    as (Hq & f' & Hp & Hfr & Hup & _ & Hf'). rewrite (Hf' eq_refl) in Hp.
  split; cbn [fst snd]; [done| | |].
  - intros k. destruct (Hup k) as [->|]; [apply Hok|lia].
  - intros k Hk. rewrite Hfr; [apply (mo_frame _ _ Hok)|].
    + intros j c' q Hj. destruct (decide (i = j)) as [<-|Hne].
      * rewrite Hi in Hj. simplify_eq. apply (Hk i c' p'). apply list_lookup_insert_eq. by eapply lookup_lt_Some.
      * apply (Hk j c' q). by rewrite list_lookup_insert_ne.
    + apply (Hk i c p'). apply list_lookup_insert_eq. by eapply lookup_lt_Some.
  - intros j c' q [(-> & ? & _)|[_ Hj]]%list_lookup_insert_Some; simplify_eq; [done|]. by eapply (mo_progs _ _ Hok).
Qed.

Lemma mix_run_ok e0 sched s : mix_ok e0 s → mix_ok e0 (mix_run sched s).
Proof. revert s; induction sched as [|i sched IH]; intros s Hok; [done|]. apply IH. by apply mix_step_ok. Qed.

(** *** Calls on different objects: versions only go up, and answers are stored *)
Definition apart (calls : list WriteCall) : Prop :=
  ∀ i j c d k, calls !! i = Some c → calls !! j = Some d → k ∈ targets c → k ∈ targets d → i = j.

Lemma apart_nodup calls : NoDup (calls ≫= targets) → apart calls.
Proof.
  induction calls as [|c0 calls IH]; intros Hnd i j c d k Hi Hj Hk Hk'; [done|]. rewrite bind_cons in Hnd.
  apply NoDup_app in Hnd as (_ & Hdis & Hnd).
  assert (∀ i c, calls !! i = Some c → k ∈ targets c → k ∈ targets c0 → False) as Hno.
  { intros i' c' Hi' Hc' Hc0. apply (Hdis k Hc0). apply list_elem_of_bind. exists c'. split; [done|]. by eapply list_elem_of_lookup_2. }
  destruct i as [|i], j as [|j]; simplify_eq/=; [done|by destruct (Hno j d)|by destruct (Hno i c)|].
  f_equal. by eapply (IH Hnd i j c d k).
Qed.

Record mix_apart (s : Mix) : Prop := {
  ma_quiet : quiet (e_kube s.2);
  ma_apart : apart s.1.*1;
  ma_progs i c p : s.1 !! i = Some (c, p) →
    ∃ f, wp false (targets c) f p (λ g r, relates eq g c r) ∧ ∀ k, k ∈ targets c → f k = stored_version s.2 k
}.

Lemma mix_start_apart calls e : quiet (e_kube e) → apart calls → mix_apart (mix_start calls e).
Proof.
  intros Hq Ha. split; [done| |].
  - simpl. by rewrite <- list_fmap_compose, list_fmap_id.
  - intros i c p [_ ->]%mix_start_lookup. exists (stored_version e). split; [apply (wp_call false)|done].
Qed.

Lemma mix_step_apart s i :
  mix_apart s → mix_apart (mix_step s i) ∧ ∀ k, stored_version s.2 k ≤ stored_version (mix_step s i).2 k.
Proof.
  intros Hok. pose proof (mix_run_calls [i] s) as Hc. simpl in Hc. unfold mix_step in *.
  destruct (s.1 !! i) as [[c p]|] eqn:Hi; [|done]. destruct (advance p s.2) as [p' e'] eqn:Hs.
  destruct (ma_progs _ Hok _ _ _ Hi) as (f & Hp & Hf).
  destruct (wp_step false _ f _ _ _ _ _ (ma_quiet _ Hok) Hf Hp Hs) as (Hq & f' & Hp' & Hfr & Hup & Hse & _).
  split; [split|]; cbn [fst snd] in *; [done| | |].
  - rewrite Hc. apply Hok.
  - intros j c' q [(-> & ? & _)|[Hne Hj]]%list_lookup_insert_Some; simplify_eq; [by exists f'|].
    destruct (ma_progs _ Hok _ _ _ Hj) as (g & Hg & Heq). exists g. split; [done|]. intros k Hk. rewrite Heq by done.
    unfold stored_version. rewrite Hfr; [done|]. intros Hkc. apply Hne.
    by eapply (ma_apart _ Hok i j c c' k); rewrite ?list_lookup_fmap, ?Hi, ?Hj.
  - intros k. destruct (Hup k) as [->|Hlt]; [done|]. destruct (decide (k ∈ targets c)) as [Hin|Hnin].
    + rewrite <- (Hf k Hin). lia.
    + unfold stored_version. by rewrite Hfr.
Qed.

Lemma mix_run_apart sched s :
  mix_apart s → mix_apart (mix_run sched s) ∧ ∀ k, stored_version s.2 k ≤ stored_version (mix_run sched s).2 k.
Proof.
  revert s; induction sched as [|i sched IH]; intros s Hok; [done|].
  destruct (mix_step_apart s i Hok) as [Hok' Hle]. destruct (IH _ Hok') as [? Hle']. split; [done|].
  intros k. specialize (Hle k). specialize (Hle' k). simpl in *. lia.
Qed.

(** *** Every call ends *)
Lemma within_O {A} (p : Prog A) : within 0 p → ∃ r, p = Done r.
Proof. destruct p; simpl; try done. eauto. Qed.

Lemma within_step {A} n (p : Prog A) (e : Env W) : within n p → within (n - 1) (advance p e).1.
Proof.
  destruct p as [r|ns x h|ns x b h|ns x rv h|ms h|ns l h]; [intros _; apply within_done|destruct n as [|n]; [done|]; simpl; rewrite Nat.sub_0_r..]; try done.
  - intros Hw. destruct (api_get ns x e); apply Hw.
  - intros Hw. destruct (api_patch ns x b e); apply Hw.
  - intros Hw. destruct (api_list_exact ns x rv e); apply Hw.
Qed.

Lemma mix_turns sched s i c p n :
  s.1 !! i = Some (c, p) → within n p →
  ∃ p', (mix_run sched s).1 !! i = Some (c, p') ∧ within (n - Concurrent.turns i sched) p'.
Proof.
  revert s p n; induction sched as [|j sched IH]; intros s p n Hi Hw.
  { exists p. split; [done|]. unfold Concurrent.turns. simpl. by rewrite Nat.sub_0_r. }
  assert (∃ p1, (mix_step s j).1 !! i = Some (c, p1) ∧ within (n - if decide (j = i) then 1 else 0) p1) as (p1 & Hi1 & Hw1).
  { unfold mix_step. destruct (decide (j = i)) as [->|Hne].
    - rewrite Hi. pose proof (within_step n p s.2 Hw) as Hw1. destruct (advance p s.2) as [p' e']. exists p'. cbn [fst].
      split; [|done]. apply list_lookup_insert_eq. by eapply lookup_lt_Some.
    - rewrite Nat.sub_0_r. exists p. split; [|done]. destruct (s.1 !! j) as [[d q]|]; [|done].
      destruct (advance q s.2). cbn [fst]. by rewrite list_lookup_insert_ne. }
  destruct (IH _ _ _ Hi1 Hw1) as (p2 & Hi2 & Hw2). exists p2. split; [done|].
  unfold Concurrent.turns in *. rewrite filter_cons. destruct (decide (j = i)); simpl; [|by rewrite Nat.sub_0_r in Hw2].
  by rewrite <- Nat.sub_add_distr in Hw2.
Qed.

(** Turns given to one call without a break are its handler. *)
Lemma mix_alone n s i c p :
  s.1 !! i = Some (c, p) → within n p →
  mix_run (replicate n i) s = let '(r, e') := interp p s.2 in (<[i := (c, Done r)]> s.1, e').
Proof.
  revert s p; induction n as [|n IH]; intros s p Hi Hw.
  { destruct (within_O _ Hw) as [r ->]. simpl. rewrite list_insert_id by done. by destruct s. }
  simpl. unfold mix_step. rewrite Hi. rewrite interp_step. pose proof (within_step _ _ s.2 Hw) as Hw1.
  destruct (advance p s.2) as [p1 e1]. cbn [fst snd] in *. rewrite Nat.sub_1_r in Hw1. simpl in Hw1.
  rewrite (IH _ p1) by (try done; cbn [fst]; apply list_lookup_insert_eq; by eapply lookup_lt_Some). cbn [fst snd].
  destruct (interp p1 e1). by rewrite list_insert_insert_eq.
Qed.

(** C8: overlapping writers.  Any number of Apply, BatchApply, DryRunApply and Revert
    calls submitted to a cluster nobody else writes to, their requests interleaved by
    any schedule: no stored version falls below what it was when they were submitted,
    and objects no call names are untouched; a call ends within [cost] of its turns
    (8 for an Apply, 9 per item of a batch, 10 for a Revert); a success wrote, on each
    object it names, a version above the one at submission.  When no two calls name the
    same object, versions never go down at any step, and at the end the versions of
    every success are the stored ones.  [cost] turns in a row are the sequential
    handler. *)
Theorem writers_interleaved calls (e : Env W) sched :
  quiet (e_kube e) →
  let s := mix_run sched (mix_start calls e) in
  (∀ k, stored_version e k ≤ stored_version s.2 k) ∧
  (∀ k, (∀ c, c ∈ calls → k ∉ targets c) → wstore s.2 !! k = wstore e !! k) ∧
  (∀ i c, calls !! i = Some c → (cost c ≤ Concurrent.turns i sched)%nat → ∃ r, s.1 !! i = Some (c, Done r)) ∧
  (∀ i c r, s.1 !! i = Some (c, Done r) → relates Z.lt (stored_version e) c r) ∧
  (apart calls →
     (∀ before later k, sched = before ++ later →
        stored_version (mix_run before (mix_start calls e)).2 k ≤ stored_version s.2 k) ∧
     ∀ i c r, s.1 !! i = Some (c, Done r) → relates eq (stored_version s.2) c r) ∧
  (∀ i c, s.1 !! i = Some (c, prog_of c) →
     mix_run (replicate (cost c) i) s = let '(r, e') := handler c s.2 in (<[i := (c, Done r)]> s.1, e')).
Proof.
  intros Hq s. pose proof (mix_run_ok e sched _ (mix_start_ok calls e Hq)) as Hok. fold s in Hok. split_and!.
  - apply Hok.
  - intros k Hk. apply (mo_frame _ _ Hok). intros i c p Hi. apply Hk. apply mix_run_origin in Hi. by eapply list_elem_of_lookup_2.
  - intros i c Hi Ht. destruct (mix_turns sched (mix_start calls e) i c (prog_of c) (cost c)) as (p & Hp & Hw).
    { by apply mix_start_lookup. } { apply within_cost. }
    replace (cost c - Concurrent.turns i sched)%nat with 0%nat in Hw by lia. apply within_O in Hw as [r ->]. eauto.
  - intros i c r Hi. exact (mo_progs _ _ Hok _ _ _ Hi).
  - intros Ha. pose proof (mix_start_apart calls e Hq Ha) as Hs0. split.
    + intros before later k ->. unfold s, mix_run. rewrite foldl_app. fold (mix_run before (mix_start calls e)).
      apply (mix_run_apart later). by apply mix_run_apart.
    + intros i c r Hi. destruct (mix_run_apart sched _ Hs0) as [Hap _]. destruct (ma_progs _ Hap _ _ _ Hi) as (f & Hf & Heq).
      by eapply relates_agree.
  - intros i c Hi. rewrite (mix_alone (cost c) s i c (prog_of c) Hi (within_cost c)), prog_handler. done.
Qed.
End Pool.
End Handlers.

(** ** Witnesses *)
Definition demo_calls : list (@WriteCall string) :=
  [CallApply ∅ (mkApplyRequest "prod" "web" "4");
   CallBatch ∅ [mkApplyRequest "prod" "db" "1"; mkApplyRequest "prod" "api" "2"];
   CallDryRun (mkApplyRequest "prod" "web" "9")].

(** Round robin, with a conflict for one of the patches. *)
Definition demo_schedule : list nat := concat (replicate 18 [0; 1; 2]%nat).

Lemma writers_interleaved_witness :
  let e := demo_world 3 [None; None; None; Some (AFail (ApiErr 409 "conflict"))] in
  let print (_ : json) : result string string := Ok "{}"%string in
  let s := mix_run demo_schedule (mix_start toy_yaml print toy_errors None (λ _, 0) (λ _, ""%string) demo_calls e) in
  stored_version s.2 ("prod", "web")%string = 4 ∧ stored_version s.2 ("prod", "api")%string = 2 ∧
  ∃ r, s.1 !! 1%nat = Some (CallBatch ∅ [mkApplyRequest "prod" "db" "1"; mkApplyRequest "prod" "api" "2"], Done r) ∧ is_ok r = true.
Proof.
  intros e print s. assert (Hq : quiet (e_kube e)) by (repeat constructor).
  destruct (writers_interleaved toy_yaml print toy_errors None (λ _, 0) (λ _, ""%string) toy_yaml_range demo_calls e demo_schedule Hq)
    as (_ & _ & Hfin & _ & Hap & _). fold s in Hfin, Hap.
  destruct Hap as [_ Hst].
  { apply apart_nodup, (bool_decide_unpack _). vm_compute. exact I. }
  split; [|split].
  - destruct (Hfin 0%nat _ eq_refl) as [r Hr]; [vm_compute; repeat constructor|].
    assert (is_ok r = true) as Hok. { revert Hr. vm_compute. by intros [= <-]. }
    pose proof (Hst _ _ _ Hr) as Hrel. destruct r as [a|]; [|done]. destruct Hrel as (spec & Hy & Hv). vm_compute in Hy. injection Hy as <-. exact Hv.
  - vm_compute. reflexivity.
  - destruct (Hfin 1%nat _ eq_refl) as [r Hr]; [vm_compute; repeat constructor|]. exists r. split; [exact Hr|].
    revert Hr. vm_compute. by intros [= <-].
Defined.
End Interleave.
